(* ===== verification/_CoqProject ===== *)
-Q . S2P
Prelude.v
CMem.v
CString.v
LogSpec.v
CircularBuffer.v
Kernel.v
CharDriver.v
CharDriverRel.v
CharDriverRefine.v
CharDriverSeek.v
CharDriverSystem.v
CharDriverModule.v
CharDriverProps.v
CharDriverLimits.v
CharDriverConc.v
CharDriverConcInv.v
CharDriverConcProps.v
CharDriverMemory.v
SList.v
Queue.v
QueueSpec.v
STailQ.v
ListQ.v
TailQ.v
QueueDebug.v
SocketThread.v
SocketThreadSpec.v
SocketThreadProps.v
SeekRequest.v
SocketServer.v
SocketServerProps.v
DeviceStream.v
DeviceServer.v
DeviceServerProps.v
SocketMain.v
SocketMainProps.v
SocketProcess.v
SocketProcessProps.v
SocketProcessEnd.v
SocketSystem.v
SocketSystemProps.v
WholeServer.v
WholeServerInv.v
WholeServerFiles.v
WholeServerProps.v
WholeServerLive.v
SystemCalls.v
Threading.v
Writer.v
Validate.v
