(* ===== verification/Prelude.v ===== *)
(** * A verification of the AESD assignments: character driver and socket server

    The repository builds a Linux character device that keeps the last ten
    newline-terminated commands written to it ([src/aesd-char-driver]), a TCP server
    that stores the lines clients send in a file or in that device and sends the
    contents back ([src/server]), and three small programs of earlier assignments
    ([src/examples/systemcalls], [src/examples/threading], [src/finder-app]), besides a
    placeholder for the automated tests ([src/examples/autotest-validate]). The
    driver's state is a circular buffer of ten entries, a pending command and a
    mutex; the server's threads share a mutex and the data file, which is the device
    when it is built for it; its main thread keeps the threads in a singly-linked
    list.

    ** How the C code is modelled

    A C integer is a [Z] with the conversion to its type written out ([u64], [s64],
    [u32], [u8]); signed overflow is a fault. A function gives an [outcome]: [Ret],
    a [Fault] where the C standard leaves the execution undefined (an access outside
    an object, to a freed one, to indeterminate bytes, a bad free, a null
    dereference), or [NoFuel]. Memory is a finite map of blocks of possibly
    indeterminate bytes ([CMem]); the state a function changes is passed explicitly.
    Code outside the repository is a parameter: the kernel functions of the driver
    ([Kernel], with the class [KernelOk] of what their documentation promises, and a
    concrete [plain_kernel]), allocation, [recv], [fork] and so on elsewhere. The C
    library's string functions and stdio are modelled as far as they are used
    ([CString], [SocketThread], [Writer]).

    ** The files

    - [Prelude]: outcomes, machine integers, arrays, lists, rings, labelled runs with
      their simulation lemma, the tactics [outcome_inv], [wrap_small],
      [in_list], [by_computation], the databases [cwrap] and [lists].
    - [CMem]: pointers and heap blocks, [memset], [memchr]. [CString]: [strlen],
      [strncat], [strncmp], the decimal conversions of [sscanf] and their inverse.
    - [LogSpec]: the abstract device, a log of at most ten commands with a pending
      one: writing, reading at a position, seeking.
    - [CircularBuffer]: [aesd-circular-buffer.c] and [.h]. [contents] is the list of
      entries from the oldest to the newest; [cb_wf] is the invariant.
    - [Kernel], [CharDriver]: [main.c], [aesdchar.h], [aesd_ioctl.h], every file
      operation with all early returns, loading and unloading. The two halves of
      [aesd_read] and the parts of [aesd_write] and [aesd_ioctl] are definitions of
      their own, composed as the code composes them.
    - [CharDriverRel], [CharDriverRefine], [CharDriverSeek], [CharDriverModule]: the
      relation [dev_rel] between the driver's state and a log, and what each
      operation does to it. While the mutex is held the relation claims nothing of
      the pending bytes, because a failed allocation leaves the device so.
    - [CharDriverSystem]: system calls on any number of open files as a step
      relation, the abstract device with a position per file, and the simulation.
    - [CharDriverProps]: refinement, absence of undefined behaviour, reads, writes,
      seeks. [CharDriverLimits]: progress, loading and unloading, and the defects.
      [CharDriverMemory]: which blocks of the kernel's heap are the driver's.
    - [CharDriverConc], [CharDriverConcInv], [CharDriverConcProps]: calls of several
      processes in progress at once. [aesd_read] takes no mutex, so its search and
      the storing of a command by [aesd_write] and [add_entry] are cut at every access
      to the buffer ([lookup_step], [commit_step]); the calls are also cut at the
      mutex, at its release and at the two accesses to [buffer_size]. Uncut, the steps
      are the functions of [CharDriver]. The abstract device ([conc_spec]) is the log
      with the set of the reads that have overlapped the storing of a command.
    - [SList]: the SLIST macros of [queue.h] on a heap of nodes with payloads, with
      the list a head represents; the server uses it.
    - [Queue]: the memory of link fields the other families work on, the list a head
      stands for ([represents], for the four layouts a family can have), and the
      loops. [QueueSpec]: the lists as an abstract machine ([pool_step]), the class
      [QueueFamily] of what a family's macros promise to it, and the simulation of
      any program on lists by one that satisfies the class. [STailQ], [ListQ],
      [TailQ]: the macros of each family and their instance.
    - [QueueDebug]: what [queue.h] has only in debugging builds, the checks of LIST
      and TAILQ, the trashed links, the traces.
    - [SocketThread], [SocketThreadSpec], [SocketThreadProps]: [threadHandler] of
      [aesdsocket.c], against the class [DataFile]; its instances are a regular file
      and the abstract device, and [driver_implements_data_file] shows that the
      driver does what the instance says.
    - [SeekRequest]: the server's copy of [aesd_ioctl.h] and the seek request from
      the client's text through the structure to the driver's bytes.
    - [SocketServer], [SocketServerProps]: the connection threads interleaved:
      every run is equivalent to a sequential one, mutual exclusion, progress.
    - [DeviceStream], [DeviceServer], [DeviceServerProps]: the server built for the
      device, with the calls stdio makes of the driver ([open], [write], [llseek],
      [read], [ioctl]) made on the driver's own state, for one thread and for all of
      them interleaved; the class [KernelWilling] of kernels that grant them.
    - [SocketMain], [SocketMainProps]: the accept loop turn by turn, the list of
      threads, [exitFunction], the effects of [signalHandler].
    - [SocketProcess], [SocketProcessProps], [SocketProcessEnd]: the life of the
      process, [main] and [ConfigureSocket] call by call with what the system keeps
      of sockets, handlers and the data file, and signals handled at any point in
      any thread, the handler's calls interleaved with the rest. An [ending] is an
      exit with its status, the signal that killed the process, or an undefined step.
    - [SocketSystem], [SocketSystemProps]: the accept loop step by step, interleaved
      with the connection threads over the nodes they share.
    - [WholeServer], [WholeServerInv], [WholeServerFiles], [WholeServerProps],
      [WholeServerLive]: the process of [SocketProcess] with the search and the
      threads of [SocketSystem] in it, and the data file under its name. The parts'
      invariants are kept by each other's steps; a file that gets the name after a
      handler has unlinked the last one starts a generation of its own, and each is
      served sequentially. What a thread may be undefined in is [own_fault]: a null
      pointer from [malloc], [realloc] or [fopen], the overruns of the receiving loop
      and of a packet. [WholeServerLive] leads a waiting thread to its end.
    - [SystemCalls], [Threading], [Writer], [Validate]: the small programs.

    ** What the theorems show

    The driver refines the ten-command log on every run and under every kernel
    behaviour, and is free of undefined behaviour but for the request to seek into
    command 10; reading in pieces, splitting a write, seeking and reading after a
    seek do what the log says; it loses no memory while its allocations succeed and
    its writes store something. Calls interleaved access by access are linearizable
    but for reads that overlap the storing of a command, which can look past the array
    or at a freed block, and for the size; every other step is defined. The list macros do to
    memory what their names say of lists, and their safe iterations allow what the
    plain ones do not. The server stores each line as one packet, sends back the
    file as that packet left it, and serialises its clients; its threads and its
    accept loop never touch a freed node, and the accept loop never waits in vain.
    A seek request survives its encodings. Built for the device, the server and the
    driver together are the server on the abstract log, however stdio cuts its
    writes and reads. At every [accept] before a signal the socket is bound and
    listening, the handlers are installed and the file exists. Once a signal is
    handled, the handler can always make its next call until the process ends, makes
    at most five calls for each signal without ending it, and, undisturbed, ends it in
    six with status 0 and the file removed; disturbed, it may end in another of the
    ways listed, status 1 with the file left among them. All the ways the process can
    end, undefined behaviour included, are listed with the state they leave. All of this holds
    of the whole process at once, main thread, connection threads, data file and
    handlers interleaved: its nodes, its search and its calls stay in defined behaviour, the packets are served
    one after the other from the files the name has stood for, and a thread that has
    its packet can always be brought to its end. The debugging
    checks of the list macros never panic on programs that make sense and do stop
    the use of stale elements. The theorems at the end of
    [CharDriverLimits], [SocketThreadProps] and [SocketMainProps] state where the
    code falls short: the off-by-one of the ioctl's range test, the mutex left held
    after a failed allocation, the lock-free read, [SEEK_END] and the seek after the
    buffer has wrapped, the pending bytes leaked at unload, the two overruns of the
    receiving loop, unchecked seek requests, descriptors never closed;
    [CharDriverConcProps] adds the lost updates of the size, [SocketSystemProps] the
    connection forgotten when its thread cannot be created, [SocketProcessEnd] the
    signal that ends the process with status 1 and leaves the file, and
    [WholeServerProps] the client that ends the server by hanging up early.

    ** Bounds and fuel

    The search of the circular buffer and the cleanup loop visit ten slots, so ten
    and eleven turns are enough; the loops over a list visit each node once, so one
    turn more than the memory has nodes or link fields; an uninterrupted write of the
    driver has at most 16 steps and a read 33 (ten turns of three accesses, and three
    more), so 40 are enough; the newline scan takes at most 101 turns; the sending loop one
    turn more than the file has bytes. The theorems prove that none of these runs
    out. Reads and writes are of at most [MAX_RW_COUNT] bytes, as the VFS ensures,
    and [KMALLOC_LIMIT] bounds a block.

    ** Not modelled

    Log output; the order in which one processor sees another's writes (each step
    of the interleaved models is atomic; the assignment of an entry is three stores in
    the order of its fields, and a copy to the user one access); data races on
    [data_count]; [aesd_llseek] and the request for command 10 among concurrent calls;
    failed [fopen] and allocations in the models of the threads without the process
    ([SocketServer], [SocketSystem], [DeviceServer]), which [WholeServer] has; failures
    of [fwrite], [fread] and [ioctl] on the data file there, and failures of [send]
    other than by [SIGPIPE], all of which the code ignores; the exit of the parent in
    [daemon]; a packet that
    stdio cuts after a newline in its middle, whose end the driver keeps as the start
    of another command; other processes at the device while the server uses it
    ([CharDriverConc] has them, but not together with the server); the variants of
    [queue.h] for C++ classes, and the traces of its macros other than TAILQ, which
    have none; scripts, Makefiles, logs and documentation. *)

From Stdlib Require Export ZArith Lia.
From Stdlib Require Export Strings.Byte.
From stdpp Require Export base option list gmap.

#[global] Open Scope Z_scope.
#[global] Set Default Goal Selector "!".

(** ** Outcomes of C code

    [Ret] is a normal return, [Fault] an execution the C standard leaves
    undefined (the model stops there, with the reason), [NoFuel] a loop that ran
    out of the fuel it was given. *)
Inductive fault : Type :=
| OutOfBounds
| NullDeref
| UseAfterFree
| InvalidFree
| Uninitialised
| SignedOverflow.

Inductive outcome (A : Type) : Type :=
| Ret (a : A)
| Fault (f : fault)
| NoFuel.
Arguments Ret {A} _.
Arguments Fault {A} _.
Arguments NoFuel {A}.

#[global] Instance fault_eq_dec : EqDecision fault.
Proof. solve_decision. Defined.

#[global] Instance outcome_ret : MRet outcome := fun A a => Ret a.

#[global] Instance outcome_bind : MBind outcome := fun A B k m =>
  match m with
  | Ret a => k a
  | Fault f => Fault f
  | NoFuel => NoFuel
  end.

(** [safe m]: the execution returns, whatever it returns. *)
Definition safe {A} (m : outcome A) : Prop := exists a, m = Ret a.

Lemma bind_Ret_inv {A B} (m : outcome A) (k : A -> outcome B) b :
  (m ≫= k) = Ret b -> exists a, m = Ret a /\ k a = Ret b.
Proof. destruct m; simpl; intros; [eauto | discriminate..]. Qed.

Lemma safe_bind {A B} (m : outcome A) (k : A -> outcome B) :
  safe m -> (forall a, m = Ret a -> safe (k a)) -> safe (m ≫= k).
Proof. intros [a ->] Hk. simpl. auto. Qed.

(** Inverts every [m ≫= k = Ret b] of the context. *)
Ltac outcome_inv :=
  repeat match goal with
  | H : (_ ≫= _) = Ret _ |- _ =>
      let a := fresh "a" in let Ha := fresh "Ha" in
      apply bind_Ret_inv in H as (a & Ha & H)
  | H : Ret _ = Ret _ |- _ => injection H as H; subst
  | H : Fault _ = Ret _ |- _ => discriminate H
  | H : NoFuel = Ret _ |- _ => discriminate H
  | H : mret _ = Ret _ |- _ => unfold mret, outcome_ret in H
  end.

(** ** Machine integers

    A C integer is a [Z]; each operation whose result is stored in a w-bit type
    is followed by the conversion to that type, which is written out. *)
Definition u8 (z : Z) : Z := z mod 2 ^ 8.
Definition u32 (z : Z) : Z := z mod 2 ^ 32.
Definition u64 (z : Z) : Z := z mod 2 ^ 64.
Definition s32 (z : Z) : Z := (z + 2 ^ 31) mod 2 ^ 32 - 2 ^ 31.
Definition s64 (z : Z) : Z := (z + 2 ^ 63) mod 2 ^ 64 - 2 ^ 63.

Lemma u8_small z : 0 <= z < 2 ^ 8 -> u8 z = z.
Proof. intros. apply Z.mod_small. lia. Qed.
Lemma u32_small z : 0 <= z < 2 ^ 32 -> u32 z = z.
Proof. intros. apply Z.mod_small. lia. Qed.
Lemma u64_small z : 0 <= z < 2 ^ 64 -> u64 z = z.
Proof. intros. apply Z.mod_small. lia. Qed.
Lemma s32_small z : - 2 ^ 31 <= z < 2 ^ 31 -> s32 z = z.
Proof. intros. unfold s32. rewrite Z.mod_small; lia. Qed.
Lemma s64_small z : - 2 ^ 63 <= z < 2 ^ 63 -> s64 z = z.
Proof. intros. unfold s64. rewrite Z.mod_small; lia. Qed.
Lemma u64_range z : 0 <= u64 z < 2 ^ 64.
Proof. apply Z.mod_pos_bound. lia. Qed.
Lemma u32_range z : 0 <= u32 z < 2 ^ 32.
Proof. apply Z.mod_pos_bound. lia. Qed.
Lemma s64_range z : - 2 ^ 63 <= s64 z < 2 ^ 63.
Proof. unfold s64. pose proof (Z.mod_pos_bound (z + 2 ^ 63) (2 ^ 64)). lia. Qed.

(** Going through the unsigned type of the same width does not change a signed
    conversion. *)
Lemma s64_u64 z : s64 (u64 z) = s64 z.
Proof. unfold s64, u64. by rewrite Zplus_mod_idemp_l. Qed.

(** [wrap_small] removes the conversions whose argument is in range. *)
Create Rewrite HintDb cwrap.
#[export] Hint Rewrite u8_small u32_small u64_small s32_small s64_small using lia : cwrap.
Ltac wrap_small := autorewrite with cwrap.

(** Addition at type [int], whose overflow is undefined. *)
Definition int_add (a b : Z) : outcome Z :=
  if (- 2 ^ 31 <=? a + b) && (a + b <? 2 ^ 31) then Ret (a + b) else Fault SignedOverflow.

Lemma int_add_ok a b : - 2 ^ 31 <= a + b < 2 ^ 31 -> int_add a b = Ret (a + b).
Proof.
  intros. unfold int_add.
  rewrite (proj2 (Z.leb_le _ _)), (proj2 (Z.ltb_lt _ _)) by lia. done.
Qed.

(** ** Arrays: an access outside the bounds is undefined *)
Definition arr_get {A} (l : list A) (i : Z) : outcome A :=
  if (0 <=? i) then
    match l !! Z.to_nat i with Some a => Ret a | None => Fault OutOfBounds end
  else Fault OutOfBounds.

Definition arr_set {A} (l : list A) (i : Z) (a : A) : outcome (list A) :=
  if (0 <=? i) && (i <? Z.of_nat (length l)) then Ret (<[Z.to_nat i := a]> l)
  else Fault OutOfBounds.

Lemma arr_get_lookup {A} (l : list A) (i : nat) a :
  l !! i = Some a -> arr_get l (Z.of_nat i) = Ret a.
Proof.
  intros H. unfold arr_get. rewrite (proj2 (Z.leb_le _ _)) by lia.
  by rewrite Nat2Z.id, H.
Qed.

Lemma arr_get_Ret {A} (l : list A) i a :
  arr_get l i = Ret a <-> 0 <= i /\ l !! Z.to_nat i = Some a.
Proof.
  unfold arr_get. destruct (Z.leb_spec 0 i).
  - destruct (l !! Z.to_nat i); split; [intros [= ->]; done | intros [_ [= ->]]; done
      | discriminate | intros [_ ?]; discriminate].
  - split; [discriminate | lia].
Qed.

Lemma arr_get_in_range {A} (l : list A) i :
  0 <= i < Z.of_nat (length l) -> exists a, arr_get l i = Ret a /\ l !! Z.to_nat i = Some a.
Proof.
  intros. destruct (lookup_lt_is_Some_2 l (Z.to_nat i)) as [a Ha]; [lia |].
  exists a. rewrite arr_get_Ret. split_and!; [lia | done..].
Qed.

Lemma arr_get_out_of_range {A} (l : list A) i :
  Z.of_nat (length l) <= i -> arr_get l i = Fault OutOfBounds.
Proof.
  intros. unfold arr_get. case_match; [| done].
  rewrite lookup_ge_None_2; [done | lia].
Qed.

Lemma arr_set_in_range {A} (l : list A) i a :
  0 <= i < Z.of_nat (length l) -> arr_set l i a = Ret (<[Z.to_nat i := a]> l).
Proof.
  intros. unfold arr_set.
  rewrite (proj2 (Z.leb_le _ _)), (proj2 (Z.ltb_lt _ _)) by lia. done.
Qed.

Lemma arr_set_Ret {A} (l l' : list A) i a :
  arr_set l i a = Ret l' -> length l' = length l /\ l' = <[Z.to_nat i := a]> l.
Proof.
  unfold arr_set. destruct (_ && _); intros H; [| discriminate].
  injection H as <-. by rewrite length_insert.
Qed.

(** ** Lists *)

(** [in_list] finds an element in a list written out. *)
Lemma elem_of_app_left {A} (x : A) l k : x ∈ l -> x ∈ l ++ k.
Proof. rewrite elem_of_app. by left. Qed.

Lemma elem_of_app_right {A} (x : A) l k : x ∈ k -> x ∈ l ++ k.
Proof. rewrite elem_of_app. by right. Qed.

Create HintDb lists.
#[export] Hint Resolve list_elem_of_here list_elem_of_further elem_of_app_left
  elem_of_app_right : lists.
Ltac in_list := solve [auto 10 with lists].

(** The sum of a list of integers. *)
Definition sumZ (l : list Z) : Z := foldr Z.add 0 l.

Lemma sumZ_app l1 l2 : sumZ (l1 ++ l2) = sumZ l1 + sumZ l2.
Proof. induction l1; simpl; lia. Qed.

Lemma sumZ_zeros n : sumZ (replicate n 0) = 0.
Proof. induction n; simpl; lia. Qed.

Lemma sumZ_nonneg l : Forall (fun z => 0 <= z) l -> 0 <= sumZ l.
Proof. induction 1; simpl; lia. Qed.

Lemma sumZ_le b l : Forall (fun z => z <= b) l -> sumZ l <= b * Z.of_nat (length l).
Proof. induction 1; cbn [sumZ foldr length] in *; [lia |]. unfold sumZ in *. nia. Qed.

Lemma sumZ_take_le n l : Forall (fun z => 0 <= z) l -> sumZ (take n l) <= sumZ l.
Proof.
  intros H. rewrite <- (take_drop n l) at 2. rewrite sumZ_app.
  pose proof (sumZ_nonneg (drop n l) ltac:(by apply Forall_drop)). lia.
Qed.

Lemma take_length_take {A} n (l : list A) : take (length (take n l)) l = take n l.
Proof.
  rewrite length_take. destruct (decide (n <= length l)%nat).
  - by rewrite Nat.min_l.
  - by rewrite Nat.min_r, !take_ge by lia.
Qed.

(** The last [n] elements of a list. *)
Definition last_n {A} (n : nat) (l : list A) : list A := drop (length l - n) l.

Lemma last_n_all {A} n (l : list A) : (length l <= n)%nat -> last_n n l = l.
Proof. intros. unfold last_n. by replace (length l - n)%nat with 0%nat by lia. Qed.

Lemma length_last_n {A} n (l : list A) : length (last_n n l) = (length l `min` n)%nat.
Proof. unfold last_n. rewrite length_drop. lia. Qed.

(** Keeping the last [n] of a list that grows at the end can be done step by
    step. *)
Lemma last_n_app_absorb {A} n (l k : list A) :
  last_n n (last_n n l ++ k) = last_n n (l ++ k).
Proof.
  unfold last_n. rewrite !length_app, length_drop.
  destruct (decide (length l <= n)%nat).
  - replace (length l - n)%nat with 0%nat by lia. by rewrite drop_0, Nat.sub_0_r.
  - rewrite !drop_app, drop_drop, length_drop. f_equal; [f_equal; lia |].
    f_equal. lia.
Qed.

Lemma last_n_full_snoc {A} n (l : list A) x :
  length l = n -> (0 < n)%nat -> last_n n (l ++ [x]) = tail l ++ [x].
Proof.
  intros. unfold last_n. rewrite length_app. simpl.
  replace (length l + 1 - n)%nat with 1%nat by lia.
  destruct l; simpl in *; [lia | done].
Qed.

Lemma Forall_last_n {A} (P : A -> Prop) n l : Forall P l -> Forall P (last_n n l).
Proof. apply Forall_drop. Qed.

Lemma fmap_last_n {A B} (f : A -> B) n l : f <$> last_n n l = last_n n (f <$> l).
Proof. unfold last_n. by rewrite fmap_drop, length_fmap. Qed.

Lemma Forall2_last_n {A B} (P : A -> B -> Prop) n l k :
  Forall2 P l k -> Forall2 P (last_n n l) (last_n n k).
Proof.
  intros H. unfold last_n. rewrite (Forall2_length _ _ _ H). by apply Forall2_drop.
Qed.

(** A ring read from position [i]. *)
Definition rotate_at {A} (i : nat) (l : list A) : list A := drop i l ++ take i l.

Lemma length_rotate_at {A} i (l : list A) : length (rotate_at i l) = length l.
Proof. unfold rotate_at. rewrite length_app, length_drop, length_take. lia. Qed.

Lemma rotate_at_perm {A} i (l : list A) : rotate_at i l ≡ₚ l.
Proof. unfold rotate_at. rewrite Permutation_app_comm. by rewrite take_drop. Qed.

Lemma lookup_rotate_at {A} i (l : list A) k :
  (i < length l)%nat -> (k < length l)%nat ->
  rotate_at i l !! k = l !! ((i + k) mod length l)%nat.
Proof.
  intros Hi Hk. unfold rotate_at. rewrite lookup_app, lookup_drop.
  destruct (decide (i + k < length l)%nat).
  - rewrite Nat.mod_small by done.
    destruct (lookup_lt_is_Some_2 l (i + k)) as [x Hx]; [done |]. by rewrite Hx.
  - rewrite (lookup_ge_None_2 l (i + k)) by lia.
    rewrite length_drop, lookup_take_lt by lia. f_equal.
    rewrite <- (Nat.mod_unique _ (length l) 1 (i + k - length l)); lia.
Qed.

(** Overwriting the first element of a ring and advancing its start drops the
    oldest element and appends the new one. *)
Lemma rotate_at_advance {A} i (l : list A) x :
  (i < length l)%nat ->
  rotate_at (if decide (S i = length l) then 0 else S i)%nat (<[i := x]> l)
  = tail (rotate_at i l) ++ [x].
Proof.
  intros Hi. unfold rotate_at.
  destruct (lookup_lt_is_Some_2 l i) as [y Hy]; [done |].
  rewrite (drop_S l y i) by done. simpl.
  rewrite insert_take_drop by done.
  assert (length (take i l) = i) as Hl by (rewrite length_take; lia).
  case_decide as Hend.
  - rewrite (drop_ge l) by lia. simpl. by rewrite app_nil_r.
  - rewrite drop_app_ge, take_app_ge, Hl by lia.
    replace (S i - i)%nat with 1%nat by lia. simpl. rewrite take_0. by rewrite <- app_assoc.
Qed.

(** ** Runs of a labelled step relation *)
Inductive run {St Ev : Type} (R : St -> Ev -> St -> Prop) : St -> list Ev -> St -> Prop :=
| run_nil s : run R s [] s
| run_cons s ev s' evs s'' : R s ev s' -> run R s' evs s'' -> run R s (ev :: evs) s''.

(** A step-by-step simulation extends to runs. *)
Lemma run_simulation {St Sp Ev : Type} (R : St -> Ev -> St -> Prop) (T : Sp -> Ev -> Sp -> Prop)
    (rel : St -> Sp -> Prop) :
  (forall s ev s' t, R s ev s' -> rel s t -> exists t', T t ev t' /\ rel s' t') ->
  forall s evs s' t, run R s evs s' -> rel s t -> exists t', run T t evs t' /\ rel s' t'.
Proof.
  intros Hsim s evs s' t Hrun. revert t. induction Hrun as [s | s ev s1 evs s2 Hstep _ IH];
    intros t Hrel.
  - exists t. split; [constructor | done].
  - destruct (Hsim _ _ _ _ Hstep Hrel) as (t1 & Ht1 & Hrel1).
    destruct (IH _ Hrel1) as (t2 & Ht2 & Hrel2). exists t2. split; [by econstructor | done].
Qed.

(** An invariant of the steps is an invariant of the runs. *)
Lemma run_invariant {St Ev : Type} (R : St -> Ev -> St -> Prop) (P : St -> Prop) :
  (forall s ev s', R s ev s' -> P s -> P s') ->
  forall s evs s', run R s evs s' -> P s -> P s'.
Proof. intros Hinv s evs s' Hrun. induction Hrun; eauto. Qed.

(** A run that is not empty has a last step. *)
Lemma run_last {St Ev : Type} (R : St -> Ev -> St -> Prop) s evs s' :
  run R s evs s' ->
  evs = [] /\ s' = s \/
  exists evs0 ev s0, evs = evs0 ++ [ev] /\ run R s evs0 s0 /\ R s0 ev s'.
Proof.
  induction 1 as [s | s ev s1 evs s2 Hstep Hrun IH]; [by left |]. right.
  destruct IH as [[-> ->] | (evs0 & ev' & s0 & -> & Hrun0 & Hlast)].
  - exists [], ev, s. split_and!; [done | apply run_nil | done].
  - exists (ev :: evs0), ev', s0. split_and!; [done | by eapply run_cons | done].
Qed.

Lemma run_app {St Ev : Type} (R : St -> Ev -> St -> Prop) s evs1 s1 evs2 s2 :
  run R s evs1 s1 -> run R s1 evs2 s2 -> run R s (evs1 ++ evs2) s2.
Proof. intros H1 H2. induction H1; [done | econstructor; eauto]. Qed.

(** Decidable facts on concrete values, as the witnesses need them. *)
Ltac by_computation :=
  clear; vm_compute; repeat split; first [reflexivity | intros; discriminate].
