(* ===== verification/CMem.v ===== *)
(** The C memory the components share: pointers, heap blocks with possibly
    indeterminate bytes, and the string functions of the C library that the
    sources call ([memset], [memchr]), with every access checked. *)

From Stdlib Require Import String.
From S2P Require Import Prelude.

#[global] Instance byte_eq_dec : EqDecision byte := Byte.byte_eq_dec.

(** A pointer value: [NULL], the kernel's [ZERO_SIZE_PTR] (what [kmalloc(0)]
    returns), the start of a heap block, or a string literal. *)
Inductive cptr : Type :=
| PNull
| PZeroSize
| PBlk (b : nat)
| PLit (s : string).

#[global] Instance cptr_eq_dec : EqDecision cptr.
Proof. solve_decision. Defined.

Definition is_null (p : cptr) : bool :=
  match p with PNull => true | _ => false end.

(** A byte in memory is [None] while its value is indeterminate. *)
Abbreviation cell := (option byte) (only parsing).
Abbreviation block := (list (option byte)) (only parsing).
Abbreviation heap := (gmap nat (list (option byte))) (only parsing).

(** The block a pointer designates. *)
Definition get_block (h : heap) (p : cptr) : outcome block :=
  match p with
  | PNull => Fault NullDeref
  | PZeroSize => Ret []
  | PBlk b => match h !! b with Some blk => Ret blk | None => Fault UseAfterFree end
  | PLit s => Ret (fmap Some (list_byte_of_string s) ++ [Some x00])
  end.

(** The bytes of cells that must all be initialised. *)
Fixpoint init_cells (cs : block) : outcome (list byte) :=
  match cs with
  | [] => Ret []
  | None :: _ => Fault Uninitialised
  | Some c :: cs => bs ← init_cells cs; Ret (c :: bs)
  end.

(** Reads [n] bytes at [p + off]. *)
Definition load_bytes (h : heap) (p : cptr) (off n : Z) : outcome (list byte) :=
  blk ← get_block h p;
  if (0 <=? off) && (0 <=? n) && (off + n <=? Z.of_nat (length blk))
  then init_cells (take (Z.to_nat n) (drop (Z.to_nat off) blk))
  else Fault OutOfBounds.

(** [blk] with [bs] written from index [off]. *)
Definition splice (off : nat) (bs : list byte) (blk : block) : block :=
  take off blk ++ fmap Some bs ++ drop (off + length bs) blk.

(** Writes [bs] at [p + off]. *)
Definition store_bytes (h : heap) (p : cptr) (off : Z) (bs : list byte) : outcome heap :=
  match p with
  | PBlk b =>
      match h !! b with
      | Some blk =>
          if (0 <=? off) && (off + Z.of_nat (length bs) <=? Z.of_nat (length blk))
          then Ret (<[b := splice (Z.to_nat off) bs blk]> h)
          else Fault OutOfBounds
      | None => Fault UseAfterFree
      end
  | PNull => Fault NullDeref
  | PZeroSize | PLit _ =>
      match bs with [] => Ret h | _ :: _ => Fault OutOfBounds end
  end.

(** [memset(p + off, c, n)] *)
Definition memset (h : heap) (p : cptr) (off : Z) (c : byte) (n : Z) : outcome heap :=
  store_bytes h p off (replicate (Z.to_nat n) c).

Fixpoint memchr_cells (c : byte) (n : nat) (cs : block) : outcome (option nat) :=
  match n, cs with
  | O, _ => Ret None
  | S _, [] => Fault OutOfBounds
  | S _, None :: _ => Fault Uninitialised
  | S n, Some b :: cs =>
      if decide (b = c) then Ret (Some 0%nat)
      else r ← memchr_cells c n cs; Ret (option_map S r)
  end.

(** [memchr(p, c, n)]: the index of the first [c], [None] for [NULL]. *)
Definition memchr (h : heap) (p : cptr) (c : byte) (n : Z) : outcome (option nat) :=
  blk ← get_block h p; memchr_cells c (Z.to_nat n) blk.

(** ** What a block holds *)

(** The block [b] is allocated and starts with the initialised bytes [bs]. *)
Definition starts_with (h : heap) (b : nat) (bs : list byte) : Prop :=
  exists rest, h !! b = Some (fmap Some bs ++ rest).

(** [p] points to a block that starts with [bs]. *)
Definition holds (h : heap) (p : cptr) (bs : list byte) : Prop :=
  exists b, p = PBlk b /\ starts_with h b bs.

(** The block a pointer owns, if it owns one. *)
Definition ptr_block (p : cptr) : option nat :=
  match p with PBlk b => Some b | _ => None end.

Lemma starts_with_insert_ne h b b' blk bs :
  b <> b' -> starts_with h b bs -> starts_with (<[b' := blk]> h) b bs.
Proof. intros ? [rest ?]. exists rest. by rewrite lookup_insert_ne. Qed.

Lemma starts_with_delete_ne h b b' bs :
  b <> b' -> starts_with h b bs -> starts_with (delete b' h) b bs.
Proof. intros ? [rest ?]. exists rest. by rewrite lookup_delete_ne. Qed.

Lemma init_cells_Some bs : init_cells (fmap Some bs) = Ret bs.
Proof. induction bs as [|b bs IH]; [done |]. cbn. by rewrite IH. Qed.

Lemma load_bytes_starts h b bs off n :
  starts_with h b bs -> 0 <= off -> 0 <= n -> off + n <= Z.of_nat (length bs) ->
  load_bytes h (PBlk b) off n = Ret (take (Z.to_nat n) (drop (Z.to_nat off) bs)).
Proof.
  intros [rest Hb] Hoff Hn Hle. unfold load_bytes, get_block. rewrite Hb. cbn.
  rewrite length_app, length_fmap.
  destruct (_ && _) eqn:E.
  - rewrite drop_app_le by (rewrite length_fmap; lia).
    rewrite take_app_le by (rewrite length_drop, length_fmap; lia).
    by rewrite <- fmap_drop, <- fmap_take, init_cells_Some.
  - rewrite !andb_false_iff, !Z.leb_gt in E. lia.
Qed.

Lemma memchr_cells_Some c bs rest :
  memchr_cells c (length bs) (fmap Some bs ++ rest) = Ret (fst <$> list_find (c =.) bs).
Proof.
  induction bs as [|b bs IH]; [done |]. csimpl.
  destruct (decide (b = c)) as [-> | Hne], (decide (c = _)) as [? | Hne'];
    try (done || congruence).
  rewrite IH. by destruct (list_find _ _) as [[]|].
Qed.

Lemma memchr_starts h b bs c :
  starts_with h b bs ->
  memchr h (PBlk b) c (Z.of_nat (length bs)) = Ret (fst <$> list_find (c =.) bs).
Proof.
  intros [rest Hb]. unfold memchr, get_block. rewrite Hb. cbn.
  rewrite Nat2Z.id. apply memchr_cells_Some.
Qed.

Lemma store_bytes_in_range h b blk off bs :
  h !! b = Some blk -> 0 <= off -> off + Z.of_nat (length bs) <= Z.of_nat (length blk) ->
  store_bytes h (PBlk b) off bs = Ret (<[b := splice (Z.to_nat off) bs blk]> h).
Proof.
  intros Hb ? ?. unfold store_bytes. rewrite Hb.
  by rewrite (proj2 (Z.leb_le _ _)), (proj2 (Z.leb_le _ _)) by lia.
Qed.

Lemma length_splice off bs blk :
  (off + length bs <= length blk)%nat -> length (splice off bs blk) = length blk.
Proof.
  intros. unfold splice. rewrite !length_app, length_take, length_fmap, length_drop. lia.
Qed.

Lemma splice_app_r (l : block) bs rest :
  (length bs <= length rest)%nat ->
  splice (length l) bs (l ++ rest) = l ++ fmap Some bs ++ drop (length bs) rest.
Proof.
  intros. unfold splice. rewrite take_app_length.
  rewrite drop_app_ge by lia. do 3 f_equal. lia.
Qed.
