(* ===== verification/CString.v ===== *)
(** The C library's string functions, as the user-space programs of the repository
    use them: strings held in a block the program owns, or in a local array, every
    access checked. [strlen], [strncat], [strncmp] and the [%d] conversions of
    [sscanf]. *)

From Stdlib Require Import String.
From S2P Require Import Prelude CMem.

Definition NUL : byte := x00.

(** ** Strings in memory *)

(** [strlen]: reads up to the first NUL. *)
Fixpoint strlen (s : list (option byte)) : outcome nat :=
  match s with
  | [] => Fault OutOfBounds
  | None :: _ => Fault Uninitialised
  | Some c :: s => if decide (c = NUL) then Ret 0%nat else n ← strlen s; Ret (S n)
  end.

(** The characters of the string at [s]. *)
Fixpoint c_string (s : list (option byte)) : outcome (list byte) :=
  match s with
  | [] => Fault OutOfBounds
  | None :: _ => Fault Uninitialised
  | Some c :: s => if decide (c = NUL) then Ret [] else cs ← c_string s; Ret (c :: cs)
  end.

(** What [strncat(_, src, n)] takes from the array [src]: at most [n] characters, up
    to the first NUL. *)
Fixpoint strncat_source (n : nat) (src : list byte) : outcome (list byte) :=
  match n with
  | O => Ret []
  | S n =>
      match src with
      | [] => Fault OutOfBounds
      | c :: src => if decide (c = NUL) then Ret [] else cs ← strncat_source n src; Ret (c :: cs)
      end
  end.

(** [strncat(dest, src, n)]: the characters taken and a NUL are stored from the end
    of the string at [dest] on. *)
Definition strncat (dest : list (option byte)) (src : list byte) (n : Z)
    : outcome (list (option byte)) :=
  len ← strlen dest;
  cs ← strncat_source (Z.to_nat n) src;
  let new := cs ++ [NUL] in
  if (len + length new <=? length dest)%nat then Ret (splice len new dest)
  else Fault OutOfBounds.

(** [strncmp(s, lit, n) == 0], for a string literal [lit]. *)
Fixpoint strncmp_eq (s : list (option byte)) (lit : list byte) (n : nat) {struct n}
    : outcome bool :=
  match n with
  | O => Ret true
  | S n =>
      match s with
      | [] => Fault OutOfBounds
      | None :: _ => Fault Uninitialised
      | Some c :: s =>
          let '(d, lit) := match lit with d :: lit => (d, lit) | [] => (NUL, []) end in
          if decide (c = d) then if decide (c = NUL) then Ret true else strncmp_eq s lit n
          else Ret false
      end
  end.

(** ** Facts *)

(** [s] holds the string [cs]: its characters and a NUL, then anything. *)
Definition holds_string (s : list (option byte)) (cs : list byte) : Prop :=
  (NUL ∉ cs) /\ exists rest, s = fmap Some (cs ++ [NUL]) ++ rest.

Lemma holds_string_length s cs : holds_string s cs -> (length cs < length s)%nat.
Proof.
  intros [_ [rest ->]]. rewrite length_app, length_fmap, length_app. cbn [length]. lia.
Qed.

Lemma holds_string_nil n : (0 < n)%nat -> holds_string (replicate n (Some NUL)) [].
Proof.
  intros. destruct n as [|n]; [lia |]. split; [by intros ?%elem_of_nil |].
  by exists (replicate n (Some NUL)).
Qed.

Lemma strlen_holds s cs : holds_string s cs -> strlen s = Ret (length cs).
Proof.
  intros [Hno [rest ->]]. induction cs as [|c cs IH]; [done |].
  apply not_elem_of_cons in Hno as [Hc Hno]. cbn. rewrite decide_False by done.
  change (list_fmap byte (option byte) Some (cs ++ [NUL])) with (Some <$> (cs ++ [NUL])).
  by rewrite IH.
Qed.

Lemma c_string_holds s cs : holds_string s cs -> c_string s = Ret cs.
Proof.
  intros [Hno [rest ->]]. induction cs as [|c cs IH]; [done |].
  apply not_elem_of_cons in Hno as [Hc Hno]. cbn. rewrite decide_False by done.
  change (list_fmap byte (option byte) Some (cs ++ [NUL])) with (Some <$> (cs ++ [NUL])).
  by rewrite IH.
Qed.

(** The characters before the first NUL. *)
Fixpoint before_nul (bs : list byte) : list byte :=
  match bs with
  | [] => []
  | c :: bs => if decide (c = NUL) then [] else c :: before_nul bs
  end.

Lemma before_nul_no_nul bs : NUL ∉ before_nul bs.
Proof.
  induction bs as [|c bs IH]; cbn; [by intros ?%elem_of_nil |].
  case_decide; [by intros ?%elem_of_nil |]. by apply not_elem_of_cons.
Qed.

Lemma before_nul_id bs : NUL ∉ bs -> before_nul bs = bs.
Proof.
  induction bs as [|c bs IH]; [done |]. intros [Hc Hbs]%not_elem_of_cons. cbn.
  by rewrite decide_False, IH by done.
Qed.

Lemma before_nul_app_nul bs rest : NUL ∉ bs -> before_nul (bs ++ NUL :: rest) = bs.
Proof.
  induction bs as [|c bs IH]; cbn; [done |]. intros [Hc Hbs]%not_elem_of_cons.
  by rewrite decide_False, IH by done.
Qed.

Lemma length_before_nul bs : (length (before_nul bs) <= length bs)%nat.
Proof. induction bs as [|c bs IH]; cbn; [lia |]. case_decide; cbn; lia. Qed.

(** The source is read in bounds when it holds enough characters or a NUL. *)
Lemma strncat_source_spec n src :
  strncat_source n src =
  if decide (n <= length src \/ NUL ∈ src)%nat then Ret (before_nul (take n src))
  else Fault OutOfBounds.
Proof.
  revert src. induction n as [|n IH]; intros src; cbn.
  - rewrite decide_True by lia. done.
  - destruct src as [|c src]; cbn [length take before_nul].
    + rewrite decide_False; [done |]. rewrite elem_of_nil. lia.
    + destruct (decide (c = NUL)) as [-> | Hc].
      * rewrite decide_True by (right; by in_list). done.
      * rewrite IH. destruct (decide (n <= length src \/ NUL ∈ src)%nat) as [H | H].
        -- rewrite decide_True; [done |]. rewrite elem_of_cons. intuition lia.
        -- rewrite decide_False; [done |]. rewrite elem_of_cons. intuition (lia || congruence).
Qed.

(** Appending to a string, when source and destination are large enough. *)
Lemma strncat_ok dest cs src n :
  holds_string dest cs -> (Z.to_nat n <= length src \/ NUL ∈ src)%nat ->
  let new := before_nul (take (Z.to_nat n) src) in
  (length cs + length new < length dest)%nat ->
  exists dest', strncat dest src n = Ret dest' /\ holds_string dest' (cs ++ new) /\
    length dest' = length dest.
Proof.
  intros Hs Hsrc new Hlen. unfold strncat. rewrite (strlen_holds _ _ Hs).
  cbn [mbind outcome_bind]. rewrite strncat_source_spec, decide_True by done.
  fold new. cbn [mbind outcome_bind].
  rewrite (proj2 (Nat.leb_le _ _)) by (rewrite length_app; cbn [length]; lia).
  eexists. split; [done |]. destruct Hs as [Hno [rest ->]]. split.
  - split; [rewrite elem_of_app; pose proof (before_nul_no_nul (take (Z.to_nat n) src)); by intros [|] |].
    rewrite fmap_app, <- app_assoc, <- (length_fmap Some cs), splice_app_r.
    + eexists. by rewrite !fmap_app, <- !app_assoc.
    + rewrite !length_app, length_fmap, length_app in *. cbn [length] in *. lia.
  - apply length_splice. rewrite length_app. cbn [length]. lia.
Qed.

Lemma strncmp_eq_prefix s cs lit :
  holds_string s cs -> NUL ∉ lit ->
  strncmp_eq s lit (length lit) = Ret (bool_decide (lit `prefix_of` cs)).
Proof.
  intros [Hno [rest ->]]. revert cs Hno. induction lit as [|d lit IH]; intros cs Hno Hlit.
  { rewrite bool_decide_eq_true_2; [done | apply prefix_nil]. }
  apply not_elem_of_cons in Hlit as [Hd Hlit]. destruct cs as [|c cs]; cbn [length strncmp_eq].
  - cbn. rewrite decide_False by congruence.
    rewrite bool_decide_eq_false_2; [done | by intros ?%prefix_nil_inv].
  - apply not_elem_of_cons in Hno as [Hc Hno]. cbn.
    change (list_fmap byte (option byte) Some (cs ++ [NUL])) with (Some <$> (cs ++ [NUL])).
    destruct (decide (c = d)) as [-> | Hne].
    + rewrite decide_False by congruence. rewrite IH by done. f_equal.
      apply bool_decide_ext. split; [apply prefix_cons | apply prefix_cons_inv_2].
    + rewrite bool_decide_eq_false_2; [done |]. by intros ?%prefix_cons_inv_1.
Qed.

(** ** The decimal conversions of [sscanf] *)

Definition ascii (b : byte) : Z := Z.of_N (Byte.to_N b).
Definition is_digit (b : byte) : bool := (48 <=? ascii b) && (ascii b <=? 57).
Definition is_space (b : byte) : bool :=
  (ascii b =? 32) || ((9 <=? ascii b) && (ascii b <=? 13)).

(** The digits at the start of [bs], after ones of value [acc]. *)
Fixpoint digits (acc : Z) (bs : list byte) : Z * list byte :=
  match bs with
  | [] => (acc, [])
  | b :: bs' => if is_digit b then digits (10 * acc + (ascii b - 48)) bs' else (acc, bs)
  end.

Fixpoint skip_spaces (bs : list byte) : list byte :=
  match bs with
  | [] => []
  | b :: bs' => if is_space b then skip_spaces bs' else bs
  end.

(** The conversion [%d]: [None] when the input does not match; a value that is not
    an [int] leaves the behaviour undefined. *)
Definition scan_d (bs : list byte) : outcome (option (Z * list byte)) :=
  let bs := skip_spaces bs in
  let '(neg, bs) := match bs with
                    | x2d :: bs => (true, bs)
                    | x2b :: bs => (false, bs)
                    | _ => (false, bs)
                    end in
  match bs with
  | b :: _ =>
      if is_digit b then
        let '(n, rest) := digits 0 bs in
        let n := if (neg : bool) then - n else n in
        if (- 2 ^ 31 <=? n) && (n <? 2 ^ 31) then Ret (Some (n, rest)) else Fault SignedOverflow
      else Ret None
  | [] => Ret None
  end.

(** Ordinary characters of a format, none of them a space. *)
Fixpoint scan_literal (lit bs : list byte) : option (list byte) :=
  match lit, bs with
  | [], _ => Some bs
  | c :: lit, b :: bs => if decide (c = b) then scan_literal lit bs else None
  | _ :: _, [] => None
  end.

(** [sscanf(s, lit "%d" sep "%d", &a, &b)]: what is assigned to [a] and [b]. *)
Definition sscanf_d_d (lit sep : list byte) (cs : list byte) : outcome (option Z * option Z) :=
  match scan_literal lit cs with
  | None => Ret (None, None)
  | Some cs =>
      a ← scan_d cs;
      match a with
      | None => Ret (None, None)
      | Some (a, cs) =>
          match scan_literal sep cs with
          | None => Ret (Some a, None)
          | Some cs => b ← scan_d cs; Ret (Some a, option_map fst b)
          end
      end
  end.

(** ** Printing decimal numbers *)

Definition digit_byte (d : Z) : byte :=
  default x30 (Byte.of_N (Z.to_N (48 + d))).

Fixpoint dec_digits (fuel : nat) (z : Z) (acc : list byte) : list byte :=
  match fuel with
  | O => acc
  | S fuel =>
      if z <? 10 then digit_byte z :: acc
      else dec_digits fuel (z / 10) (digit_byte (z mod 10) :: acc)
  end.

(** [%d] of a non-negative [int]: ten digits are enough. *)
Definition print_d (z : Z) : list byte := dec_digits 10 z [].

Lemma ascii_digit d : 0 <= d < 10 -> ascii (digit_byte d) = 48 + d.
Proof.
  intros Hd. assert (d ∈ (Z.of_nat <$> seq 0 10)) as Hin.
  { apply list_elem_of_fmap. exists (Z.to_nat d). split; [lia |]. apply elem_of_seq. lia. }
  revert d Hd Hin. 
  assert (Forall (fun d => ascii (digit_byte d) = 48 + d) (Z.of_nat <$> seq 0 10)) as Hall
    by (apply (bool_decide_unpack _); by vm_compute).
  intros d _ Hin. rewrite Forall_forall in Hall. by apply Hall.
Qed.

Lemma is_digit_digit d : 0 <= d < 10 -> is_digit (digit_byte d) = true.
Proof. intros Hd. unfold is_digit. rewrite ascii_digit by done. lia. Qed.

Lemma digits_dec fuel z acc :
  0 <= z < 10 ^ Z.of_nat fuel -> digits 0 (dec_digits fuel z acc) = digits z acc.
Proof.
  revert z acc. induction fuel as [|fuel IH]; intros z acc Hz.
  { cbn [dec_digits]. change (10 ^ Z.of_nat 0) with 1 in Hz. by replace z with 0 by lia. }
  cbn [dec_digits]. rewrite Nat2Z.inj_succ, Z.pow_succ_r in Hz by lia.
  destruct (Z.ltb_spec z 10).
  - cbn [digits]. rewrite is_digit_digit, ascii_digit by lia. f_equal. lia.
  - rewrite IH by (Z.to_euclidean_division_equations; lia). cbn [digits].
    assert (0 <= z mod 10 < 10) by (apply Z.mod_pos_bound; lia).
    rewrite is_digit_digit, ascii_digit by done. f_equal.
    pose proof (Z.div_mod z 10 ltac:(lia)). lia.
Qed.

Lemma dec_digits_head fuel z acc :
  0 <= z -> (0 < fuel)%nat -> exists b bs, dec_digits fuel z acc = b :: bs /\
    is_digit b = true.
Proof.
  revert z acc. induction fuel as [|fuel IH]; intros z acc Hz Hf; [lia |]. cbn [dec_digits].
  destruct (Z.ltb_spec z 10).
  - eexists _, _. split; [done |]. by apply is_digit_digit.
  - assert (0 <= z mod 10 < 10) by (apply Z.mod_pos_bound; lia).
    destruct fuel as [|fuel].
    + eexists _, _. split; [done |]. by apply is_digit_digit.
    + apply IH; [by apply Z.div_pos | lia].
Qed.

Lemma digit_not_space b : is_digit b = true -> is_space b = false /\ b <> x2d /\ b <> x2b.
Proof.
  unfold is_digit, is_space. intros H. split; [lia |]. split; by intros ->.
Qed.

(** [%d] reads back what it printed, up to the first character that is not a
    digit. *)
Lemma scan_print_d z rest :
  0 <= z < 2 ^ 31 -> match rest with b :: _ => is_digit b = false | [] => True end ->
  scan_d (print_d z ++ rest) = Ret (Some (z, rest)).
Proof.
  intros Hz Hrest. assert (print_d z ++ rest = dec_digits 10 z rest) as ->.
  { unfold print_d. generalize 10%nat as fuel. intros fuel.
    change rest with ([] ++ rest) at 2. generalize (@nil byte) as acc. revert z Hz.
    induction fuel as [|fuel IH]; intros z Hz acc; [done |]. cbn [dec_digits].
    destruct (z <? 10); [done |]. rewrite IH; [done |].
    Z.to_euclidean_division_equations; lia. }
  destruct (dec_digits_head 10 z rest) as (b & bs & Heq & Hdig); [lia.. |].
  pose proof (digits_dec 10 z rest) as Hd. rewrite Heq in Hd |- *.
  destruct (digit_not_space b Hdig) as (Hsp & Hm & Hp).
  unfold scan_d. cbn [skip_spaces]. rewrite Hsp.
  assert ((match b :: bs with
           | x2d :: bs => (true, bs) | x2b :: bs => (false, bs) | _ => (false, b :: bs)
           end) = (false, b :: bs)) as -> by (by destruct b).
  rewrite Hdig, Hd by (change (10 ^ Z.of_nat 10) with 10000000000; lia).
  assert (digits z rest = (z, rest)) as ->.
  { destruct rest as [|b' rest]; [done |]. cbn. by rewrite Hrest. }
  cbv iota. rewrite (proj2 (Z.leb_le _ _)), (proj2 (Z.ltb_lt _ _)) by lia. done.
Qed.

Lemma scan_literal_app lit cs : scan_literal lit (lit ++ cs) = Some cs.
Proof. induction lit as [|c lit IH]; cbn; [done |]. by rewrite decide_True. Qed.
