(* ===== verification/LogSpec.v ===== *)
(** The abstract specification of the character device: a log of the last ten
    commands and a pending, unterminated one. The driver refines it
    ([CharDriverRel]); the position arithmetic ([locate]) is shared with the
    circular buffer. *)

From S2P Require Import Prelude CMem.

(** ** Positions in a sequence of chunks *)

(** Where offset [off] falls in a sequence of
    chunks of the given sizes. *)
Fixpoint locate (sizes : list Z) (off : Z) : option (nat * Z) :=
  match sizes with
  | [] => None
  | s :: sizes =>
      if off <? s then Some (0%nat, off)
      else match locate sizes (off - s) with
           | Some (k, o) => Some (S k, o)
           | None => None
           end
  end.

Definition sizes_ok (l : list Z) : Prop := Forall (fun z => 0 <= z) l /\ sumZ l < 2 ^ 64.

Lemma locate_app l1 l2 off :
  locate (l1 ++ l2) off =
  match locate l1 off with
  | Some r => Some r
  | None => match locate l2 (off - sumZ l1) with
            | Some (k, o) => Some (length l1 + k, o)%nat
            | None => None
            end
  end.
Proof.
  revert off. induction l1 as [|s l1 IH]; intros off; simpl.
  - rewrite Z.sub_0_r. by destruct (locate l2 off) as [[]|].
  - destruct (off <? s); [done |]. rewrite IH.
    destruct (locate l1 (off - s)) as [[]|]; [done |].
    rewrite Z.sub_add_distr. by destruct (locate l2 _) as [[]|].
Qed.

(** The chunk found holds the offset. *)
Lemma locate_Some l off k o :
  0 <= off -> locate l off = Some (k, o) ->
  exists s, l !! k = Some s /\ 0 <= o < s /\ off = sumZ (take k l) + o.
Proof.
  revert off k. induction l as [|s l IH]; intros off k Hoff; simpl; [done |].
  destruct (Z.ltb_spec off s).
  - intros [= <- <-]. exists s. simpl. split_and!; [done | lia..].
  - destruct (locate l (off - s)) as [[k' o']|] eqn:E; [| done].
    intros [= <- <-]. destruct (IH (off - s) k') as (s' & ? & ? & ?); [lia | done |].
    exists s'. simpl. split_and!; [done | lia..].
Qed.

(** Nothing is found exactly past the end. *)
Lemma locate_None l off :
  Forall (fun z => 0 <= z) l -> 0 <= off -> locate l off = None <-> sumZ l <= off.
Proof.
  intros Hl. revert off. induction Hl as [|s l Hs Hl IH]; intros off Hoff; simpl.
  { naive_solver lia. }
  pose proof (sumZ_nonneg l Hl). destruct (Z.ltb_spec off s).
  - split; [done | lia].
  - specialize (IH (off - s) ltac:(lia)).
    destruct (locate l (off - s)) as [[]|].
    + split; [done |]. intros. enough (Some (n, z) = None) by done. apply IH. lia.
    + split; [intros _ | done]. enough (sumZ l <= off - s) by lia. by apply IH.
Qed.

Lemma locate_zeros n off : 0 <= off -> locate (replicate n 0) off = None.
Proof.
  intros. apply locate_None; [by apply Forall_replicate | done |]. by rewrite sumZ_zeros.
Qed.


(** ** The log *)

Definition newline : byte := x0a.

(** [dropped] counts the commands that have been overwritten, [written] the bytes
    accepted since the device was initialised. *)
Record log : Type := mk_log {
  commands : list (list byte);
  pending : list byte;
  dropped : nat;
  written : Z;
}.

Definition empty_log : log := mk_log [] [] 0 0.

(** The number of commands kept. *)
Definition LOG_MAX : nat := 10.

(** Writing: bytes accumulate until one of them is a newline; then all that is
    pending becomes the newest command, and only the last ten are kept. *)
Definition log_write (l : log) (bs : list byte) : log :=
  let p := pending l ++ bs in
  let w := written l + Z.of_nat (length bs) in
  if decide (newline ∈ p)
  then mk_log (last_n LOG_MAX (commands l ++ [p])) []
         (dropped l + (if decide (length (commands l) = LOG_MAX) then 1 else 0)) w
  else mk_log (commands l) p (dropped l) w.

(** All a reader can see. *)
Definition log_bytes (l : log) : list byte := concat (commands l).

Definition lengths (cs : list (list byte)) : list Z := (fun c => Z.of_nat (length c)) <$> cs.

(** The commands in the order of the driver's array, whose slot 0 is not the oldest
    command once commands have been dropped. *)
Definition slot_order (l : log) : list (list byte) :=
  rotate_at (length (commands l) - dropped l mod LOG_MAX) (commands l).

(** The position of byte [off] of the command in slot [w], as the seek ioctl counts
    it. *)
Definition log_seek (l : log) (w off : Z) : option Z :=
  match slot_order l !! Z.to_nat w with
  | Some c => if off <=? Z.of_nat (length c)
              then Some (sumZ (take (Z.to_nat w) (lengths (slot_order l))) + off) else None
  | None => None
  end.

(** Reading at most [count] bytes at [pos]: never across the end of a command. *)
Definition log_read (l : log) (pos count : Z) : list byte :=
  match locate (lengths (commands l)) pos with
  | None => []
  | Some (k, o) => take (Z.to_nat count) (drop (Z.to_nat o) (commands l !!! k))
  end.

(** Reading from [pos] until a read gives nothing. *)
Fixpoint log_read_all (fuel : nat) (l : log) (pos count : Z) : option (list byte) :=
  match fuel with
  | O => None
  | S fuel =>
      match log_read l pos count with
      | [] => Some []
      | bs => rest ← log_read_all fuel l (pos + Z.of_nat (length bs)) count;
              Some (bs ++ rest)
      end
  end.

Lemma written_log_write l bs :
  written (log_write l bs) = written l + Z.of_nat (length bs).
Proof. unfold log_write. by case_decide. Qed.

(** Bytes can be written in one call or in two, if the first ones hold no newline. *)
Lemma log_write_split l a b :
  newline ∉ pending l -> newline ∉ a -> log_write (log_write l a) b = log_write l (a ++ b).
Proof.
  intros Hp Ha. unfold log_write at 2. rewrite decide_False by (by rewrite elem_of_app; intros [|]).
  unfold log_write. cbn [pending commands dropped written].
  rewrite <- app_assoc, length_app, Nat2Z.inj_add, Z.add_assoc. done.
Qed.

Lemma sumZ_lengths cs : sumZ (lengths cs) = Z.of_nat (length (concat cs)).
Proof.
  induction cs as [|c cs IH]; [done |]. unfold lengths, sumZ in *. csimpl.
  rewrite IH, length_app. lia.
Qed.

Lemma lengths_nonneg cs : Forall (fun z => 0 <= z) (lengths cs).
Proof. apply Forall_fmap, Forall_true. simpl. lia. Qed.

(** The chunk [locate] finds is where the position falls in the concatenation. *)
Lemma locate_concat cs pos k o :
  0 <= pos -> locate (lengths cs) pos = Some (k, o) ->
  exists c, cs !! k = Some c /\ 0 <= o < Z.of_nat (length c) /\
    drop (Z.to_nat pos) (concat cs) = drop (Z.to_nat o) c ++ concat (drop (S k) cs).
Proof.
  intros Hpos H. apply locate_Some in H as (z & Hz & Ho & Hsum); [| done].
  unfold lengths in Hz. rewrite list_lookup_fmap in Hz.
  apply fmap_Some in Hz as (c & Hc & ->). exists c. split_and!; [done | lia | lia |].
  rewrite <- (take_drop_middle cs k c) at 1 by done.
  rewrite concat_app. simpl.
  pose proof (sumZ_lengths (take k cs)) as Hl. unfold lengths in *.
  rewrite fmap_take in Hl. assert (length (concat (take k cs)) = Z.to_nat (pos - o)) by lia.
  rewrite drop_app_ge by lia.
  replace (Z.to_nat pos - length (concat (take k cs)))%nat with (Z.to_nat o) by lia.
  by rewrite drop_app_le by lia.
Qed.

(** A read gives a prefix of what follows the position, and something when there
    is something. *)
Lemma log_read_prefix l pos count :
  0 <= pos -> log_read l pos count `prefix_of` drop (Z.to_nat pos) (log_bytes l).
Proof.
  intros Hpos. unfold log_read, log_bytes.
  destruct (locate _ pos) as [[k o]|] eqn:E; [| apply prefix_nil].
  apply locate_concat in E as (c & Hc & Ho & ->); [| done].
  rewrite (list_lookup_total_correct _ _ c) by done.
  apply prefix_app_r, prefix_take.
Qed.

Lemma log_read_nil l pos count :
  0 <= pos -> 0 < count ->
  log_read l pos count = [] <-> Z.of_nat (length (log_bytes l)) <= pos.
Proof.
  intros Hpos Hcount. unfold log_read, log_bytes. rewrite <- sumZ_lengths.
  rewrite <- locate_None by (apply lengths_nonneg || done).
  destruct (locate _ pos) as [[k o]|] eqn:E; [| done].
  apply locate_concat in E as (c & Hc & Ho & _); [| done].
  rewrite (list_lookup_total_correct _ _ c) by done. split; [| done].
  intros H%(f_equal length). exfalso.
  rewrite length_take, length_drop in H. cbn [length] in H. lia.
Qed.

Lemma log_read_length_zero l pos count :
  0 <= pos -> 0 <= count ->
  Z.of_nat (length (log_read l pos count)) = 0 <->
  count = 0 \/ Z.of_nat (length (log_bytes l)) <= pos.
Proof.
  intros Hpos Hcount. destruct (decide (count = 0)) as [-> | Hne].
  - split; [by left | intros _]. unfold log_read. by destruct (locate _ _) as [[]|].
  - rewrite <- (log_read_nil l pos count) by lia. destruct (log_read l pos count); cbn [length];
      intuition (done || lia).
Qed.

(** Repeated reads give everything from the position to the end. *)
Lemma log_read_all_correct l count : 0 < count ->
  forall fuel pos, 0 <= pos -> (length (log_bytes l) - Z.to_nat pos < fuel)%nat ->
  log_read_all fuel l pos count = Some (drop (Z.to_nat pos) (log_bytes l)).
Proof.
  intros Hcount. induction fuel as [|fuel IH]; intros pos Hpos Hfuel; [lia |].
  cbn [log_read_all]. pose proof (log_read_prefix l pos count Hpos) as [rest Hrest].
  pose proof (log_read_nil l pos count Hpos Hcount) as Hnil.
  destruct (log_read l pos count) as [|c bs] eqn:E.
  - by rewrite drop_ge by (apply proj1 in Hnil; specialize (Hnil eq_refl); lia).
  - assert (~ Z.of_nat (length (log_bytes l)) <= pos) by (by rewrite <- Hnil).
    rewrite IH by (cbn [length]; lia). cbn [mbind option_bind].
    rewrite Hrest. f_equal. f_equal.
    rewrite Z2Nat.inj_add, Nat2Z.id by lia.
    by rewrite <- drop_drop, Hrest, drop_app_length.
Qed.

(** Whole commands written to a log with nothing pending. *)
Lemma log_write_commands us l :
  (length (commands l) = LOG_MAX \/ dropped l = 0)%nat -> (length (commands l) <= LOG_MAX)%nat ->
  pending l = [] -> Forall (fun u => newline ∈ u) us ->
  let l' := foldl log_write l us in
  commands l' = last_n LOG_MAX (commands l ++ us) /\ pending l' = [] /\
  (dropped l' = dropped l + (length (commands l) + length us - LOG_MAX))%nat.
Proof.
  intros Hd Hle Hp Hus. revert l Hd Hle Hp.
  induction Hus as [|u us Hu _ IH]; intros l Hd Hle Hp; cbn [foldl].
  - rewrite app_nil_r, last_n_all by lia. cbn [length]. split_and!; [done.. | lia].
  - assert (log_write l u = mk_log (last_n LOG_MAX (commands l ++ [u])) []
        (dropped l + (if decide (length (commands l) = LOG_MAX) then 1 else 0))
        (written l + Z.of_nat (length u))) as ->.
    { unfold log_write. rewrite Hp. cbn [app]. by rewrite decide_True. }
    pose proof (length_last_n LOG_MAX (commands l ++ [u])) as Hlen.
    rewrite length_app in Hlen. cbn [length] in Hlen.
    destruct (IH (mk_log (last_n LOG_MAX (commands l ++ [u])) []
        (dropped l + (if decide (length (commands l) = LOG_MAX) then 1 else 0))
        (written l + Z.of_nat (length u)))) as (Hc' & Hp' & Hd');
      cbn [commands pending dropped] in *.
    + case_decide; lia.
    + lia.
    + done.
    + rewrite Hc', Hp', Hd', Hlen, last_n_app_absorb, <- app_assoc.
      split_and!; [done.. |]. unfold LOG_MAX in *. cbn [length]. case_decide; lia.
Qed.

(** As long as slot 0 holds the oldest command, the ioctl's position is that of the
    command asked for. *)
Lemma slot_order_id l : (dropped l mod LOG_MAX = 0)%nat -> slot_order l = commands l.
Proof.
  intros H. unfold slot_order, rotate_at. rewrite H, Nat.sub_0_r.
  by rewrite drop_ge, take_ge by lia.
Qed.

Lemma locate_prefix l k s o :
  Forall (fun z => 0 <= z) l -> l !! k = Some s -> 0 <= o < s ->
  locate l (sumZ (take k l) + o) = Some (k, o).
Proof.
  intros Hl Hk Ho. revert k Hk. induction Hl as [|z l Hz Hl IH]; intros [|k] Hk; [done.. | |].
  - injection Hk as ->. simpl. rewrite (proj2 (Z.ltb_lt _ _)) by lia. done.
  - cbn [take sumZ foldr locate]. pose proof (sumZ_nonneg (take k l) ltac:(by apply Forall_take)).
    unfold sumZ in *. rewrite (proj2 (Z.ltb_ge _ _)) by lia.
    replace (z + foldr Z.add 0 (take k l) + o - z) with (foldr Z.add 0 (take k l) + o) by lia.
    by rewrite IH.
Qed.
