(* ===== verification/CircularBuffer.v ===== *)
(** The circular buffer of the character driver
    ([aesd-char-driver/aesd-circular-buffer.c] and [.h]): its two structs, its
    three functions and the iteration macro, their functional behaviour, and the
    bounded log they implement ([contents], the entries from the oldest to the
    newest). *)

From Stdlib Require Import String.
From S2P Require Import Prelude CMem LogSpec.

Definition AESDCHAR_MAX_WRITE_OPERATIONS_SUPPORTED : Z := 10.
Abbreviation MAX := AESDCHAR_MAX_WRITE_OPERATIONS_SUPPORTED.

(** [e_offset] is [None] while the field is indeterminate: the driver never sets
    it. *)
Record aesd_buffer_entry : Type := mk_entry {
  buffptr : cptr;
  e_size : Z;
  e_offset : option Z;
}.

Record aesd_circular_buffer : Type := mk_cb {
  entry : list aesd_buffer_entry;
  in_offs : Z;
  out_offs : Z;
  full : bool;
  cb_size : Z;
}.

(** Assignments to the fields. *)
Definition set_entry es b := mk_cb es (in_offs b) (out_offs b) (full b) (cb_size b).
Definition set_in_offs i b := mk_cb (entry b) i (out_offs b) (full b) (cb_size b).
Definition set_out_offs o b := mk_cb (entry b) (in_offs b) o (full b) (cb_size b).
Definition set_full f b := mk_cb (entry b) (in_offs b) (out_offs b) f (cb_size b).
Definition set_e_size n e := mk_entry (buffptr e) n (e_offset e).

(** A struct whose bytes are all zero. *)
Definition zero_entry : aesd_buffer_entry := mk_entry PNull 0 (Some 0).

(** ** The functions *)

(** The do-while loop of [aesd_circular_buffer_find_entry_offset_for_fpos]. The
    result is the index of the entry the function returns a pointer to, with the
    value stored through [entry_offset_byte_rtn], or [None] for [NULL], when
    nothing is stored. *)
Fixpoint find_loop (fuel : nat) (buffer : aesd_circular_buffer)
    (char_offset total_chars current_offset : Z) : outcome (option (Z * Z)) :=
  match fuel with
  | O => NoFuel
  | S fuel =>
      current_entry ← arr_get (entry buffer) current_offset;
      if char_offset <? u64 (total_chars + e_size current_entry) then
        Ret (Some (current_offset, u64 (char_offset - total_chars)))
      else
        let total_chars := u64 (total_chars + e_size current_entry) in
        let current_offset := u64 (current_offset + 1) mod MAX in
        if negb (current_offset =? in_offs buffer)
        then find_loop fuel buffer char_offset total_chars current_offset
        else Ret None
  end.

(** The loop visits each of the slots at most once, so [MAX] turns are enough. *)
Definition aesd_circular_buffer_find_entry_offset_for_fpos
    (buffer : aesd_circular_buffer) (char_offset : Z) : outcome (option (Z * Z)) :=
  find_loop (Z.to_nat MAX) buffer char_offset 0 (out_offs buffer).

(** [buffer->out_offs = buffer->out_offs + 1], back to 0 at the end of the array. *)
Definition advance_out_offs (buffer : aesd_circular_buffer) : aesd_circular_buffer :=
  let buffer := set_out_offs (u8 (out_offs buffer + 1)) buffer in
  if out_offs buffer =? MAX then set_out_offs 0 buffer else buffer.

(** The same for [in_offs]. *)
Definition advance_in_offs (buffer : aesd_circular_buffer) : aesd_circular_buffer :=
  let buffer := set_in_offs (u8 (in_offs buffer + 1)) buffer in
  if in_offs buffer =? MAX then set_in_offs 0 buffer else buffer.

Definition aesd_circular_buffer_add_entry (buffer : aesd_circular_buffer)
    (add_entry : aesd_buffer_entry) : outcome (cptr * aesd_circular_buffer) :=
  if MAX =? 0 then Ret (PLit "Buffer not initialized", buffer)
  else
    '(value, buffer) ←
      (if full buffer then
         oldest ← arr_get (entry buffer) (out_offs buffer);
         Ret (buffptr oldest, advance_out_offs buffer)
       else Ret (PNull, buffer));
    es ← arr_set (entry buffer) (in_offs buffer) add_entry;
    let buffer := advance_in_offs (set_entry es buffer) in
    let buffer := if in_offs buffer =? out_offs buffer then set_full true buffer
                  else buffer in
    Ret (value, buffer).

(** [memset(buffer, 0, sizeof(struct aesd_circular_buffer))]. *)
Definition aesd_circular_buffer_init : aesd_circular_buffer :=
  mk_cb (replicate (Z.to_nat MAX) zero_entry) 0 0 false 0.

(** The loop of [AESD_CIRCULAR_BUFFER_FOREACH], whose body may update the entry it
    is given and a state of its own. [index] is a [uint8_t]. *)
Fixpoint AESD_CIRCULAR_BUFFER_FOREACH {St} (fuel : nat)
    (body : aesd_buffer_entry -> St -> outcome (aesd_buffer_entry * St))
    (buffer : aesd_circular_buffer) (index : Z) (st : St)
    : outcome (aesd_circular_buffer * St) :=
  match fuel with
  | O => NoFuel
  | S fuel =>
      if index <? MAX then
        e ← arr_get (entry buffer) index;
        '(e, st) ← body e st;
        es ← arr_set (entry buffer) index e;
        AESD_CIRCULAR_BUFFER_FOREACH fuel body (set_entry es buffer) (u8 (index + 1)) st
      else Ret (buffer, st)
  end.

(** ** The log a buffer stands for *)

(** The entries in use, from the oldest to the newest. *)
Definition contents (b : aesd_circular_buffer) : list aesd_buffer_entry :=
  if full b then rotate_at (Z.to_nat (out_offs b)) (entry b)
  else take (Z.to_nat (in_offs b)) (entry b).

Record cb_wf (b : aesd_circular_buffer) : Prop := {
  wf_len : length (entry b) = Z.to_nat MAX;
  wf_in : 0 <= in_offs b < MAX;
  wf_out : 0 <= out_offs b < MAX;
  wf_full : full b = true -> in_offs b = out_offs b;
  wf_start : full b = false -> out_offs b = 0;
  wf_unused : full b = false ->
    drop (Z.to_nat (in_offs b)) (entry b)
    = replicate (Z.to_nat (MAX - in_offs b)) zero_entry;
}.

Definition sizes (es : list aesd_buffer_entry) : list Z := e_size <$> es.

(** The slot of the [k]-th oldest entry. *)
Definition slot (b : aesd_circular_buffer) (k : nat) : Z :=
  (out_offs b + Z.of_nat k) mod MAX.

(** ** Facts on the buffer *)

Lemma cb_wf_init : cb_wf aesd_circular_buffer_init.
Proof. split; done. Qed.

Lemma contents_init : contents aesd_circular_buffer_init = [].
Proof. done. Qed.

Section Wf.
Context (b : aesd_circular_buffer) (Hwf : cb_wf b).

Lemma wf_length_entry : length (entry b) = 10%nat.
Proof. by rewrite (wf_len _ Hwf). Qed.

Lemma wf_in_range : 0 <= in_offs b < 10.
Proof. apply (wf_in _ Hwf). Qed.

Lemma wf_out_range : 0 <= out_offs b < 10.
Proof. apply (wf_out _ Hwf). Qed.

Lemma length_contents :
  length (contents b) = if full b then 10%nat else Z.to_nat (in_offs b).
Proof.
  pose proof wf_length_entry. pose proof wf_in_range.
  unfold contents. destruct (full b).
  - by rewrite length_rotate_at.
  - rewrite length_take. lia.
Qed.

Lemma length_contents_le : (length (contents b) <= 10)%nat.
Proof. pose proof wf_in_range. rewrite length_contents. destruct (full b); lia. Qed.

(** The ring read from the oldest slot is the contents followed by the slots
    never used. *)
Lemma rotate_contents :
  exists n, rotate_at (Z.to_nat (out_offs b)) (entry b)
    = contents b ++ replicate n zero_entry.
Proof.
  unfold contents. destruct (full b) eqn:Hf.
  - exists 0%nat. by rewrite app_nil_r.
  - rewrite (wf_start _ Hwf Hf). exists (Z.to_nat (MAX - in_offs b)).
    rewrite <- (wf_unused _ Hwf Hf). unfold rotate_at. simpl.
    by rewrite take_0, app_nil_r, take_drop.
Qed.

Lemma slot_range k : 0 <= slot b k < 10.
Proof. apply Z.mod_pos_bound. lia. Qed.

Lemma slot_S k : u64 (slot b k + 1) mod MAX = slot b (S k).
Proof.
  pose proof (slot_range k). rewrite u64_small by lia. unfold slot, MAX.
  rewrite Zplus_mod_idemp_l. f_equal. lia.
Qed.

(** The array read at a slot of the ring. *)
Lemma lookup_slot k :
  (k < 10)%nat ->
  entry b !! Z.to_nat (slot b k) = rotate_at (Z.to_nat (out_offs b)) (entry b) !! k.
Proof.
  pose proof wf_length_entry as Hl. pose proof wf_out_range. intros Hk.
  rewrite lookup_rotate_at by lia. f_equal. rewrite Hl. unfold slot, MAX.
  rewrite Z2Nat.inj_mod by lia. f_equal. lia.
Qed.

Lemma lookup_slot_contents k e :
  contents b !! k = Some e -> entry b !! Z.to_nat (slot b k) = Some e.
Proof.
  intros He. pose proof (lookup_lt_Some _ _ _ He). pose proof length_contents_le.
  rewrite lookup_slot by lia. destruct rotate_contents as [n ->].
  by apply lookup_app_l_Some.
Qed.

Lemma full_length : full b = true <-> length (contents b) = 10%nat.
Proof.
  pose proof wf_in_range. rewrite length_contents. destruct (full b); [done |].
  split; [done | lia].
Qed.

(** The number of slots the search visits. *)
Definition visited : nat :=
  if in_offs b =? out_offs b then 10 else Z.to_nat ((in_offs b - out_offs b) mod 10).

Lemma visited_range : (1 <= visited <= 10)%nat.
Proof.
  pose proof wf_in_range. pose proof wf_out_range. unfold visited.
  destruct (Z.eqb_spec (in_offs b) (out_offs b)); [lia |].
  Z.to_euclidean_division_equations. lia.
Qed.

Lemma slot_eq_in k :
  (k < visited)%nat -> (slot b (S k) =? in_offs b) = (S k =? visited)%nat.
Proof.
  pose proof wf_in_range. pose proof wf_out_range. unfold visited, slot, MAX.
  destruct (Z.eqb_spec (in_offs b) (out_offs b)); intros;
    apply eq_true_iff_eq; rewrite Z.eqb_eq, Nat.eqb_eq;
    Z.to_euclidean_division_equations; lia.
Qed.
End Wf.

(** Overwriting the oldest entry of a full buffer in place. *)
Lemma contents_replace_oldest b :
  cb_wf b -> full b = true ->
  exists o rest, contents b = o :: rest /\
    arr_get (entry b) (in_offs b) = Ret o /\
    forall e, exists es, arr_set (entry b) (in_offs b) e = Ret es /\
      cb_wf (set_entry es b) /\ contents (set_entry es b) = e :: rest.
Proof.
  intros Hwf Hf. pose proof (wf_length_entry b Hwf) as Hl. pose proof (wf_in_range b Hwf).
  destruct (arr_get_in_range (entry b) (in_offs b)) as (o & Hget & Ho); [lia |].
  exists o, (drop (S (Z.to_nat (in_offs b))) (entry b) ++ take (Z.to_nat (in_offs b)) (entry b)).
  unfold contents. rewrite Hf, <- (wf_full _ Hwf Hf). unfold rotate_at at 1.
  rewrite (drop_S _ o) by done. split_and!; [done.. |]. intros e.
  exists (<[Z.to_nat (in_offs b) := e]> (entry b)). rewrite arr_set_in_range by lia.
  split_and!; [done | |].
  - destruct Hwf. split; simpl; try done; [by rewrite length_insert | by rewrite Hf..].
  - simpl. rewrite Hf, <- (wf_full _ Hwf Hf). unfold rotate_at.
    rewrite (drop_S _ e) by (apply list_lookup_insert_eq; lia).
    by rewrite drop_insert_lt, take_insert_ge by lia.
Qed.

(** ** The search *)

Section Find.
Context (b : aesd_circular_buffer) (Hwf : cb_wf b) (Hok : sizes_ok (sizes (contents b))).

(** The sizes of the slots the search visits, in order. *)
Let seen := take (visited b) (sizes (rotate_at (Z.to_nat (out_offs b)) (entry b))).

Lemma length_seen : length seen = visited b.
Proof.
  pose proof (visited_range b Hwf). pose proof (wf_length_entry b Hwf).
  unfold seen, sizes. rewrite length_take, length_fmap, length_rotate_at. lia.
Qed.

(** The visited slots hold the contents, then (in a buffer never written) unused
    slots of size 0. *)
Lemma seen_contents : exists n, seen = sizes (contents b) ++ replicate n 0.
Proof.
  pose proof (wf_length_entry b Hwf) as Hl. pose proof (wf_in_range b Hwf).
  pose proof (length_contents b Hwf) as Hc.
  destruct (rotate_contents b Hwf) as [n Hn]. unfold seen, sizes in *.
  rewrite Hn, fmap_app, fmap_replicate. simpl. rewrite take_app.
  rewrite take_replicate. exists ((visited b - length (e_size <$> contents b)) `min` n)%nat.
  f_equal. apply take_ge. rewrite length_fmap, Hc. unfold visited.
  destruct (full b) eqn:Hf.
  - by rewrite (proj2 (Z.eqb_eq _ _) (wf_full _ Hwf Hf)).
  - rewrite (wf_start _ Hwf Hf). destruct (Z.eqb_spec (in_offs b) 0); [lia |].
    rewrite Z.sub_0_r, Z.mod_small; lia.
Qed.

Lemma seen_ok : sizes_ok seen.
Proof.
  destruct Hok as [Hpos Hsum], seen_contents as [n ->].
  assert (Forall (fun z => 0 <= z) (replicate n 0)) as Hz
    by (by apply Forall_replicate).
  split; [by apply Forall_app |]. rewrite sumZ_app, sumZ_zeros. lia.
Qed.

Lemma find_loop_spec fuel k off :
  (k < visited b)%nat -> (visited b - k <= fuel)%nat ->
  sumZ (take k seen) <= off < 2 ^ 64 ->
  find_loop fuel b off (sumZ (take k seen)) (slot b k) =
  Ret match locate (drop k seen) (off - sumZ (take k seen)) with
      | Some (j, o) => Some (slot b (k + j)%nat, o)
      | None => None
      end.
Proof.
  pose proof (visited_range b Hwf) as Hv. pose proof length_seen as Hlen.
  destruct seen_ok as [Hpos Hsum].
  revert k. induction fuel as [|fuel IH]; intros k Hk Hfuel Hoff; [lia |].
  destruct (lookup_lt_is_Some_2 seen k) as [s Hs]; [lia |].
  assert (exists e, entry b !! Z.to_nat (slot b k) = Some e /\ s = e_size e)
    as (e & He & Hes).
  { rewrite (lookup_slot b Hwf) by lia. revert Hs. unfold seen, sizes.
    rewrite lookup_take_lt, list_lookup_fmap by lia. intros (e & ? & ?)%fmap_Some. eauto. }
  assert (sumZ (take (S k) seen) = sumZ (take k seen) + s) as HS.
  { rewrite (take_S_r _ _ s), sumZ_app by done. simpl. lia. }
  pose proof (sumZ_take_le (S k) seen Hpos).
  pose proof (sumZ_nonneg (take k seen) ltac:(by apply Forall_take)).
  assert (0 <= s) by (by eapply Forall_lookup_1 in Hpos).
  cbn [find_loop]. rewrite (proj2 (arr_get_Ret _ _ e)).
  2: { split; [apply slot_range | done]. }
  simpl. rewrite <- Hes, u64_small, <- HS by lia.
  rewrite (drop_S _ s) by done. cbn [locate].
  destruct (Z.ltb_spec off (sumZ (take (S k) seen))).
  - rewrite (proj2 (Z.ltb_lt _ _)), u64_small by lia. by rewrite Nat.add_0_r.
  - rewrite (proj2 (Z.ltb_ge _ _)) by lia.
    rewrite slot_S, slot_eq_in by done.
    replace (off - sumZ (take k seen) - s) with (off - sumZ (take (S k) seen)) by lia.
    destruct (Nat.eqb_spec (S k) (visited b)) as [Hend | Hmore]; simpl negb; cbv iota.
    + rewrite drop_ge by lia. done.
    + rewrite IH by lia. destruct (locate _ _) as [[j o]|]; [| done].
      by rewrite Nat.add_succ_comm.
Qed.

(** The search is [locate] on the sizes of the contents. *)
Lemma find_locate off :
  0 <= off < 2 ^ 64 ->
  aesd_circular_buffer_find_entry_offset_for_fpos b off =
  Ret match locate (sizes (contents b)) off with
      | Some (j, o) => Some (slot b j, o)
      | None => None
      end.
Proof.
  intros Hoff. pose proof (visited_range b Hwf).
  pose proof (find_loop_spec (Z.to_nat MAX) 0 off ltac:(lia) ltac:(unfold MAX; lia)) as Hf.
  rewrite take_0, drop_0 in Hf. cbn [sumZ foldr] in Hf.
  assert (slot b 0 = out_offs b) as H0.
  { unfold slot. rewrite Z.add_0_r. apply Z.mod_small, (wf_out _ Hwf). }
  rewrite H0 in Hf. unfold aesd_circular_buffer_find_entry_offset_for_fpos.
  rewrite Hf by lia. rewrite Z.sub_0_r. destruct seen_contents as [n ->].
  rewrite locate_app. destruct (locate (sizes _) off) as [[j o]|] eqn:E; [done |].
  apply locate_None in E; [| apply Hok | lia].
  by rewrite locate_zeros by lia.
Qed.
End Find.

(** ** Adding an entry *)

(** Appending to the bounded log. *)
Definition push (es : list aesd_buffer_entry) (e : aesd_buffer_entry) :=
  last_n (Z.to_nat MAX) (es ++ [e]).

(** The index that follows [i] in the ring. *)
Definition next (i : Z) : Z := if i + 1 =? MAX then 0 else i + 1.

Lemma next_range i : 0 <= i < 10 -> 0 <= next i < 10.
Proof. intros. unfold next, MAX. destruct (Z.eqb_spec (i + 1) 10); lia. Qed.

Lemma next_mod i : 0 <= i < 10 -> next i = (i + 1) mod MAX.
Proof.
  intros. unfold next, MAX. destruct (Z.eqb_spec (i + 1) 10) as [-> |]; [done |].
  by rewrite Z.mod_small by lia.
Qed.

Lemma next_nat i :
  0 <= i < 10 ->
  Z.to_nat (next i) = if decide (S (Z.to_nat i) = 10%nat) then 0%nat else S (Z.to_nat i).
Proof.
  intros. unfold next, MAX. destruct (Z.eqb_spec (i + 1) 10); case_decide; lia.
Qed.

Lemma advance_out_offs_eq b :
  0 <= out_offs b < 10 -> advance_out_offs b = set_out_offs (next (out_offs b)) b.
Proof.
  intros. unfold advance_out_offs, next. simpl. rewrite u8_small by lia.
  by destruct (_ =? _).
Qed.

Lemma advance_in_offs_eq b :
  0 <= in_offs b < 10 -> advance_in_offs b = set_in_offs (next (in_offs b)) b.
Proof.
  intros. unfold advance_in_offs, next. simpl. rewrite u8_small by lia.
  by destruct (_ =? _).
Qed.

Section Add.
Context (b : aesd_circular_buffer) (Hwf : cb_wf b) (e : aesd_buffer_entry).

(** The buffer after the call. *)
Definition added : aesd_circular_buffer :=
  let o := if full b then next (out_offs b) else out_offs b in
  mk_cb (<[Z.to_nat (in_offs b) := e]> (entry b)) (next (in_offs b)) o
    (full b || (next (in_offs b) =? o)) (cb_size b).

(** What the call returns: the pointer of the oldest entry when it overwrites
    it, [NULL] otherwise. *)
Definition evicted : cptr :=
  if full b then match contents b with o :: _ => buffptr o | [] => PNull end else PNull.

Lemma add_entry_eq : aesd_circular_buffer_add_entry b e = Ret (evicted, added).
Proof.
  pose proof (wf_length_entry b Hwf) as Hl. pose proof (wf_in_range b Hwf).
  pose proof (wf_out_range b Hwf).
  unfold aesd_circular_buffer_add_entry, evicted, added, contents.
  change (MAX =? 0) with false. cbv iota. destruct (full b) eqn:Hf; csimpl.
  - destruct (arr_get_in_range (entry b) (out_offs b)) as (o & -> & Ho); [lia |].
    simpl. rewrite advance_out_offs_eq by lia. simpl. rewrite arr_set_in_range by lia.
    simpl. rewrite advance_in_offs_eq by (simpl; lia). simpl.
    unfold rotate_at. rewrite (drop_S _ o) by done.
    unfold set_in_offs, set_full, set_out_offs. simpl. rewrite Hf. by case_match.
  - rewrite arr_set_in_range by lia. simpl. rewrite advance_in_offs_eq by (simpl; lia).
    simpl. unfold set_in_offs, set_full. simpl. rewrite Hf. by case_match.
Qed.

(** The new contents: the entry is appended, and the oldest one dropped when the
    buffer was full. *)
Lemma contents_added : contents added = push (contents b) e.
Proof.
  pose proof (wf_length_entry b Hwf) as Hl. pose proof (wf_in_range b Hwf) as Hin.
  pose proof (length_contents b Hwf) as Hc. unfold push, contents, added. simpl.
  destruct (full b) eqn:Hf; simpl.
  - rewrite <- (wf_full _ Hwf Hf), next_nat by done.
    pose proof (rotate_at_advance (Z.to_nat (in_offs b)) (entry b) e) as Hr.
    rewrite Hl in Hr. rewrite Hr by lia.
    rewrite last_n_full_snoc; [done | | unfold MAX; lia].
    by rewrite length_rotate_at, Hl.
  - rewrite (wf_start _ Hwf Hf). rewrite last_n_all.
    2: { rewrite length_app, length_take. unfold MAX. simpl. lia. }
    assert (take (S (Z.to_nat (in_offs b))) (<[Z.to_nat (in_offs b) := e]> (entry b))
            = take (Z.to_nat (in_offs b)) (entry b) ++ [e]) as Htake.
    { rewrite (take_S_r _ _ e) by (apply list_lookup_insert_eq; lia).
      by rewrite take_insert_ge by lia. }
    rewrite <- Htake. destruct (Z.eqb_spec (next (in_offs b)) 0) as [Hz | Hz].
    + simpl. unfold rotate_at. simpl. rewrite take_0, drop_0, app_nil_r.
      rewrite take_ge; [done |]. rewrite length_insert. revert Hz. unfold next, MAX.
      destruct (Z.eqb_spec (in_offs b + 1) 10); lia.
    + rewrite next_nat by done. revert Hz. unfold next, MAX.
      destruct (Z.eqb_spec (in_offs b + 1) 10); [done |]. intros _.
      by rewrite decide_False by lia.
Qed.

Lemma cb_wf_added : cb_wf added.
Proof.
  pose proof (wf_length_entry b Hwf) as Hl. pose proof (wf_in_range b Hwf) as Hin.
  pose proof (next_range _ Hin). pose proof (next_range _ (wf_out_range b Hwf)).
  unfold added. split; simpl.
  - by rewrite length_insert, Hl.
  - done.
  - destruct (full b) eqn:Hf; [done |]. by rewrite (wf_start _ Hwf Hf).
  - destruct (full b) eqn:Hf; simpl.
    + intros _. by rewrite (wf_full _ Hwf Hf).
    + intros ?%Z.eqb_eq. done.
  - destruct (full b) eqn:Hf; simpl; [done |]. intros _. apply (wf_start _ Hwf Hf).
  - destruct (full b) eqn:Hf; simpl; [done |]. rewrite (wf_start _ Hwf Hf).
    pose proof (wf_unused _ Hwf Hf) as Hun. unfold next, MAX in *.
    destruct (Z.eqb_spec (in_offs b + 1) 10); [done |]. intros _.
    replace (Z.to_nat (in_offs b + 1)) with (S (Z.to_nat (in_offs b))) by lia.
    rewrite drop_insert_lt by lia.
    replace (S (Z.to_nat (in_offs b))) with (Z.to_nat (in_offs b) + 1)%nat by lia.
    rewrite <- drop_drop, Hun, drop_replicate. f_equal. lia.
Qed.
End Add.

(** A sequence of calls of [aesd_circular_buffer_add_entry]. *)
Fixpoint add_all (b : aesd_circular_buffer) (es : list aesd_buffer_entry)
    : outcome aesd_circular_buffer :=
  match es with
  | [] => Ret b
  | e :: es => '(_, b) ← aesd_circular_buffer_add_entry b e; add_all b es
  end.

Lemma push_all b es :
  cb_wf b ->
  exists b', add_all b es = Ret b' /\ cb_wf b' /\
    contents b' = last_n (Z.to_nat MAX) (contents b ++ es).
Proof.
  revert b. induction es as [|e es IH]; intros b Hwf; simpl.
  - exists b. split_and!; [done.. |]. rewrite app_nil_r, last_n_all; [done |].
    by apply length_contents_le.
  - rewrite add_entry_eq by done. simpl.
    destruct (IH _ (cb_wf_added b Hwf e)) as (b' & Hb' & Hwf' & Hc).
    exists b'. split_and!; [done.. |]. rewrite Hc, contents_added by done.
    unfold push. rewrite last_n_app_absorb. by rewrite <- app_assoc.
Qed.

(** ** The iteration macro *)

(** Running [body] over a list of entries, in order. *)
Fixpoint visit_entries {St} (body : aesd_buffer_entry -> St -> outcome (aesd_buffer_entry * St))
    (es : list aesd_buffer_entry) (st : St) : outcome (list aesd_buffer_entry * St) :=
  match es with
  | [] => Ret ([], st)
  | e :: es =>
      '(e, st) ← body e st; '(es, st) ← visit_entries body es st; Ret (e :: es, st)
  end.

Lemma foreach_S {St} fuel (body : aesd_buffer_entry -> St -> outcome (aesd_buffer_entry * St))
    b i st :
  AESD_CIRCULAR_BUFFER_FOREACH (S fuel) body b i st =
  if i <? MAX then
    e ← arr_get (entry b) i;
    '(e, st) ← body e st;
    es ← arr_set (entry b) i e;
    AESD_CIRCULAR_BUFFER_FOREACH fuel body (set_entry es b) (u8 (i + 1)) st
  else Ret (b, st).
Proof. done. Qed.

(** The macro's loop visits each slot of the array once, in order, and leaves it as
    the body does. *)
Lemma foreach_visits {St} (body : aesd_buffer_entry -> St -> outcome (aesd_buffer_entry * St))
    b n i st :
  length (entry b) = 10%nat -> (i + n = 10)%nat ->
  AESD_CIRCULAR_BUFFER_FOREACH (S n) body b (Z.of_nat i) st =
  '(es, st) ← visit_entries body (drop i (entry b)) st;
  Ret (set_entry (take i (entry b) ++ es) b, st).
Proof.
  revert b i st. induction n as [|n IH]; intros b i st Hlen Hi; rewrite foreach_S.
  - rewrite (proj2 (Z.ltb_ge _ MAX)) by (unfold MAX; lia).
    rewrite drop_ge, take_ge by lia. simpl. rewrite app_nil_r. by destruct b.
  - rewrite (proj2 (Z.ltb_lt _ MAX)) by (unfold MAX; lia).
    destruct (lookup_lt_is_Some_2 (entry b) i) as [e He]; [lia |].
    rewrite (arr_get_lookup _ _ e), (drop_S _ e) by done. cbn [mbind outcome_bind visit_entries].
    destruct (body e st) as [[e' st'] | f |]; [| done..]. cbn [mbind outcome_bind].
    rewrite arr_set_in_range, Nat2Z.id by lia. cbn [mbind outcome_bind].
    rewrite u8_small by lia. replace (Z.of_nat i + 1) with (Z.of_nat (S i)) by lia.
    rewrite IH by (simpl; rewrite ?length_insert; lia). simpl.
    rewrite drop_insert_lt by lia.
    destruct (visit_entries body (drop (S i) (entry b)) st') as [[es st''] | f |]; [| done..].
    cbn [mbind outcome_bind]. unfold set_entry. simpl.
    rewrite (take_S_r _ _ e') by (apply list_lookup_insert_eq; lia).
    by rewrite take_insert_ge, <- app_assoc by lia.
Qed.

(** A full buffer that has wrapped once, for the witnesses: entries of 2 to 11
    characters, the newest in slot 0. *)
Definition sample_entries (n : nat) : list aesd_buffer_entry :=
  (fun i => mk_entry PNull (Z.of_nat i) None) <$> seq 1 n.

Definition sample : aesd_circular_buffer :=
  match add_all aesd_circular_buffer_init (sample_entries 11) with
  | Ret b => b
  | _ => aesd_circular_buffer_init
  end.

Lemma sample_wf : cb_wf sample.
Proof.
  unfold sample.
  destruct (push_all aesd_circular_buffer_init (sample_entries 11) cb_wf_init)
    as (b & -> & Hwf & _). done.
Qed.

Lemma sample_sizes_ok : sizes_ok (sizes (contents sample)).
Proof. split; [apply (bool_decide_unpack _); by vm_compute | by vm_compute]. Qed.

(** ** Properties *)

(** C17. The search finds the character [char_offset] of the concatenated entries:
    a returned entry is the [k]-th oldest one in use, the offset stored lies inside
    it, and the bytes before it add up to [char_offset]; [NULL] is returned exactly
    when fewer characters are stored. The loop always ends. *)
Theorem find_entry_offset_correct b char_offset :
  cb_wf b -> sizes_ok (sizes (contents b)) -> 0 <= char_offset < 2 ^ 64 ->
  exists r, aesd_circular_buffer_find_entry_offset_for_fpos b char_offset = Ret r /\
    match r with
    | Some (i, o) =>
        exists k e, contents b !! k = Some e /\ arr_get (entry b) i = Ret e /\
          0 <= o < e_size e /\ char_offset = sumZ (sizes (take k (contents b))) + o
    | None => sumZ (sizes (contents b)) <= char_offset
    end.
Proof.
  intros Hwf Hok Hoff. eexists. split; [by apply find_locate |].
  destruct (locate (sizes (contents b)) char_offset) as [[k o]|] eqn:E.
  - apply locate_Some in E as (s & Hs & Ho & Hsum); [| lia].
    unfold sizes in Hs. rewrite list_lookup_fmap in Hs.
    apply fmap_Some in Hs as (e & He & ->). exists k, e.
    unfold sizes in *. rewrite fmap_take. split_and!; [done | | lia..].
    apply arr_get_Ret. split; [apply slot_range |]. by apply lookup_slot_contents.
  - apply locate_None in E; [done | apply Hok | lia].
Qed.

Lemma find_entry_offset_correct_witness :
  exists r, aesd_circular_buffer_find_entry_offset_for_fpos sample 64 = Ret r /\
    match r with
    | Some (i, o) =>
        exists k e, contents sample !! k = Some e /\ arr_get (entry sample) i = Ret e /\
          0 <= o < e_size e /\ 64 = sumZ (sizes (take k (contents sample))) + o
    | None => sumZ (sizes (contents sample)) <= 64
    end.
Proof.
  refine (find_entry_offset_correct sample 64 sample_wf sample_sizes_ok _).
  clear. split; [discriminate | reflexivity].
Defined.

(** C18. [aesd_circular_buffer_add_entry] on a well-formed buffer returns normally,
    keeps it well formed, and appends the entry to the contents, dropping the
    oldest one when 10 were in use; it returns the pointer of the dropped entry,
    and [NULL] when none is dropped. *)
Theorem add_entry_correct b e :
  cb_wf b ->
  exists v b', aesd_circular_buffer_add_entry b e = Ret (v, b') /\ cb_wf b' /\
    contents b' = last_n 10 (contents b ++ [e]) /\
    (full b' = true <-> length (contents b') = 10%nat) /\
    v = if decide (length (contents b) = 10%nat)
        then default PNull (buffptr <$> head (contents b)) else PNull.
Proof.
  intros Hwf. exists (evicted b), (added b e).
  rewrite add_entry_eq by done. split_and!; [done | by apply cb_wf_added | | |].
  - by apply contents_added.
  - by apply full_length, cb_wf_added.
  - unfold evicted. case_decide as Hl; rewrite <- full_length in Hl by done.
    + rewrite Hl. by destruct (contents b).
    + by destruct (full b).
Qed.

Lemma add_entry_correct_witness :
  exists v b', aesd_circular_buffer_add_entry sample (mk_entry (PBlk 7) 3 None) = Ret (v, b') /\
    cb_wf b' /\ contents b' = last_n 10 (contents sample ++ [mk_entry (PBlk 7) 3 None]) /\
    (full b' = true <-> length (contents b') = 10%nat) /\
    v = if decide (length (contents sample) = 10%nat)
        then default PNull (buffptr <$> head (contents sample)) else PNull.
Proof. refine (add_entry_correct sample (mk_entry (PBlk 7) 3 None) sample_wf). Defined.

(** After any sequence of insertions into a freshly initialised buffer, the
    contents are the last 10 entries inserted, in order. *)
Theorem add_all_keeps_last_ten es :
  exists b, add_all aesd_circular_buffer_init es = Ret b /\ cb_wf b /\
    contents b = last_n 10 es.
Proof.
  destruct (push_all aesd_circular_buffer_init es cb_wf_init) as (b & ? & ? & Hc).
  by exists b.
Qed.
