(* ===== verification/Kernel.v ===== *)
(** The Linux kernel functions the character driver calls. They are not part of
    this repository, so they are a parameter of the driver's definitions: a record
    of functions, which a caller may choose afresh for every system call, and the
    class [KernelOk] of what the kernel's documentation promises about them. *)

From S2P Require Import Prelude CMem.

Record kernel : Type := mk_kernel {
  (** [mutex_lock_interruptible] on a mutex that is held or not: the value returned
      and whether the mutex is held afterwards. *)
  k_mutex_lock_interruptible : bool -> Z * bool;
  k_mutex_unlock : bool -> bool;
  k_kmalloc : gmap nat (list (option byte)) -> Z -> cptr * gmap nat (list (option byte));
  k_krealloc : gmap nat (list (option byte)) -> cptr -> Z
               -> cptr * gmap nat (list (option byte));
  k_kfree : gmap nat (list (option byte)) -> cptr -> gmap nat (list (option byte));
  (** [copy_from_user]: from the bytes readable at the user address and the length
      asked, the bytes stored at the destination and the number not copied. *)
  k_copy_from_user : list byte -> Z -> list byte * Z;
  (** [copy_to_user]: from the length asked, the number of bytes not copied. *)
  k_copy_to_user : Z -> Z;
  (** Device numbers and registration: [alloc_chrdev_region], from the first minor
      number asked for, gives its result and the number stored (0, the caller's
      initial value, when it fails); [cdev_add] gives its error code. *)
  k_alloc_chrdev_region : Z -> Z * Z;
  k_cdev_add : Z -> Z;
  k_MAJOR : Z -> Z;
  k_MKDEV : Z -> Z -> Z;
  (** The macro [_IOWR(type, nr, size)]. *)
  k_IOWR : Z -> Z -> Z -> Z;
}.

(** No [kmalloc] block is larger. *)
Definition KMALLOC_LIMIT : Z := 2 ^ 31.

Class KernelOk (k : kernel) : Prop := {
  (** A free mutex is taken, or the wait is interrupted by a signal; a held mutex
      is never obtained, and the wait can only be interrupted. *)
  lock_free :
    k_mutex_lock_interruptible k false = (0, true) \/
    exists e, e <> 0 /\ k_mutex_lock_interruptible k false = (e, false);
  lock_held : exists e, e <> 0 /\ k_mutex_lock_interruptible k true = (e, true);
  unlock_held : k_mutex_unlock k true = false;
  (** [kmalloc] gives [ZERO_SIZE_PTR] for a size of 0, otherwise [NULL] or a fresh
      block of indeterminate bytes. *)
  kmalloc_zero h : k_kmalloc k h 0 = (PZeroSize, h);
  kmalloc_ok h n : 0 < n ->
    k_kmalloc k h n = (PNull, h) \/
    exists b, h !! b = None /\ n <= KMALLOC_LIMIT /\
      k_kmalloc k h n = (PBlk b, <[b := replicate (Z.to_nat n) None]> h);
  (** [krealloc] leaves the block alone when it fails; otherwise it keeps the old
      bytes, in place or in a fresh block. *)
  krealloc_ok h b blk n : h !! b = Some blk -> 0 < n ->
    k_krealloc k h (PBlk b) n = (PNull, h) \/
    exists b', (b' = b \/ h !! b' = None) /\ n <= KMALLOC_LIMIT /\
      k_krealloc k h (PBlk b) n
      = (PBlk b', <[b' := resize (Z.to_nat n) None blk]> (delete b h));
  kfree_ok h b blk : h !! b = Some blk -> k_kfree k h (PBlk b) = delete b h;
  (** [copy_from_user] copies a prefix and pads the rest of the destination with
      zero bytes. *)
  copy_from_user_ok u n : 0 <= n ->
    exists m, 0 <= m <= n /\ n - m <= Z.of_nat (length u) /\
      k_copy_from_user k u n
      = (take (Z.to_nat (n - m)) u ++ replicate (Z.to_nat m) x00, m);
  copy_to_user_ok n : 0 <= n -> 0 <= k_copy_to_user k n <= n;
  (** The number allocated has the minor number asked for. *)
  alloc_region_ok m : 0 <= m < 2 ^ 20 -> 0 <= fst (k_alloc_chrdev_region k m) ->
    k_MKDEV k (k_MAJOR k (snd (k_alloc_chrdev_region k m))) m
    = snd (k_alloc_chrdev_region k m);
}.

(** ** The calls, with C's conditions on their arguments *)

(** [kfree] of a pointer that is neither null nor a live block is undefined. *)
Definition kfree (k : kernel) (h : heap) (p : cptr) : outcome heap :=
  match p with
  | PNull | PZeroSize => Ret h
  | PBlk b => if decide (is_Some (h !! b)) then Ret (k_kfree k h p) else Fault InvalidFree
  | PLit _ => Fault InvalidFree
  end.

Definition krealloc (k : kernel) (h : heap) (p : cptr) (n : Z) : outcome (cptr * heap) :=
  match p with
  | PNull | PZeroSize => Ret (k_kmalloc k h n)
  | PBlk b => if decide (is_Some (h !! b)) then Ret (k_krealloc k h p n)
              else Fault UseAfterFree
  | PLit _ => Fault InvalidFree
  end.

(** [copy_from_user(p + off, u, n)]: the heap after and the bytes not copied. *)
Definition copy_from_user (k : kernel) (h : heap) (p : cptr) (off : Z) (u : list byte) (n : Z)
    : outcome (heap * Z) :=
  let '(bs, missing) := k_copy_from_user k u n in
  h ← store_bytes h p off bs; Ret (h, missing).

(** [copy_to_user(buf, p + off, n)]: the bytes delivered and the number not
    copied. *)
Definition copy_to_user (k : kernel) (h : heap) (p : cptr) (off n : Z)
    : outcome (list byte * Z) :=
  bs ← load_bytes h p off n;
  let missing := k_copy_to_user k n in
  Ret (take (Z.to_nat (n - missing)) bs, missing).

(** [unregister_chrdev_region(devno, 1)] gives back the region of that number. *)
Definition unregister_chrdev_region (devno : Z) (region : option Z) : option Z :=
  match region with
  | Some d => if d =? devno then None else Some d
  | None => None
  end.

(** ** A concrete kernel

    It allocates at the first number above all live blocks, copies everything it
    can, and is never interrupted; [avail] bytes are the most it allocates. *)
Definition next_block (h : heap) : nat := S (max_list (map_to_list h).*1).

Lemma next_block_fresh (h : heap) : h !! next_block h = None.
Proof.
  destruct (h !! next_block h) as [blk |] eqn:E; [| done]. exfalso.
  apply elem_of_map_to_list in E.
  assert (next_block h ∈ (map_to_list h).*1) as Hin.
  { apply list_elem_of_fmap. by exists (next_block h, blk). }
  apply max_list_elem_of_le in Hin. unfold next_block in Hin. lia.
Qed.

Definition plain_kernel (avail : Z) : kernel := {|
  k_mutex_lock_interruptible held := if held then (-4, true) else (0, true);
  k_mutex_unlock _ := false;
  k_kmalloc h n :=
    if n =? 0 then (PZeroSize, h)
    else if n <=? Z.min avail KMALLOC_LIMIT
    then (PBlk (next_block h), <[next_block h := replicate (Z.to_nat n) None]> h)
    else (PNull, h);
  k_krealloc h p n :=
    match p with
    | PBlk b =>
        if n <=? Z.min avail KMALLOC_LIMIT
        then (p, <[b := resize (Z.to_nat n) None (default [] (h !! b))]> (delete b h))
        else (PNull, h)
    | _ => (PNull, h)
    end;
  k_kfree h p := match p with PBlk b => delete b h | _ => h end;
  k_copy_from_user u n :=
    let c := Z.min n (Z.of_nat (length u)) in
    (take (Z.to_nat c) u ++ replicate (Z.to_nat (n - c)) x00, n - c);
  k_copy_to_user _ := 0;
  k_alloc_chrdev_region m := (0, Z.lor (Z.shiftl 240 20) m);
  k_cdev_add _ := 0;
  k_MAJOR d := Z.shiftr d 20;
  k_MKDEV ma mi := Z.lor (Z.shiftl ma 20) mi;
  k_IOWR t nr sz := Z.lor (Z.shiftl 3 30) (Z.lor (Z.shiftl sz 16) (Z.lor (Z.shiftl t 8) nr));
|}.

#[export] Instance plain_kernel_ok avail : KernelOk (plain_kernel avail).
Proof.
  split; simpl.
  - by left.
  - by exists (-4).
  - done.
  - done.
  - intros h n Hn. destruct (Z.eqb_spec n 0); [lia |].
    destruct (Z.leb_spec n (Z.min avail KMALLOC_LIMIT)); [right | by left].
    exists (next_block h). split_and!; [apply next_block_fresh | lia | done].
  - intros h b blk n Hb Hn.
    destruct (Z.leb_spec n (Z.min avail KMALLOC_LIMIT)); [right | by left].
    exists b. split_and!; [by left | lia |]. by rewrite Hb.
  - done.
  - intros u n Hn. exists (n - Z.min n (Z.of_nat (length u))). split_and!; [lia.. |].
    by replace (n - (n - Z.min n (Z.of_nat (length u))))
      with (Z.min n (Z.of_nat (length u))) by lia.
  - lia.
  - intros m Hm _. rewrite Z.shiftr_lor, Z.shiftr_shiftl_l by done.
    rewrite (Z.shiftr_div_pow2 m), Z.div_small, Z.lor_0_r by lia. done.
Qed.
