(* ===== verification/CharDriver.v ===== *)
(** The character driver ([aesd-char-driver/main.c], [aesdchar.h],
    [aesd_ioctl.h]): the device, its file operations with every early return and
    error code, module initialisation and cleanup. The kernel is the parameter of
    [Kernel]; a handler takes the kernel's behaviour during that call, the driver's
    state and the open file, and gives the value returned and the state after. *)

From Stdlib Require Import String.
From S2P Require Import Prelude CMem LogSpec CircularBuffer Kernel.

(** ** Constants of the C headers *)
Definition EFAULT : Z := 14.
Definition ENOMEM : Z := 12.
Definition EINVAL : Z := 22.
Definition ERESTARTSYS : Z := 512.
Definition SEEK_SET : Z := 0.
Definition SEEK_CUR : Z := 1.
Definition SEEK_END : Z := 2.

(** ** Data *)

(** What [cdev_init], the assignments of [aesd_setup_cdev] and [cdev_add] leave in
    the [struct cdev]: its operations table and owner are set, it is live. *)
Record cdev_t : Type := mk_cdev {
  cdev_ops : bool;
  cdev_owner : bool;
  cdev_live : bool;
}.

Record aesd_dev : Type := mk_dev {
  cdev : cdev_t;
  aesd_cb : aesd_circular_buffer;
  mx_lock : bool;
  tmp_buf : cptr;
  tmp_size : Z;
  buffer_size : Z;
}.

(** The globals of the module, the heap its pointers live in, and the device
    region it holds. *)
Record driver : Type := mk_driver {
  aesd_major : Z;
  aesd_minor : Z;
  aesd_device : aesd_dev;
  kheap : gmap nat (list (option byte));
  chrdev_region : option Z;
}.

(** A pointer to a [struct aesd_dev]: the module has one. *)
Inductive dev_ptr : Type := AESD_DEVICE.

Record inode : Type := mk_inode { i_cdev : option dev_ptr }.
Record file : Type := mk_file { f_pos : Z; private_data : option dev_ptr }.

Record aesd_seekto : Type := mk_seekto { write_cmd : Z; write_cmd_offset : Z }.

Definition set_dev d s :=
  mk_driver (aesd_major s) (aesd_minor s) d (kheap s) (chrdev_region s).
Definition set_kheap h s :=
  mk_driver (aesd_major s) (aesd_minor s) (aesd_device s) h (chrdev_region s).
Definition set_cdev c d :=
  mk_dev c (aesd_cb d) (mx_lock d) (tmp_buf d) (tmp_size d) (buffer_size d).
Definition set_aesd_cb b d :=
  mk_dev (cdev d) b (mx_lock d) (tmp_buf d) (tmp_size d) (buffer_size d).
Definition set_mx_lock l d :=
  mk_dev (cdev d) (aesd_cb d) l (tmp_buf d) (tmp_size d) (buffer_size d).
Definition set_tmp p n d :=
  mk_dev (cdev d) (aesd_cb d) (mx_lock d) p n (buffer_size d).
Definition set_buffer_size n d :=
  mk_dev (cdev d) (aesd_cb d) (mx_lock d) (tmp_buf d) (tmp_size d) n.
Definition set_f_pos p (f : file) := mk_file p (private_data f).

(** [dev = filp->private_data], when [dev] is then dereferenced. *)
Definition deref_dev (s : driver) (filp : file) : outcome aesd_dev :=
  match private_data filp with
  | Some AESD_DEVICE => Ret (aesd_device s)
  | None => Fault NullDeref
  end.

(** ** File operations *)

(** [container_of] of the device's own [cdev] is the device. *)
Definition aesd_open (i : inode) (filp : file) : Z * file :=
  (0, mk_file (f_pos filp) (i_cdev i)).

Definition aesd_release (i : inode) (filp : file) : Z := 0.

(** The first half of [aesd_read]: the slot of the entry found, the offset in it and
    the number of bytes to copy. *)
Definition read_lookup (cb : aesd_circular_buffer) (count pos : Z)
    : outcome (option (Z * Z * Z)) :=
  r ← aesd_circular_buffer_find_entry_offset_for_fpos cb (u64 pos);
  match r with
  | None => Ret None
  | Some (i, start_entry_off) =>
      start_entry ← arr_get (entry cb) i;
      let read_length := u64 (e_size start_entry - start_entry_off) in
      let read_length := if count <? read_length then count else read_length in
      Ret (Some (i, start_entry_off, read_length))
  end.

(** The second half: the copy, through the entry's pointer. *)
Definition read_copy (k : kernel) (s : driver) (i start_entry_off read_length pos : Z)
    : outcome (Z * list byte * Z) :=
  start_entry ← arr_get (entry (aesd_cb (aesd_device s))) i;
  '(bs, missing) ←
    copy_to_user k (kheap s) (buffptr start_entry) start_entry_off read_length;
  if negb (missing =? 0) then Ret (- EFAULT, bs, pos)
  else Ret (s64 read_length, bs, s64 (u64 (pos + read_length))).

(** [buf] says whether the user pointer is non-null; the result is the value
    returned, the bytes delivered to the user and the value left in [*f_pos]. No
    lock is taken between the two halves. *)
Definition aesd_read (k : kernel) (s : driver) (filp : file) (buf : bool) (count : Z)
    (pos : Z) : outcome (Z * list byte * Z) :=
  if negb buf then Ret (- EFAULT, [], pos)
  else
    dev ← deref_dev s filp;
    found ← read_lookup (aesd_cb dev) count pos;
    match found with
    | None => Ret (0, [], pos)
    | Some (i, start_entry_off, read_length) =>
        read_copy k s i start_entry_off read_length pos
    end.

(** The branch of [aesd_write] that extends a pending command. [inl] is an early
    return, with the mutex as it is. *)
Definition write_extend (k : kernel) (s : driver) (ubuf : list byte) (count : Z)
    : outcome (Z * driver + Z * driver) :=
  let dev := aesd_device s in
  '(p, h) ← krealloc k (kheap s) (tmp_buf dev) (u64 (tmp_size dev + count));
  let s := set_kheap h (set_dev (set_tmp p (tmp_size dev) dev) s) in
  if is_null p then Ret (inl (- ENOMEM, s))
  else
    h ← memset h p (tmp_size dev) x00 count;
    '(h, bytes_missing) ← copy_from_user k h p (tmp_size dev) ubuf count;
    let retval := s64 (u64 (count - bytes_missing)) in
    Ret (inr (retval,
      set_kheap h (set_dev (set_tmp p (u64 (tmp_size dev + retval)) dev) s))).

(** The branch that starts a new command. *)
Definition write_start (k : kernel) (s : driver) (ubuf : list byte) (count : Z)
    : outcome (Z * driver + Z * driver) :=
  let dev := aesd_device s in
  let '(p, h) := k_kmalloc k (kheap s) count in
  let s := set_kheap h (set_dev (set_tmp p (tmp_size dev) dev) s) in
  if is_null p then Ret (inl (- ENOMEM, s))
  else
    h ← memset h p 0 x00 count;
    '(h, bytes_missing) ← copy_from_user k h p 0 ubuf count;
    let retval := s64 (u64 (count - bytes_missing)) in
    Ret (inr (retval, set_kheap h (set_dev (set_tmp p (u64 retval) dev) s))).

(** When the circular buffer is full: free the entry about to be overwritten. *)
Definition release_oldest (k : kernel) (s : driver) : outcome driver :=
  let dev := aesd_device s in
  let cb := aesd_cb dev in
  if full cb then
    let in_pos := in_offs cb in
    e ← arr_get (entry cb) in_pos;
    h ← (if negb (is_null (buffptr e)) then kfree k (kheap s) (buffptr e)
         else Ret (kheap s));
    es ← arr_set (entry cb) in_pos (set_e_size 0 e);
    Ret (set_kheap h (set_dev (set_aesd_cb (set_entry es cb) dev) s))
  else Ret s.

(** When the pending bytes hold a newline: they become an entry. [new_entry] is an
    uninitialised local, so its [offset] stays indeterminate. *)
Definition commit_pending (k : kernel) (s : driver) : outcome driver :=
  let dev := aesd_device s in
  found ← memchr (kheap s) (tmp_buf dev) newline (tmp_size dev);
  match found with
  | None => Ret s
  | Some _ =>
      s ← release_oldest k s;
      let dev := aesd_device s in
      let new_entry := mk_entry (tmp_buf dev) (tmp_size dev) None in
      '(_, cb) ← aesd_circular_buffer_add_entry (aesd_cb dev) new_entry;
      Ret (set_dev (set_tmp PNull 0 (set_aesd_cb cb dev)) s)
  end.

(** [buf] is [None] for a null pointer, otherwise the bytes readable there. *)
Definition aesd_write (k : kernel) (s : driver) (filp : file) (buf : option (list byte))
    (count : Z) : outcome (Z * driver) :=
  match buf with
  | None => Ret (- EFAULT, s)
  | Some ubuf =>
      dev ← deref_dev s filp;
      let '(r, held) := k_mutex_lock_interruptible k (mx_lock dev) in
      let s := set_dev (set_mx_lock held dev) s in
      if negb (r =? 0) then Ret (- ERESTARTSYS, s)
      else
        stored ← (if 0 <? tmp_size dev then write_extend k s ubuf count
                  else write_start k s ubuf count);
        match stored with
        | inl ret => Ret ret
        | inr (retval, s) =>
            s ← commit_pending k s;
            let dev := aesd_device s in
            let dev := set_mx_lock (k_mutex_unlock k (mx_lock dev)) dev in
            let dev := set_buffer_size (u64 (buffer_size dev + retval)) dev in
            Ret (retval, set_dev dev s)
        end
  end.

(** The device's size is read from the global [aesd_device]. *)
Definition aesd_llseek (s : driver) (filp : file) (off whence : Z) : Z * file :=
  let newpos :=
    if whence =? SEEK_SET then Some off
    else if whence =? SEEK_CUR then Some (s64 (f_pos filp + off))
    else if whence =? SEEK_END then Some (s64 (u64 (buffer_size (aesd_device s) + off)))
    else None in
  match newpos with
  | None => (- EINVAL, filp)
  | Some newpos =>
      if newpos <? 0 then (- EINVAL, filp) else (newpos, set_f_pos newpos filp)
  end.

(** A 32-bit little-endian field. *)
Definition le_u32 (bs : list byte) : Z :=
  foldr (fun b acc => Z.of_N (Byte.to_N b) + 256 * acc) 0 (take 4 bs).

Definition sizeof_aesd_seekto : Z := 8.
Definition AESD_IOC_MAGIC : Z := 22.
Definition AESDCHAR_IOCSEEKTO (k : kernel) : Z :=
  k_IOWR k AESD_IOC_MAGIC 1 sizeof_aesd_seekto.

Definition decode_seekto (bs : list byte) : aesd_seekto :=
  mk_seekto (le_u32 bs) (le_u32 (drop 4 bs)).

(** The for loop that adds up the sizes of the commands before [write_cmd]:
    [n] turns are left from [index]. It gives [retval] and [loc_off]. *)
Fixpoint sum_entries (cb : aesd_circular_buffer) (n : nat) (index retval loc_off : Z)
    : outcome (Z * Z) :=
  match n with
  | O => Ret (retval, loc_off)
  | S n =>
      e ← arr_get (entry cb) index;
      if negb (is_null (buffptr e)) && (0 <? e_size e)
      then sum_entries cb n (u32 (index + 1)) retval (s64 (u64 (loc_off + e_size e)))
      else Ret (- EINVAL, loc_off)
  end.

(** The part of the ioctl that runs with the mutex held: [retval] and the new
    position, if it is set. *)
Definition seek_locked (cb : aesd_circular_buffer) (seek_cmd : aesd_seekto)
    : outcome (Z * option Z) :=
  '(retval, loc_off) ← sum_entries cb (Z.to_nat (write_cmd seek_cmd)) 0 0 0;
  e ← arr_get (entry cb) (write_cmd seek_cmd);
  if negb (is_null (buffptr e)) && (0 <? e_size e) then
    if e_size e <? write_cmd_offset seek_cmd then Ret (- EINVAL, None)
    else Ret (retval, Some (s64 (loc_off + write_cmd_offset seek_cmd)))
  else Ret (- EINVAL, None).

(** [arg] gives the bytes readable at the user address passed. *)
Definition aesd_ioctl (k : kernel) (s : driver) (filp : file) (cmd : Z) (arg : list byte)
    : outcome (Z * driver * file) :=
  if cmd =? AESDCHAR_IOCSEEKTO k then
    let '(bs, missing) := k_copy_from_user k arg sizeof_aesd_seekto in
    if negb (missing =? 0) then Ret (- EINVAL, s, filp)
    else
      let seek_cmd := decode_seekto bs in
      if (write_cmd seek_cmd <? 0) || (MAX <? write_cmd seek_cmd)
      then Ret (- EINVAL, s, filp)
      else
        dev ← deref_dev s filp;
        let '(r, held) := k_mutex_lock_interruptible k (mx_lock dev) in
        let s := set_dev (set_mx_lock held dev) s in
        if negb (r =? 0) then Ret (- ERESTARTSYS, s, filp)
        else
          '(retval, pos) ← seek_locked (aesd_cb dev) seek_cmd;
          let filp := match pos with Some p => set_f_pos p filp | None => filp end in
          let s := set_dev (set_mx_lock (k_mutex_unlock k held) (aesd_device s)) s in
          Ret (retval, s, filp)
  else Ret (- EINVAL, s, filp).

(** ** The module *)

Definition aesd_setup_cdev (k : kernel) (s : driver) : Z * driver :=
  let devno := k_MKDEV k (aesd_major s) (aesd_minor s) in
  let err := k_cdev_add k devno in
  (err, set_dev (set_cdev (mk_cdev true true (err =? 0)) (aesd_device s)) s).

(** [memset(&aesd_device, 0, sizeof(struct aesd_dev))] *)
Definition zero_dev : aesd_dev :=
  mk_dev (mk_cdev false false false) aesd_circular_buffer_init false PNull 0 0.

Definition aesd_init_module (k : kernel) (s : driver) : Z * driver :=
  let '(result, dev) := k_alloc_chrdev_region k (aesd_minor s) in
  let s := mk_driver (k_MAJOR k dev) (aesd_minor s) (aesd_device s) (kheap s)
             (if result <? 0 then chrdev_region s else Some dev) in
  if result <? 0 then (result, s)
  else
    let s := set_dev zero_dev s in
    let s := set_dev (set_aesd_cb aesd_circular_buffer_init (aesd_device s)) s in
    let s := set_dev (set_mx_lock false (set_tmp PNull 0 (aesd_device s))) s in
    let '(result, s) := aesd_setup_cdev k s in
    if negb (result =? 0)
    then (result, mk_driver (aesd_major s) (aesd_minor s) (aesd_device s) (kheap s)
                    (unregister_chrdev_region dev (chrdev_region s)))
    else (result, s).

(** The body of the loop of [aesd_cleanup_module]. *)
Definition cleanup_entry (k : kernel) (e : aesd_buffer_entry)
    (h : gmap nat (list (option byte)))
    : outcome (aesd_buffer_entry * gmap nat (list (option byte))) :=
  if (0 <? e_size e) && negb (is_null (buffptr e)) then
    h ← kfree k h (buffptr e); Ret (set_e_size 0 e, h)
  else Ret (e, h).

(** [index] goes from 0 to [MAX], so [MAX + 1] turns are enough. *)
Definition aesd_cleanup_module (k : kernel) (s : driver) : outcome driver :=
  let dev := aesd_device s in
  let devno := k_MKDEV k (aesd_major s) (aesd_minor s) in
  let dev := set_cdev (mk_cdev (cdev_ops (cdev dev)) (cdev_owner (cdev dev)) false) dev in
  '(cb, h) ← AESD_CIRCULAR_BUFFER_FOREACH (S (Z.to_nat MAX)) (cleanup_entry k)
               (aesd_cb dev) 0 (kheap s);
  Ret (mk_driver (aesd_major s) (aesd_minor s) (set_aesd_cb cb dev) h
         (unregister_chrdev_region devno (chrdev_region s))).
