(* ===== verification/CharDriverRel.v ===== *)
(** The refinement between the driver's state and the abstract log: the relation,
    and what each step of [aesd_write] and [aesd_read] does to it. *)

From S2P Require Import Prelude CMem LogSpec CircularBuffer Kernel CharDriver.

(** ** The relation *)

(** The blocks the entries own. *)
Definition blocks (es : list aesd_buffer_entry) : list nat :=
  omap (fun e => ptr_block (buffptr e)) es.

Definition entry_holds (h : heap) (e : aesd_buffer_entry) (c : list byte) : Prop :=
  holds h (buffptr e) c /\ e_size e = Z.of_nat (length c).

(** A stored command: it has a newline, and a size the allocator accepted. *)
Definition command_ok (c : list byte) : Prop :=
  newline ∈ c /\ Z.of_nat (length c) <= KMALLOC_LIMIT.

(** The circular buffer holds the commands [cs]. *)
Record cb_rel (h : heap) (cb : aesd_circular_buffer) (cs : list (list byte)) : Prop := {
  rel_wf : cb_wf cb;
  rel_entries : Forall2 (entry_holds h) (contents cb) cs;
  rel_commands : Forall command_ok cs;
  rel_nodup : NoDup (blocks (contents cb));
}.

(** [p] points to the pending bytes, in a block of its own. *)
Definition tmp_holds (h : heap) (es : list aesd_buffer_entry) (p : cptr) (bs : list byte)
    : Prop :=
  (p = PZeroSize /\ bs = []) \/
  exists b, p = PBlk b /\ starts_with h b bs /\ b ∉ blocks es.

(** The pending bytes of a device whose mutex is free. *)
Record pending_rel (h : heap) (d : aesd_dev) (bs : list byte) : Prop := {
  pend_size : tmp_size d = Z.of_nat (length bs);
  pend_limit : Z.of_nat (length bs) <= KMALLOC_LIMIT;
  pend_open : newline ∉ bs;
  pend_held : bs <> [] -> tmp_holds h (contents (aesd_cb d)) (tmp_buf d) bs;
}.

(** While the mutex is held nothing is claimed of the pending bytes: a failed
    allocation leaves the device in that state for ever. *)
Record dev_rel (s : driver) (l : log) : Prop := {
  dev_cb : cb_rel (kheap s) (aesd_cb (aesd_device s)) (commands l);
  dev_pending : mx_lock (aesd_device s) = false ->
    pending_rel (kheap s) (aesd_device s) (pending l);
  dev_first : out_offs (aesd_cb (aesd_device s)) = Z.of_nat (dropped l) mod MAX;
  dev_total : buffer_size (aesd_device s) = u64 (written l);
}.

(** The relation without the counter, which the driver does not protect by the
    mutex. *)
Record data_rel (s : driver) (l : log) : Prop := {
  data_cb : cb_rel (kheap s) (aesd_cb (aesd_device s)) (commands l);
  data_pending : mx_lock (aesd_device s) = false ->
    pending_rel (kheap s) (aesd_device s) (pending l);
  data_first : out_offs (aesd_cb (aesd_device s)) = Z.of_nat (dropped l) mod MAX;
}.

Lemma dev_data s l : dev_rel s l -> data_rel s l.
Proof. by intros []. Qed.

(** ** Facts on the relation *)

Lemma entry_holds_block h e c :
  entry_holds h e c -> exists b, buffptr e = PBlk b /\ starts_with h b c.
Proof. intros [[b [-> ?]] _]. by exists b. Qed.

Lemma command_ok_length c : command_ok c -> 0 < Z.of_nat (length c) <= 2 ^ 31.
Proof. intros [Hin Hle]. destruct c; [by apply not_elem_of_nil in Hin |]. cbn [length] in *. unfold KMALLOC_LIMIT in Hle. lia. Qed.

Lemma blocks_cons e b es : buffptr e = PBlk b -> blocks (e :: es) = b :: blocks es.
Proof. intros H. unfold blocks. csimpl. by rewrite H. Qed.

Lemma blocks_app es es' : blocks (es ++ es') = blocks es ++ blocks es'.
Proof. unfold blocks. by rewrite omap_app. Qed.

Lemma elem_of_blocks e b es : e ∈ es -> buffptr e = PBlk b -> b ∈ blocks es.
Proof. intros Hin He. apply list_elem_of_omap. exists e. by rewrite He. Qed.

(** The relation depends only on the blocks the entries own. *)
Lemma entries_frame h h' es cs :
  (forall b, b ∈ blocks es -> h' !! b = h !! b) ->
  Forall2 (entry_holds h) es cs -> Forall2 (entry_holds h') es cs.
Proof.
  intros Hh H. induction H as [|e c es cs [[b [Hb [rest Hr]]] Hs] Hall IH]; constructor.
  - split; [| done]. exists b. split; [done |]. exists rest.
    rewrite Hh, Hr; [done |]. rewrite (blocks_cons _ _ _ Hb). apply elem_of_cons. by left.
  - apply IH. intros b' Hb'. apply Hh. rewrite (blocks_cons _ _ _ Hb).
    apply elem_of_cons. by right.
Qed.

Lemma cb_rel_frame h h' cb cs :
  (forall b, b ∈ blocks (contents cb) -> h' !! b = h !! b) ->
  cb_rel h cb cs -> cb_rel h' cb cs.
Proof. intros Hh [????]. split; [done | by eapply entries_frame | done..]. Qed.

Lemma blocks_live h es cs b :
  Forall2 (entry_holds h) es cs -> b ∈ blocks es -> is_Some (h !! b).
Proof.
  intros H (e & He & Hb)%list_elem_of_omap.
  apply list_elem_of_lookup in He as [i Hi].
  destruct (Forall2_lookup_l _ _ _ _ _ H Hi) as (c & _ & (b' & He' & rest & Hr)%entry_holds_block).
  rewrite He' in Hb. injection Hb as ->. by eexists.
Qed.

(** Allocating, writing or freeing a block that no entry owns. *)
Lemma cb_rel_insert h cb cs b blk :
  b ∉ blocks (contents cb) -> cb_rel h cb cs -> cb_rel (<[b := blk]> h) cb cs.
Proof.
  intros Hb. apply cb_rel_frame. intros b' Hb'. rewrite lookup_insert_ne; [done |].
  by intros ->.
Qed.

Lemma cb_rel_delete h cb cs b :
  b ∉ blocks (contents cb) -> cb_rel h cb cs -> cb_rel (delete b h) cb cs.
Proof.
  intros Hb. apply cb_rel_frame. intros b' Hb'. rewrite lookup_delete_ne; [done |].
  by intros ->.
Qed.

Lemma cb_rel_fresh h cb cs b : cb_rel h cb cs -> h !! b = None -> b ∉ blocks (contents cb).
Proof.
  intros [_ He _ _] Hb Hin. destruct (blocks_live _ _ _ _ He Hin) as [? Hs]. by rewrite Hs in Hb.
Qed.

Lemma sizes_lengths h es cs : Forall2 (entry_holds h) es cs -> sizes es = lengths cs.
Proof.
  induction 1 as [|e c es cs [_ Hs] _ IH]; [done |]. unfold sizes, lengths in *. csimpl.
  by rewrite Hs, IH.
Qed.

Lemma length_commands h cb cs : cb_rel h cb cs -> (length cs <= 10)%nat.
Proof.
  intros [Hwf He _ _]. rewrite <- (Forall2_length _ _ _ He). by apply length_contents_le.
Qed.

(** The sizes stored cannot overflow a [size_t] when added up. *)
Lemma sum_commands_le h cb cs :
  cb_rel h cb cs -> 0 <= sumZ (lengths cs) <= 10 * 2 ^ 31.
Proof.
  intros Hrel. pose proof (length_commands _ _ _ Hrel) as Hlen.
  pose proof (sumZ_nonneg _ (lengths_nonneg cs)).
  assert (Forall (fun z => z <= 2 ^ 31) (lengths cs)) as Hle.
  { apply Forall_fmap. eapply Forall_impl; [apply (rel_commands _ _ _ Hrel) |].
    intros c Hc%command_ok_length. simpl. lia. }
  apply sumZ_le in Hle. unfold lengths in *. rewrite length_fmap in Hle. lia.
Qed.

Lemma cb_rel_sizes_ok h cb cs : cb_rel h cb cs -> sizes_ok (sizes (contents cb)).
Proof.
  intros Hrel. rewrite (sizes_lengths _ _ _ (rel_entries _ _ _ Hrel)).
  split; [apply lengths_nonneg |]. pose proof (sum_commands_le _ _ _ Hrel). lia.
Qed.

Lemma list_find_newline bs :
  is_Some (fst <$> list_find (newline =.) bs) <-> newline ∈ bs.
Proof.
  split.
  - intros [i ([j x] & Hf & _)%fmap_Some]. apply list_find_Some in Hf as (Hl & <- & _).
    apply list_elem_of_lookup. eauto.
  - intros Hin. apply fmap_is_Some. by eapply list_find_elem_of.
Qed.

(** ** The steps of [aesd_write] *)

Section Write.
Context (k : kernel) `{!KernelOk k}.

(** After the bytes are stored, before the newline is looked for: the pending
    bytes may hold one. *)
Record stored_rel (s : driver) (cs : list (list byte)) (p : list byte) : Prop := {
  stored_cb : cb_rel (kheap s) (aesd_cb (aesd_device s)) cs;
  stored_size : tmp_size (aesd_device s) = Z.of_nat (length p);
  stored_limit : Z.of_nat (length p) <= KMALLOC_LIMIT;
  stored_held :
    tmp_holds (kheap s) (contents (aesd_cb (aesd_device s))) (tmp_buf (aesd_device s)) p;
}.

(** What the two branches leave alone. *)
Definition same_rest (d d' : aesd_dev) : Prop :=
  cdev d' = cdev d /\ aesd_cb d' = aesd_cb d /\ mx_lock d' = mx_lock d /\
  buffer_size d' = buffer_size d.

(** Filling [count] bytes after the [length p] first ones of a block: what
    [memset] and [copy_from_user] leave there. *)
Lemma fill_block h b p rest u count :
  h !! b = Some (fmap Some p ++ rest) -> length rest = Z.to_nat count -> 0 <= count ->
  exists h1 h2 n,
    memset h (PBlk b) (Z.of_nat (length p)) x00 count = Ret h1 /\
    copy_from_user k h1 (PBlk b) (Z.of_nat (length p)) u count = Ret (h2, count - n) /\
    0 <= n <= count /\ n <= Z.of_nat (length u) /\
    n = count - snd (k_copy_from_user k u count) /\
    starts_with h2 b (p ++ take (Z.to_nat n) u) /\
    (exists blk, h2 = <[b := blk]> h).
Proof.
  intros Hb Hrest Hcount.
  destruct (copy_from_user_ok u count Hcount) as (m & Hm & Hu & Hcopy).
  set (n := count - m) in *. set (blk1 := fmap Some p ++ fmap Some (replicate (Z.to_nat count) x00)).
  exists (<[b := blk1]> h).
  exists (<[b := fmap Some p ++ fmap Some (take (Z.to_nat n) u ++ replicate (Z.to_nat m) x00)]> h), n.
  assert (length (take (Z.to_nat n) u ++ replicate (Z.to_nat m) x00) = Z.to_nat count) as Hl.
  { rewrite length_app, length_take, length_replicate. unfold n in *. lia. }
  split_and!; [| | unfold n; lia.. | by rewrite Hcopy | |].
  - unfold memset. rewrite (store_bytes_in_range _ _ _ _ _ Hb).
    + rewrite Nat2Z.id, <- (length_fmap Some p), splice_app_r.
      * rewrite length_replicate, drop_ge, app_nil_r by lia. done.
      * rewrite length_replicate. lia.
    + lia.
    + rewrite length_app, length_fmap, length_replicate. lia.
  - unfold copy_from_user. rewrite Hcopy.
    rewrite (store_bytes_in_range _ _ blk1).
    + cbn [mbind outcome_bind]. rewrite Nat2Z.id, insert_insert_eq.
      replace (count - n) with m by (unfold n; lia). unfold blk1.
      rewrite <- (length_fmap Some p), splice_app_r by (rewrite length_fmap, length_replicate; lia).
      by rewrite drop_ge, app_nil_r by (rewrite length_fmap, length_replicate; lia).
    + apply lookup_insert_eq.
    + lia.
    + rewrite Hl. unfold blk1. rewrite length_app, !length_fmap, length_replicate. lia.
  - exists (fmap Some (replicate (Z.to_nat m) x00)). rewrite lookup_insert_eq, !fmap_app.
    by rewrite <- app_assoc.
  - by eexists.
Qed.

(** Some allocation of [n] bytes fails. *)
Definition no_memory (n : Z) : Prop :=
  exists h, fst (k_kmalloc k h n) = PNull \/
    exists b, is_Some (h !! b) /\ fst (k_krealloc k h (PBlk b) n) = PNull.

Definition extended (s : driver) (cs : list (list byte)) (p u : list byte) (count : Z)
    (r : Z * driver + Z * driver) : Prop :=
  match r with
  | inl (e, s') =>
      e = - ENOMEM /\ no_memory (Z.of_nat (length p) + count) /\ cb_rel (kheap s') (aesd_cb (aesd_device s')) cs /\
      same_rest (aesd_device s) (aesd_device s')
  | inr (n, s') =>
      0 <= n <= count /\ n <= Z.of_nat (length u) /\
      n = count - snd (k_copy_from_user k u count) /\
      stored_rel s' cs (p ++ take (Z.to_nat n) u) /\
      same_rest (aesd_device s) (aesd_device s')
  end.

(** The part common to both branches: the block has been obtained, and [count]
    bytes are stored after the ones pending. *)
Lemma fill_extended s cs p u count h b rest :
  cb_rel h (aesd_cb (aesd_device s)) cs ->
  h !! b = Some (fmap Some p ++ rest) -> length rest = Z.to_nat count ->
  b ∉ blocks (contents (aesd_cb (aesd_device s))) ->
  0 <= count <= KMALLOC_LIMIT -> Z.of_nat (length p) + count <= KMALLOC_LIMIT ->
  exists r,
    (h ← memset h (PBlk b) (Z.of_nat (length p)) x00 count;
     '(h, bytes_missing) ← copy_from_user k h (PBlk b) (Z.of_nat (length p)) u count;
     let retval := s64 (u64 (count - bytes_missing)) in
     Ret (inr (retval,
       set_kheap h (set_dev (set_tmp (PBlk b) (u64 (Z.of_nat (length p) + retval))
         (aesd_device s)) s)))) = Ret r /\
    extended s cs p u count r.
Proof.
  intros Hcb Hb Hrest Hown Hcount Hlim. unfold KMALLOC_LIMIT in *.
  destruct (fill_block h b p rest u count) as (h1 & h2 & n & -> & Hc & Hn & Hu & Hn' & Hs & blk & Hh2);
    [done.. | lia |]. cbn [mbind outcome_bind]. rewrite Hc. cbn [mbind outcome_bind].
  eexists. split; [done |]. replace (count - (count - n)) with n by lia.
  rewrite s64_u64, s64_small, u64_small by lia. cbn.
  assert (length (take (Z.to_nat n) u) = Z.to_nat n) as Hl by (rewrite length_take; lia).
  split; [lia |]. split; [lia |]. split; [exact Hn' |]. split; [| done]. split; cbn.
  - rewrite Hh2. by apply cb_rel_insert.
  - rewrite length_app. lia.
  - rewrite length_app. unfold KMALLOC_LIMIT. lia.
  - right. by exists b.
Qed.

Lemma write_extend_spec s cs p u count :
  cb_rel (kheap s) (aesd_cb (aesd_device s)) cs ->
  tmp_holds (kheap s) (contents (aesd_cb (aesd_device s))) (tmp_buf (aesd_device s)) p ->
  tmp_size (aesd_device s) = Z.of_nat (length p) -> p <> [] ->
  0 <= count <= KMALLOC_LIMIT -> Z.of_nat (length p) <= KMALLOC_LIMIT ->
  exists r, write_extend k s u count = Ret r /\ extended s cs p u count r.
Proof.
  intros Hcb Htmp Hsize Hp Hcount Hlim.
  destruct Htmp as [[_ ?] | (b & Hptr & [rest Hb] & Hown)]; [done |].
  assert (0 < Z.of_nat (length p)) by (destruct p; [done | cbn [length]; lia]).
  unfold write_extend, KMALLOC_LIMIT in *. rewrite Hptr, Hsize, u64_small by lia.
  unfold krealloc. rewrite decide_True by eauto.
  destruct (krealloc_ok (kheap s) b _ (Z.of_nat (length p) + count) Hb ltac:(lia))
    as [Hnull | (b' & Hb' & Hmax & ->)]; [rewrite Hnull |]; cbn [mbind outcome_bind is_null].
  - eexists. split; [done |]. split; [done |]. split; [| done].
    exists (kheap s). right. exists b. split; [by eexists | by rewrite Hnull].
  - assert (b' ∉ blocks (contents (aesd_cb (aesd_device s)))) as Hown'.
    { destruct Hb' as [-> | Hnone]; [done | by eapply cb_rel_fresh]. }
    rewrite Z2Nat.inj_add, Nat2Z.id, resize_add by lia.
    rewrite resize_app by (by rewrite length_fmap).
    eapply (fill_extended s); [| apply lookup_insert_eq | | done | ..].
    + apply cb_rel_insert, cb_rel_delete; done.
    + apply length_resize.
    + lia.
    + done.
Qed.

Lemma write_start_spec s cs u count :
  cb_rel (kheap s) (aesd_cb (aesd_device s)) cs ->
  0 <= count <= KMALLOC_LIMIT ->
  exists r, write_start k s u count = Ret r /\ extended s cs [] u count r.
Proof.
  intros Hcb Hcount. unfold write_start.
  destruct (decide (count = 0)) as [-> | Hnz].
  - rewrite kmalloc_zero. cbn [is_null].
    destruct (copy_from_user_ok u 0) as (m & Hm & _ & Hcopy); [done |].
    assert (m = 0) as -> by lia. simpl in Hcopy.
    unfold memset, copy_from_user. rewrite Hcopy. cbn.
    change (s64 (u64 (0 - 0))) with 0. eexists. split; [done |].
    split; [done |]. split; [lia |]. split; [by rewrite Hcopy |]. split; [| done].
    rewrite take_0. split; cbn; [done | done | unfold KMALLOC_LIMIT; lia |]. by left.
  - destruct (kmalloc_ok (kheap s) count) as [Hnull | (b & Hb & Hmax & ->)];
      [lia | rewrite Hnull |]; cbn [is_null].
    + eexists. split; [done |]. split; [done |]. split; [| done].
      exists (kheap s). left. change (Z.of_nat (length []) + count) with count. by rewrite Hnull.
    + pose proof (cb_rel_fresh _ _ _ _ Hcb Hb) as Hown.
      eapply (fill_extended s cs []); [| apply lookup_insert_eq | | done | ..].
      * by apply cb_rel_insert.
      * apply length_replicate.
      * done.
      * simpl. lia.
Qed.

(** The entries that survive the next insertion. *)
Definition kept {A} (cb : aesd_circular_buffer) (l : list A) : list A :=
  if full cb then tail l else l.

Lemma kept_snoc {A} cb (l : list A) x :
  cb_wf cb -> length l = length (contents cb) ->
  last_n (Z.to_nat MAX) (l ++ [x]) = kept cb l ++ [x].
Proof.
  intros Hwf Hl. pose proof (full_length cb Hwf) as Hf.
  pose proof (length_contents_le cb Hwf). unfold kept, MAX.
  destruct (full cb).
  - apply last_n_full_snoc; [| lia]. rewrite Hl. by apply Hf.
  - apply last_n_all. rewrite length_app. cbn [length].
    assert (length (contents cb) <> 10%nat) by (intros ?%Hf; done). lia.
Qed.

(** What [release_oldest] establishes before the insertion. *)
Record released_rel (s : driver) (cs : list (list byte)) (p : list byte) (s' : driver)
    : Prop := {
  rls_wf : cb_wf (aesd_cb (aesd_device s'));
  rls_entries : exists es,
    (forall e, push (contents (aesd_cb (aesd_device s'))) e = es ++ [e]) /\
    Forall2 (entry_holds (kheap s')) es (kept (aesd_cb (aesd_device s)) cs) /\
    NoDup (blocks es) /\
    tmp_holds (kheap s') es (tmp_buf (aesd_device s')) p;
  rls_tmp : tmp_buf (aesd_device s') = tmp_buf (aesd_device s);
  rls_size : tmp_size (aesd_device s') = tmp_size (aesd_device s);
  rls_lock : mx_lock (aesd_device s') = mx_lock (aesd_device s);
  rls_total : buffer_size (aesd_device s') = buffer_size (aesd_device s);
  rls_full : full (aesd_cb (aesd_device s')) = full (aesd_cb (aesd_device s));
  rls_first : out_offs (aesd_cb (aesd_device s')) = out_offs (aesd_cb (aesd_device s));
}.

Lemma release_oldest_spec s cs p :
  stored_rel s cs p -> p <> [] ->
  exists s', release_oldest k s = Ret s' /\ released_rel s cs p s'.
Proof.
  intros [[Hwf Hent Hcmd Hnd] Hsize Hlim Htmp] Hp. unfold release_oldest.
  set (cb := aesd_cb (aesd_device s)) in *.
  destruct Htmp as [[_ ?] | (b & Hptr & Hstart & Hown)]; [done |].
  pose proof (fun e => kept_snoc cb (contents cb) e Hwf eq_refl) as Hpush. unfold kept in Hpush.
  destruct (full cb) eqn:Hf.
  - destruct (contents_replace_oldest cb Hwf Hf) as (o & rest & Hc & Hget & Hset).
    rewrite Hget. cbn [mbind outcome_bind]. rewrite Hc in Hent, Hnd, Hown.
    destruct cs as [|c cs]; [by apply Forall2_cons_nil_inv in Hent |].
    apply Forall2_cons_1 in Hent as [Ho Hrest].
    destruct (entry_holds_block _ _ _ Ho) as (bo & Hbo & ro & Hro).
    rewrite (blocks_cons _ _ _ Hbo) in Hnd, Hown.
    apply NoDup_cons in Hnd as [Hnin Hnd]. apply not_elem_of_cons in Hown as [Hne Hown].
    rewrite Hbo. cbn [is_null negb]. unfold kfree. rewrite decide_True by eauto.
    cbn [mbind outcome_bind]. destruct (Hset (set_e_size 0 o)) as (es & -> & Hwf' & Hc').
    cbn [mbind outcome_bind]. eexists. split; [done |].
    rewrite (kfree_ok _ _ _ Hro). split; cbn; try done. fold cb. exists rest.
    split_and!; [| | done |].
    + intros e. unfold push. rewrite Hc'. apply last_n_full_snoc; [| unfold MAX; lia].
      transitivity (length (contents cb)); [by rewrite Hc | by apply full_length].
    + unfold kept. rewrite Hf. simpl. eapply entries_frame; [| done].
      intros b' Hb'. rewrite lookup_delete_ne; [done |]. by intros ->.
    + right. exists b. split_and!; [done | | done]. by apply starts_with_delete_ne.
  - eexists. split; [done |]. split; try done. fold cb. exists (contents cb).
    unfold kept. rewrite Hf. split_and!; try done. right. by exists b.
Qed.

(** The test for a newline. *)
Lemma memchr_stored s cs p :
  stored_rel s cs p ->
  exists r, memchr (kheap s) (tmp_buf (aesd_device s)) newline (tmp_size (aesd_device s)) = Ret r /\
    (is_Some r <-> newline ∈ p).
Proof.
  intros [_ -> _ Htmp]. destruct Htmp as [[-> ->] | (b & -> & Hb & _)].
  - exists None. split; [done |]. by rewrite elem_of_nil, is_Some_alt.
  - eexists. split; [by apply memchr_starts | apply list_find_newline].
Qed.

(** Either the pending bytes have no newline and nothing changes, or they become
    the newest command. *)
Lemma commit_pending_spec s cs p :
  stored_rel s cs p ->
  exists s', commit_pending k s = Ret s' /\
    mx_lock (aesd_device s') = mx_lock (aesd_device s) /\
    buffer_size (aesd_device s') = buffer_size (aesd_device s) /\
    if decide (newline ∈ p) then
      cb_rel (kheap s') (aesd_cb (aesd_device s')) (last_n LOG_MAX (cs ++ [p])) /\
      tmp_size (aesd_device s') = 0 /\
      out_offs (aesd_cb (aesd_device s')) =
        (if decide (length cs = LOG_MAX) then next (out_offs (aesd_cb (aesd_device s)))
         else out_offs (aesd_cb (aesd_device s)))
    else s' = s.
Proof.
  intros Hst. pose proof Hst as [Hcb Hsize Hlim Htmp]. unfold commit_pending.
  destruct (memchr_stored s cs p Hst) as (r & -> & Hr).
  cbn [mbind outcome_bind]. destruct r as [i|].
  2: { exists s. rewrite decide_False; [done |]. intros Hin%Hr. by destruct Hin. }
  assert (newline ∈ p) as Hnl by (apply Hr; eauto).
  assert (p <> []) as Hp by (intros ->; by apply elem_of_nil in Hnl).
  destruct (release_oldest_spec s cs p Hst Hp) as (s1 & -> & [Hwf He Ht1 Ht2 Hl Hb Hfull Hfirst]).
  cbn [mbind outcome_bind]. rewrite add_entry_eq by done. cbn [mbind outcome_bind].
  eexists. split; [done |]. rewrite decide_True by done. cbn. rewrite Hl, Hb.
  destruct Hcb as [Hwf0 Hent0 Hcmd0 _].
  split_and!; [done.. | | done |].
  2: { pose proof (full_length _ Hwf0) as Hfl. rewrite Hfull, Hfirst.
       rewrite (Forall2_length _ _ _ Hent0) in Hfl. unfold LOG_MAX.
       clear -Hfl. destruct (full (aesd_cb (aesd_device s))); case_decide; intuition congruence. }
  destruct He as (es & Hpush & Hent & Hnd & Htmp1).
  destruct Htmp1 as [[_ ?] | (b & Hptr & Hstart & Hown)]; [done |].
  assert (last_n LOG_MAX (cs ++ [p]) = kept (aesd_cb (aesd_device s)) cs ++ [p]) as Hlast.
  { apply kept_snoc; [done |]. symmetry. by eapply Forall2_length. }
  split.
  - by apply cb_wf_added.
  - rewrite contents_added, Hpush, Hlast by done. apply Forall2_app; [done |].
    constructor; [| done]. split; [by exists b | cbn; by rewrite Ht2].
  - apply Forall_last_n, Forall_app. split; [done |]. by constructor.
  - rewrite contents_added, Hpush by done. rewrite blocks_app.
    rewrite (blocks_cons _ b) by done. apply NoDup_app. split_and!; [done | |].
    + intros x Hx [-> | Hx']%elem_of_cons; [done |]. by apply elem_of_nil in Hx'.
    + apply NoDup_singleton.
Qed.
End Write.
