(* ===== verification/CharDriverRefine.v ===== *)
(** The file operations of the driver refine the abstract log: what every call
    does, on every branch, to the relation of [CharDriverRel]. *)

From S2P Require Import Prelude CMem LogSpec CircularBuffer Kernel CharDriver.
From S2P Require Import CharDriverRel.

(** What a write may do, seen from the log. *)
Inductive write_result (k : kernel) (s : driver) (l : log) (u : list byte) (count : Z)
    : Z -> driver -> Prop :=
| write_interrupted :
    fst (k_mutex_lock_interruptible k (mx_lock (aesd_device s))) <> 0 ->
    write_result k s l u count (- ERESTARTSYS) s
| write_nomem s' :
    mx_lock (aesd_device s) = false ->
    mx_lock (aesd_device s') = true ->
    dev_rel s' l ->
    no_memory k (Z.of_nat (length (pending l)) + count) ->
    write_result k s l u count (- ENOMEM) s'
| write_stored n s' :
    0 <= n <= count -> n <= Z.of_nat (length u) ->
    n = count - snd (k_copy_from_user k u count) ->
    mx_lock (aesd_device s) = false ->
    mx_lock (aesd_device s') = false ->
    dev_rel s' (log_write l (take (Z.to_nat n) u)) ->
    write_result k s l u count n s'.

Lemma set_mx_lock_same s : set_dev (set_mx_lock (mx_lock (aesd_device s)) (aesd_device s)) s = s.
Proof. by destruct s as [? ? [] ? ?]. Qed.

Section Ops.
Context (k : kernel) `{!KernelOk k}.

(** What is stored before the newline is looked for, in the log's terms. *)
Lemma write_branches s l u count :
  data_rel s l -> mx_lock (aesd_device s) = false -> 0 <= count <= KMALLOC_LIMIT ->
  let s1 := set_dev (set_mx_lock true (aesd_device s)) s in
  exists r,
    (if 0 <? tmp_size (aesd_device s) then write_extend k s1 u count
     else write_start k s1 u count) = Ret r /\
    extended k s1 (commands l) (pending l) u count r.
Proof.
  intros [Hcb Hpend _] Hfree Hcount s1. destruct (Hpend Hfree) as [Hsize Hlim Hopen Hheld].
  rewrite Hsize. destruct (Z.ltb_spec 0 (Z.of_nat (length (pending l)))) as [Hpos | Hz].
  - assert (pending l <> []) by (intros E; rewrite E in Hpos; done).
    apply write_extend_spec; auto.
  - assert (pending l = []) as -> by (destruct (pending l); [done | cbn [length] in Hz; lia]).
    by apply write_start_spec.
Qed.

(** The relation after the newline test. *)
Lemma commit_rel s l bs :
  stored_rel s (commands l) (pending l ++ bs) ->
  out_offs (aesd_cb (aesd_device s)) = Z.of_nat (dropped l) mod MAX ->
  let l' := log_write l bs in
  exists s', commit_pending k s = Ret s' /\
    mx_lock (aesd_device s') = mx_lock (aesd_device s) /\
    buffer_size (aesd_device s') = buffer_size (aesd_device s) /\
    cb_rel (kheap s') (aesd_cb (aesd_device s')) (commands l') /\
    pending_rel (kheap s') (aesd_device s') (pending l') /\
    out_offs (aesd_cb (aesd_device s')) = Z.of_nat (dropped l') mod MAX.
Proof.
  intros Hst Hfirst. destruct (commit_pending_spec k s _ _ Hst) as (s' & -> & Hl & Hb & Hpost).
  exists s'. unfold log_write. split_and!; [done.. | | |]; case_decide as Hnl; cbn in *;
    try (destruct Hpost as (Hcb & Hsize & Hout)).
  - done.
  - subst s'. apply Hst.
  - split; cbn; [done | unfold KMALLOC_LIMIT; lia | by intros ?%elem_of_nil | done].
  - subst s'. destruct Hst as [Hcb Hsize Hlim Htmp]. by split.
  - rewrite Hout, Hfirst. case_decide.
    + rewrite next_mod by (apply Z.mod_pos_bound; unfold MAX; lia). unfold MAX.
      rewrite Zplus_mod_idemp_l. f_equal. lia.
    + by rewrite Nat.add_0_r.
  - by subst s'.
Qed.

Lemma aesd_write_spec s l filp u count :
  dev_rel s l -> private_data filp = Some AESD_DEVICE -> 0 <= count <= KMALLOC_LIMIT ->
  exists r s', aesd_write k s filp (Some u) count = Ret (r, s') /\
    write_result k s l u count r s'.
Proof.
  intros Hrel Hfilp Hcount. unfold aesd_write, deref_dev. rewrite Hfilp.
  cbn [mbind outcome_bind].
  assert (forall e, e <> 0 -> k_mutex_lock_interruptible k (mx_lock (aesd_device s))
                     = (e, mx_lock (aesd_device s)) ->
          exists r s', aesd_write k s filp (Some u) count = Ret (r, s') /\
            write_result k s l u count r s') as Hintr.
  { intros e He Hlock. unfold aesd_write, deref_dev. rewrite Hfilp. cbn. rewrite Hlock.
    rewrite (proj2 (Z.eqb_neq _ _) He). cbn. rewrite set_mx_lock_same.
    exists (- ERESTARTSYS), s. split; [done |]. constructor. by rewrite Hlock. }
  unfold aesd_write, deref_dev in Hintr. rewrite Hfilp in Hintr.
  cbn [mbind outcome_bind] in Hintr.
  destruct (mx_lock (aesd_device s)) eqn:Hfree.
  { destruct lock_held as (e & He & Hlock). by apply (Hintr e). }
  destruct lock_free as [Hlock | (e & He & Hlock)]; [| by apply (Hintr e)].
  clear Hintr. rewrite Hlock. cbn [Z.eqb negb].
  destruct (write_branches s l u count (dev_data _ _ Hrel) Hfree Hcount) as (r & -> & Hr).
  cbn [mbind outcome_bind]. destruct r as [[e s'] | [n s']].
  - destruct Hr as (-> & Hnomem & Hcb & _ & Hcbeq & Hl & Hb). eexists _, _. split; [done |].
    cbn in Hl, Hb, Hcbeq. constructor; [done.. | | done]. split.
    + done.
    + by rewrite Hl.
    + rewrite Hcbeq. apply Hrel.
    + rewrite Hb. apply Hrel.
  - destruct Hr as (Hn & Hu & Hn' & Hst & _ & Hcbeq & Hl & Hb). cbn in Hl, Hb, Hcbeq.
    destruct (commit_rel _ _ _ Hst) as (s2 & -> & Hl2 & Hb2 & Hcb & Hpend & Hfirst).
    { rewrite Hcbeq. apply Hrel. }
    cbn [mbind outcome_bind]. eexists _, _. split; [done |].
    rewrite Hl in Hl2. rewrite Hb in Hb2.
    constructor; cbn; rewrite ?Hl2, ?unlock_held; [done.. |].
    split; cbn; [done | intros _; destruct Hpend; by split | done |].
    rewrite Hb2, (dev_total _ _ Hrel), written_log_write, length_take.
    replace (Z.of_nat (Z.to_nat n `min` length u)) with n by lia.
    unfold u64. by rewrite Zplus_mod_idemp_l.
Qed.

(** The two halves of a read: what the lookup finds, and what the copy delivers
    from it. *)
Lemma read_lookup_spec h cb l count pos :
  cb_rel h cb (commands l) -> 0 <= count < 2 ^ 63 -> 0 <= pos < 2 ^ 63 ->
  read_lookup cb count pos = Ret
    match locate (lengths (commands l)) pos with
    | None => None
    | Some (j, o) => Some (slot cb j, o, Z.of_nat (length (log_read l pos count)))
    end.
Proof.
  intros Hcb Hcount Hpos. unfold read_lookup. rewrite u64_small by lia.
  pose proof (sum_commands_le _ _ _ Hcb) as Hsum.
  rewrite find_locate;
    [| exact (rel_wf _ _ _ Hcb) | exact (cb_rel_sizes_ok _ _ _ Hcb) | lia].
  destruct Hcb as [Hwf Hent Hcmd Hnd].
  rewrite (sizes_lengths _ _ _ Hent). unfold log_read.
  destruct (locate (lengths (commands l)) pos) as [[j o]|] eqn:E; cbn [mbind outcome_bind]; [| done].
  pose proof E as E'. apply locate_concat in E as (c & Hc & Hoc & _); [| lia].
  rewrite (list_lookup_total_correct _ _ c) by done.
  destruct (Forall2_lookup_r _ _ _ _ _ Hent Hc) as (e & He & Heh).
  pose proof (command_ok_length c ltac:(by eapply Forall_lookup_1 in Hcmd)) as Hlen.
  rewrite (proj2 (arr_get_Ret (entry cb) (slot cb j) e))
    by (split; [apply slot_range | by apply lookup_slot_contents]).
  cbn [mbind outcome_bind]. rewrite (proj2 Heh), u64_small by lia.
  rewrite length_take, length_drop.
  do 3 f_equal. destruct (Z.ltb_spec count (Z.of_nat (length c) - o)); lia.
Qed.

Lemma read_copy_spec s l j o count pos :
  cb_rel (kheap s) (aesd_cb (aesd_device s)) (commands l) ->
  0 <= count < 2 ^ 63 -> 0 <= pos < 2 ^ 63 ->
  locate (lengths (commands l)) pos = Some (j, o) ->
  let bs := log_read l pos count in
  let n := Z.of_nat (length bs) in
  let missing := k_copy_to_user k n in
  read_copy k s (slot (aesd_cb (aesd_device s)) j) o n pos =
  Ret (if missing =? 0 then (n, bs, pos + n)
       else (- EFAULT, take (Z.to_nat (n - missing)) bs, pos)).
Proof.
  intros Hcb Hcount Hpos E. pose proof (sum_commands_le _ _ _ Hcb) as Hsum.
  destruct Hcb as [Hwf Hent Hcmd Hnd]. cbv zeta. unfold log_read. rewrite E.
  pose proof E as E'. apply locate_Some in E' as (z & Hz & Ho & Hpos'); [| lia].
  apply locate_concat in E as (c & Hc & Hoc & _); [| lia].
  rewrite (list_lookup_total_correct _ _ c) by done.
  destruct (Forall2_lookup_r _ _ _ _ _ Hent Hc) as (e & He & Heh).
  destruct (entry_holds_block _ _ _ Heh) as (b & Hb & Hstart).
  set (bs := take (Z.to_nat count) (drop (Z.to_nat o) c)) in *.
  assert (Z.of_nat (length bs) <= Z.of_nat (length c) - o) as Hbs
    by (unfold bs; rewrite length_take, length_drop; lia).
  unfold read_copy. rewrite (proj2 (arr_get_Ret _ (slot _ j) e))
    by (split; [apply slot_range | by apply lookup_slot_contents]).
  cbn [mbind outcome_bind].
  unfold copy_to_user. rewrite Hb, (load_bytes_starts _ _ c) by (done || lia).
  cbn [mbind outcome_bind]. rewrite Nat2Z.id.
  assert (take (length bs) (drop (Z.to_nat o) c) = bs) as -> by (apply take_length_take).
  pose proof (copy_to_user_ok (Z.of_nat (length bs)) ltac:(lia)) as Hm.
  destruct (Z.eqb_spec (k_copy_to_user k (Z.of_nat (length bs))) 0) as [-> | Hne]; cbn [negb]; [| done].
  pose proof (sumZ_take_le j _ (lengths_nonneg (commands l))).
  pose proof (command_ok_length c ltac:(by eapply Forall_lookup_1 in Hcmd)) as Hlen.
  rewrite s64_u64, !(s64_small (Z.of_nat _)), (s64_small (pos + _)) by lia.
  by rewrite take_ge by lia.
Qed.

(** A read delivers what the log gives at that position, all of it unless the
    user buffer is not writable. *)
Lemma aesd_read_spec s l filp count pos :
  dev_rel s l -> private_data filp = Some AESD_DEVICE ->
  0 <= count < 2 ^ 63 -> 0 <= pos < 2 ^ 63 ->
  let bs := log_read l pos count in
  let n := Z.of_nat (length bs) in
  let missing := k_copy_to_user k n in
  aesd_read k s filp true count pos =
  Ret (if missing =? 0 then (n, bs, pos + n)
       else (- EFAULT, take (Z.to_nat (n - missing)) bs, pos)).
Proof.
  intros Hrel Hfilp Hcount Hpos bs n missing. pose proof (dev_cb _ _ Hrel) as Hcb.
  unfold aesd_read, deref_dev. rewrite Hfilp. cbn [negb mbind outcome_bind].
  rewrite (read_lookup_spec _ _ l count pos Hcb Hcount Hpos). cbn [mbind outcome_bind].
  destruct (locate _ pos) as [[j o]|] eqn:E.
  - by apply read_copy_spec.
  - pose proof (copy_to_user_ok 0 ltac:(done)). unfold missing, n, bs, log_read. rewrite E.
    change (Z.of_nat (length [])) with 0. replace (k_copy_to_user k 0) with 0 by lia.
    by rewrite Z.add_0_r.
Qed.
End Ops.
