(* ===== verification/CharDriverSeek.v ===== *)
(** [aesd_ioctl] and [aesd_llseek]: where they put the file position, and which
    error they return otherwise. *)

From S2P Require Import Prelude CMem LogSpec CircularBuffer Kernel CharDriver.
From S2P Require Import CharDriverRel CharDriverRefine.

(** The test the ioctl makes on an entry. *)
Definition in_use (e : aesd_buffer_entry) : bool :=
  negb (is_null (buffptr e)) && (0 <? e_size e).

(** The position of byte [off] of the command in slot [w], counting the slots from
    the start of the array. *)
Definition slot_position (cb : aesd_circular_buffer) (w off : Z) : Z :=
  sumZ (take (Z.to_nat w) (sizes (entry cb))) + off.

Section Seek.
Context (h : gmap nat (list (option byte))) (cb : aesd_circular_buffer)
  (cs : list (list byte)) (Hrel : cb_rel h cb cs).

Let Hwf : cb_wf cb := rel_wf _ _ _ Hrel.

Lemma length_cs : length cs = length (contents cb).
Proof. symmetry. apply (Forall2_length _ _ _ (rel_entries _ _ _ Hrel)). Qed.

Lemma contents_in_use e :
  e ∈ contents cb -> in_use e = true /\ 0 < e_size e <= 2 ^ 31.
Proof.
  intros Hin. apply list_elem_of_lookup in Hin as [i Hi].
  destruct (Forall2_lookup_l _ _ _ _ _ (rel_entries _ _ _ Hrel) Hi) as (c & Hc & He).
  pose proof (command_ok_length c (Forall_lookup_1 _ _ _ _ (rel_commands _ _ _ Hrel) Hc)) as Hlen.
  destruct (entry_holds_block _ _ _ He) as (b & Hb & _). destruct He as [_ Hs].
  unfold in_use. rewrite Hb, Hs. simpl. split; [| lia]. apply Z.ltb_lt. lia.
Qed.

(** The slots in use are the first [length cs] ones of the array. *)
Lemma slot_in_use i e :
  entry cb !! i = Some e -> in_use e = (i <? length cs)%nat /\ 0 <= e_size e <= 2 ^ 31.
Proof.
  intros Hi. rewrite length_cs, (length_contents cb Hwf).
  pose proof (lookup_lt_Some _ _ _ Hi) as Hlt. rewrite (wf_length_entry cb Hwf) in Hlt.
  pose proof (wf_in_range cb Hwf). pose proof (contents_in_use e) as Huse.
  unfold contents in Huse. destruct (full cb) eqn:Hf.
  - destruct Huse as [-> ?].
    + rewrite rotate_at_perm. by eapply list_elem_of_lookup_2.
    + split; [symmetry; by apply Nat.ltb_lt | lia].
  - destruct (Nat.ltb_spec i (Z.to_nat (in_offs cb))).
    + destruct Huse as [-> ?]; [| lia].
      apply list_elem_of_lookup. exists i. by rewrite lookup_take_lt.
    + assert (e = zero_entry) as ->; [| done].
      pose proof (wf_unused _ Hwf Hf) as Hun.
      apply (f_equal (fun l => l !! (i - Z.to_nat (in_offs cb))%nat)) in Hun.
      rewrite lookup_drop in Hun.
      replace (Z.to_nat (in_offs cb) + (i - Z.to_nat (in_offs cb)))%nat with i in Hun by lia.
      rewrite Hi, lookup_replicate_2 in Hun by (unfold MAX; lia). by injection Hun.
Qed.

Lemma slot_sizes_ok :
  Forall (fun z => 0 <= z) (sizes (entry cb)) /\ sumZ (sizes (entry cb)) <= 10 * 2 ^ 31.
Proof.
  assert (Forall (fun z => 0 <= z <= 2 ^ 31) (sizes (entry cb))) as Hall.
  { apply Forall_fmap, Forall_lookup. intros i e He. by destruct (slot_in_use i e He). }
  split; [eapply Forall_impl; [done |]; simpl; lia |].
  assert (sumZ (sizes (entry cb)) <= 2 ^ 31 * Z.of_nat (length (sizes (entry cb)))) as Hs.
  { apply sumZ_le. eapply Forall_impl; [done |]. simpl. lia. }
  unfold sizes in *. rewrite length_fmap, (wf_length_entry cb Hwf) in Hs. lia.
Qed.

(** The loop on slots that are all in use adds their sizes up. *)
Lemma sum_entries_in_use n i retval :
  (i + n <= length cs)%nat ->
  sum_entries cb n (Z.of_nat i) retval (sumZ (take i (sizes (entry cb))))
  = Ret (retval, sumZ (take (i + n) (sizes (entry cb)))).
Proof.
  pose proof (length_commands _ _ _ Hrel) as Hle. destruct slot_sizes_ok as [Hpos Hsum].
  pose proof (wf_length_entry cb Hwf) as Hlen.
  revert i. induction n as [|n IH]; intros i Hi; [by rewrite Nat.add_0_r |].
  destruct (lookup_lt_is_Some_2 (entry cb) i) as [e He]; [lia |].
  destruct (slot_in_use i e He) as [Huse _]. cbn [sum_entries].
  rewrite (arr_get_lookup _ _ e) by done. cbn [mbind outcome_bind].
  change (negb (is_null (buffptr e)) && (0 <? e_size e)) with (in_use e).
  rewrite Huse, (proj2 (Nat.ltb_lt _ _)) by lia.
  assert (sumZ (take i (sizes (entry cb))) + e_size e = sumZ (take (S i) (sizes (entry cb))))
    as ->.
  { rewrite (take_S_r _ _ (e_size e)), sumZ_app; [simpl; lia |].
    unfold sizes. by rewrite list_lookup_fmap, He. }
  pose proof (sumZ_take_le (S i) _ Hpos).
  pose proof (sumZ_nonneg (take (S i) (sizes (entry cb))) ltac:(by apply Forall_take)).
  rewrite s64_u64, s64_small, u32_small by lia.
  replace (Z.of_nat i + 1) with (Z.of_nat (S i)) by lia. rewrite IH by lia.
  by rewrite Nat.add_succ_comm.
Qed.

(** The loop never leaves the array. *)
Lemma sum_entries_total n i retval loc :
  (i + n <= 10)%nat -> safe (sum_entries cb n (Z.of_nat i) retval loc).
Proof.
  pose proof (wf_length_entry cb Hwf) as Hlen.
  revert i loc. induction n as [|n IH]; intros i loc Hi; [by eexists |].
  destruct (lookup_lt_is_Some_2 (entry cb) i) as [e He]; [lia |]. cbn [sum_entries].
  rewrite (arr_get_lookup _ _ e) by done. cbn [mbind outcome_bind].
  destruct (_ && _); [| by eexists].
  rewrite u32_small by lia. replace (Z.of_nat i + 1) with (Z.of_nat (S i)) by lia.
  apply IH. lia.
Qed.

Lemma seek_locked_spec w off :
  0 <= w < 10 -> 0 <= off < 2 ^ 32 ->
  seek_locked cb (mk_seekto w off) =
  Ret match entry cb !! Z.to_nat w with
      | Some e => if (w <? Z.of_nat (length cs)) && (off <=? e_size e)
                  then (0, Some (slot_position cb w off)) else (- EINVAL, None)
      | None => (- EINVAL, None)
      end.
Proof.
  intros Hw Hoff. pose proof (wf_length_entry cb Hwf) as Hlen. unfold seek_locked. cbn [write_cmd write_cmd_offset].
  destruct (lookup_lt_is_Some_2 (entry cb) (Z.to_nat w)) as [e He]; [lia |].
  destruct (slot_in_use _ e He) as [Huse Hsize].
  rewrite He, (proj2 (arr_get_Ret _ w e)) by (split; [lia | done]).
  destruct (Z.ltb_spec w (Z.of_nat (length cs))) as [Hin | Hout].
  - pose proof (sum_entries_in_use (Z.to_nat w) 0 0 ltac:(lia)) as Hloop.
    rewrite take_0 in Hloop. change (Z.of_nat 0) with 0 in Hloop.
    change (sumZ []) with 0 in Hloop. cbn [Nat.add] in Hloop.
    rewrite Hloop. cbn [mbind outcome_bind].
    change (negb (is_null (buffptr e)) && (0 <? e_size e)) with (in_use e).
    rewrite Huse, (proj2 (Nat.ltb_lt _ _)) by lia.
    destruct slot_sizes_ok as [Hpos Hsum]. pose proof (sumZ_take_le (Z.to_nat w) _ Hpos).
    pose proof (sumZ_nonneg (take (Z.to_nat w) (sizes (entry cb))) ltac:(by apply Forall_take)).
    rewrite Z.leb_antisym. cbn [andb]. unfold slot_position.
    destruct (e_size e <? off); cbn [negb]; [done |]. by rewrite s64_small by lia.
  - destruct (sum_entries_total (Z.to_nat w) 0 0 0) as [[r p] Hr]; [lia |].
    change (Z.of_nat 0) with 0 in Hr. rewrite Hr. cbn [mbind outcome_bind].
    change (negb (is_null (buffptr e)) && (0 <? e_size e)) with (in_use e).
    rewrite Huse, (proj2 (Nat.ltb_ge _ _)) by lia. done.
Qed.
End Seek.

(** ** Decoding the argument *)

Lemma le_fold_range bs :
  0 <= foldr (fun b acc => Z.of_N (Byte.to_N b) + 256 * acc) 0 bs < 256 ^ Z.of_nat (length bs).
Proof.
  induction bs as [|b bs IH]; [done |]. cbn [foldr length].
  pose proof (Byte.to_N_bounded b). rewrite Nat2Z.inj_succ, Z.pow_succ_r by lia. lia.
Qed.

Lemma le_u32_range bs : 0 <= le_u32 bs < 2 ^ 32.
Proof.
  unfold le_u32. pose proof (le_fold_range (take 4 bs)) as Hr.
  rewrite length_take in Hr.
  assert (256 ^ Z.of_nat (4 `min` length bs) <= 256 ^ 4) as Hp by (apply Z.pow_le_mono_r; lia).
  change (2 ^ 32) with (256 ^ 4). lia.
Qed.

(** ** The ioctl *)

(** The answer once the request is decoded and the mutex obtained. *)
Definition seek_answer (cb : aesd_circular_buffer) (n : nat) (w off : Z) : Z * option Z :=
  match entry cb !! Z.to_nat w with
  | Some e => if (w <? Z.of_nat n) && (off <=? e_size e)
              then (0, Some (slot_position cb w off)) else (- EINVAL, None)
  | None => (- EINVAL, None)
  end.

(** The state is as before once the mutex is released. *)
Lemma unlock_same s :
  mx_lock (aesd_device s) = false ->
  let s1 := set_dev (set_mx_lock true (aesd_device s)) s in
  set_dev (set_mx_lock false (aesd_device s1)) s1 = s.
Proof. destruct s as [? ? [] ? ?]. cbn. by intros ->. Qed.

Section Ioctl.
Context (k : kernel) `{!KernelOk k} (s : driver) (l : log) (filp : file)
  (Hrel : dev_rel s l) (Hfilp : private_data filp = Some AESD_DEVICE).

Let cb := aesd_cb (aesd_device s).

Lemma aesd_ioctl_granted arg bs :
  k_copy_from_user k arg sizeof_aesd_seekto = (bs, 0) ->
  mx_lock (aesd_device s) = false -> k_mutex_lock_interruptible k false = (0, true) ->
  write_cmd (decode_seekto bs) < 10 ->
  aesd_ioctl k s filp (AESDCHAR_IOCSEEKTO k) arg =
  let sk := decode_seekto bs in
  let '(r, p) := seek_answer cb (length (commands l)) (write_cmd sk) (write_cmd_offset sk) in
  Ret (r, s, match p with Some p => set_f_pos p filp | None => filp end).
Proof.
  intros Hcopy Hfree Hlock Hw. unfold aesd_ioctl. rewrite Z.eqb_refl, Hcopy. cbn [Z.eqb negb].
  pose proof (le_u32_range bs) as Hr. pose proof (le_u32_range (drop 4 bs)).
  cbn [decode_seekto write_cmd write_cmd_offset] in *.
  rewrite (proj2 (Z.ltb_ge (le_u32 bs) 0)), (proj2 (Z.ltb_ge MAX _)) by (unfold MAX; lia).
  cbn [orb]. unfold deref_dev. rewrite Hfilp. cbn [mbind outcome_bind].
  rewrite Hfree, Hlock. cbn [Z.eqb negb].
  change (decode_seekto bs) with (mk_seekto (le_u32 bs) (le_u32 (drop 4 bs))).
  rewrite (seek_locked_spec _ _ _ (dev_cb _ _ Hrel)) by lia. cbn [mbind outcome_bind].
  rewrite unlock_held, unlock_same by done. unfold seek_answer, cb.
  by destruct (match _ !! _ with Some _ => _ | None => _ end).
Qed.

(** The other ways the call ends. *)
Lemma aesd_ioctl_refused cmd arg bs missing :
  k_copy_from_user k arg sizeof_aesd_seekto = (bs, missing) ->
  (cmd <> AESDCHAR_IOCSEEKTO k \/ missing <> 0 \/ 10 < write_cmd (decode_seekto bs)) ->
  aesd_ioctl k s filp cmd arg = Ret (- EINVAL, s, filp).
Proof.
  intros Hcopy Hcase. unfold aesd_ioctl.
  destruct (Z.eqb_spec cmd (AESDCHAR_IOCSEEKTO k)); [| done]. rewrite Hcopy.
  destruct (Z.eqb_spec missing 0); cbn [negb]; [| done].
  destruct Hcase as [? | [? | Hw]]; [done.. |].
  rewrite (proj2 (Z.ltb_lt MAX _)) by (unfold MAX; lia). by rewrite orb_true_r.
Qed.

Lemma aesd_ioctl_interrupted arg bs e :
  k_copy_from_user k arg sizeof_aesd_seekto = (bs, 0) ->
  write_cmd (decode_seekto bs) <= 10 -> e <> 0 ->
  k_mutex_lock_interruptible k (mx_lock (aesd_device s)) = (e, mx_lock (aesd_device s)) ->
  aesd_ioctl k s filp (AESDCHAR_IOCSEEKTO k) arg = Ret (- ERESTARTSYS, s, filp).
Proof.
  intros Hcopy Hw He Hlock. unfold aesd_ioctl. rewrite Z.eqb_refl, Hcopy. cbn [Z.eqb negb].
  pose proof (le_u32_range bs). cbn [decode_seekto write_cmd write_cmd_offset] in *.
  rewrite (proj2 (Z.ltb_ge (le_u32 bs) 0)), (proj2 (Z.ltb_ge MAX _)) by (unfold MAX; lia).
  cbn [orb]. unfold deref_dev. rewrite Hfilp. cbn [mbind outcome_bind].
  rewrite Hlock, (proj2 (Z.eqb_neq _ _) He). cbn [negb]. by rewrite set_mx_lock_same.
Qed.

(** A request for command 10 reads past the array. *)
Lemma aesd_ioctl_past_end arg bs :
  k_copy_from_user k arg sizeof_aesd_seekto = (bs, 0) ->
  mx_lock (aesd_device s) = false -> k_mutex_lock_interruptible k false = (0, true) ->
  write_cmd (decode_seekto bs) = 10 ->
  aesd_ioctl k s filp (AESDCHAR_IOCSEEKTO k) arg = Fault OutOfBounds.
Proof.
  intros Hcopy Hfree Hlock Hw. unfold aesd_ioctl. rewrite Z.eqb_refl, Hcopy. cbn [Z.eqb negb].
  rewrite Hw. change ((10 <? 0) || (MAX <? 10)) with false. cbv iota.
  unfold deref_dev. rewrite Hfilp. cbn [mbind outcome_bind].
  rewrite Hfree, Hlock. cbn [Z.eqb negb]. unfold seek_locked. rewrite Hw.
  pose proof (dev_cb _ _ Hrel) as Hcb.
  destruct (sum_entries_total _ _ _ Hcb (Z.to_nat 10) 0 0 0) as [[r p] Hr]; [lia |].
  change (Z.of_nat 0) with 0 in Hr. rewrite Hr. cbn [mbind outcome_bind].
  rewrite arr_get_out_of_range; [done |].
  by rewrite (wf_length_entry _ (rel_wf _ _ _ Hcb)).
Qed.
End Ioctl.

(** ** What a position means in the log *)

(** The array holds the commands in the log's slot order. *)
Lemma data_slot_order s l :
  data_rel s l -> exists n,
    sizes (entry (aesd_cb (aesd_device s))) = lengths (slot_order l) ++ replicate n 0.
Proof.
  intros [[Hwf Hent _ _] _ Hfirst]. set (cb := aesd_cb (aesd_device s)) in *.
  pose proof (Forall2_length _ _ _ Hent) as Hlen. pose proof (wf_length_entry cb Hwf) as Hl.
  pose proof (wf_out_range cb Hwf). pose proof (length_contents cb Hwf) as Hc.
  pose proof (sizes_lengths _ _ _ Hent) as Hs. unfold slot_order.
  assert (dropped l mod LOG_MAX = Z.to_nat (out_offs cb))%nat as ->.
  { rewrite Hfirst. unfold MAX, LOG_MAX. rewrite Z2Nat.inj_mod, Nat2Z.id by lia. done. }
  destruct (full cb) eqn:Hf.
  - exists 0%nat. rewrite app_nil_r, <- Hlen, Hc. unfold rotate_at, lengths in *.
    rewrite fmap_app, fmap_drop, fmap_take, <- Hs. unfold sizes, contents. rewrite Hf.
    unfold rotate_at. rewrite <- fmap_drop, <- fmap_take, <- fmap_app. f_equal.
    rewrite drop_app_ge, take_app_le by (rewrite length_drop; lia).
    rewrite length_drop, Hl, Nat.sub_diag, drop_0, (take_ge (drop _ _)) by (rewrite length_drop; lia).
    symmetry. apply take_drop.
  - rewrite (wf_start _ Hwf Hf). unfold rotate_at. rewrite Nat.sub_0_r, drop_ge, take_ge by lia.
    destruct (rotate_contents cb Hwf) as [n Hn]. exists n. simpl.
    rewrite (wf_start _ Hwf Hf) in Hn. unfold rotate_at in Hn. simpl in Hn.
    rewrite take_0, drop_0, app_nil_r in Hn. rewrite Hn. unfold sizes in *.
    by rewrite fmap_app, Hs, fmap_replicate.
Qed.

Lemma entry_slot_order s l :
  dev_rel s l -> exists n,
    sizes (entry (aesd_cb (aesd_device s))) = lengths (slot_order l) ++ replicate n 0.
Proof. intros Hrel. by apply data_slot_order, dev_data. Qed.

(** The ioctl answers what the log says. *)
Lemma seek_answer_data s l w off :
  data_rel s l -> 0 <= w < 10 ->
  seek_answer (aesd_cb (aesd_device s)) (length (commands l)) w off =
  match log_seek l w off with Some p => (0, Some p) | None => (- EINVAL, None) end.
Proof.
  intros Hrel Hw. destruct (data_slot_order s l Hrel) as [n Hn].
  set (cb := aesd_cb (aesd_device s)) in *.
  pose proof (wf_length_entry cb (rel_wf _ _ _ (data_cb _ _ Hrel))) as Hl.
  assert (length (slot_order l) = length (commands l)) as Hlen by apply length_rotate_at.
  unfold seek_answer, log_seek, slot_position.
  destruct (lookup_lt_is_Some_2 (entry cb) (Z.to_nat w)) as [e He]; [lia |]. rewrite He.
  assert (sizes (entry cb) !! Z.to_nat w = Some (e_size e)) as Hs.
  { unfold sizes. by rewrite list_lookup_fmap, He. }
  rewrite Hn in Hs |- *. destruct (Z.ltb_spec w (Z.of_nat (length (commands l)))) as [Hin | Hout].
  - destruct (lookup_lt_is_Some_2 (slot_order l) (Z.to_nat w)) as [c Hc]; [lia |]. rewrite Hc.
    rewrite lookup_app_l in Hs by (unfold lengths; rewrite length_fmap; lia).
    unfold lengths in Hs. rewrite list_lookup_fmap, Hc in Hs. injection Hs as <-. cbn [andb].
    rewrite take_app_le by (unfold lengths; rewrite length_fmap; lia).
    by destruct (off <=? _).
  - rewrite (lookup_ge_None_2 (slot_order l)) by lia. done.
Qed.

Lemma seek_answer_log s l w off :
  dev_rel s l -> 0 <= w < 10 ->
  seek_answer (aesd_cb (aesd_device s)) (length (commands l)) w off =
  match log_seek l w off with Some p => (0, Some p) | None => (- EINVAL, None) end.
Proof. intros Hrel. by apply seek_answer_data, dev_data. Qed.
