(* ===== verification/CharDriverSystem.v ===== *)
(** The driver as the kernel runs it: any number of open files, system calls one
    after the other through the table [aesd_fops], each under its own kernel
    behaviour. The step relation refines the abstract device of [LogSpec] with one
    position per open file. *)

From S2P Require Import Prelude CMem LogSpec CircularBuffer Kernel CharDriver.
From S2P Require Import CharDriverRel CharDriverRefine CharDriverSeek.

(** The VFS never asks for more bytes at once. *)
Definition MAX_RW_COUNT : Z := 2147479552.

Record world : Type := mk_world {
  drv : driver;
  files : gmap nat file;
}.

(** A completed system call with what the caller sees of it. *)
Inductive event : Type :=
| EvOpen (fd : nat)
| EvRelease (fd : nat)
| EvRead (fd : nat) (count : Z) (r : Z) (bs : list byte)
| EvWrite (fd : nat) (u : list byte) (count : Z) (r : Z)
| EvLlseek (fd : nat) (off whence : Z) (r : Z)
| EvIoctl (fd : nat) (cmd : Z) (arg : list byte) (r : Z).

Inductive step : world -> event -> world -> Prop :=
| step_open s fs fd f :
    fs !! fd = None ->
    aesd_open (mk_inode (Some AESD_DEVICE)) (mk_file 0 None) = (0, f) ->
    step (mk_world s fs) (EvOpen fd) (mk_world s (<[fd := f]> fs))
| step_release s fs fd f :
    fs !! fd = Some f -> aesd_release (mk_inode (Some AESD_DEVICE)) f = 0 ->
    step (mk_world s fs) (EvRelease fd) (mk_world s (delete fd fs))
| step_read k s fs fd f count r bs pos :
    KernelOk k -> fs !! fd = Some f -> 0 <= count <= MAX_RW_COUNT ->
    aesd_read k s f true count (f_pos f) = Ret (r, bs, pos) ->
    step (mk_world s fs) (EvRead fd count r bs) (mk_world s (<[fd := set_f_pos pos f]> fs))
| step_write k s fs fd f u count r s' :
    KernelOk k -> fs !! fd = Some f -> 0 <= count <= MAX_RW_COUNT ->
    aesd_write k s f (Some u) count = Ret (r, s') ->
    step (mk_world s fs) (EvWrite fd u count r) (mk_world s' fs)
| step_llseek s fs fd f off whence r f' :
    fs !! fd = Some f -> - 2 ^ 63 <= off < 2 ^ 63 ->
    aesd_llseek s f off whence = (r, f') ->
    step (mk_world s fs) (EvLlseek fd off whence r) (mk_world s (<[fd := f']> fs))
| step_ioctl k s fs fd f cmd arg r s' f' :
    KernelOk k -> fs !! fd = Some f ->
    aesd_ioctl k s f cmd arg = Ret (r, s', f') ->
    step (mk_world s fs) (EvIoctl fd cmd arg r) (mk_world s' (<[fd := f']> fs)).

(** ** The abstract device *)

Record spec : Type := mk_spec {
  sp_log : log;
  sp_pos : gmap nat Z;
}.

(** Where a seek goes; the end of the device is the number of bytes ever written. *)
Definition spec_llseek (l : log) (pos off whence : Z) : option Z :=
  let target :=
    if whence =? SEEK_SET then Some off
    else if whence =? SEEK_CUR then Some (s64 (pos + off))
    else if whence =? SEEK_END then Some (s64 (written l + off))
    else None in
  match target with
  | Some t => if t <? 0 then None else Some t
  | None => None
  end.

(** An error the kernel can cause at any time ([-ERESTARTSYS], [-ENOMEM], [-EFAULT],
    an unreadable ioctl argument) is always allowed and leaves the log alone; when
    calls succeed is the subject of theorems of their own. *)
Inductive spec_step : spec -> event -> spec -> Prop :=
| spec_open l ps fd :
    ps !! fd = None ->
    spec_step (mk_spec l ps) (EvOpen fd) (mk_spec l (<[fd := 0]> ps))
| spec_release l ps fd :
    is_Some (ps !! fd) ->
    spec_step (mk_spec l ps) (EvRelease fd) (mk_spec l (delete fd ps))
| spec_read l ps fd p count :
    ps !! fd = Some p ->
    let bs := log_read l p count in
    let n := Z.of_nat (length bs) in
    spec_step (mk_spec l ps) (EvRead fd count n bs) (mk_spec l (<[fd := p + n]> ps))
| spec_read_fault l ps fd p count bs :
    ps !! fd = Some p -> bs `prefix_of` log_read l p count ->
    spec_step (mk_spec l ps) (EvRead fd count (- EFAULT) bs) (mk_spec l ps)
| spec_write l ps fd u count n :
    is_Some (ps !! fd) -> 0 <= n <= count -> n <= Z.of_nat (length u) ->
    spec_step (mk_spec l ps) (EvWrite fd u count n)
      (mk_spec (log_write l (take (Z.to_nat n) u)) ps)
| spec_write_error l ps fd u count e :
    is_Some (ps !! fd) -> e = ENOMEM \/ e = ERESTARTSYS ->
    spec_step (mk_spec l ps) (EvWrite fd u count (- e)) (mk_spec l ps)
| spec_seek l ps fd p off whence t :
    ps !! fd = Some p -> spec_llseek l p off whence = Some t ->
    spec_step (mk_spec l ps) (EvLlseek fd off whence t) (mk_spec l (<[fd := t]> ps))
| spec_seek_error l ps fd p off whence :
    ps !! fd = Some p -> spec_llseek l p off whence = None ->
    spec_step (mk_spec l ps) (EvLlseek fd off whence (- EINVAL)) (mk_spec l ps)
| spec_ioctl l ps fd p cmd arg t :
    ps !! fd = Some p -> (8 <= length arg)%nat ->
    log_seek l (write_cmd (decode_seekto arg)) (write_cmd_offset (decode_seekto arg)) = Some t ->
    spec_step (mk_spec l ps) (EvIoctl fd cmd arg 0) (mk_spec l (<[fd := t]> ps))
| spec_ioctl_error l ps fd cmd arg e :
    is_Some (ps !! fd) -> e = EINVAL \/ e = ERESTARTSYS ->
    spec_step (mk_spec l ps) (EvIoctl fd cmd arg (- e)) (mk_spec l ps).

(** ** The simulation relation *)

Definition file_ok (f : file) : Prop :=
  private_data f = Some AESD_DEVICE /\ 0 <= f_pos f < 2 ^ 63.

Record world_rel (w : world) (sp : spec) : Prop := {
  wr_dev : dev_rel (drv w) (sp_log sp);
  wr_pos : sp_pos sp = f_pos <$> files w;
  wr_files : map_Forall (fun _ f => file_ok f) (files w);
}.

Section Reads.
Context (s : driver) (l : log) (Hrel : dev_rel s l).

Lemma log_bytes_small : Z.of_nat (length (log_bytes l)) <= 10 * 2 ^ 31.
Proof.
  unfold log_bytes. rewrite <- sumZ_lengths.
  apply (sum_commands_le _ _ _ (dev_cb _ _ Hrel)).
Qed.

Lemma read_position_small pos count :
  0 <= pos < 2 ^ 63 -> 0 <= pos + Z.of_nat (length (log_read l pos count)) < 2 ^ 63.
Proof.
  intros Hpos. pose proof log_bytes_small.
  pose proof (prefix_length _ _ (log_read_prefix l pos count ltac:(lia))) as Hlen.
  rewrite length_drop in Hlen. destruct (log_read l pos count); cbn [length] in *; lia.
Qed.
End Reads.

Lemma aesd_llseek_spec s l f off whence :
  dev_rel s l -> private_data f = Some AESD_DEVICE -> - 2 ^ 63 <= off < 2 ^ 63 ->
  aesd_llseek s f off whence =
  match spec_llseek l (f_pos f) off whence with
  | Some t => (t, set_f_pos t f)
  | None => (- EINVAL, f)
  end /\
  forall t, spec_llseek l (f_pos f) off whence = Some t -> 0 <= t < 2 ^ 63.
Proof.
  intros Hrel Hf Hoff. unfold aesd_llseek, spec_llseek.
  rewrite (dev_total _ _ Hrel), s64_u64.
  assert (s64 (u64 (written l) + off) = s64 (written l + off)) as ->.
  { rewrite <- s64_u64, <- (s64_u64 (_ + _)). f_equal. unfold u64.
    by rewrite Zplus_mod_idemp_l. }
  pose proof (s64_range (f_pos f + off)). pose proof (s64_range (written l + off)).
  repeat case_match; split; try done; intros ? [= <-]; simplify_eq; lia.
Qed.

(** The positions of the open files, after one of them changed. *)
Lemma world_rel_file s fs l ps fd f p :
  world_rel (mk_world s fs) (mk_spec l ps) -> file_ok (set_f_pos p f) ->
  world_rel (mk_world s (<[fd := set_f_pos p f]> fs)) (mk_spec l (<[fd := p]> ps)).
Proof.
  intros [Hdev Hpos Hfiles] Hf. cbn in *. split; cbn; [done | | by apply map_Forall_insert_2].
  by rewrite fmap_insert, Hpos.
Qed.

Lemma world_rel_same_file s fs l ps fd f :
  world_rel (mk_world s fs) (mk_spec l ps) -> fs !! fd = Some f ->
  world_rel (mk_world s (<[fd := f]> fs)) (mk_spec l ps).
Proof. intros Hrel Hfd. by rewrite insert_id. Qed.

Lemma world_rel_lookup s fs l ps fd f :
  world_rel (mk_world s fs) (mk_spec l ps) -> fs !! fd = Some f ->
  file_ok f /\ ps !! fd = Some (f_pos f).
Proof.
  intros [_ Hpos Hfiles] Hfd. cbn in *. split; [by apply (Hfiles fd) |].
  by rewrite Hpos, lookup_fmap, Hfd.
Qed.

Lemma world_rel_drv s s' fs l l' ps :
  world_rel (mk_world s fs) (mk_spec l ps) -> dev_rel s' l' ->
  world_rel (mk_world s' fs) (mk_spec l' ps).
Proof. intros [_ ? ?] ?. by split. Qed.

(** ** The ioctl, on every branch *)

Lemma decode_seekto_take arg : decode_seekto (take 8 arg) = decode_seekto arg.
Proof.
  unfold decode_seekto, le_u32. rewrite skipn_firstn_comm, !take_take. done.
Qed.

Lemma log_seek_small s l w off t :
  dev_rel s l -> 0 <= off < 2 ^ 32 -> log_seek l w off = Some t -> 0 <= t < 2 ^ 63.
Proof.
  intros Hrel Hoff. unfold log_seek. destruct (slot_order l !! _); [| done].
  destruct (off <=? _); [| done]. intros [= <-].
  destruct (entry_slot_order s l Hrel) as [n Hn].
  pose proof (slot_sizes_ok _ _ _ (dev_cb _ _ Hrel)) as [Hpos Hsum].
  rewrite Hn, sumZ_app, sumZ_zeros in Hsum.
  pose proof (sumZ_take_le (Z.to_nat w) _ (lengths_nonneg (slot_order l))).
  pose proof (sumZ_nonneg (take (Z.to_nat w) (lengths (slot_order l)))
                ltac:(apply Forall_take, lengths_nonneg)). lia.
Qed.

(** What an ioctl may do, seen from the log. *)
Inductive ioctl_result (l : log) (f : file) (arg : list byte) : Z -> file -> Prop :=
| ioctl_moved t :
    (8 <= length arg)%nat ->
    log_seek l (write_cmd (decode_seekto arg)) (write_cmd_offset (decode_seekto arg)) = Some t ->
    ioctl_result l f arg 0 (set_f_pos t f)
| ioctl_error e :
    e = EINVAL \/ e = ERESTARTSYS -> ioctl_result l f arg (- e) f.

(** The request is for command 10, which passes the range test. *)
Definition asks_past_end (k : kernel) (cmd : Z) (arg : list byte) : Prop :=
  cmd = AESDCHAR_IOCSEEKTO k /\ write_cmd (decode_seekto arg) = 10.

Lemma aesd_ioctl_spec k `{!KernelOk k} s l f cmd arg :
  dev_rel s l -> private_data f = Some AESD_DEVICE ->
  (exists r f', aesd_ioctl k s f cmd arg = Ret (r, s, f') /\ ioctl_result l f arg r f') \/
  (asks_past_end k cmd arg /\ aesd_ioctl k s f cmd arg = Fault OutOfBounds).
Proof.
  intros Hrel Hf.
  destruct (copy_from_user_ok arg sizeof_aesd_seekto) as (m & Hm & Hlen & Hcopy); [done |].
  set (bs := take _ arg ++ _) in Hcopy.
  assert (forall e, aesd_ioctl k s f cmd arg = Ret (- e, s, f) -> e = EINVAL \/ e = ERESTARTSYS ->
    exists r f', aesd_ioctl k s f cmd arg = Ret (r, s, f') /\ ioctl_result l f arg r f') as Herr.
  { intros e He Hcase. exists (- e), f. split; [done | by constructor]. }
  destruct (decide (cmd = AESDCHAR_IOCSEEKTO k)) as [-> | Hcmd].
  2: { left. eapply Herr; [eapply aesd_ioctl_refused; [done | by left] | by left]. }
  destruct (decide (m = 0)) as [-> | Hm0].
  2: { left. eapply Herr; [eapply aesd_ioctl_refused; [done | by right; left] | by left]. }
  assert (decode_seekto bs = decode_seekto arg) as Hdec.
  { unfold bs. simpl. rewrite app_nil_r. apply decode_seekto_take. }
  destruct (Z.lt_trichotomy (write_cmd (decode_seekto bs)) 10) as [Hw | [Hw | Hw]].
  3: { left. eapply Herr; [eapply aesd_ioctl_refused; [done | by right; right] | by left]. }
  all: assert (forall e, e <> 0 -> k_mutex_lock_interruptible k (mx_lock (aesd_device s))
                  = (e, mx_lock (aesd_device s)) ->
       exists r f', aesd_ioctl k s f (AESDCHAR_IOCSEEKTO k) arg = Ret (r, s, f') /\
         ioctl_result l f arg r f') as Hintr
    by (intros e He Hl; eapply Herr;
        [eapply aesd_ioctl_interrupted; try done; lia | by right]).
  all: destruct (mx_lock (aesd_device s)) eqn:Hfree;
    [destruct lock_held as (e & He & Hl); left; by apply (Hintr e) |].
  all: destruct lock_free as [Hl | (e & He & Hl)]; [| left; by apply (Hintr e)].
  - left. rewrite (aesd_ioctl_granted k s l f Hrel Hf arg bs) by done. cbv zeta.
    pose proof (le_u32_range bs) as Hr. rewrite (seek_answer_log s l _ _ Hrel) by (simpl in *; lia).
    rewrite Hdec. destruct (log_seek l _ _) as [t|] eqn:Ht; eexists _, _; (split; [done |]).
    + constructor; [| done]. unfold sizeof_aesd_seekto in Hlen. lia.
    + apply (ioctl_error _ _ _ EINVAL). by left.
  - right. split; [by rewrite Hdec in Hw |]. by eapply aesd_ioctl_past_end.
Qed.

(** ** The simulation *)

(** One case per kind of call: [sim_read] and so on. *)
Lemma sim_read k `{!KernelOk k} s fs l ps fd f count r bs pos :
  world_rel (mk_world s fs) (mk_spec l ps) -> fs !! fd = Some f ->
  0 <= count <= MAX_RW_COUNT -> aesd_read k s f true count (f_pos f) = Ret (r, bs, pos) ->
  exists sp', spec_step (mk_spec l ps) (EvRead fd count r bs) sp' /\
    world_rel (mk_world s (<[fd := set_f_pos pos f]> fs)) sp'.
Proof.
  intros Hrel Hfd Hcount Hread. destruct (world_rel_lookup _ _ _ _ _ _ Hrel Hfd) as [[Hf Hp] Hps].
  pose proof (wr_dev _ _ Hrel) as Hdev. cbn in Hdev. unfold MAX_RW_COUNT in *.
  rewrite (aesd_read_spec k s l f count (f_pos f)) in Hread by (done || lia).
  destruct (_ =? 0); injection Hread as <- <- <-.
  - eexists. split; [by apply spec_read |]. apply world_rel_file; [done |].
    split; [done |]. by apply (read_position_small s l Hdev).
  - exists (mk_spec l ps). split.
    + eapply spec_read_fault; [done | apply prefix_take].
    + apply world_rel_same_file; [done |]. by destruct f.
Qed.

Lemma sim_write k `{!KernelOk k} s fs l ps fd f u count r s' :
  world_rel (mk_world s fs) (mk_spec l ps) -> fs !! fd = Some f ->
  0 <= count <= MAX_RW_COUNT -> aesd_write k s f (Some u) count = Ret (r, s') ->
  exists sp', spec_step (mk_spec l ps) (EvWrite fd u count r) sp' /\
    world_rel (mk_world s' fs) sp'.
Proof.
  intros Hrel Hfd Hcount Hwrite. destruct (world_rel_lookup _ _ _ _ _ _ Hrel Hfd) as [[Hf Hp] Hps].
  pose proof (wr_dev _ _ Hrel) as Hdev. unfold MAX_RW_COUNT in *. cbn in Hdev.
  destruct (aesd_write_spec k s l f u count) as (r' & s'' & Heq & Hres);
    [done.. | unfold KMALLOC_LIMIT; lia |].
  rewrite Heq in Hwrite. injection Hwrite as -> ->.
  destruct Hres as [| s' ? ? Hrel' | n s' ? ? ? ? ? Hrel'].
  - exists (mk_spec l ps). split; [apply spec_write_error; [done | by right] | done].
  - exists (mk_spec l ps). split; [apply spec_write_error; [done | by left] |].
    by eapply world_rel_drv.
  - eexists. split; [by apply spec_write |]. by eapply world_rel_drv.
Qed.

Lemma sim_llseek s fs l ps fd f off whence r f' :
  world_rel (mk_world s fs) (mk_spec l ps) -> fs !! fd = Some f ->
  - 2 ^ 63 <= off < 2 ^ 63 -> aesd_llseek s f off whence = (r, f') ->
  exists sp', spec_step (mk_spec l ps) (EvLlseek fd off whence r) sp' /\
    world_rel (mk_world s (<[fd := f']> fs)) sp'.
Proof.
  intros Hrel Hfd Hoff Hseek. destruct (world_rel_lookup _ _ _ _ _ _ Hrel Hfd) as [[Hf Hp] Hps].
  destruct (aesd_llseek_spec s l f off whence) as [Heq Ht]; [apply Hrel | done.. |].
  rewrite Heq in Hseek. destruct (spec_llseek l (f_pos f) off whence) as [t|] eqn:E;
    injection Hseek as <- <-.
  - eexists. split; [by eapply spec_seek |]. apply world_rel_file; [done |].
    split; [done |]. by apply Ht.
  - exists (mk_spec l ps). split; [by eapply spec_seek_error | by apply world_rel_same_file].
Qed.

Lemma sim_ioctl k `{!KernelOk k} s fs l ps fd f cmd arg r s' f' :
  world_rel (mk_world s fs) (mk_spec l ps) -> fs !! fd = Some f ->
  aesd_ioctl k s f cmd arg = Ret (r, s', f') ->
  exists sp', spec_step (mk_spec l ps) (EvIoctl fd cmd arg r) sp' /\
    world_rel (mk_world s' (<[fd := f']> fs)) sp'.
Proof.
  intros Hrel Hfd Hio. destruct (world_rel_lookup _ _ _ _ _ _ Hrel Hfd) as [[Hf Hp] Hps].
  pose proof (wr_dev _ _ Hrel) as Hdev. cbn in Hdev.
  destruct (aesd_ioctl_spec k s l f cmd arg Hdev Hf) as [(r' & f'' & Heq & Hres) | [_ Hfault]];
    [| by rewrite Hfault in Hio].
  rewrite Heq in Hio. injection Hio as -> <- ->. destruct Hres as [t Hlen Ht | e He].
  - eexists. split; [by eapply spec_ioctl |]. apply world_rel_file; [done |].
    split; [done |]. eapply (log_seek_small s l _ _ t Hdev); [| exact Ht]. apply le_u32_range.
  - exists (mk_spec l ps). split; [by apply spec_ioctl_error | by apply world_rel_same_file].
Qed.

Lemma simulation w ev w' sp :
  step w ev w' -> world_rel w sp ->
  exists sp', spec_step sp ev sp' /\ world_rel w' sp'.
Proof.
  intros Hstep. destruct sp as [l ps].
  destruct Hstep as [s fs fd f Hnone Hopen | s fs fd f Hfd _ | | | | ]; intros Hrel.
  - pose proof (wr_pos _ _ Hrel) as Hpos. cbn in Hpos. injection Hopen as <-.
    eexists. split; [apply spec_open; by rewrite Hpos, lookup_fmap, Hnone |].
    apply (world_rel_file s fs l ps fd (mk_file 0 (Some AESD_DEVICE))); [done | by split].
  - pose proof (world_rel_lookup _ _ _ _ _ _ Hrel Hfd) as [_ Hps].
    destruct Hrel as [Hdev Hpos Hfiles]. cbn in *.
    eexists. split; [by apply spec_release |]. split; cbn; [done | |].
    + by rewrite fmap_delete, Hpos.
    + by apply map_Forall_delete.
  - by eapply (sim_read k).
  - by eapply (sim_write k).
  - by eapply sim_llseek.
  - by eapply (sim_ioctl k).
Qed.
