(* ===== verification/CharDriverModule.v ===== *)
(** Loading and unloading the module: the device [aesd_init_module] sets up stands
    for the empty log, and what [aesd_cleanup_module] frees. *)

From S2P Require Import Prelude CMem LogSpec CircularBuffer Kernel CharDriver.
From S2P Require Import CharDriverRel.

(** ** Loading *)

Lemma zero_dev_rel s :
  aesd_device s = set_cdev (cdev (aesd_device s)) zero_dev -> dev_rel s empty_log.
Proof.
  intros Hd. split; rewrite Hd; cbn; [| | done..].
  - split; cbn; [apply cb_wf_init | done | done | apply NoDup_nil_2].
  - intros _. split; cbn; [done | unfold KMALLOC_LIMIT; lia | by intros ?%elem_of_nil | done].
Qed.

(** The three ways [aesd_init_module] ends. *)
Lemma aesd_init_module_cases k s r s' :
  aesd_init_module k s = (r, s') ->
  (r < 0 /\ r = fst (k_alloc_chrdev_region k (aesd_minor s)) /\
     aesd_device s' = aesd_device s /\ chrdev_region s' = chrdev_region s) \/
  (r <> 0 /\ dev_rel s' empty_log /\ chrdev_region s' = None /\
     cdev_live (cdev (aesd_device s')) = false) \/
  (r = 0 /\ dev_rel s' empty_log /\
     chrdev_region s' = Some (snd (k_alloc_chrdev_region k (aesd_minor s))) /\
     0 <= fst (k_alloc_chrdev_region k (aesd_minor s)) /\
     aesd_major s' = k_MAJOR k (snd (k_alloc_chrdev_region k (aesd_minor s))) /\
     aesd_minor s' = aesd_minor s /\
     cdev_live (cdev (aesd_device s')) = true).
Proof.
  unfold aesd_init_module. destruct (k_alloc_chrdev_region k (aesd_minor s)) as [res dev].
  destruct (Z.ltb_spec res 0).
  - intros [= <- <-]. by left.
  - cbn. destruct (Z.eqb_spec (k_cdev_add k (k_MKDEV k (k_MAJOR k dev) (aesd_minor s))) 0)
      as [E | E]; cbn; intros [= <- <-]; right.
    + right. rewrite E. split_and!; [done | by apply zero_dev_rel | done..].
    + left. split_and!; [done | by apply zero_dev_rel | by rewrite Z.eqb_refl | done].
Qed.

(** ** Unloading *)

(** The blocks of the entries the loop frees. *)
Definition freeable (e : aesd_buffer_entry) : bool :=
  (0 <? e_size e) && negb (is_null (buffptr e)).

Lemma blocks_zero n : blocks (replicate n zero_entry) = [].
Proof. induction n; [done |]. done. Qed.

Section Cleanup.
Context (k : kernel) `{!KernelOk k}.

(** An entry the loop can treat: unused, or the owner of a live block. *)
Definition entry_live (h : gmap nat (list (option byte))) (e : aesd_buffer_entry) : Prop :=
  if freeable e then exists b, buffptr e = PBlk b /\ is_Some (h !! b)
  else buffptr e = PNull.

Lemma cleanup_entry_frees e b blk h :
  freeable e = true -> buffptr e = PBlk b -> h !! b = Some blk ->
  cleanup_entry k e h = Ret (set_e_size 0 e, delete b h).
Proof.
  intros Hf Hb Hblk. unfold cleanup_entry. fold (freeable e). rewrite Hf. unfold kfree.
  rewrite Hb, decide_True by eauto. by rewrite (kfree_ok _ _ _ Hblk).
Qed.

Lemma cleanup_entry_skips e h : freeable e = false -> cleanup_entry k e h = Ret (e, h).
Proof. intros Hf. unfold cleanup_entry. fold (freeable e). by rewrite Hf. Qed.

Lemma cleanup_visits es h :
  Forall (entry_live h) es -> NoDup (blocks es) ->
  exists es' h', visit_entries (cleanup_entry k) es h = Ret (es', h') /\
    (forall b, h' !! b = if decide (b ∈ blocks es) then None else h !! b) /\
    Forall (fun e => freeable e = false) es'.
Proof.
  revert h. induction es as [|e es IH]; intros h Hlive Hnd; cbn [visit_entries].
  { exists [], h. split_and!; [done | | constructor]. intros b.
    by rewrite decide_False by (by intros ?%elem_of_nil). }
  apply Forall_cons_1 in Hlive as [He Hes]. unfold entry_live in He.
  destruct (freeable e) eqn:Hf.
  - destruct He as (b & Hb & blk & Hblk). rewrite (blocks_cons _ _ _ Hb) in Hnd |- *.
    apply NoDup_cons in Hnd as [Hnin Hnd]. rewrite (cleanup_entry_frees e b blk) by done.
    cbn [mbind outcome_bind].
    destruct (IH (delete b h)) as (es' & h' & -> & Hh' & Hf'); [| done |].
    + apply Forall_forall. intros e' Hin. pose proof Hes as Hes'.
      rewrite Forall_forall in Hes'. specialize (Hes' e' Hin). unfold entry_live in *.
      destruct (freeable e'); [| done]. destruct Hes' as (b' & Hb' & Hl). exists b'.
      split; [done |]. rewrite lookup_delete_ne; [done |]. intros ->.
      by apply Hnin, (elem_of_blocks e').
    + eexists _, h'. split_and!; [done | |].
      * intros b'. rewrite Hh'. destruct (decide (b' = b)) as [-> | Hne].
        -- rewrite lookup_delete_eq, (decide_True (P := b ∈ b :: _)) by (apply elem_of_cons; by left).
           by case_decide.
        -- rewrite lookup_delete_ne by done.
           apply decide_ext. rewrite elem_of_cons. clear -Hne. intuition congruence.
      * constructor; [| done]. unfold freeable. simpl. done.
  - assert (blocks (e :: es) = blocks es) as Heq by (unfold blocks; csimpl; by rewrite He).
    rewrite Heq in Hnd |- *. rewrite cleanup_entry_skips by done. cbn [mbind outcome_bind].
    destruct (IH h Hes Hnd) as (es' & h' & -> & Hh' & Hf').
    eexists _, h'. split_and!; [done.. | by constructor].
Qed.

Lemma array_entries h cb cs :
  cb_rel h cb cs ->
  Forall (entry_live h) (entry cb) /\ blocks (entry cb) ≡ₚ blocks (contents cb).
Proof.
  intros [Hwf Hent Hcmd _].
  assert (Forall (entry_live h) (contents cb)) as Hlive.
  { apply Forall_lookup. intros i e He.
    destruct (Forall2_lookup_l _ _ _ _ _ Hent He) as (c & Hc & Heh).
    pose proof (command_ok_length c (Forall_lookup_1 _ _ _ _ Hcmd Hc)) as Hlen.
    destruct (entry_holds_block _ _ _ Heh) as (b & Hb & rest & Hr). destruct Heh as [_ Hs].
    unfold entry_live, freeable. rewrite Hb, Hs, (proj2 (Z.ltb_lt _ _)) by lia. simpl.
    exists b. split; [done | by eexists]. }
  destruct (rotate_contents cb Hwf) as [n Hn].
  assert (entry cb ≡ₚ contents cb ++ replicate n zero_entry) as Hperm
    by (by rewrite <- Hn, rotate_at_perm).
  split.
  - rewrite Hperm. apply Forall_app. split; [done |]. by apply Forall_replicate.
  - unfold blocks at 1. rewrite Hperm. fold (blocks (contents cb ++ replicate n zero_entry)).
    by rewrite blocks_app, blocks_zero, app_nil_r.
Qed.

(** All blocks of stored commands are freed, and nothing else. *)
Lemma aesd_cleanup_module_spec s l :
  dev_rel s l ->
  exists s', aesd_cleanup_module k s = Ret s' /\
    (forall b, kheap s' !! b =
       if decide (b ∈ blocks (contents (aesd_cb (aesd_device s)))) then None
       else kheap s !! b) /\
    tmp_buf (aesd_device s') = tmp_buf (aesd_device s) /\
    cdev_live (cdev (aesd_device s')) = false /\
    chrdev_region s' =
      unregister_chrdev_region (k_MKDEV k (aesd_major s) (aesd_minor s)) (chrdev_region s).
Proof.
  intros Hrel. pose proof (dev_cb _ _ Hrel) as [Hwf Hent Hcmd Hnd].
  set (cb := aesd_cb (aesd_device s)) in *.
  destruct (array_entries (kheap s) cb (commands l)) as [Hlive Hperm]; [by split |].
  destruct (cleanup_visits (entry cb) (kheap s)) as (es' & h' & Hv & Hh' & _).
  { done. }
  { by rewrite Hperm. }
  unfold aesd_cleanup_module. fold cb. change 0 with (Z.of_nat 0).
  rewrite foreach_visits by (apply (wf_length_entry cb Hwf) || done).
  rewrite drop_0. cbn [mbind outcome_bind set_cdev aesd_cb]. fold cb. rewrite Hv.
  cbn [mbind outcome_bind]. eexists. split; [done |]. cbn. split_and!; [| done..].
  intros b. rewrite Hh'. apply decide_ext. by rewrite Hperm.
Qed.
End Cleanup.
