(* ===== verification/CharDriverProps.v ===== *)
(** The properties of the character driver: it implements the ten-command log on
    every reachable state and every kernel behaviour, what each file operation
    returns, and the defects the model exposes. *)

From S2P Require Import Prelude CMem LogSpec CircularBuffer Kernel CharDriver.
From S2P Require Import CharDriverRel CharDriverRefine CharDriverSeek.
From S2P Require Import CharDriverSystem CharDriverModule.

(** The states the driver can be in after loading. *)
Definition reachable (w : world) : Prop :=
  exists k s0 s evs, aesd_init_module k s0 = (0, s) /\ run step (mk_world s ∅) evs w.

Lemma init_world_rel k s0 s :
  aesd_init_module k s0 = (0, s) -> world_rel (mk_world s ∅) (mk_spec empty_log ∅).
Proof.
  intros Hinit. destruct (aesd_init_module_cases _ _ _ _ Hinit) as [(? & _) | [(? & _) | H]];
    [lia | done |].
  destruct H as (_ & Hrel & _). split; cbn; [done | done | apply map_Forall_empty].
Qed.

Lemma reachable_rel w : reachable w -> exists sp, world_rel w sp.
Proof.
  intros (k & s0 & s & evs & Hinit & Hrun).
  destruct (run_simulation step spec_step world_rel) with (1 := simulation) (2 := Hrun)
    (t := mk_spec empty_log ∅) as (sp & _ & Hrel).
  { by eapply init_world_rel. }
  by exists sp.
Qed.

(** ** A concrete device, for the witnesses *)

Definition boot : driver :=
  mk_driver 0 0 (set_mx_lock true zero_dev) ∅ None.

(** The kernel of the witnesses allocates up to a page. *)
Definition K : kernel := plain_kernel 4096.

Definition loaded : driver := snd (aesd_init_module K boot).

Definition the_file : file := mk_file 0 (Some AESD_DEVICE).

(** A command of [n] bytes: [n - 1] times [c], then a newline. *)
Definition line (c : byte) (n : nat) : list byte := replicate (n - 1) c ++ [newline].

(** Complete writes of whole buffers, each under a kernel behaviour of its own. *)
Inductive all_written : driver -> list (list byte) -> driver -> Prop :=
| all_written_nil s : all_written s [] s
| all_written_cons k s u us s1 s2 :
    KernelOk k -> Z.of_nat (length u) <= MAX_RW_COUNT ->
    aesd_write k s the_file (Some u) (Z.of_nat (length u)) = Ret (Z.of_nat (length u), s1) ->
    all_written s1 us s2 -> all_written s (u :: us) s2.

(** A write that takes its whole buffer. *)
Lemma complete_write_rel k `{!KernelOk k} s l f u s' :
  dev_rel s l -> private_data f = Some AESD_DEVICE ->
  Z.of_nat (length u) <= KMALLOC_LIMIT ->
  aesd_write k s f (Some u) (Z.of_nat (length u)) = Ret (Z.of_nat (length u), s') ->
  mx_lock (aesd_device s) = false /\ (newline ∉ pending l) /\ dev_rel s' (log_write l u).
Proof.
  intros Hrel Hf Hu Hw.
  destruct (aesd_write_spec k s l f u (Z.of_nat (length u))) as (r & s'' & Heq & Hres);
    [done.. | lia |].
  rewrite Heq in Hw. injection Hw as Hr ->. destruct Hres as [| s' | r s' ? ? _ Hfree ? Hrel'].
  - unfold ERESTARTSYS in Hr. lia.
  - unfold ENOMEM in Hr. lia.
  - rewrite Hr, Nat2Z.id, firstn_all in Hrel'.
    pose proof (pend_open _ _ _ (dev_pending _ _ Hrel Hfree)). done.
Qed.

Lemma all_written_rel s us s' l :
  all_written s us s' -> dev_rel s l -> dev_rel s' (foldl log_write l us).
Proof.
  intros Hall. revert l. induction Hall as [| k s u us s1 s2 Hk Hu Hw _ IH]; intros l Hrel; [done |].
  cbn [foldl]. apply IH. unfold MAX_RW_COUNT in *.
  eapply (complete_write_rel k); [done | | unfold KMALLOC_LIMIT; lia | done]. done.
Qed.

Lemma all_written_run s us s' fs fd :
  fs !! fd = Some the_file -> all_written s us s' ->
  exists evs, run step (mk_world s fs) evs (mk_world s' fs).
Proof.
  intros Hfd Hall. induction Hall as [s | k s u us s1 s2 Hk Hu Hw _ [evs Hrun]].
  - exists []. constructor.
  - eexists (_ :: evs). eapply run_cons; [| done].
    apply (step_write k s fs fd the_file u (Z.of_nat (length u)) (Z.of_nat (length u)));
      [done.. | lia | done].
Qed.

(** The same, computed, when every write is complete. *)
Fixpoint write_all (k : kernel) (s : driver) (us : list (list byte)) : option driver :=
  match us with
  | [] => Some s
  | u :: us =>
      match aesd_write k s the_file (Some u) (Z.of_nat (length u)) with
      | Ret (r, s) =>
          if (r =? Z.of_nat (length u)) && (Z.of_nat (length u) <=? MAX_RW_COUNT)
          then write_all k s us else None
      | _ => None
      end
  end.

Lemma write_all_written k `{!KernelOk k} s us s' :
  write_all k s us = Some s' -> all_written s us s'.
Proof.
  revert s. induction us as [|u us IH]; intros s; cbn [write_all].
  - intros [= ->]. constructor.
  - destruct (aesd_write k s the_file (Some u) (Z.of_nat (length u))) as [[r s1] | |] eqn:Hw;
      [| done..].
    destruct (_ && _) eqn:E; [| done]. apply andb_true_iff in E as [Hr%Z.eqb_eq Hu%Z.leb_le].
    intros Hall%IH. rewrite Hr in Hw. by eapply (all_written_cons k).
Qed.

Definition written_state (us : list (list byte)) : driver := default boot (write_all K loaded us).

(** The log after writing [us]. *)
Definition written_log (us : list (list byte)) : log := foldl log_write empty_log us.

Lemma written_state_written us :
  bool_decide (is_Some (write_all K loaded us)) = true ->
  all_written loaded us (written_state us).
Proof.
  intros [s Hs]%bool_decide_eq_true_1. unfold written_state. rewrite Hs. cbn.
  by apply (write_all_written K).
Qed.

Lemma written_state_rel us :
  bool_decide (is_Some (write_all K loaded us)) = true ->
  dev_rel (written_state us) (written_log us).
Proof.
  intros Hw. eapply all_written_rel; [by apply written_state_written |].
  exact (wr_dev _ _ (init_world_rel K boot loaded eq_refl)).
Qed.

Lemma written_state_reachable us :
  bool_decide (is_Some (write_all K loaded us)) = true ->
  reachable (mk_world (written_state us) {[0%nat := the_file]}).
Proof.
  intros Hw. destruct (all_written_run loaded us (written_state us) {[0%nat := the_file]} 0%nat)
    as [evs Hrun]; [done | by apply written_state_written |].
  exists K, boot, loaded, (EvOpen 0 :: evs). split; [done |].
  eapply run_cons; [| done]. by apply step_open.
Qed.

(** Ten commands of 2 to 11 bytes, and an eleventh of 7 bytes. *)
Definition ten_lines : list (list byte) := (fun n => line x61 (2 + n)) <$> seq 0 10.
Definition eleven_lines : list (list byte) := ten_lines ++ [line x62 7].

(** A seek request for command [w] and offset [off], both below 256. *)
Definition request (w off : byte) : list byte := [w; x00; x00; x00; off; x00; x00; x00].

Lemma ten_rel : dev_rel (written_state ten_lines) (written_log ten_lines).
Proof. apply written_state_rel. by vm_compute. Qed.

Lemma eleven_rel : dev_rel (written_state eleven_lines) (written_log eleven_lines).
Proof. apply written_state_rel. by vm_compute. Qed.

Lemma eleven_reachable :
  reachable (mk_world (written_state eleven_lines) {[0%nat := the_file]}).
Proof. apply written_state_reachable. by vm_compute. Qed.

(** ** Refinement and safety *)

(** C1. The driver implements the abstract log device: whatever sequence of opens,
    reads, writes, seeks and ioctls the processes make after the module is loaded,
    and however the kernel answers (interrupted locks, failed or moving
    allocations, partial copies), every value and byte returned is one the abstract
    device returns, and the driver's state goes on representing the abstract one. *)
Theorem driver_refines_log k s0 s evs w :
  aesd_init_module k s0 = (0, s) -> run step (mk_world s ∅) evs w ->
  exists sp, run spec_step (mk_spec empty_log ∅) evs sp /\ world_rel w sp.
Proof.
  intros Hinit Hrun. eapply run_simulation; [exact simulation | done |].
  by eapply init_world_rel.
Qed.

Lemma driver_refines_log_witness :
  exists w sp,
    let evs := [EvOpen 3; EvWrite 3 (line x61 4) 4 4; EvRead 3 100 4 (line x61 4)] in
    run step (mk_world loaded ∅) evs w /\
    run spec_step (mk_spec empty_log ∅) evs sp /\ world_rel w sp.
Proof.
  set (evs := [EvOpen 3; EvWrite 3 (line x61 4) 4 4; EvRead 3 100 4 (line x61 4)]).
  assert (exists w, run step (mk_world loaded ∅) evs w) as [w Hrun].
  { eexists. unfold evs. eapply run_cons; [by eapply step_open |].
    eapply run_cons.
    { eapply (step_write K); [apply _ | reflexivity | by_computation | by vm_compute]. }
    eapply run_cons; [| apply run_nil].
    eapply (step_read K); [apply _ | reflexivity | by_computation | by vm_compute]. }
  destruct (driver_refines_log K boot loaded evs w eq_refl Hrun) as (sp & Hsp & Hrel).
  exists w, sp. split; [exact Hrun | split; [exact Hsp | exact Hrel]].
Defined.

(** C2. No call ever leaves defined behaviour: in every reachable state, for every
    open file and every kernel, reads and writes return (no access outside a block,
    to a freed block or to indeterminate bytes, no bad free, no endless loop),
    unloading the module returns, and so does every ioctl but the request to seek
    into command 10. *)
Theorem driver_never_faults w k fd f :
  reachable w -> KernelOk k -> files w !! fd = Some f ->
  (forall count, 0 <= count <= MAX_RW_COUNT ->
     safe (aesd_read k (drv w) f true count (f_pos f))) /\
  (forall u count, 0 <= count <= MAX_RW_COUNT -> safe (aesd_write k (drv w) f (Some u) count)) /\
  (forall cmd arg, ~ asks_past_end k cmd arg -> safe (aesd_ioctl k (drv w) f cmd arg)) /\
  safe (aesd_cleanup_module k (drv w)).
Proof.
  intros Hw Hk Hfd. destruct (reachable_rel w Hw) as [[l ps] Hrel]. destruct w as [s fs].
  destruct (world_rel_lookup _ _ _ _ _ _ Hrel Hfd) as [[Hf Hp] _].
  pose proof (wr_dev _ _ Hrel) as Hdev. cbn [drv files sp_log] in *. unfold MAX_RW_COUNT.
  split_and!.
  - intros count Hc. rewrite (aesd_read_spec k s l) by (done || lia). by eexists.
  - intros u count Hc. destruct (aesd_write_spec k s l f u count) as (r & s' & -> & _);
      [done.. | unfold KMALLOC_LIMIT; lia | by eexists].
  - intros cmd arg Hno.
    destruct (aesd_ioctl_spec k s l f cmd arg Hdev Hf) as [(r & f' & -> & _) | [? _]];
      [by eexists | done].
  - destruct (aesd_cleanup_module_spec k s l Hdev) as (s' & -> & _). by eexists.
Qed.

Lemma driver_never_faults_witness :
  safe (aesd_read K (written_state eleven_lines) the_file true 5 0) /\
  safe (aesd_cleanup_module K (written_state eleven_lines)).
Proof.
  destruct (driver_never_faults _ K 0%nat the_file eleven_reachable _ eq_refl)
    as (Hread & _ & _ & Hclean).
  split; [apply Hread; by_computation | exact Hclean].
Defined.

(** ** Reading and writing *)

(** C5. What [aesd_read] returns: the bytes of the log from the position on, never
    across the end of a command, with the position advanced by their number; 0
    exactly at the end of the data or when no byte is asked for; [-EFAULT], with
    the position unchanged, when the user buffer is null or cannot be written. *)
Theorem read_correct k s l f count pos :
  KernelOk k -> dev_rel s l -> private_data f = Some AESD_DEVICE ->
  0 <= count < 2 ^ 63 -> 0 <= pos < 2 ^ 63 ->
  aesd_read k s f false count pos = Ret (- EFAULT, [], pos) /\
  exists r bs pos', aesd_read k s f true count pos = Ret (r, bs, pos') /\
    ((r = Z.of_nat (length bs) /\ pos' = pos + r /\ bs = log_read l pos count /\
      bs `prefix_of` drop (Z.to_nat pos) (log_bytes l) /\
      (r = 0 <-> count = 0 \/ Z.of_nat (length (log_bytes l)) <= pos)) \/
     (r = - EFAULT /\ pos' = pos /\
      k_copy_to_user k (Z.of_nat (length (log_read l pos count))) <> 0)).
Proof.
  intros Hk Hrel Hf Hcount Hpos. split; [done |].
  rewrite (aesd_read_spec k s l f count pos) by done.
  destruct (Z.eqb_spec (k_copy_to_user k (Z.of_nat (length (log_read l pos count)))) 0);
    eexists _, _, _; (split; [done |]); [left | by right].
  split_and!; [done.. | by apply log_read_prefix; lia |].
  by apply log_read_length_zero; lia.
Qed.

Lemma read_correct_witness :
  exists l, dev_rel (written_state eleven_lines) l /\
    aesd_read K (written_state eleven_lines) the_file false 5 0 = Ret (- EFAULT, [], 0).
Proof.
  exists (written_log eleven_lines). split; [exact eleven_rel |].
  apply (read_correct K _ (written_log eleven_lines) the_file 5 0);
    [apply _ | exact eleven_rel | reflexivity | by_computation | by_computation].
Defined.

(** A reader's loop: reads of at most [count] bytes until one returns nothing. *)
Fixpoint read_to_end (fuel : nat) (k : kernel) (s : driver) (f : file) (count pos : Z)
    : outcome (list byte) :=
  match fuel with
  | O => NoFuel
  | S fuel =>
      '(r, bs, pos) ← aesd_read k s f true count pos;
      if 0 <? r then rest ← read_to_end fuel k s f count pos; Ret (bs ++ rest)
      else Ret []
  end.

Lemma read_to_end_log k s l f count fuel pos :
  KernelOk k -> (forall n, k_copy_to_user k n = 0) ->
  dev_rel s l -> private_data f = Some AESD_DEVICE ->
  0 <= count < 2 ^ 63 -> 0 <= pos < 2 ^ 63 ->
  read_to_end fuel k s f count pos =
  match log_read_all fuel l pos count with Some bs => Ret bs | None => NoFuel end.
Proof.
  intros Hk Hcopy Hrel Hf Hcount. revert pos.
  induction fuel as [|fuel IH]; intros pos Hpos; [done |]. cbn [read_to_end log_read_all].
  rewrite (aesd_read_spec k s l f count pos) by done. rewrite Hcopy, Z.eqb_refl.
  cbn [mbind outcome_bind].
  pose proof (read_position_small s l Hrel pos count Hpos).
  destruct (log_read l pos count) as [|b bs] eqn:E; [done |].
  rewrite (proj2 (Z.ltb_lt _ _)) by (cbn [length]; lia). rewrite IH by done.
  by destruct (log_read_all _ _ _ _).
Qed.

(** C22. Reading in pieces of any positive size reaches the end of the data and
    yields exactly the bytes of the log from the starting position on: nothing is
    lost, repeated or reordered, and the loop ends. *)
Theorem reading_in_pieces_complete k s l f count pos fuel :
  KernelOk k -> (forall n, k_copy_to_user k n = 0) ->
  dev_rel s l -> private_data f = Some AESD_DEVICE ->
  0 < count < 2 ^ 63 -> 0 <= pos < 2 ^ 63 ->
  (length (log_bytes l) - Z.to_nat pos < fuel)%nat ->
  read_to_end fuel k s f count pos = Ret (drop (Z.to_nat pos) (log_bytes l)).
Proof.
  intros Hk Hcopy Hrel Hf Hcount Hpos Hfuel.
  rewrite (read_to_end_log k s l) by (done || lia).
  by rewrite log_read_all_correct by (done || lia).
Qed.

Lemma reading_in_pieces_complete_witness :
  exists l, dev_rel (written_state eleven_lines) l /\
    read_to_end (S (length (log_bytes l))) K (written_state eleven_lines) the_file 4 0
    = Ret (drop 0 (log_bytes l)).
Proof.
  exists (written_log eleven_lines). split; [exact eleven_rel |].
  apply (reading_in_pieces_complete K _ (written_log eleven_lines) the_file 4 0);
    [apply _ | reflexivity | exact eleven_rel | reflexivity | by_computation
    | by_computation | lia].
Defined.

(** C4. What [aesd_write] does: a null buffer gives [-EFAULT]; an interrupted wait
    for the mutex gives [-ERESTARTSYS] and changes nothing; a failed allocation
    gives [-ENOMEM] and leaves the stored commands as they are; otherwise it
    returns the number [n] of bytes copied and the log is the one with those [n]
    bytes written, committed as a command exactly when a newline is pending. *)
Theorem write_correct k s l f u count :
  KernelOk k -> dev_rel s l -> private_data f = Some AESD_DEVICE ->
  0 <= count <= KMALLOC_LIMIT ->
  aesd_write k s f None count = Ret (- EFAULT, s) /\
  exists r s', aesd_write k s f (Some u) count = Ret (r, s') /\
    ((r = - ERESTARTSYS /\ s' = s) \/
     (r = - ENOMEM /\ dev_rel s' l) \/
     (0 <= r <= count /\ r <= Z.of_nat (length u) /\ mx_lock (aesd_device s') = false /\
      dev_rel s' (log_write l (take (Z.to_nat r) u)))).
Proof.
  intros Hk Hrel Hf Hcount. split; [done |].
  destruct (aesd_write_spec k s l f u count) as (r & s' & Heq & Hres); [done.. |].
  exists r, s'. split; [done |]. destruct Hres as [| s' _ _ Hrel' | n s' Hn Hu _ _ Hl Hrel'].
  - by left.
  - right. by left.
  - right. by right.
Qed.

Lemma write_correct_witness :
  exists l, dev_rel (written_state ten_lines) l /\
    exists r s', aesd_write K (written_state ten_lines) the_file (Some (line x62 7)) 7 = Ret (r, s') /\
      ((r = - ERESTARTSYS /\ s' = written_state ten_lines) \/
       (r = - ENOMEM /\ dev_rel s' l) \/
       (0 <= r <= 7 /\ r <= Z.of_nat (length (line x62 7)) /\
        mx_lock (aesd_device s') = false /\
        dev_rel s' (log_write l (take (Z.to_nat r) (line x62 7))))).
Proof.
  exists (written_log ten_lines). split; [exact ten_rel |].
  apply (write_correct K _ (written_log ten_lines) the_file (line x62 7) 7);
    [apply _ | exact ten_rel | reflexivity | by_computation].
Defined.

(** C3. After the module is loaded and any number of complete commands is written,
    the device holds the last ten of them, in the order written, and nothing is
    pending; a reader sees their concatenation. *)
Theorem device_keeps_last_ten_commands k s0 s us s' :
  aesd_init_module k s0 = (0, s) -> all_written s us s' ->
  Forall (fun u => newline ∈ u) us ->
  exists l, dev_rel s' l /\ commands l = last_n 10 us /\ pending l = [] /\
    log_bytes l = concat (last_n 10 us) /\ (dropped l = length us - 10)%nat.
Proof.
  intros Hinit Hall Hus. pose proof (wr_dev _ _ (init_world_rel _ _ _ Hinit)) as Hrel.
  cbn in Hrel. pose proof (all_written_rel _ _ _ _ Hall Hrel) as Hrel'.
  exists (foldl log_write empty_log us). split; [done |].
  destruct (log_write_commands us empty_log) as (Hc & Hp & Hd);
    [by right | cbn; lia | done.. |].
  unfold log_bytes. rewrite Hc, Hp, Hd. cbn. split_and!; done || lia.
Qed.

Lemma device_keeps_last_ten_commands_witness :
  exists l, dev_rel (written_state eleven_lines) l /\ commands l = last_n 10 eleven_lines /\
    pending l = [] /\ log_bytes l = concat (last_n 10 eleven_lines) /\
    (dropped l = length eleven_lines - 10)%nat.
Proof.
  apply (device_keeps_last_ten_commands K boot loaded eleven_lines (written_state eleven_lines)).
  - reflexivity.
  - apply written_state_written. by vm_compute.
  - apply (bool_decide_unpack _). by vm_compute.
Defined.

(** C33. Splitting a command over several writes is invisible: writing [a], without a
    newline, and then [b] leaves the device standing for the same log as writing
    the two in one call. *)
Theorem split_write_equivalent k1 k2 k3 s l f a b s1 s2 s3 :
  KernelOk k1 -> KernelOk k2 -> KernelOk k3 ->
  dev_rel s l -> private_data f = Some AESD_DEVICE ->
  Z.of_nat (length (a ++ b)) <= KMALLOC_LIMIT -> newline ∉ a ->
  aesd_write k1 s f (Some a) (Z.of_nat (length a)) = Ret (Z.of_nat (length a), s1) ->
  aesd_write k2 s1 f (Some b) (Z.of_nat (length b)) = Ret (Z.of_nat (length b), s2) ->
  aesd_write k3 s f (Some (a ++ b)) (Z.of_nat (length (a ++ b)))
    = Ret (Z.of_nat (length (a ++ b)), s3) ->
  exists l', dev_rel s2 l' /\ dev_rel s3 l'.
Proof.
  intros Hk1 Hk2 Hk3 Hrel Hf Hlim Ha Hw1 Hw2 Hw3.
  assert (Z.of_nat (length a) <= KMALLOC_LIMIT /\ Z.of_nat (length b) <= KMALLOC_LIMIT)
    as [Hla Hlb] by (rewrite length_app in Hlim; lia).
  pose proof (complete_write_rel k1 s l f a s1 Hrel Hf Hla Hw1) as (Hfree & Hopen & Hrel1).
  pose proof (complete_write_rel k2 s1 _ f b s2 Hrel1 Hf Hlb Hw2) as (_ & _ & Hrel2).
  pose proof (complete_write_rel k3 s l f (a ++ b) s3 Hrel Hf Hlim Hw3) as (_ & _ & Hrel3).
  exists (log_write l (a ++ b)). split; [| done].
  by rewrite <- log_write_split.
Qed.

Lemma split_write_equivalent_witness :
  exists s2 s3 l', dev_rel s2 l' /\ dev_rel s3 l' /\
    write_all K (written_state ten_lines) [[x61; x62]; [x63; newline]] = Some s2 /\
    write_all K (written_state ten_lines) [[x61; x62; x63; newline]] = Some s3.
Proof.
  set (s := written_state ten_lines) in *.
  set (after := fun s u => default boot (write_all K s [u])).
  destruct (split_write_equivalent K K K s (written_log ten_lines) the_file
    [x61; x62] [x63; newline] (after s [x61; x62]) (after (after s [x61; x62]) [x63; newline])
    (after s [x61; x62; x63; newline])) as (l' & H2 & H3).
  1-3: apply _.
  - exact ten_rel.
  - reflexivity.
  - by_computation.
  - apply (bool_decide_unpack _). by vm_compute.
  - by vm_compute.
  - by vm_compute.
  - by vm_compute.
  - eexists _, _, l'. split; [exact H2 | split; [exact H3 |]]. split; by vm_compute.
Defined.

(** ** Seeking *)

(** [aesd_llseek] on every branch: it goes to the offset, to the current
    position plus the offset, or to the number of bytes ever written plus the
    offset (with the wrap-around of a 64-bit [loff_t]); a negative target or an
    unknown [whence] gives [-EINVAL] and leaves the position alone. It never stores
    a negative position. *)
Theorem llseek_correct s l f off whence :
  dev_rel s l -> private_data f = Some AESD_DEVICE -> - 2 ^ 63 <= off < 2 ^ 63 ->
  let target :=
    if whence =? SEEK_SET then Some off
    else if whence =? SEEK_CUR then Some (s64 (f_pos f + off))
    else if whence =? SEEK_END then Some (s64 (written l + off)) else None in
  let '(r, f') := aesd_llseek s f off whence in
  match target with
  | Some t => if t <? 0 then r = - EINVAL /\ f' = f else r = t /\ f' = set_f_pos t f
  | None => r = - EINVAL /\ f' = f
  end /\ (0 <= f_pos f -> 0 <= f_pos f').
Proof.
  intros Hrel Hf Hoff. cbv zeta.
  destruct (aesd_llseek_spec s l f off whence Hrel Hf Hoff) as [-> Hpos].
  unfold spec_llseek in *.
  destruct (if whence =? SEEK_SET then _ else _) as [t|]; [| done].
  destruct (Z.ltb_spec t 0); [done |]. split; [done |]. intros _. cbn. lia.
Qed.

Lemma llseek_correct_witness :
  exists l, dev_rel (written_state ten_lines) l /\
    (let '(r, f') := aesd_llseek (written_state ten_lines) the_file 5 SEEK_SET in
     (r = 5 /\ f' = set_f_pos 5 the_file) /\ (0 <= f_pos the_file -> 0 <= f_pos f')).
Proof.
  exists (written_log ten_lines). split; [exact ten_rel |].
  apply (llseek_correct _ (written_log ten_lines) the_file 5 SEEK_SET);
    [exact ten_rel | reflexivity | by_computation].
Defined.

(** C23. The seek ioctl, once its argument is read and the mutex obtained, for a
    command number below 10: it returns 0 and moves the position to the byte asked
    for in the slot asked for (the end of a command included) when that slot holds
    a command long enough, and [-EINVAL] without moving otherwise; the device is
    unchanged and the mutex free again. *)
Theorem ioctl_seek_correct k s l f arg :
  KernelOk k -> dev_rel s l -> private_data f = Some AESD_DEVICE ->
  k_copy_from_user k arg sizeof_aesd_seekto = (take 8 arg, 0) ->
  mx_lock (aesd_device s) = false -> k_mutex_lock_interruptible k false = (0, true) ->
  let w := write_cmd (decode_seekto arg) in
  let off := write_cmd_offset (decode_seekto arg) in
  w < 10 ->
  aesd_ioctl k s f (AESDCHAR_IOCSEEKTO k) arg =
  Ret match slot_order l !! Z.to_nat w with
      | Some c =>
          if off <=? Z.of_nat (length c)
          then (0, s, set_f_pos (sumZ (take (Z.to_nat w) (lengths (slot_order l))) + off) f)
          else (- EINVAL, s, f)
      | None => (- EINVAL, s, f)
      end.
Proof.
  intros Hk Hrel Hf Hcopy Hfree Hlock w off Hw.
  rewrite (aesd_ioctl_granted k s l f Hrel Hf arg _ Hcopy Hfree Hlock)
    by (by rewrite decode_seekto_take).
  cbv zeta. rewrite decode_seekto_take. fold w off. pose proof (le_u32_range arg) as Hr.
  rewrite (seek_answer_log s l w off Hrel) by (unfold w in *; cbn in *; lia).
  unfold log_seek. destruct (slot_order l !! _) as [c|]; [| done]. by destruct (off <=? _).
Qed.

Lemma ioctl_seek_correct_witness :
  exists l, dev_rel (written_state ten_lines) l /\
    aesd_ioctl K (written_state ten_lines) the_file (AESDCHAR_IOCSEEKTO K) (request x02 x01) =
    Ret match slot_order l !! 2%nat with
        | Some c =>
            if 1 <=? Z.of_nat (length c)
            then (0, written_state ten_lines,
                  set_f_pos (sumZ (take 2 (lengths (slot_order l))) + 1) the_file)
            else (- EINVAL, written_state ten_lines, the_file)
        | None => (- EINVAL, written_state ten_lines, the_file)
        end.
Proof.
  exists (written_log ten_lines). split; [exact ten_rel |].
  apply (ioctl_seek_correct K _ (written_log ten_lines) the_file (request x02 x01));
    [apply _ | exact ten_rel | reflexivity.. ].
Defined.

(** While no command has been dropped (or a multiple of ten have), a read after
    a successful seek to byte [off] of command [w] returns bytes of the [w]-th
    oldest command, starting with byte [off]. *)
Theorem ioctl_then_read k k' s l f arg c s' f' count :
  KernelOk k -> KernelOk k' -> (forall n, k_copy_to_user k' n = 0) ->
  dev_rel s l -> private_data f = Some AESD_DEVICE -> (dropped l mod LOG_MAX = 0)%nat ->
  aesd_ioctl k s f (AESDCHAR_IOCSEEKTO k) arg = Ret (0, s', f') ->
  let w := write_cmd (decode_seekto arg) in
  let off := write_cmd_offset (decode_seekto arg) in
  commands l !! Z.to_nat w = Some c -> off < Z.of_nat (length c) -> 0 <= count < 2 ^ 63 ->
  let bs := take (Z.to_nat count) (drop (Z.to_nat off) c) in
  aesd_read k' s' f' true count (f_pos f') =
  Ret (Z.of_nat (length bs), bs, f_pos f' + Z.of_nat (length bs)).
Proof.
  intros Hk Hk' Hcopy Hrel Hf Hdrop Hio w off Hc Hoff Hcount bs.
  destruct (aesd_ioctl_spec k s l f (AESDCHAR_IOCSEEKTO k) arg Hrel Hf) as [(r & f'' & Heq & Hres) | [_ Hfault]];
    [| by rewrite Hfault in Hio].
  rewrite Heq in Hio. injection Hio as -> <- <-.
  remember 0 as r eqn:Hr. destruct Hres as [t Hlen Ht | e He].
  2: { unfold EINVAL, ERESTARTSYS in He. lia. }
  fold w off in Ht. unfold log_seek in Ht. rewrite slot_order_id, Hc in Ht by done.
  destruct (off <=? _); [| done]. injection Ht as <-. cbn [f_pos set_f_pos].
  pose proof (le_u32_range (drop 4 arg)) as Hor. change (le_u32 (drop 4 arg)) with off in Hor.
  assert (locate (lengths (commands l)) (sumZ (take (Z.to_nat w) (lengths (commands l))) + off)
    = Some (Z.to_nat w, off)) as Hloc.
  { apply (locate_prefix _ _ (Z.of_nat (length c))); [apply lengths_nonneg | | lia].
    unfold lengths. by rewrite list_lookup_fmap, Hc. }
  pose proof (sumZ_take_le (Z.to_nat w) _ (lengths_nonneg (commands l))).
  pose proof (sumZ_nonneg (take (Z.to_nat w) (lengths (commands l)))
                ltac:(apply Forall_take, lengths_nonneg)).
  pose proof (sum_commands_le _ _ _ (dev_cb _ _ Hrel)).
  rewrite (aesd_read_spec k' s l) by (done || lia). rewrite Hcopy. unfold log_read.
  rewrite Hloc, (list_lookup_total_correct _ _ c) by done. done.
Qed.

Lemma ioctl_then_read_witness :
  let f' := set_f_pos 6 the_file in
  let bs := take (Z.to_nat 9) (drop (Z.to_nat 1) (line x61 4)) in
  aesd_ioctl K (written_state ten_lines) the_file (AESDCHAR_IOCSEEKTO K) (request x02 x01)
  = Ret (0, written_state ten_lines, f') /\
  aesd_read K (written_state ten_lines) f' true 9 (f_pos f')
  = Ret (Z.of_nat (length bs), bs, f_pos f' + Z.of_nat (length bs)).
Proof.
  intros f' bs.
  assert (aesd_ioctl K (written_state ten_lines) the_file (AESDCHAR_IOCSEEKTO K)
    (request x02 x01) = Ret (0, written_state ten_lines, f')) as Hio by (by vm_compute).
  split; [exact Hio |].
  refine (ioctl_then_read K K (written_state ten_lines) (written_log ten_lines) the_file
    (request x02 x01) (line x61 4) (written_state ten_lines) f' 9 _ _ _ ten_rel _ _ Hio _ _ _).
  - reflexivity.
  - reflexivity.
  - by vm_compute.
  - by vm_compute.
  - by_computation.
  - by_computation.
Defined.
