(* ===== verification/CharDriverLimits.v ===== *)
(** Where the character driver makes progress and where it stops short of what it is
    for: complete writes under a well-behaved kernel, loading and unloading, the
    request for command 10, the mutex left held after a failed allocation, the end
    of the device, seeks after the buffer has wrapped, and reads that race with a
    write. *)

From S2P Require Import Prelude CMem LogSpec CircularBuffer Kernel CharDriver.
From S2P Require Import CharDriverRel CharDriverRefine CharDriverSeek.
From S2P Require Import CharDriverSystem CharDriverModule CharDriverProps.

(** ** Helpers *)

(** A device whose mutex is held answers every write and seek request with an
    error, and stays as it is. *)
Section Locked.
Context (k : kernel) `{!KernelOk k} (s : driver) (f : file).
Context (Hheld : mx_lock (aesd_device s) = true).

Lemma locked_write u count r s' :
  aesd_write k s f (Some u) count = Ret (r, s') -> r = - ERESTARTSYS /\ s' = s.
Proof using All.
  unfold aesd_write, deref_dev. destruct (private_data f) as [[]|]; [| done].
  cbn [mbind outcome_bind]. destruct lock_held as (e & He & Hlock).
  rewrite Hheld, Hlock, (proj2 (Z.eqb_neq _ _) He). cbn [negb]. rewrite <- Hheld.
  rewrite set_mx_lock_same. by intros [= <- <-].
Qed.

Lemma locked_ioctl cmd arg r s' f' :
  aesd_ioctl k s f cmd arg = Ret (r, s', f') ->
  (r = - EINVAL \/ r = - ERESTARTSYS) /\ s' = s.
Proof using All.
  unfold aesd_ioctl. destruct (cmd =? _); [| by intros [= <- <- <-]; auto].
  destruct (k_copy_from_user _ _ _) as [bs m].
  destruct (negb _); [by intros [= <- <- <-]; auto |].
  destruct (_ || _); [by intros [= <- <- <-]; auto |].
  unfold deref_dev. destruct (private_data f) as [[]|]; [| done]. cbn [mbind outcome_bind].
  destruct lock_held as (e & He & Hlock).
  rewrite Hheld, Hlock, (proj2 (Z.eqb_neq _ _) He). cbn [negb]. rewrite <- Hheld.
  rewrite set_mx_lock_same. intros [= <- <- <-]. auto.
Qed.
End Locked.

(** What a caller can see of a device whose mutex is held. *)
Definition refused (ev : event) : Prop :=
  match ev with
  | EvWrite _ _ _ r => r = - ERESTARTSYS
  | EvIoctl _ _ _ r => r = - EINVAL \/ r = - ERESTARTSYS
  | _ => True
  end.

Lemma locked_step w ev w' :
  step w ev w' -> mx_lock (aesd_device (drv w)) = true -> drv w' = drv w /\ refused ev.
Proof.
  intros Hstep Hheld. destruct Hstep as [| | | k s fs fd f u count r s' Hk _ _ Hw | |
    k s fs fd f cmd arg r s' f' Hk _ Hio]; cbn in *; try done.
  - destruct (locked_write k s f Hheld u count r s' Hw) as [-> ->]. done.
  - destruct (locked_ioctl k s f Hheld cmd arg r s' f' Hio) as [Hr ->]. done.
Qed.

Lemma locked_run w evs w' :
  run step w evs w' -> mx_lock (aesd_device (drv w)) = true ->
  drv w' = drv w /\ Forall refused evs.
Proof.
  induction 1 as [w | w ev w1 evs w2 Hstep _ IH]; intros Hheld; [done |].
  destruct (locked_step w ev w1 Hstep Hheld) as [Heq Hev]. rewrite Heq in IH.
  destruct (IH Hheld) as [-> Hevs]. split; [done | by constructor].
Qed.

Lemma written_foldl us l :
  written (foldl log_write l us) = written l + sumZ (lengths us).
Proof.
  revert l. induction us as [|u us IH]; intros l; cbn [foldl]; [cbv [lengths sumZ fmap list_fmap foldr]; lia |].
  rewrite IH, written_log_write. unfold lengths. rewrite fmap_cons. cbn [sumZ foldr]. unfold sumZ. lia.
Qed.

(** The calls never touch the numbers and the region of the module. *)
Definition same_globals (s s' : driver) : Prop :=
  aesd_major s' = aesd_major s /\ aesd_minor s' = aesd_minor s /\
  chrdev_region s' = chrdev_region s.

Lemma write_globals k s f u count r s' :
  aesd_write k s f u count = Ret (r, s') -> same_globals s s'.
Proof.
  unfold aesd_write, commit_pending, release_oldest, write_extend, write_start.
  intros Hw. destruct u as [u|]; [| by injection Hw as _ <-].
  apply bind_Ret_inv in Hw as (dev & _ & Hw).
  destruct (k_mutex_lock_interruptible _ _) as [e held].
  destruct (negb _); [by injection Hw as _ <- |].
  apply bind_Ret_inv in Hw as (st & Hst & Hw).
  assert (same_globals s (match st with inl ret => snd ret | inr ret => snd ret end)) as Hg.
  { clear Hw. destruct (0 <? _).
    - apply bind_Ret_inv in Hst as ([p h] & _ & Hst).
      destruct (is_null p); [by injection Hst as <- |]. outcome_inv.
      destruct a0. by injection Hst as <-.
    - destruct (k_kmalloc _ _ _) as [p h].
      destruct (is_null p); [by injection Hst as <- |]. outcome_inv.
      destruct a0. by injection Hst as <-. }
  destruct st as [[r1 s1] | [r1 s1]]; cbn in Hg; [by injection Hw as _ <- |].
  apply bind_Ret_inv in Hw as (s2 & Hs2 & Hw). injection Hw as _ <-.
  assert (same_globals s s2) as Hg2; [| by destruct s2]. revert Hs2. intros Hs2.
  apply bind_Ret_inv in Hs2 as (found & _ & Hs2). destruct found; [| by injection Hs2 as <-].
  apply bind_Ret_inv in Hs2 as (s3 & Hs3 & Hs2).
  assert (same_globals s s3) as Hg3.
  { destruct (full _); [| by injection Hs3 as <-]. outcome_inv. by destruct s1. }
  outcome_inv. destruct a. injection Hs2 as <-. by destruct s3.
Qed.

Lemma ioctl_globals k s f cmd arg r s' f' :
  aesd_ioctl k s f cmd arg = Ret (r, s', f') -> same_globals s s'.
Proof.
  unfold aesd_ioctl. intros H. destruct (cmd =? _); [| by injection H as _ <- _].
  destruct (k_copy_from_user _ _ _) as [bs m].
  destruct (negb _); [by injection H as _ <- _ |].
  destruct (_ || _); [by injection H as _ <- _ |].
  apply bind_Ret_inv in H as (dev & _ & H).
  destruct (k_mutex_lock_interruptible _ _). destruct (negb _); [by injection H as _ <- _ |].
  apply bind_Ret_inv in H as ([] & _ & H). by injection H as _ <- _.
Qed.

Lemma step_globals w ev w' : step w ev w' -> same_globals (drv w) (drv w').
Proof.
  intros []; cbn; try done; [by eapply write_globals | by eapply ioctl_globals].
Qed.

Lemma run_globals w evs w' : run step w evs w' -> same_globals (drv w) (drv w').
Proof.
  induction 1 as [w | w ev w1 evs w2 Hstep _ IH]; [done |].
  apply step_globals in Hstep. unfold same_globals in *. intuition congruence.
Qed.

(** ** Progress *)

(** C21. A write goes through in full whenever it can: with the mutex free and
    granted, the user's bytes readable and memory for the pending bytes and the new
    ones, [aesd_write] returns [count], and the log is the one with all the bytes
    written; the mutex is free again. *)
Theorem write_completes k s l f u count :
  KernelOk k -> dev_rel s l -> private_data f = Some AESD_DEVICE ->
  mx_lock (aesd_device s) = false -> k_mutex_lock_interruptible k false = (0, true) ->
  0 <= count <= KMALLOC_LIMIT -> snd (k_copy_from_user k u count) = 0 ->
  ~ no_memory k (Z.of_nat (length (pending l)) + count) ->
  exists s', aesd_write k s f (Some u) count = Ret (count, s') /\
    mx_lock (aesd_device s') = false /\
    dev_rel s' (log_write l (take (Z.to_nat count) u)).
Proof.
  intros Hk Hrel Hf Hfree Hlock Hcount Hcopy Hmem.
  destruct (aesd_write_spec k s l f u count) as (r & s' & Heq & Hres); [done.. |].
  rewrite Heq. destruct Hres as [Hl | | n s' _ _ Hn _ Hfree' Hrel'].
  - by rewrite Hfree, Hlock in Hl.
  - done.
  - rewrite Hcopy, Z.sub_0_r in Hn. subst n. by exists s'.
Qed.

Lemma write_completes_witness :
  exists s', aesd_write K (written_state ten_lines) the_file (Some (line x62 7)) 7 = Ret (7, s') /\
    mx_lock (aesd_device s') = false /\
    dev_rel s' (log_write (written_log ten_lines) (take (Z.to_nat 7) (line x62 7))).
Proof.
  refine (write_completes K (written_state ten_lines) (written_log ten_lines) the_file
    (line x62 7) 7 _ ten_rel _ _ _ _ _ _).
  - reflexivity.
  - by vm_compute.
  - reflexivity.
  - by_computation.
  - reflexivity.
  - change (~ no_memory K 7). intros (h & [Hn | p]); [done |].
    by destruct p as (b & _ & Hn).
Defined.

(** ** Loading and unloading *)

(** Loading the module: when [aesd_init_module] returns 0 the device is the empty
    log, registered and live; when it returns anything else no region stays
    registered and the device is not live. *)
Theorem init_module_correct k s r s' :
  KernelOk k -> chrdev_region s = None -> cdev_live (cdev (aesd_device s)) = false ->
  aesd_init_module k s = (r, s') ->
  (r = 0 -> dev_rel s' empty_log /\ is_Some (chrdev_region s') /\
     cdev_live (cdev (aesd_device s')) = true) /\
  (r <> 0 -> chrdev_region s' = None /\ cdev_live (cdev (aesd_device s')) = false).
Proof.
  intros Hk Hnone Hdead Hinit.
  destruct (aesd_init_module_cases _ _ _ _ Hinit)
    as [(Hr & _ & Hd & Hc) | [(Hr & _ & Hc & Hd) | (-> & Hrel & Hc & _ & _ & _ & Hd)]].
  - rewrite Hd, Hc. split; [lia | done].
  - by split.
  - split; [intros _ | done]. rewrite Hc. by split_and!.
Qed.

Lemma init_module_correct_witness :
  (0 = 0 -> dev_rel loaded empty_log /\ is_Some (chrdev_region loaded) /\
     cdev_live (cdev (aesd_device loaded)) = true) /\
  (0 <> 0 -> chrdev_region loaded = None /\ cdev_live (cdev (aesd_device loaded)) = false).
Proof. refine (init_module_correct K boot 0 loaded _ _ _ _); reflexivity. Defined.

(** C34. Unloading a loaded module frees every stored command, leaves every other
    block alone, takes the device down and gives its region back; but the bytes of
    an unterminated command are not freed: the pending block outlives the module. *)
Theorem cleanup_frees_commands_not_pending k s0 s evs w l :
  KernelOk k -> aesd_minor s0 = 0 -> aesd_init_module k s0 = (0, s) ->
  run step (mk_world s ∅) evs w -> dev_rel (drv w) l ->
  exists s', aesd_cleanup_module k (drv w) = Ret s' /\
    (forall b, kheap s' !! b =
       if decide (b ∈ blocks (contents (aesd_cb (aesd_device (drv w))))) then None
       else kheap (drv w) !! b) /\
    cdev_live (cdev (aesd_device s')) = false /\ chrdev_region s' = None /\
    (mx_lock (aesd_device (drv w)) = false -> pending l <> [] ->
     exists b, tmp_buf (aesd_device s') = PBlk b /\ starts_with (kheap s') b (pending l)).
Proof.
  intros Hk Hminor Hinit Hrun Hrel.
  destruct (aesd_init_module_cases _ _ _ _ Hinit)
    as [(? & _) | [(? & _) | (_ & _ & Hreg & Hpos & Hmaj & Hmin & _)]]; [lia | done |].
  destruct (run_globals _ _ _ Hrun) as (Hm1 & Hm2 & Hr). cbn in Hm1, Hm2, Hr.
  destruct (aesd_cleanup_module_spec k (drv w) l Hrel) as (s' & -> & Hh & Ht & Hlive & Hs').
  exists s'. split_and!; [done.. | |].
  - rewrite Hs', Hm1, Hm2, Hr, Hreg, Hmaj, Hmin.
    rewrite (alloc_region_ok (aesd_minor s0) ltac:(lia) Hpos).
    unfold unregister_chrdev_region. by rewrite Z.eqb_refl.
  - intros Hfree Hne. destruct (pend_held _ _ _ (dev_pending _ _ Hrel Hfree) Hne)
      as [[_ ?] | (b & Hb & [rest Hst] & Hown)]; [done |].
    exists b. rewrite Ht. split; [done |]. exists rest. rewrite Hh, decide_False; done.
Qed.

Lemma cleanup_frees_commands_not_pending_witness :
  let w := mk_world (written_state [line x61 3; [x62]]) {[0%nat := the_file]} in
  exists s', aesd_cleanup_module K (drv w) = Ret s' /\
    (forall b, kheap s' !! b =
       if decide (b ∈ blocks (contents (aesd_cb (aesd_device (drv w))))) then None
       else kheap (drv w) !! b) /\
    cdev_live (cdev (aesd_device s')) = false /\ chrdev_region s' = None /\
    (mx_lock (aesd_device (drv w)) = false -> [x62] <> [] ->
     exists b, tmp_buf (aesd_device s') = PBlk b /\ starts_with (kheap s') b [x62]).
Proof.
  intros w.
  destruct (all_written_run loaded [line x61 3; [x62]] (drv w) {[0%nat := the_file]} 0%nat)
    as [evs Hrun]; [done | apply written_state_written; by vm_compute |].
  refine (cleanup_frees_commands_not_pending K boot loaded (EvOpen 0 :: evs) w
    (written_log [line x61 3; [x62]]) _ _ _ _ _).
  - reflexivity.
  - reflexivity.
  - eapply run_cons; [| exact Hrun]. by apply step_open.
  - apply written_state_rel. by vm_compute.
Defined.

(** ** Where the driver falls short *)

(** C40. The range test of the ioctl admits one command number too many: for a
    request for command 10 that gets as far as the mutex, the driver reads the
    element past the end of its array of ten entries. *)
Theorem ioctl_command_ten_out_of_bounds k s l f arg :
  KernelOk k -> dev_rel s l -> private_data f = Some AESD_DEVICE ->
  k_copy_from_user k arg sizeof_aesd_seekto = (take 8 arg, 0) ->
  mx_lock (aesd_device s) = false -> k_mutex_lock_interruptible k false = (0, true) ->
  write_cmd (decode_seekto arg) = 10 ->
  aesd_ioctl k s f (AESDCHAR_IOCSEEKTO k) arg = Fault OutOfBounds.
Proof.
  intros Hk Hrel Hf Hcopy Hfree Hlock Hw.
  by eapply aesd_ioctl_past_end; [done.. | rewrite decode_seekto_take].
Qed.

Lemma ioctl_command_ten_out_of_bounds_witness :
  aesd_ioctl K (written_state eleven_lines) the_file (AESDCHAR_IOCSEEKTO K) (request x0a x00)
  = Fault OutOfBounds.
Proof.
  apply (ioctl_command_ten_out_of_bounds K _ (written_log eleven_lines) the_file
    (request x0a x00)); [apply _ | exact eleven_rel | reflexivity..].
Defined.

(** C39. A write whose allocation fails returns with the mutex still held, and that
    is the end of the device: in every run from there, whatever the kernel does, no
    write and no seek request ever succeeds again, and the driver's state never
    changes. *)
Theorem failed_allocation_wedges_device k s l f u count s' fs evs w :
  KernelOk k -> dev_rel s l -> private_data f = Some AESD_DEVICE ->
  0 <= count <= KMALLOC_LIMIT ->
  aesd_write k s f (Some u) count = Ret (- ENOMEM, s') ->
  run step (mk_world s' fs) evs w ->
  mx_lock (aesd_device s) = false /\ drv w = s' /\ Forall refused evs.
Proof.
  intros Hk Hrel Hf Hcount Hw Hrun.
  destruct (aesd_write_spec k s l f u count) as (r & s1 & Heq & Hres); [done.. |].
  rewrite Heq in Hw. injection Hw as Hr ->.
  destruct Hres as [| s' Hfree Hheld _ _ | n s' Hn].
  - by vm_compute in Hr.
  - split; [done |]. by apply (locked_run _ _ _ Hrun).
  - unfold ENOMEM in Hr. lia.
Qed.

(** A kernel with no memory left for two bytes. *)
Definition full_kernel : kernel := plain_kernel 1.

Lemma failed_allocation_wedges_device_witness :
  exists s' w evs,
    aesd_write full_kernel loaded the_file (Some (line x61 2)) 2 = Ret (- ENOMEM, s') /\
    run step (mk_world s' {[0%nat := the_file]}) evs w /\ length evs = 1%nat /\
    mx_lock (aesd_device loaded) = false /\ drv w = s' /\ Forall refused evs.
Proof.
  set (s' := set_dev (set_mx_lock true (aesd_device loaded)) loaded).
  set (w := mk_world s' {[0%nat := the_file]}).
  assert (aesd_write full_kernel loaded the_file (Some (line x61 2)) 2 = Ret (- ENOMEM, s'))
    as Hw by (by vm_compute).
  assert (run step w [EvWrite 0 [newline] 1 (- ERESTARTSYS)] w) as Hrun.
  { eapply run_cons; [| apply run_nil].
    apply (step_write K s' _ 0%nat the_file); [apply _ | done | by_computation | by vm_compute]. }
  exists s', w, [EvWrite 0 [newline] 1 (- ERESTARTSYS)].
  split; [exact Hw | split; [exact Hrun | split; [reflexivity |]]].
  refine (failed_allocation_wedges_device full_kernel loaded empty_log the_file (line x61 2) 2 s'
    _ _ w _ _ _ _ Hw Hrun).
  - exact (wr_dev _ _ (init_world_rel K boot loaded eq_refl)).
  - reflexivity.
  - by_computation.
Defined.

(** The end of the device, for [SEEK_END], is the number of bytes ever written:
    after any complete commands it lies past the readable bytes by exactly the
    bytes of the commands no longer kept, so that a read there gives nothing and
    seeking back from it by less than that still lands past the data. *)
Theorem seek_end_counts_dropped_bytes k s0 s us s' f :
  aesd_init_module k s0 = (0, s) -> all_written s us s' ->
  Forall (fun u => newline ∈ u) us -> sumZ (lengths us) < 2 ^ 63 ->
  let total := sumZ (lengths us) in
  aesd_llseek s' f 0 SEEK_END = (total, set_f_pos total f) /\
  exists l, dev_rel s' l /\
    total = sumZ (lengths (take (length us - 10) us)) + Z.of_nat (length (log_bytes l)).
Proof.
  intros Hinit Hall Hus Hsmall total.
  pose proof (wr_dev _ _ (init_world_rel _ _ _ Hinit)) as Hrel. cbn in Hrel.
  pose proof (all_written_rel _ _ _ _ Hall Hrel) as Hrel'.
  pose proof (sumZ_nonneg _ (lengths_nonneg us)) as Hpos. fold total in Hpos, Hsmall.
  split.
  - unfold aesd_llseek. cbn [Z.eqb Pos.eqb SEEK_END SEEK_SET SEEK_CUR].
    rewrite (dev_total _ _ Hrel'), written_foldl. cbn [written empty_log].
    change (0 + sumZ (lengths us)) with total.
    assert (s64 (u64 (u64 total + 0)) = total) as ->.
    { rewrite Z.add_0_r, !(u64_small total), s64_small by lia. done. }
    by rewrite (proj2 (Z.ltb_ge total 0)) by lia.
  - exists (foldl log_write empty_log us). split; [done |].
    destruct (log_write_commands us empty_log) as (Hc & _ & _);
      [by right | cbn; lia | done.. |].
    unfold log_bytes. rewrite Hc. cbn [commands empty_log app]. rewrite <- sumZ_lengths.
    unfold total, last_n, LOG_MAX. rewrite <- sumZ_app. unfold lengths.
    by rewrite <- fmap_app, take_drop.
Qed.

Lemma seek_end_counts_dropped_bytes_witness :
  let total := sumZ (lengths eleven_lines) in
  aesd_llseek (written_state eleven_lines) the_file 0 SEEK_END
    = (total, set_f_pos total the_file) /\
  exists l, dev_rel (written_state eleven_lines) l /\
    total = sumZ (lengths (take (length eleven_lines - 10) eleven_lines))
            + Z.of_nat (length (log_bytes l)).
Proof.
  apply (seek_end_counts_dropped_bytes K boot loaded).
  - reflexivity.
  - apply written_state_written. by vm_compute.
  - apply (bool_decide_unpack _). by vm_compute.
  - by vm_compute.
Defined.

(** Once the buffer has wrapped, the seek request counts array slots and not
    commands: after eleven commands, the request for byte 0 of command 1, the
    second oldest, moves to the first byte of the third oldest. *)
Theorem ioctl_misplaced_after_wrap :
  let s := written_state eleven_lines in
  let f' := set_f_pos 7 the_file in
  aesd_ioctl K s the_file (AESDCHAR_IOCSEEKTO K) (request x01 x00) = Ret (0, s, f') /\
  aesd_read K s f' true 100 (f_pos f') = Ret (5, line x61 5, 12) /\
  commands (written_log eleven_lines) !! 1%nat = Some (line x61 4) /\
  commands (written_log eleven_lines) !! 2%nat = Some (line x61 5) /\
  dev_rel s (written_log eleven_lines).
Proof.
  intros s f'. split; [by vm_compute |]. split; [by vm_compute |].
  split; [by vm_compute |]. split; [by vm_compute |]. exact eleven_rel.
Qed.

(** ** Reads race with writes *)

(** The oldest entry of a full device is what a lookup at position 0 finds. *)
Lemma lookup_oldest s l count :
  dev_rel s l -> length (commands l) = 10%nat -> 0 <= count ->
  full (aesd_cb (aesd_device s)) = true /\
  exists n, read_lookup (aesd_cb (aesd_device s)) count 0
            = Ret (Some (in_offs (aesd_cb (aesd_device s)), 0, n)).
Proof.
  intros Hrel Hten Hcount. pose proof (dev_cb _ _ Hrel) as Hcb.
  pose proof (cb_rel_sizes_ok _ _ _ Hcb) as Hok. destruct Hcb as [Hwf Hent Hcmd _].
  set (cb := aesd_cb (aesd_device s)) in *.
  assert (full cb = true) as Hf.
  { rewrite full_length by done. by rewrite (Forall2_length _ _ _ Hent). }
  split; [done |]. unfold read_lookup. rewrite find_locate by (done || (unfold u64; cbn; lia)).
  destruct (contents_replace_oldest cb Hwf Hf) as (o & rest & Hc & Hget & _).
  rewrite Hc in Hent |- *. destruct (commands l) as [|c cs]; [done |].
  apply Forall2_cons_1 in Hent as [[_ Hs] _]. apply Forall_cons_1 in Hcmd as [Hcok _].
  pose proof (command_ok_length c Hcok).
  assert (slot cb 0 = in_offs cb) as Hslot.
  { unfold slot. rewrite (wf_full _ Hwf Hf), Z.add_0_r. apply Z.mod_small, (wf_out _ Hwf). }
  unfold sizes. rewrite fmap_cons. cbn [locate]. change (u64 0) with 0.
  rewrite Hs, (proj2 (Z.ltb_lt 0 _)) by lia. cbn [mbind outcome_bind].
  rewrite Hslot, Hget. by eexists.
Qed.

(** [aesd_read] takes no lock, so a read can overlap a write: a reader that has
    found the oldest entry of a full device and copies from it after a writer has
    released that entry (and before the writer replaces it) reads freed memory,
    whatever the offset and length. *)
Theorem read_races_with_release k k' s l count :
  KernelOk k -> dev_rel s l -> length (commands l) = 10%nat -> 0 <= count ->
  exists i n s', read_lookup (aesd_cb (aesd_device s)) count 0 = Ret (Some (i, 0, n)) /\
    release_oldest k s = Ret s' /\
    forall off m pos, read_copy k' s' i off m pos = Fault UseAfterFree.
Proof.
  intros Hk Hrel Hten Hcount.
  destruct (lookup_oldest s l count Hrel Hten Hcount) as [Hf [n Hn]].
  pose proof (dev_cb _ _ Hrel) as [Hwf Hent _ _]. set (cb := aesd_cb (aesd_device s)) in *.
  destruct (contents_replace_oldest cb Hwf Hf) as (o & rest & Hc & Hget & Hset).
  rewrite Hc in Hent. destruct (commands l) as [|c cs]; [done |].
  apply Forall2_cons_1 in Hent as [Ho _].
  destruct (entry_holds_block _ _ _ Ho) as (b & Hb & rst & Hst).
  destruct (Hset (set_e_size 0 o)) as (es & Hes & Hwf' & Hc').
  exists (in_offs cb), n.
  eexists. split; [exact Hn |]. split.
  - unfold release_oldest. fold cb. rewrite Hf, Hget. cbn [mbind outcome_bind].
    rewrite Hb. cbn [is_null negb]. unfold kfree. rewrite decide_True by eauto.
    cbn [mbind outcome_bind]. rewrite Hes. cbn [mbind outcome_bind].
    rewrite (kfree_ok _ _ _ Hst). done.
  - intros off m pos. unfold read_copy. cbn.
    apply arr_set_Ret in Hes as [Hlen ->].
    rewrite (proj2 (arr_get_Ret _ _ (set_e_size 0 o))).
    + cbn [mbind outcome_bind]. unfold copy_to_user, load_bytes, get_block. cbn.
      rewrite Hb. by rewrite lookup_delete_eq.
    + split; [apply (wf_in _ Hwf) |]. pose proof (wf_in_range _ Hwf).
      apply list_lookup_insert_eq. rewrite (wf_length_entry _ Hwf). lia.
Qed.

Lemma read_races_with_release_witness :
  exists i n s',
    read_lookup (aesd_cb (aesd_device (written_state ten_lines))) 100 0
      = Ret (Some (i, 0, n)) /\
    release_oldest K (written_state ten_lines) = Ret s' /\
    forall off m pos, read_copy K s' i off m pos = Fault UseAfterFree.
Proof.
  refine (read_races_with_release K K (written_state ten_lines) (written_log ten_lines) 100
    _ ten_rel _ _).
  - by vm_compute.
  - by_computation.
Defined.
