(* ===== verification/CharDriverConc.v ===== *)
(** The file operations of the driver when several processes are in them at once.
    A call in progress is at one of the points where the others can run.
    [aesd_read] takes no mutex, so the points of the parts that share memory with
    it are before each access to that memory: the search and the rest of a read,
    and in [aesd_write] the storing of a command in the circular buffer, field by
    field. What a write does before that concerns [tmp_buf] and [tmp_size] alone,
    which only a call with the mutex uses, and is one step, as is the body of the
    ioctl, which cannot run while a write has the mutex. [call_step] is what the call
    does from a point to the next; taken without interruption the steps are the
    functions of [CharDriver]. Memory is sequentially consistent, and
    [copy_to_user] is one access. *)

From S2P Require Import Prelude CMem LogSpec CircularBuffer Kernel CharDriver.
From S2P Require Import CharDriverRel CharDriverRefine CharDriverSeek CharDriverSystem.

(** ** Storing a command *)

(** The points of [aesd_write] from the test of [full] to the end of
    [aesd_circular_buffer_add_entry]: [kfree] of the oldest entry, [size = 0]; in
    [add_entry] the test of [full] with the increment of [out_offs], its return to 0, the
    three fields of the entry, the increment of [in_offs], its return to 0, and
    the setting of [full]. *)
Inductive cpoint : Type :=
| CFull | CFree | CZero
| CAddFull | COutWrap | CBufptr | CSize | COffset | CInInc | CInWrap | CFullSet.

Definition set_buffptr p e := mk_entry p (e_size e) (e_offset e).
Definition set_e_offset o e := mk_entry (buffptr e) (e_size e) o.

(** An assignment to [entry[in_offs]] or one of its fields. *)
Definition store_entry (f : aesd_buffer_entry -> aesd_buffer_entry) (cb : aesd_circular_buffer)
    : outcome aesd_circular_buffer :=
  e ← arr_get (entry cb) (in_offs cb);
  es ← arr_set (entry cb) (in_offs cb) (f e);
  Ret (set_entry es cb).

(** One step, [p] and [n] being [tmp_buf] and [tmp_size], and where it leads:
    [None] at the end. The local [new_entry] has no value for [offset]. *)
Definition commit_step (k : kernel) (h : gmap nat (list (option byte)))
    (cb : aesd_circular_buffer) (p : cptr) (n : Z) (c : cpoint)
    : outcome (gmap nat (list (option byte)) * aesd_circular_buffer * option cpoint) :=
  match c with
  | CFull => Ret (h, cb, Some (if full cb then CFree else CAddFull))
  | CFree =>
      e ← arr_get (entry cb) (in_offs cb);
      h ← (if negb (is_null (buffptr e)) then kfree k h (buffptr e) else Ret h);
      Ret (h, cb, Some CZero)
  | CZero => cb ← store_entry (set_e_size 0) cb; Ret (h, cb, Some CAddFull)
  | CAddFull =>
      if full cb then
        oldest ← arr_get (entry cb) (out_offs cb);
        Ret (h, set_out_offs (u8 (out_offs cb + 1)) cb, Some COutWrap)
      else Ret (h, cb, Some CBufptr)
  | COutWrap => Ret (h, if out_offs cb =? MAX then set_out_offs 0 cb else cb, Some CBufptr)
  | CBufptr => cb ← store_entry (set_buffptr p) cb; Ret (h, cb, Some CSize)
  | CSize => cb ← store_entry (set_e_size n) cb; Ret (h, cb, Some COffset)
  | COffset => cb ← store_entry (set_e_offset None) cb; Ret (h, cb, Some CInInc)
  | CInInc => Ret (h, set_in_offs (u8 (in_offs cb + 1)) cb, Some CInWrap)
  | CInWrap => Ret (h, if in_offs cb =? MAX then set_in_offs 0 cb else cb, Some CFullSet)
  | CFullSet => Ret (h, if in_offs cb =? out_offs cb then set_full true cb else cb, None)
  end.

(** The steps one after the other. *)
Fixpoint commit_run (k : kernel) (fuel : nat) (h : gmap nat (list (option byte)))
    (cb : aesd_circular_buffer) (p : cptr) (n : Z) (c : cpoint)
    : outcome (gmap nat (list (option byte)) * aesd_circular_buffer) :=
  match fuel with
  | O => NoFuel
  | S fuel =>
      '(h, cb, next) ← commit_step k h cb p n c;
      match next with
      | Some c => commit_run k fuel h cb p n c
      | None => Ret (h, cb)
      end
  end.

(** The steps left at most. *)
Definition commit_left (c : cpoint) : nat :=
  match c with
  | CFull => 11 | CFree => 10 | CZero => 9 | CAddFull => 8 | COutWrap => 7 | CBufptr => 6
  | CSize => 5 | COffset => 4 | CInInc => 3 | CInWrap => 2 | CFullSet => 1
  end.

(** ** Looking an entry up *)

(** The points of [aesd_read]: at the reading of [out_offs]; in the loop, at the three
    accesses of a turn; and once the entry is found, at those to its size and its
    pointer. *)
Inductive rpoint : Type :=
| RStart
| RTest (current_offset total_chars : Z)
| RNext (current_offset total_chars : Z)
| RMore (current_offset total_chars : Z)
| RFound (i start_entry_off : Z)
| RPtr (i start_entry_off read_length : Z).

(** One access; at the end [None] when no entry is found, else the pointer, the offset
    and the length of what is to be copied. *)
Definition lookup_step (cb : aesd_circular_buffer) (count pos : Z) (r : rpoint)
    : outcome (rpoint + option (cptr * Z * Z)) :=
  match r with
  | RStart => Ret (inl (RTest (out_offs cb) 0))
  | RTest cur total =>
      current_entry ← arr_get (entry cb) cur;
      Ret (inl (if u64 pos <? u64 (total + e_size current_entry)
                then RFound cur (u64 (u64 pos - total)) else RNext cur total))
  | RNext cur total =>
      current_entry ← arr_get (entry cb) cur;
      Ret (inl (RMore (u64 (cur + 1) mod MAX) (u64 (total + e_size current_entry))))
  | RMore cur total =>
      Ret (if negb (cur =? in_offs cb) then inl (RTest cur total) else inr None)
  | RFound i off =>
      start_entry ← arr_get (entry cb) i;
      let read_length := u64 (e_size start_entry - off) in
      Ret (inl (RPtr i off (if count <? read_length then count else read_length)))
  | RPtr i off n =>
      start_entry ← arr_get (entry cb) i; Ret (inr (Some (buffptr start_entry, off, n)))
  end.

Fixpoint lookup_run (fuel : nat) (cb : aesd_circular_buffer) (count pos : Z) (r : rpoint)
    : outcome (option (cptr * Z * Z)) :=
  match fuel with
  | O => NoFuel
  | S fuel =>
      x ← lookup_step cb count pos r;
      match x with inl r => lookup_run fuel cb count pos r | inr found => Ret found end
  end.

(** The copy, from the pointer read. *)
Definition copy_out (k : kernel) (h : gmap nat (list (option byte))) (p : cptr)
    (start_entry_off read_length pos : Z) : outcome (Z * list byte * Z) :=
  '(bs, missing) ← copy_to_user k h p start_entry_off read_length;
  if negb (missing =? 0) then Ret (- EFAULT, bs, pos)
  else Ret (s64 read_length, bs, s64 (u64 (pos + read_length))).

(** ** Calls in progress *)

(** [WUnlock] is at the end of the locked part, [stored] saying whether the pending
    bytes have become a command. *)
Inductive call : Type :=
| WLock (u : list byte) (count : Z)
| WBody (u : list byte) (count : Z)
| WCommit (u : list byte) (retval : Z) (c : cpoint)
| WUnlock (u : list byte) (retval : Z) (stored : bool)
| WLoad (retval : Z)
| WStore (retval old : Z)
| RLookup (count pos : Z) (r : rpoint)
| RCopy (count pos : Z) (p : cptr) (off read_length : Z)
| ILock (seek_cmd : aesd_seekto)
| IBody (seek_cmd : aesd_seekto).

(** What a call that ends gives its caller: the value returned, the bytes a read
    delivers, and the file position, if it is set. *)
Record answer : Type := mk_answer {
  ans_ret : Z;
  ans_bytes : list byte;
  ans_pos : option Z;
}.

Definition retval_only (r : Z) : answer := mk_answer r [] None.

(** From [mutex_lock_interruptible] in [aesd_write] to the test for a newline. The
    early return leaves the mutex as it is. *)
Definition write_body (k : kernel) (s : driver) (u : list byte) (count : Z)
    : outcome (driver * (call + answer)) :=
  stored ← (if 0 <? tmp_size (aesd_device s) then write_extend k s u count
            else write_start k s u count);
  match stored with
  | inl (e, s) => Ret (s, inr (retval_only e))
  | inr (retval, s) =>
      let dev := aesd_device s in
      found ← memchr (kheap s) (tmp_buf dev) newline (tmp_size dev);
      Ret (s, inl (match found with
                   | Some _ => WCommit u retval CFull
                   | None => WUnlock u retval false
                   end))
  end.

(** [tmp_buf = NULL; tmp_size = 0], if a command was stored, and [mutex_unlock]. *)
Definition write_unlock (k : kernel) (s : driver) (stored : bool) : driver :=
  let dev := aesd_device s in
  let dev := if stored then set_tmp PNull 0 dev else dev in
  set_dev (set_mx_lock (k_mutex_unlock k (mx_lock dev)) dev) s.

(** The wait for the mutex: [None] when it is interrupted. *)
Definition take_lock (k : kernel) (s : driver) : option driver * driver :=
  let '(r, held) := k_mutex_lock_interruptible k (mx_lock (aesd_device s)) in
  let s := set_dev (set_mx_lock held (aesd_device s)) s in
  if negb (r =? 0) then (None, s) else (Some s, s).

(** [dev->buffer_size += retval] is a read and a write of the field. *)
Definition store_size (s : driver) (old retval : Z) : driver :=
  set_dev (set_buffer_size (u64 (old + retval)) (aesd_device s)) s.

Definition set_buffer (h : gmap nat (list (option byte))) (cb : aesd_circular_buffer) (s : driver)
    : driver :=
  set_kheap h (set_dev (set_aesd_cb cb (aesd_device s)) s).

Definition call_step (k : kernel) (s : driver) (c : call)
    : outcome (driver * (call + answer)) :=
  let dev := aesd_device s in
  match c with
  | WLock u count =>
      match take_lock k s with
      | (None, s) => Ret (s, inr (retval_only (- ERESTARTSYS)))
      | (Some s, _) => Ret (s, inl (WBody u count))
      end
  | WBody u count => write_body k s u count
  | WCommit u retval c =>
      '(h, cb, next) ← commit_step k (kheap s) (aesd_cb dev) (tmp_buf dev) (tmp_size dev) c;
      Ret (set_buffer h cb s,
           inl (match next with Some c => WCommit u retval c | None => WUnlock u retval true end))
  | WUnlock _ retval stored => Ret (write_unlock k s stored, inl (WLoad retval))
  | WLoad retval => Ret (s, inl (WStore retval (buffer_size dev)))
  | WStore retval old => Ret (store_size s old retval, inr (retval_only retval))
  | RLookup count pos r =>
      x ← lookup_step (aesd_cb dev) count pos r;
      Ret (s, match x with
              | inl r => inl (RLookup count pos r)
              | inr None => inr (mk_answer 0 [] (Some pos))
              | inr (Some (p, off, n)) => inl (RCopy count pos p off n)
              end)
  | RCopy _ pos p off n =>
      '(r, bs, pos) ← copy_out k (kheap s) p off n pos;
      Ret (s, inr (mk_answer r bs (Some pos)))
  | ILock seek_cmd =>
      match take_lock k s with
      | (None, s) => Ret (s, inr (retval_only (- ERESTARTSYS)))
      | (Some s, _) => Ret (s, inl (IBody seek_cmd))
      end
  | IBody seek_cmd =>
      '(retval, pos) ← seek_locked (aesd_cb dev) seek_cmd;
      Ret (set_dev (set_mx_lock (k_mutex_unlock k (mx_lock dev)) dev) s,
           inr (mk_answer retval [] pos))
  end.

(** ** A call without interruption *)

Fixpoint run_call (fuel : nat) (k : kernel) (s : driver) (c : call)
    : outcome (driver * answer) :=
  match fuel with
  | O => NoFuel
  | S fuel =>
      '(s, r) ← call_step k s c;
      match r with
      | inl c => run_call fuel k s c
      | inr a => Ret (s, a)
      end
  end.

(** A write has at most 16 steps, a read 33: ten turns of three accesses and three
    more. *)
Definition call_alone (k : kernel) (s : driver) (c : call) : outcome (driver * answer) :=
  run_call 40 k s c.

Lemma run_call_more fuel fuel' k s c :
  run_call fuel k s c <> NoFuel -> (fuel <= fuel')%nat -> run_call fuel' k s c = run_call fuel k s c.
Proof.
  revert fuel' s c. induction fuel as [|fuel IH]; intros fuel' s c Hf Hle; [done |].
  destruct fuel' as [|fuel']; [lia |]. cbn [run_call] in *.
  destruct (call_step k s c) as [[s' [c' | a]] | |]; cbn [mbind outcome_bind] in *; try done.
  apply IH; [done | lia].
Qed.

(** *** Writes *)

Lemma commit_step_left k h cb p n c h' cb' c' :
  commit_step k h cb p n c = Ret (h', cb', Some c') -> (commit_left c' < commit_left c)%nat.
Proof.
  destruct c; cbn; intros H; outcome_inv; repeat case_match; outcome_inv; cbn; first [lia | done].
Qed.

Lemma kfree_fuel k h p : kfree k h p <> NoFuel.
Proof. unfold kfree. repeat case_match; done. Qed.

Lemma arr_get_fuel {A} (l : list A) i : arr_get l i <> NoFuel.
Proof. unfold arr_get. by repeat case_match. Qed.

Lemma arr_set_fuel {A} (l : list A) i a : arr_set l i a <> NoFuel.
Proof. unfold arr_set. by repeat case_match. Qed.

Lemma store_entry_fuel f cb : store_entry f cb <> NoFuel.
Proof.
  unfold store_entry. pose proof (arr_get_fuel (entry cb) (in_offs cb)).
  destruct (arr_get _ _) as [e | |]; cbn; try done.
  pose proof (arr_set_fuel (entry cb) (in_offs cb) (f e)). by destruct (arr_set _ _ _).
Qed.

Lemma commit_step_fuel k h cb p n c : commit_step k h cb p n c <> NoFuel.
Proof.
  destruct c; cbn; try done.
  - pose proof (arr_get_fuel (entry cb) (in_offs cb)). destruct (arr_get _ _) as [e | |]; cbn; try done.
    destruct (negb _); cbn; [| done]. pose proof (kfree_fuel k h (buffptr e)).
    by destruct (kfree _ _ _).
  - pose proof (store_entry_fuel (set_e_size 0) cb). by destruct (store_entry _ _).
  - destruct (full cb); [| done]. pose proof (arr_get_fuel (entry cb) (out_offs cb)).
    by destruct (arr_get _ _).
  - pose proof (store_entry_fuel (set_buffptr p) cb). by destruct (store_entry _ _).
  - pose proof (store_entry_fuel (set_e_size n) cb). by destruct (store_entry _ _).
  - pose proof (store_entry_fuel (set_e_offset None) cb). by destruct (store_entry _ _).
Qed.

(** Storing a command ends. *)
Lemma commit_run_fuel k fuel h cb p n c :
  (commit_left c <= fuel)%nat -> commit_run k fuel h cb p n c <> NoFuel.
Proof.
  revert h cb c. induction fuel as [|fuel IH]; intros h cb c Hle; [by destruct c; inversion Hle |].
  cbn [commit_run]. pose proof (commit_step_fuel k h cb p n c).
  destruct (commit_step k h cb p n c) as [[[h' cb'] [c' |]] | |] eqn:E; cbn; try done.
  apply IH. apply commit_step_left in E. lia.
Qed.

Lemma commit_run_more k fuel fuel' h cb p n c :
  commit_run k fuel h cb p n c <> NoFuel -> (fuel <= fuel')%nat ->
  commit_run k fuel' h cb p n c = commit_run k fuel h cb p n c.
Proof.
  revert fuel' h cb c. induction fuel as [|fuel IH]; intros fuel' h cb c Hf Hle; [done |].
  destruct fuel' as [|fuel']; [lia |]. cbn [commit_run] in *.
  destruct (commit_step k h cb p n c) as [[[h' cb'] [c' |]] | |]; cbn [mbind outcome_bind] in *; try done.
  apply IH; [done | lia].
Qed.

(** The stores to the fields of the entry are that of the whole entry. *)
Lemma arr_set_twice {A} (l l' : list A) i a b :
  arr_set l i a = Ret l' -> arr_get l' i = Ret a /\ arr_set l' i b = arr_set l i b.
Proof.
  unfold arr_set, arr_get. destruct (_ && _) eqn:E; [| done]. intros [= <-].
  apply andb_prop in E as [E1 E2]. rewrite length_insert, E1, E2.
  rewrite list_lookup_insert_eq by lia. split; [done |]. cbn. by rewrite list_insert_insert_eq.
Qed.

Lemma arr_get_set {A} (l : list A) i a :
  (exists e es, arr_get l i = Ret e /\ arr_set l i a = Ret es) \/
  arr_get l i = Fault OutOfBounds /\ arr_set l i a = Fault OutOfBounds.
Proof.
  destruct (decide (0 <= i < Z.of_nat (length l))) as [Hi | Hi].
  - left. destruct (arr_get_in_range l i Hi) as (e & -> & _). rewrite arr_set_in_range by done. by eauto.
  - right. split.
    + unfold arr_get. destruct (Z.leb_spec 0 i); [| done]. by rewrite lookup_ge_None_2 by lia.
    + unfold arr_set. destruct (_ && _) eqn:E; [| done]. lia.
Qed.

Lemma commit_entry k fuel h cb p n :
  commit_run k (S (S (S fuel))) h cb p n CBufptr =
  es ← arr_set (entry cb) (in_offs cb) (mk_entry p n None);
  commit_run k fuel h (set_entry es cb) p n CInInc.
Proof.
  destruct cb as [es i o f sz]. cbn [commit_run commit_step]. unfold store_entry. cbn [entry in_offs].
  destruct (arr_get_set es i (mk_entry p n None)) as [(e & es' & -> & Hs) | [-> ->]]; [| done].
  cbn [mbind outcome_bind].
  destruct (arr_get_set es i (set_buffptr p e)) as [(_ & es1 & _ & E1) | [_ E1]];
    [| unfold arr_set in *; by destruct (_ && _)].
  rewrite E1. cbn [mbind outcome_bind commit_step]. unfold store_entry.
  cbn [set_entry entry in_offs out_offs full cb_size].
  destruct (arr_set_twice _ _ _ _ (set_e_size n (set_buffptr p e)) E1) as [-> H2].
  cbn [mbind outcome_bind]. rewrite H2.
  destruct (arr_get_set es i (set_e_size n (set_buffptr p e))) as [(_ & es2 & _ & E2) | [_ E2]];
    [| unfold arr_set in *; by destruct (_ && _)].
  rewrite E2. cbn [mbind outcome_bind commit_step]. unfold store_entry.
  cbn [set_entry entry in_offs out_offs full cb_size].
  destruct (arr_set_twice _ _ _ _ (mk_entry p n None) E2) as [-> H3].
  cbn [mbind outcome_bind]. change (set_e_offset None (set_e_size n (set_buffptr p e))) with (mk_entry p n None).
  rewrite H3, Hs. done.
Qed.

Lemma commit_add k h cb p n :
  commit_run k 8 h cb p n CAddFull =
  '(_, cb) ← aesd_circular_buffer_add_entry cb (mk_entry p n None); Ret (h, cb).
Proof.
  unfold aesd_circular_buffer_add_entry. change (MAX =? 0) with false. cbv iota.
  assert (forall fuel cb, (fuel <= 1)%nat -> commit_run k (S (S (S (S (S (S fuel)))))) h cb p n CBufptr =
    es ← arr_set (entry cb) (in_offs cb) (mk_entry p n None);
    let cb := advance_in_offs (set_entry es cb) in
    Ret (h, if in_offs cb =? out_offs cb then set_full true cb else cb)) as Hrest.
  { intros fuel cb' _. rewrite commit_entry. by destruct (arr_set _ _ _) as [es | |]. }
  change (commit_run k 8 h cb p n CAddFull) with
    ('(h, cb, next) ← commit_step k h cb p n CAddFull;
     match next with Some c => commit_run k 7 h cb p n c | None => Ret (h, cb) end).
  cbn [commit_step]. destruct (full cb) eqn:Hf.
  - destruct (arr_get (entry cb) (out_offs cb)) as [o | |]; [| done..]. cbn [mbind outcome_bind].
    change (commit_run k 7 h (set_out_offs (u8 (out_offs cb + 1)) cb) p n COutWrap) with
      (commit_run k 6 h (advance_out_offs cb) p n CBufptr).
    rewrite Hrest by lia. by destruct (arr_set _ _ _) as [es | |].
  - cbn [mbind outcome_bind]. rewrite Hrest by lia. by destruct (arr_set _ _ _) as [es | |].
Qed.

(** Without interruption the steps are [release_oldest] and [add_entry]. *)
Lemma commit_run_alone k s :
  let dev := aesd_device s in
  commit_run k 11 (kheap s) (aesd_cb dev) (tmp_buf dev) (tmp_size dev) CFull =
  s ← release_oldest k s;
  '(_, cb) ← aesd_circular_buffer_add_entry (aesd_cb (aesd_device s))
               (mk_entry (tmp_buf dev) (tmp_size dev) None);
  Ret (kheap s, cb).
Proof.
  cbv zeta. set (cb := aesd_cb (aesd_device s)). set (p := tmp_buf _). set (n := tmp_size _).
  unfold release_oldest. fold cb.
  change (commit_run k 11 (kheap s) cb p n CFull) with
    (commit_run k 10 (kheap s) cb p n (if full cb then CFree else CAddFull)).
  destruct (full cb) eqn:Hf.
  2: { cbn [mbind outcome_bind]. fold cb. rewrite <- (commit_add k).
       assert (commit_run k 8 (kheap s) cb p n CAddFull <> NoFuel) as Hfuel by (by apply commit_run_fuel).
       revert Hfuel. clear. intros Hfuel. apply commit_run_more; [done | lia]. }
  change (commit_run k 10 (kheap s) cb p n CFree) with
    ('(h, cb, next) ← commit_step k (kheap s) cb p n CFree;
     match next with Some c => commit_run k 9 h cb p n c | None => Ret (h, cb) end).
  cbn [commit_step]. destruct (arr_get (entry cb) (in_offs cb)) as [e | |] eqn:He; [| done..].
  cbn [mbind outcome_bind].
  destruct (if negb (is_null (buffptr e)) then _ else _) as [h | |]; [| done..].
  cbn [mbind outcome_bind].
  change (commit_run k 9 h cb p n CZero) with
    ('(h, cb, next) ← commit_step k h cb p n CZero;
     match next with Some c => commit_run k 8 h cb p n c | None => Ret (h, cb) end).
  cbn [commit_step]. unfold store_entry. rewrite He. cbn [mbind outcome_bind].
  destruct (arr_set (entry cb) (in_offs cb) (set_e_size 0 e)) as [es | |]; [| done..].
  cbn [mbind outcome_bind]. by rewrite commit_add.
Qed.

(** From the storing of a command to the end of the call. *)
Lemma write_end_alone k s u r stored fuel :
  (3 <= fuel)%nat ->
  run_call fuel k s (WUnlock u r stored) =
  Ret (store_size (write_unlock k s stored) (buffer_size (aesd_device s)) r, retval_only r).
Proof.
  intros Hf. rewrite (run_call_more 3); [by destruct stored | by destruct stored | done].
Qed.

Lemma commit_alone k u r fuel : forall s c,
  commit_run k fuel (kheap s) (aesd_cb (aesd_device s)) (tmp_buf (aesd_device s))
    (tmp_size (aesd_device s)) c <> NoFuel ->
  run_call (fuel + 3) k s (WCommit u r c) =
  '(h, cb) ← commit_run k fuel (kheap s) (aesd_cb (aesd_device s)) (tmp_buf (aesd_device s))
               (tmp_size (aesd_device s)) c;
  run_call 3 k (set_buffer h cb s) (WUnlock u r true).
Proof.
  induction fuel as [|fuel IH]; intros s c Hf; [done |].
  change (S fuel + 3)%nat with (S (fuel + 3)). cbn [run_call call_step commit_run] in *.
  destruct (commit_step k _ _ _ _ c) as [[[h cb] [c' |]] | |]; cbn [mbind outcome_bind] in *; try done.
  - specialize (IH (set_buffer h cb s) c'). cbn [set_buffer set_kheap kheap set_dev aesd_device
      set_aesd_cb aesd_cb tmp_buf tmp_size] in IH. rewrite IH by done.
    by destruct (commit_run k fuel h cb _ _ c') as [[h' cb'] | |].
  - by rewrite !write_end_alone by lia.
Qed.

Lemma release_oldest_frame k s s' :
  release_oldest k s = Ret s' -> s' = set_buffer (kheap s') (aesd_cb (aesd_device s')) s.
Proof.
  unfold release_oldest. destruct (full _); intros H; outcome_inv.
  - by destruct s as [? ? [] ? ?].
  - by destruct s' as [? ? [] ? ?].
Qed.

(** Storing a command and what follows, as [commit_pending] and the end of
    [aesd_write] have it. *)
Lemma commit_full_alone k s u r fuel :
  (14 <= fuel)%nat ->
  run_call fuel k s (WCommit u r CFull) =
  s ← (s1 ← release_oldest k s;
       '(_, cb) ← aesd_circular_buffer_add_entry (aesd_cb (aesd_device s1))
                    (mk_entry (tmp_buf (aesd_device s1)) (tmp_size (aesd_device s1)) None);
       Ret (set_dev (set_tmp PNull 0 (set_aesd_cb cb (aesd_device s1))) s1));
  let dev := set_mx_lock (k_mutex_unlock k (mx_lock (aesd_device s))) (aesd_device s) in
  Ret (set_dev (set_buffer_size (u64 (buffer_size dev + r)) dev) s, retval_only r).
Proof.
  intros Hle.
  pose proof (commit_run_fuel k 11 (kheap s) (aesd_cb (aesd_device s)) (tmp_buf (aesd_device s))
    (tmp_size (aesd_device s)) CFull (le_n _)) as Hfuel.
  pose proof (commit_alone k u r 11 s CFull Hfuel) as E. pose proof (commit_run_alone k s) as E'.
  cbv zeta in E'. rewrite E' in E, Hfuel. clear E'.
  assert (run_call 14 k s (WCommit u r CFull) <> NoFuel) as Hf14.
  { change 14%nat with (11 + 3)%nat. rewrite E. intros Hno. apply Hfuel.
    destruct (release_oldest k s) as [s1 | |]; try done. cbn [mbind outcome_bind] in *.
    by destruct (aesd_circular_buffer_add_entry _ _) as [[v cb] | |]. }
  rewrite (run_call_more 14) by done. change 14%nat with (11 + 3)%nat. rewrite E.
  destruct (release_oldest k s) as [s1 | |] eqn:Hr; cbn [mbind outcome_bind]; try done.
  apply release_oldest_frame in Hr.
  assert (tmp_buf (aesd_device s1) = tmp_buf (aesd_device s) /\
    tmp_size (aesd_device s1) = tmp_size (aesd_device s)) as [-> ->] by (by rewrite Hr).
  destruct (aesd_circular_buffer_add_entry _ _) as [[v cb] | |]; cbn [mbind outcome_bind]; try done.
  rewrite write_end_alone by lia. by rewrite Hr.
Qed.

Lemma write_alone k s f u count :
  private_data f = Some AESD_DEVICE ->
  call_alone k s (WLock u count) =
    '(r, s) ← aesd_write k s f (Some u) count; Ret (s, retval_only r).
Proof.
  intros Hf. unfold call_alone, aesd_write, deref_dev. rewrite Hf.
  assert (exists m, 40%nat = S (S m) /\ (14 <= m)%nat) as (m & -> & Hm) by (exists 38%nat; lia).
  cbn [mbind outcome_bind run_call call_step]. unfold take_lock.
  destruct (k_mutex_lock_interruptible k _) as [r held].
  destruct (negb (r =? 0)); [done |]. cbn [mbind outcome_bind run_call call_step]. unfold write_body.
  change (tmp_size (aesd_device (set_dev (set_mx_lock held (aesd_device s)) s)))
    with (tmp_size (aesd_device s)).
  destruct (if 0 <? _ then _ else _) as [[[e s'] | [n s']] | |]; cbn [mbind outcome_bind]; try done.
  unfold commit_pending.
  destruct (memchr (kheap s') _ newline _) as [[i |] | |]; cbn [mbind outcome_bind]; try done.
  - rewrite commit_full_alone by lia.
    destruct (release_oldest k s') as [s1 | |]; cbn [mbind outcome_bind]; try done.
    by destruct (aesd_circular_buffer_add_entry _ _) as [[v cb] | |].
  - by rewrite write_end_alone by lia.
Qed.

(** *** Reads and requests *)

(** What is done with an entry once it is found. *)
Definition found_entry (cb : aesd_circular_buffer) (count i off : Z)
    : outcome (option (cptr * Z * Z)) :=
  e ← arr_get (entry cb) i;
  let n := u64 (e_size e - off) in
  Ret (Some (buffptr e, off, if count <? n then count else n)).

Lemma lookup_run_loop cb count pos fuel : forall total cur,
  find_loop fuel cb (u64 pos) total cur <> NoFuel ->
  lookup_run (3 * fuel + 2) cb count pos (RTest cur total) =
  found ← find_loop fuel cb (u64 pos) total cur;
  match found with None => Ret None | Some (i, off) => found_entry cb count i off end.
Proof.
  induction fuel as [|fuel IH]; intros total cur Hf; [done |].
  replace (3 * S fuel + 2)%nat with (S (S (S (3 * fuel + 2)))) by lia.
  cbn [find_loop lookup_run lookup_step] in *.
  destruct (arr_get (entry cb) cur) as [e | |] eqn:He; cbn [mbind outcome_bind] in *; [| done..].
  destruct (u64 pos <? u64 (total + e_size e)).
  - cbn [lookup_step mbind outcome_bind]. unfold found_entry. rewrite He. cbn [mbind outcome_bind].
    replace (3 * fuel + 2)%nat with (S (3 * fuel + 1)) by lia. cbn [lookup_run lookup_step].
    by rewrite He.
  - cbn [lookup_step mbind outcome_bind]. rewrite He. cbn [mbind outcome_bind].
    cbn [lookup_step]. destruct (negb _); cbn [mbind outcome_bind]; [by apply IH | done].
Qed.

(** The search and the rest of the lookup, in a well-formed buffer. *)
Lemma lookup_run_alone cb count pos :
  cb_wf cb -> sizes_ok (sizes (contents cb)) ->
  lookup_run 33 cb count pos RStart =
  found ← read_lookup cb count pos;
  match found with
  | None => Ret None
  | Some (i, off, n) => e ← arr_get (entry cb) i; Ret (Some (buffptr e, off, n))
  end.
Proof.
  intros Hwf Hok. change (lookup_run 33 cb count pos RStart)
    with (lookup_run (3 * 10 + 2) cb count pos (RTest (out_offs cb) 0)).
  pose proof (find_locate cb Hwf Hok (u64 pos) (u64_range pos)) as Hfind.
  unfold aesd_circular_buffer_find_entry_offset_for_fpos in Hfind. change (Z.to_nat MAX) with 10%nat in Hfind.
  rewrite lookup_run_loop by (by rewrite Hfind).
  unfold read_lookup, aesd_circular_buffer_find_entry_offset_for_fpos. change (Z.to_nat MAX) with 10%nat.
  rewrite Hfind. cbn [mbind outcome_bind].
  destruct (locate _ _) as [[j o]|]; [| done]. unfold found_entry. cbn [mbind outcome_bind].
  destruct (arr_get (entry cb) (slot cb j)) as [e | |] eqn:He; cbn [mbind outcome_bind]; [| done..].
  by rewrite He.
Qed.

Lemma run_lookup k s count pos fuel fuel' : forall r,
  lookup_run fuel (aesd_cb (aesd_device s)) count pos r <> NoFuel ->
  run_call (fuel + S fuel') k s (RLookup count pos r) =
  found ← lookup_run fuel (aesd_cb (aesd_device s)) count pos r;
  match found with
  | None => Ret (s, mk_answer 0 [] (Some pos))
  | Some (p, off, n) =>
      '(r, bs, pos) ← copy_out k (kheap s) p off n pos; Ret (s, mk_answer r bs (Some pos))
  end.
Proof.
  induction fuel as [|fuel IH]; intros r Hf; [done |].
  change (S fuel + S fuel')%nat with (S (fuel + S fuel')). cbn [run_call call_step lookup_run] in *.
  destruct (lookup_step _ count pos r) as [[r' | [[[p off] n] |]] | |];
    cbn [mbind outcome_bind] in *; [by apply IH | | done..].
  rewrite Nat.add_succ_r. cbn [run_call call_step].
  by destruct (copy_out k (kheap s) p off n pos) as [[[? ?] ?] | |].
Qed.

Lemma read_alone k s f count pos :
  private_data f = Some AESD_DEVICE ->
  cb_wf (aesd_cb (aesd_device s)) -> sizes_ok (sizes (contents (aesd_cb (aesd_device s)))) ->
  call_alone k s (RLookup count pos RStart) =
    '(r, bs, pos) ← aesd_read k s f true count pos; Ret (s, mk_answer r bs (Some pos)).
Proof.
  intros Hf Hwf Hok. unfold call_alone, aesd_read, deref_dev. rewrite Hf.
  cbn [mbind outcome_bind negb]. change 40%nat with (33 + S 6)%nat.
  pose proof (lookup_run_alone _ count pos Hwf Hok) as Hl.
  assert (read_lookup (aesd_cb (aesd_device s)) count pos <> NoFuel) as Hfuel.
  { unfold read_lookup. rewrite find_locate by (done || apply u64_range). cbn [mbind outcome_bind].
    destruct (locate _ _) as [[j o]|]; [| done].
    pose proof (arr_get_fuel (entry (aesd_cb (aesd_device s))) (slot (aesd_cb (aesd_device s)) j)).
    by destruct (arr_get _ _). }
  rewrite run_lookup; rewrite Hl; destruct (read_lookup _ count pos) as [[[[i o] n]|] | |];
    cbn [mbind outcome_bind]; try done; unfold read_copy.
  - by destruct (arr_get _ i).
  - pose proof (arr_get_fuel (entry (aesd_cb (aesd_device s))) i). by destruct (arr_get _ i).
Qed.

Lemma ioctl_alone k s f arg bs :
  private_data f = Some AESD_DEVICE ->
  k_copy_from_user k arg sizeof_aesd_seekto = (bs, 0) ->
  0 <= write_cmd (decode_seekto bs) <= MAX ->
  ('(s, a) ← call_alone k s (ILock (decode_seekto bs));
   Ret (ans_ret a, s, match ans_pos a with Some p => set_f_pos p f | None => f end)) =
  aesd_ioctl k s f (AESDCHAR_IOCSEEKTO k) arg.
Proof.
  intros Hf Hcopy Hw. unfold call_alone, aesd_ioctl, deref_dev.
  rewrite Z.eqb_refl, Hcopy, Hf. cbn [Z.eqb negb].
  rewrite (proj2 (Z.ltb_ge _ 0)), (proj2 (Z.ltb_ge MAX _)) by lia. cbn [orb mbind outcome_bind].
  change 40%nat with (S (S 38)). cbn [run_call call_step]. unfold take_lock.
  destruct (k_mutex_lock_interruptible k _) as [r held].
  destruct (negb (r =? 0)); [done |]. cbn [mbind outcome_bind run_call call_step].
  change (aesd_cb (aesd_device (set_dev (set_mx_lock held (aesd_device s)) s)))
    with (aesd_cb (aesd_device s)).
  by destruct (seek_locked _ _) as [[retval pos] | |].
Qed.

(** ** Many calls *)

Record conc : Type := mk_conc {
  c_drv : driver;
  c_calls : gmap nat call;
}.

(** A call starts with arguments in the range of their types; the range of
    [write_cmd] has been tested, and the request for command 10, which reads past
    the array, is left out. *)
Definition call_starts (c : call) : Prop :=
  match c with
  | WLock u count => 0 <= count <= MAX_RW_COUNT
  | RLookup count pos RStart => 0 <= count <= MAX_RW_COUNT /\ 0 <= pos < 2 ^ 63
  | ILock sk => 0 <= write_cmd sk < 10 /\ 0 <= write_cmd_offset sk < 2 ^ 32
  | _ => False
  end.

(** What happens: [t] starts a call, takes a step of it, or ends it. *)
Inductive conc_event : Type :=
| Start (t : nat) (c : call)
| Go (t : nat) (c c' : call)
| End_ (t : nat) (c : call) (a : answer).

(** Each step under a kernel behaviour of its own. *)
Inductive conc_step : conc -> conc_event -> conc -> Prop :=
| conc_start s cs t c :
    cs !! t = None -> call_starts c ->
    conc_step (mk_conc s cs) (Start t c) (mk_conc s (<[t := c]> cs))
| conc_go k s cs t c s' c' :
    KernelOk k -> cs !! t = Some c -> call_step k s c = Ret (s', inl c') ->
    conc_step (mk_conc s cs) (Go t c c') (mk_conc s' (<[t := c']> cs))
| conc_end k s cs t c s' a :
    KernelOk k -> cs !! t = Some c -> call_step k s c = Ret (s', inr a) ->
    conc_step (mk_conc s cs) (End_ t c a) (mk_conc s' (delete t cs)).

(** ** The abstract device under concurrent calls

    [sp_log] is the log, [sp_busy] says that a command is being stored, from the
    finding of its newline to the release of the mutex; [sp_reads] are the reads in
    progress, [sp_torn] those of them that have overlapped the storing of a
    command. *)
Record cspec : Type := mk_cspec {
  sp_log : log;
  sp_busy : bool;
  sp_reads : gset nat;
  sp_torn : gset nat;
}.

Definition is_read (c : call) : bool :=
  match c with RLookup _ _ _ | RCopy _ _ _ _ _ => true | _ => false end.

(** What the bytes [u] make of the pending ones. *)
Definition completes (l : log) (u : list byte) (n : Z) : Prop :=
  newline ∈ pending l ++ take (Z.to_nat n) u.

(** The moves from a point to another that the abstract device does not notice. *)
Definition silent (c : call) : bool :=
  match c with WBody _ _ | WUnlock _ _ _ => false | _ => true end.

(** A write takes effect when it releases the mutex, with the bytes it returns the
    number of; if they complete a command, that is stored from the newline's
    finding on. Everything else leaves the log alone. A call that ends gives what
    the log as it is then answers; nothing is said of the answer of a read that
    has overlapped the storing of a command. *)
Inductive conc_spec : cspec -> conc_event -> cspec -> Prop :=
| cspec_start l b R T t c :
    is_read c = false -> conc_spec (mk_cspec l b R T) (Start t c) (mk_cspec l b R T)
| cspec_start_read l b R T t c :
    is_read c = true ->
    conc_spec (mk_cspec l b R T) (Start t c)
      (mk_cspec l b ({[t]} ∪ R) (if b then {[t]} ∪ T else T))
| cspec_go l b R T t c c' :
    silent c = true -> conc_spec (mk_cspec l b R T) (Go t c c') (mk_cspec l b R T)
| cspec_pending l R T t u count n :
    0 <= n <= count -> n <= Z.of_nat (length u) -> ~ completes l u n ->
    conc_spec (mk_cspec l false R T) (Go t (WBody u count) (WUnlock u n false))
      (mk_cspec l false R T)
| cspec_storing l R T t u count n :
    0 <= n <= count -> n <= Z.of_nat (length u) -> completes l u n ->
    conc_spec (mk_cspec l false R T) (Go t (WBody u count) (WCommit u n CFull))
      (mk_cspec l true R R)
| cspec_write l R T t u n stored :
    conc_spec (mk_cspec l stored R T) (Go t (WUnlock u n stored) (WLoad n))
      (mk_cspec (log_write l (take (Z.to_nat n) u)) false R T)
| cspec_written l b R T t n old :
    conc_spec (mk_cspec l b R T) (End_ t (WStore n old) (retval_only n)) (mk_cspec l b R T)
| cspec_interrupted l b R T t c :
    match c with WLock _ _ | ILock _ => True | _ => False end ->
    conc_spec (mk_cspec l b R T) (End_ t c (retval_only (- ERESTARTSYS))) (mk_cspec l b R T)
| cspec_nomem l R T t u count :
    conc_spec (mk_cspec l false R T) (End_ t (WBody u count) (retval_only (- ENOMEM)))
      (mk_cspec l false R T)
| cspec_read_end l b R T t count pos r a :
    (t ∉ T -> Z.of_nat (length (log_bytes l)) <= pos /\ a = mk_answer 0 [] (Some pos)) ->
    conc_spec (mk_cspec l b R T) (End_ t (RLookup count pos r) a)
      (mk_cspec l b (R ∖ {[t]}) (T ∖ {[t]}))
| cspec_read l b R T t count pos p off n a :
    (t ∉ T ->
       let bs := log_read l pos count in
       a = mk_answer (Z.of_nat (length bs)) bs (Some (pos + Z.of_nat (length bs))) \/
       exists bs', bs' `prefix_of` bs /\ a = mk_answer (- EFAULT) bs' (Some pos)) ->
    conc_spec (mk_cspec l b R T) (End_ t (RCopy count pos p off n) a)
      (mk_cspec l b (R ∖ {[t]}) (T ∖ {[t]}))
| cspec_seek l R T t sk :
    conc_spec (mk_cspec l false R T) (End_ t (IBody sk)
      match log_seek l (write_cmd sk) (write_cmd_offset sk) with
      | Some p => mk_answer 0 [] (Some p)
      | None => mk_answer (- EINVAL) [] None
      end) (mk_cspec l false R T).

Definition cspec_init : cspec := mk_cspec empty_log false ∅ ∅.

(** ** Schedules

    A schedule says which call starts or takes its next step; running one is a
    concrete run of the step relation. *)

#[export] Instance call_starts_dec c : Decision (call_starts c).
Proof. destruct c as [| | | | | | ? ? [] | | |]; cbn [call_starts]; apply _. Defined.

Inductive action : Type :=
| Begin (t : nat) (c : call)
| Next_ (t : nat).

Definition act (k : kernel) (w : conc) (a : action) : option (conc_event * conc) :=
  let 'mk_conc s cs := w in
  match a with
  | Begin t c =>
      match cs !! t with
      | None => if decide (call_starts c) then Some (Start t c, mk_conc s (<[t := c]> cs)) else None
      | Some _ => None
      end
  | Next_ t =>
      match cs !! t with
      | Some c =>
          match call_step k s c with
          | Ret (s', inl c') => Some (Go t c c', mk_conc s' (<[t := c']> cs))
          | Ret (s', inr a) => Some (End_ t c a, mk_conc s' (delete t cs))
          | _ => None
          end
      | None => None
      end
  end.

Fixpoint schedule (k : kernel) (w : conc) (acts : list action) : option (list conc_event * conc) :=
  match acts with
  | [] => Some ([], w)
  | a :: acts =>
      '(ev, w) ← act k w a;
      '(evs, w) ← schedule k w acts;
      Some (ev :: evs, w)
  end.

Lemma act_step k `{!KernelOk k} w a ev w' : act k w a = Some (ev, w') -> conc_step w ev w'.
Proof.
  destruct w as [s cs], a as [t c | t]; cbn; destruct (cs !! t) as [c' |] eqn:Ht; try done.
  - case_decide; [| done]. intros [= <- <-]. by apply conc_start.
  - destruct (call_step k s c') as [[s' [c2 | a]] | |] eqn:E; try done; intros [= <- <-].
    + by apply (conc_go k).
    + by apply (conc_end k).
Qed.

Lemma schedule_run k `{!KernelOk k} w acts evs w' :
  schedule k w acts = Some (evs, w') -> run conc_step w evs w'.
Proof.
  revert w evs. induction acts as [|a acts IH]; intros w evs; cbn [schedule].
  - intros [= <- <-]. constructor.
  - destruct (act k w a) as [[ev w1]|] eqn:Ha; cbn; [| done].
    destruct (schedule k w1 acts) as [[evs1 w2]|] eqn:Hs; cbn; [| done].
    intros [= <- <-]. eapply run_cons; [by apply (act_step k) in Ha | by apply IH].
Qed.
