(* ===== verification/CharDriverConcInv.v ===== *)
(** The invariant of concurrent calls of the driver, and that each of their steps is
    one of the abstract device: what a call in the locked section has made of the
    buffer, how the storing of a command will end, and what a read that overlaps
    none has found so far. *)

From S2P Require Import Prelude CMem LogSpec CircularBuffer Kernel CharDriver.
From S2P Require Import CharDriverRel CharDriverRefine CharDriverSeek CharDriverSystem.
From S2P Require Import CharDriverConc.

(** ** The invariant *)

(** The calls that run with the mutex held. *)
Definition in_body (c : call) : bool :=
  match c with WBody _ _ | WCommit _ _ _ | WUnlock _ _ _ | IBody _ => true | _ => false end.

(** The buffer stands for the commands of a log. *)
Record settled (h : gmap nat (list (option byte))) (cb : aesd_circular_buffer) (l : log) : Prop := {
  st_cb : cb_rel h cb (commands l);
  st_first : out_offs cb = Z.of_nat (dropped l) mod MAX;
}.

(** The rest of the storing of a command, whatever the kernel, gives a buffer that
    stands for [l]. *)
Definition storing (s : driver) (l : log) (c : cpoint) : Prop :=
  let dev := aesd_device s in
  exists fuel h cb,
    (forall k, KernelOk k ->
       commit_run k fuel (kheap s) (aesd_cb dev) (tmp_buf dev) (tmp_size dev) c = Ret (h, cb)) /\
    settled h cb l.

(** The arguments of a call in progress. *)
Definition call_ok (c : call) : Prop :=
  match c with
  | WLock _ count | WBody _ count => 0 <= count <= MAX_RW_COUNT
  | WCommit u n _ | WUnlock u n _ => 0 <= n <= Z.of_nat (length u)
  | WLoad r | WStore r _ => 0 <= r
  | RLookup count pos _ | RCopy count pos _ _ _ => 0 <= count <= MAX_RW_COUNT /\ 0 <= pos < 2 ^ 63
  | ILock sk | IBody sk => 0 <= write_cmd sk < 10 /\ 0 <= write_cmd_offset sk < 2 ^ 32
  end.

(** What the call with the mutex has made of the device; [b] says whether a command is
    being stored. *)
Definition body_ok (s : driver) (l : log) (b : bool) (c : call) : Prop :=
  match c with
  | WBody _ _ | IBody _ => b = false /\ pending_rel (kheap s) (aesd_device s) (pending l)
  | WCommit u n c =>
      b = true /\ completes l u n /\ storing s (log_write l (take (Z.to_nat n) u)) c
  | WUnlock u n true =>
      b = true /\ completes l u n /\
      settled (kheap s) (aesd_cb (aesd_device s)) (log_write l (take (Z.to_nat n) u))
  | WUnlock u n false =>
      b = false /\ ~ completes l u n /\
      stored_rel s (commands l) (pending l ++ take (Z.to_nat n) u)
  | _ => True
  end.

(** The rest of a read in the buffer gives what the whole of it would. *)
Definition read_ok (cb : aesd_circular_buffer) (c : call) : Prop :=
  match c with
  | RLookup count pos r =>
      exists fuel found, lookup_run fuel cb count pos r = Ret found /\
        lookup_run 33 cb count pos RStart = Ret found
  | RCopy count pos p off n => lookup_run 33 cb count pos RStart = Ret (Some (p, off, n))
  | _ => True
  end.

Record conc_inv (w : conc) (sp : cspec) : Prop := {
  ci_settled : sp_busy sp = false ->
    settled (kheap (c_drv w)) (aesd_cb (aesd_device (c_drv w))) (sp_log sp);
  ci_free : mx_lock (aesd_device (c_drv w)) = false ->
    (forall t c, c_calls w !! t = Some c -> in_body c = false) /\
    pending_rel (kheap (c_drv w)) (aesd_device (c_drv w)) (pending (sp_log sp));
  ci_body : forall t c, c_calls w !! t = Some c -> in_body c = true ->
    body_ok (c_drv w) (sp_log sp) (sp_busy sp) c;
  ci_one : forall t t' c c', c_calls w !! t = Some c -> c_calls w !! t' = Some c' ->
    in_body c = true -> in_body c' = true -> t = t';
  ci_busy : sp_busy sp = true -> exists t c, c_calls w !! t = Some c /\ in_body c = true;
  ci_calls : forall t c, c_calls w !! t = Some c -> call_ok c;
  ci_reads : forall t, t ∈ sp_reads sp <-> exists c, c_calls w !! t = Some c /\ is_read c = true;
  ci_torn : sp_torn sp ⊆ sp_reads sp;
  ci_overlap : sp_busy sp = true -> sp_reads sp ⊆ sp_torn sp;
  ci_untorn : forall t c, c_calls w !! t = Some c -> is_read c = true -> t ∉ sp_torn sp ->
    read_ok (aesd_cb (aesd_device (c_drv w))) c;
}.

Lemma inv_locked w sp t c :
  conc_inv w sp -> c_calls w !! t = Some c -> in_body c = true ->
  mx_lock (aesd_device (c_drv w)) = true.
Proof.
  intros Hinv Ht Hb. destruct (mx_lock _) eqn:E; [done |].
  destruct (ci_free _ _ Hinv E) as [Hf _]. by rewrite (Hf t c Ht) in Hb.
Qed.

Lemma body_not_read c : in_body c = true -> is_read c = false.
Proof. by destruct c. Qed.

(** *** Changes of one call *)

Definition set_call (t : nat) (oc : option call) (cs : gmap nat call) : gmap nat call :=
  match oc with Some c => <[t := c]> cs | None => delete t cs end.

Lemma lookup_set_call t oc cs t' c :
  set_call t oc cs !! t' = Some c -> t' = t /\ oc = Some c \/ t' <> t /\ cs !! t' = Some c.
Proof.
  destruct oc as [c0|]; cbn.
  - intros [[-> <-] | [? ?]]%lookup_insert_Some; auto.
  - intros [? ?]%lookup_delete_Some; auto.
Qed.

Lemma lookup_set_call_eq t oc cs : set_call t oc cs !! t = oc.
Proof. destruct oc; cbn; [apply lookup_insert_eq | apply lookup_delete_eq]. Qed.

Lemma lookup_set_call_ne t oc cs t' : t' <> t -> set_call t oc cs !! t' = cs !! t'.
Proof. intros. destruct oc; cbn; [by rewrite lookup_insert_ne | by rewrite lookup_delete_ne]. Qed.

(** The reads in progress, when one call has changed. *)
Lemma reads_set_call (t : nat) oc cs (R R' : gset nat) :
  (forall t', t' ∈ R <-> exists c, cs !! t' = Some c /\ is_read c = true) ->
  (forall t', t' <> t -> t' ∈ R' <-> t' ∈ R) ->
  (t ∈ R' <-> exists c, oc = Some c /\ is_read c = true) ->
  forall t', t' ∈ R' <-> exists c, set_call t oc cs !! t' = Some c /\ is_read c = true.
Proof.
  intros H Hne Ht t'. destruct (decide (t' = t)) as [-> | Hn].
  - by rewrite lookup_set_call_eq.
  - by rewrite lookup_set_call_ne, Hne, H by done.
Qed.

(** What the other calls are told about the device. *)
Definition same_data (s s' : driver) : Prop :=
  kheap s' = kheap s /\ aesd_cb (aesd_device s') = aesd_cb (aesd_device s) /\
  tmp_buf (aesd_device s') = tmp_buf (aesd_device s) /\
  tmp_size (aesd_device s') = tmp_size (aesd_device s).

Lemma pending_same s s' bs :
  same_data s s' -> pending_rel (kheap s) (aesd_device s) bs ->
  pending_rel (kheap s') (aesd_device s') bs.
Proof.
  intros (E1 & E2 & E3 & E4) [H1 H2 H3 H4]. split; [by rewrite E4 | done | done |].
  rewrite E1, E2, E3. done.
Qed.

Lemma body_same s s' l b c : same_data s s' -> body_ok s l b c -> body_ok s' l b c.
Proof.
  intros Hs. pose proof (pending_same s s') as Hp. destruct Hs as (E1 & E2 & E3 & E4).
  assert (same_data s s') as Hs by done.
  destruct c as [| | u n c | u n [] | | | | | |]; cbn; try done.
  - intros [-> H]. split; [done | by apply Hp].
  - intros (-> & Hc & fuel & h & cb & Hrun & Hset). split_and!; [done.. |].
    exists fuel, h, cb. rewrite E1, E2, E3, E4. done.
  - by rewrite E1, E2.
  - intros (-> & Hc & [H1 H2 H3 H4]). split_and!; [done.. |].
    split; rewrite ?E1, ?E2, ?E3, ?E4; done.
  - intros [-> H]. split; [done | by apply Hp].
Qed.

(** A call outside the locked section moves on, enters it, starts or ends; the log
    and what is stored stay as they are. *)
Lemma outside_inv s s' cs l b R T R' T' t oc :
  conc_inv (mk_conc s cs) (mk_cspec l b R T) -> same_data s s' ->
  (forall c, cs !! t = Some c -> in_body c = false) ->
  match oc with Some c => call_ok c | None => True end ->
  (if match oc with Some c => in_body c | None => false end
   then mx_lock (aesd_device s) = false /\ mx_lock (aesd_device s') = true /\
     exists c, oc = Some c /\ body_ok s l b c
   else mx_lock (aesd_device s') = mx_lock (aesd_device s)) ->
  (forall t', t' <> t -> t' ∈ R' <-> t' ∈ R) ->
  (t ∈ R' <-> exists c, oc = Some c /\ is_read c = true) ->
  T' ⊆ R' -> (b = true -> R' ⊆ T') -> (forall t', t' <> t -> t' ∉ T' -> t' ∉ T) ->
  (forall c, oc = Some c -> is_read c = true -> t ∉ T' -> read_ok (aesd_cb (aesd_device s)) c) ->
  conc_inv (mk_conc s' (set_call t oc cs)) (mk_cspec l b R' T').
Proof.
  intros [H1 H2 H3 H4 H5 H6 H7 H8 H9 H10] Hs Hout Hok Hlock HR Ht HT Hb HT' Hread. cbn in *.
  pose proof (reads_set_call t oc cs R R' H7 HR Ht) as Hreads.
  pose proof Hs as (E1 & E2 & E3 & E4).
  assert (mx_lock (aesd_device s') = false ->
    match oc with Some c => in_body c | None => false end = false /\
    mx_lock (aesd_device s) = false) as Hfree.
  { intros Hl. destruct (match oc with Some c => in_body c | None => false end); [| by rewrite <- Hlock].
    destruct Hlock as (_ & Hl' & _). congruence. }
  split; cbn; [by rewrite E1, E2 | | | | | | done.. | ].
  - intros [Hob Hl]%Hfree. destruct (H2 Hl) as [Hf Hp]. split; [| by apply (pending_same s)].
    intros t' c [[-> ->] | [_ Hc]]%lookup_set_call; [done | by eapply Hf].
  - intros t' c Hc Hbc. apply (body_same s); [done |].
    apply lookup_set_call in Hc as [[-> ->] | [_ Hc]]; [| by apply (H3 t')].
    rewrite Hbc in Hlock. destruct Hlock as (_ & _ & c' & [= ->] & Hc'). done.
  - intros t1 t2 c1 c2 Hc1 Hc2 Hb1 Hb2.
    apply lookup_set_call in Hc1 as [[-> ->] | [Hn1 Hc1]];
      apply lookup_set_call in Hc2 as [[-> E] | [Hn2 Hc2]]; [done | | |].
    + rewrite Hb1 in Hlock. destruct Hlock as (Hl & _). destruct (H2 Hl) as [Hf _].
      by rewrite (Hf _ _ Hc2) in Hb2.
    + subst oc. rewrite Hb2 in Hlock. destruct Hlock as (Hl & _). destruct (H2 Hl) as [Hf _].
      by rewrite (Hf _ _ Hc1) in Hb1.
    + by eapply H4.
  - intros Hbusy. destruct (H5 Hbusy) as (t' & c & Hc & Hbc). exists t', c. split; [| done].
    rewrite lookup_set_call_ne; [done |]. intros ->. by rewrite (Hout _ Hc) in Hbc.
  - intros t' c [[-> ->] | [_ Hc]]%lookup_set_call; [done | by eapply H6].
  - rewrite E2. intros t' c [[-> ->] | [Hn Hc]]%lookup_set_call Hr Hni; [by apply Hread |].
    apply (H10 t'); [done | done | by apply HT'].
Qed.

(** The call with the mutex moves on, leaves the locked section or ends. *)
Lemma inside_inv s s' cs l b R T l' b' T' t c oc :
  conc_inv (mk_conc s cs) (mk_cspec l b R T) -> cs !! t = Some c -> in_body c = true ->
  match oc with Some c => call_ok c /\ is_read c = false | None => True end ->
  (b' = false -> settled (kheap s') (aesd_cb (aesd_device s')) l') ->
  (if match oc with Some c => in_body c | None => false end
   then mx_lock (aesd_device s') = true /\ exists c, oc = Some c /\ body_ok s' l' b' c
   else b' = false /\ (mx_lock (aesd_device s') = false ->
          pending_rel (kheap s') (aesd_device s') (pending l'))) ->
  T ⊆ T' -> T' ⊆ R -> (b' = true -> R ⊆ T') ->
  (aesd_cb (aesd_device s') = aesd_cb (aesd_device s) \/ R ⊆ T') ->
  conc_inv (mk_conc s' (set_call t oc cs)) (mk_cspec l' b' R T').
Proof.
  intros [_ _ _ H4 _ H6 H7 _ _ H10] Ht Hbody Hok Hset Hoc HT HT' Hb Hcb. cbn in *.
  assert (forall t' c', t' <> t -> cs !! t' = Some c' -> in_body c' = false) as Hother.
  { intros t' c' Hne Hc. destruct (in_body c') eqn:E; [| done]. destruct Hne. by eapply H4. }
  split; cbn; [done | | | | | | | done.. |].
  - intros Hl. destruct (match oc with Some c => in_body c | None => false end) eqn:E.
    { destruct Hoc as [Hl' _]. congruence. }
    split; [| by apply Hoc]. intros t' c' [[-> ->] | [Hn Hc]]%lookup_set_call; [done | by eapply Hother].
  - intros t' c' Hc Hbc. apply lookup_set_call in Hc as [[-> ->] | [Hn Hc]].
    + rewrite Hbc in Hoc. by destruct Hoc as (_ & c0 & [= ->] & ?).
    + by rewrite (Hother _ _ Hn Hc) in Hbc.
  - intros t1 t2 c1 c2 [[-> _] | [Hn1 Hc1]]%lookup_set_call [[-> _] | [Hn2 Hc2]]%lookup_set_call Hb1 Hb2;
      [done | by rewrite (Hother _ _ Hn2 Hc2) in Hb2 | by rewrite (Hother _ _ Hn1 Hc1) in Hb1 ..].
  - intros ->. destruct (match oc with Some c => in_body c | None => false end) eqn:E;
      [| by destruct Hoc]. destruct Hoc as (_ & c0 & -> & _). exists t, c0.
    by rewrite lookup_set_call_eq.
  - intros t' c' [[-> ->] | [_ Hc]]%lookup_set_call; [by apply Hok | by eapply H6].
  - apply (reads_set_call t oc cs R R); [done | done |]. rewrite H7. split.
    + intros (c0 & Hc & Hr). rewrite Ht in Hc. injection Hc as <-. by rewrite body_not_read in Hr.
    + intros (c0 & -> & Hr). destruct Hok as [_ Hnr]. by rewrite Hr in Hnr.
  - intros t' c' Hc Hr Hni. apply lookup_set_call in Hc as [[-> ->] | [Hn Hc]].
    { destruct Hok as [_ Hnr]. by rewrite Hr in Hnr. }
    destruct Hcb as [-> | HR]; [apply (H10 t'); [done | done | set_solver] |].
    destruct Hni. apply HR, H7. by eexists.
Qed.

(** ** The pieces *)

Definition locked (s : driver) : driver := set_dev (set_mx_lock true (aesd_device s)) s.

Lemma take_lock_cases k `{!KernelOk k} s :
  take_lock k s = (None, s) \/
  (mx_lock (aesd_device s) = false /\ take_lock k s = (Some (locked s), locked s)).
Proof.
  unfold take_lock. destruct (mx_lock (aesd_device s)) eqn:Hl.
  - left. destruct lock_held as (e & He & ->). rewrite (proj2 (Z.eqb_neq _ _) He). cbn.
    by rewrite <- Hl, set_mx_lock_same.
  - destruct lock_free as [-> | (e & He & ->)]; [by right | left].
    rewrite (proj2 (Z.eqb_neq _ _) He). cbn. by rewrite <- Hl, set_mx_lock_same.
Qed.

Lemma relock s : mx_lock (aesd_device s) = true ->
  locked (set_dev (set_mx_lock false (aesd_device s)) s) = s.
Proof. destruct s as [? ? [] ? ?]. cbn. by intros ->. Qed.

(** The device as it would be with the mutex free. *)
Lemma free_data s l :
  settled (kheap s) (aesd_cb (aesd_device s)) l ->
  pending_rel (kheap s) (aesd_device s) (pending l) ->
  data_rel (set_dev (set_mx_lock false (aesd_device s)) s) l.
Proof. intros [Hcb Hf] Hp. split; cbn; [done | intros _ | done]. by destruct Hp; split. Qed.

(** *** Writes *)

(** All kernels free a block in the same way. *)
Lemma commit_step_kernel k k' `{!KernelOk k, !KernelOk k'} h cb p n c :
  commit_step k h cb p n c = commit_step k' h cb p n c.
Proof.
  destruct c; cbn; try done. destruct (arr_get _ _) as [e | |]; cbn [mbind outcome_bind]; try done.
  destruct (negb _); [| done]. unfold kfree. destruct (buffptr e) as [| | b |]; try done.
  case_decide as Hb; [| done]. destruct Hb as [blk Hb]. by rewrite !(kfree_ok _ _ _ Hb).
Qed.

Lemma commit_run_kernel k k' `{!KernelOk k, !KernelOk k'} fuel h cb p n c :
  commit_run k fuel h cb p n c = commit_run k' fuel h cb p n c.
Proof.
  revert h cb c. induction fuel as [|fuel IH]; intros h cb c; [done |]. cbn.
  rewrite (commit_step_kernel k k').
  destruct (commit_step k' h cb p n c) as [[[h' cb'] [c' |]] | |]; cbn; [apply IH | done..].
Qed.

(** What the storing of a command will lead to. *)
Lemma storing_start k `{!KernelOk k} s l bs i :
  stored_rel s (commands l) (pending l ++ bs) ->
  out_offs (aesd_cb (aesd_device s)) = Z.of_nat (dropped l) mod MAX ->
  memchr (kheap s) (tmp_buf (aesd_device s)) newline (tmp_size (aesd_device s)) = Ret (Some i) ->
  storing s (log_write l bs) CFull.
Proof.
  intros Hst Hfirst Hnl.
  destruct (commit_rel k s l bs Hst Hfirst) as (s2 & Hc & _ & _ & Hcb & _ & Hf).
  unfold commit_pending in Hc. rewrite Hnl in Hc. cbn [mbind outcome_bind] in Hc.
  exists 11%nat, (kheap s2), (aesd_cb (aesd_device s2)). split; [| by split].
  intros k' Hk'. rewrite (commit_run_kernel k' k). pose proof (commit_run_alone k s) as E.
  cbv zeta in E. rewrite E. destruct (release_oldest k s) as [s1 | |] eqn:Hr; try done.
  cbn [mbind outcome_bind] in *. apply release_oldest_frame in Hr.
  assert (tmp_buf (aesd_device s1) = tmp_buf (aesd_device s) /\
    tmp_size (aesd_device s1) = tmp_size (aesd_device s)) as [E1 E2] by (by rewrite Hr).
  rewrite E1, E2 in Hc. destruct (aesd_circular_buffer_add_entry _ _) as [[v cb] | |]; try done.
  cbn [mbind outcome_bind] in *. by injection Hc as <-.
Qed.

(** The first part of the locked section. *)
Lemma write_body_spec k `{!KernelOk k} s l u count :
  settled (kheap s) (aesd_cb (aesd_device s)) l ->
  pending_rel (kheap s) (aesd_device s) (pending l) ->
  mx_lock (aesd_device s) = true -> 0 <= count <= MAX_RW_COUNT ->
  exists s' r, write_body k s u count = Ret (s', r) /\
    aesd_cb (aesd_device s') = aesd_cb (aesd_device s) /\ mx_lock (aesd_device s') = true /\
    buffer_size (aesd_device s') = buffer_size (aesd_device s) /\
    settled (kheap s') (aesd_cb (aesd_device s')) l /\
    (r = inr (retval_only (- ENOMEM)) \/
     exists n, 0 <= n <= count /\ n <= Z.of_nat (length u) /\
       (r = inl (WUnlock u n false) /\ body_ok s' l false (WUnlock u n false) \/
        r = inl (WCommit u n CFull) /\ body_ok s' l true (WCommit u n CFull))).
Proof.
  intros Hset Hpend Hlock Hcount. unfold MAX_RW_COUNT in Hcount.
  set (s0 := set_dev (set_mx_lock false (aesd_device s)) s).
  pose proof (write_branches k s0 l u count (free_data s l Hset Hpend) eq_refl
    ltac:(unfold KMALLOC_LIMIT; lia)) as H.
  cbv zeta in H. change (set_dev (set_mx_lock true (aesd_device s0)) s0) with (locked s0) in H.
  unfold s0 in H at 2 3 4. rewrite relock in H by done. destruct H as (r & Hr & Hext).
  change (tmp_size (aesd_device s0)) with (tmp_size (aesd_device s)) in Hr.
  unfold write_body. rewrite Hr. cbn [mbind outcome_bind]. destruct Hset as [_ Hfirst].
  destruct r as [[e s'] | [n s']].
  - destruct Hext as (-> & _ & Hcb' & _ & Hcbeq & Hl & Hb). eexists s', _. split; [done |].
    split_and!; [done | by rewrite Hl | done | | by left]. split; [done | by rewrite Hcbeq].
  - destruct Hext as (Hn & Hu & _ & Hst & _ & Hcbeq & Hl & Hb). rewrite <- Hcbeq in Hfirst.
    destruct (memchr_stored s' _ _ Hst) as (m & Hm & Hnl). rewrite Hm. cbn [mbind outcome_bind].
    eexists s', _. split; [done |]. split_and!; [done | by rewrite Hl | done | by split; [apply Hst |] |].
    right. exists n. split; [done |]. split; [done |]. destruct m as [i|]; [right | left].
    + split; [done |]. split; [done |]. split; [apply Hnl; by eexists | by eapply storing_start].
    + split; [done |]. split; [done |]. split; [| done].
      intros Hin. apply Hnl in Hin. by destruct Hin.
Qed.

(** A step of the storing of a command. *)
Lemma storing_step k `{!KernelOk k} s l c :
  storing s l c ->
  exists h cb next,
    commit_step k (kheap s) (aesd_cb (aesd_device s)) (tmp_buf (aesd_device s))
      (tmp_size (aesd_device s)) c = Ret (h, cb, next) /\
    match next with
    | Some c => storing (set_buffer h cb s) l c
    | None => settled h cb l
    end.
Proof.
  intros (fuel & h' & cb' & Hrun & Hset). pose proof (Hrun k _) as E.
  destruct fuel as [|fuel]; [done |]. cbn [commit_run] in E.
  destruct (commit_step k _ _ _ _ c) as [[[h cb] next] | |] eqn:Hstep; try done.
  cbn [mbind outcome_bind] in E. exists h, cb, next. split; [done |]. destruct next as [c'|].
  - exists fuel, h', cb'. split; [| done]. intros k' Hk'. specialize (Hrun k' Hk').
    cbn [commit_run] in Hrun. rewrite (commit_step_kernel k' k), Hstep in Hrun. exact Hrun.
  - by injection E as <- <-.
Qed.

(** Releasing the mutex. *)
Lemma write_unlock_rel k `{!KernelOk k} s l b u n stored :
  mx_lock (aesd_device s) = true -> body_ok s l b (WUnlock u n stored) ->
  (b = false -> settled (kheap s) (aesd_cb (aesd_device s)) l) ->
  b = stored /\ data_rel (write_unlock k s stored) (log_write l (take (Z.to_nat n) u)) /\
  mx_lock (aesd_device (write_unlock k s stored)) = false.
Proof.
  intros Hl Hok Hset. destruct stored; cbn in Hok.
  - destruct Hok as (-> & Hc & [Hcb Hf]). unfold write_unlock. cbn. rewrite Hl, unlock_held.
    split_and!; [done | | done]. split; cbn; [done | intros _ | done].
    unfold log_write. rewrite decide_True by done. cbn.
    split; cbn; [done | unfold KMALLOC_LIMIT; lia | by apply not_elem_of_nil | done].
  - destruct Hok as (-> & Hc & [H1 H2 H3 H4]). destruct (Hset eq_refl) as [_ Hf].
    unfold write_unlock. cbn. rewrite Hl, unlock_held. split_and!; [done | | done].
    unfold log_write. rewrite decide_False by done. by split; cbn; [| intros _; split |].
Qed.

(** *** Reads *)

Lemma lookup_settled h cb l count pos :
  settled h cb l -> 0 <= count <= MAX_RW_COUNT -> 0 <= pos < 2 ^ 63 ->
  exists found, lookup_run 33 cb count pos RStart = Ret found /\
    match locate (lengths (commands l)) pos with
    | None => found = None
    | Some (j, o) => exists e, arr_get (entry cb) (slot cb j) = Ret e /\
        found = Some (buffptr e, o, Z.of_nat (length (log_read l pos count)))
    end.
Proof.
  intros [Hcb _] Hcount Hpos. unfold MAX_RW_COUNT in Hcount.
  rewrite lookup_run_alone by (apply Hcb || by eapply cb_rel_sizes_ok).
  rewrite (read_lookup_spec h cb l count pos Hcb) by lia. cbn [mbind outcome_bind].
  destruct (locate _ pos) as [[j o]|] eqn:E; [| by eexists].
  destruct Hcb as [Hwf Hent Hcmd Hnd]. apply locate_concat in E as (c & Hc & _ & _); [| lia].
  destruct (Forall2_lookup_r _ _ _ _ _ Hent Hc) as (e & He & _).
  assert (arr_get (entry cb) (slot cb j) = Ret e) as Hget.
  { apply arr_get_Ret. split; [apply slot_range | by apply lookup_slot_contents]. }
  rewrite Hget. cbn [mbind outcome_bind]. eexists. split; [done |]. by exists e.
Qed.

(** The copy of a read that has overlapped nothing. *)
Lemma copy_settled k `{!KernelOk k} s l count pos p off n :
  settled (kheap s) (aesd_cb (aesd_device s)) l ->
  0 <= count <= MAX_RW_COUNT -> 0 <= pos < 2 ^ 63 ->
  lookup_run 33 (aesd_cb (aesd_device s)) count pos RStart = Ret (Some (p, off, n)) ->
  let bs := log_read l pos count in
  let missing := k_copy_to_user k n in
  n = Z.of_nat (length bs) /\
  copy_out k (kheap s) p off n pos =
  Ret (if missing =? 0 then (n, bs, pos + n)
       else (- EFAULT, take (Z.to_nat (n - missing)) bs, pos)).
Proof.
  intros Hset Hcount Hpos Hrun. destruct (lookup_settled _ _ _ count pos Hset Hcount Hpos)
    as (found & E & Hloc). rewrite Hrun in E. injection E as <-.
  destruct (locate _ pos) as [[j o]|] eqn:El; [| done]. destruct Hloc as (e & He & [= -> -> ->]).
  cbv zeta. split; [done |]. unfold MAX_RW_COUNT in Hcount.
  rewrite <- (read_copy_spec k s l j o count pos (st_cb _ _ _ Hset) ltac:(lia) Hpos El).
  unfold read_copy. by rewrite He.
Qed.

(** A step of a read. *)
Lemma lookup_step_ok cb count pos r :
  read_ok cb (RLookup count pos r) ->
  exists x, lookup_step cb count pos r = Ret x /\
    match x with
    | inl r => read_ok cb (RLookup count pos r)
    | inr found => lookup_run 33 cb count pos RStart = Ret found
    end.
Proof.
  intros (fuel & found & Hrun & Hall). destruct fuel as [|fuel]; [done |].
  cbn [lookup_run] in Hrun. destruct (lookup_step cb count pos r) as [[r' | f] | |]; try done;
    cbn [mbind outcome_bind] in Hrun.
  - eexists. split; [done |]. by exists fuel, found.
  - injection Hrun as ->. by eexists.
Qed.

(** ** The steps

    Calls outside the locked section that are no reads. *)
Lemma outside_quiet s s' cs sp t c oc :
  conc_inv (mk_conc s cs) sp -> same_data s s' ->
  mx_lock (aesd_device s') = mx_lock (aesd_device s) -> cs !! t = Some c ->
  in_body c = false -> is_read c = false ->
  match oc with Some c' => call_ok c' /\ in_body c' = false /\ is_read c' = false | None => True end ->
  conc_inv (mk_conc s' (set_call t oc cs)) sp.
Proof.
  intros Hinv Hs Hl Ht Hb Hr Hoc. destruct sp as [l b R T].
  pose proof Hinv as [_ _ _ _ _ _ H7 H8 H9 _]. cbn in H7, H8, H9.
  eapply outside_inv; try done.
  - intros c0 Hc. rewrite Ht in Hc. by injection Hc as <-.
  - destruct oc; [apply Hoc | done].
  - destruct oc as [c'|]; [| done]. by destruct Hoc as (_ & -> & _).
  - split.
    + intros (c0 & Hc & Hr0)%H7. rewrite Ht in Hc. injection Hc as <-. congruence.
    + intros (c0 & -> & Hr0). destruct Hoc as (_ & _ & Hr'). congruence.
  - intros c0 -> Hr0. destruct Hoc as (_ & _ & Hr'). congruence.
Qed.

Lemma same_data_refl s : same_data s s.
Proof. done. Qed.

(** A call takes the mutex. *)
Lemma lock_inv s cs sp t c c' :
  conc_inv (mk_conc s cs) sp -> mx_lock (aesd_device s) = false -> cs !! t = Some c ->
  is_read c = false -> call_ok c' -> is_read c' = false ->
  match c' with WBody _ _ | IBody _ => True | _ => False end ->
  conc_inv (mk_conc (locked s) (<[t := c']> cs)) sp.
Proof.
  intros Hinv Hl Ht Hr Hok Hr' Hbody. destruct sp as [l b R T].
  pose proof Hinv as [_ H2 _ _ H5 _ H7 H8 H9 _]. cbn in H2, H5, H7, H8, H9.
  destruct (H2 Hl) as [Hf Hp].
  assert (in_body c' = true) as Hb by (by destruct c').
  change (<[t := c']> cs) with (set_call t (Some c') cs). eapply outside_inv; try done.
  - intros c0 Hc. by eapply Hf.
  - rewrite Hb. split; [done |]. split; [done |]. exists c'. split; [done |].
    assert (b = false) as ->.
    { destruct b; [| done]. destruct (H5 eq_refl) as (t0 & c0 & Hc & Hbc).
      by rewrite (Hf _ _ Hc) in Hbc. }
    by destruct c'.
  - split.
    + intros (c0 & Hc & Hr0)%H7. rewrite Ht in Hc. injection Hc as <-. congruence.
    + intros (c0 & [= <-] & Hr0). congruence.
  - intros c0 [= <-] Hr0. congruence.
Qed.

(** A read moves on. *)
Lemma read_inv s cs sp t c c' :
  conc_inv (mk_conc s cs) sp -> cs !! t = Some c -> is_read c = true -> is_read c' = true ->
  call_ok c' -> (t ∉ sp_torn sp -> read_ok (aesd_cb (aesd_device s)) c') ->
  conc_inv (mk_conc s (<[t := c']> cs)) sp.
Proof.
  intros Hinv Ht Hr Hr' Hok Hread. destruct sp as [l b R T].
  pose proof Hinv as [_ _ _ _ _ _ H7 H8 H9 _]. cbn in H7, H8, H9.
  assert (in_body c' = false) as Hb by (by destruct c').
  change (<[t := c']> cs) with (set_call t (Some c') cs). eapply outside_inv; try done.
  - intros c0 Hc. rewrite Ht in Hc. injection Hc as <-. by destruct c.
  - by rewrite Hb.
  - split; [intros _; by exists c' | intros _; apply H7; by exists c].
  - by intros c0 [= <-] _ ?%Hread.
Qed.

(** A read ends. *)
Lemma read_end_inv s cs l b R T t c :
  conc_inv (mk_conc s cs) (mk_cspec l b R T) -> cs !! t = Some c -> is_read c = true ->
  conc_inv (mk_conc s (delete t cs)) (mk_cspec l b (R ∖ {[t]}) (T ∖ {[t]})).
Proof.
  intros Hinv Ht Hr. pose proof Hinv as [_ _ _ _ _ _ H7 H8 H9 _]. cbn in H7, H8, H9.
  change (delete t cs) with (set_call t None cs). eapply outside_inv; try done.
  - intros c0 Hc. rewrite Ht in Hc. injection Hc as <-. by destruct c.
  - set_solver.
  - split; [set_solver | by intros (? & ? & _)].
  - set_solver.
  - intros Hb%H9. set_solver.
  - set_solver.
Qed.

(** A read starts. *)
Lemma read_start_inv s cs l b R T t c :
  conc_inv (mk_conc s cs) (mk_cspec l b R T) -> cs !! t = None -> call_starts c ->
  is_read c = true ->
  conc_inv (mk_conc s (<[t := c]> cs)) (mk_cspec l b ({[t]} ∪ R) (if b then {[t]} ∪ T else T)).
Proof.
  intros Hinv Ht Hs Hr. pose proof Hinv as [H1 _ _ _ _ _ H7 H8 H9 _]. cbn in H1, H7, H8, H9.
  assert (t ∉ R) as HtR by (intros (c0 & Hc & _)%H7; congruence).
  destruct c as [| | | | | | count pos r | | |]; try done. destruct r; try done. destruct Hs as [Hc Hp].
  change (<[t := ?c]> cs) with (set_call t (Some c) cs). eapply outside_inv; try done.
  - intros c0 Hc0. congruence.
  - set_solver.
  - split; [intros _; by eexists | set_solver].
  - destruct b; set_solver.
  - intros ->. specialize (H9 eq_refl). set_solver.
  - destruct b; set_solver.
  - intros c0 [= <-] _ Hni. destruct b; [set_solver |].
    destruct (lookup_settled _ _ _ count pos (H1 eq_refl) Hc Hp) as (found & E & _).
    exists 33%nat, found. done.
Qed.

(** *** The call in the locked section *)

Lemma write_body_sim k `{!KernelOk k} s cs sp t u count s' c' :
  conc_inv (mk_conc s cs) sp -> cs !! t = Some (WBody u count) ->
  write_body k s u count = Ret (s', inl c') ->
  exists sp', conc_spec sp (Go t (WBody u count) c') sp' /\
    conc_inv (mk_conc s' (<[t := c']> cs)) sp'.
Proof.
  intros Hinv Ht Hstep. destruct sp as [l b R T].
  pose proof (inv_locked _ _ t _ Hinv Ht eq_refl) as Hlock.
  pose proof (ci_calls _ _ Hinv t _ Ht) as Hok. cbn in Hlock, Hok.
  destruct (ci_body _ _ Hinv t _ Ht eq_refl) as [E Hpend]. cbn in E, Hpend. subst b.
  destruct (write_body_spec k s l u count (ci_settled _ _ Hinv eq_refl) Hpend Hlock Hok)
    as (s1 & r & E & Hcb & Hl & _ & Hset & Hr). rewrite Hstep in E. injection E as <- <-.
  pose proof (ci_torn _ _ Hinv) as HT. cbn in HT.
  destruct Hr as [? | (n & Hn & Hu & [[[= ->] Hbody] | [[= ->] Hbody]])]; [done | |].
  - exists (mk_cspec l false R T). split; [apply cspec_pending; [done.. | apply Hbody] |].
    change (<[t := ?c]> cs) with (set_call t (Some c) cs).
    eapply inside_inv; [exact Hinv | exact Ht | done | | done | | done.. | by left].
    + split; [cbn; lia | done].
    + split; [done |]. by eexists.
  - exists (mk_cspec l true R R). split; [apply cspec_storing; [done.. | apply Hbody] |].
    change (<[t := ?c]> cs) with (set_call t (Some c) cs).
    eapply inside_inv; [exact Hinv | exact Ht | done | | done | | done.. | by left].
    + split; [cbn; lia | done].
    + split; [done |]. by eexists.
Qed.

Lemma commit_sim k `{!KernelOk k} s cs sp t u n c s' c' :
  conc_inv (mk_conc s cs) sp -> cs !! t = Some (WCommit u n c) ->
  call_step k s (WCommit u n c) = Ret (s', inl c') ->
  conc_inv (mk_conc s' (<[t := c']> cs)) sp.
Proof.
  intros Hinv Ht Hstep. destruct sp as [l b R T].
  pose proof (inv_locked _ _ t _ Hinv Ht eq_refl) as Hlock.
  pose proof (ci_calls _ _ Hinv t _ Ht) as Hok. cbn in Hlock, Hok.
  destruct (ci_body _ _ Hinv t _ Ht eq_refl) as (E & Hc & Hsto). cbn in E, Hc, Hsto. subst b.
  destruct (storing_step k s _ c Hsto) as (h & cb & next & E & Hnext).
  cbn [call_step] in Hstep. rewrite E in Hstep. cbn [mbind outcome_bind] in Hstep.
  injection Hstep as <- <-. pose proof (ci_torn _ _ Hinv) as HT.
  pose proof (ci_overlap _ _ Hinv eq_refl) as HR. cbn in HT, HR.
  change (<[t := ?c]> cs) with (set_call t (Some c) cs).
  eapply inside_inv; [exact Hinv | exact Ht | done | | done | | done.. | by right].
  - by destruct next.
  - destruct next as [c'|]; cbn [in_body]; (split; [done |]); by eexists.
Qed.

Lemma unlock_sim k `{!KernelOk k} s cs sp t u n stored :
  conc_inv (mk_conc s cs) sp -> cs !! t = Some (WUnlock u n stored) ->
  exists sp', conc_spec sp (Go t (WUnlock u n stored) (WLoad n)) sp' /\
    conc_inv (mk_conc (write_unlock k s stored) (<[t := WLoad n]> cs)) sp'.
Proof.
  intros Hinv Ht. destruct sp as [l b R T].
  pose proof (inv_locked _ _ t _ Hinv Ht eq_refl) as Hlock.
  pose proof (ci_calls _ _ Hinv t _ Ht) as Hok. cbn in Hlock, Hok.
  pose proof (ci_body _ _ Hinv t _ Ht eq_refl) as Hbody. cbn in Hbody.
  destruct (write_unlock_rel k s l b u n stored Hlock Hbody (ci_settled _ _ Hinv))
    as (-> & [Hcb Hp Hf] & Hl).
  exists (mk_cspec (log_write l (take (Z.to_nat n) u)) false R T). split; [apply cspec_write |].
  change (<[t := ?c]> cs) with (set_call t (Some c) cs).
  pose proof (ci_torn _ _ Hinv) as HT. cbn in HT.
  eapply inside_inv; [exact Hinv | exact Ht | done | | intros _; by split | | done.. |].
  - split; [cbn; lia | done].
  - by split.
  - left. by destruct stored.
Qed.

(** The locked part of the ioctl. *)
Lemma seek_body w sp t sk :
  conc_inv w sp -> c_calls w !! t = Some (IBody sk) ->
  sp_busy sp = false /\
  seek_locked (aesd_cb (aesd_device (c_drv w))) sk =
  Ret match log_seek (sp_log sp) (write_cmd sk) (write_cmd_offset sk) with
      | Some p => (0, Some p)
      | None => (- EINVAL, None)
      end.
Proof.
  intros Hinv Ht. destruct (ci_calls _ _ Hinv t _ Ht) as [Hw Ho]. destruct sk as [wc off]. cbn in Hw, Ho.
  destruct (ci_body _ _ Hinv t _ Ht eq_refl) as [Hb Hp]. split; [done |].
  pose proof (ci_settled _ _ Hinv Hb) as Hset.
  pose proof (seek_locked_spec _ _ _ (st_cb _ _ _ Hset) wc off Hw Ho) as ->.
  cbn [write_cmd write_cmd_offset].
  pose proof (seek_answer_data _ (sp_log sp) wc off (free_data _ _ Hset Hp) Hw) as Hans.
  unfold seek_answer in Hans. cbn in Hans. by rewrite Hans.
Qed.

(** ** Every step is one of the abstract device *)

(** The wait for the mutex, in a write or a request. *)
Lemma lock_sim k `{!KernelOk k} s cs sp t c c' s' r :
  conc_inv (mk_conc s cs) sp -> cs !! t = Some c -> in_body c = false -> is_read c = false ->
  call_ok c' -> is_read c' = false -> match c' with WBody _ _ | IBody _ => True | _ => False end ->
  match take_lock k s with
  | (None, s) => Ret (s, inr (retval_only (- ERESTARTSYS)))
  | (Some s, _) => Ret (s, inl c')
  end = Ret (s', r) ->
  r = inr (retval_only (- ERESTARTSYS)) /\ conc_inv (mk_conc s' (delete t cs)) sp \/
  r = inl c' /\ conc_inv (mk_conc s' (<[t := c']> cs)) sp.
Proof.
  intros Hinv Ht Hb Hr Hok Hr' Hc' Hstep.
  destruct (take_lock_cases k s) as [E | [Hl E]]; rewrite E in Hstep; injection Hstep as <- <-.
  - left. split; [done |]. change (delete t cs) with (set_call t None cs). by eapply outside_quiet.
  - right. split; [done |]. by eapply lock_inv.
Qed.

Lemma sim_go k `{!KernelOk k} s cs sp t c s' c' :
  conc_inv (mk_conc s cs) sp -> cs !! t = Some c -> call_step k s c = Ret (s', inl c') ->
  exists sp', conc_spec sp (Go t c c') sp' /\ conc_inv (mk_conc s' (<[t := c']> cs)) sp'.
Proof.
  intros Hinv Ht Hstep. pose proof (ci_calls _ _ Hinv t c Ht) as Hok.
  destruct c as [u count | u count | u n c | u n st | r | r old | count pos r | count pos p off n
    | sk | sk]; cbn [call_step] in Hstep.
  - exists sp. destruct (lock_sim k s cs sp t _ (WBody u count) s' (inl c') Hinv Ht) as [[E _] | [E H]];
      [done.. | |]; [discriminate E |]. injection E as ->. destruct sp. split; [by apply cspec_go | done].
  - by eapply write_body_sim.
  - exists sp. split; [destruct sp; by apply cspec_go |]. by eapply commit_sim.
  - injection Hstep as <- <-. by apply unlock_sim.
  - injection Hstep as <- <-. exists sp. split; [destruct sp; by apply cspec_go |].
    change (<[t := ?c]> cs) with (set_call t (Some c) cs).
    eapply outside_quiet; [done.. |]. split_and!; [exact Hok | done..].
  - done.
  - exists sp. split; [destruct sp; by apply cspec_go |].
    destruct (lookup_step _ count pos r) as [x | |] eqn:E; [| done..].
    assert (t ∉ sp_torn sp -> forall found, x = inr found ->
      lookup_run 33 (aesd_cb (aesd_device s)) count pos RStart = Ret found) as Hend.
    { intros Hni found ->. pose proof (ci_untorn _ _ Hinv t _ Ht eq_refl Hni) as Hro.
      destruct (lookup_step_ok _ _ _ _ Hro) as (x' & E' & Hx). cbn in E'. rewrite E in E'.
      by injection E' as <-. }
    cbn [mbind outcome_bind] in Hstep. destruct x as [r' | [[[p off] n] |]]; [| | done];
      injection Hstep as <- <-; (eapply read_inv; [done.. |]).
    + intros Hni. pose proof (ci_untorn _ _ Hinv t _ Ht eq_refl Hni) as Hro.
      destruct (lookup_step_ok _ _ _ _ Hro) as (x' & E' & Hx). cbn in E'. rewrite E in E'.
      by injection E' as <-.
    + intros Hni. by apply Hend.
  - by destruct (copy_out _ _ _ _ _ _) as [[[? ?] ?] | |].
  - exists sp. destruct (lock_sim k s cs sp t _ (IBody sk) s' (inl c') Hinv Ht) as [[E _] | [E H]];
      [done.. | |]; [discriminate E |]. injection E as ->. destruct sp. split; [by apply cspec_go | done].
  - by destruct (seek_locked _ _) as [[? ?] | |].
Qed.

(** The ends of reads. *)
Lemma lookup_end_sim s cs sp t count pos r :
  conc_inv (mk_conc s cs) sp -> cs !! t = Some (RLookup count pos r) ->
  lookup_step (aesd_cb (aesd_device s)) count pos r = Ret (inr None) ->
  exists sp', conc_spec sp (End_ t (RLookup count pos r) (mk_answer 0 [] (Some pos))) sp' /\
    conc_inv (mk_conc s (delete t cs)) sp'.
Proof.
  intros Hinv Ht Hstep. destruct sp as [l b R T].
  exists (mk_cspec l b (R ∖ {[t]}) (T ∖ {[t]})). split; [| by eapply read_end_inv].
  apply cspec_read_end. intros Hni. split; [| done].
  pose proof (ci_calls _ _ Hinv t _ Ht) as [Hc Hp].
  pose proof (ci_untorn _ _ Hinv t _ Ht eq_refl Hni) as Hro.
  assert (b = false) as ->.
  { destruct b; [| done]. destruct Hni. apply (ci_overlap _ _ Hinv eq_refl), (ci_reads _ _ Hinv). by eexists. }
  destruct (lookup_step_ok _ _ _ _ Hro) as (x' & E' & Hx). cbn in E'. rewrite Hstep in E'.
  injection E' as <-.
  destruct (lookup_settled _ _ _ count pos (ci_settled _ _ Hinv eq_refl) Hc Hp) as (found & E & Hloc).
  cbn in E, Hx, Hloc. rewrite Hx in E. injection E as <-. unfold log_bytes. rewrite <- sumZ_lengths.
  apply locate_None; [apply lengths_nonneg | lia |].
  destruct (locate _ pos) as [[j o]|]; [| done]. by destruct Hloc as (? & _ & [=]).
Qed.

Lemma copy_end_sim k `{!KernelOk k} s cs sp t count pos p off n r bs pos' :
  conc_inv (mk_conc s cs) sp -> cs !! t = Some (RCopy count pos p off n) ->
  copy_out k (kheap s) p off n pos = Ret (r, bs, pos') ->
  exists sp', conc_spec sp (End_ t (RCopy count pos p off n) (mk_answer r bs (Some pos'))) sp' /\
    conc_inv (mk_conc s (delete t cs)) sp'.
Proof.
  intros Hinv Ht Hcopy. destruct sp as [l b R T].
  exists (mk_cspec l b (R ∖ {[t]}) (T ∖ {[t]})). split; [| by eapply read_end_inv].
  apply cspec_read. intros Hni.
  pose proof (ci_calls _ _ Hinv t _ Ht) as [Hc Hp].
  pose proof (ci_untorn _ _ Hinv t _ Ht eq_refl Hni) as Hro.
  assert (b = false) as ->.
  { destruct b; [| done]. destruct Hni. apply (ci_overlap _ _ Hinv eq_refl), (ci_reads _ _ Hinv). by eexists. }
  destruct (copy_settled k s l count pos p off n (ci_settled _ _ Hinv eq_refl) Hc Hp Hro) as [Hn Hread].
  rewrite Hcopy in Hread. cbv zeta. rewrite <- Hn.
  destruct (_ =? 0); injection Hread as -> -> ->; [by left | right].
  eexists. split; [apply prefix_take | done].
Qed.

Lemma nomem_sim s s' cs sp t u count :
  conc_inv (mk_conc s cs) sp -> cs !! t = Some (WBody u count) -> mx_lock (aesd_device s') = true ->
  aesd_cb (aesd_device s') = aesd_cb (aesd_device s) ->
  settled (kheap s') (aesd_cb (aesd_device s')) (sp_log sp) ->
  exists sp', conc_spec sp (End_ t (WBody u count) (retval_only (- ENOMEM))) sp' /\
    conc_inv (mk_conc s' (delete t cs)) sp'.
Proof.
  intros Hinv Ht Hl Hcb Hset. destruct sp as [l b R T].
  destruct (ci_body _ _ Hinv t _ Ht eq_refl) as [E _]. cbn in E. subst b.
  exists (mk_cspec l false R T). split; [apply cspec_nomem |].
  change (delete t cs) with (set_call t None cs). pose proof (ci_torn _ _ Hinv) as HT.
  eapply inside_inv; [exact Hinv | exact Ht | done | done | done | | done.. | by left].
  split; [done | congruence].
Qed.

Lemma seek_sim k `{!KernelOk k} s cs sp t sk s' a :
  conc_inv (mk_conc s cs) sp -> cs !! t = Some (IBody sk) ->
  call_step k s (IBody sk) = Ret (s', inr a) ->
  exists sp', conc_spec sp (End_ t (IBody sk) a) sp' /\ conc_inv (mk_conc s' (delete t cs)) sp'.
Proof.
  intros Hinv Ht Hstep. pose proof (inv_locked _ _ t _ Hinv Ht eq_refl) as Hl.
  destruct (seek_body _ _ t sk Hinv Ht) as [Hb E]. destruct sp as [l b R T]. cbn in Hb, E, Hl. subst b.
  destruct (ci_body _ _ Hinv t _ Ht eq_refl) as [_ Hp]. cbn in Hp.
  pose proof (ci_settled _ _ Hinv eq_refl) as Hset. pose proof (ci_torn _ _ Hinv) as HT.
  cbn [call_step] in Hstep. rewrite E in Hstep. exists (mk_cspec l false R T).
  pose proof (cspec_seek l R T t sk) as Hs.
  assert (forall s1, s1 = set_dev (set_mx_lock (k_mutex_unlock k (mx_lock (aesd_device s)))
    (aesd_device s)) s -> conc_inv (mk_conc s1 (delete t cs)) (mk_cspec l false R T)) as Hinv'.
  { intros s1 ->. change (delete t cs) with (set_call t None cs).
    eapply inside_inv; [exact Hinv | exact Ht | done | done | done | | done.. | by left].
    split; [done |]. intros _. by destruct Hp; split. }
  destruct (log_seek l _ _) as [p|]; cbn [mbind outcome_bind] in Hstep; injection Hstep as <- <-;
    (split; [done | by apply Hinv']).
Qed.

Lemma sim_end k `{!KernelOk k} s cs sp t c s' a :
  conc_inv (mk_conc s cs) sp -> cs !! t = Some c -> call_step k s c = Ret (s', inr a) ->
  exists sp', conc_spec sp (End_ t c a) sp' /\ conc_inv (mk_conc s' (delete t cs)) sp'.
Proof.
  intros Hinv Ht Hstep. pose proof (ci_calls _ _ Hinv t c Ht) as Hok.
  destruct c as [u count | u count | u n c | u n st | r | r old | count pos r | count pos p off n
    | sk | sk]; cbn [call_step] in Hstep.
  - exists sp. destruct (lock_sim k s cs sp t _ (WBody u count) s' (inr a) Hinv Ht) as [[E H] | [E _]];
      [done.. | |]; [| discriminate E]. injection E as ->. destruct sp.
    split; [by apply cspec_interrupted | done].
  - pose proof (inv_locked _ _ t _ Hinv Ht eq_refl) as Hlock.
    destruct (ci_body _ _ Hinv t _ Ht eq_refl) as [Hb Hpend].
    destruct (write_body_spec k s (sp_log sp) u count (ci_settled _ _ Hinv Hb) Hpend Hlock Hok)
      as (s1 & r & E & Hcb & Hl & _ & Hset & Hr).
    rewrite Hstep in E. injection E as <- <-.
    destruct Hr as [[= ->] | (n & _ & _ & [[[=] _] | [[=] _]])]. by eapply nomem_sim.
  - by destruct (commit_step _ _ _ _ _ c) as [[[h cb] [c' |]] | |].
  - done.
  - done.
  - injection Hstep as <- <-. exists sp. split; [destruct sp; apply cspec_written |].
    change (delete t cs) with (set_call t None cs). by eapply outside_quiet.
  - destruct (lookup_step _ count pos r) as [[r' | [[[p off] n] |]] | |] eqn:E; try done.
    injection Hstep as <- <-. by apply lookup_end_sim.
  - destruct (copy_out k (kheap s) p off n pos) as [[[r bs] pos'] | |] eqn:E; try done.
    injection Hstep as <- <-. by eapply copy_end_sim.
  - exists sp. destruct (lock_sim k s cs sp t _ (IBody sk) s' (inr a) Hinv Ht) as [[E H] | [E _]];
      [done.. | |]; [| discriminate E]. injection E as ->. destruct sp.
    split; [by apply cspec_interrupted | done].
  - by eapply seek_sim.
Qed.

(** No step of a call leaves defined behaviour, but of a read that has overlapped the
    storing of a command. *)
Lemma call_safe k `{!KernelOk k} w sp t c :
  conc_inv w sp -> c_calls w !! t = Some c -> (is_read c = true -> t ∉ sp_torn sp) ->
  safe (call_step k (c_drv w) c).
Proof.
  intros Hinv Ht Hcase. pose proof (ci_calls _ _ Hinv t c Ht) as Hok.
  assert (is_read c = true -> sp_busy sp = false) as Hbusy.
  { intros Hr. destruct (sp_busy sp) eqn:E; [| done]. destruct (Hcase Hr).
    apply (ci_overlap _ _ Hinv E), (ci_reads _ _ Hinv). by eexists. }
  destruct c as [u count | u count | u n c | u n st | r | r old | count pos r | count pos p off n
    | sk | sk]; cbn [call_step]; try (by eexists).
  - destruct (take_lock_cases k (c_drv w)) as [-> | [_ ->]]; by eexists.
  - pose proof (inv_locked _ _ t _ Hinv Ht eq_refl) as Hlock.
    destruct (ci_body _ _ Hinv t _ Ht eq_refl) as [Hb Hpend].
    destruct (write_body_spec k _ _ u count (ci_settled _ _ Hinv Hb) Hpend Hlock Hok)
      as (s1 & r & -> & _). by eexists.
  - destruct (ci_body _ _ Hinv t _ Ht eq_refl) as (_ & _ & Hsto).
    destruct (storing_step k _ _ c Hsto) as (h & cb & next & -> & _). by eexists.
  - pose proof (ci_untorn _ _ Hinv t _ Ht eq_refl (Hcase eq_refl)) as Hro.
    destruct (lookup_step_ok _ _ _ _ Hro) as (x & -> & _). by eexists.
  - destruct Hok as [Hc Hp]. pose proof (ci_untorn _ _ Hinv t _ Ht eq_refl (Hcase eq_refl)) as Hro.
    destruct (copy_settled k _ _ count pos p off n (ci_settled _ _ Hinv (Hbusy eq_refl)) Hc Hp Hro)
      as [_ ->]. cbv zeta. cbn [mbind outcome_bind]. destruct (_ =? 0); by eexists.
  - destruct (take_lock_cases k (c_drv w)) as [-> | [_ ->]]; by eexists.
  - destruct (seek_body w sp t sk Hinv Ht) as [_ ->]. by destruct (log_seek _ _ _); eexists.
Qed.

Lemma conc_inv_step w ev w' sp :
  conc_step w ev w' -> conc_inv w sp -> exists sp', conc_spec sp ev sp' /\ conc_inv w' sp'.
Proof.
  intros Hstep Hinv.
  destruct Hstep as [s cs t c Ht Hc | k s cs t c s' c' Hk Ht Hstep | k s cs t c s' a Hk Ht Hstep].
  - destruct sp as [l b R T]. destruct (is_read c) eqn:Hr.
    + eexists. split; [by apply cspec_start_read | by apply read_start_inv].
    + exists (mk_cspec l b R T). split; [by apply cspec_start |].
      change (<[t := c]> cs) with (set_call t (Some c) cs).
      pose proof Hinv as [_ _ _ _ _ _ H7 H8 H9 _]. cbn in H7, H8, H9.
      assert (in_body c = false) as Hb by (by destruct c).
      eapply outside_inv; try done.
      * intros c0 Hc0. congruence.
      * by destruct c as [| | | | | | ? ? [] | | |].
      * by rewrite Hb.
      * split; [intros (c0 & Hc0 & _)%H7; congruence | intros (c0 & [= <-] & ?); congruence].
      * intros c0 [= <-] ?. congruence.
  - by eapply (sim_go k).
  - by eapply (sim_end k).
Qed.
