(* ===== verification/CharDriverConcProps.v ===== *)
(** Concurrent calls of the driver: mutual exclusion, the device as a log whose
    writes take effect one after the other, what reads that overlap the storing of a
    command can do, and the size, which is updated outside the mutex. *)

From S2P Require Import Prelude CMem LogSpec CircularBuffer Kernel CharDriver.
From S2P Require Import CharDriverRel CharDriverRefine CharDriverSeek CharDriverSystem.
From S2P Require Import CharDriverModule CharDriverProps CharDriverConc CharDriverConcInv.

(** ** The device's size *)

(** What a call has stored and not yet added to the size. *)
Definition owed (c : call) : Z := match c with WLoad r | WStore r _ => r | _ => 0 end.

Definition total_owed (cs : gmap nat call) : Z := map_fold (fun _ c n => owed c + n) 0 cs.

Lemma total_owed_insert cs t c :
  cs !! t = None -> total_owed (<[t := c]> cs) = owed c + total_owed cs.
Proof. intros Ht. unfold total_owed. rewrite map_fold_insert_L; [done | | done]. intros. lia. Qed.

Lemma total_owed_delete cs t c :
  cs !! t = Some c -> total_owed cs = owed c + total_owed (delete t cs).
Proof.
  intros Ht. rewrite <- (total_owed_insert (delete t cs) t c) by apply lookup_delete_eq.
  by rewrite insert_delete_id.
Qed.

Lemma total_owed_update cs t c c' :
  cs !! t = Some c -> total_owed (<[t := c']> cs) = total_owed cs - owed c + owed c'.
Proof.
  intros Ht. rewrite (total_owed_delete cs t c Ht), <- insert_delete_eq.
  rewrite total_owed_insert by apply lookup_delete_eq. lia.
Qed.

Lemma total_owed_nonneg w sp : conc_inv w sp -> 0 <= total_owed (c_calls w).
Proof.
  intros Hinv.
  apply (map_fold_weak_ind (fun n m => (forall t c, m !! t = Some c -> 0 <= owed c) -> 0 <= n)).
  - done.
  - intros t c m n Hn IH Hm. pose proof (Hm t c ltac:(apply lookup_insert_eq)) as Hc.
    assert (0 <= n); [| lia]. apply IH. intros t' c' Ht'. apply (Hm t').
    apply lookup_insert_Some. right. split; [intros ->; congruence | done].
  - intros t c Hc. pose proof (ci_calls _ _ Hinv t c Hc) as Hk. destruct c; cbn in *; lia.
Qed.

(** As long as the bytes written can be counted at all, the size and what is owed to
    it never exceed them; the same for a size read and about to be written back. *)
Definition size_inv (w : conc) (l : log) : Prop :=
  written l < 2 ^ 64 ->
  0 <= buffer_size (aesd_device (c_drv w)) /\
  buffer_size (aesd_device (c_drv w)) + total_owed (c_calls w) <= written l /\
  forall t r old, c_calls w !! t = Some (WStore r old) ->
    0 <= old /\ old + total_owed (c_calls w) <= written l.

(** The size is as before, and the call owes [r] more bytes, which the log has
    gained. *)
Lemma size_inv_go s s' cs l l' t c c' :
  size_inv (mk_conc s cs) l -> cs !! t = Some c ->
  buffer_size (aesd_device s') = buffer_size (aesd_device s) ->
  written l' - written l = owed c' - owed c -> written l <= written l' ->
  (forall r old, c' = WStore r old -> old = buffer_size (aesd_device s)) ->
  size_inv (mk_conc s' (<[t := c']> cs)) l'.
Proof.
  intros Hinv Ht Hb Howed Hle Hold Hsmall. destruct Hinv as (H1 & H2 & H3); [lia |].
  cbn in *. rewrite Hb, (total_owed_update cs t c c' Ht). split_and!; [done | lia |].
  intros t' r old [[-> ->] | [_ Hc]]%lookup_insert_Some.
  - cbn [owed] in *. rewrite (Hold r old eq_refl). lia.
  - specialize (H3 t' r old Hc). lia.
Qed.

Lemma size_inv_end s s' cs l t c :
  size_inv (mk_conc s cs) l -> cs !! t = Some c -> owed c = 0 ->
  buffer_size (aesd_device s') = buffer_size (aesd_device s) ->
  size_inv (mk_conc s' (delete t cs)) l.
Proof.
  intros Hinv Ht Howed Hb Hsmall. destruct Hinv as (H1 & H2 & H3); [done |]. cbn in *.
  pose proof (total_owed_delete cs t c Ht). rewrite Hb. split_and!; [done | lia |].
  intros t' r old [_ Hc]%lookup_delete_Some. specialize (H3 t' r old Hc). lia.
Qed.

Lemma take_lock_size k s :
  buffer_size (aesd_device (snd (take_lock k s))) = buffer_size (aesd_device s) /\
  forall s1, fst (take_lock k s) = Some s1 -> buffer_size (aesd_device s1) = buffer_size (aesd_device s).
Proof.
  unfold take_lock. destruct (k_mutex_lock_interruptible k _) as [r held].
  destruct (negb _); split; cbn; try done. by intros s1 [= <-].
Qed.

(** The steps but the last of a write leave the size alone. *)
Lemma step_keeps_size k `{!KernelOk k} s cs sp t c s' r :
  conc_inv (mk_conc s cs) sp -> cs !! t = Some c -> call_step k s c = Ret (s', r) ->
  match c with WStore _ _ => True | _ => buffer_size (aesd_device s') = buffer_size (aesd_device s) end.
Proof.
  intros Hinv Ht Hstep.
  destruct c as [u count | u count | u n c | u n st | r0 | r0 old | count pos p | count pos p off n
    | sk | sk]; cbn [call_step] in Hstep; try done.
  - destruct (take_lock k s) as [[s1|] s2] eqn:E; injection Hstep as <- <-;
      destruct (take_lock_size k s) as [H1 H2]; rewrite E in H1, H2; [by apply H2 | done].
  - pose proof (inv_locked _ _ t _ Hinv Ht eq_refl) as Hlock.
    destruct (ci_body _ _ Hinv t _ Ht eq_refl) as [Hb Hpend].
    destruct (write_body_spec k s (sp_log sp) u count (ci_settled _ _ Hinv Hb) Hpend Hlock
      (ci_calls _ _ Hinv t _ Ht)) as (s1 & r1 & E & _ & _ & Hsize & _).
    rewrite Hstep in E. by injection E as <- <-.
  - destruct (commit_step _ _ _ _ _ c) as [[[h cb] next] | |]; try done. by injection Hstep as <- <-.
  - injection Hstep as <- <-. by destruct st.
  - by injection Hstep as <- <-.
  - destruct (lookup_step _ count pos p) as [x | |]; try done. by injection Hstep as <- <-.
  - destruct (copy_out _ _ _ _ _ _) as [[[? ?] ?] | |]; try done. by injection Hstep as <- <-.
  - destruct (take_lock k s) as [[s1|] s2] eqn:E; injection Hstep as <- <-;
      destruct (take_lock_size k s) as [H1 H2]; rewrite E in H1, H2; [by apply H2 | done].
  - destruct (seek_locked _ _) as [[? ?] | |]; try done. by injection Hstep as <- <-.
Qed.

(** What an event does to the log. *)
Lemma spec_log sp ev sp' :
  conc_spec sp ev sp' ->
  match ev with
  | Go _ (WUnlock u n _) c' => c' = WLoad n /\ sp_log sp' = log_write (sp_log sp) (take (Z.to_nat n) u)
  | _ => sp_log sp' = sp_log sp
  end.
Proof. destruct 1; try done. by destruct c. Qed.

Lemma size_go k `{!KernelOk k} s cs sp sp' t c s' c' :
  conc_inv (mk_conc s cs) sp -> size_inv (mk_conc s cs) (sp_log sp) -> cs !! t = Some c ->
  call_step k s c = Ret (s', inl c') -> conc_spec sp (Go t c c') sp' ->
  size_inv (mk_conc s' (<[t := c']> cs)) (sp_log sp').
Proof.
  intros Hinv Hsize Ht Hstep Hspec. pose proof (step_keeps_size k s cs sp t c s' (inl c') Hinv Ht Hstep) as Hb.
  pose proof (ci_calls _ _ Hinv t c Ht) as Hok. apply spec_log in Hspec.
  assert (forall l', written l' = written (sp_log sp) + (owed c' - owed c) -> owed c <= owed c' ->
    match c with WStore _ _ => False | _ => True end ->
    (forall r old, c' = WStore r old -> old = buffer_size (aesd_device s)) ->
    size_inv (mk_conc s' (<[t := c']> cs)) l') as Hgo.
  { intros l' Hw Hle Hc Hold. eapply size_inv_go; [exact Hsize | exact Ht | | lia | lia | exact Hold].
    by destruct c. }
  destruct c as [u count | u count | u n c | u n st | r | r old | count pos p | count pos p off n
    | sk | sk]; cbn [call_step] in Hstep; try rewrite Hspec.
  - destruct (take_lock k s) as [[s1|] s2]; [| done]. injection Hstep as <- <-. apply Hgo; cbn; done || lia.
  - unfold write_body in Hstep. destruct (if 0 <? _ then _ else _) as [[[e s1] | [m s1]] | |]; try done.
    cbn [mbind outcome_bind] in Hstep.
    destruct (memchr _ _ _ _) as [[i|] | |]; try done; injection Hstep as <- <-; apply Hgo; cbn; done || lia.
  - destruct (commit_step _ _ _ _ _ c) as [[[h cb] [c1|]] | |]; try done; injection Hstep as <- <-;
      apply Hgo; cbn; done || lia.
  - destruct Hspec as [-> ->]. cbn in Hok. apply Hgo; cbn [owed]; try done; [| lia].
    rewrite written_log_write, length_take. lia.
  - injection Hstep as <- <-. apply Hgo; cbn; try done; [lia |]. by intros ? ? [= _ <-].
  - done.
  - destruct (lookup_step _ count pos p) as [[r' | [[[q off] n] |]] | |]; try done;
      injection Hstep as <- <-; apply Hgo; cbn; done || lia.
  - by destruct (copy_out _ _ _ _ _ _) as [[[? ?] ?] | |].
  - destruct (take_lock k s) as [[s1|] s2]; [| done]. injection Hstep as <- <-. apply Hgo; cbn; done || lia.
  - by destruct (seek_locked _ _) as [[? ?] | |].
Qed.

Lemma size_end k `{!KernelOk k} s cs sp t c s' a :
  conc_inv (mk_conc s cs) sp -> size_inv (mk_conc s cs) (sp_log sp) -> cs !! t = Some c ->
  call_step k s c = Ret (s', inr a) -> 0 <= total_owed (delete t cs) ->
  size_inv (mk_conc s' (delete t cs)) (sp_log sp).
Proof.
  intros Hinv Hsize Ht Hstep Hnonneg.
  pose proof (step_keeps_size k s cs sp t c s' (inr a) Hinv Ht Hstep) as Hb.
  destruct c as [u count | u count | u n c | u n st | r | r old | count pos p | count pos p off n
    | sk | sk]; try (by eapply size_inv_end).
  injection Hstep as <- <-. intros Hsmall. destruct Hsize as (H1 & H2 & H3); [done |]. cbn in *.
  pose proof (total_owed_delete cs t _ Ht) as Htot. cbn [owed] in Htot.
  destruct (H3 t r old Ht) as [Hold Hle]. pose proof (ci_calls _ _ Hinv t _ Ht) as Hr. cbn in Hr.
  rewrite u64_small by lia. split_and!; [lia | lia |].
  intros t' r' old' [_ Hc]%lookup_delete_Some. specialize (H3 t' r' old' Hc). lia.
Qed.

(** ** Runs from the loaded module *)

Lemma conc_sim w ev w' sp :
  conc_step w ev w' -> conc_inv w sp /\ size_inv w (sp_log sp) ->
  exists sp', conc_spec sp ev sp' /\ conc_inv w' sp' /\ size_inv w' (sp_log sp').
Proof.
  intros Hstep [Hinv Hsize]. destruct (conc_inv_step _ _ _ _ Hstep Hinv) as (sp' & Hspec & Hinv').
  exists sp'. split; [done | split; [done |]]. pose proof (spec_log _ _ _ Hspec) as Hlog.
  destruct Hstep as [s cs t c Ht Hc | k s cs t c s' c' Hk Ht Hstep | k s cs t c s' a Hk Ht Hstep].
  - rewrite Hlog. intros Hsmall. destruct (Hsize Hsmall) as (H1 & H2 & H3). cbn in *.
    rewrite total_owed_insert by done. assert (owed c = 0) as -> by (by destruct c).
    split_and!; [done | lia |]. intros t' r old [[-> ->] | [_ Hc']]%lookup_insert_Some; [done |].
    by apply (H3 t' r old).
  - by eapply (size_go k).
  - rewrite Hlog. eapply (size_end k); try done. exact (total_owed_nonneg _ _ Hinv').
Qed.

Lemma conc_init_inv k s0 s :
  aesd_init_module k s0 = (0, s) ->
  conc_inv (mk_conc s ∅) cspec_init /\ size_inv (mk_conc s ∅) empty_log.
Proof.
  intros Hinit. pose proof (wr_dev _ _ (init_world_rel _ _ _ Hinit)) as Hrel. cbn in Hrel. split.
  - split; cbn; try done; try (by intros; simplify_map_eq).
    + intros _. split; [apply (dev_cb _ _ Hrel) | apply (dev_first _ _ Hrel)].
    + intros Hl. split; [by intros; simplify_map_eq | by apply (dev_pending _ _ Hrel)].
    + intros t. split; [set_solver | by intros (c & Hc & _); simplify_map_eq].
  - intros _. cbn. rewrite (dev_total _ _ Hrel). split_and!; [done | done |].
    by intros; simplify_map_eq.
Qed.

Lemma conc_reach k s0 s evs w :
  aesd_init_module k s0 = (0, s) -> run conc_step (mk_conc s ∅) evs w ->
  exists sp, run conc_spec cspec_init evs sp /\ conc_inv w sp /\ size_inv w (sp_log sp).
Proof.
  intros Hinit Hrun.
  eapply (run_simulation conc_step conc_spec (fun w sp => conc_inv w sp /\ size_inv w (sp_log sp)));
    [exact conc_sim | exact Hrun |]. by eapply conc_init_inv.
Qed.

(** ** Properties *)

(** C13. Concurrent calls are linearizable. However the system calls of any number of
    processes interleave (at the mutex, at every access of a read to the buffer and
    of the storing of a command to it, at the release of the mutex and at the two
    accesses to the size), the device behaves as the abstract log: each write takes
    effect in one go when it releases the mutex, seeks answer from the log as it then
    is, errors leave the log alone, and a read returns what the log holds at its
    position unless it has overlapped the storing of a command, when nothing is said
    of its answer. The buffer stands for that log whenever no command is being stored,
    and the device does when no call is left in progress. *)
Theorem concurrent_calls_linearizable k s0 s evs w :
  aesd_init_module k s0 = (0, s) -> run conc_step (mk_conc s ∅) evs w ->
  exists sp, run conc_spec cspec_init evs sp /\
    (sp_busy sp = false ->
       cb_rel (kheap (c_drv w)) (aesd_cb (aesd_device (c_drv w))) (commands (sp_log sp))) /\
    (c_calls w = ∅ -> data_rel (c_drv w) (sp_log sp)).
Proof.
  intros Hinit Hrun. destruct (conc_reach k s0 s evs w Hinit Hrun) as (sp & Hspec & Hinv & _).
  exists sp. split; [done |]. split; [by intros Hb%(ci_settled _ _ Hinv); apply Hb |]. intros Hno.
  assert (sp_busy sp = false) as Hb.
  { destruct (sp_busy sp) eqn:E; [| done]. destruct (ci_busy _ _ Hinv E) as (t & c & Hc & _).
    by rewrite Hno, lookup_empty in Hc. }
  destruct (ci_settled _ _ Hinv Hb) as [H1 H2]. split; [done | | done].
  intros Hl. by apply (ci_free _ _ Hinv).
Qed.

(** The moves of a call, one after the other. *)
Definition moves (n t : nat) : list action := replicate n (Next_ t).

(** A whole write of a command of five bytes, when the buffer is not full and when it
    is. *)
Definition command (c : byte) (t : nat) : action := Begin t (WLock (line c 5) 5).
Definition stores (t : nat) : list action := command x61 t :: moves 13 t.
Definition replaces (t : nat) : list action := command x61 t :: moves 16 t.

(** Two writers of five bytes each, the second between the first one's two accesses
    to the size, and a read of the first command before the second is stored. *)
Definition lost_update : list action :=
  [command x61 0; command x62 1] ++ moves 12 0 ++ Begin 2 (RLookup 100 0 RStart) :: moves 5 2 ++
  moves 12 1 ++ moves 1 0 ++ moves 1 1.

Lemma lost_update_run :
  exists evs w, schedule K (mk_conc loaded ∅) lost_update = Some (evs, w) /\
    c_calls w = ∅ /\ buffer_size (aesd_device (c_drv w)) = 5 /\
    sumZ (e_size <$> entry (aesd_cb (aesd_device (c_drv w)))) = 10.
Proof. eexists _, _. split; [by vm_compute |]. split_and!; by vm_compute. Qed.

Lemma concurrent_calls_linearizable_witness :
  exists evs w sp, run conc_step (mk_conc loaded ∅) evs w /\ run conc_spec cspec_init evs sp /\
    data_rel (c_drv w) (sp_log sp).
Proof.
  destruct lost_update_run as (evs & w & Hs & Hc & _).
  pose proof (schedule_run K _ _ _ _ Hs) as Hrun.
  destruct (concurrent_calls_linearizable K boot loaded evs w eq_refl Hrun) as (sp & Hsp & _ & Hd).
  exists evs, w, sp. exact (conj Hrun (conj Hsp (Hd Hc))).
Defined.

(** Nineteen commands have been stored and the next writer has incremented [out_offs],
    to 10, when a read starts. *)
Definition out_of_range : list action :=
  concat (replicate 10 (stores 0)) ++ concat (replicate 9 (replaces 0)) ++
  command x62 0 :: moves 6 0 ++ Begin 1 (RLookup 100 0 RStart) :: moves 1 1.

(** What a schedule leads to. *)
Definition after (acts : list action) : list conc_event * conc :=
  default ([], mk_conc loaded ∅) (schedule K (mk_conc loaded ∅) acts).

Lemma after_run acts :
  match schedule K (mk_conc loaded ∅) acts with Some _ => true | None => false end = true ->
  run conc_step (mk_conc loaded ∅) (fst (after acts)) (snd (after acts)).
Proof.
  intros Hs. apply (schedule_run K _ acts). unfold after.
  by destruct (schedule K (mk_conc loaded ∅) acts) as [[evs w]|].
Qed.

Lemma out_of_range_run :
  run conc_step (mk_conc loaded ∅) (fst (after out_of_range)) (snd (after out_of_range)) /\
  c_calls (snd (after out_of_range)) !! 1%nat = Some (RLookup 100 0 (RTest 10 0)) /\
  call_step K (c_drv (snd (after out_of_range))) (RLookup 100 0 (RTest 10 0)) = Fault OutOfBounds.
Proof. split; [apply after_run; by vm_compute |]. split; by vm_compute. Qed.

(** A read has found the oldest of ten commands when a writer frees it. *)
Definition freed_early : list action :=
  concat (replicate 10 (stores 0)) ++ Begin 1 (RLookup 100 0 RStart) :: moves 4 1 ++
  command x62 0 :: moves 4 0.

Definition freed_copy : call :=
  default (WLoad 0) (c_calls (snd (after freed_early)) !! 1%nat).

Lemma freed_early_run :
  run conc_step (mk_conc loaded ∅) (fst (after freed_early)) (snd (after freed_early)) /\
  c_calls (snd (after freed_early)) !! 1%nat = Some freed_copy /\ is_read freed_copy = true /\
  call_step K (c_drv (snd (after freed_early))) freed_copy = Fault UseAfterFree.
Proof. split; [apply after_run; by vm_compute |]. split_and!; by vm_compute. Qed.

(** C28. Under any interleaving at most one call runs in the locked section, and the
    mutex is then held; and whatever step a process takes next, under any kernel, it
    does not leave defined behaviour, unless it is the step of a read that has
    overlapped the storing of a command. These reads do leave it: there is a run
    after which the next step of a read is on [entry[10]], past the array, because
    [out_offs] is 10 between its increment and its return to 0; and one after which
    a read copies from a block already freed. *)
Theorem concurrent_calls_safe k s0 s evs w :
  aesd_init_module k s0 = (0, s) -> run conc_step (mk_conc s ∅) evs w ->
  (forall t t' c c', c_calls w !! t = Some c -> c_calls w !! t' = Some c' ->
     in_body c = true -> in_body c' = true -> t = t' /\ mx_lock (aesd_device (c_drv w)) = true) /\
  (exists sp, run conc_spec cspec_init evs sp /\
    forall k' t c, KernelOk k' -> c_calls w !! t = Some c ->
      (is_read c = true -> t ∉ sp_torn sp) -> safe (call_step k' (c_drv w) c)) /\
  forall f, f = OutOfBounds \/ f = UseAfterFree ->
    exists evs' w' t c, run conc_step (mk_conc loaded ∅) evs' w' /\
      c_calls w' !! t = Some c /\ is_read c = true /\ call_step K (c_drv w') c = Fault f.
Proof.
  intros Hinit Hrun. destruct (conc_reach k s0 s evs w Hinit Hrun) as (sp & Hspec & Hinv & _).
  split_and!.
  - intros t t' c c' Ht Ht' Hc Hc'. split; [by apply (ci_one _ _ Hinv t t' c c') |].
    by apply (inv_locked w sp t c).
  - exists sp. split; [done |]. intros k' t c Hk' Ht Hcase. by apply (call_safe k' w sp t).
  - intros f [-> | ->].
    + destruct out_of_range_run as (Hrun' & Hc & Hf).
      exact (ex_intro _ _ (ex_intro _ _ (ex_intro _ _ (ex_intro _ _
        (conj Hrun' (conj Hc (conj eq_refl Hf))))))).
    + destruct freed_early_run as (Hrun' & Hc & Hr & Hf).
      exact (ex_intro _ _ (ex_intro _ _ (ex_intro _ _ (ex_intro _ _
        (conj Hrun' (conj Hc (conj Hr Hf))))))).
Qed.

Lemma concurrent_calls_safe_witness :
  exists evs w, run conc_step (mk_conc loaded ∅) evs w /\
    exists sp, run conc_spec cspec_init evs sp /\
    forall k' t c, KernelOk k' -> c_calls w !! t = Some c ->
      (is_read c = true -> t ∉ sp_torn sp) -> safe (call_step k' (c_drv w) c).
Proof.
  destruct out_of_range_run as [Hrun _].
  exists (fst (after out_of_range)), (snd (after out_of_range)). split; [exact Hrun |].
  exact (proj1 (proj2 (concurrent_calls_safe K boot loaded _ _ eq_refl Hrun))).
Defined.

(** C29. The device's size is updated by a read and a write outside the mutex. In every
    interleaving it is at most the number of bytes written (while that fits the
    type), but updates are lost: there is a run of two complete writes of five
    bytes, with nothing left in progress, after which ten bytes are stored and the
    size, which [SEEK_END] uses, is five. *)
Theorem size_updates_can_be_lost k s0 s evs w :
  aesd_init_module k s0 = (0, s) -> run conc_step (mk_conc s ∅) evs w ->
  (exists sp, run conc_spec cspec_init evs sp /\
     (written (sp_log sp) < 2 ^ 64 ->
      buffer_size (aesd_device (c_drv w)) <= written (sp_log sp))) /\
  exists evs' w', run conc_step (mk_conc loaded ∅) evs' w' /\ c_calls w' = ∅ /\
    buffer_size (aesd_device (c_drv w')) = 5 /\
    sumZ (e_size <$> entry (aesd_cb (aesd_device (c_drv w')))) = 10.
Proof.
  intros Hinit Hrun. split.
  - destruct (conc_reach k s0 s evs w Hinit Hrun) as (sp & Hspec & Hinv & Hsize).
    exists sp. split; [done |]. intros Hsmall. destruct (Hsize Hsmall) as (H1 & H2 & _).
    pose proof (total_owed_nonneg _ _ Hinv). lia.
  - destruct lost_update_run as (evs' & w' & Hs & Hc & Hb & Hsum).
    exists evs', w'. exact (conj (schedule_run K _ _ _ _ Hs) (conj Hc (conj Hb Hsum))).
Qed.

Lemma size_updates_can_be_lost_witness :
  exists evs w, run conc_step (mk_conc loaded ∅) evs w /\
    exists sp, run conc_spec cspec_init evs sp /\
     (written (sp_log sp) < 2 ^ 64 ->
      buffer_size (aesd_device (c_drv w)) <= written (sp_log sp)).
Proof.
  destruct lost_update_run as (evs & w & Hs & _).
  pose proof (schedule_run K _ _ _ _ Hs) as Hrun. exists evs, w. split; [exact Hrun |].
  exact (proj1 (size_updates_can_be_lost K boot loaded evs w eq_refl Hrun)).
Defined.
