(* ===== verification/CharDriverMemory.v ===== *)
(** Who owns the driver's heap: between calls every block the driver allocated is
    the bytes of a stored command or the pending bytes, and nothing else, as long
    as no allocation has failed and every write has stored something. *)

From S2P Require Import Prelude CMem LogSpec CircularBuffer Kernel CharDriver.
From S2P Require Import CharDriverRel CharDriverRefine CharDriverSystem CharDriverModule.
From S2P Require Import CharDriverProps.

Abbreviation nset := (gset nat) (only parsing).

(** The block of the pending bytes, and all the blocks the device points to. *)
Definition tmp_block (d : aesd_dev) : nset :=
  match tmp_buf d with PBlk b => {[b]} | _ => ∅ end.

Definition entry_blocks (d : aesd_dev) : nset := list_to_set (blocks (contents (aesd_cb d))).

Definition owned (d : aesd_dev) : nset := entry_blocks d ∪ tmp_block d.

(** The heap is [base], the blocks that are none of the driver's, and what the device
    owns; a device without pending bytes owns no block for them. *)
Record accounted (base : nset) (s : driver) : Prop := {
  ac_heap : dom (kheap s) = base ∪ owned (aesd_device s);
  ac_base : base ## owned (aesd_device s);
  ac_idle : tmp_size (aesd_device s) = 0 -> tmp_block (aesd_device s) = ∅;
}.

(** While bytes are being stored: the heap is accounted for, the pending block is in
    no entry. *)
Record held_apart (base : nset) (s : driver) : Prop := {
  ha_heap : dom (kheap s) = base ∪ owned (aesd_device s);
  ha_base : base ## owned (aesd_device s);
  ha_apart : tmp_block (aesd_device s) ## entry_blocks (aesd_device s);
}.

(** ** Accesses do not change which blocks exist *)

Lemma store_bytes_dom h p off bs h' : store_bytes h p off bs = Ret h' -> dom h' =@{nset} dom h.
Proof.
  unfold store_bytes. destruct p as [| | b | lit]; [done | | | ].
  - destruct bs; [by intros [= ->] | done].
  - destruct (h !! b) as [blk|] eqn:E; [| done]. destruct (_ && _); [| done]. intros [= <-].
    by apply dom_insert_lookup_L.
  - destruct bs; [by intros [= ->] | done].
Qed.

Lemma fill_dom k h p off c u n h1 h2 m :
  memset h p off c n = Ret h1 -> copy_from_user k h1 p off u n = Ret (h2, m) ->
  dom h2 =@{nset} dom h.
Proof.
  intros H1%store_bytes_dom H2. unfold copy_from_user in H2.
  destruct (k_copy_from_user k u n) as [bs m0]. apply bind_Ret_inv in H2 as (h3 & H3 & H2).
  injection H2 as <- <-. by rewrite (store_bytes_dom _ _ _ _ _ H3), H1.
Qed.

(** ** Facts on sets of blocks *)

(** The pending block moves from [b] to [b'], or stays. *)
Lemma set_moved (D B E : nset) b b' :
  D = B ∪ (E ∪ {[b]}) -> B ## E ∪ {[b]} -> b ∉ E -> b' = b \/ b' ∉ D ->
  {[b']} ∪ (D ∖ {[b]}) = B ∪ (E ∪ {[b']}) /\ B ## E ∪ {[b']} /\ {[b']} ## E.
Proof.
  intros -> HB HE [-> | Hb']; [split_and!; [apply set_eq; intros x |..]|].
  - destruct (decide (x = b)); set_solver.
  - done.
  - set_solver.
  - split_and!; [apply set_eq; intros x |..]; [destruct (decide (x = b)) |..]; set_solver.
Qed.

(** A first pending block appears. *)
Lemma set_started (D B E : nset) b :
  D = B ∪ E -> B ## E -> b ∉ D ->
  {[b]} ∪ D = B ∪ (E ∪ {[b]}) /\ B ## E ∪ {[b]} /\ {[b]} ## E.
Proof. intros -> HB Hb. split_and!; [apply set_eq; intros x |..]; set_solver. Qed.

(** The pending block becomes an entry. *)
Lemma set_committed (D B E : nset) b :
  D = B ∪ (E ∪ {[b]}) -> D = B ∪ (E ∪ {[b]} ∪ ∅).
Proof. intros ->. by rewrite (right_id_L ∅ (∪)). Qed.

(** The same when the oldest entry [o] is freed. *)
Lemma set_rotated (D B E : nset) o b :
  D = B ∪ (({[o]} ∪ E) ∪ {[b]}) -> B ## ({[o]} ∪ E) ∪ {[b]} -> o ∉ E -> o <> b ->
  D ∖ {[o]} = B ∪ (E ∪ {[b]} ∪ ∅) /\ B ## E ∪ {[b]} ∪ ∅.
Proof. intros -> HB Ho Hne. split; [apply set_eq; intros x; destruct (decide (x = o)) |]; set_solver. Qed.

(** ** Storing the user's bytes *)

Section Write.
Context (k : kernel) `{!KernelOk k} (base : nset).

Lemma extend_apart s u count n s1 bs :
  accounted base s -> pending_rel (kheap s) (aesd_device s) bs -> bs <> [] ->
  0 <= count <= KMALLOC_LIMIT ->
  write_extend k s u count = Ret (inr (n, s1)) ->
  held_apart base s1.
Proof.
  intros [Hheap Hbase _] [Hsize Hlim _ Hheld] Hne Hcount H. unfold KMALLOC_LIMIT in *.
  assert (0 < Z.of_nat (length bs)) by (destruct bs; [done | cbn [length]; lia]).
  destruct (Hheld Hne) as [[_ ?] | (b & Hptr & [rest Hb] & Hown)]; [done |].
  unfold write_extend in H. rewrite Hptr, Hsize, u64_small in H by lia.
  unfold krealloc in H. rewrite decide_True in H by eauto. cbn [mbind outcome_bind] in H.
  destruct (krealloc_ok (kheap s) b _ (Z.of_nat (length bs) + count) Hb ltac:(lia))
    as [E | (b' & Hb' & _ & E)]; rewrite E in H; cbn [is_null] in H; [done |].
  apply bind_Ret_inv in H as (h1 & Hh1 & H). apply bind_Ret_inv in H as ([h2 m] & Hh2 & H).
  injection H as _ <-. pose proof (fill_dom _ _ _ _ _ _ _ _ _ _ Hh1 Hh2) as Hdom. clear Hh1 Hh2 E.
  assert (b' = b \/ b' ∉ dom (kheap s)) as Hfresh
    by (destruct Hb' as [-> | Hb']; [by left | right; by apply not_elem_of_dom]).
  assert (b ∉ entry_blocks (aesd_device s)) as Hown'
    by (unfold entry_blocks; by rewrite elem_of_list_to_set).
  unfold owned, tmp_block in *. rewrite Hptr in *.
  destruct (set_moved _ _ _ _ _ Hheap Hbase Hown' Hfresh) as (H1 & H2 & H3).
  split; cbn; [by rewrite Hdom, dom_insert_L, dom_delete_L | done | done].
Qed.

Lemma start_apart s u count n s1 :
  accounted base s -> tmp_block (aesd_device s) = ∅ -> 0 <= count <= KMALLOC_LIMIT ->
  write_start k s u count = Ret (inr (n, s1)) ->
  held_apart base s1 /\ (count = 0 -> tmp_block (aesd_device s1) = ∅).
Proof.
  intros [Hheap Hbase _] Hidle Hcount H. unfold write_start in H. unfold owned in *.
  rewrite Hidle, (right_id_L ∅ (∪)) in Hheap, Hbase.
  destruct (decide (count = 0)) as [-> | Hnz].
  - rewrite kmalloc_zero in H. cbn [is_null] in H.
    apply bind_Ret_inv in H as (h1 & Hh1 & H). apply bind_Ret_inv in H as ([h2 m] & Hh2 & H).
    injection H as _ <-. pose proof (fill_dom _ _ _ _ _ _ _ _ _ _ Hh1 Hh2) as Hdom.
    rewrite <- (right_id_L ∅ (∪) (entry_blocks (aesd_device s))) in Hheap, Hbase.
    split; [| done]. split; [exact (eq_trans Hdom Hheap) | done | apply disjoint_empty_l].
  - destruct (kmalloc_ok (kheap s) count) as [E | (b & Hb & _ & E)]; [lia | |];
      rewrite E in H; cbn [is_null] in H; [done |].
    apply bind_Ret_inv in H as (h1 & Hh1 & H). apply bind_Ret_inv in H as ([h2 m] & Hh2 & H).
    injection H as _ <-. pose proof (fill_dom _ _ _ _ _ _ _ _ _ _ Hh1 Hh2) as Hdom.
    clear Hh1 Hh2 E. apply not_elem_of_dom in Hb.
    destruct (set_started _ _ _ _ Hheap Hbase Hb) as (H1 & H2 & H3).
    split; [| done].
    split; [exact (eq_trans Hdom (eq_trans (dom_insert_L _ _ _) H1)) | done | done].
Qed.

(** ** The newline test *)

(** The entries of a buffer that has just been given [e]. *)
Lemma pushed_blocks cb e b :
  cb_wf cb -> buffptr e = PBlk b -> full cb = false ->
  list_to_set (blocks (contents (added cb e))) =@{nset}
    list_to_set (blocks (contents cb)) ∪ {[b]}.
Proof.
  intros Hwf He Hf. rewrite contents_added by done. unfold push.
  rewrite (kept_snoc cb) by done. unfold kept. rewrite Hf, blocks_app, list_to_set_app_L.
  rewrite (blocks_cons _ b) by done. cbn. by rewrite (right_id_L ∅ (∪)).
Qed.

Lemma replaced_blocks cb o rest e b :
  cb_wf cb -> buffptr e = PBlk b -> full cb = true -> contents cb = o :: rest ->
  list_to_set (blocks (contents (added cb e))) =@{nset} list_to_set (blocks rest) ∪ {[b]}.
Proof.
  intros Hwf He Hf Hc. rewrite contents_added by done. unfold push.
  rewrite (kept_snoc cb) by done. unfold kept. rewrite Hf, Hc. cbn [tail].
  rewrite blocks_app, list_to_set_app_L.
  rewrite (blocks_cons _ b) by done. cbn. by rewrite (right_id_L ∅ (∪)).
Qed.

Lemma commit_apart s cs p s2 :
  stored_rel s cs p -> held_apart base s ->
  (p = [] -> tmp_block (aesd_device s) = ∅) ->
  commit_pending k s = Ret s2 -> accounted base s2.
Proof.
  intros [[Hwf Hent _ Hnd] Hsize _ Hheld] [Hheap Hbase Hapart] Hidle H.
  unfold commit_pending in H. apply bind_Ret_inv in H as (found & Hfound & H).
  destruct found as [i|].
  2: { injection H as <-. split; [done.. |]. intros H0. apply Hidle. rewrite Hsize in H0.
       by destruct p. }
  destruct Hheld as [[Hp ->] | (b & Hp & _ & Hown)].
  { rewrite Hp, Hsize in Hfound. done. }
  unfold owned, tmp_block in *. rewrite Hp in *.
  apply bind_Ret_inv in H as (s1 & Hs1 & H).
  unfold release_oldest in Hs1. set (cb := aesd_cb (aesd_device s)) in *.
  destruct (full cb) eqn:Hf.
  - destruct (contents_replace_oldest cb Hwf Hf) as (o & rest & Hc & Hget & Hset).
    rewrite Hget in Hs1. cbn [mbind outcome_bind] in Hs1.
    unfold entry_blocks in Hheap, Hbase. fold cb in Hheap, Hbase. rewrite Hc in Hent, Hnd, Hown, Hheap, Hbase.
    destruct cs as [|c cs]; [by apply Forall2_cons_nil_inv in Hent |].
    apply Forall2_cons_1 in Hent as [Ho _].
    destruct (entry_holds_block _ _ _ Ho) as (bo & Hbo & ro & Hro).
    rewrite (blocks_cons _ _ _ Hbo) in Hnd, Hown, Hheap, Hbase.
    apply NoDup_cons in Hnd as [Hnin _]. apply not_elem_of_cons in Hown as [Hne Hown].
    rewrite Hbo in Hs1. cbn [is_null negb] in Hs1. unfold kfree in Hs1.
    rewrite decide_True in Hs1 by eauto. rewrite (kfree_ok _ _ _ Hro) in Hs1.
    destruct (Hset (set_e_size 0 o)) as (es & Hes & Hwf' & Hc').
    cbn [mbind outcome_bind] in Hs1. rewrite Hes in Hs1. injection Hs1 as <-.
    cbn [aesd_device set_dev set_kheap set_aesd_cb aesd_cb] in H.
    rewrite add_entry_eq in H by done. injection H as <-.
    destruct (set_rotated _ _ (list_to_set (blocks rest)) bo b Hheap Hbase) as [H1 H2];
      [by rewrite elem_of_list_to_set | done |].
    split; unfold owned, entry_blocks, tmp_block;
      cbn [kheap set_dev set_kheap aesd_device set_tmp set_aesd_cb aesd_cb tmp_buf].
    + erewrite replaced_blocks; [| exact Hwf' | exact Hp | exact Hf | exact Hc'].
      by rewrite dom_delete_L.
    + by erewrite replaced_blocks; [| exact Hwf' | exact Hp | exact Hf | exact Hc'].
    + done.
  - injection Hs1 as <-. fold cb in H. rewrite add_entry_eq in H by done. injection H as <-.
    split; unfold owned, entry_blocks, tmp_block;
      cbn [kheap set_dev set_kheap aesd_device set_tmp set_aesd_cb aesd_cb tmp_buf].
    1-2: erewrite pushed_blocks; [| exact Hwf | exact Hp | exact Hf];
      by rewrite (right_id_L ∅ (∪)).
    done.
Qed.

(** ** A whole write *)

(** The call got as far as storing bytes, or did not start: what is left out are a
    failed allocation and a write none of whose bytes could be copied. *)
Definition stored_something (count r : Z) : Prop :=
  0 < r \/ (count = 0 /\ r = 0) \/ r = - ERESTARTSYS.

Lemma accounted_same s s' :
  kheap s' = kheap s -> aesd_cb (aesd_device s') = aesd_cb (aesd_device s) ->
  tmp_buf (aesd_device s') = tmp_buf (aesd_device s) ->
  tmp_size (aesd_device s') = tmp_size (aesd_device s) ->
  accounted base s -> accounted base s'.
Proof.
  intros Hh Hc Hb Hs [H1 H2 H3]. split; unfold owned, entry_blocks, tmp_block in *;
    rewrite ?Hh, ?Hc, ?Hb, ?Hs; done.
Qed.

(** Both branches, for the pending bytes [p]. *)
Lemma stored_apart s p u count n s1 :
  accounted base s -> pending_rel (kheap s) (aesd_device s) p ->
  0 <= count <= KMALLOC_LIMIT -> n <= Z.of_nat (length u) -> stored_something count n -> 0 <= n ->
  (if 0 <? tmp_size (aesd_device s) then write_extend k s u count else write_start k s u count)
    = Ret (inr (n, s1)) ->
  held_apart base s1 /\ (p ++ take (Z.to_nat n) u = [] -> tmp_block (aesd_device s1) = ∅).
Proof.
  intros Hacc Hpend Hcount Hu Hn Hpos H. pose proof (pend_size _ _ _ Hpend) as Hsize.
  destruct (Z.ltb_spec 0 (tmp_size (aesd_device s))) as [Hlt | Hge].
  - assert (p <> []) as Hp by (intros ->; rewrite Hsize in Hlt; done).
    split; [by eapply extend_apart | by intros [? _]%app_nil].
  - assert (p = []) as -> by (destruct p; [done | cbn [length] in Hsize; lia]).
    destruct (start_apart s u count n s1) as [H1 H2]; [done | | done.. |].
    { apply (ac_idle _ _ Hacc). by rewrite Hsize. }
    split; [done |]. intros E%(f_equal length). rewrite length_app, length_take in E.
    cbn [length] in E. apply H2. unfold stored_something, ERESTARTSYS in Hn. lia.
Qed.

Lemma aesd_write_accounted s l f u count r s' :
  dev_rel s l -> private_data f = Some AESD_DEVICE -> 0 <= count <= KMALLOC_LIMIT ->
  accounted base s -> aesd_write k s f (Some u) count = Ret (r, s') ->
  stored_something count r -> accounted base s'.
Proof.
  intros Hrel Hf Hcount Hacc H Hr.
  destruct (aesd_write_spec k s l f u count Hrel Hf Hcount) as (r' & s'' & E & Hres).
  rewrite E in H. injection H as <- <-. destruct Hres as [| s'' | n s'' Hn Hu _ Hfree _ _]; [done | |].
  { unfold stored_something, ERESTARTSYS, ENOMEM in Hr. lia. }
  unfold aesd_write, deref_dev in E. rewrite Hf in E. cbn [mbind outcome_bind] in E.
  rewrite Hfree in E. destruct lock_free as [Hlock | (e & He & Hlock)]; rewrite Hlock in E.
  2: { rewrite (proj2 (Z.eqb_neq _ _) He) in E. injection E as E _. unfold ERESTARTSYS in E. lia. }
  cbn [Z.eqb negb] in E.
  set (s1 := set_dev (set_mx_lock true (aesd_device s)) s) in *.
  destruct (write_branches k s l u count (dev_data _ _ Hrel) Hfree Hcount) as (st & Hst & Hext).
  fold s1 in Hst, Hext. cbn [aesd_device set_dev s1 set_mx_lock tmp_size] in E.
  rewrite Hst in E. cbn [mbind outcome_bind] in E. destruct st as [[e s2] | [n2 s2]].
  { destruct Hext as [-> _]. injection E as E _. unfold ENOMEM in E. lia. }
  destruct Hext as (_ & _ & _ & Hstored & _).
  apply bind_Ret_inv in E as (s3 & Hs3 & E). injection E as -> <-.
  destruct (stored_apart s1 (pending l) u count n s2) as [Hap Hnone];
    [by apply (accounted_same s) | | done | done | done | lia | exact Hst |].
  - destruct (dev_pending _ _ Hrel Hfree). by split.
  - apply (accounted_same s3); [done.. |]. by eapply commit_apart.
Qed.
End Write.

(** ** Runs of the driver *)

(** A write of the run that neither failed to allocate nor stored nothing. *)
Definition write_went_well (ev : event) : Prop :=
  match ev with EvWrite _ _ count r => stored_something count r | _ => True end.

Lemma step_accounted base w ev w' sp :
  step w ev w' -> world_rel w sp -> write_went_well ev ->
  accounted base (drv w) -> accounted base (drv w').
Proof.
  intros Hstep Hrel Hev Hacc. destruct sp as [l ps].
  destruct Hstep as [| | | k s fs fd f u count r s' Hk Hfd Hcount Hw |
                     | k s fs fd f cmd arg r s' f' Hk Hfd Hio]; [done.. | | done |].
  - destruct (world_rel_lookup _ _ _ _ _ _ Hrel Hfd) as [[Hf _] _].
    unfold MAX_RW_COUNT in Hcount. apply (aesd_write_accounted k base s l f u count r s');
      [apply (wr_dev _ _ Hrel) | done | unfold KMALLOC_LIMIT; lia | done..].
  - destruct (world_rel_lookup _ _ _ _ _ _ Hrel Hfd) as [[Hf _] _].
    destruct (aesd_ioctl_spec k s l f cmd arg (wr_dev _ _ Hrel) Hf)
      as [(r' & f'' & Heq & _) | [_ Hfault]]; [| by rewrite Hfault in Hio].
    rewrite Heq in Hio. by injection Hio as _ <- _.
Qed.

Lemma run_accounted base w evs w' sp :
  run step w evs w' -> world_rel w sp -> Forall write_went_well evs ->
  accounted base (drv w) -> accounted base (drv w') /\ exists sp', world_rel w' sp'.
Proof.
  intros Hrun. revert sp. induction Hrun as [w | w ev w1 evs w2 Hstep _ IH];
    intros sp Hrel Hev Hacc; [by eauto |].
  apply Forall_cons_1 in Hev as [Hev Hevs].
  destruct (simulation _ _ _ _ Hstep Hrel) as (sp1 & _ & Hrel1).
  apply (IH sp1); [done.. |]. by eapply step_accounted.
Qed.

Lemma init_accounted k s0 s :
  aesd_init_module k s0 = (0, s) -> accounted (dom (kheap s0)) s.
Proof.
  unfold aesd_init_module. destruct (k_alloc_chrdev_region k _) as [res dev].
  destruct (Z.ltb_spec res 0); [intros [= ? <-]; lia |].
  cbn. destruct (negb _); intros [= _ <-].
  all: split; [| | done]; change (owned _) with (∅ ∪ ∅ : nset); rewrite (right_id_L ∅ (∪)).
  all: first [by rewrite (right_id_L ∅ (∪)) | apply disjoint_empty_r].
Qed.

Lemma length_blocks_le es : (length (blocks es) <= length es)%nat.
Proof.
  induction es as [|e es IH]; [done |]. unfold blocks in *. csimpl.
  destruct (ptr_block _); cbn [length]; lia.
Qed.

(** At most ten commands and the pending bytes. *)
Lemma owned_le h d cs : cb_rel h (aesd_cb d) cs -> (size (owned d) <= 11)%nat.
Proof.
  intros [Hwf Hent _ Hnd]. unfold owned. pose proof (size_union_alt (entry_blocks d) (tmp_block d)).
  assert (size (entry_blocks d) <= 10)%nat.
  { unfold entry_blocks. rewrite size_list_to_set by done.
    pose proof (length_contents_le _ Hwf). pose proof (length_blocks_le (contents (aesd_cb d))).
    lia. }
  assert (size (tmp_block d ∖ entry_blocks d) <= 1)%nat; [| lia].
  transitivity (size (tmp_block d)); [apply subseteq_size; set_solver |].
  unfold tmp_block. destruct (tmp_buf d); rewrite ?size_empty, ?size_singleton; lia.
Qed.

(** C20. The driver owns the memory it allocates and loses none of it: whatever
    processes do after the module is loaded, as long as no write fails to allocate
    or stores nothing at all, the kernel's heap holds exactly the blocks it held
    before, untouched by the driver's, and the blocks the device points to: one for
    each stored command and one for the pending bytes, at most eleven in all. *)
Theorem heap_accounted k s0 s evs w :
  aesd_init_module k s0 = (0, s) -> run step (mk_world s ∅) evs w ->
  Forall write_went_well evs ->
  dom (kheap (drv w)) = dom (kheap s0) ∪ owned (aesd_device (drv w)) /\
  dom (kheap s0) ## owned (aesd_device (drv w)) /\
  (size (owned (aesd_device (drv w))) <= 11)%nat.
Proof.
  intros Hinit Hrun Hev.
  destruct (run_accounted (dom (kheap s0)) _ _ _ _ Hrun (init_world_rel _ _ _ Hinit) Hev)
    as [[H1 H2 _] [sp Hrel]]; [by eapply init_accounted |].
  split_and!; [done.. |]. eapply owned_le, (dev_cb _ _ (wr_dev _ _ Hrel)).
Qed.

(** Complete writes have gone well. *)
Lemma all_written_went_well s us s' :
  all_written s us s' ->
  exists evs, run step (mk_world s {[0%nat := the_file]}) evs (mk_world s' {[0%nat := the_file]}) /\
    Forall write_went_well evs.
Proof.
  induction 1 as [s | k s u us s1 s2 Hk Hu Hw _ (evs & Hrun & Hev)].
  - exists []. split; constructor.
  - exists (EvWrite 0 u (Z.of_nat (length u)) (Z.of_nat (length u)) :: evs). split.
    + eapply run_cons; [| exact Hrun]. apply (step_write k _ _ _ the_file); done || lia.
    + constructor; [| done]. cbn. unfold stored_something. lia.
Qed.

(** Eleven writes, so the first command has been freed, then an open one. *)
Lemma heap_accounted_witness :
  let s := written_state (eleven_lines ++ [[x62]]) in
  dom (kheap s) = dom (kheap boot) ∪ owned (aesd_device s) /\
  dom (kheap boot) ## owned (aesd_device s) /\ (size (owned (aesd_device s)) <= 11)%nat.
Proof.
  intros s.
  destruct (all_written_went_well loaded (eleven_lines ++ [[x62]]) s) as (evs & Hrun & Hev).
  { apply written_state_written. by vm_compute. }
  clearbody s. refine (heap_accounted K boot loaded (EvOpen 0 :: evs) (mk_world s {[0%nat := the_file]})
    _ _ _); [reflexivity | | by constructor].
  eapply run_cons; [| exact Hrun]. by apply step_open.
Defined.
