(* ===== verification/SList.v ===== *)
(** The singly-linked list macros of [server/queue.h], on a heap of nodes, and the
    list each of them leaves: the server keeps its threads in such a list. A
    pointer is [None] for [NULL] and the number of a node otherwise; every access
    to a node is checked. *)

From S2P Require Import Prelude.

Section SList.
(** The rest of the struct the list entry is embedded in. *)
Context {A : Type}.

(** [SLIST_ENTRY]: the link, inside the user's struct. *)
Record node : Type := mk_node {
  payload : A;
  sle_next : option nat;
}.

(** [SLIST_HEAD], with the heap its pointers live in. *)
Record slist : Type := mk_slist {
  slh_first : option nat;
  nodes : gmap nat node;
}.

(** ** The macros *)

Definition SLIST_FIRST (l : slist) : option nat := slh_first l.

Definition SLIST_EMPTY (l : slist) : bool :=
  match SLIST_FIRST l with None => true | Some _ => false end.

Definition SLIST_INIT (l : slist) : slist := mk_slist None (nodes l).

Definition SLIST_NEXT (l : slist) (elm : option nat) : outcome (option nat) :=
  match elm with
  | None => Fault NullDeref
  | Some a => match nodes l !! a with
              | Some n => Ret (sle_next n)
              | None => Fault UseAfterFree
              end
  end.

(** [SLIST_NEXT(elm) = p] *)
Definition set_next (l : slist) (elm p : option nat) : outcome slist :=
  match elm with
  | None => Fault NullDeref
  | Some a => match nodes l !! a with
              | Some n => Ret (mk_slist (slh_first l) (<[a := mk_node (payload n) p]> (nodes l)))
              | None => Fault UseAfterFree
              end
  end.

(** [SLIST_FIRST(head) = p] *)
Definition set_first (l : slist) (p : option nat) : slist := mk_slist p (nodes l).

Definition SLIST_INSERT_HEAD (l : slist) (elm : option nat) : outcome slist :=
  l ← set_next l elm (SLIST_FIRST l); Ret (set_first l elm).

Definition SLIST_INSERT_AFTER (l : slist) (slistelm elm : option nat) : outcome slist :=
  next ← SLIST_NEXT l slistelm;
  l ← set_next l elm next;
  set_next l slistelm elm.

Definition SLIST_REMOVE_HEAD (l : slist) : outcome slist :=
  next ← SLIST_NEXT l (SLIST_FIRST l); Ret (set_first l next).

Definition SLIST_REMOVE_AFTER (l : slist) (elm : option nat) : outcome slist :=
  next ← SLIST_NEXT l elm;
  after ← SLIST_NEXT l next;
  set_next l elm after.

(** [while (SLIST_NEXT(curelm) != elm) curelm = SLIST_NEXT(curelm)] *)
Fixpoint remove_find (fuel : nat) (l : slist) (curelm elm : option nat)
    : outcome (option nat) :=
  match fuel with
  | O => NoFuel
  | S fuel =>
      next ← SLIST_NEXT l curelm;
      if decide (next = elm) then Ret curelm else remove_find fuel l next elm
  end.

(** The walk visits a node at most once, so as many turns as nodes, and one for
    [NULL], are enough. *)
Definition SLIST_REMOVE (l : slist) (elm : option nat) : outcome slist :=
  if decide (SLIST_FIRST l = elm) then SLIST_REMOVE_HEAD l
  else
    curelm ← remove_find (S (size (nodes l))) l (SLIST_FIRST l) elm;
    SLIST_REMOVE_AFTER l curelm.

(** [while (SLIST_NEXT(curelm) != NULL) curelm = SLIST_NEXT(curelm)] is the same
    walk, to [NULL]. Both heads share the heap; the result is the heap with the
    two heads. *)
Definition SLIST_CONCAT (h : gmap nat node) (first1 first2 : option nat)
    : outcome (gmap nat node * option nat * option nat) :=
  match first1 with
  | None => Ret (h, first2, if decide (first2 = None) then first2 else None)
  | Some _ =>
      match first2 with
      | None => Ret (h, first1, first2)
      | Some _ =>
          curelm ← remove_find (S (size h)) (mk_slist first1 h) first1 None;
          l ← set_next (mk_slist first1 h) curelm first2;
          Ret (nodes l, slh_first l, None)
      end
  end.

Definition SLIST_SWAP (first1 first2 : option nat) : option nat * option nat :=
  (first2, first1).

(** [SLIST_FOREACH] with a body that may stop the loop ([break]: [inl]) or go on
    ([inr]); the link is read after the body. *)
Fixpoint SLIST_FOREACH {St} (fuel : nat)
    (body : nat -> slist * St -> outcome (slist * St + slist * St))
    (var : option nat) (st : slist * St) : outcome (option nat * (slist * St)) :=
  match fuel with
  | O => NoFuel
  | S fuel =>
      match var with
      | None => Ret (None, st)
      | Some a =>
          r ← body a st;
          match r with
          | inl st => Ret (var, st)
          | inr st => next ← SLIST_NEXT (fst st) var; SLIST_FOREACH fuel body next st
          end
      end
  end.

(** [SLIST_FOREACH_FROM]: from the head when [var] is [NULL]. *)
Definition SLIST_FOREACH_FROM {St} (fuel : nat)
    (body : nat -> slist * St -> outcome (slist * St + slist * St))
    (var : option nat) (st : slist * St) : outcome (option nat * (slist * St)) :=
  SLIST_FOREACH fuel body (match var with Some _ => var | None => SLIST_FIRST (fst st) end) st.

(** [SLIST_FOREACH_SAFE]: the link is read before the body. *)
Fixpoint SLIST_FOREACH_SAFE {St} (fuel : nat)
    (body : nat -> slist * St -> outcome (slist * St + slist * St))
    (var : option nat) (st : slist * St) {struct fuel} : outcome (option nat * (slist * St)) :=
  match fuel with
  | O => NoFuel
  | S fuel =>
      match var with
      | None => Ret (None, st)
      | Some a =>
          tvar ← SLIST_NEXT (fst st) var;
          r ← body a st;
          match r with
          | inl st => Ret (var, st)
          | inr st => SLIST_FOREACH_SAFE fuel body tvar st
          end
      end
  end.

Definition SLIST_FOREACH_FROM_SAFE {St} (fuel : nat)
    (body : nat -> slist * St -> outcome (slist * St + slist * St))
    (var : option nat) (st : slist * St) : outcome (option nat * (slist * St)) :=
  SLIST_FOREACH_SAFE fuel body
    (match var with Some _ => var | None => SLIST_FIRST (fst st) end) st.

(** The address of a link: the head's or an element's. *)
Inductive slink : Type :=
| HeadLink
| ElemLink (a : nat).

(** [*varp] *)
Definition read_link (l : slist) (varp : slink) : outcome (option nat) :=
  match varp with
  | HeadLink => Ret (SLIST_FIRST l)
  | ElemLink a => SLIST_NEXT l (Some a)
  end.

(** [SLIST_FOREACH_PREVPTR]: the body also gets the address of the link that points
    to its element. *)
Fixpoint SLIST_FOREACH_PREVPTR {St} (fuel : nat)
    (body : nat -> slink -> slist * St -> outcome (slist * St + slist * St))
    (varp : slink) (st : slist * St) {struct fuel}
    : outcome (option nat * slink * (slist * St)) :=
  match fuel with
  | O => NoFuel
  | S fuel =>
      var ← read_link (fst st) varp;
      match var with
      | None => Ret (None, varp, st)
      | Some a =>
          r ← body a varp st;
          match r with
          | inl st => Ret (var, varp, st)
          | inr st => SLIST_FOREACH_PREVPTR fuel body (ElemLink a) st
          end
      end
  end.

(** ** The list a head stands for *)

(** From [p] the links lead through the nodes [ids] to [q]. *)
Fixpoint segment (h : gmap nat node) (p : option nat) (ids : list nat) (q : option nat)
    : Prop :=
  match ids with
  | [] => p = q
  | a :: ids => p = Some a /\ exists n, h !! a = Some n /\ segment h (sle_next n) ids q
  end.

Definition represents (l : slist) (ids : list nat) : Prop :=
  segment (nodes l) (slh_first l) ids None /\ NoDup ids.

Lemma segment_app h p ids1 ids2 q :
  segment h p (ids1 ++ ids2) q <->
  exists r, segment h p ids1 r /\ segment h r ids2 q.
Proof.
  revert p. induction ids1 as [|a ids1 IH]; intros p; cbn [app segment].
  - split; [by eexists | by intros (r & -> & ?)].
  - split.
    + intros (-> & n & Hn & (r & H1 & H2)%IH). exists r. split; [| done].
      split; [done |]. by exists n.
    + intros (r & (-> & n & Hn & H1) & H2). split; [done |]. exists n.
      split; [done |]. apply IH. by exists r.
Qed.

(** Other nodes do not matter. *)
Lemma segment_insert_ne h p ids q a n :
  a ∉ ids -> segment h p ids q -> segment (<[a := n]> h) p ids q.
Proof.
  revert p. induction ids as [|b ids IH]; intros p; cbn; [done |].
  intros [Hne Hni]%not_elem_of_cons (-> & m & Hm & Hs). split; [done |]. exists m.
  rewrite lookup_insert_ne by done. split; [done |]. by apply IH.
Qed.

Lemma segment_agree h h' p ids q :
  (forall b, b ∈ ids -> h' !! b = h !! b) -> segment h p ids q -> segment h' p ids q.
Proof.
  revert p. induction ids as [|b ids IH]; intros p Hh; cbn; [done |].
  intros (-> & m & Hm & Hs). split; [done |]. exists m. rewrite Hh by in_list.
  split; [done |]. apply IH; [| done]. intros c Hc. apply Hh. in_list.
Qed.

Lemma segment_delete_ne h p ids q a :
  a ∉ ids -> segment h p ids q -> segment (delete a h) p ids q.
Proof.
  revert p. induction ids as [|b ids IH]; intros p; cbn; [done |].
  intros [Hne Hni]%not_elem_of_cons (-> & m & Hm & Hs). split; [done |]. exists m.
  rewrite lookup_delete_ne by done. split; [done |]. by apply IH.
Qed.

Lemma segment_live h p ids q a : segment h p ids q -> a ∈ ids -> is_Some (h !! a).
Proof.
  revert p. induction ids as [|b ids IH]; intros p; cbn; [by intros _ ?%elem_of_nil |].
  intros (-> & m & Hm & Hs) [-> | Hin]%elem_of_cons; [by eexists | by eapply IH].
Qed.

(** A list is no longer than the heap. *)
Lemma segment_size h p ids q : segment h p ids q -> NoDup ids -> (length ids <= size h)%nat.
Proof.
  intros Hs Hnd. rewrite <- size_dom, <- (size_list_to_set (C := gset nat) ids) by done.
  apply subseteq_size. intros a Ha%elem_of_list_to_set. apply elem_of_dom.
  by eapply segment_live.
Qed.

(** ** What the macros do to the list *)

Lemma SLIST_INIT_spec l : represents (SLIST_INIT l) [].
Proof. split; [done | constructor]. Qed.

Lemma SLIST_EMPTY_spec l ids : represents l ids -> SLIST_EMPTY l = bool_decide (ids = []).
Proof.
  intros [Hs _]. unfold SLIST_EMPTY, SLIST_FIRST. destruct ids as [|a ids]; cbn in Hs.
  - by rewrite Hs.
  - destruct Hs as [-> _]. done.
Qed.

Lemma SLIST_INSERT_HEAD_spec l ids a n :
  represents l ids -> nodes l !! a = Some n -> a ∉ ids ->
  SLIST_INSERT_HEAD l (Some a)
    = Ret (mk_slist (Some a) (<[a := mk_node (payload n) (slh_first l)]> (nodes l))) /\
  represents (mk_slist (Some a) (<[a := mk_node (payload n) (slh_first l)]> (nodes l)))
    (a :: ids).
Proof.
  intros [Hs Hnd] Ha Hni. split.
  - unfold SLIST_INSERT_HEAD, set_next. by rewrite Ha.
  - split; [| by constructor]. cbn. split; [done |]. eexists.
    rewrite lookup_insert_eq. split; [done |]. by apply segment_insert_ne.
Qed.

Lemma SLIST_INSERT_AFTER_spec l ids1 b ids2 a n :
  represents l (ids1 ++ b :: ids2) -> nodes l !! a = Some n -> a ∉ ids1 ++ b :: ids2 ->
  exists l', SLIST_INSERT_AFTER l (Some b) (Some a) = Ret l' /\
    represents l' (ids1 ++ b :: a :: ids2).
Proof.
  intros [Hs Hnd] Ha Hni. apply segment_app in Hs as (r & H1 & (-> & m & Hm & H2)).
  rewrite elem_of_app, elem_of_cons in Hni.
  assert (a <> b /\ (a ∉ ids1) /\ (a ∉ ids2)) as (Hne & Ha1 & Ha2) by (clear -Hni; tauto).
  apply NoDup_app in Hnd as (Hnd1 & Hdis & [Hb2 Hnd2]%NoDup_cons).
  assert (b ∉ ids1) as Hb1 by (intros Hin; apply (Hdis b Hin), list_elem_of_here).
  unfold SLIST_INSERT_AFTER, set_next. cbn. rewrite Hm. cbn. rewrite Ha. cbn.
  rewrite lookup_insert_ne, Hm by done. eexists. split; [done |]. split; cbn.
  - apply segment_app. exists (Some b). split.
    + by apply segment_insert_ne, segment_insert_ne.
    + cbn. split; [done |]. eexists. rewrite lookup_insert_eq. split; [done |]. cbn.
      split; [done |]. eexists. rewrite lookup_insert_ne, lookup_insert_eq by done.
      split; [done |]. by apply segment_insert_ne, segment_insert_ne.
  - apply NoDup_app. split; [done |]. split.
    + intros x Hx. rewrite !elem_of_cons. intros [-> | [-> | Hin]]; [done.. |].
      by apply (Hdis x Hx), list_elem_of_further.
    + constructor; [rewrite elem_of_cons; by intros [|] | by constructor].
Qed.

Lemma SLIST_REMOVE_HEAD_spec l a ids :
  represents l (a :: ids) ->
  exists l', SLIST_REMOVE_HEAD l = Ret l' /\ represents l' ids /\ nodes l' = nodes l.
Proof.
  intros [(Hf & n & Hn & Hs) [_ Hnd]%NoDup_cons]. unfold SLIST_REMOVE_HEAD, SLIST_FIRST.
  rewrite Hf. cbn. rewrite Hn. cbn. eexists. by split_and!.
Qed.

(** The walk to the predecessor of a node, or to the last node. *)
Lemma remove_find_spec l p ids1 b elm fuel :
  segment (nodes l) p (ids1 ++ [b]) elm -> Some b <> elm ->
  (forall x, x ∈ ids1 -> elm <> Some x) -> (length ids1 < fuel)%nat ->
  remove_find fuel l p elm = Ret (Some b).
Proof.
  revert p fuel. induction ids1 as [|c ids1 IH]; intros p fuel Hs Hb Hx Hfuel;
    (destruct fuel as [|fuel]; [cbn in Hfuel; lia |]); cbn in Hs |- *.
  - destruct Hs as (-> & n & Hl & Hn). cbn. rewrite Hl. cbn. by rewrite decide_True.
  - destruct Hs as (-> & n & Hl & Hs). cbn. rewrite Hl. cbn.
    destruct (decide (sle_next n = elm)) as [He | He].
    + exfalso. destruct ids1 as [|d ids1]; cbn in Hs; destruct Hs as [Hd _];
        rewrite He in Hd; [done |]. apply (Hx d); [| done].
      in_list.
    + apply IH; [done.. | | cbn in Hfuel; lia]. intros x Hin. apply Hx.
      in_list.
Qed.

Definition same_payloads (h h' : gmap nat node) : Prop := payload <$> h = payload <$> h'.

Lemma SLIST_REMOVE_spec l ids1 a ids2 :
  represents l (ids1 ++ a :: ids2) ->
  exists l', SLIST_REMOVE l (Some a) = Ret l' /\ represents l' (ids1 ++ ids2) /\
    same_payloads (nodes l') (nodes l).
Proof.
  intros Hrep. pose proof Hrep as [Hs Hnd]. unfold SLIST_REMOVE, SLIST_FIRST.
  destruct ids1 as [|c ids1 _] using rev_ind.
  - rewrite decide_True by apply Hs.
    destruct (SLIST_REMOVE_HEAD_spec l a ids2 Hrep) as (l' & -> & Hrep' & Hn).
    exists l'. unfold same_payloads. by rewrite Hn.
  - pose proof Hs as Hs'. rewrite <- app_assoc in Hs'.
    apply segment_app in Hs as (r & H1 & (-> & m & Hm & H2)).
    pose proof (segment_size _ _ _ _ Hs' ltac:(by rewrite app_assoc)) as Hsize.
    apply segment_app in Hs' as (r & H1' & (-> & mc & Hmc & _)).
    rewrite !length_app in Hsize. cbn [length] in Hsize.
    pose proof Hnd as Hnd'. apply NoDup_app in Hnd as (Hnd1 & Hdis & [Ha2 Hnd2]%NoDup_cons).
    assert (a ∉ ids1 ++ [c]) as Ha1 by (intros Hin; apply (Hdis a Hin), list_elem_of_here).
    assert (slh_first l <> Some a) as Hfirst.
    { intros Hf. rewrite Hf in H1. apply Ha1. destruct ids1 as [|d ids1]; cbn in H1;
        destruct H1 as [[= ->] _]; in_list. }
    rewrite decide_False by done.
    rewrite (remove_find_spec l (slh_first l) ids1 c (Some a)); [| done | | | lia].
    2: { intros [= ->]. apply Ha1. in_list. }
    2: { intros x Hx [= ->]. apply Ha1. rewrite elem_of_app. by left. }
    apply segment_app in H1 as (r & H1 & (-> & mc' & Hmc' & Hnext)).
    rewrite Hmc in Hmc'. injection Hmc' as <-. cbn in Hnext.
    cbn [mbind outcome_bind]. unfold SLIST_REMOVE_AFTER, set_next. cbn.
    rewrite Hmc. cbn. rewrite Hnext. cbn. rewrite Hm. cbn.
    apply NoDup_app in Hnd1 as (Hnd1 & Hdis1 & _).
    assert (c ∉ ids1) as Hc1 by (intros Hin; apply (Hdis1 c Hin), list_elem_of_here).
    assert (c ∉ ids2) as Hc2.
    { intros Hin. apply (Hdis c); [rewrite elem_of_app; right; apply list_elem_of_here |].
      in_list. }
    eexists. split; [done |]. split; [split |]; cbn.
    + rewrite <- app_assoc. apply segment_app. exists (Some c). split.
      * by apply segment_insert_ne.
      * cbn. split; [done |]. eexists. rewrite lookup_insert_eq. split; [done |].
        by apply segment_insert_ne.
    + rewrite NoDup_app in Hnd' |- *. destruct Hnd' as (? & Hd & [? ?]%NoDup_cons).
      split_and!; [done | | done]. intros x Hx Hin. by apply (Hd x Hx), list_elem_of_further.
    + unfold same_payloads. rewrite fmap_insert. cbn. apply insert_id.
      by rewrite lookup_fmap, Hmc.
Qed.

(** Removing a node that is not in the list walks off its end. *)
Lemma remove_find_absent l ids p a fuel :
  segment (nodes l) p ids None -> a ∉ ids -> (length ids < fuel)%nat ->
  remove_find fuel l p (Some a) = Fault NullDeref.
Proof.
  revert p fuel. induction ids as [|c ids IH]; intros p fuel Hs Ha Hfuel;
    (destruct fuel as [|fuel]; [cbn in Hfuel; lia |]); cbn in Hs |- *.
  - by rewrite Hs.
  - destruct Hs as (-> & n & Hn & Hs). apply not_elem_of_cons in Ha as [Hac Ha].
    cbn. rewrite Hn. cbn. rewrite decide_False; [apply IH; [done.. | cbn in Hfuel; lia] |].
    intros He. rewrite He in Hs. destruct ids as [|d ids]; cbn in Hs; [done |].
    destruct Hs as [[= ->] _]. apply Ha, list_elem_of_here.
Qed.

Lemma SLIST_REMOVE_absent l ids a :
  represents l ids -> a ∉ ids -> SLIST_REMOVE l (Some a) = Fault NullDeref.
Proof.
  intros [Hs Hnd] Ha. pose proof (segment_size _ _ _ _ Hs Hnd) as Hsize.
  unfold SLIST_REMOVE, SLIST_FIRST. rewrite decide_False.
  - by rewrite (remove_find_absent l ids) by (done || lia).
  - intros Hf. rewrite Hf in Hs. destruct ids as [|d ids]; cbn in Hs; [done |].
    destruct Hs as [[= ->] _]. apply Ha, list_elem_of_here.
Qed.

Lemma SLIST_CONCAT_spec h first1 first2 ids1 ids2 :
  represents (mk_slist first1 h) ids1 -> represents (mk_slist first2 h) ids2 ->
  (forall x, x ∈ ids1 -> x ∉ ids2) ->
  exists h' first', SLIST_CONCAT h first1 first2 = Ret (h', first', None) /\
    represents (mk_slist first' h') (ids1 ++ ids2) /\ same_payloads h' h.
Proof.
  intros [Hs1 Hnd1] [Hs2 Hnd2] Hdis. cbn in Hs1, Hs2.
  pose proof (segment_size _ _ _ _ Hs1 Hnd1) as Hsize. unfold SLIST_CONCAT.
  destruct ids1 as [|b ids1 _] using rev_ind.
  { cbn in Hs1. rewrite Hs1. exists h, first2. split; [| done]. by case_decide as Hf; rewrite ?Hf. }
  pose proof Hs1 as Hs1'. apply segment_app in Hs1' as (r & H1 & (-> & n & Hn & Hlast)).
  assert (exists c, first1 = Some c) as [c Hc].
  { destruct ids1; cbn in H1; [by exists b | destruct H1 as [-> _]; eauto]. }
  rewrite Hc. destruct ids2 as [|d ids2].
  { cbn in Hs2. rewrite Hs2. exists h, (Some c). rewrite app_nil_r, <- Hc. by split_and!. }
  cbn in Hs2. destruct Hs2 as (-> & m & Hm & Hs2). rewrite <- Hc.
  rewrite length_app in Hsize. cbn [length] in Hsize.
  rewrite (remove_find_spec (mk_slist first1 h) first1 ids1 b None) by (done || lia).
  apply NoDup_app in Hnd1 as (Hnd1 & Hd1 & _).
  assert (b ∉ ids1) as Hb1 by (intros Hin; apply (Hd1 b Hin), list_elem_of_here).
  assert (b ∉ d :: ids2) as Hb2.
  { apply Hdis. in_list. }
  cbn [mbind outcome_bind]. unfold set_next. cbn [nodes]. rewrite Hn.
  cbn [mbind outcome_bind]. eexists _, _. split; [done |]. cbn. split; [split |]; cbn.
  - rewrite <- app_assoc. apply segment_app. exists (Some b). split.
    + by apply segment_insert_ne.
    + cbn. split; [done |]. eexists. rewrite lookup_insert_eq. split; [done |]. cbn.
      split; [done |]. apply not_elem_of_cons in Hb2 as [Hbd Hb2]. exists m.
      rewrite lookup_insert_ne by done. split; [done |]. by apply segment_insert_ne.
  - apply NoDup_app. split_and!; [| done | done]. apply NoDup_app. split_and!; [done | done |].
    apply NoDup_singleton.
  - unfold same_payloads. rewrite fmap_insert. cbn. apply insert_id.
    by rewrite lookup_fmap, Hn.
Qed.

(** The loop runs its body on the nodes in order until it stops, provided a body
    that goes on leaves the rest of the list in place. *)
Fixpoint visit {St} (body : nat -> slist * St -> outcome (slist * St + slist * St))
    (ids : list nat) (st : slist * St) : outcome (option nat * (slist * St)) :=
  match ids with
  | [] => Ret (None, st)
  | a :: ids =>
      r ← body a st;
      match r with
      | inl st => Ret (Some a, st)
      | inr st => visit body ids st
      end
  end.

Lemma SLIST_FOREACH_spec {St} (body : nat -> slist * St -> outcome (slist * St + slist * St))
    ids p st fuel :
  (forall a st st', body a st = Ret (inr st') -> nodes (fst st') = nodes (fst st)) ->
  segment (nodes (fst st)) p ids None -> (length ids < fuel)%nat ->
  SLIST_FOREACH fuel body p st = visit body ids st.
Proof.
  intros Hbody. revert p st fuel. induction ids as [|a ids IH]; intros p st fuel Hs Hfuel;
    (destruct fuel as [|fuel]; [cbn in Hfuel; lia |]); cbn in Hs |- *.
  - by rewrite Hs.
  - destruct Hs as (-> & n & Hn & Hs).
    destruct (body a st) as [[st' | st'] | |] eqn:Hb; [done | | done..].
    cbn [mbind outcome_bind]. unfold SLIST_NEXT.
    rewrite (Hbody _ _ _ Hb), Hn. cbn [mbind outcome_bind].
    apply IH; [by rewrite (Hbody _ _ _ Hb) | cbn in Hfuel; lia].
Qed.
(** The safe loop visits the same nodes although its body may free, or relink, the
    node it is given. *)
Lemma SLIST_FOREACH_SAFE_spec {St}
    (body : nat -> slist * St -> outcome (slist * St + slist * St)) ids p st fuel :
  (forall a st st', body a st = Ret (inr st') -> forall b, b <> a ->
     nodes (fst st') !! b = nodes (fst st) !! b) ->
  segment (nodes (fst st)) p ids None -> NoDup ids -> (length ids < fuel)%nat ->
  SLIST_FOREACH_SAFE fuel body p st = visit body ids st.
Proof.
  intros Hbody. revert p st fuel. induction ids as [|a ids IH]; intros p st fuel Hs Hnd Hfuel;
    (destruct fuel as [|fuel]; [cbn in Hfuel; lia |]); cbn in Hs |- *.
  - by rewrite Hs.
  - destruct Hs as (-> & n & Hn & Hs). cbn. rewrite Hn. cbn [mbind outcome_bind].
    apply NoDup_cons in Hnd as [Ha Hnd].
    destruct (body a st) as [[st' | st'] | |] eqn:Hb; [done | | done..].
    cbn [mbind outcome_bind]. apply IH; [| done | cbn in Hfuel; lia].
    revert Hs. apply segment_agree. intros b Hb'. apply (Hbody a _ _ Hb). congruence.
Qed.

(** The link that ends the nodes [ids] after the head. *)
Definition at_link (ids : list nat) : slink :=
  match last ids with Some a => ElemLink a | None => HeadLink end.

Lemma read_at_link l ids r :
  segment (nodes l) (slh_first l) ids r -> read_link l (at_link ids) = Ret r.
Proof.
  unfold at_link. destruct ids as [|b ids _] using rev_ind; [by intros <- |].
  intros (p & _ & -> & n & Hn & <-)%segment_app. rewrite last_snoc. cbn. by rewrite Hn.
Qed.

(** Iterating with the address of the link: each node comes with the link that leads
    to it, and the loop ends at the link that ends the list. *)
Lemma SLIST_FOREACH_PREVPTR_spec l ids1 ids2 seen fuel :
  segment (nodes l) (slh_first l) (ids1 ++ ids2) None -> (length ids2 < fuel)%nat ->
  SLIST_FOREACH_PREVPTR fuel (fun a varp st => Ret (inr (fst st, snd st ++ [(varp, a)])))
      (at_link ids1) (l, seen)
    = Ret (None, at_link (ids1 ++ ids2),
        (l, seen ++ zip (at_link ids1 :: (ElemLink <$> ids2)) ids2)).
Proof.
  revert ids1 seen fuel. induction ids2 as [|a ids2 IH]; intros ids1 seen fuel Hs Hfuel;
    (destruct fuel as [|fuel]; [cbn in Hfuel; lia |]); cbn [SLIST_FOREACH_PREVPTR fst];
    pose proof Hs as (r & Hr%read_at_link & H2)%segment_app; rewrite Hr.
  - cbn in H2. subst r. cbn. by rewrite !app_nil_r.
  - destruct H2 as [-> _]. cbn [mbind outcome_bind snd fst].
    assert (ElemLink a = at_link (ids1 ++ [a])) as E by (unfold at_link; by rewrite last_snoc).
    rewrite E at 1. rewrite IH; [| by rewrite <- app_assoc | cbn in Hfuel; lia].
    rewrite <- !app_assoc, <- E. by cbn.
Qed.
End SList.

Arguments node : clear implicits.
Arguments slist : clear implicits.

(** ** Properties *)

(** C35. [SLIST_REMOVE] of a node of a well-formed list takes exactly that node out,
    keeps the order of the others and touches no other field; the walk to its
    predecessor ends. Removing a node that is not in the list walks off its end:
    the macro has no test for it. *)
Theorem SLIST_REMOVE_correct {A} (l : slist A) ids1 a ids2 b :
  represents l (ids1 ++ a :: ids2) -> b ∉ ids1 ++ a :: ids2 ->
  (exists l', SLIST_REMOVE l (Some a) = Ret l' /\ represents l' (ids1 ++ ids2) /\
     same_payloads (nodes l') (nodes l)) /\
  SLIST_REMOVE l (Some b) = Fault NullDeref.
Proof.
  intros Hrep Hb. split; [by apply SLIST_REMOVE_spec |].
  by apply (SLIST_REMOVE_absent l (ids1 ++ a :: ids2)).
Qed.

(** Three nodes, in the order 2, 0, 1. *)
Definition demo_list : slist nat :=
  mk_slist (Some 2%nat)
    (<[2%nat := mk_node 20%nat (Some 0%nat)]>
       (<[0%nat := mk_node 21%nat (Some 1%nat)]> {[1%nat := mk_node 22%nat None]})).

Lemma demo_list_represents : represents demo_list [2; 0; 1]%nat.
Proof.
  split; [| apply (bool_decide_unpack _); by vm_compute].
  repeat (split; [reflexivity |]; eexists; split; [reflexivity |]). reflexivity.
Qed.

Lemma SLIST_REMOVE_correct_witness :
  (exists l', SLIST_REMOVE demo_list (Some 0%nat) = Ret l' /\ represents l' ([2] ++ [1])%nat /\
     same_payloads (nodes l') (nodes demo_list)) /\
  SLIST_REMOVE demo_list (Some 7%nat) = Fault NullDeref.
Proof.
  refine (SLIST_REMOVE_correct demo_list [2%nat] 0%nat [1%nat] 7%nat demo_list_represents _).
  apply (bool_decide_unpack _). by vm_compute.
Defined.
