(* ===== verification/Queue.v ===== *)
(** What the list families of [server/queue.h] share: the memory their pointers
    live in, the list a head stands for, the effect on that list of inserting and
    removing one element, and the loops over it.

    The structs of every family have the same layout: a field of type
    [struct type *] ([lh_first], [stqh_first], [tqh_first] in a head, [le_next],
    [stqe_next], [tqe_next] in an element), followed, in some families, by one of
    type [struct type **] ([stqh_last], [tqh_last] in a head, [le_prev],
    [tqe_prev] in an element). A [struct type **] points to a field of the first
    kind, so its value is a [link]: the address of the first field of a head or of
    an element. *)

From stdpp Require Import countable.
From S2P Require Import Prelude.

(** [&(head)->xx_first] and [&(elm)->field.xx_next]. *)
Inductive link : Type :=
| First (h : nat)
| Next (a : nat).

#[global] Instance link_eq_dec : EqDecision link.
Proof. solve_decision. Defined.

#[global] Instance Next_inj : Inj (=) (=) Next.
Proof. by intros ?? [=]. Qed.

#[global] Instance link_countable : Countable link.
Proof.
  refine (inj_countable'
    (fun l => match l with First h => inl h | Next a => inr a end)
    (fun s => match s with inl h => First h | inr a => Next a end) _).
  by intros [].
Defined.

(** A pointer to an element: [None] is [NULL]. *)
Abbreviation ptr := (option nat) (only parsing).

(** [ptrs] holds the fields of type [struct type *]; [links] holds those of type
    [struct type **], each under the address of the field before it in its
    struct. *)
Record qmem : Type := mk_qmem {
  ptrs : gmap link (option nat);
  links : gmap link link;
}.

(** ** Access *)

(** [*l] *)
Definition load (m : qmem) (l : link) : outcome ptr :=
  match ptrs m !! l with Some p => Ret p | None => Fault UseAfterFree end.

(** [*l = p] *)
Definition store (m : qmem) (l : link) (p : ptr) : outcome qmem :=
  match ptrs m !! l with
  | Some _ => Ret (mk_qmem (<[l := p]> (ptrs m)) (links m))
  | None => Fault UseAfterFree
  end.

(** The [struct type **] that follows the field [l] in its struct. *)
Definition load_link (m : qmem) (l : link) : outcome link :=
  match links m !! l with Some k => Ret k | None => Fault UseAfterFree end.

Definition store_link (m : qmem) (l k : link) : outcome qmem :=
  match links m !! l with
  | Some _ => Ret (mk_qmem (ptrs m) (<[l := k]> (links m)))
  | None => Fault UseAfterFree
  end.

(** [&(elm)->field.xx_next], which is also where the element's struct is. *)
Definition elem_link (elm : ptr) : outcome link :=
  match elm with Some a => Ret (Next a) | None => Fault NullDeref end.

(** [(elm)->field.xx_next] *)
Definition get_next (m : qmem) (elm : ptr) : outcome ptr :=
  l ← elem_link elm; load m l.

(** [(elm)->field.xx_next = p] *)
Definition set_next (m : qmem) (elm p : ptr) : outcome qmem :=
  l ← elem_link elm; store m l p.

(** [(elm)->field.xx_prev] *)
Definition get_prev (m : qmem) (elm : ptr) : outcome link :=
  l ← elem_link elm; load_link m l.

(** [(elm)->field.xx_prev = k] *)
Definition set_prev (m : qmem) (elm : ptr) (k : link) : outcome qmem :=
  l ← elem_link elm; store_link m l k.

(** Releasing an element: its fields are gone. *)
Definition free_elem (m : qmem) (a : nat) : qmem :=
  mk_qmem (delete (Next a) (ptrs m)) (delete (Next a) (links m)).

(** ** Loops *)

(** [while (NEXT(curelm) != elm) curelm = NEXT(curelm)] *)
Fixpoint find_prev (fuel : nat) (m : qmem) (curelm elm : ptr) : outcome ptr :=
  match fuel with
  | O => NoFuel
  | S fuel =>
      next ← get_next m curelm;
      if decide (next = elm) then Ret curelm else find_prev fuel m next elm
  end.

(** One turn per element, and one for [NULL]. *)
Definition walk_fuel (m : qmem) : nat := S (size (ptrs m)).

Section Loops.
(** How the loop moves on, and its body: [inl] is [break]. *)
Context {St : Type}.
Variable move : qmem -> ptr -> outcome ptr.
Variable body : nat -> qmem * St -> outcome (qmem * St + qmem * St).

(** [for (; (var); (var) = MOVE(var)) body] *)
Fixpoint foreach (fuel : nat) (var : ptr) (st : qmem * St) {struct fuel}
    : outcome (ptr * (qmem * St)) :=
  match fuel with
  | O => NoFuel
  | S fuel =>
      match var with
      | None => Ret (None, st)
      | Some a =>
          r ← body a st;
          match r with
          | inl st => Ret (var, st)
          | inr st => next ← move (fst st) var; foreach fuel next st
          end
      end
  end.

(** [for (; (var) && ((tvar) = MOVE(var), 1); (var) = (tvar)) body] *)
Fixpoint foreach_safe (fuel : nat) (var : ptr) (st : qmem * St) {struct fuel}
    : outcome (ptr * (qmem * St)) :=
  match fuel with
  | O => NoFuel
  | S fuel =>
      match var with
      | None => Ret (None, st)
      | Some a =>
          tvar ← move (fst st) var;
          r ← body a st;
          match r with
          | inl st => Ret (var, st)
          | inr st => foreach_safe fuel tvar st
          end
      end
  end.

(** What a loop over [ids] computes: the body on each element in turn, until it
    stops. *)
Fixpoint visit (ids : list nat) (st : qmem * St) {struct ids}
    : outcome (ptr * (qmem * St)) :=
  match ids with
  | [] => Ret (None, st)
  | a :: ids =>
      r ← body a st;
      match r with
      | inl st => Ret (Some a, st)
      | inr st => visit ids st
      end
  end.
End Loops.

(** ** The list a head stands for *)

(** Which of the second fields a family has: [xx_prev] in the elements, [xx_last]
    in the head. *)
Record family : Type := mk_family { has_prev : bool; has_last : bool }.

(** The link that ends the elements [ids] that follow the link [l]. *)
Definition end_link (l : link) (ids : list nat) : link :=
  match last ids with Some a => Next a | None => l end.

(** From the field [l] the pointers lead through [ids]; where the family has back
    pointers, each element's leads to the field that points to it. *)
Fixpoint seg (f : family) (m : qmem) (l : link) (ids : list nat) : Prop :=
  match ids with
  | [] => True
  | a :: ids =>
      ptrs m !! l = Some (Some a) /\
      (if has_prev f then links m !! Next a = Some l else True) /\
      seg f m (Next a) ids
  end.

Record represents (f : family) (m : qmem) (h : nat) (ids : list nat) : Prop := mk_represents {
  rep_seg : seg f m (First h) ids;
  rep_end : ptrs m !! end_link (First h) ids = Some None;
  rep_last : if has_last f then links m !! First h = Some (end_link (First h) ids) else True;
  rep_nodup : NoDup ids;
}.

(** The fields of an element, or of a head, are allocated. *)
Definition elem_live (f : family) (m : qmem) (a : nat) : Prop :=
  is_Some (ptrs m !! Next a) /\ (if has_prev f then is_Some (links m !! Next a) else True).

Definition head_live (f : family) (m : qmem) (h : nat) : Prop :=
  is_Some (ptrs m !! First h) /\ (if has_last f then is_Some (links m !! First h) else True).

(** ** Lemmas on segments *)

Lemma end_link_nil l : end_link l [] = l.
Proof. done. Qed.

Lemma end_link_cons l a ids : end_link l (a :: ids) = end_link (Next a) ids.
Proof. unfold end_link. rewrite last_cons. by destruct (last ids). Qed.

Lemma end_link_snoc l ids a : end_link l (ids ++ [a]) = Next a.
Proof. unfold end_link. by rewrite last_snoc. Qed.

Lemma end_link_app l ids1 ids2 : end_link l (ids1 ++ ids2) = end_link (end_link l ids1) ids2.
Proof.
  revert l. induction ids1 as [|a ids1 IH]; intros l; [done |].
  cbn [app]. by rewrite !end_link_cons.
Qed.

(** An end link is the link itself or the field of an element. *)
Lemma end_link_cases l ids :
  (ids = [] /\ end_link l ids = l) \/ (exists a, a ∈ ids /\ end_link l ids = Next a).
Proof.
  destruct ids as [|a ids _] using rev_ind; [by left |]. right. exists a.
  rewrite end_link_snoc. split; [in_list | done].
Qed.

Lemma end_link_fresh h ids a : a ∉ ids -> end_link (First h) ids <> Next a.
Proof. intros Ha. by destruct (end_link_cases (First h) ids) as [[_ ->] | (b & Hb & ->)]; congruence. Qed.

Lemma seg_app f m l ids1 ids2 :
  seg f m l (ids1 ++ ids2) <-> seg f m l ids1 /\ seg f m (end_link l ids1) ids2.
Proof.
  revert l. induction ids1 as [|a ids1 IH]; intros l; cbn [app seg].
  - unfold end_link. cbn. tauto.
  - rewrite IH, end_link_cons. tauto.
Qed.

(** A segment depends on the fields it goes through only: the pointers from [l] to
    the last element's predecessor, and the back pointers of its elements. *)
Lemma seg_agree f m m' l ids :
  NoDup ids -> (forall a, a ∈ ids -> l <> Next a) ->
  (forall x, x <> end_link l ids -> x = l \/ (exists a, a ∈ ids /\ x = Next a) ->
     ptrs m' !! x = ptrs m !! x) ->
  (forall a, a ∈ ids -> links m' !! Next a = links m !! Next a) ->
  seg f m l ids -> seg f m' l ids.
Proof.
  revert l. induction ids as [|a ids IH]; intros l Hnd Hl Hp Hb; [done |].
  apply NoDup_cons in Hnd as [Ha Hnd]. rewrite end_link_cons in Hp.
  intros (H1 & H2 & H3). cbn. split; [| split].
  - rewrite Hp; [done | | by left].
    destruct (end_link_cases (Next a) ids) as [[_ ->] | (b & Hin & ->)]; apply Hl; in_list.
  - destruct (has_prev f); [| done]. rewrite Hb by in_list. done.
  - apply IH; [done | | | intros; apply Hb; in_list | done].
    + intros b Hin [= ->]. done.
    + intros x Hne [-> | (b & Hin & ->)]; apply Hp; [done | | done |]; right;
        eexists; (split; [| done]); in_list.
Qed.

Lemma seg_live f m l ids a :
  seg f m l ids -> ptrs m !! end_link l ids = Some None -> a ∈ ids -> elem_live f m a.
Proof.
  intros Hs He [ids1 [ids2 ->]]%list_elem_of_split.
  apply seg_app in Hs as [_ (_ & Hb & Hs)]. rewrite end_link_app, end_link_cons in He.
  split; [| by destruct (has_prev f); [eexists |]].
  destruct ids2 as [|b ids2]; [by eexists | destruct Hs; by eexists].
Qed.

(** The value of the field that ends a prefix. *)
Lemma seg_value f m h ids1 ids2 :
  represents f m h (ids1 ++ ids2) -> ptrs m !! end_link (First h) ids1 = Some (head ids2).
Proof.
  intros [Hs He _ _]. apply seg_app in Hs as [_ Hs]. destruct ids2 as [|b ids2].
  - by rewrite app_nil_r in He.
  - by destruct Hs.
Qed.

Lemma seg_next f m h ids1 a ids2 :
  represents f m h (ids1 ++ a :: ids2) -> ptrs m !! Next a = Some (head ids2).
Proof.
  intros Hr. rewrite <- (end_link_snoc (First h) ids1 a). apply (seg_value f).
  by rewrite <- app_assoc.
Qed.

Lemma seg_prev f m h ids1 a ids2 :
  has_prev f = true -> represents f m h (ids1 ++ a :: ids2) ->
  links m !! Next a = Some (end_link (First h) ids1).
Proof. intros Hf [Hs _ _ _]. apply seg_app in Hs as [_ (_ & Hb & _)]. by rewrite Hf in Hb. Qed.

Lemma represents_live f m h ids a : represents f m h ids -> a ∈ ids -> elem_live f m a.
Proof. intros [Hs He _ _]. by apply (seg_live f m (First h)). Qed.

Lemma represents_head_live f m h ids : represents f m h ids -> head_live f m h.
Proof.
  intros Hr. split.
  - rewrite (seg_value f m h [] ids Hr : ptrs m !! First h = _). by eexists.
  - pose proof (rep_last _ _ _ _ Hr). destruct (has_last f); [by eexists | done].
Qed.

(** A list is shorter than the walks over it. *)
Lemma represents_fuel f m h ids : represents f m h ids -> (length ids < walk_fuel m)%nat.
Proof.
  intros Hr. unfold walk_fuel. rewrite <- size_dom.
  apply Nat.lt_succ_r. rewrite <- (length_fmap Next ids).
  rewrite <- (size_list_to_set (C := gset link) (Next <$> ids)).
  - apply subseteq_size. intros x (a & -> & Ha)%elem_of_list_to_set%list_elem_of_fmap.
    apply elem_of_dom. by destruct (represents_live _ _ _ _ _ Hr Ha).
  - apply (NoDup_fmap_2 _ _), (rep_nodup _ _ _ _ Hr).
Qed.

(** ** Inserting and removing an element *)

(** Only the fields of the heads [hs] and of the elements [ids] may differ. *)
Definition changes_only (m m' : qmem) (hs ids : list nat) : Prop :=
  forall x, (forall h, h ∈ hs -> x <> First h) -> (forall b, b ∈ ids -> x <> Next b) ->
    ptrs m' !! x = ptrs m !! x /\ links m' !! x = links m !! x.

(** A list on other fields is left as it was. *)
Lemma represents_frame f m m' hs ids h2 ids2 :
  changes_only m m' hs ids -> h2 ∉ hs -> (forall b, b ∈ ids2 -> b ∉ ids) ->
  represents f m h2 ids2 -> represents f m' h2 ids2.
Proof.
  intros Hc Hne Hdis [Hs He Hl Hnd].
  assert (forall x, x = First h2 \/ (exists b, b ∈ ids2 /\ x = Next b) ->
    ptrs m' !! x = ptrs m !! x /\ links m' !! x = links m !! x) as Hsame.
  { intros x [-> | (b & Hb & ->)]; apply Hc; [by intros h Hh [= ->] | done | done |].
    intros c Hcin [= ->]. by apply (Hdis c). }
  split; [| | | done].
  - apply (seg_agree f m m'); [done.. | | | done].
    + intros x _ Hx. by apply Hsame.
    + intros b Hb. apply Hsame. right. by exists b.
  - rewrite <- He. apply Hsame.
    destruct (end_link_cases (First h2) ids2) as [[_ ->] | (b & Hb & ->)]; [by left | right].
    by exists b.
  - destruct (has_last f); [| done]. rewrite <- Hl. apply Hsame. by left.
Qed.

(** The fields that change when [a] comes between the ends of [ids1] and [ids2]. *)
Record inserted (f : family) (m m' : qmem) (h : nat) (ids1 : list nat) (a : nat)
    (ids2 : list nat) : Prop := mk_inserted {
  ins_before : ptrs m' !! end_link (First h) ids1 = Some (Some a);
  ins_next : ptrs m' !! Next a = Some (head ids2);
  ins_ptrs : forall x, x <> end_link (First h) ids1 -> x <> Next a -> ptrs m' !! x = ptrs m !! x;
  ins_prev : if has_prev f then links m' !! Next a = Some (end_link (First h) ids1) else True;
  ins_after : if has_prev f then
      forall b, head ids2 = Some b -> links m' !! Next b = Some (Next a) else True;
  ins_last : if has_last f then links m' !! First h = Some (end_link (Next a) ids2) else True;
  ins_links : forall x, x <> Next a -> x <> First h ->
    (forall b, head ids2 = Some b -> x <> Next b) -> links m' !! x = links m !! x;
}.

(** The same for taking out [a]; its own fields may change. *)
Record removed (f : family) (m m' : qmem) (h : nat) (ids1 : list nat) (a : nat)
    (ids2 : list nat) : Prop := mk_removed {
  rem_before : ptrs m' !! end_link (First h) ids1 = Some (head ids2);
  rem_ptrs : forall x, x <> end_link (First h) ids1 -> x <> Next a -> ptrs m' !! x = ptrs m !! x;
  rem_after : if has_prev f then
      forall b, head ids2 = Some b -> links m' !! Next b = Some (end_link (First h) ids1) else True;
  rem_last : if has_last f then
      links m' !! First h = Some (end_link (First h) (ids1 ++ ids2)) else True;
  rem_links : forall x, x <> Next a -> x <> First h ->
    (forall b, head ids2 = Some b -> x <> Next b) -> links m' !! x = links m !! x;
  rem_live : elem_live f m' a;
}.

(** Splitting [NoDup] around a place. *)
Lemma NoDup_middle (ids1 : list nat) a ids2 :
  NoDup (ids1 ++ a :: ids2) <-> (a ∉ ids1) /\ (a ∉ ids2) /\ NoDup (ids1 ++ ids2).
Proof.
  rewrite <- Permutation_middle, NoDup_cons, not_elem_of_app. tauto.
Qed.

(** The end of a list is no field of an element outside it. *)
Lemma end_link_disjoint h (ids1 ids2 : list nat) b :
  (forall x : nat, x ∈ ids1 -> x ∉ ids2) -> b ∈ ids2 -> Next b <> end_link (First h) ids1.
Proof.
  intros Hdis Hb Heq. destruct (end_link_cases (First h) ids1) as [[_ E] | (c & Hc & E)];
    rewrite E in Heq; [done |]. injection Heq as ->. by apply (Hdis c).
Qed.

(** The second part keeps its segment, up to the first back pointer. *)
Lemma seg_second_part f m m' k ids2 l :
  NoDup ids2 -> (forall a, a ∈ ids2 -> ptrs m' !! Next a = ptrs m !! Next a) ->
  ptrs m' !! k = Some (head ids2) ->
  (if has_prev f then forall b, head ids2 = Some b -> links m' !! Next b = Some k else True) ->
  (forall a, a ∈ tail ids2 -> links m' !! Next a = links m !! Next a) ->
  seg f m l ids2 -> seg f m' k ids2.
Proof.
  destruct ids2 as [|b ids2]; [done |]. cbn [seg head tail].
  intros [Hb Hnd]%NoDup_cons Hp Hk Ha Hl (_ & _ & Hs).
  split; [done | split].
  - destruct (has_prev f); [by apply Ha | done].
  - apply (seg_agree f m m'); [done | | | done | done].
    + intros c Hc [= ->]. done.
    + intros x _ [-> | (c & Hc & ->)]; apply Hp; in_list.
Qed.

(** The parts of the list on either side of a change at [a] keep their segments; the
    second one starts from the field [k] instead of [k0]. *)
Lemma seg_around f m m' h ids1 a ids2 k0 k :
  (a ∉ ids1) /\ (a ∉ ids2) /\ NoDup (ids1 ++ ids2) ->
  (forall x, x <> end_link (First h) ids1 -> x <> Next a -> ptrs m' !! x = ptrs m !! x) ->
  (forall x, x <> Next a -> x <> First h ->
     (forall b, head ids2 = Some b -> x <> Next b) -> links m' !! x = links m !! x) ->
  seg f m (First h) ids1 -> seg f m k0 ids2 ->
  ptrs m' !! k = Some (head ids2) ->
  (if has_prev f then forall b, head ids2 = Some b -> links m' !! Next b = Some k else True) ->
  seg f m' (First h) ids1 /\ seg f m' k ids2.
Proof.
  intros (Ha1 & Ha2 & (Hnd1 & Hdis & Hnd2)%NoDup_app) Hp Hl Hs1 Hs2 Hk Hafter. split.
  - apply (seg_agree f m m'); [done | done | | | done].
    + intros x Hne [-> | (b & Hb & ->)]; apply Hp; [done | done | done | congruence].
    + intros b Hb. apply Hl; [congruence | done |]. intros c Hc [= ->].
      apply (Hdis c Hb). destruct ids2; [done |]. injection Hc as ->. in_list.
  - apply (seg_second_part f m m' _ _ k0); [done | | done | done | | done].
    + intros b Hb. apply Hp; [by apply (end_link_disjoint h ids1 ids2) | congruence].
    + intros b Hb. destruct ids2 as [|c ids2]; [by apply elem_of_nil in Hb |]. cbn in Hb.
      apply NoDup_cons in Hnd2 as [Hc _].
      apply Hl; [intros [= ->]; apply Ha2; in_list | done |]. intros d [= ->] [= ->]. done.
Qed.

Lemma represents_inserted f m m' h ids1 a ids2 :
  represents f m h (ids1 ++ ids2) -> a ∉ ids1 ++ ids2 -> inserted f m m' h ids1 a ids2 ->
  represents f m' h (ids1 ++ a :: ids2).
Proof.
  intros Hr Ha [I1 I2 I3 I4 I5 I6 I7]. pose proof Hr as [Hs He Hl Hnd].
  apply not_elem_of_app in Ha as [Ha1 Ha2]. apply seg_app in Hs as [Hs1 Hs2].
  destruct (seg_around f m m' h ids1 a ids2 _ (Next a) (conj Ha1 (conj Ha2 Hnd)) I3 I7 Hs1 Hs2
    I2 I5) as [Hs1' Hs2'].
  split.
  - apply seg_app. split; [done |]. cbn [seg]. by destruct (has_prev f).
  - rewrite end_link_app, end_link_cons. rewrite end_link_app in He.
    destruct (end_link_cases (Next a) ids2) as [[-> ->] | (b & Hb & E)]; [done |].
    rewrite E, I3; [| by apply (end_link_disjoint h ids1 ids2); [apply NoDup_app in Hnd as (_ & ? & _) |]
      | congruence].
    destruct ids2 as [|c ids2 _] using rev_ind; [by apply elem_of_nil in Hb |].
    rewrite end_link_snoc in E, He. by injection E as ->.
  - destruct (has_last f); [| done]. by rewrite end_link_app, end_link_cons.
  - by apply NoDup_middle.
Qed.

Lemma represents_removed f m m' h ids1 a ids2 :
  represents f m h (ids1 ++ a :: ids2) -> removed f m m' h ids1 a ids2 ->
  represents f m' h (ids1 ++ ids2).
Proof.
  intros Hr [I1 I3 I5 I6 I7 _]. pose proof Hr as [Hs He Hl Hnd%NoDup_middle].
  apply seg_app in Hs as [Hs1 (_ & _ & Hs2)].
  destruct (seg_around f m m' h ids1 a ids2 _ _ Hnd I3 I7 Hs1 Hs2 I1 I5) as [Hs1' Hs2'].
  destruct Hnd as (_ & Ha2 & Hnd).
  split; [by apply seg_app | | done | done].
  rewrite end_link_app. rewrite end_link_app, end_link_cons in He.
  destruct ids2 as [|c ids2 _] using rev_ind; [done |]. rewrite end_link_snoc in He |- *.
  rewrite I3; [done | |].
  - apply (end_link_disjoint h ids1 (ids2 ++ [c])); [by apply NoDup_app in Hnd as (_ & ? & _) |].
    in_list.
  - intros [= ->]. apply Ha2. in_list.
Qed.

(** Both only touch the list and the element. *)
Lemma inserted_changes f m m' h ids1 a ids2 :
  inserted f m m' h ids1 a ids2 -> changes_only m m' [h] (ids1 ++ a :: ids2).
Proof.
  intros [_ _ Hp _ _ _ Hl] x Hh Hx. specialize (Hh h ltac:(in_list)). split.
  - apply Hp; [| apply Hx; in_list].
    destruct (end_link_cases (First h) ids1) as [[_ ->] | (b & Hb & ->)]; [done |].
    apply Hx. in_list.
  - apply Hl; [apply Hx; in_list | done |]. intros b Hb. apply Hx.
    destruct ids2; [done |]. injection Hb as ->. in_list.
Qed.

Lemma removed_changes f m m' h ids1 a ids2 :
  removed f m m' h ids1 a ids2 -> changes_only m m' [h] (ids1 ++ a :: ids2).
Proof.
  intros [_ Hp _ _ Hl _] x Hh Hx. specialize (Hh h ltac:(in_list)). split.
  - apply Hp; [| apply Hx; in_list].
    destruct (end_link_cases (First h) ids1) as [[_ ->] | (b & Hb & ->)]; [done |].
    apply Hx. in_list.
  - apply Hl; [apply Hx; in_list | done |]. intros b Hb. apply Hx.
    destruct ids2; [done |]. injection Hb as ->. in_list.
Qed.

(** ** Walks and loops over a list *)

(** The walk finds the element before [elm], or the last one for [NULL]. *)
Lemma find_prev_from f m h pre rest b ids2 fuel :
  represents f m h (pre ++ rest ++ b :: ids2) -> (length rest < fuel)%nat ->
  find_prev fuel m (head (rest ++ b :: ids2)) (head ids2) = Ret (Some b).
Proof.
  revert pre fuel. induction rest as [|c rest IH]; intros pre fuel Hr Hfuel;
    (destruct fuel as [|fuel]; [cbn in Hfuel; lia |]); cbn [find_prev head app].
  - unfold get_next, elem_link, load. cbn [mbind outcome_bind].
    rewrite (seg_next f m h pre b ids2 Hr). cbn [mbind outcome_bind].
    by rewrite decide_True.
  - unfold get_next, elem_link, load. cbn [mbind outcome_bind].
    rewrite (seg_next f m h pre c (rest ++ b :: ids2) Hr). cbn [mbind outcome_bind].
    rewrite decide_False.
    + apply (IH (pre ++ [c])); [by rewrite <- app_assoc | cbn in Hfuel; lia].
    + pose proof (rep_nodup _ _ _ _ Hr) as (_ & _ & Hnd)%NoDup_app.
      apply NoDup_cons in Hnd as [_ (_ & Hdis & (Hb & _)%NoDup_cons)%NoDup_app].
      destruct ids2 as [|d ids2]; [by destruct rest |].
      destruct rest as [|e rest]; cbn [head app]; intros [= ->].
      * apply Hb. in_list.
      * apply (Hdis d); in_list.
Qed.

Lemma find_prev_spec f m h ids1 b ids2 :
  represents f m h (ids1 ++ b :: ids2) ->
  find_prev (walk_fuel m) m (head (ids1 ++ b :: ids2)) (head ids2) = Ret (Some b).
Proof.
  intros Hr. apply (find_prev_from f m h []); [done |].
  apply represents_fuel in Hr. rewrite length_app in Hr. lia.
Qed.

(** For an element that is not there it walks off the end. *)
Lemma find_prev_absent f m h ids a :
  represents f m h ids -> a ∉ ids ->
  find_prev (walk_fuel m) m (head ids) (Some a) = Fault NullDeref.
Proof.
  intros Hr Ha. pose proof (represents_fuel _ _ _ _ Hr) as Hfuel.
  assert (forall rest pre fuel, ids = pre ++ rest -> (length rest < fuel)%nat ->
    find_prev fuel m (head rest) (Some a) = Fault NullDeref) as Hgen;
    [| by apply (Hgen ids [])].
  clear Hfuel. intros rest. induction rest as [|c rest IH]; intros pre fuel -> Hfuel;
    (destruct fuel as [|fuel]; [cbn in Hfuel; lia |]); cbn [find_prev head]; [done |].
  unfold get_next, elem_link, load. cbn [mbind outcome_bind].
  rewrite (seg_next f m h pre c rest Hr). cbn [mbind outcome_bind].
  rewrite decide_False.
  - apply (IH (pre ++ [c])); [by rewrite <- app_assoc | cbn in Hfuel; lia].
  - intros E. apply Ha. destruct rest as [|d rest]; [done |]. injection E as ->. in_list.
Qed.

(** [move] leads through [ids] and then to [NULL]. *)
Fixpoint chain (move : qmem -> option nat -> outcome (option nat)) (m : qmem)
    (ids : list nat) : Prop :=
  match ids with
  | [] => True
  | a :: ids => move m (Some a) = Ret (head ids) /\ chain move m ids
  end.

Lemma chain_next f m h ids1 ids2 : represents f m h (ids1 ++ ids2) -> chain get_next m ids2.
Proof.
  revert ids1. induction ids2 as [|a ids2 IH]; intros ids1 Hr; [done |]. split.
  - unfold get_next, elem_link, load. cbn [mbind outcome_bind].
    by rewrite (seg_next f m h ids1 a ids2 Hr).
  - apply (IH (ids1 ++ [a])). by rewrite <- app_assoc.
Qed.

Lemma chain_agree move m m' ids :
  (forall a, a ∈ ids -> move m' (Some a) = move m (Some a)) -> chain move m ids ->
  chain move m' ids.
Proof.
  induction ids as [|a ids IH]; intros Hm; [done |]. intros [H1 H2]. split.
  - rewrite Hm by in_list. done.
  - apply IH; [| done]. intros b Hb. apply Hm. in_list.
Qed.

(** A loop whose body leaves the links alone runs it on each element in turn. *)
Lemma foreach_visit {St} move (body : nat -> qmem * St -> outcome (qmem * St + qmem * St))
    ids st fuel :
  (forall a st st', body a st = Ret (inr st') -> forall b,
     move (fst st') (Some b) = move (fst st) (Some b)) ->
  chain move (fst st) ids -> (length ids < fuel)%nat ->
  foreach move body fuel (head ids) st = visit body ids st.
Proof.
  intros Hbody. revert st fuel. induction ids as [|a ids IH]; intros st fuel Hc Hfuel;
    (destruct fuel as [|fuel]; [cbn in Hfuel; lia |]); cbn [foreach visit head]; [done |].
  destruct Hc as [H1 H2]. destruct (body a st) as [[st' | st'] | |] eqn:Hb; [done | | done..].
  cbn [mbind outcome_bind]. rewrite (Hbody _ _ _ Hb), H1. cbn [mbind outcome_bind].
  apply IH; [| cbn in Hfuel; lia]. apply (chain_agree move (fst st)); [| done].
  intros b _. by apply (Hbody a).
Qed.

(** The safe form allows a body that changes or frees its own element. *)
Lemma foreach_safe_visit {St} move (body : nat -> qmem * St -> outcome (qmem * St + qmem * St))
    ids st fuel :
  NoDup ids ->
  (forall a b st st', a ∈ ids -> b ∈ ids -> body a st = Ret (inr st') -> b <> a ->
     move (fst st') (Some b) = move (fst st) (Some b)) ->
  chain move (fst st) ids -> (length ids < fuel)%nat ->
  foreach_safe move body fuel (head ids) st = visit body ids st.
Proof.
  revert st fuel. induction ids as [|a ids IH]; intros st fuel Hnd Hbody Hc Hfuel;
    (destruct fuel as [|fuel]; [cbn in Hfuel; lia |]); cbn [foreach_safe visit head]; [done |].
  destruct Hc as [H1 H2]. rewrite H1. cbn [mbind outcome_bind].
  destruct (body a st) as [[st' | st'] | |] eqn:Hb; [done | | done..].
  cbn [mbind outcome_bind]. apply NoDup_cons in Hnd as [Ha Hnd].
  apply IH; [done | | | cbn in Hfuel; lia].
  - intros c d s s' Hc Hd. apply Hbody; in_list.
  - apply (chain_agree move (fst st)); [| done].
    intros b Hin. apply (Hbody a); [in_list | in_list | done | congruence].
Qed.

(** ** Two lists: concatenation and exchange *)

Record concatenated (f : family) (m m' : qmem) (h1 : nat) (ids1 : list nat) (h2 : nat)
    (ids2 : list nat) : Prop := mk_concatenated {
  con_join : ptrs m' !! end_link (First h1) ids1 = Some (head ids2);
  con_empty : ptrs m' !! First h2 = Some None;
  con_ptrs : forall x, x <> end_link (First h1) ids1 -> x <> First h2 ->
    ptrs m' !! x = ptrs m !! x;
  con_prev : if has_prev f then
      forall b, head ids2 = Some b -> links m' !! Next b = Some (end_link (First h1) ids1) else True;
  con_last : if has_last f then
      links m' !! First h1 = Some (end_link (First h1) (ids1 ++ ids2)) /\
      links m' !! First h2 = Some (First h2) else True;
  con_links : forall x, x <> First h1 -> x <> First h2 ->
    (forall b, head ids2 = Some b -> x <> Next b) -> links m' !! x = links m !! x;
}.

Record swapped (f : family) (m m' : qmem) (h1 : nat) (ids1 : list nat) (h2 : nat)
    (ids2 : list nat) : Prop := mk_swapped {
  sw_first1 : ptrs m' !! First h1 = Some (head ids2);
  sw_first2 : ptrs m' !! First h2 = Some (head ids1);
  sw_ptrs : forall x, x <> First h1 -> x <> First h2 -> ptrs m' !! x = ptrs m !! x;
  sw_prev : if has_prev f then
      (forall b, head ids2 = Some b -> links m' !! Next b = Some (First h1)) /\
      (forall b, head ids1 = Some b -> links m' !! Next b = Some (First h2)) else True;
  sw_last : if has_last f then
      links m' !! First h1 = Some (end_link (First h1) ids2) /\
      links m' !! First h2 = Some (end_link (First h2) ids1) else True;
  sw_links : forall x, x <> First h1 -> x <> First h2 ->
    (forall b, head ids1 = Some b -> x <> Next b) ->
    (forall b, head ids2 = Some b -> x <> Next b) -> links m' !! x = links m !! x;
}.

Lemma head_in (ids : list nat) b : head ids = Some b -> b ∈ ids.
Proof. destruct ids; [done |]. intros [= ->]. in_list. Qed.

Lemma tail_not_head (ids : list nat) a b :
  NoDup ids -> a ∈ tail ids -> head ids = Some b -> a <> b.
Proof. destruct ids; [done |]. intros [? _]%NoDup_cons ? [= ->] ->. done. Qed.

Lemma tail_in (ids : list nat) a : a ∈ tail ids -> a ∈ ids.
Proof. destruct ids; [done |]. intros. in_list. Qed.

Lemma represents_concatenated f m m' h1 ids1 h2 ids2 :
  represents f m h1 ids1 -> represents f m h2 ids2 -> h1 <> h2 ->
  (forall x, x ∈ ids1 -> x ∉ ids2) -> concatenated f m m' h1 ids1 h2 ids2 ->
  represents f m' h1 (ids1 ++ ids2) /\ represents f m' h2 [].
Proof.
  intros [Hs1 He1 Hl1 Hnd1] [Hs2 He2 Hl2 Hnd2] Hne Hdis [C1 C2 C3 C4 C5 C6].
  assert (forall b, b ∈ ids2 -> ptrs m' !! Next b = ptrs m !! Next b) as Hp2.
  { intros b Hb. apply C3; [by apply (end_link_disjoint h1 ids1 ids2) | done]. }
  split; split.
  - apply seg_app. split.
    + apply (seg_agree f m m'); [done | done | | | done].
      * intros x Hx [-> | (a & Ha & ->)]; apply C3; (done || congruence).
      * intros a Ha. apply C6; [done.. |]. intros b Hb [= ->].
        by apply (Hdis b), head_in.
    + apply (seg_second_part f m m' _ _ (First h2)); [done | done | done | done | | done].
      intros a Ha. apply C6; [done.. |]. intros b Hb [= ->]. by eapply tail_not_head.
  - rewrite end_link_app. destruct ids2 as [|c ids2 _] using rev_ind; [done |].
    rewrite end_link_snoc in *. rewrite Hp2; [done | in_list].
  - by destruct (has_last f); [destruct C5 |].
  - by apply NoDup_app.
  - done.
  - done.
  - by destruct (has_last f); [destruct C5 |].
  - constructor.
Qed.

(** A list moves under another head. *)
Lemma represents_moved f m m' h1 h2 ids :
  represents f m h1 ids -> (forall a, a ∈ ids -> ptrs m' !! Next a = ptrs m !! Next a) ->
  ptrs m' !! First h2 = Some (head ids) ->
  (if has_prev f then forall b, head ids = Some b -> links m' !! Next b = Some (First h2) else True) ->
  (forall a, a ∈ tail ids -> links m' !! Next a = links m !! Next a) ->
  (if has_last f then links m' !! First h2 = Some (end_link (First h2) ids) else True) ->
  represents f m' h2 ids.
Proof.
  intros [Hs He Hl Hnd] Hp Hh Hb Ht Hlast. split; [| | done | done].
  - by apply (seg_second_part f m m' _ _ (First h1)).
  - destruct ids as [|c ids _] using rev_ind; [done |].
    rewrite end_link_snoc in *. rewrite Hp; [done | in_list].
Qed.

Lemma represents_swapped f m m' h1 ids1 h2 ids2 :
  represents f m h1 ids1 -> represents f m h2 ids2 ->
  (forall x, x ∈ ids1 -> x ∉ ids2) -> swapped f m m' h1 ids1 h2 ids2 ->
  represents f m' h1 ids2 /\ represents f m' h2 ids1.
Proof.
  intros Hr1 Hr2 Hdis [S1 S2 S3 S4 S5 S6]. split.
  - apply (represents_moved f m m' h2); [done | | done | | |].
    + intros a Ha. by apply S3.
    + by destruct (has_prev f); [destruct S4 |].
    + intros a Ha. apply S6; [done.. | |]; intros b Hb [= ->].
      * by apply (Hdis b); [apply head_in | apply tail_in].
      * by apply (tail_not_head ids2 b b (rep_nodup _ _ _ _ Hr2)).
    + by destruct (has_last f); [destruct S5 |].
  - apply (represents_moved f m m' h1); [done | | done | | |].
    + intros a Ha. by apply S3.
    + by destruct (has_prev f); [destruct S4 |].
    + intros a Ha. apply S6; [done.. | |]; intros b Hb [= ->].
      * by apply (tail_not_head ids1 b b (rep_nodup _ _ _ _ Hr1)).
      * by apply (Hdis b); [apply tail_in | apply head_in].
    + by destruct (has_last f); [destruct S5 |].
Qed.

Lemma concatenated_changes f m m' h1 ids1 h2 ids2 :
  concatenated f m m' h1 ids1 h2 ids2 -> changes_only m m' [h1; h2] (ids1 ++ ids2).
Proof.
  intros [_ _ Hp _ _ Hl] x Hh Hx. split.
  - apply Hp; [| apply Hh; in_list].
    destruct (end_link_cases (First h1) ids1) as [[_ ->] | (b & Hb & ->)];
      [apply Hh | apply Hx]; in_list.
  - apply Hl; [apply Hh; in_list.. |]. intros b Hb%head_in. apply Hx. in_list.
Qed.

Lemma swapped_changes f m m' h1 ids1 h2 ids2 :
  swapped f m m' h1 ids1 h2 ids2 -> changes_only m m' [h1; h2] (ids1 ++ ids2).
Proof.
  intros [_ _ Hp _ _ Hl] x Hh Hx. split.
  - apply Hp; apply Hh; in_list.
  - apply Hl; [apply Hh; in_list.. | |]; intros b Hb%head_in; apply Hx; in_list.
Qed.

(** ** Automation for the macros

    [queue_eval] runs straight-line accesses whose fields are known to be
    allocated; [queue_fields] proves what the fields are after a run of writes. *)
Ltac queue_unfold :=
  unfold get_next, set_next, get_prev, set_prev, elem_link, load, store, load_link, store_link.

Ltac queue_lookup :=
  match goal with
  | |- context [<[?l := _]> _ !! ?l] => rewrite lookup_insert_eq
  | |- context [<[?k := _]> _ !! ?l] => rewrite (lookup_insert_ne _ k l) by congruence
  | H : ?m !! ?l = Some _ |- context [?m !! ?l] => rewrite H
  | H : ?m !! ?l = ?v |- context [?m !! ?l] => is_var v; rewrite H
  end.

Ltac queue_eval := queue_unfold; repeat (cbn [mbind outcome_bind ptrs links]; queue_lookup);
  cbn [mbind outcome_bind ptrs links].

Ltac queue_flags :=
  try match goal with
  | |- context [has_prev ?f] => let v := eval compute in (has_prev f) in change (has_prev f) with v
  | |- context [has_last ?f] => let v := eval compute in (has_last f) in change (has_last f) with v
  end; cbv iota.

Ltac queue_fields := queue_flags; intros; cbn [ptrs links head] in *; simplify_eq;
  repeat match goal with
  | H : forall b, Some ?c = Some b -> _ |- _ => specialize (H c eq_refl)
  end;
  rewrite ?end_link_nil, ?end_link_cons in *;
  repeat queue_lookup; first [done | congruence | solve [eauto]].
