(* ===== verification/QueueSpec.v ===== *)
(** What the list families of [server/queue.h] promise, stated once for all of
    them: a memory with any number of heads and elements stands for a pool of
    lists, and every operation of a family does to the pool what it does to a list.
    A family is an instance of [QueueFamily]. *)

From S2P Require Import Prelude Queue.

(** The lists the heads stand for, and the elements on no list. *)
Record pool : Type := mk_pool {
  q_lists : gmap nat (list nat);
  q_free : gset nat;
}.

(** The operations of all families; a family has some of them. *)
Inductive queue_op : Type :=
| OpInit (h : nat)
| OpInsertHead (h a : nat)
| OpInsertTail (h a : nat)
| OpInsertAfter (h b a : nat)
| OpInsertBefore (h b a : nat)
| OpRemoveHead (h : nat)
| OpRemoveAfter (h b : nat)
| OpRemove (h a : nat)
| OpConcat (h1 h2 : nat)
| OpSwap (h1 h2 : nat).

(** What each operation means for the lists. An element is inserted from the free
    ones and goes back there. *)
Inductive pool_step (p : pool) : queue_op -> pool -> Prop :=
| PInit h ids :
    q_lists p !! h = Some ids ->
    pool_step p (OpInit h) (mk_pool (<[h := []]> (q_lists p)) (q_free p ∪ list_to_set ids))
| PInsertHead h a ids :
    q_lists p !! h = Some ids -> a ∈ q_free p ->
    pool_step p (OpInsertHead h a)
      (mk_pool (<[h := a :: ids]> (q_lists p)) (q_free p ∖ {[a]}))
| PInsertTail h a ids :
    q_lists p !! h = Some ids -> a ∈ q_free p ->
    pool_step p (OpInsertTail h a)
      (mk_pool (<[h := ids ++ [a]]> (q_lists p)) (q_free p ∖ {[a]}))
| PInsertAfter h b a ids1 ids2 :
    q_lists p !! h = Some (ids1 ++ b :: ids2) -> a ∈ q_free p ->
    pool_step p (OpInsertAfter h b a)
      (mk_pool (<[h := ids1 ++ b :: a :: ids2]> (q_lists p)) (q_free p ∖ {[a]}))
| PInsertBefore h b a ids1 ids2 :
    q_lists p !! h = Some (ids1 ++ b :: ids2) -> a ∈ q_free p ->
    pool_step p (OpInsertBefore h b a)
      (mk_pool (<[h := ids1 ++ a :: b :: ids2]> (q_lists p)) (q_free p ∖ {[a]}))
| PRemoveHead h a ids :
    q_lists p !! h = Some (a :: ids) ->
    pool_step p (OpRemoveHead h)
      (mk_pool (<[h := ids]> (q_lists p)) (q_free p ∪ {[a]}))
| PRemoveAfter h b a ids1 ids2 :
    q_lists p !! h = Some (ids1 ++ b :: a :: ids2) ->
    pool_step p (OpRemoveAfter h b)
      (mk_pool (<[h := ids1 ++ b :: ids2]> (q_lists p)) (q_free p ∪ {[a]}))
| PRemove h a ids1 ids2 :
    q_lists p !! h = Some (ids1 ++ a :: ids2) ->
    pool_step p (OpRemove h a)
      (mk_pool (<[h := ids1 ++ ids2]> (q_lists p)) (q_free p ∪ {[a]}))
| PConcat h1 h2 ids1 ids2 :
    q_lists p !! h1 = Some ids1 -> q_lists p !! h2 = Some ids2 -> h1 <> h2 ->
    pool_step p (OpConcat h1 h2)
      (mk_pool (<[h1 := ids1 ++ ids2]> (<[h2 := []]> (q_lists p))) (q_free p))
| PSwap h1 h2 ids1 ids2 :
    q_lists p !! h1 = Some ids1 -> q_lists p !! h2 = Some ids2 -> h1 <> h2 ->
    pool_step p (OpSwap h1 h2)
      (mk_pool (<[h1 := ids2]> (<[h2 := ids1]> (q_lists p))) (q_free p)).

(** The memory holds the pool: every list is represented, the free elements are
    allocated, and no element is in two places. *)
Record pool_rel (f : family) (m : qmem) (p : pool) : Prop := mk_pool_rel {
  pr_lists : forall h ids, q_lists p !! h = Some ids -> represents f m h ids;
  pr_free : forall a, a ∈ q_free p -> elem_live f m a;
  pr_once : forall h1 h2 ids1 ids2 a, q_lists p !! h1 = Some ids1 -> q_lists p !! h2 = Some ids2 ->
    a ∈ ids1 -> a ∈ ids2 -> h1 = h2;
  pr_off : forall h ids a, q_lists p !! h = Some ids -> a ∈ ids -> a ∉ q_free p;
}.

(** The interface of a family: each of its operations, on a memory that holds a
    pool, returns a memory that holds the pool after it. *)
Class QueueFamily (f : family) (exec : qmem -> queue_op -> option (outcome qmem)) : Prop :=
  family_refines : forall m p op p' r,
    pool_rel f m p -> pool_step p op p' -> exec m op = Some r ->
    exists m', r = Ret m' /\ pool_rel f m' p'.

(** The operations a family has. *)
Definition supports (exec : qmem -> queue_op -> option (outcome qmem)) (op : queue_op) : Prop :=
  forall m, is_Some (exec m op).

(** One operation on the memory. *)
Definition mem_step (exec : qmem -> queue_op -> option (outcome qmem))
    (m : qmem) (op : queue_op) (m' : qmem) : Prop := exec m op = Some (Ret m').

(** Any sequence of operations that makes sense on lists runs on the memory. *)
Lemma family_run f exec `{!QueueFamily f exec} ops m p p' :
  pool_rel f m p -> run pool_step p ops p' -> Forall (supports exec) ops ->
  exists m', run (mem_step exec) m ops m' /\ pool_rel f m' p'.
Proof.
  intros Hr Hrun. revert m Hr. induction Hrun as [p | p op p1 ops p2 Hstep _ IH];
    intros m Hr Hs.
  - exists m. split; [constructor | done].
  - apply Forall_cons in Hs as [Hop Hs]. destruct (Hop m) as [r Hx].
    destruct (family_refines m p op p1 r Hr Hstep Hx) as (m1 & -> & Hr1).
    destruct (IH m1 Hr1 Hs) as (m2 & H2 & Hr2). exists m2. split; [by econstructor | done].
Qed.

(** ** Changes to one or two lists, seen in the pool *)

Lemma pool_live f m p h ids : pool_rel f m p -> q_lists p !! h = Some ids -> head_live f m h.
Proof. intros Hr Hh. by apply (represents_head_live f m h ids), (pr_lists _ _ _ Hr). Qed.

Lemma pool_fresh f m p h ids a :
  pool_rel f m p -> q_lists p !! h = Some ids -> a ∈ q_free p -> a ∉ ids.
Proof. intros Hr Hh Ha Hin. by apply (pr_off _ _ _ Hr h ids a). Qed.

(** The general form: only the heads [hs] and the elements [ids] change, so the other
    lists and the other free elements are as they were. *)
Lemma pool_rel_update f m m' p hs ids lists' free' :
  pool_rel f m p -> changes_only m m' hs ids ->
  (forall h, h ∉ hs -> lists' !! h = q_lists p !! h) ->
  (forall h k, h ∈ hs -> lists' !! h = Some k ->
     represents f m' h k /\ forall a, a ∈ k -> a ∈ ids /\ a ∉ free') ->
  (forall h k a, h ∉ hs -> q_lists p !! h = Some k -> a ∈ k -> a ∉ ids) ->
  (forall a, a ∈ free' -> a ∈ ids /\ elem_live f m' a \/ (a ∉ ids) /\ a ∈ q_free p) ->
  (forall h1 h2 k1 k2 a, h1 ∈ hs -> h2 ∈ hs -> lists' !! h1 = Some k1 -> lists' !! h2 = Some k2 ->
     a ∈ k1 -> a ∈ k2 -> h1 = h2) ->
  pool_rel f m' (mk_pool lists' free').
Proof.
  intros Hr Hc Hothers Hhs Hids Hfree Honce. split; cbn [q_lists q_free].
  - intros h k Hk. destruct (decide (h ∈ hs)) as [Hin | Hin]; [by apply Hhs |].
    rewrite Hothers in Hk by done.
    apply (represents_frame f m m' hs ids); [done | done | | by apply (pr_lists _ _ _ Hr)].
    intros b. by apply (Hids h k).
  - intros a [[_ Ha] | [Hni Ha]]%Hfree; [done |].
    apply (pr_free _ _ _ Hr) in Ha as [H1 H2].
    destruct (Hc (Next a)) as [E1 E2]; [done | by intros b Hb [= ->] |].
    unfold elem_live. by rewrite E1, E2.
  - intros h1 h2 k1 k2 a Hk1 Hk2 Ha1 Ha2.
    destruct (decide (h1 ∈ hs)) as [Hin1 | Hin1], (decide (h2 ∈ hs)) as [Hin2 | Hin2].
    + by apply (Honce h1 h2 k1 k2 a).
    + rewrite Hothers in Hk2 by done. destruct (Hids h2 k2 a Hin2 Hk2 Ha2).
      by apply (Hhs h1 k1).
    + rewrite Hothers in Hk1 by done. destruct (Hids h1 k1 a Hin1 Hk1 Ha1).
      by apply (Hhs h2 k2).
    + rewrite Hothers in Hk1, Hk2 by done. by apply (pr_once _ _ _ Hr h1 h2 k1 k2 a).
  - intros h k a Hk Ha. destruct (decide (h ∈ hs)) as [Hin | Hin]; [by apply (Hhs h k) |].
    rewrite Hothers in Hk by done. intros [[Hx _] | [_ Hx]]%Hfree.
    + by apply (Hids h k a).
    + by apply (pr_off _ _ _ Hr h k a).
Qed.

(** The elements of a list, and a free one, are on no other list. *)
Lemma pool_elsewhere f m p h k a h' k' :
  pool_rel f m p -> q_lists p !! h = Some k -> a ∈ q_free p ->
  h' ∉ [h] -> q_lists p !! h' = Some k' -> forall b, b ∈ k' -> (b ∉ k) /\ b <> a.
Proof.
  intros Hr Hk Ha Hh Hk' b Hb. split.
  - intros Hin. apply Hh. rewrite (pr_once _ _ _ Hr h' h k' k b) by done. in_list.
  - intros ->. by apply (pr_off _ _ _ Hr h' k' a).
Qed.

Lemma pool_inserted f m m' p h ids1 a ids2 :
  pool_rel f m p -> q_lists p !! h = Some (ids1 ++ ids2) -> a ∈ q_free p ->
  inserted f m m' h ids1 a ids2 ->
  pool_rel f m' (mk_pool (<[h := ids1 ++ a :: ids2]> (q_lists p)) (q_free p ∖ {[a]})).
Proof.
  intros Hr Hh Ha Hi.
  assert (a ∉ ids1 ++ ids2) as Hni by (intros Hin; by apply (pr_off _ _ _ Hr h _ a Hh)).
  assert (forall b, b ∈ ids1 ++ a :: ids2 <-> b = a \/ b ∈ ids1 ++ ids2) as Hin.
  { intros b. rewrite !elem_of_app, elem_of_cons. tauto. }
  apply (pool_rel_update f m m' p [h] (ids1 ++ a :: ids2)).
  - done.
  - by apply (inserted_changes f).
  - intros h' Hh'. apply lookup_insert_ne. intros ->. apply Hh'. in_list.
  - intros h' k ->%list_elem_of_singleton. rewrite lookup_insert_eq. intros [= <-]. split.
    + apply (represents_inserted f m); [by apply (pr_lists _ _ _ Hr) | done | done].
    + intros b Hb. split; [done |]. rewrite elem_of_difference, elem_of_singleton.
      intros [Hf Hne]. apply Hin in Hb as [-> | Hb]; [done |].
      by apply (pr_off _ _ _ Hr h _ b Hh).
  - intros h' k b Hh' Hk Hb. rewrite Hin.
    destruct (pool_elsewhere f m p h _ a h' k Hr Hh Ha Hh' Hk b Hb). tauto.
  - intros b [Hb Hne]%elem_of_difference. rewrite elem_of_singleton in Hne. right.
    split; [| done]. rewrite Hin. intros [? | Hbi]; [done |].
    by apply (pr_off _ _ _ Hr h _ b Hh).
  - by intros h1 h2 k1 k2 b ->%list_elem_of_singleton ->%list_elem_of_singleton.
Qed.

Lemma pool_removed f m m' p h ids1 a ids2 :
  pool_rel f m p -> q_lists p !! h = Some (ids1 ++ a :: ids2) ->
  removed f m m' h ids1 a ids2 ->
  pool_rel f m' (mk_pool (<[h := ids1 ++ ids2]> (q_lists p)) (q_free p ∪ {[a]})).
Proof.
  intros Hr Hh Hi. pose proof (rep_nodup _ _ _ _ (pr_lists _ _ _ Hr _ _ Hh)) as Hnd.
  apply NoDup_middle in Hnd as (Ha1 & Ha2 & Hnd).
  assert (forall b, b ∈ ids1 ++ a :: ids2 <-> b = a \/ b ∈ ids1 ++ ids2) as Hin.
  { intros b. rewrite !elem_of_app, elem_of_cons. tauto. }
  apply (pool_rel_update f m m' p [h] (ids1 ++ a :: ids2)).
  - done.
  - by apply (removed_changes f).
  - intros h' Hh'. apply lookup_insert_ne. intros ->. apply Hh'. in_list.
  - intros h' k ->%list_elem_of_singleton. rewrite lookup_insert_eq. intros [= <-]. split.
    + apply (represents_removed f m _ h ids1 a); [by apply (pr_lists _ _ _ Hr) | done].
    + intros b Hb. split; [rewrite Hin; tauto |].
      rewrite elem_of_union, elem_of_singleton. intros [Hf | ->].
      * apply (pr_off _ _ _ Hr h _ b Hh); [rewrite Hin; tauto | done].
      * apply elem_of_app in Hb. tauto.
  - intros h' k b Hh' Hk Hb Hbi. apply Hh'.
    rewrite (pr_once _ _ _ Hr h' h k _ b Hk Hh Hb Hbi). in_list.
  - intros b [Hb | ->%elem_of_singleton]%elem_of_union.
    + right. split; [| done]. intros Hbi. by apply (pr_off _ _ _ Hr h _ b Hh).
    + left. split; [rewrite Hin; tauto | apply (rem_live _ _ _ _ _ _ _ Hi)].
  - by intros h1 h2 k1 k2 b ->%list_elem_of_singleton ->%list_elem_of_singleton.
Qed.

(** Two lists whose elements end up under the same two heads. *)
Lemma pool_two f m m' p h1 k1 h2 k2 k1' k2' :
  pool_rel f m p -> q_lists p !! h1 = Some k1 -> q_lists p !! h2 = Some k2 -> h1 <> h2 ->
  changes_only m m' [h1; h2] (k1 ++ k2) -> k1' ++ k2' ≡ₚ k1 ++ k2 ->
  represents f m' h1 k1' /\ represents f m' h2 k2' ->
  pool_rel f m' (mk_pool (<[h1 := k1']> (<[h2 := k2']> (q_lists p))) (q_free p)).
Proof.
  intros Hr Hk1 Hk2 Hne Hc Hperm [Hr1 Hr2].
  assert (forall b, b ∈ k1' \/ b ∈ k2' <-> b ∈ k1 \/ b ∈ k2) as Hin.
  { intros b. rewrite <- !elem_of_app. by rewrite Hperm. }
  assert (NoDup (k1' ++ k2')) as (_ & Hdis & _)%NoDup_app.
  { rewrite Hperm. apply NoDup_app.
    split; [apply (rep_nodup _ _ _ _ (pr_lists _ _ _ Hr _ _ Hk1)) |].
    split; [| apply (rep_nodup _ _ _ _ (pr_lists _ _ _ Hr _ _ Hk2))].
    intros b Hb1 Hb2. by apply Hne, (pr_once _ _ _ Hr h1 h2 k1 k2 b). }
  assert (forall b, b ∈ k1 ++ k2 -> b ∉ q_free p) as Hoff.
  { intros b [Hb | Hb]%elem_of_app; [by apply (pr_off _ _ _ Hr h1 k1)
      | by apply (pr_off _ _ _ Hr h2 k2)]. }
  assert (forall h k, h ∈ [h1; h2] -> <[h1 := k1']> (<[h2 := k2']> (q_lists p)) !! h = Some k ->
    (h = h1 /\ k = k1') \/ (h = h2 /\ k = k2')) as Hcases.
  { intros h k [-> | ->%list_elem_of_singleton]%elem_of_cons.
    - rewrite lookup_insert_eq. intros [= <-]. by left.
    - rewrite lookup_insert_ne, lookup_insert_eq by done. intros [= <-]. by right. }
  apply (pool_rel_update f m m' p [h1; h2] (k1 ++ k2)); [done | done | | | | |].
  - intros h [Hh1 Hh2%not_elem_of_cons]%not_elem_of_cons.
    rewrite !lookup_insert_ne; [done | by destruct Hh2 | done].
  - intros h k Hh Hk. assert (forall b, b ∈ k -> b ∈ k1 ++ k2) as Hb.
    { intros b Hb. rewrite elem_of_app, <- Hin.
      destruct (Hcases h k Hh Hk) as [[_ ->] | [_ ->]]; tauto. }
    split; [by destruct (Hcases h k Hh Hk) as [[-> ->] | [-> ->]] |].
    intros b Hbk. split; [by apply Hb | by apply Hoff, Hb].
  - intros h k b Hh Hk Hb [Hx | Hx]%elem_of_app; apply Hh.
    + rewrite (pr_once _ _ _ Hr h h1 k k1 b) by done. in_list.
    + rewrite (pr_once _ _ _ Hr h h2 k k2 b) by done. in_list.
  - intros b Hb. right. split; [| done]. intros Hx. by apply (Hoff b).
  - intros h h' k k' b Hh Hh' Hk Hk' Hb Hb'.
    destruct (Hcases h k Hh Hk) as [[-> ->] | [-> ->]],
      (Hcases h' k' Hh' Hk') as [[-> ->] | [-> ->]]; try done.
    + by destruct (Hdis b).
    + by destruct (Hdis b).
Qed.

Lemma pool_disjoint f m p h1 k1 h2 k2 :
  pool_rel f m p -> q_lists p !! h1 = Some k1 -> q_lists p !! h2 = Some k2 -> h1 <> h2 ->
  forall x, x ∈ k1 -> x ∉ k2.
Proof. intros Hr H1 H2 Hne x Hx1 Hx2. by apply Hne, (pr_once _ _ _ Hr h1 h2 k1 k2 x). Qed.

Lemma pool_concatenated f m m' p h1 k1 h2 k2 :
  pool_rel f m p -> q_lists p !! h1 = Some k1 -> q_lists p !! h2 = Some k2 -> h1 <> h2 ->
  concatenated f m m' h1 k1 h2 k2 ->
  pool_rel f m' (mk_pool (<[h1 := k1 ++ k2]> (<[h2 := []]> (q_lists p))) (q_free p)).
Proof.
  intros Hr H1 H2 Hne Hc. apply (pool_two f m m' p h1 k1 h2 k2); [done.. | | |].
  - by apply (concatenated_changes f).
  - by rewrite app_nil_r.
  - apply (represents_concatenated f m); [by apply (pr_lists _ _ _ Hr) ..| done | | done].
    by apply (pool_disjoint f m p h1 k1 h2 k2).
Qed.

Lemma pool_swapped f m m' p h1 k1 h2 k2 :
  pool_rel f m p -> q_lists p !! h1 = Some k1 -> q_lists p !! h2 = Some k2 -> h1 <> h2 ->
  swapped f m m' h1 k1 h2 k2 ->
  pool_rel f m' (mk_pool (<[h1 := k2]> (<[h2 := k1]> (q_lists p))) (q_free p)).
Proof.
  intros Hr H1 H2 Hne Hc. apply (pool_two f m m' p h1 k1 h2 k2); [done.. | | |].
  - by apply (swapped_changes f).
  - apply Permutation_app_comm.
  - apply (represents_swapped f m); [by apply (pr_lists _ _ _ Hr) ..| | done].
    by apply (pool_disjoint f m p h1 k1 h2 k2).
Qed.

(** Emptying a head leaves its elements free. *)
Lemma pool_emptied f m m' p h ids :
  pool_rel f m p -> q_lists p !! h = Some ids -> changes_only m m' [h] [] ->
  represents f m' h [] ->
  pool_rel f m' (mk_pool (<[h := []]> (q_lists p)) (q_free p ∪ list_to_set ids)).
Proof.
  intros Hr Hh Hc He.
  assert (forall b, b ∈ ids -> elem_live f m' b) as Hlive.
  { intros b Hb. destruct (Hc (Next b)) as [E1 E2];
      [done | by intros c Hx%elem_of_nil |]. unfold elem_live. rewrite E1, E2.
    by apply (represents_live f m h ids), Hb; apply (pr_lists _ _ _ Hr). }
  apply (pool_rel_update f m m' p [h] ids); [done | | | | | |].
  - intros x Hx _. apply Hc; [done |]. by intros b ?%elem_of_nil.
  - intros h' Hh'. apply lookup_insert_ne. intros ->. apply Hh'. in_list.
  - intros h' k ->%list_elem_of_singleton. rewrite lookup_insert_eq. intros [= <-].
    split; [done |]. by intros a ?%elem_of_nil.
  - intros h' k b Hh' Hk Hb Hbi. apply Hh'.
    rewrite (pr_once _ _ _ Hr h' h k _ b Hk Hh Hb Hbi). in_list.
  - intros b [Hb | Hb%elem_of_list_to_set]%elem_of_union.
    + right. split; [| done]. intros Hbi. by apply (pr_off _ _ _ Hr h _ b Hh).
    + left. split; [done | by apply Hlive].
  - by intros h1 h2 k1 k2 b ->%list_elem_of_singleton ->%list_elem_of_singleton.
Qed.

(** ** The laws of the macros

    What each macro has to do with the fields for its family to refine the lists; an
    operation the family lacks satisfies its law trivially. *)
Record macro_laws (f : family) (exec : qmem -> queue_op -> option (outcome qmem)) : Prop := {
  law_init m h r : head_live f m h -> exec m (OpInit h) = Some r ->
    exists m', r = Ret m' /\ represents f m' h [] /\ changes_only m m' [h] [];
  law_insert_head m h ids a r : represents f m h ids -> a ∉ ids -> elem_live f m a ->
    exec m (OpInsertHead h a) = Some r ->
    exists m', r = Ret m' /\ inserted f m m' h [] a ids;
  law_insert_tail m h ids a r : represents f m h ids -> a ∉ ids -> elem_live f m a ->
    exec m (OpInsertTail h a) = Some r ->
    exists m', r = Ret m' /\ inserted f m m' h ids a [];
  law_insert_after m h ids1 b ids2 a r : represents f m h (ids1 ++ b :: ids2) ->
    a ∉ ids1 ++ b :: ids2 -> elem_live f m a -> exec m (OpInsertAfter h b a) = Some r ->
    exists m', r = Ret m' /\ inserted f m m' h (ids1 ++ [b]) a ids2;
  law_insert_before m h ids1 b ids2 a r : represents f m h (ids1 ++ b :: ids2) ->
    a ∉ ids1 ++ b :: ids2 -> elem_live f m a -> exec m (OpInsertBefore h b a) = Some r ->
    exists m', r = Ret m' /\ inserted f m m' h ids1 a (b :: ids2);
  law_remove_head m h a ids r : represents f m h (a :: ids) ->
    exec m (OpRemoveHead h) = Some r ->
    exists m', r = Ret m' /\ removed f m m' h [] a ids;
  law_remove_after m h ids1 b a ids2 r : represents f m h (ids1 ++ b :: a :: ids2) ->
    exec m (OpRemoveAfter h b) = Some r ->
    exists m', r = Ret m' /\ removed f m m' h (ids1 ++ [b]) a ids2;
  law_remove m h ids1 a ids2 r : represents f m h (ids1 ++ a :: ids2) ->
    exec m (OpRemove h a) = Some r ->
    exists m', r = Ret m' /\ removed f m m' h ids1 a ids2;
  law_concat m h1 ids1 h2 ids2 r : represents f m h1 ids1 -> represents f m h2 ids2 ->
    h1 <> h2 -> (forall x, x ∈ ids1 -> x ∉ ids2) -> exec m (OpConcat h1 h2) = Some r ->
    exists m', r = Ret m' /\ concatenated f m m' h1 ids1 h2 ids2;
  law_swap m h1 ids1 h2 ids2 r : represents f m h1 ids1 -> represents f m h2 ids2 ->
    h1 <> h2 -> (forall x, x ∈ ids1 -> x ∉ ids2) -> exec m (OpSwap h1 h2) = Some r ->
    exists m', r = Ret m' /\ swapped f m m' h1 ids1 h2 ids2;
}.

Lemma laws_family f exec : macro_laws f exec -> QueueFamily f exec.
Proof.
  intros L m p op p' r Hr Hstep. pose proof (pr_lists _ _ _ Hr) as Hl.
  pose proof (pr_free _ _ _ Hr) as Hf.
  pose proof (fun h ids a => pool_fresh f m p h ids a Hr) as Hfresh.
  destruct Hstep as [h ids H | h a ids H Ha | h a ids H Ha | h b a ids1 ids2 H Ha
    | h b a ids1 ids2 H Ha | h a ids H | h b a ids1 ids2 H | h a ids1 ids2 H
    | h1 h2 ids1 ids2 H1 H2 Hne | h1 h2 ids1 ids2 H1 H2 Hne]; intros Hx.
  - apply (law_init _ _ L) in Hx as (m' & E & He & Hc); [| by eapply pool_live].
    exists m'. split; [done |]. by apply (pool_emptied f m m' p h ids).
  - apply (law_insert_head _ _ L m h ids) in Hx as (m' & E & Hi); [| eauto..].
    exists m'. split; [done |]. by apply (pool_inserted f m m' p h [] a ids).
  - apply (law_insert_tail _ _ L m h ids) in Hx as (m' & E & Hi); [| eauto..].
    exists m'. split; [done |]. apply (pool_inserted f m m' p h ids a []); [done | | done | done].
    by rewrite app_nil_r.
  - apply (law_insert_after _ _ L m h ids1 b ids2) in Hx as (m' & E & Hi); [| eauto..].
    exists m'. split; [done |].
    pose proof (pool_inserted f m m' p h (ids1 ++ [b]) a ids2 Hr) as Hp.
    rewrite <- !app_assoc in Hp. by apply Hp.
  - apply (law_insert_before _ _ L m h ids1 b ids2) in Hx as (m' & E & Hi); [| eauto..].
    exists m'. split; [done |]. by apply (pool_inserted f m m' p h ids1 a (b :: ids2)).
  - apply (law_remove_head _ _ L m h a ids) in Hx as (m' & E & Hi); [| eauto].
    exists m'. split; [done |]. by apply (pool_removed f m m' p h [] a ids).
  - apply (law_remove_after _ _ L m h ids1 b a ids2) in Hx as (m' & E & Hi); [| eauto].
    exists m'. split; [done |].
    pose proof (pool_removed f m m' p h (ids1 ++ [b]) a ids2 Hr) as Hp.
    rewrite <- !app_assoc in Hp. by apply Hp.
  - apply (law_remove _ _ L m h ids1 a ids2) in Hx as (m' & E & Hi); [| eauto].
    exists m'. split; [done |]. by apply (pool_removed f m m' p h ids1 a ids2).
  - apply (law_concat _ _ L m h1 ids1 h2 ids2) in Hx as (m' & E & Hi);
      [| eauto.. | by apply (pool_disjoint f m p h1 ids1 h2 ids2)].
    exists m'. split; [done |]. by apply (pool_concatenated f m m' p h1 ids1 h2 ids2).
  - apply (law_swap _ _ L m h1 ids1 h2 ids2) in Hx as (m' & E & Hi);
      [| eauto.. | by apply (pool_disjoint f m p h1 ids1 h2 ids2)].
    exists m'. split; [done |]. by apply (pool_swapped f m m' p h1 ids1 h2 ids2).
Qed.

(** ** Observing a list *)

(** A loop body that records the elements it sees. *)
Definition collect (a : nat) (st : qmem * list nat)
    : outcome (qmem * list nat + qmem * list nat) := Ret (inr (fst st, snd st ++ [a])).

Lemma visit_collect ids m seen :
  visit collect ids (m, seen) = Ret (None, (m, seen ++ ids)).
Proof.
  revert seen. induction ids as [|a ids IH]; intros seen; cbn [visit].
  - by rewrite app_nil_r.
  - unfold collect at 1. cbn. by rewrite IH, <- app_assoc.
Qed.

Lemma foreach_collect move m ids fuel :
  chain move m ids -> (length ids < fuel)%nat ->
  foreach move collect fuel (head ids) (m, []) = Ret (None, (m, ids)).
Proof.
  intros Hc Hfuel. rewrite foreach_visit; [by rewrite visit_collect | | done | done].
  by intros a st st' [= <-] b.
Qed.

(** From an element in the middle the loop sees the rest of the list. *)
Lemma foreach_collect_from f m h ids1 a ids2 :
  represents f m h (ids1 ++ a :: ids2) ->
  foreach get_next collect (walk_fuel m) (Some a) (m, []) = Ret (None, (m, a :: ids2)).
Proof.
  intros Hr. apply (foreach_collect get_next m (a :: ids2)).
  - by apply (chain_next f m h ids1).
  - apply represents_fuel in Hr. rewrite length_app in Hr. lia.
Qed.

(** A loop body that frees the element it is given. *)
Definition free_body (a : nat) (st : qmem * list nat)
    : outcome (qmem * list nat + qmem * list nat) :=
  Ret (inr (free_elem (fst st) a, snd st ++ [a])).

Lemma visit_free ids m seen :
  visit free_body ids (m, seen) = Ret (None, (foldl free_elem m ids, seen ++ ids)).
Proof.
  revert m seen. induction ids as [|a ids IH]; intros m seen; cbn [visit foldl].
  - by rewrite app_nil_r.
  - unfold free_body at 1. cbn. by rewrite IH, <- app_assoc.
Qed.

Lemma free_elem_next m a b : b <> a -> get_next (free_elem m a) (Some b) = get_next m (Some b).
Proof. intros. queue_unfold. cbn. by rewrite lookup_delete_ne by congruence. Qed.

(** The safe loop may free the list as it goes; the plain one reads the link of the
    element it has just freed. *)
Lemma foreach_safe_free f m h ids :
  represents f m h ids ->
  foreach_safe get_next free_body (walk_fuel m) (head ids) (m, [])
    = Ret (None, (foldl free_elem m ids, ids)).
Proof.
  intros Hr. rewrite (foreach_safe_visit get_next free_body ids).
  - by rewrite visit_free.
  - apply (rep_nodup _ _ _ _ Hr).
  - intros a b st st' _ _ [= <-] Hne. by apply free_elem_next.
  - by apply (chain_next f m h []).
  - by apply (represents_fuel f m h).
Qed.

Lemma foreach_free_faults f m h a ids :
  represents f m h (a :: ids) ->
  foreach get_next free_body (walk_fuel m) (head (a :: ids)) (m, []) = Fault UseAfterFree.
Proof.
  intros Hr. unfold walk_fuel. cbn [foreach head]. unfold free_body at 1.
  cbn [mbind outcome_bind fst]. queue_unfold. cbn. by rewrite lookup_delete_eq.
Qed.

(** ** Where to start *)

(** Heads set up by their [HEAD_INITIALIZER], and elements on no list. *)
Definition initial_mem (hs elems : gset nat) : qmem :=
  let p := gset_to_gmap None (set_map (D := gset link) First hs ∪ set_map Next elems) in
  mk_qmem p (map_imap (fun l _ => Some l) p).

Definition initial_pool (hs elems : gset nat) : pool := mk_pool (gset_to_gmap [] hs) elems.

Lemma initial_pool_rel f hs elems :
  pool_rel f (initial_mem hs elems) (initial_pool hs elems).
Proof.
  split; cbn [initial_pool q_lists q_free].
  - intros h ids [Hh <-]%lookup_gset_to_gmap_Some.
    assert (ptrs (initial_mem hs elems) !! First h = Some None) as Hp.
    { apply lookup_gset_to_gmap_Some. split; [| done]. rewrite elem_of_union, elem_of_map. eauto. }
    split; cbn [seg]; [done | done | | constructor]. destruct (has_last f); [| done].
    unfold initial_mem in *. cbn [ptrs links] in *. by rewrite map_lookup_imap, Hp.
  - intros a Ha. assert (ptrs (initial_mem hs elems) !! Next a = Some None) as Hp.
    { apply lookup_gset_to_gmap_Some. split; [| done].
      rewrite elem_of_union, !elem_of_map. eauto. }
    split; [by eexists |]. destruct (has_prev f); [| done].
    eexists. unfold initial_mem in *. cbn [ptrs links] in *. by rewrite map_lookup_imap, Hp.
  - intros h1 h2 ids1 ids2 a [_ <-]%lookup_gset_to_gmap_Some. by intros _ ?%elem_of_nil.
  - intros h ids a [_ <-]%lookup_gset_to_gmap_Some. by intros ?%elem_of_nil.
Qed.

(** Two queues of numbered elements, and a program on them. *)
Definition demo_pool : pool := initial_pool {[0; 1]}%nat {[10; 11; 12; 13]}%nat.
Definition demo_mem : qmem := initial_mem {[0; 1]}%nat {[10; 11; 12; 13]}%nat.

(** One step of a concrete run: [t] is the constructor that allows it. *)
Ltac pool_run_step t :=
  eapply run_cons;
    [eapply t; first [reflexivity | discriminate | apply (bool_decide_unpack _); by vm_compute] |].

Ltac all_supported := repeat constructor; intros ?; by eexists.
