(* ===== verification/STailQ.v ===== *)
(** The singly-linked tail queue macros of [server/queue.h] ([STAILQ_*]): a head
    keeps the first element and the address of the link that ends the list. *)

From S2P Require Import Prelude Queue QueueSpec.

(** [STAILQ_HEAD] has [stqh_first] and [stqh_last]; [STAILQ_ENTRY] has only
    [stqe_next]. *)
Definition stailq : family := mk_family false true.

(** [{ NULL, &(head).stqh_first }] *)
Definition STAILQ_HEAD_INITIALIZER (head : nat) : option nat * link := (None, First head).

(** ** The macros *)

Definition STAILQ_FIRST (m : qmem) (head : nat) : outcome (option nat) := load m (First head).

Definition STAILQ_EMPTY (m : qmem) (head : nat) : outcome bool :=
  p ← STAILQ_FIRST m head; Ret (bool_decide (p = None)).

Definition STAILQ_NEXT (m : qmem) (elm : option nat) : outcome (option nat) := get_next m elm.

Definition STAILQ_INIT (m : qmem) (head : nat) : outcome qmem :=
  m ← store m (First head) None;
  store_link m (First head) (First head).

(** [(head)->stqh_last = &STAILQ_NEXT((elm), field)] *)
Definition set_last_elem (m : qmem) (head : nat) (elm : option nat) : outcome qmem :=
  l ← elem_link elm; store_link m (First head) l.

Definition STAILQ_INSERT_AFTER (m : qmem) (head : nat) (tqelm elm : option nat) : outcome qmem :=
  next ← STAILQ_NEXT m tqelm;
  m ← set_next m elm next;
  m ← (if decide (next = None) then set_last_elem m head elm else Ret m);
  set_next m tqelm elm.

Definition STAILQ_INSERT_HEAD (m : qmem) (head : nat) (elm : option nat) : outcome qmem :=
  first ← STAILQ_FIRST m head;
  m ← set_next m elm first;
  m ← (if decide (first = None) then set_last_elem m head elm else Ret m);
  store m (First head) elm.

Definition STAILQ_INSERT_TAIL (m : qmem) (head : nat) (elm : option nat) : outcome qmem :=
  m ← set_next m elm None;
  l ← load_link m (First head);
  m ← store m l elm;
  set_last_elem m head elm.

Definition STAILQ_REMOVE_HEAD (m : qmem) (head : nat) : outcome qmem :=
  first ← STAILQ_FIRST m head;
  next ← STAILQ_NEXT m first;
  m ← store m (First head) next;
  if decide (next = None) then store_link m (First head) (First head) else Ret m.

Definition STAILQ_REMOVE_AFTER (m : qmem) (head : nat) (elm : option nat) : outcome qmem :=
  next ← STAILQ_NEXT m elm;
  after ← STAILQ_NEXT m next;
  m ← set_next m elm after;
  if decide (after = None) then set_last_elem m head elm else Ret m.

Definition STAILQ_REMOVE (m : qmem) (head : nat) (elm : option nat) : outcome qmem :=
  first ← STAILQ_FIRST m head;
  if decide (first = elm) then STAILQ_REMOVE_HEAD m head
  else
    curelm ← find_prev (walk_fuel m) m first elm;
    STAILQ_REMOVE_AFTER m head curelm.

Definition STAILQ_CONCAT (m : qmem) (head1 head2 : nat) : outcome qmem :=
  empty2 ← STAILQ_EMPTY m head2;
  if (empty2 : bool) then Ret m
  else
    first2 ← STAILQ_FIRST m head2;
    last1 ← load_link m (First head1);
    m ← store m last1 first2;
    last2 ← load_link m (First head2);
    m ← store_link m (First head1) last2;
    STAILQ_INIT m head2.

Definition STAILQ_SWAP (m : qmem) (head1 head2 : nat) : outcome qmem :=
  swap_first ← STAILQ_FIRST m head1;
  swap_last ← load_link m (First head1);
  first2 ← STAILQ_FIRST m head2;
  m ← store m (First head1) first2;
  last2 ← load_link m (First head2);
  m ← store_link m (First head1) last2;
  m ← store m (First head2) swap_first;
  m ← store_link m (First head2) swap_last;
  empty1 ← STAILQ_EMPTY m head1;
  m ← (if (empty1 : bool) then store_link m (First head1) (First head1) else Ret m);
  empty2 ← STAILQ_EMPTY m head2;
  if (empty2 : bool) then store_link m (First head2) (First head2) else Ret m.

(** [__containerof(p, type, field.stqe_next)] is a macro of the C library: the
    element whose link [p] is the address of. *)
Definition STAILQ_LAST (containerof : link -> outcome (option nat)) (m : qmem) (head : nat)
    : outcome (option nat) :=
  empty ← STAILQ_EMPTY m head;
  if (empty : bool) then Ret None else l ← load_link m (First head); containerof l.

(** The loops. *)
Definition STAILQ_FOREACH {St} body (head : nat) (st : qmem * St)
    : outcome (option nat * (qmem * St)) :=
  var ← STAILQ_FIRST (fst st) head; foreach STAILQ_NEXT body (walk_fuel (fst st)) var st.

Definition STAILQ_FOREACH_FROM {St} body (var : option nat) (head : nat) (st : qmem * St)
    : outcome (option nat * (qmem * St)) :=
  var ← match var with Some _ => Ret var | None => STAILQ_FIRST (fst st) head end;
  foreach STAILQ_NEXT body (walk_fuel (fst st)) var st.

Definition STAILQ_FOREACH_SAFE {St} body (head : nat) (st : qmem * St)
    : outcome (option nat * (qmem * St)) :=
  var ← STAILQ_FIRST (fst st) head; foreach_safe STAILQ_NEXT body (walk_fuel (fst st)) var st.

Definition STAILQ_FOREACH_FROM_SAFE {St} body (var : option nat) (head : nat) (st : qmem * St)
    : outcome (option nat * (qmem * St)) :=
  var ← match var with Some _ => Ret var | None => STAILQ_FIRST (fst st) head end;
  foreach_safe STAILQ_NEXT body (walk_fuel (fst st)) var st.

(** The operations of the family. *)
Definition stailq_exec (m : qmem) (op : queue_op) : option (outcome qmem) :=
  match op with
  | OpInit h => Some (STAILQ_INIT m h)
  | OpInsertHead h a => Some (STAILQ_INSERT_HEAD m h (Some a))
  | OpInsertTail h a => Some (STAILQ_INSERT_TAIL m h (Some a))
  | OpInsertAfter h b a => Some (STAILQ_INSERT_AFTER m h (Some b) (Some a))
  | OpInsertBefore _ _ _ => None
  | OpRemoveHead h => Some (STAILQ_REMOVE_HEAD m h)
  | OpRemoveAfter h b => Some (STAILQ_REMOVE_AFTER m h (Some b))
  | OpRemove h a => Some (STAILQ_REMOVE m h (Some a))
  | OpConcat h1 h2 => Some (STAILQ_CONCAT m h1 h2)
  | OpSwap h1 h2 => Some (STAILQ_SWAP m h1 h2)
  end.

(** ** What the macros do to the list *)

Lemma STAILQ_FIRST_spec m h ids :
  represents stailq m h ids -> STAILQ_FIRST m h = Ret (head ids).
Proof. intros Hr. unfold STAILQ_FIRST, load. by rewrite (seg_value stailq m h [] ids Hr : _ !! First h = _). Qed.

Lemma STAILQ_EMPTY_spec m h ids :
  represents stailq m h ids -> STAILQ_EMPTY m h = Ret (bool_decide (ids = [])).
Proof.
  intros Hr. unfold STAILQ_EMPTY. rewrite (STAILQ_FIRST_spec m h ids Hr). by destruct ids.
Qed.

Lemma STAILQ_INIT_spec m h :
  head_live stailq m h ->
  exists m', STAILQ_INIT m h = Ret m' /\ represents stailq m' h [] /\ changes_only m m' [h] [].
Proof.
  intros [[p Hp] [l Hl]]. unfold STAILQ_INIT. queue_eval. eexists. split; [done |]. split.
  - split; cbn; [done | queue_fields | queue_fields | constructor].
  - intros x Hx _. specialize (Hx h ltac:(in_list)). cbn. by rewrite !lookup_insert_ne.
Qed.

Lemma STAILQ_INSERT_TAIL_spec m h ids a :
  represents stailq m h ids -> a ∉ ids -> elem_live stailq m a ->
  exists m', STAILQ_INSERT_TAIL m h (Some a) = Ret m' /\ inserted stailq m m' h ids a [].
Proof.
  intros Hr Ha [[p Hp] _]. pose proof (end_link_fresh h ids a Ha) as Hne.
  pose proof (rep_end _ _ _ _ Hr) as He. pose proof (rep_last _ _ _ _ Hr) as Hl. cbn in Hl.
  unfold STAILQ_INSERT_TAIL, set_last_elem. queue_eval. eexists. split; [done |].
  split; queue_fields.
Qed.

Lemma STAILQ_INSERT_HEAD_spec m h ids a :
  represents stailq m h ids -> a ∉ ids -> elem_live stailq m a ->
  exists m', STAILQ_INSERT_HEAD m h (Some a) = Ret m' /\ inserted stailq m m' h [] a ids.
Proof.
  intros Hr Ha [[p Hp] _]. pose proof (seg_value stailq m h [] ids Hr : _ !! First h = _) as Hf.
  pose proof (rep_last _ _ _ _ Hr) as Hl. cbn in Hl.
  unfold STAILQ_INSERT_HEAD, STAILQ_FIRST, set_last_elem. queue_eval.
  destruct ids as [|b ids]; cbn [head] in *.
  - rewrite decide_True by done. queue_eval. eexists. split; [done |]. split; queue_fields.
  - rewrite decide_False by done. queue_eval. eexists. split; [done |].
    split; queue_fields.
Qed.

Lemma STAILQ_INSERT_AFTER_spec m h ids1 b ids2 a :
  represents stailq m h (ids1 ++ b :: ids2) -> a ∉ ids1 ++ b :: ids2 -> elem_live stailq m a ->
  exists m', STAILQ_INSERT_AFTER m h (Some b) (Some a) = Ret m' /\
    inserted stailq m m' h (ids1 ++ [b]) a ids2.
Proof.
  intros Hr Ha [[p Hp] _]. pose proof (seg_next _ _ _ _ _ _ Hr) as Hb.
  pose proof (rep_last _ _ _ _ Hr) as Hl. cbn in Hl.
  rewrite end_link_app, end_link_cons in Hl.
  assert (a <> b) as Hne by (intros ->; apply Ha; in_list).
  unfold STAILQ_INSERT_AFTER, STAILQ_NEXT, set_last_elem. queue_eval.
  destruct ids2 as [|c ids2]; cbn [head] in *.
  - rewrite decide_True by done. queue_eval. eexists. split; [done |].
    split; rewrite ?end_link_snoc; queue_fields.
  - rewrite decide_False by done. queue_eval. eexists. split; [done |].
    split; rewrite ?end_link_snoc; queue_fields.
Qed.

Lemma STAILQ_REMOVE_HEAD_spec m h a ids :
  represents stailq m h (a :: ids) ->
  exists m', STAILQ_REMOVE_HEAD m h = Ret m' /\ removed stailq m m' h [] a ids.
Proof.
  intros Hr. pose proof (seg_value stailq m h [] _ Hr : _ !! First h = _) as Hf.
  pose proof (seg_next stailq m h [] a ids Hr) as Ha. cbn [head] in Hf.
  pose proof (rep_last _ _ _ _ Hr) as Hl. cbn in Hl.
  unfold STAILQ_REMOVE_HEAD, STAILQ_FIRST, STAILQ_NEXT. queue_eval.
  destruct ids as [|c ids]; cbn [head] in *.
  - rewrite decide_True by done. queue_eval. eexists. split; [done |].
    split; [queue_fields.. |]. split; [| done]. eexists. queue_fields.
  - rewrite decide_False by done. eexists. split; [done |].
    split; cbn [app]; [queue_fields.. |]. split; [| done]. eexists. queue_fields.
Qed.

Lemma STAILQ_REMOVE_AFTER_spec m h ids1 b a ids2 :
  represents stailq m h (ids1 ++ b :: a :: ids2) ->
  exists m', STAILQ_REMOVE_AFTER m h (Some b) = Ret m' /\
    removed stailq m m' h (ids1 ++ [b]) a ids2.
Proof.
  intros Hr. pose proof (seg_next _ _ _ _ _ _ Hr) as Hb. cbn [head] in Hb.
  assert (represents stailq m h ((ids1 ++ [b]) ++ a :: ids2)) as Hr'
    by by rewrite <- app_assoc.
  pose proof (seg_next _ _ _ _ _ _ Hr') as Ha.
  pose proof (rep_last _ _ _ _ Hr) as Hl. cbn in Hl.
  rewrite end_link_app, !end_link_cons in Hl.
  pose proof (rep_nodup _ _ _ _ Hr') as (Hab%not_elem_of_app & _ & _)%NoDup_middle.
  rewrite not_elem_of_cons in Hab. destruct Hab as [_ [Hab _]].
  unfold STAILQ_REMOVE_AFTER, STAILQ_NEXT, set_last_elem. queue_eval.
  destruct ids2 as [|c ids2]; cbn [head] in *.
  - rewrite decide_True by done. queue_eval. eexists. split; [done |].
    split; rewrite ?app_nil_r, ?end_link_snoc; [queue_fields.. |]. split; [| done].
    eexists. queue_fields.
  - rewrite decide_False by done. queue_eval. eexists. split; [done |].
    split; rewrite ?(end_link_app _ (ids1 ++ [b]) (_ :: _)), ?end_link_snoc; [queue_fields.. |].
    split; [| done].
    eexists. queue_fields.
Qed.

Lemma STAILQ_REMOVE_spec m h ids1 a ids2 :
  represents stailq m h (ids1 ++ a :: ids2) ->
  exists m', STAILQ_REMOVE m h (Some a) = Ret m' /\ removed stailq m m' h ids1 a ids2.
Proof.
  intros Hr. unfold STAILQ_REMOVE. rewrite (STAILQ_FIRST_spec m h _ Hr).
  cbn [mbind outcome_bind]. destruct ids1 as [|b ids1 _] using rev_ind.
  - rewrite decide_True by done. by apply STAILQ_REMOVE_HEAD_spec.
  - pose proof (rep_nodup _ _ _ _ Hr) as (Ha & _ & _)%NoDup_middle.
    rewrite decide_False.
    + rewrite <- app_assoc in Hr |- *. cbn [app] in Hr |- *.
      rewrite (find_prev_spec stailq m h ids1 b (a :: ids2) Hr : _ (Some a) = _).
      by apply STAILQ_REMOVE_AFTER_spec.
    + rewrite <- app_assoc. intros E. apply Ha. destruct ids1; injection E as ->; in_list.
Qed.

Lemma STAILQ_REMOVE_absent m h ids a :
  represents stailq m h ids -> a ∉ ids -> STAILQ_REMOVE m h (Some a) = Fault NullDeref.
Proof.
  intros Hr Ha. unfold STAILQ_REMOVE. rewrite (STAILQ_FIRST_spec m h _ Hr).
  cbn [mbind outcome_bind]. rewrite decide_False.
  - by rewrite (find_prev_absent stailq m h ids a).
  - intros E%head_in. done.
Qed.

Lemma STAILQ_CONCAT_spec m h1 ids1 h2 ids2 :
  represents stailq m h1 ids1 -> represents stailq m h2 ids2 -> h1 <> h2 ->
  exists m', STAILQ_CONCAT m h1 h2 = Ret m' /\ concatenated stailq m m' h1 ids1 h2 ids2.
Proof.
  intros Hr1 Hr2 Hne. pose proof (rep_end _ _ _ _ Hr1) as He1.
  pose proof (rep_last _ _ _ _ Hr1) as Hl1. pose proof (rep_last _ _ _ _ Hr2) as Hl2.
  pose proof (seg_value stailq m h2 [] _ Hr2 : _ !! First h2 = _) as Hf2. cbn in Hl1, Hl2.
  assert (end_link (First h1) ids1 <> First h2) as Hne2.
  { destruct (end_link_cases (First h1) ids1) as [[_ ->] | (b & _ & ->)]; congruence. }
  unfold STAILQ_CONCAT. rewrite (STAILQ_EMPTY_spec m h2 ids2 Hr2). cbn [mbind outcome_bind].
  destruct ids2 as [|c ids2]; cbn [head] in *.
  - rewrite bool_decide_true by done. eexists. split; [done |].
    split; rewrite ?app_nil_r; queue_fields.
  - rewrite bool_decide_false by done. unfold STAILQ_FIRST, STAILQ_INIT. queue_eval.
    eexists. split; [done |]. split; rewrite ?end_link_app; queue_fields.
Qed.

Lemma STAILQ_SWAP_spec m h1 ids1 h2 ids2 :
  represents stailq m h1 ids1 -> represents stailq m h2 ids2 -> h1 <> h2 ->
  exists m', STAILQ_SWAP m h1 h2 = Ret m' /\ swapped stailq m m' h1 ids1 h2 ids2.
Proof.
  intros Hr1 Hr2 Hne.
  pose proof (rep_last _ _ _ _ Hr1) as Hl1. pose proof (rep_last _ _ _ _ Hr2) as Hl2.
  pose proof (seg_value stailq m h1 [] _ Hr1 : _ !! First h1 = _) as Hf1.
  pose proof (seg_value stailq m h2 [] _ Hr2 : _ !! First h2 = _) as Hf2. cbn in Hl1, Hl2.
  unfold STAILQ_SWAP, STAILQ_EMPTY, STAILQ_FIRST. queue_eval.
  destruct ids1 as [|c1 ids1], ids2 as [|c2 ids2]; cbn [head] in *;
    repeat (first [rewrite bool_decide_true by done | rewrite bool_decide_false by done];
      queue_eval);
    (eexists; split; [done |]; split; try queue_fields; split; queue_fields).
Qed.

#[global] Instance stailq_family : QueueFamily stailq stailq_exec.
Proof.
  apply laws_family. split; intros *; intros; cbn [stailq_exec] in *; simplify_eq.
  - by apply STAILQ_INIT_spec.
  - by apply STAILQ_INSERT_HEAD_spec.
  - by apply STAILQ_INSERT_TAIL_spec.
  - by apply STAILQ_INSERT_AFTER_spec.
  - by apply STAILQ_REMOVE_HEAD_spec.
  - by apply STAILQ_REMOVE_AFTER_spec.
  - by apply STAILQ_REMOVE_spec.
  - by apply STAILQ_CONCAT_spec.
  - by apply STAILQ_SWAP_spec.
Qed.

(** ** Properties *)

(** C30. Any program on tail queues does to memory what it does to lists: from a memory
    that holds a pool of lists, every sequence of [STAILQ] insertions, removals,
    concatenations and exchanges that makes sense on the lists runs without a
    fault and leaves the memory of the resulting pool, where iterating over a head
    gives its list, starting from an element gives the list from there, the head is
    empty just when the list is, and its last element is the list's. *)
Theorem STAILQ_refines_lists containerof ops m p p' :
  (forall a, containerof (Next a) = Ret (Some a)) ->
  pool_rel stailq m p -> run pool_step p ops p' -> Forall (supports stailq_exec) ops ->
  exists m', run (mem_step stailq_exec) m ops m' /\ pool_rel stailq m' p' /\
    forall h ids, q_lists p' !! h = Some ids ->
      STAILQ_FOREACH collect h (m', []) = Ret (None, (m', ids)) /\
      STAILQ_EMPTY m' h = Ret (bool_decide (ids = [])) /\
      STAILQ_LAST containerof m' h = Ret (last ids) /\
      forall ids1 a ids2, ids = ids1 ++ a :: ids2 ->
        STAILQ_FOREACH_FROM collect (Some a) h (m', []) = Ret (None, (m', a :: ids2)).
Proof.
  intros Hc Hr Hrun Hs. destruct (family_run stailq stailq_exec ops m p p' Hr Hrun Hs)
    as (m' & Hm & Hr'). exists m'. split; [done |]. split; [done |]. intros h ids Hh.
  pose proof (pr_lists _ _ _ Hr' h ids Hh) as Hrep. split_and!.
  - unfold STAILQ_FOREACH. cbn [fst]. rewrite (STAILQ_FIRST_spec m' h ids Hrep).
    cbn [mbind outcome_bind]. apply foreach_collect;
      [by apply (chain_next stailq m' h []) | by apply (represents_fuel stailq m' h)].
  - by apply STAILQ_EMPTY_spec.
  - unfold STAILQ_LAST. rewrite (STAILQ_EMPTY_spec m' h ids Hrep). cbn [mbind outcome_bind].
    destruct ids as [|a ids _] using rev_ind; [done |].
    rewrite bool_decide_false by (by destruct ids). unfold load_link.
    rewrite (rep_last _ _ _ _ Hrep : links m' !! _ = _), end_link_snoc, last_snoc.
    apply Hc.
  - intros ids1 a ids2 ->. by apply (foreach_collect_from stailq m' h ids1).
Qed.

Definition stailq_demo : list queue_op :=
  [OpInsertTail 0 10; OpInsertTail 0 11; OpInsertHead 1 12; OpInsertAfter 0 10 13;
   OpConcat 1 0; OpRemove 1 13; OpSwap 0 1; OpRemoveHead 0]%nat.

Lemma stailq_demo_run :
  exists p', run pool_step demo_pool stailq_demo p' /\ q_lists p' !! 0%nat = Some [10; 11]%nat.
Proof.
  eexists. split.
  - pool_run_step (PInsertTail demo_pool 0 10 []).
    pool_run_step (fun p => PInsertTail p 0 11 [10])%nat.
    pool_run_step (fun p => PInsertHead p 1 12 [])%nat.
    pool_run_step (fun p => PInsertAfter p 0 10 13 [] [11])%nat.
    pool_run_step (fun p => PConcat p 1 0 [12] [10; 13; 11])%nat.
    pool_run_step (fun p => PRemove p 1 13 [12; 10] [11])%nat.
    pool_run_step (fun p => PSwap p 0 1 [] [12; 10; 11])%nat.
    pool_run_step (fun p => PRemoveHead p 0 12 [10; 11])%nat.
    apply run_nil.
  - reflexivity.
Qed.

Lemma STAILQ_refines_lists_witness :
  exists m', run (mem_step stailq_exec) demo_mem stailq_demo m' /\
    STAILQ_FOREACH collect 0 (m', []) = Ret (None, (m', [10; 11]%nat)).
Proof.
  destruct stailq_demo_run as (p' & Hrun & Hp').
  destruct (STAILQ_refines_lists
    (fun l => match l with Next a => Ret (Some a) | First _ => Fault OutOfBounds end)
    stailq_demo demo_mem demo_pool p') as (m' & Hm & _ & Ho).
  - done.
  - apply initial_pool_rel.
  - exact Hrun.
  - all_supported.
  - exists m'. split; [exact Hm |]. apply (Ho 0%nat [10; 11]%nat Hp').
Defined.
