(* ===== verification/ListQ.v ===== *)
(** The doubly-linked list macros of [server/queue.h] ([LIST_*]): an element keeps
    the address of the link that points to it, so it can be taken out, or have
    another put before it, without a walk and without the head. *)

From S2P Require Import Prelude Queue QueueSpec.

(** [LIST_HEAD] has only [lh_first]; [LIST_ENTRY] has [le_next] and [le_prev]. *)
Definition listq : family := mk_family true false.

(** ** The macros

    The checks [QMD_LIST_CHECK_*] are empty outside a kernel with [INVARIANTS],
    and [TRASHIT] is without [QUEUE_MACRO_DEBUG]. *)

Definition LIST_FIRST (m : qmem) (head : nat) : outcome (option nat) := load m (First head).

Definition LIST_EMPTY (m : qmem) (head : nat) : outcome bool :=
  p ← LIST_FIRST m head; Ret (bool_decide (p = None)).

Definition LIST_NEXT (m : qmem) (elm : option nat) : outcome (option nat) := get_next m elm.

Definition LIST_INIT (m : qmem) (head : nat) : outcome qmem := store m (First head) None.

Definition LIST_INSERT_AFTER (m : qmem) (listelm elm : option nat) : outcome qmem :=
  next ← LIST_NEXT m listelm;
  m ← set_next m elm next;
  m ← (if decide (next = None) then Ret m
       else n ← LIST_NEXT m listelm; l ← elem_link elm; set_prev m n l);
  m ← set_next m listelm elm;
  l ← elem_link listelm;
  set_prev m elm l.

Definition LIST_INSERT_BEFORE (m : qmem) (listelm elm : option nat) : outcome qmem :=
  prev ← get_prev m listelm;
  m ← set_prev m elm prev;
  m ← set_next m elm listelm;
  prev ← get_prev m listelm;
  m ← store m prev elm;
  l ← elem_link elm;
  set_prev m listelm l.

Definition LIST_INSERT_HEAD (m : qmem) (head : nat) (elm : option nat) : outcome qmem :=
  first ← LIST_FIRST m head;
  m ← set_next m elm first;
  m ← (if decide (first = None) then Ret m
       else first ← LIST_FIRST m head; l ← elem_link elm; set_prev m first l);
  m ← store m (First head) elm;
  set_prev m elm (First head).

Definition LIST_REMOVE (m : qmem) (elm : option nat) : outcome qmem :=
  next ← LIST_NEXT m elm;
  m ← (if decide (next = None) then Ret m
       else n ← LIST_NEXT m elm; prev ← get_prev m elm; set_prev m n prev);
  prev ← get_prev m elm;
  next ← LIST_NEXT m elm;
  store m prev next.

Definition LIST_CONCAT (m : qmem) (head1 head2 : nat) : outcome qmem :=
  curelm ← LIST_FIRST m head1;
  first2 ← LIST_FIRST m head2;
  match curelm with
  | None =>
      m ← store m (First head1) first2;
      if decide (first2 = None) then Ret m
      else
        first2 ← LIST_FIRST m head2;
        m ← set_prev m first2 (First head1);
        LIST_INIT m head2
  | Some _ =>
      if decide (first2 = None) then Ret m
      else
        curelm ← find_prev (walk_fuel m) m curelm None;
        m ← set_next m curelm first2;
        first2 ← LIST_FIRST m head2;
        l ← elem_link curelm;
        m ← set_prev m first2 l;
        LIST_INIT m head2
  end.

Definition LIST_SWAP (m : qmem) (head1 head2 : nat) : outcome qmem :=
  swap_tmp ← LIST_FIRST m head1;
  first2 ← LIST_FIRST m head2;
  m ← store m (First head1) first2;
  m ← store m (First head2) swap_tmp;
  swap_tmp ← LIST_FIRST m head1;
  m ← (if decide (swap_tmp = None) then Ret m else set_prev m swap_tmp (First head1));
  swap_tmp ← LIST_FIRST m head2;
  if decide (swap_tmp = None) then Ret m else set_prev m swap_tmp (First head2).

(** [__containerof(p, type, field.le_next)] is a macro of the C library: the
    element whose link [p] is the address of. *)
Definition LIST_PREV (containerof : link -> outcome (option nat)) (m : qmem)
    (elm : option nat) (head : nat) : outcome (option nat) :=
  prev ← get_prev m elm;
  if decide (prev = First head) then Ret None else containerof prev.

(** The loops. *)
Definition LIST_FOREACH {St} body (head : nat) (st : qmem * St)
    : outcome (option nat * (qmem * St)) :=
  var ← LIST_FIRST (fst st) head; foreach LIST_NEXT body (walk_fuel (fst st)) var st.

Definition LIST_FOREACH_FROM {St} body (var : option nat) (head : nat) (st : qmem * St)
    : outcome (option nat * (qmem * St)) :=
  var ← match var with Some _ => Ret var | None => LIST_FIRST (fst st) head end;
  foreach LIST_NEXT body (walk_fuel (fst st)) var st.

Definition LIST_FOREACH_SAFE {St} body (head : nat) (st : qmem * St)
    : outcome (option nat * (qmem * St)) :=
  var ← LIST_FIRST (fst st) head; foreach_safe LIST_NEXT body (walk_fuel (fst st)) var st.

Definition LIST_FOREACH_FROM_SAFE {St} body (var : option nat) (head : nat) (st : qmem * St)
    : outcome (option nat * (qmem * St)) :=
  var ← match var with Some _ => Ret var | None => LIST_FIRST (fst st) head end;
  foreach_safe LIST_NEXT body (walk_fuel (fst st)) var st.

(** The operations of the family. *)
Definition listq_exec (m : qmem) (op : queue_op) : option (outcome qmem) :=
  match op with
  | OpInit h => Some (LIST_INIT m h)
  | OpInsertHead h a => Some (LIST_INSERT_HEAD m h (Some a))
  | OpInsertAfter _ b a => Some (LIST_INSERT_AFTER m (Some b) (Some a))
  | OpInsertBefore _ b a => Some (LIST_INSERT_BEFORE m (Some b) (Some a))
  | OpRemove _ a => Some (LIST_REMOVE m (Some a))
  | OpConcat h1 h2 => Some (LIST_CONCAT m h1 h2)
  | OpSwap h1 h2 => Some (LIST_SWAP m h1 h2)
  | OpInsertTail _ _ | OpRemoveHead _ | OpRemoveAfter _ _ => None
  end.

(** ** What the macros do to the list *)

Lemma LIST_FIRST_spec m h ids : represents listq m h ids -> LIST_FIRST m h = Ret (head ids).
Proof.
  intros Hr. unfold LIST_FIRST, load.
  by rewrite (seg_value listq m h [] ids Hr : _ !! First h = _).
Qed.

Lemma LIST_EMPTY_spec m h ids :
  represents listq m h ids -> LIST_EMPTY m h = Ret (bool_decide (ids = [])).
Proof.
  intros Hr. unfold LIST_EMPTY. rewrite (LIST_FIRST_spec m h ids Hr). by destruct ids.
Qed.

Lemma LIST_INIT_spec m h :
  head_live listq m h ->
  exists m', LIST_INIT m h = Ret m' /\ represents listq m' h [] /\ changes_only m m' [h] [].
Proof.
  intros [[p Hp] _]. unfold LIST_INIT. queue_eval. eexists. split; [done |]. split.
  - split; cbn; [done | queue_fields | done | constructor].
  - intros x Hx _. specialize (Hx h ltac:(in_list)). cbn. by rewrite !lookup_insert_ne.
Qed.

Lemma LIST_INSERT_HEAD_spec m h ids a :
  represents listq m h ids -> a ∉ ids -> elem_live listq m a ->
  exists m', LIST_INSERT_HEAD m h (Some a) = Ret m' /\ inserted listq m m' h [] a ids.
Proof.
  intros Hr Ha [[p Hp] [k Hk]]. pose proof (seg_value listq m h [] ids Hr : _ !! First h = _) as Hf.
  unfold LIST_INSERT_HEAD, LIST_FIRST. queue_eval. destruct ids as [|b ids]; cbn [head] in *.
  - rewrite decide_True by done. queue_eval. eexists. split; [done |]. split; queue_fields.
  - apply not_elem_of_cons in Ha as [Hab _].
    pose proof (seg_prev listq m h [] b ids eq_refl Hr) as Hb.
    rewrite decide_False by done. queue_eval. eexists. split; [done |].
    split; queue_fields.
Qed.

Lemma LIST_INSERT_AFTER_spec m h ids1 b ids2 a :
  represents listq m h (ids1 ++ b :: ids2) -> a ∉ ids1 ++ b :: ids2 -> elem_live listq m a ->
  exists m', LIST_INSERT_AFTER m (Some b) (Some a) = Ret m' /\
    inserted listq m m' h (ids1 ++ [b]) a ids2.
Proof.
  intros Hr Ha [[p Hp] [k Hk]]. pose proof (seg_next _ _ _ _ _ _ Hr) as Hb.
  pose proof (seg_prev listq _ _ _ _ _ eq_refl Hr) as Hbp.
  assert (a <> b) as Hne by (intros ->; apply Ha; in_list).
  unfold LIST_INSERT_AFTER, LIST_NEXT. queue_eval. destruct ids2 as [|c ids2]; cbn [head] in *.
  - rewrite decide_True by done. queue_eval. eexists. split; [done |].
    split; rewrite ?end_link_snoc; queue_fields.
  - assert (a <> c) as Hac by (intros ->; apply Ha; in_list).
    assert (represents listq m h ((ids1 ++ [b]) ++ c :: ids2)) as Hr' by by rewrite <- app_assoc.
    pose proof (seg_prev listq _ _ _ _ _ eq_refl Hr') as Hc.
    rewrite decide_False by done. queue_eval. eexists. split; [done |].
    split; rewrite ?end_link_snoc; queue_fields.
Qed.

Lemma LIST_INSERT_BEFORE_spec m h ids1 b ids2 a :
  represents listq m h (ids1 ++ b :: ids2) -> a ∉ ids1 ++ b :: ids2 -> elem_live listq m a ->
  exists m', LIST_INSERT_BEFORE m (Some b) (Some a) = Ret m' /\
    inserted listq m m' h ids1 a (b :: ids2).
Proof.
  intros Hr Ha [[p Hp] [k Hk]]. pose proof (seg_value _ _ _ _ _ Hr) as He.
  pose proof (seg_prev listq _ _ _ _ _ eq_refl Hr) as Hb.
  apply not_elem_of_app in Ha as [Ha1 Ha2%not_elem_of_cons]. destruct Ha2 as [Hab _].
  pose proof (end_link_fresh h ids1 a Ha1) as Hne.
  unfold LIST_INSERT_BEFORE. queue_eval. eexists. split; [done |]. split; queue_fields.
Qed.

Lemma LIST_REMOVE_spec m h ids1 a ids2 :
  represents listq m h (ids1 ++ a :: ids2) ->
  exists m', LIST_REMOVE m (Some a) = Ret m' /\ removed listq m m' h ids1 a ids2.
Proof.
  intros Hr. pose proof (seg_value _ _ _ _ _ Hr) as He. pose proof (seg_next _ _ _ _ _ _ Hr) as Ha.
  pose proof (seg_prev listq _ _ _ _ _ eq_refl Hr) as Hap.
  pose proof (rep_nodup _ _ _ _ Hr) as (Ha1 & Ha2 & Hnd)%NoDup_middle.
  pose proof (end_link_fresh h ids1 a Ha1) as Hne.
  unfold LIST_REMOVE, LIST_NEXT. queue_eval. destruct ids2 as [|c ids2]; cbn [head] in *.
  - rewrite decide_True by done. queue_eval. eexists. split; [done |].
    split; [queue_fields.. |]. split; eexists; queue_fields.
  - apply not_elem_of_cons in Ha2 as [Hac _].
    assert (represents listq m h ((ids1 ++ [a]) ++ c :: ids2)) as Hr' by by rewrite <- app_assoc.
    pose proof (seg_prev listq _ _ _ _ _ eq_refl Hr') as Hc.
    rewrite decide_False by done. queue_eval. eexists. split; [done |].
    split; [queue_fields.. |]. split; eexists; queue_fields.
Qed.

Lemma LIST_CONCAT_spec m h1 ids1 h2 ids2 :
  represents listq m h1 ids1 -> represents listq m h2 ids2 -> h1 <> h2 ->
  exists m', LIST_CONCAT m h1 h2 = Ret m' /\ concatenated listq m m' h1 ids1 h2 ids2.
Proof.
  intros Hr1 Hr2 Hne. pose proof (rep_end _ _ _ _ Hr1) as He1.
  pose proof (seg_value listq m h1 [] _ Hr1 : _ !! First h1 = _) as Hf1.
  pose proof (seg_value listq m h2 [] _ Hr2 : _ !! First h2 = _) as Hf2.
  unfold LIST_CONCAT, LIST_FIRST, LIST_INIT. queue_eval.
  destruct ids1 as [|b ids1 _] using rev_ind; cbn [head] in *.
  - destruct ids2 as [|c ids2]; cbn [head] in *.
    + rewrite decide_True by done. eexists. split; [done |]. split; queue_fields.
    + pose proof (seg_prev listq m h2 [] c ids2 eq_refl Hr2) as Hc.
      rewrite decide_False by done. queue_eval. eexists. split; [done |]. split; queue_fields.
  - rewrite end_link_snoc in He1.
    assert (exists d, head (ids1 ++ [b]) = Some d) as [d Hd] by (destruct ids1; by eexists).
    rewrite Hd in *. destruct ids2 as [|c ids2]; cbn [head] in *.
    + rewrite decide_True by done. eexists. split; [done |].
      split; rewrite ?end_link_snoc; queue_fields.
    + pose proof (seg_prev listq m h2 [] c ids2 eq_refl Hr2) as Hc.
      rewrite decide_False by done. rewrite <- Hd.
      rewrite (find_prev_spec listq m h1 ids1 b [] Hr1 : _ None = _). queue_eval.
      eexists. split; [done |]. split; rewrite ?end_link_snoc; queue_fields.
Qed.

Lemma LIST_SWAP_spec m h1 ids1 h2 ids2 :
  represents listq m h1 ids1 -> represents listq m h2 ids2 -> h1 <> h2 ->
  (forall x, x ∈ ids1 -> x ∉ ids2) ->
  exists m', LIST_SWAP m h1 h2 = Ret m' /\ swapped listq m m' h1 ids1 h2 ids2.
Proof.
  intros Hr1 Hr2 Hne Hdis.
  pose proof (seg_value listq m h1 [] _ Hr1 : _ !! First h1 = _) as Hf1.
  pose proof (seg_value listq m h2 [] _ Hr2 : _ !! First h2 = _) as Hf2.
  unfold LIST_SWAP, LIST_FIRST. queue_eval.
  destruct ids1 as [|c1 ids1]; [| pose proof (seg_prev listq m h1 [] c1 ids1 eq_refl Hr1) as Hc1];
  (destruct ids2 as [|c2 ids2]; [| pose proof (seg_prev listq m h2 [] c2 ids2 eq_refl Hr2) as Hc2]);
    cbn [head] in *; try (assert (c1 <> c2) by (intros ->; apply (Hdis c2); in_list));
    repeat (first [rewrite decide_True by done | rewrite decide_False by done]; queue_eval);
    (eexists; split; [done |]; split; try queue_fields; split; queue_fields).
Qed.

#[global] Instance listq_family : QueueFamily listq listq_exec.
Proof.
  apply laws_family. split; intros *; intros; cbn [listq_exec] in *; simplify_eq.
  - by apply LIST_INIT_spec.
  - by apply LIST_INSERT_HEAD_spec.
  - by apply LIST_INSERT_AFTER_spec.
  - by apply LIST_INSERT_BEFORE_spec.
  - by apply LIST_REMOVE_spec.
  - by apply LIST_CONCAT_spec.
  - by apply LIST_SWAP_spec.
Qed.

(** ** Properties *)

(** C31. Any program on doubly-linked lists does to memory what it does to lists: every
    sequence of [LIST] insertions (at the head, after and before an element),
    removals, concatenations and exchanges that makes sense on the lists runs
    without a fault, and afterwards iterating over a head gives its list, starting
    from an element gives the list from there, and [LIST_PREV] of an element is the
    element before it, or [NULL] for the first. *)
Theorem LIST_refines_lists containerof ops m p p' :
  (forall a, containerof (Next a) = Ret (Some a)) ->
  pool_rel listq m p -> run pool_step p ops p' -> Forall (supports listq_exec) ops ->
  exists m', run (mem_step listq_exec) m ops m' /\ pool_rel listq m' p' /\
    forall h ids, q_lists p' !! h = Some ids ->
      LIST_FOREACH collect h (m', []) = Ret (None, (m', ids)) /\
      forall ids1 a ids2, ids = ids1 ++ a :: ids2 ->
        LIST_PREV containerof m' (Some a) h = Ret (last ids1) /\
        LIST_FOREACH_FROM collect (Some a) h (m', []) = Ret (None, (m', a :: ids2)).
Proof.
  intros Hc Hr Hrun Hs. destruct (family_run listq listq_exec ops m p p' Hr Hrun Hs)
    as (m' & Hm & Hr'). exists m'. split; [done |]. split; [done |]. intros h ids Hh.
  pose proof (pr_lists _ _ _ Hr' h ids Hh) as Hrep. split.
  - unfold LIST_FOREACH. cbn [fst]. rewrite (LIST_FIRST_spec m' h ids Hrep).
    cbn [mbind outcome_bind]. apply foreach_collect;
      [by apply (chain_next listq m' h []) | by apply (represents_fuel listq m' h)].
  - intros ids1 a ids2 ->. split; [| by apply (foreach_collect_from listq m' h ids1)].
    pose proof (seg_prev listq _ _ _ _ _ eq_refl Hrep) as Ha.
    unfold LIST_PREV. queue_eval. destruct ids1 as [|b ids1 _] using rev_ind.
    + by rewrite decide_True.
    + rewrite end_link_snoc, last_snoc. rewrite decide_False by done. apply Hc.
Qed.

Definition listq_demo : list queue_op :=
  [OpInsertHead 0 10; OpInsertBefore 0 10 11; OpInsertHead 1 12; OpInsertAfter 0 11 13;
   OpConcat 1 0; OpRemove 1 13; OpSwap 0 1]%nat.

Lemma listq_demo_run :
  exists p', run pool_step demo_pool listq_demo p' /\ q_lists p' !! 0%nat = Some [12; 11; 10]%nat.
Proof.
  eexists. split.
  - pool_run_step (PInsertHead demo_pool 0 10 []).
    pool_run_step (fun p => PInsertBefore p 0 10 11 [] [])%nat.
    pool_run_step (fun p => PInsertHead p 1 12 [])%nat.
    pool_run_step (fun p => PInsertAfter p 0 11 13 [] [10])%nat.
    pool_run_step (fun p => PConcat p 1 0 [12] [11; 13; 10])%nat.
    pool_run_step (fun p => PRemove p 1 13 [12; 11] [10])%nat.
    pool_run_step (fun p => PSwap p 0 1 [] [12; 11; 10])%nat.
    apply run_nil.
  - reflexivity.
Qed.

Lemma LIST_refines_lists_witness :
  exists m', run (mem_step listq_exec) demo_mem listq_demo m' /\
    LIST_FOREACH collect 0 (m', []) = Ret (None, (m', [12; 11; 10]%nat)).
Proof.
  destruct listq_demo_run as (p' & Hrun & Hp').
  destruct (LIST_refines_lists
    (fun l => match l with Next a => Ret (Some a) | First _ => Fault OutOfBounds end)
    listq_demo demo_mem demo_pool p') as (m' & Hm & _ & Ho).
  - done.
  - apply initial_pool_rel.
  - exact Hrun.
  - all_supported.
  - exists m'. split; [exact Hm |]. apply (Ho 0%nat [12; 11; 10]%nat Hp').
Defined.
