(* ===== verification/TailQ.v ===== *)
(** The doubly-linked tail queue macros of [server/queue.h] ([TAILQ_*]). A head and
    an element have the same two fields, and [TAILQ_LAST] and [TAILQ_PREV] rely on
    it: they read the second field of whatever struct a link is in, as if it were
    a head. *)

From S2P Require Import Prelude Queue QueueSpec.

(** [TAILQ_HEAD] has [tqh_first] and [tqh_last]; [TAILQ_ENTRY] has [tqe_next] and
    [tqe_prev]. *)
Definition tailq : family := mk_family true true.

(** [{ NULL, &(head).tqh_first }] *)
Definition TAILQ_HEAD_INITIALIZER (head : nat) : option nat * link := (None, First head).

(** ** The macros

    The checks [QMD_TAILQ_CHECK_*] are empty outside a kernel with [INVARIANTS],
    [QMD_TRACE_*] and [TRASHIT] are without [QUEUE_MACRO_DEBUG]. *)

Definition TAILQ_FIRST (m : qmem) (head : nat) : outcome (option nat) := load m (First head).

Definition TAILQ_EMPTY (m : qmem) (head : nat) : outcome bool :=
  p ← TAILQ_FIRST m head; Ret (bool_decide (p = None)).

Definition TAILQ_NEXT (m : qmem) (elm : option nat) : outcome (option nat) := get_next m elm.

(** The struct a link is in, taken for a head: the element its second field's
    target points to. *)
Definition TAILQ_LAST (m : qmem) (head : nat) : outcome (option nat) :=
  l ← load_link m (First head);
  k ← load_link m l;
  load m k.

Definition TAILQ_PREV (m : qmem) (elm : option nat) : outcome (option nat) :=
  l ← get_prev m elm;
  k ← load_link m l;
  load m k.

Definition TAILQ_INIT (m : qmem) (head : nat) : outcome qmem :=
  m ← store m (First head) None;
  store_link m (First head) (First head).

(** [(head)->tqh_last = &TAILQ_NEXT((elm), field)] *)
Definition set_tqh_last (m : qmem) (head : nat) (elm : option nat) : outcome qmem :=
  l ← elem_link elm; store_link m (First head) l.

Definition TAILQ_INSERT_AFTER (m : qmem) (head : nat) (listelm elm : option nat) : outcome qmem :=
  next ← TAILQ_NEXT m listelm;
  m ← set_next m elm next;
  m ← (if decide (next = None) then set_tqh_last m head elm
       else n ← TAILQ_NEXT m elm; l ← elem_link elm; set_prev m n l);
  m ← set_next m listelm elm;
  l ← elem_link listelm;
  set_prev m elm l.

Definition TAILQ_INSERT_BEFORE (m : qmem) (listelm elm : option nat) : outcome qmem :=
  prev ← get_prev m listelm;
  m ← set_prev m elm prev;
  m ← set_next m elm listelm;
  prev ← get_prev m listelm;
  m ← store m prev elm;
  l ← elem_link elm;
  set_prev m listelm l.

Definition TAILQ_INSERT_HEAD (m : qmem) (head : nat) (elm : option nat) : outcome qmem :=
  first ← TAILQ_FIRST m head;
  m ← set_next m elm first;
  m ← (if decide (first = None) then set_tqh_last m head elm
       else first ← TAILQ_FIRST m head; l ← elem_link elm; set_prev m first l);
  m ← store m (First head) elm;
  set_prev m elm (First head).

Definition TAILQ_INSERT_TAIL (m : qmem) (head : nat) (elm : option nat) : outcome qmem :=
  m ← set_next m elm None;
  last ← load_link m (First head);
  m ← set_prev m elm last;
  last ← load_link m (First head);
  m ← store m last elm;
  set_tqh_last m head elm.

Definition TAILQ_REMOVE (m : qmem) (head : nat) (elm : option nat) : outcome qmem :=
  next ← TAILQ_NEXT m elm;
  m ← (if decide (next = None) then prev ← get_prev m elm; store_link m (First head) prev
       else n ← TAILQ_NEXT m elm; prev ← get_prev m elm; set_prev m n prev);
  prev ← get_prev m elm;
  next ← TAILQ_NEXT m elm;
  store m prev next.

Definition TAILQ_CONCAT (m : qmem) (head1 head2 : nat) : outcome qmem :=
  empty2 ← TAILQ_EMPTY m head2;
  if (empty2 : bool) then Ret m
  else
    first2 ← TAILQ_FIRST m head2;
    last1 ← load_link m (First head1);
    m ← store m last1 first2;
    first2 ← TAILQ_FIRST m head2;
    last1 ← load_link m (First head1);
    m ← set_prev m first2 last1;
    last2 ← load_link m (First head2);
    m ← store_link m (First head1) last2;
    TAILQ_INIT m head2.

Definition TAILQ_SWAP (m : qmem) (head1 head2 : nat) : outcome qmem :=
  swap_first ← TAILQ_FIRST m head1;
  swap_last ← load_link m (First head1);
  first2 ← TAILQ_FIRST m head2;
  m ← store m (First head1) first2;
  last2 ← load_link m (First head2);
  m ← store_link m (First head1) last2;
  m ← store m (First head2) swap_first;
  m ← store_link m (First head2) swap_last;
  swap_first ← TAILQ_FIRST m head1;
  m ← (if decide (swap_first = None) then store_link m (First head1) (First head1)
       else set_prev m swap_first (First head1));
  swap_first ← TAILQ_FIRST m head2;
  if decide (swap_first = None) then store_link m (First head2) (First head2)
  else set_prev m swap_first (First head2).

(** The loops. *)
Definition TAILQ_FOREACH {St} body (head : nat) (st : qmem * St)
    : outcome (option nat * (qmem * St)) :=
  var ← TAILQ_FIRST (fst st) head; foreach TAILQ_NEXT body (walk_fuel (fst st)) var st.

Definition TAILQ_FOREACH_FROM {St} body (var : option nat) (head : nat) (st : qmem * St)
    : outcome (option nat * (qmem * St)) :=
  var ← match var with Some _ => Ret var | None => TAILQ_FIRST (fst st) head end;
  foreach TAILQ_NEXT body (walk_fuel (fst st)) var st.

Definition TAILQ_FOREACH_SAFE {St} body (head : nat) (st : qmem * St)
    : outcome (option nat * (qmem * St)) :=
  var ← TAILQ_FIRST (fst st) head; foreach_safe TAILQ_NEXT body (walk_fuel (fst st)) var st.

Definition TAILQ_FOREACH_FROM_SAFE {St} body (var : option nat) (head : nat) (st : qmem * St)
    : outcome (option nat * (qmem * St)) :=
  var ← match var with Some _ => Ret var | None => TAILQ_FIRST (fst st) head end;
  foreach_safe TAILQ_NEXT body (walk_fuel (fst st)) var st.

Definition TAILQ_FOREACH_REVERSE {St} body (head : nat) (st : qmem * St)
    : outcome (option nat * (qmem * St)) :=
  var ← TAILQ_LAST (fst st) head; foreach TAILQ_PREV body (walk_fuel (fst st)) var st.

Definition TAILQ_FOREACH_REVERSE_FROM {St} body (var : option nat) (head : nat) (st : qmem * St)
    : outcome (option nat * (qmem * St)) :=
  var ← match var with Some _ => Ret var | None => TAILQ_LAST (fst st) head end;
  foreach TAILQ_PREV body (walk_fuel (fst st)) var st.

Definition TAILQ_FOREACH_REVERSE_SAFE {St} body (head : nat) (st : qmem * St)
    : outcome (option nat * (qmem * St)) :=
  var ← TAILQ_LAST (fst st) head; foreach_safe TAILQ_PREV body (walk_fuel (fst st)) var st.

Definition TAILQ_FOREACH_REVERSE_FROM_SAFE {St} body (var : option nat) (head : nat)
    (st : qmem * St) : outcome (option nat * (qmem * St)) :=
  var ← match var with Some _ => Ret var | None => TAILQ_LAST (fst st) head end;
  foreach_safe TAILQ_PREV body (walk_fuel (fst st)) var st.

(** The operations of the family. *)
Definition tailq_exec (m : qmem) (op : queue_op) : option (outcome qmem) :=
  match op with
  | OpInit h => Some (TAILQ_INIT m h)
  | OpInsertHead h a => Some (TAILQ_INSERT_HEAD m h (Some a))
  | OpInsertTail h a => Some (TAILQ_INSERT_TAIL m h (Some a))
  | OpInsertAfter h b a => Some (TAILQ_INSERT_AFTER m h (Some b) (Some a))
  | OpInsertBefore _ b a => Some (TAILQ_INSERT_BEFORE m (Some b) (Some a))
  | OpRemove h a => Some (TAILQ_REMOVE m h (Some a))
  | OpConcat h1 h2 => Some (TAILQ_CONCAT m h1 h2)
  | OpSwap h1 h2 => Some (TAILQ_SWAP m h1 h2)
  | OpRemoveHead _ | OpRemoveAfter _ _ => None
  end.

(** ** What the macros do to the list *)

Lemma TAILQ_FIRST_spec m h ids : represents tailq m h ids -> TAILQ_FIRST m h = Ret (head ids).
Proof.
  intros Hr. unfold TAILQ_FIRST, load.
  by rewrite (seg_value tailq m h [] ids Hr : _ !! First h = _).
Qed.

Lemma TAILQ_EMPTY_spec m h ids :
  represents tailq m h ids -> TAILQ_EMPTY m h = Ret (bool_decide (ids = [])).
Proof.
  intros Hr. unfold TAILQ_EMPTY. rewrite (TAILQ_FIRST_spec m h ids Hr). by destruct ids.
Qed.

Lemma TAILQ_INIT_spec m h :
  head_live tailq m h ->
  exists m', TAILQ_INIT m h = Ret m' /\ represents tailq m' h [] /\ changes_only m m' [h] [].
Proof.
  intros [[p Hp] [l Hl]]. unfold TAILQ_INIT. queue_eval. eexists. split; [done |]. split.
  - split; cbn; [done | queue_fields | queue_fields | constructor].
  - intros x Hx _. specialize (Hx h ltac:(in_list)). cbn. by rewrite !lookup_insert_ne.
Qed.

Lemma TAILQ_INSERT_TAIL_spec m h ids a :
  represents tailq m h ids -> a ∉ ids -> elem_live tailq m a ->
  exists m', TAILQ_INSERT_TAIL m h (Some a) = Ret m' /\ inserted tailq m m' h ids a [].
Proof.
  intros Hr Ha [[p Hp] [k Hk]]. pose proof (end_link_fresh h ids a Ha) as Hne.
  pose proof (rep_end _ _ _ _ Hr) as He. pose proof (rep_last _ _ _ _ Hr) as Hl. cbn in Hl.
  unfold TAILQ_INSERT_TAIL, set_tqh_last. queue_eval. eexists. split; [done |].
  split; queue_fields.
Qed.

Lemma TAILQ_INSERT_HEAD_spec m h ids a :
  represents tailq m h ids -> a ∉ ids -> elem_live tailq m a ->
  exists m', TAILQ_INSERT_HEAD m h (Some a) = Ret m' /\ inserted tailq m m' h [] a ids.
Proof.
  intros Hr Ha [[p Hp] [k Hk]]. pose proof (seg_value tailq m h [] ids Hr : _ !! First h = _) as Hf.
  pose proof (rep_last _ _ _ _ Hr) as Hl. cbn in Hl.
  unfold TAILQ_INSERT_HEAD, TAILQ_FIRST, set_tqh_last. queue_eval.
  destruct ids as [|b ids]; cbn [head] in *.
  - rewrite decide_True by done. queue_eval. eexists. split; [done |]. split; queue_fields.
  - apply not_elem_of_cons in Ha as [Hab _].
    pose proof (seg_prev tailq m h [] b ids eq_refl Hr) as Hb.
    rewrite decide_False by done. queue_eval. eexists. split; [done |]. split; queue_fields.
Qed.

Lemma TAILQ_INSERT_AFTER_spec m h ids1 b ids2 a :
  represents tailq m h (ids1 ++ b :: ids2) -> a ∉ ids1 ++ b :: ids2 -> elem_live tailq m a ->
  exists m', TAILQ_INSERT_AFTER m h (Some b) (Some a) = Ret m' /\
    inserted tailq m m' h (ids1 ++ [b]) a ids2.
Proof.
  intros Hr Ha [[p Hp] [k Hk]]. pose proof (seg_next _ _ _ _ _ _ Hr) as Hb.
  pose proof (seg_prev tailq _ _ _ _ _ eq_refl Hr) as Hbp.
  pose proof (rep_last _ _ _ _ Hr) as Hl. cbn in Hl. rewrite end_link_app, end_link_cons in Hl.
  assert (a <> b) as Hne by (intros ->; apply Ha; in_list).
  unfold TAILQ_INSERT_AFTER, TAILQ_NEXT, set_tqh_last. queue_eval.
  destruct ids2 as [|c ids2]; cbn [head] in *.
  - rewrite decide_True by done. queue_eval. eexists. split; [done |].
    split; rewrite ?end_link_snoc; queue_fields.
  - assert (a <> c) as Hac by (intros ->; apply Ha; in_list).
    assert (represents tailq m h ((ids1 ++ [b]) ++ c :: ids2)) as Hr' by by rewrite <- app_assoc.
    pose proof (seg_prev tailq _ _ _ _ _ eq_refl Hr') as Hc.
    rewrite decide_False by done. queue_eval. eexists. split; [done |].
    split; rewrite ?end_link_snoc; queue_fields.
Qed.

Lemma TAILQ_INSERT_BEFORE_spec m h ids1 b ids2 a :
  represents tailq m h (ids1 ++ b :: ids2) -> a ∉ ids1 ++ b :: ids2 -> elem_live tailq m a ->
  exists m', TAILQ_INSERT_BEFORE m (Some b) (Some a) = Ret m' /\
    inserted tailq m m' h ids1 a (b :: ids2).
Proof.
  intros Hr Ha [[p Hp] [k Hk]]. pose proof (seg_value _ _ _ _ _ Hr) as He.
  pose proof (seg_prev tailq _ _ _ _ _ eq_refl Hr) as Hb.
  pose proof (rep_last _ _ _ _ Hr) as Hl. cbn in Hl. rewrite end_link_app, end_link_cons in Hl.
  apply not_elem_of_app in Ha as [Ha1 Ha2%not_elem_of_cons]. destruct Ha2 as [Hab _].
  pose proof (end_link_fresh h ids1 a Ha1) as Hne.
  unfold TAILQ_INSERT_BEFORE. queue_eval. eexists. split; [done |]. split; queue_fields.
Qed.

Lemma TAILQ_REMOVE_spec m h ids1 a ids2 :
  represents tailq m h (ids1 ++ a :: ids2) ->
  exists m', TAILQ_REMOVE m h (Some a) = Ret m' /\ removed tailq m m' h ids1 a ids2.
Proof.
  intros Hr. pose proof (seg_value _ _ _ _ _ Hr) as He. pose proof (seg_next _ _ _ _ _ _ Hr) as Ha.
  pose proof (seg_prev tailq _ _ _ _ _ eq_refl Hr) as Hap.
  pose proof (rep_nodup _ _ _ _ Hr) as (Ha1 & Ha2 & Hnd)%NoDup_middle.
  pose proof (rep_last _ _ _ _ Hr) as Hl. cbn in Hl. rewrite end_link_app, end_link_cons in Hl.
  pose proof (end_link_fresh h ids1 a Ha1) as Hne.
  unfold TAILQ_REMOVE, TAILQ_NEXT. queue_eval. destruct ids2 as [|c ids2]; cbn [head] in *.
  - rewrite decide_True by done. queue_eval. eexists. split; [done |].
    split; rewrite ?app_nil_r; [queue_fields.. |]. split; eexists; queue_fields.
  - apply not_elem_of_cons in Ha2 as [Hac _].
    assert (represents tailq m h ((ids1 ++ [a]) ++ c :: ids2)) as Hr' by by rewrite <- app_assoc.
    pose proof (seg_prev tailq _ _ _ _ _ eq_refl Hr') as Hc.
    rewrite decide_False by done. queue_eval. eexists. split; [done |].
    split; rewrite ?end_link_app; [queue_fields.. |]. split; eexists; queue_fields.
Qed.

Lemma TAILQ_CONCAT_spec m h1 ids1 h2 ids2 :
  represents tailq m h1 ids1 -> represents tailq m h2 ids2 -> h1 <> h2 ->
  exists m', TAILQ_CONCAT m h1 h2 = Ret m' /\ concatenated tailq m m' h1 ids1 h2 ids2.
Proof.
  intros Hr1 Hr2 Hne. pose proof (rep_end _ _ _ _ Hr1) as He1.
  pose proof (rep_last _ _ _ _ Hr1) as Hl1. pose proof (rep_last _ _ _ _ Hr2) as Hl2.
  pose proof (seg_value tailq m h2 [] _ Hr2 : _ !! First h2 = _) as Hf2. cbn in Hl1, Hl2.
  assert (end_link (First h1) ids1 <> First h2) as Hne2.
  { destruct (end_link_cases (First h1) ids1) as [[_ ->] | (b & _ & ->)]; congruence. }
  unfold TAILQ_CONCAT. rewrite (TAILQ_EMPTY_spec m h2 ids2 Hr2). cbn [mbind outcome_bind].
  destruct ids2 as [|c ids2]; cbn [head] in *.
  - rewrite bool_decide_true by done. eexists. split; [done |].
    split; rewrite ?app_nil_r; queue_fields.
  - pose proof (seg_prev tailq m h2 [] c ids2 eq_refl Hr2) as Hc.
    rewrite bool_decide_false by done. unfold TAILQ_FIRST, TAILQ_INIT. queue_eval.
    eexists. split; [done |]. split; rewrite ?end_link_app; queue_fields.
Qed.

Lemma TAILQ_SWAP_spec m h1 ids1 h2 ids2 :
  represents tailq m h1 ids1 -> represents tailq m h2 ids2 -> h1 <> h2 ->
  (forall x, x ∈ ids1 -> x ∉ ids2) ->
  exists m', TAILQ_SWAP m h1 h2 = Ret m' /\ swapped tailq m m' h1 ids1 h2 ids2.
Proof.
  intros Hr1 Hr2 Hne Hdis.
  pose proof (rep_last _ _ _ _ Hr1) as Hl1. pose proof (rep_last _ _ _ _ Hr2) as Hl2.
  pose proof (seg_value tailq m h1 [] _ Hr1 : _ !! First h1 = _) as Hf1.
  pose proof (seg_value tailq m h2 [] _ Hr2 : _ !! First h2 = _) as Hf2. cbn in Hl1, Hl2.
  unfold TAILQ_SWAP, TAILQ_FIRST. queue_eval.
  destruct ids1 as [|c1 ids1]; [| pose proof (seg_prev tailq m h1 [] c1 ids1 eq_refl Hr1) as Hc1];
  (destruct ids2 as [|c2 ids2]; [| pose proof (seg_prev tailq m h2 [] c2 ids2 eq_refl Hr2) as Hc2]);
    cbn [head] in *; try (assert (c1 <> c2) by (intros ->; apply (Hdis c2); in_list));
    repeat (first [rewrite decide_True by done | rewrite decide_False by done]; queue_eval);
    (eexists; split; [done |]; split; try queue_fields; split; queue_fields).
Qed.

#[global] Instance tailq_family : QueueFamily tailq tailq_exec.
Proof.
  apply laws_family. split; intros *; intros; cbn [tailq_exec] in *; simplify_eq.
  - by apply TAILQ_INIT_spec.
  - by apply TAILQ_INSERT_HEAD_spec.
  - by apply TAILQ_INSERT_TAIL_spec.
  - by apply TAILQ_INSERT_AFTER_spec.
  - by apply TAILQ_INSERT_BEFORE_spec.
  - by apply TAILQ_REMOVE_spec.
  - by apply TAILQ_CONCAT_spec.
  - by apply TAILQ_SWAP_spec.
Qed.

(** ** Going backwards *)

Lemma TAILQ_LAST_spec m h ids : represents tailq m h ids -> TAILQ_LAST m h = Ret (last ids).
Proof.
  intros Hr. pose proof (rep_last _ _ _ _ Hr) as Hl. cbn in Hl.
  unfold TAILQ_LAST. destruct ids as [|a ids _] using rev_ind.
  - pose proof (rep_end _ _ _ _ Hr) as He. rewrite end_link_nil in Hl, He. by queue_eval.
  - pose proof (seg_prev tailq _ _ _ _ _ eq_refl Hr) as Ha.
    pose proof (seg_value _ _ _ _ _ Hr) as He. rewrite end_link_snoc in Hl.
    queue_eval. by rewrite last_snoc.
Qed.

Lemma TAILQ_PREV_spec m h ids1 a ids2 :
  represents tailq m h (ids1 ++ a :: ids2) -> TAILQ_PREV m (Some a) = Ret (last ids1).
Proof.
  intros Hr. pose proof (seg_prev tailq _ _ _ _ _ eq_refl Hr) as Ha.
  unfold TAILQ_PREV. destruct ids1 as [|b ids1 _] using rev_ind.
  - pose proof (rep_last _ _ _ _ Hr) as Hl. pose proof (rep_end _ _ _ _ Hr) as He.
    cbn [app] in Hl, He. cbn in Hl. rewrite end_link_nil in Ha. by queue_eval.
  - rewrite end_link_snoc in Ha. rewrite <- app_assoc in Hr.
    pose proof (seg_prev tailq _ _ _ _ _ eq_refl Hr) as Hb.
    pose proof (seg_value _ _ _ _ _ Hr) as He. queue_eval. by rewrite last_snoc.
Qed.

Lemma chain_prev m h ids1 ids2 :
  represents tailq m h (ids1 ++ ids2) -> chain TAILQ_PREV m (reverse ids1).
Proof.
  revert ids2. induction ids1 as [|a ids1 IH] using rev_ind; intros ids2 Hr; [done |].
  rewrite reverse_snoc, <- app_assoc in *. cbn [chain app] in *. split.
  - rewrite (TAILQ_PREV_spec _ _ _ _ _ Hr). f_equal. by rewrite <- head_reverse.
  - by apply (IH (a :: ids2)).
Qed.

(** ** Loops that take the list apart *)

(** A loop body that removes its element and frees it. *)
Definition drain_body (h a : nat) (st : qmem * list nat)
    : outcome (qmem * list nat + qmem * list nat) :=
  m ← TAILQ_REMOVE (fst st) h (Some a); Ret (inr (free_elem m a, snd st ++ [a])).

Lemma TAILQ_drain_reverse m h ids seen fuel :
  represents tailq m h ids -> (length ids < fuel)%nat ->
  exists m', foreach_safe TAILQ_PREV (drain_body h) fuel (last ids) (m, seen)
      = Ret (None, (m', seen ++ reverse ids)) /\ represents tailq m' h [].
Proof.
  revert m seen fuel. induction ids as [|a ids IH] using rev_ind; intros m seen fuel Hr Hfuel;
    (destruct fuel as [|fuel]; [rewrite ?length_app in Hfuel; lia |]).
  - exists m. cbn. by rewrite app_nil_r.
  - rewrite last_snoc. cbn [foreach_safe fst].
    rewrite (TAILQ_PREV_spec m h ids a [] Hr). cbn [mbind outcome_bind].
    destruct (TAILQ_REMOVE_spec m h ids a [] Hr) as (m1 & E & Hrem).
    assert (drain_body h a (m, seen) = Ret (inr (free_elem m1 a, seen ++ [a]))) as ->.
    { unfold drain_body. cbn [fst]. by rewrite E. }
    cbn [mbind outcome_bind].
    pose proof (represents_removed _ _ _ _ _ _ _ Hr Hrem) as Hr1. rewrite app_nil_r in Hr1.
    pose proof (rep_nodup _ _ _ _ Hr) as (Ha & _ & _)%NoDup_middle.
    assert (represents tailq (free_elem m1 a) h ids) as Hr2.
    { destruct Hr1 as [Hs He Hl Hnd]. split; [| | | done].
      - apply (seg_agree tailq m1); [done | done | | | done]; cbn.
        + intros x _ [-> | (b & Hb & ->)]; apply lookup_delete_ne; congruence.
        + intros b Hb. apply lookup_delete_ne. congruence.
      - cbn. rewrite lookup_delete_ne; [done |]. symmetry. by apply end_link_fresh.
      - cbn. by rewrite lookup_delete_ne. }
    rewrite length_app in Hfuel. cbn [length] in Hfuel.
    destruct (IH (free_elem m1 a) (seen ++ [a]) fuel Hr2) as (m' & -> & Hr'); [lia |].
    exists m'. split; [| done]. by rewrite reverse_snoc, <- app_assoc.
Qed.

(** Going back over two elements uses only their part of the list. *)
Lemma TAILQ_PREV_seg m l ids d c :
  seg tailq m l (ids ++ [d; c]) -> TAILQ_PREV m (Some c) = Ret (Some d).
Proof.
  intros Hs. pose proof Hs as (_ & Hd & Hbd & _)%seg_app.
  replace (ids ++ [d; c]) with ((ids ++ [d]) ++ [c]) in Hs by by rewrite <- app_assoc.
  apply seg_app in Hs as (_ & _ & Hbc & _). cbn [has_prev tailq] in Hbd, Hbc.
  rewrite end_link_snoc in Hbc. unfold TAILQ_PREV. by queue_eval.
Qed.

Lemma seg_free f m l ids c :
  (forall b, l <> Next b) -> NoDup (ids ++ [c]) -> seg f m l (ids ++ [c]) ->
  seg f (free_elem m c) l ids.
Proof.
  intros Hl (Hc & _ & Hnd)%NoDup_middle [Hs _]%seg_app. rewrite app_nil_r in Hnd.
  apply (seg_agree f m); [done | done | | | done]; cbn.
  - intros x _ [-> | (b & Hb & ->)]; apply lookup_delete_ne; [by symmetry | congruence].
  - intros b Hb. apply lookup_delete_ne. congruence.
Qed.

(** After the last element [b] is freed, [TAILQ_PREV] of the first one still goes
    through the head's [tqh_last] to it. *)
Lemma TAILQ_free_reverse_dangling h b a ids m seen fuel :
  seg tailq m (First h) (a :: ids) -> NoDup (a :: ids) -> links m !! First h = Some (Next b) ->
  ptrs m !! Next b = None -> (length ids < fuel)%nat ->
  foreach_safe TAILQ_PREV free_body fuel (last (a :: ids)) (m, seen) = Fault UseAfterFree.
Proof.
  revert m seen fuel. induction ids as [|c ids IH] using rev_ind;
    intros m seen fuel Hs Hnd Hl Hb Hfuel; (destruct fuel as [|fuel]; [lia |]).
  - destruct Hs as (_ & Ha & _). cbn in Ha. cbn [last foreach_safe fst].
    unfold TAILQ_PREV. queue_eval. by rewrite Hb.
  - rewrite app_comm_cons in *. rewrite last_snoc. cbn [foreach_safe fst].
    assert (exists l0 d, a :: ids = l0 ++ [d]) as (l0 & d & E).
    { destruct (a :: ids) as [|d l0 _] eqn:E using rev_ind; [done | by exists l0, d]. }
    rewrite (TAILQ_PREV_seg m (First h) l0 d c) by (by rewrite E, <- app_assoc in Hs).
    cbn [mbind outcome_bind]. unfold free_body at 1. cbn [fst snd mbind outcome_bind].
    replace (Some d) with (last (a :: ids)) by by rewrite E, last_snoc.
    apply IH; [by apply seg_free | by apply NoDup_app in Hnd as [? _] | | |].
    + cbn. by rewrite lookup_delete_ne.
    + cbn. by apply lookup_delete_None; right.
    + rewrite length_app in Hfuel. cbn in Hfuel. lia.
Qed.

Lemma TAILQ_free_reverse_faults m h a ids b seen fuel :
  represents tailq m h ((a :: ids) ++ [b]) -> (length ids + 1 < fuel)%nat ->
  foreach_safe TAILQ_PREV free_body fuel (Some b) (m, seen) = Fault UseAfterFree.
Proof.
  intros Hr Hfuel. destruct fuel as [|fuel]; [lia |]. cbn [foreach_safe fst].
  rewrite (TAILQ_PREV_spec m h (a :: ids) b [] Hr). cbn [mbind outcome_bind].
  unfold free_body at 1. cbn [fst snd mbind outcome_bind].
  pose proof (rep_last _ _ _ _ Hr : links m !! First h = _) as Hl. rewrite end_link_snoc in Hl.
  destruct Hr as [Hs _ _ Hnd].
  apply (TAILQ_free_reverse_dangling h b); [by apply seg_free | by apply NoDup_app in Hnd as [? _]
    | cbn; by rewrite lookup_delete_ne | cbn; by rewrite lookup_delete_eq | lia].
Qed.

(** ** Properties *)

(** C19. Any program on doubly-linked tail queues does to memory what it does to lists:
    every sequence of [TAILQ] operations that makes sense on the lists runs without
    a fault, and afterwards iterating over a head forwards gives its list,
    iterating backwards the reversed list, starting from an element the part of
    either from there, and [TAILQ_LAST] and [TAILQ_PREV], which
    read an element as if it were a head, the last element and the element
    before. *)
Theorem TAILQ_refines_lists ops m p p' :
  pool_rel tailq m p -> run pool_step p ops p' -> Forall (supports tailq_exec) ops ->
  exists m', run (mem_step tailq_exec) m ops m' /\ pool_rel tailq m' p' /\
    forall h ids, q_lists p' !! h = Some ids ->
      TAILQ_FOREACH collect h (m', []) = Ret (None, (m', ids)) /\
      TAILQ_FOREACH_REVERSE collect h (m', []) = Ret (None, (m', reverse ids)) /\
      TAILQ_LAST m' h = Ret (last ids) /\
      forall ids1 a ids2, ids = ids1 ++ a :: ids2 ->
        TAILQ_PREV m' (Some a) = Ret (last ids1) /\
        TAILQ_FOREACH_FROM collect (Some a) h (m', []) = Ret (None, (m', a :: ids2)) /\
        TAILQ_FOREACH_REVERSE_FROM collect (Some a) h (m', [])
          = Ret (None, (m', a :: reverse ids1)).
Proof.
  intros Hr Hrun Hs. destruct (family_run tailq tailq_exec ops m p p' Hr Hrun Hs)
    as (m' & Hm & Hr'). exists m'. split; [done |]. split; [done |]. intros h ids Hh.
  pose proof (pr_lists _ _ _ Hr' h ids Hh) as Hrep.
  pose proof (represents_fuel _ _ _ _ Hrep) as Hfuel. split_and!.
  - unfold TAILQ_FOREACH. cbn [fst]. rewrite (TAILQ_FIRST_spec m' h ids Hrep).
    cbn [mbind outcome_bind]. apply foreach_collect; [by apply (chain_next tailq m' h []) | done].
  - unfold TAILQ_FOREACH_REVERSE. cbn [fst]. rewrite (TAILQ_LAST_spec m' h ids Hrep).
    cbn [mbind outcome_bind]. rewrite <- head_reverse. apply foreach_collect.
    + apply (chain_prev m' h ids []). by rewrite app_nil_r.
    + by rewrite length_reverse.
  - by apply TAILQ_LAST_spec.
  - intros ids1 a ids2 ->. split_and!.
    + by apply (TAILQ_PREV_spec m' h ids1 a ids2).
    + by apply (foreach_collect_from tailq m' h ids1).
    + unfold TAILQ_FOREACH_REVERSE_FROM. cbn [mbind outcome_bind fst].
      rewrite cons_middle, app_assoc in Hrep. pose proof (chain_prev m' h _ _ Hrep) as Hch.
      rewrite reverse_snoc in Hch. apply (foreach_collect _ _ (a :: reverse ids1)); [done |].
      rewrite length_app in Hfuel. cbn [length] in *. rewrite length_reverse. lia.
Qed.

Definition tailq_demo : list queue_op :=
  [OpInsertTail 0 10; OpInsertTail 0 11; OpInsertHead 1 12; OpInsertBefore 0 11 13;
   OpConcat 1 0; OpRemove 1 10; OpSwap 0 1]%nat.

Lemma tailq_demo_run :
  exists p', run pool_step demo_pool tailq_demo p' /\ q_lists p' !! 0%nat = Some [12; 13; 11]%nat.
Proof.
  eexists. split.
  - pool_run_step (PInsertTail demo_pool 0 10 []).
    pool_run_step (fun p => PInsertTail p 0 11 [10])%nat.
    pool_run_step (fun p => PInsertHead p 1 12 [])%nat.
    pool_run_step (fun p => PInsertBefore p 0 11 13 [10] [])%nat.
    pool_run_step (fun p => PConcat p 1 0 [12] [10; 13; 11])%nat.
    pool_run_step (fun p => PRemove p 1 10 [12] [13; 11])%nat.
    pool_run_step (fun p => PSwap p 0 1 [] [12; 13; 11])%nat.
    apply run_nil.
  - reflexivity.
Qed.

Lemma TAILQ_refines_lists_witness :
  exists m', run (mem_step tailq_exec) demo_mem tailq_demo m' /\
    TAILQ_FOREACH_REVERSE collect 0 (m', []) = Ret (None, (m', [11; 13; 12]%nat)).
Proof.
  destruct tailq_demo_run as (p' & Hrun & Hp').
  destruct (TAILQ_refines_lists tailq_demo demo_mem demo_pool p') as (m' & Hm & _ & Ho).
  - apply initial_pool_rel.
  - exact Hrun.
  - all_supported.
  - exists m'. split; [exact Hm |]. apply (Ho 0%nat [12; 13; 11]%nat Hp').
Defined.

(** Taking a queue apart inside a loop. [TAILQ_FOREACH_SAFE] may free every element
    as it goes, where the plain loop reads the link of the element just freed.
    Backwards, [TAILQ_FOREACH_REVERSE_SAFE] visits the whole queue and empties it
    when its body removes each element before freeing it; freeing without
    removing is an access to freed memory as soon as there are two elements,
    because the step to the first element goes through the head to the last. *)
Theorem TAILQ_FOREACH_SAFE_correct m h ids :
  represents tailq m h ids ->
  TAILQ_FOREACH_SAFE free_body h (m, []) = Ret (None, (foldl free_elem m ids, ids)) /\
  (ids <> [] -> TAILQ_FOREACH free_body h (m, []) = Fault UseAfterFree) /\
  (exists m', TAILQ_FOREACH_REVERSE_SAFE (drain_body h) h (m, [])
     = Ret (None, (m', reverse ids)) /\ represents tailq m' h []) /\
  ((2 <= length ids)%nat ->
     TAILQ_FOREACH_REVERSE_SAFE free_body h (m, []) = Fault UseAfterFree).
Proof.
  intros Hr. pose proof (represents_fuel _ _ _ _ Hr) as Hfuel.
  unfold TAILQ_FOREACH_SAFE, TAILQ_FOREACH, TAILQ_FOREACH_REVERSE_SAFE. cbn [fst].
  rewrite (TAILQ_FIRST_spec m h ids Hr), (TAILQ_LAST_spec m h ids Hr).
  cbn [mbind outcome_bind]. split_and!.
  - by apply (foreach_safe_free tailq m h).
  - intros Hne. destruct ids as [|a ids]; [done |]. by apply (foreach_free_faults tailq m h).
  - by apply TAILQ_drain_reverse.
  - intros H2. destruct ids as [|b ids _] using rev_ind; [cbn in H2; lia |].
    rewrite length_app in H2, Hfuel. cbn [length] in H2, Hfuel.
    destruct ids as [|a ids]; [cbn in H2; lia |]. rewrite last_snoc.
    apply (TAILQ_free_reverse_faults m h a ids b); [done | cbn in Hfuel; lia].
Qed.

(** The queue 10, 11 under head 0. *)
Definition demo_tailq : qmem :=
  mk_qmem (<[First 0 := Some 10]> (<[Next 10 := Some 11]> {[Next 11 := None]}))%nat
    (<[First 0 := Next 11]> (<[Next 10 := First 0]> {[Next 11 := Next 10]}))%nat.

Lemma TAILQ_FOREACH_SAFE_correct_witness :
  represents tailq demo_tailq 0 [10; 11]%nat /\
  TAILQ_FOREACH_REVERSE_SAFE free_body 0 (demo_tailq, []) = Fault UseAfterFree.
Proof.
  assert (represents tailq demo_tailq 0 [10; 11]%nat) as Hr.
  { split; [by_computation | reflexivity | reflexivity |].
    apply (bool_decide_unpack _). by vm_compute. }
  split; [exact Hr |].
  refine (proj2 (proj2 (proj2 (TAILQ_FOREACH_SAFE_correct demo_tailq 0 [10; 11]%nat Hr))) _).
  cbn. lia.
Defined.
