(* ===== verification/QueueDebug.v ===== *)
(** What [server/queue.h] compiles only into debugging builds: the checks of a kernel
    with [INVARIANTS] ([QMD_LIST_CHECK_*], [QMD_TAILQ_CHECK_*]), which panic when a
    link is inconsistent, and, with [QUEUE_MACRO_DEBUG], the trashing of the links of
    removed elements and the traces of the last two places of a change. The macros
    themselves are those of [ListQ] and [TailQ], where all of this is empty. *)

From Stdlib Require Import String.
From S2P Require Import Prelude Queue QueueSpec ListQ TailQ STailQ.
From S2P Require SList.

(** ** The checks

    A check gives [true] when it passes and [false] when it panics. *)

Definition QMD_LIST_CHECK_HEAD (m : qmem) (head : nat) : outcome bool :=
  first ← LIST_FIRST m head;
  if decide (first = None) then Ret true
  else
    first ← LIST_FIRST m head;
    prev ← get_prev m first;
    Ret (bool_decide (prev = First head)).

Definition QMD_LIST_CHECK_NEXT (m : qmem) (elm : option nat) : outcome bool :=
  next ← LIST_NEXT m elm;
  if decide (next = None) then Ret true
  else
    next ← LIST_NEXT m elm;
    prev ← get_prev m next;
    l ← elem_link elm;
    Ret (bool_decide (prev = l)).

Definition QMD_LIST_CHECK_PREV (m : qmem) (elm : option nat) : outcome bool :=
  prev ← get_prev m elm;
  p ← load m prev;
  Ret (bool_decide (p = elm)).

Definition QMD_TAILQ_CHECK_HEAD (m : qmem) (head : nat) : outcome bool :=
  empty ← TAILQ_EMPTY m head;
  if (empty : bool) then Ret true
  else
    first ← TAILQ_FIRST m head;
    prev ← get_prev m first;
    Ret (bool_decide (prev = First head)).

Definition QMD_TAILQ_CHECK_TAIL (m : qmem) (head : nat) : outcome bool :=
  last ← load_link m (First head);
  p ← load m last;
  Ret (bool_decide (p = None)).

Definition QMD_TAILQ_CHECK_NEXT (m : qmem) (elm : option nat) : outcome bool :=
  next ← TAILQ_NEXT m elm;
  if decide (next = None) then Ret true
  else
    next ← TAILQ_NEXT m elm;
    prev ← get_prev m next;
    l ← elem_link elm;
    Ret (bool_decide (prev = l)).

Definition QMD_TAILQ_CHECK_PREV (m : qmem) (elm : option nat) : outcome bool :=
  prev ← get_prev m elm;
  p ← load m prev;
  Ret (bool_decide (p = elm)).

(** The checks each macro starts with. *)
Definition listq_checks (m : qmem) (op : queue_op) : list (outcome bool) :=
  match op with
  | OpInsertHead h _ => [QMD_LIST_CHECK_HEAD m h]
  | OpInsertAfter _ b _ => [QMD_LIST_CHECK_NEXT m (Some b)]
  | OpInsertBefore _ b _ => [QMD_LIST_CHECK_PREV m (Some b)]
  | OpRemove _ a => [QMD_LIST_CHECK_NEXT m (Some a); QMD_LIST_CHECK_PREV m (Some a)]
  | _ => []
  end.

Definition tailq_checks (m : qmem) (op : queue_op) : list (outcome bool) :=
  match op with
  | OpInsertHead h _ => [QMD_TAILQ_CHECK_HEAD m h]
  | OpInsertTail h _ => [QMD_TAILQ_CHECK_TAIL m h]
  | OpInsertAfter _ b _ => [QMD_TAILQ_CHECK_NEXT m (Some b)]
  | OpInsertBefore _ b _ => [QMD_TAILQ_CHECK_PREV m (Some b)]
  | OpRemove _ a => [QMD_TAILQ_CHECK_NEXT m (Some a); QMD_TAILQ_CHECK_PREV m (Some a)]
  | _ => []
  end.

(** An operation in the checking build: the checks one after the other, then what it
    does otherwise. [Ret None] is [panic]. *)
Fixpoint checked (checks : list (outcome bool)) (r : outcome qmem) : outcome (option qmem) :=
  match checks with
  | [] => m ← r; Ret (Some m)
  | c :: checks => ok ← c; if (ok : bool) then checked checks r else Ret None
  end.

Definition checked_exec (exec : qmem -> queue_op -> option (outcome qmem))
    (checks : qmem -> queue_op -> list (outcome bool)) (m : qmem) (op : queue_op)
    : option (outcome (option qmem)) :=
  checked (checks m op) <$> exec m op.

Definition checked_step exec checks (m : qmem) (op : queue_op) (m' : qmem) : Prop :=
  checked_exec exec checks m op = Some (Ret (Some m')).

(** ** What the checks see on a list *)

(** The tests the checks make, whatever the family. *)
Section Checks.
Context (f : family) (m : qmem) (h : nat) (Hf : has_prev f = true).

Lemma check_head_passes ids :
  represents f m h ids -> QMD_LIST_CHECK_HEAD m h = Ret true.
Proof using Hf.
  intros Hr. pose proof (seg_value f m h [] ids Hr : _ !! First h = _) as Hh.
  unfold QMD_LIST_CHECK_HEAD, LIST_FIRST. queue_eval. destruct ids as [|a ids]; [done |].
  cbn [head]. rewrite decide_False by done. pose proof (seg_prev f m h [] a ids Hf Hr) as Ha.
  queue_eval. by rewrite bool_decide_true.
Qed.

Lemma check_next_passes ids1 a ids2 :
  represents f m h (ids1 ++ a :: ids2) -> QMD_LIST_CHECK_NEXT m (Some a) = Ret true.
Proof using Hf.
  intros Hr. pose proof (seg_next _ _ _ _ _ _ Hr) as Ha.
  unfold QMD_LIST_CHECK_NEXT, LIST_NEXT. queue_eval. destruct ids2 as [|c ids2]; [done |].
  cbn [head]. rewrite decide_False by done.
  assert (represents f m h ((ids1 ++ [a]) ++ c :: ids2)) as Hr' by by rewrite <- app_assoc.
  pose proof (seg_prev f _ _ _ _ _ Hf Hr') as Hc. rewrite end_link_snoc in Hc.
  queue_eval. by rewrite bool_decide_true.
Qed.

Lemma check_prev_passes ids1 a ids2 :
  represents f m h (ids1 ++ a :: ids2) -> QMD_LIST_CHECK_PREV m (Some a) = Ret true.
Proof using Hf.
  intros Hr. pose proof (seg_value _ _ _ _ _ Hr) as He.
  pose proof (seg_prev f _ _ _ _ _ Hf Hr) as Ha.
  unfold QMD_LIST_CHECK_PREV. queue_eval. by rewrite bool_decide_true.
Qed.

Lemma check_tail_passes ids :
  has_last f = true -> represents f m h ids -> QMD_TAILQ_CHECK_TAIL m h = Ret true.
Proof using.
  intros Hl Hr. pose proof (rep_last _ _ _ _ Hr) as Hlast. rewrite Hl in Hlast.
  pose proof (rep_end _ _ _ _ Hr) as He. unfold QMD_TAILQ_CHECK_TAIL. queue_eval.
  by rewrite bool_decide_true.
Qed.
End Checks.

(** The checks of the two families are the same tests. *)
Lemma QMD_TAILQ_CHECK_HEAD_eq m h : QMD_TAILQ_CHECK_HEAD m h = QMD_LIST_CHECK_HEAD m h.
Proof.
  unfold QMD_TAILQ_CHECK_HEAD, QMD_LIST_CHECK_HEAD, TAILQ_EMPTY, TAILQ_FIRST, LIST_FIRST.
  destruct (load m (First h)) as [[a|] | |] eqn:E; cbn; by rewrite ?E.
Qed.

(** Which fields the lists of a pool go through. *)
Definition field_in_use (p : pool) (l : link) : Prop :=
  match l with
  | First h => is_Some (q_lists p !! h)
  | Next b => exists h ids, q_lists p !! h = Some ids /\ b ∈ ids
  end.

(** An element that is on no list, and whose back pointer leads into one. *)
Lemma check_prev_fails f m p a k :
  pool_rel f m p -> a ∈ q_free p -> links m !! Next a = Some k -> field_in_use p k ->
  QMD_LIST_CHECK_PREV m (Some a) = Ret false.
Proof.
  intros Hr Ha Hk Huse.
  assert (exists q, ptrs m !! k = Some q /\ q <> Some a) as (q & Hq & Hne).
  { destruct k as [h | b].
    - destruct Huse as [ids Hids]. exists (head ids).
      split; [exact (seg_value f m h [] ids (pr_lists _ _ _ Hr _ _ Hids)) |].
      intros E. destruct ids as [|c ids]; [done |]. injection E as ->.
      apply (pr_off _ _ _ Hr h _ a Hids); [by left | done].
    - destruct Huse as (h & ids & Hids & (ids1 & ids2 & ->)%list_elem_of_split).
      exists (head ids2). split; [exact (seg_next _ _ _ _ _ _ (pr_lists _ _ _ Hr _ _ Hids)) |].
      intros E. destruct ids2 as [|c ids2]; [done |]. injection E as ->.
      apply (pr_off _ _ _ Hr h _ a Hids); [in_list | done]. }
  unfold QMD_LIST_CHECK_PREV. queue_eval. by rewrite bool_decide_false.
Qed.

(** ** Programs in the checking build *)

(** A family whose checks pass on the operations that make sense on lists, and which
    tests the back pointer of the element it removes or inserts before. *)
Class CheckedFamily (f : family) (exec : qmem -> queue_op -> option (outcome qmem))
    (checks : qmem -> queue_op -> list (outcome bool)) : Prop := {
  checks_pass m p op p' :
    pool_rel f m p -> pool_step p op p' -> Forall (eq (Ret true)) (checks m op);
  checks_prev m h a :
    QMD_LIST_CHECK_PREV m (Some a) ∈ checks m (OpRemove h a) /\
    forall b, QMD_LIST_CHECK_PREV m (Some a) ∈ checks m (OpInsertBefore h a b);
}.

Lemma checked_pass checks m' :
  Forall (eq (Ret true)) checks -> checked checks (Ret m') = Ret (Some m').
Proof. by induction 1 as [| c checks <- _ IH]; cbn. Qed.

Lemma checked_fail checks r m' :
  Ret false ∈ checks -> checked checks r <> Ret (Some m').
Proof.
  induction checks as [|c checks IH]; [by intros ?%elem_of_nil |].
  intros [<- | Hin]%elem_of_cons; cbn; [done |].
  destruct c as [[] | |]; cbn; [by apply IH | done..].
Qed.

(** The checking build runs the programs the plain build runs, to the same memory. *)
Definition checks_transparent f exec checks : Prop :=
  forall ops m p p', pool_rel f m p -> run pool_step p ops p' -> Forall (supports exec) ops ->
    exists m', run (mem_step exec) m ops m' /\ run (checked_step exec checks) m ops m' /\
      pool_rel f m' p'.

(** It does not go through with removing an element that is on no list, or with
    inserting before one, if the element's back pointer leads to a head or to an
    element of some list. *)
Definition checks_catch_stale f exec checks : Prop :=
  forall m p h a k op m', pool_rel f m p -> a ∈ q_free p -> links m !! Next a = Some k ->
    field_in_use p k -> (op = OpRemove h a \/ exists b, op = OpInsertBefore h a b) ->
    ~ checked_step exec checks m op m'.

Lemma family_checks_transparent f exec checks
    `{!QueueFamily f exec, !CheckedFamily f exec checks} : checks_transparent f exec checks.
Proof.
  intros ops m p p' Hr Hrun. revert m Hr.
  induction Hrun as [p | p op p1 ops p2 Hstep _ IH]; intros m Hr Hs.
  - exists m. split_and!; [constructor.. | done].
  - apply Forall_cons in Hs as [Hop Hs]. destruct (Hop m) as [r Hx].
    destruct (family_refines m p op p1 r Hr Hstep Hx) as (m1 & -> & Hr1).
    destruct (IH m1 Hr1 Hs) as (m2 & H2 & H2' & Hr2). exists m2.
    split_and!; [by econstructor | | done]. econstructor; [| done].
    unfold checked_step, checked_exec. rewrite Hx. cbn.
    by rewrite checked_pass by (by eapply checks_pass).
Qed.

Lemma family_checks_catch f exec checks `{!CheckedFamily f exec checks} :
  checks_catch_stale f exec checks.
Proof.
  intros m p h a k op m' Hr Ha Hk Huse Hop Hstep. unfold checked_step, checked_exec in Hstep.
  apply fmap_Some in Hstep as (r & _ & Heq). symmetry in Heq. revert Heq. apply checked_fail.
  rewrite <- (check_prev_fails f m p a k) by done.
  destruct Hop as [-> | [b ->]]; apply checks_prev.
Qed.

#[global] Instance listq_checked : CheckedFamily listq listq_exec listq_checks.
Proof.
  split; [| intros; split; [| intros b]; cbn; in_list].
  intros m p op p' Hr Hstep. destruct Hstep; cbn; repeat constructor; symmetry.
  - eapply (check_head_passes listq); [done | by eapply pr_lists].
  - eapply (check_next_passes listq); [done | by eapply pr_lists].
  - eapply (check_prev_passes listq); [done | by eapply pr_lists].
  - eapply (check_next_passes listq); [done | by eapply pr_lists].
  - eapply (check_prev_passes listq); [done | by eapply pr_lists].
Qed.

#[global] Instance tailq_checked : CheckedFamily tailq tailq_exec tailq_checks.
Proof.
  split; [| intros; split; [| intros b]; cbn; in_list].
  intros m p op p' Hr Hstep. destruct Hstep; cbn; repeat constructor; symmetry.
  - rewrite QMD_TAILQ_CHECK_HEAD_eq. eapply (check_head_passes tailq); [done | by eapply pr_lists].
  - eapply (check_tail_passes tailq); [done | by eapply pr_lists].
  - eapply (check_next_passes tailq); [done | by eapply pr_lists].
  - eapply (check_prev_passes tailq); [done | by eapply pr_lists].
  - eapply (check_next_passes tailq); [done | by eapply pr_lists].
  - eapply (check_prev_passes tailq); [done | by eapply pr_lists].
Qed.

(** ** Trashed links *)

Section Trash.
(** [(void * )-1], which is the address of no struct. *)
Context (trash : nat).

(** [TRASHIT] of the two links of an element, saved by [QMD_SAVELINK]. *)
Definition trash_links (m : qmem) (elm : option nat) : outcome qmem :=
  oldnext ← elem_link elm;
  m ← store m oldnext (Some trash);
  store_link m oldnext (Next trash).

(** [LIST_REMOVE] and [TAILQ_REMOVE] with [QUEUE_MACRO_DEBUG]. *)
Definition LIST_REMOVE_debug (m : qmem) (elm : option nat) : outcome qmem :=
  m ← LIST_REMOVE m elm; trash_links m elm.

Definition TAILQ_REMOVE_debug (m : qmem) (head : nat) (elm : option nat) : outcome qmem :=
  m ← TAILQ_REMOVE m head elm; trash_links m elm.

(** The singly-linked families have one link to trash. *)
Definition STAILQ_REMOVE_debug (m : qmem) (head : nat) (elm : option nat) : outcome qmem :=
  oldnext ← elem_link elm;
  m ← STAILQ_REMOVE m head elm;
  store m oldnext (Some trash).

Definition SLIST_REMOVE_debug {A} (l : SList.slist A) (elm : option nat)
    : outcome (SList.slist A) :=
  l ← SList.SLIST_REMOVE l elm; SList.set_next l elm (Some trash).
End Trash.

Section TrashSpec.
Context (trash : nat) (f : family) (Hp : has_prev f = true).

(** Trashing an element that is on no list leaves the lists alone, and its links lead
    nowhere. *)
Lemma trash_links_spec m h ids a :
  represents f m h ids -> a ∉ ids -> elem_live f m a ->
  exists m', trash_links trash m (Some a) = Ret m' /\ represents f m' h ids /\
    ptrs m' !! Next a = Some (Some trash) /\ links m' !! Next a = Some (Next trash) /\
    changes_only m m' [] [a].
Proof using Hp.
  intros Hr Ha [[q Hq] Hl]. rewrite Hp in Hl. destruct Hl as [k Hk].
  unfold trash_links. queue_eval. eexists. split; [done |].
  set (m' := mk_qmem _ _).
  assert (changes_only m m' [] [a]) as Hc.
  { intros x _ Hx. specialize (Hx a ltac:(in_list)). cbn. by rewrite !lookup_insert_ne. }
  split_and!; [| cbn; by rewrite lookup_insert_eq.. | done].
  apply (represents_frame f m m' [] [a]); [done | by apply not_elem_of_nil | | done].
  intros b Hb ->%list_elem_of_singleton. done.
Qed.
End TrashSpec.

(** Following or removing an element whose links are trashed is an access to no
    struct. *)
Lemma trashed_faults trash m h a :
  ptrs m !! Next a = Some (Some trash) -> links m !! Next a = Some (Next trash) ->
  ptrs m !! Next trash = None -> links m !! Next trash = None ->
  TAILQ_FOREACH_FROM collect (Some a) h (m, []) = Fault UseAfterFree /\
  TAILQ_REMOVE m h (Some a) = Fault UseAfterFree /\
  LIST_FOREACH_FROM collect (Some a) h (m, []) = Fault UseAfterFree /\
  LIST_REMOVE m (Some a) = Fault UseAfterFree.
Proof.
  intros Ha Hl Ht Htl.
  assert (exists n, size (ptrs m) = S n) as [n Hn].
  { destruct (size (ptrs m)) as [|n] eqn:E; [| by exists n].
    apply map_size_empty_iff in E. by rewrite E, lookup_empty in Ha. }
  unfold TAILQ_FOREACH_FROM, LIST_FOREACH_FROM, TAILQ_REMOVE, LIST_REMOVE, walk_fuel. cbn [fst].
  rewrite Hn. cbn [mbind outcome_bind foreach].
  unfold collect at 1 3. cbn [mbind outcome_bind fst snd].
  unfold TAILQ_NEXT, LIST_NEXT. queue_eval.
  split_and!; rewrite ?decide_False by done; unfold collect; cbn; rewrite ?Ht, ?Htl, ?Ha; cbn;
    by rewrite ?Ht.
Qed.

(** What is left when an element has been removed and its links are trashed. *)
Lemma removed_then_trashed trash f m m1 h ids1 a ids2 :
  has_prev f = true -> represents f m h (ids1 ++ a :: ids2) -> removed f m m1 h ids1 a ids2 ->
  (trash ∉ ids1 ++ a :: ids2) -> ptrs m !! Next trash = None -> links m !! Next trash = None ->
  exists m', trash_links trash m1 (Some a) = Ret m' /\ represents f m' h (ids1 ++ ids2) /\
    ptrs m' !! Next a = Some (Some trash) /\ links m' !! Next a = Some (Next trash) /\
    ptrs m' !! Next trash = None /\ links m' !! Next trash = None.
Proof.
  intros Hf Hr Hrem Hni Ht Htl. pose proof (rep_nodup _ _ _ _ Hr) as (Ha1 & Ha2 & _)%NoDup_middle.
  destruct (trash_links_spec trash f Hf m1 h (ids1 ++ ids2) a) as (m2 & E2 & Hr2 & H1 & H2 & Hc2);
    [by eapply represents_removed | rewrite elem_of_app; tauto | apply (rem_live _ _ _ _ _ _ _ Hrem) |].
  destruct (removed_changes _ _ _ _ _ _ _ Hrem (Next trash)) as [T1 T2];
    [done | by intros b Hb [= ->] |].
  destruct (Hc2 (Next trash)) as [T3 T4]; [by intros x ?%elem_of_nil | |].
  { intros b ->%list_elem_of_singleton [= ->]. apply Hni. in_list. }
  exists m2. by rewrite T3, T4, T1, T2.
Qed.

(** With [QUEUE_MACRO_DEBUG], removing an element leaves the list without it and the
    element unusable: iterating from it, or removing it once more, is an access to
    no struct. *)
Lemma TAILQ_REMOVE_debug_spec trash m h ids1 a ids2 :
  represents tailq m h (ids1 ++ a :: ids2) -> (trash ∉ ids1 ++ a :: ids2) ->
  ptrs m !! Next trash = None -> links m !! Next trash = None ->
  exists m', TAILQ_REMOVE_debug trash m h (Some a) = Ret m' /\
    represents tailq m' h (ids1 ++ ids2) /\
    TAILQ_FOREACH_FROM collect (Some a) h (m', []) = Fault UseAfterFree /\
    TAILQ_REMOVE m' h (Some a) = Fault UseAfterFree.
Proof.
  intros Hr Hni Ht Htl. destruct (TAILQ_REMOVE_spec m h ids1 a ids2 Hr) as (m1 & E & Hrem).
  destruct (removed_then_trashed trash tailq m m1 h ids1 a ids2) as (m2 & E2 & Hr2 & Hlinks); [done.. |].
  exists m2. unfold TAILQ_REMOVE_debug. rewrite E. cbn [mbind outcome_bind].
  destruct (trashed_faults trash m2 h a) as (F1 & F2 & _); [apply Hlinks.. | done].
Qed.

Lemma LIST_REMOVE_debug_spec trash m h ids1 a ids2 :
  represents listq m h (ids1 ++ a :: ids2) -> (trash ∉ ids1 ++ a :: ids2) ->
  ptrs m !! Next trash = None -> links m !! Next trash = None ->
  exists m', LIST_REMOVE_debug trash m (Some a) = Ret m' /\
    represents listq m' h (ids1 ++ ids2) /\
    LIST_FOREACH_FROM collect (Some a) h (m', []) = Fault UseAfterFree /\
    LIST_REMOVE m' (Some a) = Fault UseAfterFree.
Proof.
  intros Hr Hni Ht Htl. destruct (LIST_REMOVE_spec m h ids1 a ids2 Hr) as (m1 & E & Hrem).
  destruct (removed_then_trashed trash listq m m1 h ids1 a ids2) as (m2 & E2 & Hr2 & Hlinks); [done.. |].
  exists m2. unfold LIST_REMOVE_debug. rewrite E. cbn [mbind outcome_bind].
  destruct (trashed_faults trash m2 h a) as (_ & _ & F1 & F2); [apply Hlinks.. | done].
Qed.

Lemma STAILQ_REMOVE_debug_spec trash m h ids1 a ids2 :
  represents stailq m h (ids1 ++ a :: ids2) -> (trash ∉ ids1 ++ a :: ids2) ->
  ptrs m !! Next trash = None ->
  exists m', STAILQ_REMOVE_debug trash m h (Some a) = Ret m' /\
    represents stailq m' h (ids1 ++ ids2) /\
    STAILQ_NEXT m' (Some a) = Ret (Some trash) /\
    STAILQ_NEXT m' (Some trash) = Fault UseAfterFree.
Proof.
  intros Hr Hni Ht. pose proof (rep_nodup _ _ _ _ Hr) as (Ha1 & Ha2 & _)%NoDup_middle.
  destruct (STAILQ_REMOVE_spec m h ids1 a ids2 Hr) as (m1 & E & Hrem).
  destruct (rem_live _ _ _ _ _ _ _ Hrem) as [[q Hq] _].
  destruct (removed_changes _ _ _ _ _ _ _ Hrem (Next trash)) as [T1 _];
    [done | by intros b Hb [= ->] |].
  assert (trash <> a) as Hne by (intros ->; apply Hni; in_list).
  unfold STAILQ_REMOVE_debug. cbn [elem_link mbind outcome_bind]. rewrite E. cbn [mbind outcome_bind].
  unfold STAILQ_NEXT. queue_eval. eexists. split; [done |]. split_and!.
  - apply (represents_frame stailq m1 _ [] [a]); [| by apply not_elem_of_nil | |].
    + intros x _ Hx. cbn. by rewrite lookup_insert_ne by (symmetry; apply Hx; in_list).
    + intros b Hb ->%list_elem_of_singleton. apply elem_of_app in Hb. tauto.
    + by eapply represents_removed.
  - cbn. by rewrite lookup_insert_eq.
  - cbn. by rewrite lookup_insert_ne, T1, Ht by congruence.
Qed.

Lemma SLIST_REMOVE_debug_spec {A} trash (l : SList.slist A) ids1 a ids2 :
  SList.represents l (ids1 ++ a :: ids2) -> SList.nodes l !! trash = None ->
  exists l', SLIST_REMOVE_debug trash l (Some a) = Ret l' /\
    SList.represents l' (ids1 ++ ids2) /\
    SList.SLIST_NEXT l' (Some a) = Ret (Some trash) /\
    SList.SLIST_NEXT l' (Some trash) = Fault UseAfterFree.
Proof.
  intros Hr Ht. pose proof Hr as [Hseg (Ha1 & Ha2 & _)%NoDup_middle].
  destruct (SList.SLIST_REMOVE_spec l ids1 a ids2 Hr) as (l1 & E & [Hs1 Hnd1] & Hsame).
  apply SList.segment_app in Hseg as (r & _ & _ & n & Hn & _).
  assert (forall b, is_Some (SList.nodes l1 !! b) <-> is_Some (SList.nodes l !! b)) as Hlive.
  { intros b. unfold SList.same_payloads in Hsame.
    rewrite <- !(fmap_is_Some SList.payload), <- !lookup_fmap. by rewrite Hsame. }
  destruct (proj2 (Hlive a)) as [n1 Hn1]; [by eexists |].
  assert (SList.nodes l1 !! trash = None) as Ht1.
  { apply eq_None_not_Some. rewrite Hlive, Ht. by intros []. }
  assert (trash <> a) as Hne by (intros ->; by rewrite Hn in Ht).
  unfold SLIST_REMOVE_debug. rewrite E. cbn [mbind outcome_bind]. unfold SList.set_next. rewrite Hn1.
  eexists. split; [done |]. split_and!.
  - split; [| done]. cbn. apply SList.segment_insert_ne; [| done]. rewrite elem_of_app. tauto.
  - cbn. by rewrite lookup_insert_eq.
  - cbn. by rewrite lookup_insert_ne, Ht1 by congruence.
Qed.

(** ** Traces *)

(** [struct qm_trace]; a file is [None] for [NULL]. *)
Record qm_trace : Type := mk_qm_trace {
  lastline : Z;
  prevline : Z;
  lastfile : option string;
  prevfile : option string;
}.

(** [TRACEBUF_INITIALIZER] at a place of the source. *)
Definition TRACEBUF_INITIALIZER (line : Z) (file : string) : qm_trace :=
  mk_qm_trace line 0 (Some file) None.

(** [QMD_TRACE_HEAD] and [QMD_TRACE_ELEM], which are the same statements. *)
Definition QMD_TRACE (line : Z) (file : string) (t : qm_trace) : qm_trace :=
  let t := mk_qm_trace (lastline t) (lastline t) (lastfile t) (lastfile t) in
  mk_qm_trace line (prevline t) (Some file) (prevfile t).

(** The structs a [TAILQ] macro traces, in its order. *)
Definition tailq_traced (m : qmem) (op : queue_op) : outcome (list link) :=
  match op with
  | OpInit h => Ret [First h]
  | OpInsertHead h a | OpInsertTail h a => Ret [First h; Next a]
  | OpInsertAfter h b a =>
      next ← TAILQ_NEXT m (Some b);
      Ret ((if decide (next = None) then [First h] else []) ++ [Next a; Next b])
  | OpInsertBefore _ b a => Ret [Next a; Next b]
  | OpRemove h a =>
      next ← TAILQ_NEXT m (Some a);
      Ret ((if decide (next = None) then [First h] else []) ++ [Next a])
  | OpConcat h1 h2 =>
      empty2 ← TAILQ_EMPTY m h2;
      Ret (if (empty2 : bool) then [] else [First h2; First h1; First h2])
  | OpRemoveHead _ | OpRemoveAfter _ _ | OpSwap _ _ => Ret []
  end.

(** All the traces of one use of a macro have its place. *)
Definition record_traces (line : Z) (file : string) (traced : list link)
    (ts : gmap link qm_trace) : gmap link qm_trace :=
  foldl (fun ts l => alter (QMD_TRACE line file) l ts) ts traced.

Lemma QMD_TRACE_twice l1 f1 l2 f2 t :
  QMD_TRACE l2 f2 (QMD_TRACE l1 f1 t) = mk_qm_trace l2 l1 (Some f2) (Some f1).
Proof. done. Qed.

Lemma record_traces_other line file traced ts l :
  l ∉ traced -> record_traces line file traced ts !! l = ts !! l.
Proof.
  unfold record_traces. revert ts. induction traced as [|k traced IH]; intros ts; [done |].
  intros [Hne Hl]%not_elem_of_cons. cbn [foldl]. by rewrite IH, lookup_alter_ne.
Qed.

(** Concatenating traces the second head twice, so that of the place where it was
    altered before nothing is left. *)
Lemma concat_forgets_place m h1 h2 a ids line file ts t :
  represents tailq m h2 (a :: ids) -> h1 <> h2 -> ts !! First h2 = Some t ->
  exists traced, tailq_traced m (OpConcat h1 h2) = Ret traced /\
    record_traces line file traced ts !! First h2
      = Some (mk_qm_trace line line (Some file) (Some file)).
Proof.
  intros Hr Hne Ht. cbn [tailq_traced]. rewrite (TAILQ_EMPTY_spec m h2 _ Hr).
  cbn [mbind outcome_bind]. rewrite bool_decide_false by done. eexists. split; [done |].
  cbn. rewrite lookup_alter_eq, lookup_alter_ne by congruence. by rewrite lookup_alter_eq, Ht.
Qed.

(** ** Properties *)

(** C32. The checks of the debugging build, for the doubly-linked lists and the tail
    queues. They are right to pass: every program that makes sense on lists runs in
    the checking build as it does without the checks, to the same memory, and
    never panics. And they catch what they are there for: removing an element that
    is on no list any more, or inserting before it, does not go through when its
    stale back pointer leads to a head or to an element in use. *)
Theorem debug_checks_correct :
  (checks_transparent listq listq_exec listq_checks /\
   checks_catch_stale listq listq_exec listq_checks) /\
  (checks_transparent tailq tailq_exec tailq_checks /\
   checks_catch_stale tailq tailq_exec tailq_checks).
Proof.
  split; split; by first [apply (family_checks_transparent _ _ _) | apply (family_checks_catch _ _ _)].
Qed.

(** An element removed twice in a row, in the checking build. *)
Example second_remove_panics :
  (m ← TAILQ_REMOVE demo_tailq 0 (Some 10%nat);
   checked (tailq_checks m (OpRemove 0 10)) (TAILQ_REMOVE m 0 (Some 10%nat))) = Ret None.
Proof. by vm_compute. Qed.
