(* ===== verification/SocketThread.v ===== *)
(** The server's connection thread ([threadHandler] of [server/aesdsocket.c]): the
    loop that receives a packet, what is done to the data file with the mutex held,
    and the loop that sends the file back. The data file is an interface, the class
    [DataFile], with two instances: a regular file and the character device. *)

From Stdlib Require Import String.
From S2P Require Import Prelude CMem CString LogSpec.

(** ** The data file *)

(** What the thread needs of the file behind [dataFile], opened with [fopen(_, "a+")]:
    appending a buffer, the bytes a reader sees from the start, and the answer to
    the [AESDCHAR_IOCSEEKTO] ioctl ([None] when it fails). The file shows a line
    that has been appended at its end, and no position is negative. *)
Class DataFile (F : Type) := {
  df_append : F -> list byte -> F;
  df_content : F -> list byte;
  df_seek : F -> Z -> Z -> option Z;
  df_shows_line f bs : newline ∈ bs -> bs `suffix_of` df_content (df_append f bs);
  df_seek_forward f w off p : 0 <= off -> df_seek f w off = Some p -> 0 <= p;
}.

(** A regular file: it has no such ioctl. *)
#[export, program] Instance regular_file : DataFile (list byte) := {|
  df_append f bs := f ++ bs;
  df_content f := f;
  df_seek f w off := None;
|}.
Next Obligation. intros f bs _. by exists f. Qed.
Next Obligation. done. Qed.

(** The character device, as [LogSpec] specifies it. *)
#[export, program] Instance device_file : DataFile log := {|
  df_append := log_write;
  df_content := log_bytes;
  df_seek := log_seek;
|}.
Next Obligation.
  intros l bs Hbs. unfold log_bytes, log_write. rewrite decide_True.
  - cbn. unfold last_n. rewrite length_app. cbn [length].
    rewrite drop_app_le by (unfold LOG_MAX; lia). rewrite concat_app. cbn. rewrite app_nil_r.
    by apply suffix_app_r, suffix_app_r.
  - rewrite elem_of_app. by right.
Qed.
Next Obligation.
  intros l w off p Hoff. unfold log_seek. destruct (slot_order l !! _); [| done].
  destruct (off <=? _); [| done]. intros [= <-].
  pose proof (sumZ_nonneg (take (Z.to_nat w) (lengths (slot_order l)))
                ltac:(apply Forall_take, lengths_nonneg)). lia.
Qed.

(** ** Receiving a packet *)

Definition BUFFER_SIZE : Z := 100.
Definition ioctl_string : list byte := list_byte_of_string "AESDCHAR_IOCSEEKTO:".

(** What [recv] answers: bytes, 0 at the end of the stream, or -1. *)
Inductive rx : Type :=
| RxBytes (bs : list byte)
| RxClosed
| RxError.

(** [recv] delivers at least one byte and at most the buffer. *)
Definition rx_ok (a : rx) : Prop :=
  match a with
  | RxBytes bs => 1 <= Z.of_nat (length bs) <= BUFFER_SIZE
  | _ => True
  end.

(** The local variables of the receiving loop. [outputBuffer] is the block the
    thread owns, [None] for [NULL]. *)
Record recv_state : Type := mk_recv {
  packetComplete : bool;
  buffer : list byte;
  outputBuffer : option (list (option byte));
  j : Z;
}.

Section Thread.
(** Whether an allocation of a size succeeds. *)
Context (mem : Z -> bool).

Definition zero_buffer : list byte := replicate (Z.to_nat BUFFER_SIZE) NUL.

(** [malloc], then [memset] of the whole block. *)
Definition recv_init : outcome recv_state :=
  if mem BUFFER_SIZE
  then Ret (mk_recv false zero_buffer (Some (replicate (Z.to_nat BUFFER_SIZE) (Some NUL))) 0)
  else Fault NullDeref.

Definition realloc (p : option (list (option byte))) (n : Z)
    : option (list (option byte)) :=
  if mem n then Some (resize (Z.to_nat n) None (default [] p)) else None.

(** The for loop that looks for the newline: whether it was found, and [i]. *)
Fixpoint scan_newline (fuel : nat) (buffer : list byte) (i : Z) : outcome (bool * Z) :=
  match fuel with
  | O => NoFuel
  | S fuel =>
      if i <? BUFFER_SIZE then
        c ← arr_get buffer i;
        if decide (c = newline) then Ret (true, i + 1)
        else scan_newline fuel buffer (i + 1)
      else Ret (false, i)
  end.

Inductive turn : Type :=
| Exit
| Break (st : recv_state)
| Next (st : recv_state).

(** One turn of the receiving loop, with the global [data_count]. *)
Definition recv_turn (st : recv_state) (data_count : Z) (a : rx) : outcome (turn * Z) :=
  match a with
  | RxError => Ret (Exit, data_count)
  | RxClosed => Ret (Break st, data_count)
  | RxBytes bs =>
      let buffer := bs ++ drop (length bs) (buffer st) in
      '(found, i) ← scan_newline (S (Z.to_nat BUFFER_SIZE)) buffer 0;
      j ← int_add (j st) i;
      data_count ← int_add data_count i;
      size ← int_add j 1;
      n ← int_add i 1;
      match realloc (outputBuffer st) size with
      | None => Fault NullDeref
      | Some out =>
          out ← strncat out buffer n;
          Ret (Next (mk_recv (packetComplete st || found) zero_buffer (Some out) j),
               data_count)
      end
  end.

Inductive received : Type :=
| ProcessExit
| Packet (st : recv_state) (rest : list rx)
| Blocked (st : recv_state).

(** The while loop, over the answers of [recv] in order. *)
Fixpoint recv_loop (st : recv_state) (data_count : Z) (answers : list rx)
    : outcome (received * Z) :=
  if packetComplete st then Ret (Packet st answers, data_count)
  else
    match answers with
    | [] => Ret (Blocked st, data_count)
    | a :: answers =>
        '(t, data_count) ← recv_turn st data_count a;
        match t with
        | Exit => Ret (ProcessExit, data_count)
        | Break st => Ret (Packet st answers, data_count)
        | Next st => recv_loop st data_count answers
        end
    end.

(** ** With the mutex held *)

Context {F : Type} `{!DataFile F}.

(** From the lock to the end of the if: [opened] says whether [fopen] succeeded.
    The result is the file and the position the stream reads from next. A field
    [sscanf] does not assign is passed to the driver indeterminate. *)
Definition store_request (f : F) (opened : bool) (out : option (list (option byte)))
    : outcome (F * Z) :=
  match out with
  | None => Fault NullDeref
  | Some out =>
      is_seek ← strncmp_eq out ioctl_string (length ioctl_string);
      if (is_seek : bool) then
        cs ← c_string out;
        '(write_cmd, write_cmd_offset) ← sscanf_d_d ioctl_string [x2c] cs;
        if negb opened then Fault NullDeref
        else
          match write_cmd, write_cmd_offset with
          | Some w, Some off =>
              Ret (f, default 0 (df_seek f (u32 w) (u32 off)))
          | _, _ => Fault Uninitialised
          end
      else
        cs ← c_string out;
        if negb opened then Fault NullDeref
        else Ret (match cs with [] => f | _ => df_append f cs end, 0)
  end.

(** [fread] of one byte at [pos]. *)
Definition fread1 (f : F) (pos : Z) : option byte := df_content f !! Z.to_nat pos.

(** The sending loop: one byte at a time until [fread] gives none. *)
Fixpoint send_loop (fuel : nat) (f : F) (pos : Z) (sent : list byte) : outcome (list byte) :=
  match fuel with
  | O => NoFuel
  | S fuel =>
      match fread1 f pos with
      | Some c => send_loop fuel f (pos + 1) (sent ++ [c])
      | None => Ret sent
      end
  end.

(** The file never has more bytes left than it has bytes. *)
Definition send_file (f : F) (pos : Z) : outcome (list byte) :=
  if mem 1 then send_loop (S (length (df_content f))) f pos [] else Fault NullDeref.

Inductive handled : Type :=
| HandlerDone (f : F) (sent : list byte)
| HandlerExit
| HandlerBlocked.

(** The whole thread, when no other thread runs meanwhile. *)
Definition threadHandler (f : F) (opened : bool) (data_count : Z) (answers : list rx)
    : outcome (handled * Z) :=
  st ← recv_init;
  '(r, data_count) ← recv_loop st data_count answers;
  match r with
  | ProcessExit => Ret (HandlerExit, data_count)
  | Blocked _ => Ret (HandlerBlocked, data_count)
  | Packet st _ =>
      '(f, pos) ← store_request f opened (outputBuffer st);
      sent ← send_file f pos;
      Ret (HandlerDone f sent, data_count)
  end.
End Thread.
