(* ===== verification/SocketThreadSpec.v ===== *)
(** What the connection thread does with the packets a client sends: the receiving
    loop assembles a line delivered in any number of pieces shorter than the
    buffer, and runs out of its memory on the others; the locked section appends the
    line and sends the whole file back. *)

From Stdlib Require Import String.
From S2P Require Import Prelude CMem CString LogSpec SocketThread.

(** ** The newline scan *)

Lemma scan_newline_spec buf fuel k :
  length buf = 100%nat -> (k <= 100)%nat -> (100 - k < fuel)%nat ->
  scan_newline fuel buf (Z.of_nat k) =
  Ret match list_find (newline =.) (drop k buf) with
      | Some (p, _) => (true, Z.of_nat (k + p) + 1)
      | None => (false, 100)
      end.
Proof.
  intros Hlen. revert k. induction fuel as [|fuel IH]; intros k Hk Hfuel; [lia |].
  cbn [scan_newline]. unfold BUFFER_SIZE. destruct (Z.ltb_spec (Z.of_nat k) 100).
  - destruct (lookup_lt_is_Some_2 buf k) as [c Hc]; [lia |].
    rewrite (arr_get_lookup _ _ c), (drop_S _ c) by done. cbn [mbind outcome_bind list_find].
    destruct (decide (c = newline)) as [-> | Hne].
    + rewrite decide_True by done. do 2 f_equal. lia.
    + rewrite decide_False by congruence.
      replace (Z.of_nat k + 1) with (Z.of_nat (S k)) by lia. rewrite IH by lia.
      destruct (list_find _ (drop (S k) buf)) as [[p x]|]; cbn; [| done].
      do 2 f_equal. lia.
  - rewrite drop_ge by lia. cbn. do 2 f_equal. lia.
Qed.

Lemma list_find_app_newline a b :
  newline ∉ a -> list_find (newline =.) (a ++ newline :: b) = Some (length a, newline).
Proof.
  intros Ha. apply list_find_Some. split_and!.
  - by rewrite list_lookup_middle.
  - done.
  - intros i y Hi Hlt. rewrite lookup_app_l in Hi by done. intros <-.
    apply Ha. by eapply list_elem_of_lookup_2.
Qed.

Lemma list_find_no_newline a : newline ∉ a -> list_find (newline =.) a = None.
Proof.
  intros Ha. apply list_find_None, Forall_forall. intros x Hx <-. done.
Qed.

Lemma holds_string_resize s cs n :
  holds_string s cs -> (length cs < n)%nat -> holds_string (resize n None s) cs.
Proof.
  intros [Hno [rest ->]] Hn. split; [done |]. 
  exists (resize (n - length (cs ++ [NUL])) None rest).
  rewrite <- (length_fmap Some (cs ++ [NUL])).
  rewrite resize_app_ge by (rewrite length_fmap, length_app; cbn; lia). done.
Qed.

(** ** The receiving loop *)

(** A piece of a packet that leaves a NUL in the buffer and holds none itself. *)
Definition piece_ok (c : list byte) : Prop := 1 <= Z.of_nat (length c) < 100 /\ NUL ∉ c.

(** The loop's state once the characters [s] have been received in pieces. *)
Record receiving (st : recv_state) (s : list byte) : Prop := {
  rcv_more : packetComplete st = false;
  rcv_buffer : buffer st = zero_buffer;
  rcv_out : exists out, outputBuffer st = Some out /\ holds_string out s;
  rcv_room : 0 <= Z.of_nat (length s) <= j st;
}.

(** The packet received. *)
Definition has_packet (st : recv_state) (s : list byte) : Prop :=
  exists out, outputBuffer st = Some out /\ holds_string out s.

Section Receive.
Context (mem : Z -> bool) (limit : Z).
Context (Hmem : forall n, 0 < n <= limit -> mem n = true) (Hlimit : 100 <= limit < 2 ^ 31).

Lemma recv_init_spec : exists st, recv_init mem = Ret st /\ receiving st [] /\ j st = 0.
Proof using Hmem Hlimit.
  unfold recv_init. rewrite Hmem by (unfold BUFFER_SIZE; lia). eexists. split; [done |].
  split; [| done]. split; cbn; [done | done | | lia].
  eexists. split; [done |]. apply holds_string_nil. unfold BUFFER_SIZE; lia.
Qed.

(** The buffer after a piece is received. *)
Lemma filled_buffer c :
  piece_ok c -> exists m, c ++ drop (length c) zero_buffer = c ++ replicate (S m) NUL /\
    (length c + S m = 100)%nat.
Proof using All.
  intros [Hc _]. unfold zero_buffer, BUFFER_SIZE. rewrite drop_replicate.
  exists (99 - length c)%nat. split; [do 2 f_equal |]; lia.
Qed.

(** What all turns that store a piece have in common: [i] characters are counted,
    [i + 1] are offered to [strncat], which stores [new]. *)
Lemma store_piece st s data_count c found i new :
  receiving st s -> piece_ok c ->
  scan_newline (S (Z.to_nat BUFFER_SIZE)) (c ++ drop (length c) zero_buffer) 0
    = Ret (found, i) ->
  1 <= i <= 100 -> 0 <= data_count -> data_count + 100 < 2 ^ 31 ->
  0 <= j st -> j st + i + 1 <= limit ->
  before_nul (take (Z.to_nat (i + 1)) (c ++ drop (length c) zero_buffer)) = new ->
  Z.of_nat (length s) + Z.of_nat (length new) <= j st + i ->
  exists st', recv_turn mem st data_count (RxBytes c) = Ret (Next st', data_count + i) /\
    packetComplete st' = found /\ buffer st' = zero_buffer /\ j st' = j st + i /\
    has_packet st' (s ++ new).
Proof using Hmem Hlimit.
  intros [Hmore Hbuf (out & Hout & Hs) Hroom] Hc Hscan Hi Hdc Hdc' Hj Hlim Hnew Hfit.
  unfold recv_turn. rewrite Hbuf, Hscan. cbn [mbind outcome_bind].
  rewrite !int_add_ok by lia. cbn [mbind outcome_bind]. rewrite !int_add_ok by lia.
  cbn [mbind outcome_bind]. unfold realloc. rewrite Hmem by lia. rewrite Hout. cbn [default].
  destruct (filled_buffer c Hc) as (m & Hb & Hm).
  destruct (strncat_ok (resize (Z.to_nat (j st + i + 1)) None out) s
              (c ++ drop (length c) zero_buffer) (i + 1)) as (out' & Heq & Hs' & _).
  - apply holds_string_resize; [done | lia].
  - right. rewrite Hb, elem_of_app. right. apply list_elem_of_here.
  - rewrite Hnew, length_resize. lia.
  - unfold id. rewrite Heq. cbn [mbind outcome_bind]. eexists. split; [done |].
    cbn. rewrite Hmore. rewrite Hnew in Hs'. split_and!; [done.. |]. by exists out'.
Qed.

(** A piece without a newline: all of it is stored, and 100 characters counted. *)
Lemma recv_turn_piece st s data_count c :
  receiving st s -> piece_ok c -> newline ∉ c ->
  0 <= data_count -> data_count + 100 < 2 ^ 31 -> j st + 101 <= limit ->
  exists st', recv_turn mem st data_count (RxBytes c) = Ret (Next st', data_count + 100) /\
    receiving st' (s ++ c) /\ j st' = j st + 100.
Proof using Hmem Hlimit.
  intros Hst Hc Hnl Hdc Hdc' Hlim. pose proof (rcv_room _ _ Hst).
  destruct (filled_buffer c Hc) as (m & Hb & Hm). pose proof Hc as [Hlen Hno].
  destruct (store_piece st s data_count c false 100 c) as (st' & Heq & Hmore & Hbuf & Hj & Hp);
    try done; try lia.
  - change 0 with (Z.of_nat 0). rewrite scan_newline_spec; [| | lia | unfold BUFFER_SIZE; lia].
    + rewrite drop_0, list_find_no_newline; [done |].
      rewrite Hb, elem_of_app. intros [? | Hin]; [done |].
      apply elem_of_replicate in Hin as [? _]. done.
    + rewrite Hb, length_app, length_replicate. lia.
  - rewrite Hb. cbn [replicate]. rewrite take_ge.
    + by apply before_nul_app_nul.
    + rewrite length_app. cbn [length]. rewrite length_replicate. lia.
  - exists st'. split; [done |]. split; [| done]. split; [done.. | |].
    + done.
    + rewrite Hj, length_app. lia.
Qed.

(** The piece with the newline: what precedes it, the newline, and the byte after
    it when there is one. *)
Lemma recv_turn_line st s data_count a b :
  receiving st s -> piece_ok (a ++ newline :: b) -> newline ∉ a ->
  0 <= data_count -> data_count + 100 < 2 ^ 31 -> j st + 101 <= limit ->
  (b = [] \/ Z.of_nat (length s) < j st) ->
  exists st' n, recv_turn mem st data_count (RxBytes (a ++ newline :: b)) = Ret (Next st', n) /\
    packetComplete st' = true /\ has_packet st' (s ++ a ++ newline :: take 1 b) /\
    n = data_count + Z.of_nat (length a) + 1.
Proof using Hmem Hlimit.
  intros Hst Hc Ha Hdc Hdc' Hlim Hroom. pose proof (rcv_room _ _ Hst) as Hr.
  destruct (filled_buffer _ Hc) as (m & Hb & Hm). pose proof Hc as [Hlen Hno].
  rewrite elem_of_app, elem_of_cons in Hno.
  rewrite length_app in Hlen, Hm. cbn [length] in Hlen, Hm.
  destruct (store_piece st s data_count (a ++ newline :: b) true (Z.of_nat (length a) + 1)
              (a ++ newline :: take 1 b)) as (st' & Heq & Hmore & Hbuf & Hj & Hp);
    try done; try lia.
  - change 0 with (Z.of_nat 0). rewrite scan_newline_spec; [| | lia | unfold BUFFER_SIZE; lia].
    + rewrite drop_0, <- app_assoc. cbn [app]. by rewrite list_find_app_newline.
    + rewrite Hb, length_app, length_replicate, length_app. cbn [length]. lia.
  - rewrite Hb, <- app_assoc. cbn [app].
    rewrite take_app_ge by lia.
    replace (Z.to_nat (Z.of_nat (length a) + 1 + 1) - length a)%nat with 2%nat by lia.
    destruct b as [|x b]; cbn [take app replicate].
    + rewrite take_0. change [newline; NUL] with ([newline] ++ [NUL]). rewrite app_assoc.
      apply before_nul_app_nul. rewrite elem_of_app, list_elem_of_singleton.
      intros [? | ?]; [by apply Hno; left | done].
    + apply before_nul_id. rewrite elem_of_app, !elem_of_cons in *. rewrite elem_of_nil.
      intros Hin. apply Hno. clear -Hin. tauto.
  - rewrite length_app. cbn [length]. rewrite length_take.
    destruct b; cbn [length] in *; destruct Hroom; (done || lia).
  - exists st', (data_count + (Z.of_nat (length a) + 1)). split_and!; [done.. | lia].
Qed.

(** The whole loop, on pieces without a newline and then the piece with it. *)
Lemma recv_loop_line cs a b rest st s data_count :
  receiving st s -> Forall (fun c => piece_ok c /\ newline ∉ c) cs ->
  piece_ok (a ++ newline :: b) -> newline ∉ a ->
  0 <= data_count -> data_count + 100 * (Z.of_nat (length cs) + 1) < 2 ^ 31 ->
  j st + 100 * Z.of_nat (length cs) + 101 <= limit ->
  (b = [] \/ cs <> [] \/ Z.of_nat (length s) < j st) ->
  exists st' n,
    recv_loop mem st data_count ((RxBytes <$> cs) ++ RxBytes (a ++ newline :: b) :: rest)
      = Ret (Packet st' rest, n) /\
    has_packet st' (s ++ concat cs ++ a ++ newline :: take 1 b).
Proof using Hmem Hlimit.
  intros Hst Hcs Hline Ha. revert st s data_count Hst.
  induction Hcs as [|c cs [Hc Hnl] Hcs IH]; intros st s data_count Hst Hdc Hdc' Hlim Hroom;
    cbn [length] in *.
  - destruct (recv_turn_line st s data_count a b) as (st' & n & Heq & Hdone & Hp & _);
      [done.. | lia | lia | by destruct Hroom as [? | [? | ?]]; [left | | right] |].
    exists st', n. cbn [fmap list_fmap app concat recv_loop]. rewrite (rcv_more _ _ Hst), Heq.
    cbn [mbind outcome_bind]. split; [| done]. destruct rest; cbn; by rewrite Hdone.
  - destruct (recv_turn_piece st s data_count c) as (st1 & Heq & Hst1 & Hj); [done.. | lia | lia |].
    pose proof (rcv_room _ _ Hst) as Hr. pose proof Hc as [Hlen _].
    destruct (IH st1 (s ++ c) (data_count + 100)) as (st' & n & Hloop & Hp); [done | lia.. | |].
    { right. right. rewrite Hj, length_app. lia. }
    exists st', n. cbn [fmap list_fmap app recv_loop]. rewrite (rcv_more _ _ Hst), Heq.
    cbn [mbind outcome_bind]. rewrite Hloop. split; [done |].
    cbn [concat]. by rewrite <- app_assoc in Hp |- *.
Qed.
End Receive.

(** ** The locked section *)

Section Serve.
Context {F : Type} `{!DataFile F} (mem : Z -> bool).

(** Storing a packet that is not a seek request. *)
Lemma store_request_append f st s :
  has_packet st s -> ~ ioctl_string `prefix_of` s -> s <> [] ->
  store_request f true (outputBuffer st) = Ret (df_append f s, 0).
Proof.
  intros (out & -> & Hs) Hno Hne. unfold store_request.
  rewrite (strncmp_eq_prefix _ s) by (done || by apply (bool_decide_unpack _)).
  rewrite bool_decide_eq_false_2 by done. cbn [mbind outcome_bind].
  rewrite (c_string_holds _ _ Hs). cbn [mbind outcome_bind negb]. by destruct s.
Qed.

(** A well-formed seek request. *)
Definition seek_request (w off : Z) (rest : list byte) : list byte :=
  ioctl_string ++ print_d w ++ x2c :: print_d off ++ rest.

Lemma store_request_seek f st w off rest :
  has_packet st (seek_request w off rest) -> 0 <= w < 2 ^ 31 -> 0 <= off < 2 ^ 31 ->
  match rest with b :: _ => is_digit b = false | [] => True end ->
  store_request f true (outputBuffer st) = Ret (f, default 0 (df_seek f w off)).
Proof.
  intros (out & -> & Hs) Hw Hoff Hrest. unfold store_request.
  rewrite (strncmp_eq_prefix _ _ _ Hs) by (by apply (bool_decide_unpack _)).
  rewrite bool_decide_eq_true_2 by (by eexists). cbn [mbind outcome_bind].
  rewrite (c_string_holds _ _ Hs). cbn [mbind outcome_bind].
  unfold sscanf_d_d, seek_request. rewrite scan_literal_app, scan_print_d by done.
  cbn [mbind outcome_bind]. cbn [scan_literal]. rewrite decide_True by done.
  rewrite scan_print_d by done. cbn. by rewrite !u32_small by lia.
Qed.

(** The sending loop ends and sends what is left from the position on. *)
Lemma send_loop_spec f fuel pos sent :
  0 <= pos -> (length (df_content f) - Z.to_nat pos < fuel)%nat ->
  send_loop fuel f pos sent = Ret (sent ++ drop (Z.to_nat pos) (df_content f)).
Proof.
  revert pos sent. induction fuel as [|fuel IH]; intros pos sent Hpos Hfuel; [lia |].
  cbn [send_loop]. unfold fread1.
  destruct (df_content f !! Z.to_nat pos) as [c|] eqn:E.
  - pose proof (lookup_lt_Some _ _ _ E). rewrite IH by lia.
    rewrite (drop_S _ c (Z.to_nat pos)) by done. rewrite <- app_assoc. cbn [app].
    by replace (Z.to_nat (pos + 1)) with (S (Z.to_nat pos)) by lia.
  - apply lookup_ge_None in E. by rewrite drop_ge, app_nil_r by lia.
Qed.

Lemma send_file_spec f pos :
  mem 1 = true -> 0 <= pos ->
  send_file mem f pos = Ret (drop (Z.to_nat pos) (df_content f)).
Proof.
  intros Hm Hpos. unfold send_file. rewrite Hm. by rewrite send_loop_spec by lia.
Qed.
End Serve.
