(* ===== verification/SocketThreadProps.v ===== *)
(** The properties of the connection thread: what a client gets back, what the data
    file becomes, that the character device is a data file as the server needs it,
    and the packets whose delivery leaves defined behaviour. *)

From Stdlib Require Import String.
From S2P Require Import Prelude CMem CString LogSpec CircularBuffer Kernel.
From S2P Require Import CharDriver CharDriverRel CharDriverRefine CharDriverSeek.
From S2P Require Import CharDriverSystem CharDriverModule CharDriverProps.
From S2P Require Import SocketThread SocketThreadSpec.

(** The memory of the witnesses: allocations of up to 4096 bytes succeed. *)
Definition some_memory (n : Z) : bool := (0 <=? n) && (n <=? 4096).

Lemma some_memory_ok n : 0 < n <= 4096 -> some_memory n = true.
Proof. intros. unfold some_memory. lia. Qed.

(** C14. A line that reaches the thread in pieces (each shorter than the buffer,
    without NUL characters; nothing after the newline unless an earlier piece left
    room for it) is appended to the data file as one packet, and the client is sent
    the whole contents of the file after that, which end with the line. The
    receiving loop and the sending loop end. *)
Theorem thread_serves_line {F} `{!DataFile F} mem limit (f : F) data_count cs a rest :
  (forall n, 0 < n <= limit -> mem n = true) -> 100 <= limit < 2 ^ 31 ->
  Forall (fun c => piece_ok c /\ newline ∉ c) cs -> piece_ok (a ++ [newline]) -> newline ∉ a ->
  0 <= data_count -> data_count + 100 * (Z.of_nat (length cs) + 1) < 2 ^ 31 ->
  100 * Z.of_nat (length cs) + 101 <= limit ->
  let packet := concat cs ++ a ++ [newline] in
  ~ ioctl_string `prefix_of` packet ->
  exists sent n,
    threadHandler mem f true data_count ((RxBytes <$> cs) ++ RxBytes (a ++ [newline]) :: rest)
      = Ret (HandlerDone (df_append f packet) sent, n) /\
    sent = df_content (df_append f packet) /\ packet `suffix_of` sent.
Proof.
  intros Hmem Hlimit Hcs Hline Ha Hdc Hdc' Hlim packet Hno.
  destruct (recv_init_spec mem limit Hmem Hlimit) as (st & Hinit & Hst & Hj).
  destruct (recv_loop_line mem limit Hmem Hlimit cs a [] rest st [] data_count)
    as (st' & n & Hloop & Hp); [done.. | lia | by left |].
  exists (df_content (df_append f packet)), n. unfold threadHandler. rewrite Hinit.
  cbn [mbind outcome_bind]. rewrite Hloop. cbn [mbind outcome_bind].
  rewrite (store_request_append f st' packet) by (done || by destruct (concat cs), a).
  cbn [mbind outcome_bind]. rewrite send_file_spec by (lia || apply Hmem; lia).
  split_and!; [done.. |]. apply df_shows_line. unfold packet. in_list.
Qed.

(** Three pieces of a line, and a device with ten commands. *)
Definition pieces : list (list byte) := [[x61; x62]; [x63]].

Lemma thread_serves_line_witness :
  let packet := concat pieces ++ [x64] ++ [newline] in
  exists sent n,
    threadHandler some_memory (written_log ten_lines) true 0
      ((RxBytes <$> pieces) ++ RxBytes ([x64] ++ [newline]) :: [])
      = Ret (HandlerDone (df_append (written_log ten_lines) packet) sent, n) /\
    sent = df_content (df_append (written_log ten_lines) packet) /\ packet `suffix_of` sent.
Proof.
  refine (thread_serves_line some_memory 4096 (written_log ten_lines) 0 pieces [x64] []
    some_memory_ok _ _ _ _ _ _ _ _); [by_computation | | | | by_computation | by_computation
    | by_computation |]; apply (bool_decide_unpack _); by vm_compute.
Defined.

(** A seek request [AESDCHAR_IOCSEEKTO:w,off], in decimal, does not change the
    data file: the client is sent its contents from the position the ioctl answers
    with, or all of them when the ioctl fails. *)
Theorem thread_serves_seek {F} `{!DataFile F} mem limit (f : F) data_count cs a rest w off :
  (forall n, 0 < n <= limit -> mem n = true) -> 100 <= limit < 2 ^ 31 ->
  Forall (fun c => piece_ok c /\ newline ∉ c) cs -> piece_ok (a ++ [newline]) -> newline ∉ a ->
  0 <= data_count -> data_count + 100 * (Z.of_nat (length cs) + 1) < 2 ^ 31 ->
  100 * Z.of_nat (length cs) + 101 <= limit ->
  0 <= w < 2 ^ 31 -> 0 <= off < 2 ^ 31 ->
  concat cs ++ a ++ [newline] = seek_request w off [newline] ->
  exists n,
    threadHandler mem f true data_count ((RxBytes <$> cs) ++ RxBytes (a ++ [newline]) :: rest)
      = Ret (HandlerDone f (drop (Z.to_nat (default 0 (df_seek f w off))) (df_content f)), n).
Proof.
  intros Hmem Hlimit Hcs Hline Ha Hdc Hdc' Hlim Hw Hoff Hreq.
  destruct (recv_init_spec mem limit Hmem Hlimit) as (st & Hinit & Hst & Hj).
  destruct (recv_loop_line mem limit Hmem Hlimit cs a [] rest st [] data_count)
    as (st' & n & Hloop & Hp); [done.. | lia | by left |].
  exists n. unfold threadHandler. rewrite Hinit.
  cbn [mbind outcome_bind]. rewrite Hloop. cbn [mbind outcome_bind].
  cbn [app take] in Hp. rewrite Hreq in Hp.
  rewrite (store_request_seek f st' w off [newline]) by done.
  cbn [mbind outcome_bind]. rewrite send_file_spec; [done | apply Hmem; lia |].
  destruct (df_seek f w off) as [p|] eqn:E; [eapply df_seek_forward; [| exact E]; lia | done].
Qed.

Lemma thread_serves_seek_witness :
  exists n,
    threadHandler some_memory (written_log ten_lines) true 0
      ((RxBytes <$> []) ++ RxBytes ((ioctl_string ++ [x32; x2c; x31]) ++ [newline]) :: [])
    = Ret (HandlerDone (written_log ten_lines)
        (drop (Z.to_nat (default 0 (df_seek (written_log ten_lines) 2 1)))
           (df_content (written_log ten_lines))), n).
Proof.
  refine (thread_serves_seek some_memory 4096 (written_log ten_lines) 0 []
    (ioctl_string ++ [x32; x2c; x31]) [] 2 1 some_memory_ok _ _ _ _ _ _ _ _ _ _).
  all: try by_computation.
  - apply (bool_decide_unpack _). by vm_compute.
  - apply (bool_decide_unpack _). by vm_compute.
  - apply (bool_decide_unpack _). by vm_compute.
Defined.

(** ** The device as a data file *)

(** C15. The driver implements the interface the server is written against: for a
    device standing for the log [l], under a kernel with memory that does not
    interrupt the call, a write of [u] and then reads from the start to the end
    (in pieces of any size) yield the contents the interface promises after
    appending [u], and the seek ioctl for a command number below 10 moves the file
    position to the one the interface answers, or fails when it answers none. *)
Theorem driver_implements_data_file k s l f u count fuel arg :
  KernelOk k -> (forall n, k_copy_to_user k n = 0) ->
  dev_rel s l -> private_data f = Some AESD_DEVICE ->
  mx_lock (aesd_device s) = false -> k_mutex_lock_interruptible k false = (0, true) ->
  Z.of_nat (length u) <= KMALLOC_LIMIT ->
  snd (k_copy_from_user k u (Z.of_nat (length u))) = 0 ->
  ~ no_memory k (Z.of_nat (length (pending l)) + Z.of_nat (length u)) ->
  0 < count < 2 ^ 63 -> (length (df_content (df_append l u)) < fuel)%nat ->
  k_copy_from_user k arg sizeof_aesd_seekto = (take 8 arg, 0) ->
  write_cmd (decode_seekto arg) < 10 ->
  (exists s', aesd_write k s f (Some u) (Z.of_nat (length u)) = Ret (Z.of_nat (length u), s') /\
     read_to_end fuel k s' f count 0 = Ret (df_content (df_append l u))) /\
  aesd_ioctl k s f (AESDCHAR_IOCSEEKTO k) arg =
    Ret match df_seek l (write_cmd (decode_seekto arg)) (write_cmd_offset (decode_seekto arg)) with
        | Some p => (0, s, set_f_pos p f)
        | None => (- EINVAL, s, f)
        end.
Proof.
  intros Hk Hcopy Hrel Hf Hfree Hlock Hu Hfrom Hmem Hcount Hfuel Harg Hw. split.
  - destruct (aesd_write_spec k s l f u (Z.of_nat (length u))) as (r & s' & Heq & Hres);
      [done.. | lia |].
    destruct Hres as [Hl | | n s' _ _ Hn _ _ Hrel'].
    + by rewrite Hfree, Hlock in Hl.
    + done.
    + rewrite Hfrom, Z.sub_0_r in Hn. subst n. rewrite Nat2Z.id, firstn_all in Hrel'.
      exists s'. split; [done |]. rewrite (read_to_end_log k s' (log_write l u)) by (done || lia).
      rewrite log_read_all_correct; [done | lia | done |].
      cbn [df_content df_append device_file] in Hfuel. rewrite Nat.sub_0_r. done.
  - rewrite (aesd_ioctl_granted k s l f Hrel Hf arg _ Harg Hfree Hlock)
      by (by rewrite decode_seekto_take).
    cbv zeta. rewrite decode_seekto_take. pose proof (le_u32_range arg).
    rewrite (seek_answer_log s l _ _ Hrel) by (cbn in *; lia). cbn [df_seek device_file].
    by destruct (log_seek l _ _).
Qed.

Lemma driver_implements_data_file_witness :
  (exists s', aesd_write K (written_state eleven_lines) the_file (Some (line x63 5)) 5 = Ret (5, s') /\
     read_to_end 100 K s' the_file 4 0
     = Ret (df_content (df_append (written_log eleven_lines) (line x63 5)))) /\
  aesd_ioctl K (written_state eleven_lines) the_file (AESDCHAR_IOCSEEKTO K) (request x02 x01) =
    Ret match df_seek (written_log eleven_lines) 2 1 with
        | Some p => (0, written_state eleven_lines, set_f_pos p the_file)
        | None => (- EINVAL, written_state eleven_lines, the_file)
        end.
Proof.
  refine (driver_implements_data_file K (written_state eleven_lines) (written_log eleven_lines)
    the_file (line x63 5) 4 100 (request x02 x01) _ _ eleven_rel _ _ _ _ _ _ _ _ _ _).
  all: try by_computation.
  - change (~ no_memory K 5). intros (h & [Hn | p]); [done |]. by destruct p as (b & _ & Hn).
  - apply Nat.ltb_lt. by vm_compute.
Defined.

(** ** Packets whose delivery leaves defined behaviour *)

(** A full buffer without a newline before its last byte is one byte too much:
    [strncat] is asked for [i + 1 = 101] characters of the 100-byte array, which
    holds no NUL, and reads past its end. So any packet of more than 99 bytes that
    arrives in one piece has undefined behaviour, whatever was received before. *)
Theorem full_buffer_read_past_end mem limit st s data_count bs :
  (forall n, 0 < n <= limit -> mem n = true) -> 100 <= limit < 2 ^ 31 ->
  receiving st s -> length bs = 100%nat -> NUL ∉ bs -> newline ∉ take 99 bs ->
  0 <= data_count -> data_count + 100 < 2 ^ 31 -> j st + 101 <= limit ->
  recv_turn mem st data_count (RxBytes bs) = Fault OutOfBounds.
Proof.
  intros Hmem Hlimit [Hmore Hbuf (out & Hout & Hs) Hroom] Hlen Hno Hnl Hdc Hdc' Hlim.
  unfold recv_turn. rewrite Hbuf.
  assert (bs ++ drop (length bs) zero_buffer = bs) as ->.
  { rewrite drop_ge, app_nil_r; [done |]. rewrite Hlen. by apply Nat.leb_le. }
  assert (exists found, scan_newline (S (Z.to_nat BUFFER_SIZE)) bs 0 = Ret (found, 100))
    as [found ->].
  { change 0 with (Z.of_nat 0).
    rewrite scan_newline_spec by (done || lia || (unfold BUFFER_SIZE; lia)).
    rewrite drop_0. destruct (list_find (newline =.) bs) as [[p x]|] eqn:E; [| by eexists].
    exists true. apply list_find_Some in E as (Hp & <- & _).
    pose proof (lookup_lt_Some _ _ _ Hp). assert (p = 99%nat) as -> by
      (destruct (decide (p = 99%nat)); [done |]; exfalso; apply Hnl;
       apply (list_elem_of_lookup_2 _ p); rewrite lookup_take_lt by lia; done).
    done. }
  cbn [mbind outcome_bind]. rewrite !int_add_ok by lia. cbn [mbind outcome_bind].
  rewrite !int_add_ok by lia. cbn [mbind outcome_bind]. unfold realloc.
  rewrite Hmem by lia. rewrite Hout. cbn [default]. unfold strncat.
  rewrite (strlen_holds _ s) by (apply holds_string_resize; [done | lia]).
  cbn [mbind outcome_bind]. rewrite strncat_source_spec, decide_False; [done |].
  rewrite Hlen. intros [? | ?]; [lia | done].
Qed.

Lemma full_buffer_read_past_end_witness :
  exists st, recv_init some_memory = Ret st /\
    recv_turn some_memory st 0 (RxBytes (replicate 100 x61)) = Fault OutOfBounds.
Proof.
  destruct (recv_init_spec some_memory 4096 some_memory_ok) as (st & Hinit & Hst & Hj);
    [by_computation |].
  exists st. split; [exact Hinit |].
  refine (full_buffer_read_past_end some_memory 4096 st [] 0 (replicate 100 x61) some_memory_ok
    _ Hst _ _ _ _ _ _).
  - by_computation.
  - reflexivity.
  - apply (bool_decide_unpack _). by vm_compute.
  - apply (bool_decide_unpack _). by vm_compute.
  - by_computation.
  - by_computation.
  - rewrite Hj. by_computation.
Defined.

(** A first piece with a byte after its newline overruns the heap block: the
    block is reallocated to the [j + 1] bytes that the line and a NUL need, but
    [strncat] is offered [i + 1] characters and stores the byte after the newline
    too, so its NUL lands one byte past the end. *)
Theorem byte_after_newline_overruns_block mem limit data_count a x b st :
  (forall n, 0 < n <= limit -> mem n = true) -> 101 <= limit < 2 ^ 31 ->
  recv_init mem = Ret st ->
  piece_ok (a ++ newline :: x :: b) -> newline ∉ a ->
  0 <= data_count -> data_count + 100 < 2 ^ 31 ->
  recv_turn mem st data_count (RxBytes (a ++ newline :: x :: b)) = Fault OutOfBounds.
Proof.
  intros Hmem Hlimit Hinit Hc Ha Hdc Hdc'.
  destruct (recv_init_spec mem limit Hmem ltac:(lia)) as (st' & Hinit' & Hst & Hj).
  rewrite Hinit in Hinit'. injection Hinit' as <-.
  destruct Hst as [Hmore Hbuf (out & Hout & Hs) Hroom].
  destruct (filled_buffer mem limit Hmem ltac:(lia) _ Hc) as (m & Hb & Hm). pose proof Hc as [Hlen Hno].
  rewrite length_app in Hlen, Hm. cbn [length] in Hlen, Hm.
  unfold recv_turn. rewrite Hbuf, Hb. change 0 with (Z.of_nat 0).
  rewrite scan_newline_spec; [| | lia | unfold BUFFER_SIZE; lia].
  2: { rewrite length_app, length_replicate, length_app. cbn [length]. lia. }
  rewrite drop_0, <- app_assoc. cbn [app]. rewrite list_find_app_newline by done.
  cbn [mbind outcome_bind]. rewrite Hj, !int_add_ok by lia. cbn [mbind outcome_bind].
  rewrite !int_add_ok by lia. cbn [mbind outcome_bind]. unfold realloc.
  rewrite Hmem by lia. rewrite Hout. cbn [default]. unfold strncat.
  rewrite (strlen_holds _ []) by (apply holds_string_resize; [done | cbn; lia]).
  cbn [mbind outcome_bind length]. rewrite strncat_source_spec, decide_True.
  2: { right. cbn [replicate]. in_list. }
  cbn [mbind outcome_bind].
  replace (Z.to_nat (Z.of_nat (0 + length a) + 1 + 1)) with (length a + 2)%nat by lia.
  rewrite take_app_add, before_nul_id.
  - rewrite (proj2 (Nat.leb_gt _ _)); [done |].
    rewrite length_resize, !length_app. cbn [length take]. lia.
  - rewrite elem_of_app, !elem_of_cons in *. cbn [take]. rewrite !elem_of_cons, elem_of_nil.
    intros Hin. apply Hno. clear -Hin. tauto.
Qed.

Lemma byte_after_newline_overruns_block_witness :
  exists st, recv_init some_memory = Ret st /\
    recv_turn some_memory st 0 (RxBytes ([x61] ++ newline :: x62 :: [])) = Fault OutOfBounds.
Proof.
  destruct (recv_init_spec some_memory 4096 some_memory_ok) as (st & Hinit & _ & _);
    [by_computation |].
  exists st. split; [exact Hinit |].
  refine (byte_after_newline_overruns_block some_memory 4096 0 [x61] x62 [] st some_memory_ok
    _ Hinit _ _ _ _).
  - by_computation.
  - apply (bool_decide_unpack _). by vm_compute.
  - apply (bool_decide_unpack _). by vm_compute.
  - by_computation.
  - by_computation.
Defined.

(** A packet that starts like a seek request but in which no first number can be
    read makes the thread hand the driver a structure [sscanf] never filled in. *)
Theorem malformed_seek_request_uninitialised {F} `{!DataFile F} (f : F) st c rest :
  has_packet st (ioctl_string ++ c :: rest) ->
  is_digit c = false -> is_space c = false -> c <> x2d -> c <> x2b ->
  store_request f true (outputBuffer st) = Fault Uninitialised.
Proof.
  intros (out & -> & Hs) Hdig Hsp Hm Hp. unfold store_request.
  rewrite (strncmp_eq_prefix _ _ _ Hs) by (by apply (bool_decide_unpack _)).
  rewrite bool_decide_eq_true_2 by (by eexists). cbn [mbind outcome_bind].
  rewrite (c_string_holds _ _ Hs). cbn [mbind outcome_bind].
  unfold sscanf_d_d. rewrite scan_literal_app. unfold scan_d. cbn [skip_spaces].
  rewrite Hsp.
  assert ((match c :: rest with
           | x2d :: bs => (true, bs) | x2b :: bs => (false, bs) | _ => (false, c :: rest)
           end) = (false, c :: rest)) as -> by (by destruct c).
  by rewrite Hdig.
Qed.

Lemma malformed_seek_request_uninitialised_witness :
  store_request (F := list byte) [] true
    (Some (Some <$> ((ioctl_string ++ x78 :: [newline]) ++ [NUL]))) = Fault Uninitialised.
Proof.
  refine (malformed_seek_request_uninitialised []
    (mk_recv true [] (Some (Some <$> ((ioctl_string ++ x78 :: [newline]) ++ [NUL]))) 0)
    x78 [newline] _ _ _ _ _).
  - eexists. split; [reflexivity |]. split; [apply (bool_decide_unpack _); by vm_compute |].
    exists []. by rewrite app_nil_r.
  - reflexivity.
  - reflexivity.
  - discriminate.
  - discriminate.
Defined.
