(* ===== verification/SeekRequest.v ===== *)
(** The seek request on its way from the client's text to the driver: the server's
    copy of [aesd_ioctl.h] ([server/aesd_ioctl.h]), the structure its connection
    thread fills in with [sscanf], the bytes that structure occupies, and what the
    driver's [copy_from_user] makes of them. *)

From Stdlib Require Import String.
From S2P Require Import Prelude CMem CString LogSpec CircularBuffer Kernel.
From S2P Require CharDriver.
From S2P Require Import CharDriverRel CharDriverRefine CharDriverSeek CharDriverSystem.
From S2P Require Import CharDriverProps SocketThread.

(** ** The server's header *)

Record aesd_seekto : Type := mk_seekto { write_cmd : Z; write_cmd_offset : Z }.

Definition AESD_IOC_MAGIC : Z := 22.

(** Two [uint32_t] without padding. *)
Definition sizeof_aesd_seekto : Z := 8.

(** [iowr] is the macro [_IOWR(type, nr, size)] of the system's headers. *)
Definition AESDCHAR_IOCSEEKTO (iowr : Z -> Z -> Z -> Z) : Z :=
  iowr AESD_IOC_MAGIC 1 sizeof_aesd_seekto.

Definition AESDCHAR_IOC_MAXNR : Z := 1.

(** ** The structure in memory *)

(** The [n] low-order bytes, lowest first. *)
Fixpoint le_bytes (n : nat) (z : Z) : list byte :=
  match n with
  | O => []
  | S n => default x00 (Byte.of_N (Z.to_N (z mod 256))) :: le_bytes n (z / 256)
  end.

Definition seekto_bytes (p : aesd_seekto) : list byte :=
  le_bytes 4 (write_cmd p) ++ le_bytes 4 (write_cmd_offset p).

(** Both fields are in the range of their type. *)
Definition seekto_ok (p : aesd_seekto) : Prop :=
  0 <= write_cmd p < 2 ^ 32 /\ 0 <= write_cmd_offset p < 2 ^ 32.

(** The server's structure and the driver's have the same fields. *)
Definition to_driver (p : aesd_seekto) : CharDriver.aesd_seekto :=
  CharDriver.mk_seekto (write_cmd p) (write_cmd_offset p).

Definition of_driver (p : CharDriver.aesd_seekto) : aesd_seekto :=
  mk_seekto (CharDriver.write_cmd p) (CharDriver.write_cmd_offset p).

(** [sscanf(outputBuffer, "AESDCHAR_IOCSEEKTO:%d,%d", ...)] into the structure's
    fields: [None] when a field is left unassigned. [%d] stores an [int] where a
    [uint32_t] is. *)
Definition seek_params (cs : list byte) : outcome (option aesd_seekto) :=
  '(w, off) ← sscanf_d_d ioctl_string [x2c] cs;
  Ret match w, off with
      | Some w, Some off => Some (mk_seekto (u32 w) (u32 off))
      | _, _ => None
      end.

(** What a client sends to seek to byte [off] of command [w]. *)
Definition seek_line (w off : Z) : list byte :=
  ioctl_string ++ print_d w ++ [x2c] ++ print_d off ++ [newline].

(** ** Lemmas *)

Lemma length_le_bytes n z : length (le_bytes n z) = n.
Proof. revert z. induction n as [|n IH]; intros z; cbn; [done |]. by rewrite IH. Qed.

Lemma byte_value z : 0 <= z < 256 ->
  Z.of_N (Byte.to_N (default x00 (Byte.of_N (Z.to_N z)))) = z.
Proof.
  intros Hz. destruct (Byte.of_N (Z.to_N z)) as [b|] eqn:E.
  - apply Byte.to_of_N in E. cbn. rewrite E. lia.
  - apply Byte.of_N_None_iff in E. lia.
Qed.

Lemma value_byte b : default x00 (Byte.of_N (Z.to_N (Z.of_N (Byte.to_N b)))) = b.
Proof. by rewrite N2Z.id, Byte.of_to_N. Qed.

(** The value of a little-endian sequence, and back. *)
Lemma le_bytes_value n z rest :
  0 <= z < 256 ^ Z.of_nat n ->
  foldr (fun b acc => Z.of_N (Byte.to_N b) + 256 * acc) 0 (take n (le_bytes n z ++ rest)) = z.
Proof.
  revert z. induction n as [|n IH]; intros z Hz; cbn [take foldr le_bytes app].
  - change (256 ^ Z.of_nat 0) with 1 in Hz. rewrite take_0. cbn. lia.
  - rewrite Nat2Z.inj_succ, Z.pow_succ_r in Hz by lia.
    rewrite byte_value by (apply Z.mod_pos_bound; lia).
    rewrite IH by (Z.to_euclidean_division_equations; lia).
    pose proof (Z.div_mod z 256 ltac:(lia)). lia.
Qed.

Lemma value_le_bytes bs :
  le_bytes (length bs) (foldr (fun b acc => Z.of_N (Byte.to_N b) + 256 * acc) 0 bs) = bs.
Proof.
  induction bs as [|b bs IH]; [done |]. cbn [foldr length le_bytes].
  set (r := foldr _ 0 bs) in *. pose proof (Byte.to_N_bounded b).
  rewrite Z.add_comm, Z.mul_comm, Z.add_comm, Z.mod_add, Z.div_add by lia.
  rewrite Z.mod_small, Z.div_small, Z.add_0_l by lia. rewrite IH. f_equal. apply value_byte.
Qed.

Lemma decode_encode p rest :
  seekto_ok p -> CharDriver.decode_seekto (seekto_bytes p ++ rest) = to_driver p.
Proof.
  intros [Hw Ho]. unfold CharDriver.decode_seekto, seekto_bytes, to_driver, CharDriver.le_u32.
  rewrite <- app_assoc. rewrite le_bytes_value by (cbn; lia).
  rewrite drop_app_ge by (by rewrite length_le_bytes). rewrite length_le_bytes, drop_0.
  by rewrite le_bytes_value by (cbn; lia).
Qed.

Lemma encode_decode bs :
  length bs = 8%nat -> seekto_bytes (of_driver (CharDriver.decode_seekto bs)) = bs.
Proof.
  intros H. unfold seekto_bytes, of_driver, CharDriver.decode_seekto, CharDriver.le_u32. cbn [CharDriver.write_cmd
    CharDriver.write_cmd_offset write_cmd write_cmd_offset].
  pose proof (value_le_bytes (take 4 bs)) as H1. rewrite length_take_le in H1 by lia.
  pose proof (value_le_bytes (take 4 (drop 4 bs))) as H2.
  rewrite length_take_le in H2 by (rewrite length_drop; lia).
  rewrite H1, H2, (take_ge (drop 4 bs)) by (rewrite length_drop; lia). apply take_drop.
Qed.

Lemma seek_params_line w off rest :
  0 <= w < 2 ^ 31 -> 0 <= off < 2 ^ 31 ->
  seek_params (seek_line w off ++ rest) = Ret (Some (mk_seekto w off)).
Proof.
  intros Hw Ho. unfold seek_params, sscanf_d_d, seek_line. rewrite <- !app_assoc.
  rewrite scan_literal_app, scan_print_d by done. cbn [mbind outcome_bind app].
  change (x2c :: print_d off ++ newline :: rest) with ([x2c] ++ (print_d off ++ newline :: rest)).
  rewrite scan_literal_app, scan_print_d by done. cbn [mbind outcome_bind option_map fst].
  by rewrite !u32_small by lia.
Qed.

(** The driver's answer to the bytes of a request. *)
Lemma ioctl_of_request k `{!KernelOk k} s l f p :
  dev_rel s l -> CharDriver.private_data f = Some CharDriver.AESD_DEVICE ->
  k_copy_from_user k (seekto_bytes p) sizeof_aesd_seekto = (seekto_bytes p, 0) ->
  CharDriver.mx_lock (CharDriver.aesd_device s) = false ->
  k_mutex_lock_interruptible k false = (0, true) ->
  seekto_ok p -> write_cmd p < 10 ->
  CharDriver.aesd_ioctl k s f (AESDCHAR_IOCSEEKTO (k_IOWR k)) (seekto_bytes p) =
    Ret match log_seek l (write_cmd p) (write_cmd_offset p) with
        | Some t => (0, s, CharDriver.set_f_pos t f)
        | None => (- CharDriver.EINVAL, s, f)
        end.
Proof.
  intros Hrel Hf Hcopy Hfree Hlock Hok Hw.
  pose proof (decode_encode p [] Hok) as Hdec. rewrite app_nil_r in Hdec.
  change (AESDCHAR_IOCSEEKTO (k_IOWR k)) with (CharDriver.AESDCHAR_IOCSEEKTO k).
  rewrite (aesd_ioctl_granted k s l f Hrel Hf _ _ Hcopy Hfree Hlock) by (by rewrite Hdec).
  cbv zeta. rewrite Hdec. destruct Hok as [? ?].
  rewrite (seek_answer_log s l _ _ Hrel) by (cbn; lia). cbn.
  by destruct (log_seek l _ _).
Qed.

(** ** Properties *)

(** C24. The request survives its three encodings. Every structure the server can hold
    is read back by the driver from the bytes it occupies, and every eight bytes
    are those of the structure the driver reads in them (so neither side's
    conversion loses anything); and the text a client sends for command [w] and
    offset [off], any non-negative [int]s, followed by whatever else was received,
    is read into exactly that structure. *)
Theorem seek_request_roundtrip :
  (forall p rest, seekto_ok p ->
     CharDriver.decode_seekto (seekto_bytes p ++ rest) = to_driver p) /\
  (forall bs, length bs = 8%nat ->
     seekto_bytes (of_driver (CharDriver.decode_seekto bs)) = bs) /\
  (forall w off rest, 0 <= w < 2 ^ 31 -> 0 <= off < 2 ^ 31 ->
     seek_params (seek_line w off ++ rest) = Ret (Some (mk_seekto w off))).
Proof.
  split; [apply decode_encode | split; [apply encode_decode | apply seek_params_line]].
Qed.

(** C25. The line a client sends to seek to byte [off] of command [w] (below 10), once
    scanned into the server's structure and passed to the driver by the server's
    [AESDCHAR_IOCSEEKTO], moves the open file to the position the abstract device
    answers for [w] and [off], or is refused with [-EINVAL] when it answers none;
    the device is unchanged. *)
Theorem seek_line_reaches_driver k s l f w off rest :
  KernelOk k -> dev_rel s l -> CharDriver.private_data f = Some CharDriver.AESD_DEVICE ->
  (forall bs, length bs = 8%nat -> k_copy_from_user k bs 8 = (bs, 0)) ->
  CharDriver.mx_lock (CharDriver.aesd_device s) = false ->
  k_mutex_lock_interruptible k false = (0, true) ->
  0 <= w < 10 -> 0 <= off < 2 ^ 31 ->
  exists p, seek_params (seek_line w off ++ rest) = Ret (Some p) /\
    CharDriver.aesd_ioctl k s f (AESDCHAR_IOCSEEKTO (k_IOWR k)) (seekto_bytes p) =
      Ret match log_seek l w off with
          | Some t => (0, s, CharDriver.set_f_pos t f)
          | None => (- CharDriver.EINVAL, s, f)
          end.
Proof.
  intros Hk Hrel Hf Hcopy Hfree Hlock Hw Ho. exists (mk_seekto w off).
  split; [apply seek_params_line; lia |].
  apply (ioctl_of_request k s l f (mk_seekto w off)); [done | done | | done | done | | cbn; lia].
  - apply Hcopy. unfold seekto_bytes. by rewrite length_app, !length_le_bytes.
  - split; cbn; lia.
Qed.

Lemma seek_line_reaches_driver_witness :
  exists p, seek_params (seek_line 2 1 ++ []) = Ret (Some p) /\
    CharDriver.aesd_ioctl K (written_state ten_lines) the_file
        (AESDCHAR_IOCSEEKTO (k_IOWR K)) (seekto_bytes p) =
      Ret match log_seek (written_log ten_lines) 2 1 with
          | Some t => (0, written_state ten_lines, CharDriver.set_f_pos t the_file)
          | None => (- CharDriver.EINVAL, written_state ten_lines, the_file)
          end.
Proof.
  refine (seek_line_reaches_driver K (written_state ten_lines) (written_log ten_lines) the_file
    2 1 [] _ ten_rel _ _ _ _ _ _).
  all: try by_computation.
  intros bs Hbs. do 9 (destruct bs as [|? bs]; try discriminate Hbs). reflexivity.
Defined.
