(* ===== verification/SocketServer.v ===== *)
(** The server's threads running together: each connection thread takes the steps of
    [threadHandler] one at a time, interleaved with the others in any order, with
    the mutex and the data file shared. The mutex makes the locked sections behave
    as if they ran one after the other. *)

From S2P Require Import Prelude CMem CString LogSpec SocketThread SocketThreadSpec.

(** ** The state *)

(** Where a thread is: in the receiving loop, waiting for the mutex, holding it
    before the file is opened, in the sending loop at a position, or past the
    unlock, with [isDone] set. *)
Inductive phase : Type :=
| Receiving
| Locking
| Locked
| Sending (pos : Z)
| Finished.

Record thread : Type := mk_thread {
  t_phase : phase;
  t_recv : recv_state;
  t_sent : list byte;
}.

Record server (F : Type) : Type := mk_server {
  dataFile : F;
  srv_data_count : Z;
  mutexLock : option nat;
  threads : gmap nat thread;
}.
Arguments mk_server {F}.
Arguments dataFile {F}.
Arguments srv_data_count {F}.
Arguments mutexLock {F}.
Arguments threads {F}.

Definition at_phase (p : phase) (t : thread) : thread := mk_thread p (t_recv t) (t_sent t).

Section Server.
Context {F : Type} `{!DataFile F} (mem : Z -> bool).

Definition put (t : nat) (th : thread) (s : server F) : server F :=
  mk_server (dataFile s) (srv_data_count s) (mutexLock s) (<[t := th]> (threads s)).

(** One step, by the thread that takes it. A [recv] that fails ends the process,
    so it is not a step. *)
Inductive server_step : server F -> nat -> server F -> Prop :=
| step_create s t st :
    threads s !! t = None -> recv_init mem = Ret st ->
    server_step s t (put t (mk_thread Receiving st []) s)
| step_recv f n m ths t th a turn n' st :
    ths !! t = Some th -> t_phase th = Receiving ->
    rx_ok a -> packetComplete (t_recv th) = false ->
    recv_turn mem (t_recv th) n a = Ret (turn, n') ->
    turn = Break st \/ turn = Next st ->
    server_step (mk_server f n m ths) t
      (put t (mk_thread (match turn with Next _ => Receiving | _ => Locking end) st (t_sent th))
         (mk_server f n' m ths))
| step_received s t th :
    threads s !! t = Some th -> t_phase th = Receiving ->
    packetComplete (t_recv th) = true ->
    server_step s t (put t (at_phase Locking th) s)
| step_lock f n ths t th :
    ths !! t = Some th -> t_phase th = Locking ->
    server_step (mk_server f n None ths) t
      (put t (at_phase Locked th) (mk_server f n (Some t) ths))
| step_store f n m ths t th f' pos :
    ths !! t = Some th -> t_phase th = Locked ->
    store_request f true (outputBuffer (t_recv th)) = Ret (f', pos) ->
    server_step (mk_server f n m ths) t
      (put t (at_phase (Sending pos) th) (mk_server f' n m ths))
| step_send s t th pos c :
    threads s !! t = Some th -> t_phase th = Sending pos ->
    fread1 (dataFile s) pos = Some c ->
    server_step s t (put t (mk_thread (Sending (pos + 1)) (t_recv th) (t_sent th ++ [c])) s)
| step_finish f n m ths t th pos :
    ths !! t = Some th -> t_phase th = Sending pos ->
    fread1 f pos = None ->
    server_step (mk_server f n m ths) t
      (put t (at_phase Finished th) (mk_server f n None ths)).

Definition server_init (f : F) : server F := mk_server f 0 None ∅.

(** ** The sequential reading of a run *)

(** A packet stored by a thread. *)
Definition commit : Type := nat * option (list (option byte)).

(** Storing packets one after the other. *)
Fixpoint replay (f : F) (cs : list commit) : outcome F :=
  match cs with
  | [] => Ret f
  | (_, out) :: cs => '(f, _) ← store_request f true out; replay f cs
  end.

Lemma replay_snoc f cs t out :
  replay f (cs ++ [(t, out)]) =
  (f ← replay f cs; '(f, _) ← store_request f true out; Ret f).
Proof.
  revert f. induction cs as [|[t' out'] cs IH]; intros f; cbn.
  - by destruct (store_request f true out) as [[? ?] | |].
  - destruct (store_request f true out') as [[? ?] | |]; cbn; [apply IH | done..].
Qed.

(** [t] stored its packet as one of the commits [cs], when the file became [f1], and
    read from [start] on. *)
Definition committed (f0 : F) (cs : list commit) (t : nat) (th : thread) (f1 : F) (start : Z)
    : Prop :=
  exists pre post f,
    cs = pre ++ (t, outputBuffer (t_recv th)) :: post /\ replay f0 pre = Ret f /\
    store_request f true (outputBuffer (t_recv th)) = Ret (f1, start).

Lemma store_request_position f out f1 start :
  store_request f true out = Ret (f1, start) -> 0 <= start.
Proof.
  unfold store_request. destruct out as [out|]; [| done].
  destruct (strncmp_eq _ _ _) as [[] | |]; cbn; [| | done..].
  - destruct (c_string out) as [cs | |]; cbn; [| done..].
    destruct (sscanf_d_d _ _ _) as [[[w|] [off|]] | |]; cbn; try done.
    intros [= _ <-]. destruct (df_seek f (u32 w) (u32 off)) as [p|] eqn:E; cbn; [| done].
    eapply df_seek_forward; [| exact E]. apply u32_range.
  - destruct (c_string out) as [cs | |]; cbn; [| done..]. by intros [= _ <-].
Qed.

(** What holds of each thread. *)
Definition thread_inv (f0 : F) (cs : list commit) (f : F) (m : option nat) (t : nat)
    (th : thread) : Prop :=
  match t_phase th with
  | Receiving | Locking => m <> Some t /\ t_sent th = [] /\ (t ∉ cs.*1)
  | Locked => m = Some t /\ t_sent th = [] /\ (t ∉ cs.*1)
  | Sending pos => m = Some t /\ exists start,
      committed f0 cs t th f start /\ 0 <= start <= pos /\
      t_sent th = take (Z.to_nat (pos - start)) (drop (Z.to_nat start) (df_content f))
  | Finished => m <> Some t /\ exists f1 start,
      committed f0 cs t th f1 start /\ t_sent th = drop (Z.to_nat start) (df_content f1)
  end.

(** The invariant: the file is what storing the commits one after the other gives,
    and every thread has sent what that order says. *)
Record server_inv (f0 : F) (cs : list commit) (s : server F) : Prop := {
  inv_file : replay f0 cs = Ret (dataFile s);
  inv_threads : map_Forall (thread_inv f0 cs (dataFile s) (mutexLock s)) (threads s);
  inv_owner : forall t, mutexLock s = Some t -> is_Some (threads s !! t);
  inv_once : NoDup cs.*1;
  inv_known : forall t, t ∈ cs.*1 -> is_Some (threads s !! t);
}.

(** A commit by another thread leaves this one's claims as they are. *)
Lemma thread_inv_ext f0 cs t' out f f' m t th :
  t <> t' -> m <> Some t ->
  thread_inv f0 cs f m t th -> thread_inv f0 (cs ++ [(t', out)]) f' m t th.
Proof.
  intros Hne Hm. unfold thread_inv.
  assert (t ∉ cs.*1 -> t ∉ (cs ++ [(t', out)]).*1) as Hni.
  { intros Hni. rewrite fmap_app, elem_of_app. cbn. rewrite list_elem_of_singleton. by intros [|]. }
  destruct (t_phase th) as [| | | pos |].
  1-3: by intros (? & ? & ?); auto.
  - by intros [? _].
  - intros (_ & f1 & start & (pre & post & f2 & -> & Hpre & Hst) & Hsent). split; [done |].
    exists f1, start. split; [| done]. exists pre, (post ++ [(t', out)]), f2.
    by rewrite <- app_assoc.
Qed.

(** The other threads when the mutex changes hands. *)
Lemma thread_inv_mutex f0 cs f m m' t th :
  m <> Some t -> m' <> Some t -> thread_inv f0 cs f m t th -> thread_inv f0 cs f m' t th.
Proof.
  unfold thread_inv. destruct (t_phase th); intros Hm Hm' Hinv; intuition done.
Qed.

(** Replacing one thread, when nothing is committed. *)
Lemma put_inv f0 cs (f : F) n n' m m' ths t th :
  server_inv f0 cs (mk_server f n m ths) ->
  thread_inv f0 cs f m' t th ->
  (forall t' th', t' <> t -> thread_inv f0 cs f m t' th' -> thread_inv f0 cs f m' t' th') ->
  (forall t', m' = Some t' -> t' = t \/ m = Some t') ->
  server_inv f0 cs (put t th (mk_server f n' m' ths)).
Proof.
  intros [Hf Hall Hown Hnd Hknown] Hth Hother Howner. cbn in *.
  assert (forall t', is_Some (ths !! t') -> is_Some (<[t := th]> ths !! t')) as Hins.
  { intros t' Ht'. destruct (decide (t' = t)) as [-> | Hne];
      [by rewrite lookup_insert_eq | by rewrite lookup_insert_ne]. }
  split; cbn; [done | | | done |].
  - intros t' th'. destruct (decide (t' = t)) as [-> | Hne].
    + rewrite lookup_insert_eq. by intros [= <-].
    + rewrite lookup_insert_ne by done. intros Ht'. by apply Hother, (Hall t').
  - intros t' [-> | Hs]%Howner; [by rewrite lookup_insert_eq |]. by apply Hins, Hown.
  - intros t' Ht'. by apply Hins, Hknown.
Qed.

Lemma server_inv_init f0 : server_inv f0 [] (server_init f0).
Proof.
  split; cbn; [done | apply map_Forall_empty | done | constructor | by intros t ?%elem_of_nil].
Qed.

(** The commit itself. *)
Lemma store_inv f0 cs f n m ths t th f' pos :
  server_inv f0 cs (mk_server f n m ths) -> ths !! t = Some th -> t_phase th = Locked ->
  store_request f true (outputBuffer (t_recv th)) = Ret (f', pos) ->
  server_inv f0 (cs ++ [(t, outputBuffer (t_recv th))])
    (put t (at_phase (Sending pos) th) (mk_server f' n m ths)).
Proof.
  intros [Hf Hall Hown Hnd Hknown] Hth Hp Hst. cbn in *.
  pose proof (Hall t th Hth) as Hinv. unfold thread_inv in Hinv. rewrite Hp in Hinv.
  destruct Hinv as (Hm & Hsent & Hni). pose proof (store_request_position _ _ _ _ Hst).
  split; cbn.
  - by rewrite replay_snoc, Hf; cbn; rewrite Hst.
  - intros t' th'. destruct (decide (t' = t)) as [-> | Hne].
    + rewrite lookup_insert_eq. intros [= <-]. cbn. split; [done |]. exists pos.
      split; [by exists cs, [], f | split; [lia |]]. by rewrite Z.sub_diag, take_0.
    + rewrite lookup_insert_ne by done. intros Ht'. apply thread_inv_ext with (f := f).
      * done.
      * rewrite Hm. by intros [= ->].
      * by apply (Hall t').
  - intros t' Ht'. destruct (decide (t' = t)) as [-> | Hne]; [by rewrite lookup_insert_eq |].
    rewrite lookup_insert_ne by done. by apply Hown.
  - rewrite fmap_app. apply NoDup_app. split_and!; [done | | apply NoDup_singleton].
    intros t' Hin ->%list_elem_of_singleton. done.
  - intros t'. rewrite fmap_app. intros [Hin | ->%list_elem_of_singleton]%elem_of_app.
    + destruct (decide (t' = t)) as [-> | Hne]; [by rewrite lookup_insert_eq |].
      rewrite lookup_insert_ne by done. by apply Hknown.
    + by rewrite lookup_insert_eq.
Qed.

Lemma server_step_inv f0 cs s t s' :
  server_step s t s' -> server_inv f0 cs s ->
  exists cs', server_inv f0 cs' s'.
Proof.
  intros Hstep Hinv. pose proof Hinv as [Hf Hall Hown Hnd Hknown].
  destruct Hstep as [[f n m ths] t st Hnone Hi | f n m ths t th a turn n' st Hth Hp Ha Hc Hr Hturn
    | [f n m ths] t th Hth Hp Hc | f n ths t th Hth Hp | f n m ths t th f' pos Hth Hp Hst
    | [f n m ths] t th pos c Hth Hp Hread | f n m ths t th pos Hth Hp Hread]; cbn in *.
  5: { eexists. by eapply store_inv. }
  2-6: pose proof (Hall t th Hth) as Ht; unfold thread_inv in Ht; rewrite Hp in Ht.
  all: exists cs.
  - eapply put_inv; [done | | done | auto]. unfold thread_inv. cbn. split_and!; [| done |].
    + intros Hm%Hown. rewrite Hnone in Hm. by destruct Hm.
    + intros Hin%Hknown. rewrite Hnone in Hin. by destruct Hin.
  - eapply put_inv; [done | | done | auto]. destruct Hturn as [-> | ->]; exact Ht.
  - eapply put_inv; [done | exact Ht | done | auto].
  - destruct Ht as (_ & Hsent & Hni).
    eapply put_inv; [done | done | | by intros t' [= <-]; left].
    intros t' th' Hne. apply thread_inv_mutex; [done |]. by intros [= ->].
  - destruct Ht as (Hm & start & Hcom & Hpos & Hsent).
    eapply put_inv; [done | | done | auto]. split; [done |]. exists start. cbn.
    split; [done | split; [lia |]]. unfold fread1 in Hread.
    replace (Z.to_nat (pos + 1 - start)) with (S (Z.to_nat (pos - start))) by lia.
    rewrite (take_S_r _ _ c); [by rewrite Hsent |].
    rewrite lookup_drop. rewrite <- Hread. f_equal. lia.
  - destruct Ht as (Hm & start & Hcom & Hpos & Hsent).
    eapply put_inv; [done | | | done].
    + split; [done |]. exists f, start. split; [done |]. cbn. rewrite Hsent.
      apply take_ge. unfold fread1 in Hread. apply lookup_ge_None in Hread.
      rewrite length_drop. lia.
    + intros t' th' Hne. apply thread_inv_mutex; [| done]. rewrite Hm. by intros [= ->].
Qed.

Lemma server_run_inv f0 s ts s' :
  run server_step s ts s' ->
  (exists cs, server_inv f0 cs s) -> exists cs, server_inv f0 cs s'.
Proof.
  intros Hrun. apply (run_invariant server_step (fun s => exists cs, server_inv f0 cs s))
    with (2 := Hrun).
  intros s1 t s2 Hstep [cs Hinv]. by eapply server_step_inv.
Qed.
End Server.
