(* ===== verification/SocketServerProps.v ===== *)
(** The properties of the running server: however its threads interleave, the
    packets are stored one after the other and every client is sent the file as its
    own packet left it; one thread at a time works on the file; and no thread that
    has a packet to serve is stuck while the others do nothing. *)

From S2P Require Import Prelude CMem CString LogSpec SocketThread SocketThreadSpec.
From S2P Require Import SocketServer.

(** A thread that works on the file. *)
Definition in_section (th : thread) : Prop :=
  t_phase th = Locked \/ exists pos, t_phase th = Sending pos.

Lemma in_section_owner {F} `{!DataFile F} (f0 : F) cs f m t th :
  thread_inv f0 cs f m t th -> in_section th <-> m = Some t.
Proof.
  unfold thread_inv, in_section. destruct (t_phase th) as [| | | pos |]; intros Hinv.
  - destruct Hinv as [Hm _]. split; [intros [? | [? ?]]; done | done].
  - destruct Hinv as [Hm _]. split; [intros [? | [? ?]]; done | done].
  - destruct Hinv as [Hm _]. split; [done | by left].
  - destruct Hinv as [Hm _]. split; [done | right; by eexists].
  - destruct Hinv as [Hm _]. split; [intros [? | [? ?]]; done | done].
Qed.

(** ** A concrete run, for the witnesses

    Two clients send lines; the second one's thread stores its packet first. *)

Definition demo_memory (n : Z) : bool := (0 <=? n) && (n <=? 4096).

(** The state a thread's receiving loop is in after one piece. *)
Definition received_piece (bs : list byte) : recv_state :=
  match recv_init demo_memory with
  | Ret st => match recv_turn demo_memory st 0 (RxBytes bs) with
              | Ret (Next st, _) => st
              | _ => st
              end
  | _ => mk_recv false [] None 0
  end.

Definition line1 : list byte := [x61; newline].
Definition line2 : list byte := [x62; x63; newline].

(** Thread 0 waits for the mutex, thread 1 has stored its line and sent its first
    byte. *)
Definition demo_server : server (list byte) :=
  mk_server line2 5 (Some 1%nat)
    (<[1%nat := mk_thread (Sending 1) (received_piece line2) [x62]]>
       {[0%nat := mk_thread Locking (received_piece line1) []]}).

Lemma demo_run : exists ts, run (server_step demo_memory) (server_init []) ts demo_server.
Proof.
  eexists. eapply run_cons; [by eapply (step_create demo_memory _ 0%nat) |].
  eapply run_cons.
  { eapply (step_recv demo_memory _ _ _ _ 0%nat _ (RxBytes line1)); [reflexivity | reflexivity
      | by vm_compute | reflexivity | reflexivity | right; reflexivity]. }
  eapply run_cons; [eapply (step_received demo_memory _ 0%nat); reflexivity |].
  eapply run_cons; [by eapply (step_create demo_memory _ 1%nat) |].
  eapply run_cons.
  { eapply (step_recv demo_memory _ _ _ _ 1%nat _ (RxBytes line2)); [reflexivity | reflexivity
      | by vm_compute | reflexivity | reflexivity | right; reflexivity]. }
  eapply run_cons; [eapply (step_received demo_memory _ 1%nat); reflexivity |].
  eapply run_cons; [eapply (step_lock demo_memory _ _ _ 1%nat); reflexivity |].
  eapply run_cons; [eapply (step_store demo_memory _ _ _ _ 1%nat); reflexivity |].
  eapply run_cons; [eapply (step_send demo_memory _ 1%nat); reflexivity |].
  match goal with |- run _ ?s _ _ => assert (s = demo_server) as -> by (by vm_compute) end.
  apply run_nil.
Qed.

(** ** Properties *)

(** C6. Every run of the server is equivalent to one in which the packets are served
    one after the other: there is an order of the packets stored so far, each
    thread's at most once, such that the data file is what storing them in that
    order gives, and each thread that has finished has sent exactly the bytes of
    the file as its own packet left it (from the position a seek request asked
    for), with no other packet in between. *)
Theorem server_linearizable {F} `{!DataFile F} mem (f0 : F) ts s :
  run (server_step mem) (server_init f0) ts s ->
  exists cs, replay f0 cs = Ret (dataFile s) /\ NoDup cs.*1 /\
    forall t th, threads s !! t = Some th ->
      (t_phase th = Finished -> exists f1 start, committed f0 cs t th f1 start /\
         t_sent th = drop (Z.to_nat start) (df_content f1)) /\
      (forall pos, t_phase th = Sending pos -> exists start,
         committed f0 cs t th (dataFile s) start /\ 0 <= start <= pos /\
         t_sent th = take (Z.to_nat (pos - start)) (drop (Z.to_nat start) (df_content (dataFile s)))).
Proof.
  intros Hrun. destruct (server_run_inv mem f0 _ _ _ Hrun) as [cs [Hf Hall _ Hnd _]].
  { exists []. apply server_inv_init. }
  exists cs. split_and!; [done.. |]. intros t th Ht. pose proof (Hall t th Ht) as Hinv.
  unfold thread_inv in Hinv. split; [intros Hp | intros pos Hp]; rewrite Hp in Hinv;
    by destruct Hinv as [_ ?].
Qed.

Lemma server_linearizable_witness :
  exists cs, replay [] cs = Ret (dataFile demo_server) /\ NoDup cs.*1 /\
    forall t th, threads demo_server !! t = Some th ->
      (t_phase th = Finished -> exists f1 start, committed [] cs t th f1 start /\
         t_sent th = drop (Z.to_nat start) (df_content f1)) /\
      (forall pos, t_phase th = Sending pos -> exists start,
         committed [] cs t th (dataFile demo_server) start /\ 0 <= start <= pos /\
         t_sent th = take (Z.to_nat (pos - start))
                       (drop (Z.to_nat start) (df_content (dataFile demo_server)))).
Proof.
  destruct demo_run as [ts Hrun]. exact (server_linearizable demo_memory [] ts demo_server Hrun).
Defined.

(** Mutual exclusion: in every reachable state, the threads working on the file
    are exactly the owner of the mutex, so there is at most one of them, and when
    the mutex is free there is none. *)
Theorem server_mutual_exclusion {F} `{!DataFile F} mem (f0 : F) ts s t th :
  run (server_step mem) (server_init f0) ts s -> threads s !! t = Some th ->
  in_section th <-> mutexLock s = Some t.
Proof.
  intros Hrun Ht. destruct (server_run_inv mem f0 _ _ _ Hrun) as [cs [_ Hall _ _ _]].
  { exists []. apply server_inv_init. }
  exact (in_section_owner f0 cs _ _ _ _ (Hall t th Ht)).
Qed.

Lemma server_mutual_exclusion_witness :
  in_section (mk_thread (Sending 1) (received_piece line2) [x62]) <->
  mutexLock demo_server = Some 1%nat.
Proof.
  destruct demo_run as [ts Hrun].
  exact (server_mutual_exclusion demo_memory [] ts demo_server 1%nat _ Hrun eq_refl).
Defined.

(** The server does not deadlock: while any thread has a packet to serve (it waits
    for the mutex or holds it), some thread can take a step, provided the packets
    can be stored at all; and it is the owner of the mutex when there is one. *)
Theorem server_progress {F} `{!DataFile F} mem (f0 : F) ts s t th :
  run (server_step mem) (server_init f0) ts s -> threads s !! t = Some th ->
  t_phase th = Locking \/ in_section th ->
  (forall t' th', threads s !! t' = Some th' ->
     safe (store_request (dataFile s) true (outputBuffer (t_recv th')))) ->
  exists t' s', server_step mem s t' s' /\ (mutexLock s = None \/ mutexLock s = Some t').
Proof.
  intros Hrun Ht Hph Hsafe. destruct (server_run_inv mem f0 _ _ _ Hrun) as [cs [_ Hall Hown _ _]].
  { exists []. apply server_inv_init. }
  destruct s as [f n m ths]. cbn in *. destruct m as [o|].
  - destruct (Hown o eq_refl) as [tho Ho].
    pose proof (proj2 (in_section_owner f0 cs _ _ _ _ (Hall o tho Ho)) eq_refl) as [Hp | [pos Hp]].
    + destruct (Hsafe o tho Ho) as [[f' pos] Hst]. exists o. eexists.
      split; [by eapply step_store | by right].
    + exists o. destruct (fread1 f pos) as [c|] eqn:Hr; eexists; (split; [| by right]).
      * by eapply (step_send mem (mk_server f n (Some o) ths)).
      * by eapply step_finish.
  - destruct Hph as [Hp | Hsec].
    + exists t. eexists. split; [by eapply step_lock | by left].
    + by apply (in_section_owner f0 cs f None t th (Hall t th Ht)) in Hsec.
Qed.

Lemma server_progress_witness :
  exists t' s', server_step demo_memory demo_server t' s' /\
    (mutexLock demo_server = None \/ mutexLock demo_server = Some t').
Proof.
  destruct demo_run as [ts Hrun].
  refine (server_progress demo_memory [] ts demo_server 0%nat
    (mk_thread Locking (received_piece line1) []) Hrun eq_refl (or_introl eq_refl) _).
  intros t' th'. unfold demo_server. cbn [threads].
  rewrite lookup_insert_Some. intros [[_ <-] | [_ [_ <-]%lookup_singleton_Some]];
    eexists; reflexivity.
Defined.
