(* ===== verification/DeviceStream.v ===== *)
(** The data file of [threadHandler] ([server/aesdsocket.c]) when it is the character
    device: the stdio stream the thread opens with [fopen(dataFile, "a+")] and the
    system calls it makes of the driver. [DataFile] says what the server needs of a
    file; here the calls themselves are made, on the driver's own state. *)

From S2P Require Import Prelude CMem CString LogSpec CircularBuffer Kernel.
From S2P Require CharDriver.
From S2P Require Import CharDriverRel CharDriverRefine CharDriverSeek CharDriverSystem.
From S2P Require Import CharDriverProps SocketThread SeekRequest.

Abbreviation driver := CharDriver.driver (only parsing).
Abbreviation file := CharDriver.file (only parsing).

(** ** The stream *)

(** The open file behind the stream and the bytes read ahead. A thread writes before
    it reads, and [rewind] flushes, so no bytes to be written are kept between the
    calls. *)
Record stream : Type := mk_stream {
  st_file : file;
  st_buf : list byte;
}.

(** What [ftell] would say. *)
Definition stream_pos (st : stream) : Z :=
  CharDriver.f_pos (st_file st) - Z.of_nat (length (st_buf st)).

(** [fopen(dataFile, "a+")] *)
Definition stream_open : stream :=
  mk_stream
    (snd (CharDriver.aesd_open (CharDriver.mk_inode (Some CharDriver.AESD_DEVICE))
            (CharDriver.mk_file 0 None))) [].

Section Stream.
(** The size of the buffer stdio chooses for the stream, and how it cuts what is
    written into blocks: neither is specified. *)
Context (bufsiz : Z) (blocks : list byte -> list (list byte)) (k : kernel).

(** What flushing does with a block: [write] until its bytes are all taken or one
    fails; whether it went well. *)
Fixpoint write_out (fuel : nat) (s : driver) (f : file) (cs : list byte)
    : outcome (bool * driver) :=
  match fuel with
  | O => NoFuel
  | S fuel =>
      match cs with
      | [] => Ret (true, s)
      | _ =>
          '(r, s) ← CharDriver.aesd_write k s f (Some cs) (Z.of_nat (length cs));
          if r <? 0 then Ret (false, s) else write_out fuel s f (drop (Z.to_nat r) cs)
      end
  end.

Fixpoint write_blocks (s : driver) (f : file) (bs : list (list byte)) : outcome driver :=
  match bs with
  | [] => Ret s
  | b :: bs =>
      '(ok, s) ← write_out (S (length b)) s f b;
      if (ok : bool) then write_blocks s f bs else Ret s
  end.

(** [fwrite(cs, 1, strlen(cs), fileFD)] and [rewind(fileFD)]: all blocks are written
    when [rewind] has flushed, and then the driver is asked to go to the start. The
    results are not looked at. *)
Definition stream_write (s : driver) (st : stream) (cs : list byte)
    : outcome (driver * stream) :=
  s ← write_blocks s (st_file st) (blocks cs);
  Ret (s, mk_stream (snd (CharDriver.aesd_llseek s (st_file st) 0 CharDriver.SEEK_SET)) []).

(** [fread(sendBuffer, 1, 1, fileFD)]: a byte read ahead, or the first one of what
    [read] now gives. *)
Definition stream_getc (s : driver) (st : stream) : outcome (option byte * stream) :=
  match st_buf st with
  | c :: buf => Ret (Some c, mk_stream (st_file st) buf)
  | [] =>
      let f := st_file st in
      '(r, bs, pos) ← CharDriver.aesd_read k s f true bufsiz (CharDriver.f_pos f);
      let f := CharDriver.set_f_pos pos f in
      match bs with
      | c :: buf => if 0 <? r then Ret (Some c, mk_stream f buf) else Ret (None, mk_stream f [])
      | [] => Ret (None, mk_stream f [])
      end
  end.

(** From [fopen] to the end of the if in [threadHandler]. The result of [ioctl] is
    not looked at. *)
Definition device_store (s : driver) (out : option (list (option byte)))
    : outcome (driver * stream) :=
  match out with
  | None => Fault NullDeref
  | Some out =>
      let st := stream_open in
      is_seek ← strncmp_eq out ioctl_string (length ioctl_string);
      if (is_seek : bool) then
        cs ← c_string out;
        p ← seek_params cs;
        match p with
        | Some p =>
            '(_, s, f) ← CharDriver.aesd_ioctl k s (st_file st)
                           (AESDCHAR_IOCSEEKTO (k_IOWR k)) (seekto_bytes p);
            Ret (s, mk_stream f (st_buf st))
        | None => Fault Uninitialised
        end
      else
        cs ← c_string out; stream_write s st cs
  end.

(** The sending loop. *)
Fixpoint device_send (fuel : nat) (s : driver) (st : stream) (sent : list byte)
    : outcome (list byte) :=
  match fuel with
  | O => NoFuel
  | S fuel =>
      '(c, st) ← stream_getc s st;
      match c with
      | Some c => device_send fuel s st (sent ++ [c])
      | None => Ret sent
      end
  end.

(** What a thread does with the mutex held, from [fopen] to [fclose]; [mem] is
    whether an allocation succeeds, here that of [sendBuffer]. *)
Definition device_session (mem : Z -> bool) (fuel : nat) (s : driver)
    (out : option (list (option byte))) : outcome (driver * list byte) :=
  '(s, st) ← device_store s out;
  sent ← (if mem 1 then device_send fuel s st [] else Fault NullDeref);
  Ret (s, sent).

(** [threadHandler] alone, on the driver: the new state of the device and the bytes
    sent, if a packet is received. *)
Definition device_thread (mem : Z -> bool) (fuel : nat) (s : driver) (data_count : Z)
    (answers : list rx) : outcome (option (driver * list byte) * Z) :=
  st ← recv_init mem;
  '(r, data_count) ← recv_loop mem st data_count answers;
  match r with
  | Packet st _ =>
      r ← device_session mem fuel s (outputBuffer st); Ret (Some r, data_count)
  | _ => Ret (None, data_count)
  end.
End Stream.

(** A kernel that grants what a thread asks of it: the mutex when it is free, the
    copies in full, and up to [room] bytes for a command. *)
Class KernelWilling (k : kernel) (room : Z) : Prop := {
  willing_ok :: KernelOk k;
  willing_lock : k_mutex_lock_interruptible k false = (0, true);
  willing_from u : snd (k_copy_from_user k u (Z.of_nat (length u))) = 0;
  willing_to n : k_copy_to_user k n = 0;
  willing_memory n : 0 <= n <= room -> ~ no_memory k n;
}.

#[global] Instance plain_kernel_willing room :
  room <= KMALLOC_LIMIT -> KernelWilling (plain_kernel room) room.
Proof.
  intros Hroom. split.
  - apply _.
  - done.
  - intros u. cbn. lia.
  - done.
  - intros n Hn (h & [H | (b & [blk Hb] & H)]); cbn in H.
    + destruct (Z.eqb_spec n 0); [done |]. rewrite (proj2 (Z.leb_le _ _)) in H by lia. done.
    + rewrite (proj2 (Z.leb_le _ _)) in H by lia. done.
Qed.

(** ** What the calls do to the log *)

(** The stream of a thread at position [pos] of the device's contents. *)
Record stream_rel (l : log) (st : stream) (pos : Z) : Prop := {
  str_file : CharDriver.private_data (st_file st) = Some CharDriver.AESD_DEVICE;
  str_range : 0 <= CharDriver.f_pos (st_file st) < 2 ^ 63;
  str_pos : stream_pos st = pos;
  str_start : 0 <= pos;
  str_bytes : st_buf st ++ drop (Z.to_nat (CharDriver.f_pos (st_file st))) (log_bytes l)
              = drop (Z.to_nat pos) (log_bytes l);
}.

(** A device between two calls. *)
Definition idle_rel (s : driver) (l : log) : Prop :=
  dev_rel s l /\ CharDriver.mx_lock (CharDriver.aesd_device s) = false.

Lemma stream_open_rel l : stream_rel l stream_open 0.
Proof. by split. Qed.

(** The blocks are the bytes to be written, and no block but the last has a newline,
    which would end the command early. *)
Definition cut_well (blocks : list byte -> list (list byte)) (cs : list byte) : Prop :=
  concat (blocks cs) = cs /\ Forall (fun b => newline ∉ b) (removelast (blocks cs)).

Section Specs.
Context (bufsiz room : Z) (blocks : list byte -> list (list byte)).
Context (k : kernel) `{!KernelWilling k room}.
Context (Hbuf : 0 < bufsiz <= MAX_RW_COUNT) (Hmax : room <= MAX_RW_COUNT).

(** What writing bytes in one block does to the log. *)
Definition log_take (l : log) (cs : list byte) : log :=
  match cs with [] => l | _ => log_write l cs end.

Lemma write_out_spec fuel s l f cs :
  idle_rel s l -> CharDriver.private_data f = Some CharDriver.AESD_DEVICE ->
  (length cs < fuel)%nat ->
  Z.of_nat (length (pending l)) + Z.of_nat (length cs) <= room ->
  exists s', write_out k fuel s f cs = Ret (true, s') /\ idle_rel s' (log_take l cs).
Proof using All.
  intros [Hrel Hfree] Hf Hfuel Hroom. unfold MAX_RW_COUNT in *.
  destruct fuel as [|fuel]; [lia |]. destruct cs as [|c cs]; [by eexists |].
  destruct fuel as [|fuel]; [cbn in Hfuel; lia |].
  set (u := c :: cs) in *. change (write_out k (S (S fuel)) s f u) with
    ('(r, s) ← CharDriver.aesd_write k s f (Some u) (Z.of_nat (length u));
     if r <? 0 then Ret (false, s) else write_out k (S fuel) s f (drop (Z.to_nat r) u)).
  destruct (aesd_write_spec k s l f u (Z.of_nat (length u))) as (r & s' & -> & Hres);
    [done.. | unfold KMALLOC_LIMIT; lia |].
  destruct Hres as [Hl | s' _ _ _ Hno | n s' _ _ Hn _ Hfree' Hrel'].
  - by rewrite Hfree, willing_lock in Hl.
  - exfalso. revert Hno. apply (willing_memory (room := room)). lia.
  - rewrite willing_from, Z.sub_0_r in Hn. subst n. rewrite Nat2Z.id, firstn_all in Hrel'.
    cbn [mbind outcome_bind]. rewrite (proj2 (Z.ltb_ge _ _)) by lia. rewrite Nat2Z.id, drop_all.
    by exists s'.
Qed.

(** A block without a newline only adds to the pending bytes. *)
Lemma log_take_open l b cs :
  newline ∉ pending l -> newline ∉ b ->
  log_take (log_take l b) cs = log_take l (b ++ cs) /\
  pending (log_take l b) = pending l ++ b.
Proof using.
  intros Hp Hb. destruct b as [|c b]; [by rewrite app_nil_r |]. set (u := c :: b) in *.
  assert (log_take l u = log_write l u) as Hu by done. rewrite Hu. split.
  - destruct cs as [|d cs]; [by rewrite app_nil_r |]. exact (log_write_split l u (d :: cs) Hp Hb).
  - unfold log_write. rewrite decide_False; [done |]. rewrite elem_of_app. by intros [|].
Qed.

(** Blocks leave the log as one write of all of them would. *)
Lemma write_blocks_spec bs s l f :
  idle_rel s l -> CharDriver.private_data f = Some CharDriver.AESD_DEVICE ->
  Forall (fun b => newline ∉ b) (removelast bs) ->
  Z.of_nat (length (pending l)) + Z.of_nat (length (concat bs)) <= room ->
  exists s', write_blocks k s f bs = Ret s' /\ idle_rel s' (log_take l (concat bs)).
Proof using All.
  revert s l. induction bs as [|b bs IH]; intros s l Hrel Hf Hnl Hroom; [by eexists |].
  cbn [concat write_blocks] in *. rewrite length_app in Hroom.
  destruct (write_out_spec (S (length b)) s l f b) as (s1 & -> & Hrel1); [done | done | lia | lia |].
  cbn [mbind outcome_bind]. destruct bs as [|b' bs].
  { cbn [concat] in *. rewrite app_nil_r in *. by exists s1. }
  change (removelast (b :: b' :: bs)) with (b :: removelast (b' :: bs)) in Hnl.
  apply Forall_cons in Hnl as [Hb Hnl].
  pose proof (pend_open _ _ _ (dev_pending _ _ (proj1 Hrel) (proj2 Hrel))) as Hopen.
  destruct (log_take_open l b (concat (b' :: bs)) Hopen Hb) as [Heq Hpend]. rewrite <- Heq.
  apply IH; [done | done | done |]. rewrite Hpend, length_app. lia.
Qed.

Lemma stream_write_spec s l st cs :
  idle_rel s l -> stream_rel l st 0 -> cut_well blocks cs ->
  Z.of_nat (length (pending l)) + Z.of_nat (length cs) <= room ->
  exists s' st', stream_write blocks k s st cs = Ret (s', st') /\ idle_rel s' (log_take l cs) /\
    stream_rel (log_take l cs) st' 0.
Proof using All.
  intros Hrel [Hf _ _ _ _] [Hcut Hnl] Hroom. unfold stream_write.
  destruct (write_blocks_spec (blocks cs) s l (st_file st)) as (s' & -> & Hrel');
    [done | done | done | by rewrite Hcut |].
  rewrite Hcut in Hrel'. exists s'. eexists. split; [done |]. split; [done |]. by split.
Qed.

(** [fread] gives the byte the log has at the stream's position. *)
Lemma stream_getc_spec s l st pos :
  dev_rel s l -> stream_rel l st pos ->
  exists st', stream_getc bufsiz k s st = Ret (fread1 l pos, st') /\
    (is_Some (fread1 l pos) -> stream_rel l st' (pos + 1)).
Proof using Hbuf KernelWilling0.
  intros Hrel [Hf Hrange Hpos Hstart Hbytes]. unfold stream_getc, fread1. cbn [df_content device_file].
  unfold stream_pos in Hpos. unfold MAX_RW_COUNT in *.
  assert (log_bytes l !! Z.to_nat pos = head (drop (Z.to_nat pos) (log_bytes l))) as ->
    by (by rewrite head_lookup, lookup_drop, Nat.add_0_r).
  destruct (st_buf st) as [|c buf] eqn:E.
  - cbn [length app] in *. assert (pos = CharDriver.f_pos (st_file st)) as -> by lia.
    set (p := CharDriver.f_pos (st_file st)) in *.
    rewrite (aesd_read_spec k s l (st_file st) bufsiz p) by (done || lia).
    rewrite willing_to, Z.eqb_refl. cbn [mbind outcome_bind].
    pose proof (log_read_prefix l p bufsiz ltac:(lia)) as [rest Hrest].
    pose proof (log_read_nil l p bufsiz ltac:(lia) ltac:(lia)) as Hnil.
    pose proof (read_position_small s l Hrel p bufsiz Hrange) as Hsmall.
    destruct (log_read l p bufsiz) as [|c buf] eqn:Er.
    + eexists. split; [rewrite (drop_ge (log_bytes l)) by (apply proj1 in Hnil;
        specialize (Hnil eq_refl); lia); done |].
      rewrite (drop_ge (log_bytes l)) by (apply proj1 in Hnil; specialize (Hnil eq_refl); lia).
      by intros [].
    + rewrite Hrest. cbn [length] in *. rewrite (proj2 (Z.ltb_lt _ _)) by lia. eexists.
      split; [done |]. intros _. split; cbn [st_file st_buf CharDriver.set_f_pos CharDriver.f_pos
        CharDriver.private_data stream_pos]; [done | lia | unfold stream_pos; cbn; lia | lia |].
      replace (Z.to_nat (p + Z.of_nat (S (length buf)))) with (Z.to_nat p + S (length buf))%nat
        by lia.
      replace (Z.to_nat (p + 1)) with (Z.to_nat p + 1)%nat by lia.
      rewrite <- !drop_drop, Hrest. cbn. by rewrite drop_0, drop_app_length.
  - rewrite <- Hbytes. eexists. split; [done |]. intros _. cbn [length] in Hpos.
    split; cbn; [done | done | unfold stream_pos; cbn; lia | lia |].
    replace (Z.to_nat (pos + 1)) with (Z.to_nat pos + 1)%nat by lia.
    by rewrite <- drop_drop, <- Hbytes.
Qed.

(** The length of the string a block holds. *)
Definition packet_length (out : option (list (option byte))) : Z :=
  match out with
  | Some out => match c_string out with Ret cs => Z.of_nat (length cs) | _ => 0 end
  | None => 0
  end.

(** The packet is one stdio cuts well. *)
Definition packet_cut (blocks : list byte -> list (list byte)) (out : option (list (option byte)))
    : Prop :=
  forall o cs, out = Some o -> c_string o = Ret cs -> cut_well blocks cs.

(** The request for command 10, which the driver answers out of bounds. *)
Definition asks_command_ten (out : option (list (option byte))) : Prop :=
  exists o cs off, out = Some o /\ strncmp_eq o ioctl_string (length ioctl_string) = Ret true /\
    c_string o = Ret cs /\ seek_params cs = Ret (Some (mk_seekto 10 off)).

Lemma seek_params_ok cs p : seek_params cs = Ret (Some p) -> seekto_ok p.
Proof.
  unfold seek_params. intros H. apply bind_Ret_inv in H as ([w off] & _ & H).
  destruct w as [w|], off as [off|]; try done. injection H as <-.
  split; apply u32_range.
Qed.

Lemma copy_request p : k_copy_from_user k (seekto_bytes p) sizeof_aesd_seekto = (seekto_bytes p, 0).
Proof using KernelWilling0.
  assert (length (seekto_bytes p) = 8%nat) as Hlen
    by (unfold seekto_bytes; by rewrite length_app, !length_le_bytes).
  destruct (copy_from_user_ok (k := k) (seekto_bytes p) sizeof_aesd_seekto) as (m & Hm & _ & Hc);
    [done |]. pose proof (willing_from (seekto_bytes p)) as Hw. rewrite Hlen in Hw.
  change (Z.of_nat 8) with sizeof_aesd_seekto in Hw. rewrite Hc in Hw |- *. cbn in Hw. subst m.
  rewrite Z.sub_0_r, take_ge, app_nil_r; [done |]. rewrite Hlen. done.
Qed.

(** The seek request, as the driver answers it. *)
Lemma device_seek_spec s l f p :
  idle_rel s l -> CharDriver.private_data f = Some CharDriver.AESD_DEVICE ->
  seekto_ok p -> write_cmd p <> 10 ->
  exists r, CharDriver.aesd_ioctl k s f (AESDCHAR_IOCSEEKTO (k_IOWR k)) (seekto_bytes p) =
    Ret (r, s, match log_seek l (write_cmd p) (write_cmd_offset p) with
               | Some t => CharDriver.set_f_pos t f | None => f end).
Proof using All.
  intros [Hrel Hfree] Hf Hok Hne. destruct (decide (write_cmd p < 10)) as [Hlt | Hge].
  - rewrite (ioctl_of_request k s l f p Hrel Hf (copy_request p) Hfree willing_lock Hok Hlt).
    destruct (log_seek l _ _); by eexists.
  - pose proof (decode_encode p [] Hok) as Hdec. rewrite app_nil_r in Hdec.
    exists (- CharDriver.EINVAL).
    change (AESDCHAR_IOCSEEKTO (k_IOWR k)) with (CharDriver.AESDCHAR_IOCSEEKTO k).
    rewrite (aesd_ioctl_refused k s f _ _ _ _ (copy_request p)).
    + assert (log_seek l (write_cmd p) (write_cmd_offset p) = None) as ->; [| done].
      unfold log_seek. rewrite lookup_ge_None_2; [done |].
      pose proof (length_commands _ _ _ (dev_cb _ _ Hrel)).
      unfold slot_order. rewrite (Permutation_length (rotate_at_perm _ _)). lia.
    + right. right. rewrite Hdec. cbn. lia.
Qed.

(** The device takes the packet as the abstract file does; a request for command 10
    is undefined. *)
Lemma device_store_spec s l out l' pos :
  idle_rel s l -> packet_cut blocks out ->
  Z.of_nat (length (pending l)) + packet_length out <= room ->
  store_request l true out = Ret (l', pos) -> ~ asks_command_ten out ->
  exists s' st', device_store blocks k s out = Ret (s', st') /\ idle_rel s' l' /\ stream_rel l' st' pos.
Proof using All.
  intros Hrel Hcut Hroom Hst Hten. unfold store_request, device_store, packet_length in *.
  destruct out as [out|]; [| done].
  destruct (strncmp_eq out ioctl_string (length ioctl_string)) as [b | |] eqn:Eb;
    cbn [mbind outcome_bind] in *; [| done..].
  destruct b; destruct (c_string out) as [cs | |] eqn:Ecs; cbn [mbind outcome_bind] in *; try done.
  - assert (exists p, seek_params cs = Ret (Some p) /\ l' = l /\
      pos = default 0 (log_seek l (write_cmd p) (write_cmd_offset p))) as (p & Ep & -> & ->).
    { unfold seek_params. destruct (sscanf_d_d ioctl_string _ cs) as [[[w|] [off|]] | |];
        cbn in Hst |- *; try done. injection Hst as <- <-. by eexists. }
    pose proof (seek_params_ok _ _ Ep) as Hok. rewrite Ep. cbn [mbind outcome_bind].
    destruct (device_seek_spec s l (st_file stream_open) p Hrel eq_refl Hok) as [r ->].
    { intros E. apply Hten. exists out, cs, (write_cmd_offset p).
      split_and!; [done.. |]. rewrite Ep. destruct p. cbn in *. by rewrite E. }
    cbn [mbind outcome_bind]. exists s. eexists. split; [done |]. split; [done |].
    destruct (log_seek l _ _) as [t|] eqn:Et; [| apply stream_open_rel].
    pose proof (log_seek_small s l _ _ t (proj1 Hrel) (proj2 Hok) Et).
    split; cbn; [done | lia | unfold stream_pos; cbn; lia | lia | done].
  - injection Hst as <- <-.
    destruct (stream_write_spec s l stream_open cs Hrel (stream_open_rel l)
      (Hcut out cs eq_refl Ecs) Hroom) as (s' & st' & -> & Hrel' & Hst'). exists s', st'. by destruct cs.
Qed.

(** The sending loop gives the log from the stream's position on. *)
Lemma device_send_spec fuel s l st pos sent :
  dev_rel s l -> stream_rel l st pos -> (length (log_bytes l) - Z.to_nat pos < fuel)%nat ->
  device_send bufsiz k fuel s st sent = Ret (sent ++ drop (Z.to_nat pos) (log_bytes l)).
Proof using All.
  intros Hrel. revert st pos sent. induction fuel as [|fuel IH]; intros st pos sent Hst Hfuel; [lia |].
  cbn [device_send]. destruct (stream_getc_spec s l st pos Hrel Hst) as (st' & -> & Hnext).
  cbn [mbind outcome_bind]. pose proof (str_start _ _ _ Hst). unfold fread1 in *.
  cbn [df_content device_file] in *. destruct (log_bytes l !! Z.to_nat pos) as [c|] eqn:E.
  - pose proof (lookup_lt_Some _ _ _ E). rewrite (IH st' (pos + 1)); [| by eauto | lia].
    replace (Z.to_nat (pos + 1)) with (S (Z.to_nat pos)) by lia.
    rewrite (drop_S _ c (Z.to_nat pos)) by done. by rewrite <- app_assoc.
  - apply lookup_ge_None in E. by rewrite drop_ge, app_nil_r.
Qed.

Lemma device_session_spec mem fuel s l out l' pos :
  mem 1 = true ->
  idle_rel s l -> packet_cut blocks out ->
  Z.of_nat (length (pending l)) + packet_length out <= room ->
  store_request l true out = Ret (l', pos) -> ~ asks_command_ten out ->
  (length (log_bytes l') < fuel)%nat ->
  exists s', device_session bufsiz blocks k mem fuel s out = Ret (s', drop (Z.to_nat pos) (log_bytes l')) /\
    idle_rel s' l'.
Proof using All.
  intros Hmem Hrel Hcut Hroom Hst Hten Hfuel. unfold device_session. rewrite Hmem.
  destruct (device_store_spec s l out l' pos) as (s' & st' & -> & Hrel' & Hst'); [done.. |].
  cbn [mbind outcome_bind].
  rewrite (device_send_spec fuel s' l' st' pos) by (done || apply Hrel' || lia).
  by exists s'.
Qed.
End Specs.
