(* ===== verification/DeviceServer.v ===== *)
(** The server built for the character device: the connection threads of
    [SocketServer], interleaved, with the calls of [DeviceStream] made of the driver
    itself. Its runs are runs of the server on the abstract device. *)

From S2P Require Import Prelude CMem CString LogSpec Kernel.
From S2P Require CharDriver.
From S2P Require Import CharDriverRel CharDriverSystem CharDriverProps CharDriverSeek.
From S2P Require Import SocketThread SocketThreadSpec SocketServer SocketServerProps SeekRequest DeviceStream.

(** ** The system *)

(** The threads, their mutex and the driver, with the stream each thread has open. *)
Record dserver : Type := mk_dserver {
  d_srv : server driver;
  d_streams : gmap nat stream;
}.

Definition with_file {F G} (g : G) (s : server F) : server G :=
  mk_server g (srv_data_count s) (mutexLock s) (threads s).

(** The thread has not come to the file yet. *)
Definition before_file (ths : gmap nat thread) (t : nat) : Prop :=
  match ths !! t with
  | Some th => t_phase th = Receiving \/ t_phase th = Locking
  | None => True
  end.

Section Server.
Context (mem : Z -> bool) (bufsiz room : Z).

(** Up to the lock a thread does what it does for any file. With the mutex held it
    stores its packet, which with what is pending in the device is to fit the memory
    a kernel gives, and which stdio cuts into blocks that end no command early; then it sends the device back byte by
    byte. Each step under a kernel behaviour of its own. *)
Inductive dserver_step : dserver -> nat -> dserver -> Prop :=
| dstep_local s str t s' :
    before_file (threads s) t -> server_step mem (with_file empty_log s) t s' ->
    dserver_step (mk_dserver s str) t (mk_dserver (with_file (dataFile s) s') str)
| dstep_store k blocks drv drv' n m ths str t th st :
    KernelWilling k room -> ths !! t = Some th -> t_phase th = Locked ->
    packet_cut blocks (outputBuffer (t_recv th)) ->
    CharDriver.tmp_size (CharDriver.aesd_device drv) + packet_length (outputBuffer (t_recv th))
      <= room ->
    device_store blocks k drv (outputBuffer (t_recv th)) = Ret (drv', st) ->
    dserver_step (mk_dserver (mk_server drv n m ths) str) t
      (mk_dserver (put t (at_phase (Sending (stream_pos st)) th) (mk_server drv' n m ths))
         (<[t := st]> str))
| dstep_send k s str t th pos st st' c :
    KernelWilling k room -> threads s !! t = Some th -> t_phase th = Sending pos ->
    str !! t = Some st -> stream_getc bufsiz k (dataFile s) st = Ret (Some c, st') ->
    dserver_step (mk_dserver s str) t
      (mk_dserver (put t (mk_thread (Sending (stream_pos st')) (t_recv th) (t_sent th ++ [c])) s)
         (<[t := st']> str))
| dstep_finish k drv n m ths str t th pos st st' :
    KernelWilling k room -> ths !! t = Some th -> t_phase th = Sending pos ->
    str !! t = Some st -> stream_getc bufsiz k drv st = Ret (None, st') ->
    dserver_step (mk_dserver (mk_server drv n m ths) str) t
      (mk_dserver (put t (at_phase Finished th) (mk_server drv n None ths)) (delete t str)).

Definition dserver_init (drv : driver) : dserver := mk_dserver (mk_server drv 0 None ∅) ∅.

(** ** The simulation *)

(** The device stands for the log; the rest is the same; every thread that sends has
    its stream where the abstract thread is. *)
Record drel (d : dserver) (a : server log) : Prop := {
  dr_dev : idle_rel (dataFile (d_srv d)) (dataFile a);
  dr_same : with_file (dataFile a) (d_srv d) = a;
  dr_streams : forall t th pos, threads a !! t = Some th -> t_phase th = Sending pos ->
    exists st, d_streams d !! t = Some st /\ stream_rel (dataFile a) st pos;
}.

(** A step before the file is the same for every file. *)
Lemma local_step_file {F G} `{!DataFile F, !DataFile G} (f : F) (g : G) n m ths t s' :
  before_file ths t -> server_step mem (mk_server f n m ths) t s' ->
  server_step mem (mk_server g n m ths) t (with_file g s').
Proof.
  intros Hb Hstep. remember (mk_server f n m ths) as s eqn:Es. unfold before_file in Hb.
  destruct Hstep as [s t st Hnone Hi | f0 n0 m0 ths0 t th a turn n' st Hth Hp Ha Hc Hr Hturn
    | s t th Hth Hp Hc | f0 n0 ths0 t th Hth Hp | f0 n0 m0 ths0 t th f' pos Hth Hp _
    | s t th pos c Hth Hp _ | f0 n0 m0 ths0 t th pos Hth Hp _]; try (injection Es as -> -> -> ->);
    try (injection Es as -> -> <- ->); subst; cbn in *.
  - exact (step_create mem (mk_server g n m ths) t st Hnone Hi).
  - exact (step_recv mem g n m ths t th a turn n' st Hth Hp Ha Hc Hr Hturn).
  - exact (step_received mem (mk_server g n m ths) t th Hth Hp Hc).
  - exact (step_lock mem g n ths t th Hth Hp).
  - rewrite Hth, Hp in Hb. by destruct Hb.
  - rewrite Hth, Hp in Hb. by destruct Hb.
  - rewrite Hth, Hp in Hb. by destruct Hb.
Qed.

(** It makes no thread start sending. *)
Lemma local_step_sending {F} `{!DataFile F} (s : server F) t s' t0 th0 pos :
  before_file (threads s) t -> server_step mem s t s' -> threads s' !! t0 = Some th0 ->
  t_phase th0 = Sending pos -> threads s !! t0 = Some th0.
Proof.
  intros Hb Hstep. unfold before_file in Hb.
  destruct Hstep as [[f n m ths] t st Hnone Hi | f n m ths t th a turn n' st Hth Hp _ _ _ Hturn
    | [f n m ths] t th Hth Hp _ | f n ths t th Hth Hp | f n m ths t th f' pos0 Hth Hp _
    | [f n m ths] t th pos0 c Hth Hp _ | f n m ths t th pos0 Hth Hp _]; cbn in *.
  5-7: rewrite Hth, Hp in Hb; by destruct Hb.
  all: intros [[<- <-] | [Hne H]]%lookup_insert_Some; [| done]; cbn; try discriminate.
  by destruct Hturn as [-> | ->].
Qed.

(** A packet the driver takes is one the abstract file takes. *)
Lemma device_store_inv blocks k `{!KernelWilling k room} s l out r :
  idle_rel s l -> device_store blocks k s out = Ret r ->
  (exists l' pos, store_request l true out = Ret (l', pos)) /\ ~ asks_command_ten out.
Proof.
  intros [Hrel Hfree] H. split.
  - unfold device_store in H. unfold store_request. destruct out as [out|]; [| done].
    destruct (strncmp_eq out ioctl_string (length ioctl_string)) as [b | |];
      cbn [mbind outcome_bind] in *; [| done..].
    destruct b; destruct (c_string out) as [cs | |]; cbn [mbind outcome_bind] in *; try done.
    + unfold seek_params in H. destruct (sscanf_d_d ioctl_string _ cs) as [[[w|] [off|]] | |];
        cbn in H |- *; try done. by do 2 eexists.
    + by do 2 eexists.
  - intros (o & cs & off & -> & E1 & E2 & E3). unfold device_store in H.
    rewrite E1 in H. cbn [mbind outcome_bind] in H. rewrite E2 in H. cbn [mbind outcome_bind] in H.
    rewrite E3 in H. cbn [mbind outcome_bind] in H.
    change (AESDCHAR_IOCSEEKTO (k_IOWR k)) with (CharDriver.AESDCHAR_IOCSEEKTO k) in H.
    pose proof (decode_encode (mk_seekto 10 off) [] (seek_params_ok _ _ E3)) as Hdec.
    rewrite app_nil_r in Hdec.
    rewrite (aesd_ioctl_past_end k s l (st_file stream_open) Hrel eq_refl _ _
      (copy_request room k _) Hfree willing_lock) in H by (by rewrite Hdec).
    done.
Qed.

Lemma tmp_size_pending s l :
  idle_rel s l -> CharDriver.tmp_size (CharDriver.aesd_device s) = Z.of_nat (length (pending l)).
Proof. intros [Hrel Hfree]. apply (pend_size _ _ _ (dev_pending _ _ Hrel Hfree)). Qed.

(** Another thread's stream when one thread's entry changes. *)
Lemma streams_other (str : gmap nat stream) t st (ths : gmap nat thread) th' l :
  (forall t0 th pos, ths !! t0 = Some th -> t_phase th = Sending pos ->
     exists st, str !! t0 = Some st /\ stream_rel l st pos) ->
  (forall pos, t_phase th' = Sending pos -> stream_rel l st pos) ->
  forall t0 th pos, <[t := th']> ths !! t0 = Some th -> t_phase th = Sending pos ->
    exists st0, <[t := st]> str !! t0 = Some st0 /\ stream_rel l st0 pos.
Proof.
  intros Hall Hth t0 th pos [[<- <-] | [Hne H]]%lookup_insert_Some Hp.
  - exists st. rewrite lookup_insert_eq. auto.
  - rewrite lookup_insert_ne by done. by eapply Hall.
Qed.

Context (Hbuf : 0 < bufsiz <= MAX_RW_COUNT) (Hmax : room <= MAX_RW_COUNT).

Lemma sim_store k blocks drv drv' n m ths str t th st a f0 cs `{!KernelWilling k room} :
  drel (mk_dserver (mk_server drv n m ths) str) a -> server_inv f0 cs a ->
  ths !! t = Some th -> t_phase th = Locked ->
  packet_cut blocks (outputBuffer (t_recv th)) ->
  CharDriver.tmp_size (CharDriver.aesd_device drv) + packet_length (outputBuffer (t_recv th))
    <= room ->
  device_store blocks k drv (outputBuffer (t_recv th)) = Ret (drv', st) ->
  exists a', server_step mem a t a' /\
    drel (mk_dserver (put t (at_phase (Sending (stream_pos st)) th) (mk_server drv' n m ths))
            (<[t := st]> str)) a'.
Proof using Hbuf Hmax.
  intros [Hdev Hsame Hstr] Hinv Hth Hp Hcut Hroom Hst. destruct a as [l n' m' ths'].
  unfold with_file in Hsame. cbn in *. injection Hsame as <- <- <-.
  destruct (device_store_inv blocks k drv l _ _ Hdev Hst) as [(l' & pos & Hl') Hten].
  rewrite (tmp_size_pending _ _ Hdev) in Hroom.
  destruct (device_store_spec bufsiz room blocks k Hbuf Hmax drv l _ l' pos Hdev Hcut Hroom Hl' Hten)
    as (s1 & st1 & E & Hdev' & Hst'). rewrite Hst in E. injection E as <- <-.
  rewrite (str_pos _ _ _ Hst') in *.
  eexists. split; [exact (step_store mem l n m ths t th l' pos Hth Hp Hl') |].
  split; cbn; [done | done |].
  intros t0 th0 pos0 [[<- <-] | [Hne H]]%lookup_insert_Some Hp0.
  - exists st. rewrite lookup_insert_eq. split; [done |]. cbn in Hp0. by injection Hp0 as <-.
  - exfalso. pose proof (inv_threads _ _ _ Hinv) as Hall. cbn in Hall.
    pose proof (proj1 (in_section_owner _ _ _ _ _ _ (Hall t th Hth)) (or_introl Hp)) as H1.
    pose proof (proj1 (in_section_owner _ _ _ _ _ _ (Hall t0 th0 H))
                  (or_intror (ex_intro _ pos0 Hp0))) as H2. congruence.
Qed.

Lemma dserver_simulation d t d' a f0 cs :
  dserver_step d t d' -> drel d a -> server_inv f0 cs a ->
  exists a', server_step mem a t a' /\ drel d' a'.
Proof using Hbuf Hmax.
  intros Hstep Hrel Hinv.
  destruct Hstep as [s str t s' Hb Hs | k blocks drv drv' n m ths str t th st Hk Hth Hp Hcut Hroom Hst
    | k s str t th pos st st' c Hk Hth Hp Hst Hget | k drv n m ths str t th pos st st' Hk Hth Hp Hst Hget].
  - destruct Hrel as [Hdev Hsame Hstr]. cbn in *. destruct a as [l n m ths]. destruct s as [drv n0 m0 ths0].
    unfold with_file in Hsame, Hs. cbn in *. injection Hsame as -> -> ->.
    exists (with_file l s'). split; [by eapply local_step_file |]. split; cbn; [done | done |].
    intros t0 th0 pos Ht0 Hp. apply (Hstr t0 th0 pos); [| done].
    exact (local_step_sending (mk_server empty_log n m ths) t s' t0 th0 pos Hb Hs Ht0 Hp).
  - by eapply sim_store.
  - destruct Hrel as [Hdev Hsame Hstr]. destruct s as [drv n m ths]. destruct a as [l n0 m0 ths0].
    unfold with_file in Hsame. cbn in *. injection Hsame as <- <- <-.
    destruct (Hstr t th pos Hth Hp) as (st0 & E & Hst0). rewrite Hst in E. injection E as <-.
    destruct (stream_getc_spec bufsiz room k Hbuf drv l st pos (proj1 Hdev) Hst0) as (st1 & E & Hnext).
    rewrite Hget in E. injection E as Hc <-. rewrite <- Hc in Hnext.
    specialize (Hnext ltac:(by eexists)). pose proof (str_pos _ _ _ Hnext) as Hpos.
    eexists. split; [exact (step_send mem (mk_server l n m ths) t th pos c Hth Hp (eq_sym Hc)) |].
    rewrite Hpos. split; cbn; [done | done |]. apply streams_other; [done |].
    intros pos0 [= <-]. done.
  - destruct Hrel as [Hdev Hsame Hstr]. destruct a as [l n0 m0 ths0].
    unfold with_file in Hsame. cbn in *. injection Hsame as <- <- <-.
    destruct (Hstr t th pos Hth Hp) as (st0 & E & Hst0). rewrite Hst in E. injection E as <-.
    destruct (stream_getc_spec bufsiz room k Hbuf drv l st pos (proj1 Hdev) Hst0) as (st1 & E & _).
    rewrite Hget in E. injection E as Hc <-.
    eexists. split; [exact (step_finish mem l n m ths t th pos Hth Hp (eq_sym Hc)) |].
    split; cbn; [done | done |].
    intros t0 th0 pos0 [[<- <-] | [Hne H]]%lookup_insert_Some Hp0; [done |].
    rewrite lookup_delete_ne by done. by eapply Hstr.
Qed.

Lemma dserver_run_simulation f0 d ts d' a :
  run dserver_step d ts d' -> drel d a -> (exists cs, server_inv f0 cs a) ->
  exists a', run (server_step mem) a ts a' /\ drel d' a'.
Proof using Hbuf Hmax.
  intros Hrun. revert a. induction Hrun as [d | d t d1 ts d2 Hstep _ IH]; intros a Hrel [cs Hinv].
  - exists a. split; [constructor | done].
  - destruct (dserver_simulation _ _ _ _ _ _ Hstep Hrel Hinv) as (a1 & Ha & Hrel1).
    destruct (IH a1 Hrel1) as (a2 & Hrun & Hrel2).
    { by eapply server_step_inv. }
    exists a2. split; [by eapply run_cons | done].
Qed.
End Server.

Lemma dserver_init_rel drv l : idle_rel drv l -> drel (dserver_init drv) (server_init l).
Proof. intros H. split; [exact H | done | by intros t th pos]. Qed.

(** The module just loaded. *)
Lemma init_idle k s0 s : CharDriver.aesd_init_module k s0 = (0, s) -> idle_rel s empty_log.
Proof.
  intros H. split; [exact (wr_dev _ _ (init_world_rel k s0 s H)) |].
  unfold CharDriver.aesd_init_module in H. destruct (k_alloc_chrdev_region k _) as [res dev].
  destruct (Z.ltb_spec res 0); [injection H as ->; lia |].
  cbn in H. by destruct (negb _); injection H as _ <-.
Qed.
