(* ===== verification/DeviceServerProps.v ===== *)
(** The properties of the server on the character device: one thread, and all of them
    interleaved, do with the driver what they do with the abstract device. *)

From S2P Require Import Prelude CMem CString LogSpec Kernel.
From S2P Require CharDriver.
From S2P Require Import CharDriverRel CharDriverSystem CharDriverProps.
From S2P Require Import SocketThread SocketThreadSpec SocketServer SocketServerProps SeekRequest DeviceStream DeviceServer.

(** The packet a thread receives. *)
Definition received_packet (mem : Z -> bool) (data_count : Z) (answers : list rx)
    : option (list (option byte)) :=
  match (st ← recv_init mem; recv_loop mem st data_count answers) with
  | Ret (Packet st _, _) => outputBuffer st
  | _ => None
  end.

(** C16. One thread on the device. When the thread, run on the abstract device, ends
    having sent [sent], the same thread on the driver ends, having sent the same
    bytes and left the device standing for the same log: the packet is flushed in
    whatever blocks stdio cuts it into, or the request passed on by the ioctl, and
    the reads of whatever size stdio makes give the log from there. So it does under
    every willing kernel, for a packet that fits the memory and is cut so that no
    command ends early, other than the request for command 10. *)
Theorem device_thread_correct mem bufsiz room blocks k s l data_count data_count' answers l' sent fuel :
  KernelWilling k room -> 0 < bufsiz <= MAX_RW_COUNT -> room <= MAX_RW_COUNT -> idle_rel s l ->
  threadHandler mem l true data_count answers = Ret (HandlerDone l' sent, data_count') ->
  packet_cut blocks (received_packet mem data_count answers) ->
  Z.of_nat (length (pending l)) + packet_length (received_packet mem data_count answers) <= room ->
  ~ asks_command_ten (received_packet mem data_count answers) ->
  (length (log_bytes l') < fuel)%nat ->
  exists s', device_thread bufsiz blocks k mem fuel s data_count answers =
      Ret (Some (s', sent), data_count') /\ idle_rel s' l'.
Proof.
  intros Hk Hbuf Hmax Hrel H Hcut Hroom Hten Hfuel. unfold threadHandler, device_thread, received_packet in *.
  destruct (recv_init mem) as [st0 | |]; cbn [mbind outcome_bind] in *; [| done..].
  destruct (recv_loop mem st0 data_count answers) as [[[| st rest | st] dc] | |];
    cbn [mbind outcome_bind] in *; try done.
  apply bind_Ret_inv in H as ([l1 pos] & Hst & H). apply bind_Ret_inv in H as (sent' & Hsend & H).
  injection H as <- <- <-. unfold send_file in Hsend. destruct (mem 1) eqn:Hmem; [| done].
  pose proof (store_request_position _ _ _ _ Hst).
  rewrite send_loop_spec in Hsend by lia. injection Hsend as <-.
  destruct (device_session_spec bufsiz room blocks k Hbuf Hmax mem fuel s l _ l1 pos Hmem Hrel Hcut Hroom Hst Hten Hfuel)
    as (s' & -> & Hrel'). by exists s'.
Qed.

(** ** Properties *)

(** Blocks of [n] bytes: no command ends early when the only newline of the packet is
    its last byte. *)
Fixpoint chunks (fuel n : nat) (cs : list byte) : list (list byte) :=
  match fuel with
  | O => [cs]
  | S fuel => if decide (length cs <= n)%nat then [cs] else take n cs :: chunks fuel n (drop n cs)
  end.

Lemma chunks_not_nil fuel n cs : chunks fuel n cs <> [].
Proof. destruct fuel; cbn; [done |]. by case_decide. Qed.

Lemma concat_chunks fuel n cs : concat (chunks fuel n cs) = cs.
Proof.
  revert cs. induction fuel as [|fuel IH]; intros cs; cbn [chunks]; [by cbn; rewrite app_nil_r |].
  case_decide; cbn [concat]; [by rewrite app_nil_r |]. by rewrite IH, take_drop.
Qed.

Lemma chunks_cut_well fuel n a c : newline ∉ a -> cut_well (chunks fuel n) (a ++ [c]).
Proof.
  intros Ha. split; [apply concat_chunks |]. revert a Ha.
  induction fuel as [|fuel IH]; intros a Ha; cbn [chunks]; [by cbn |].
  case_decide as Hlen; [by cbn |]. rewrite length_app in Hlen. cbn [length] in Hlen.
  rewrite take_app_le, drop_app_le by lia.
  destruct (chunks fuel n (drop n a ++ [c])) as [|d ds] eqn:E; [by apply chunks_not_nil in E |].
  change (removelast (take n a :: d :: ds)) with (take n a :: removelast (d :: ds)).
  rewrite <- (take_drop n a) in Ha. apply not_elem_of_app in Ha as [Ht Hd].
  constructor; [done |]. rewrite <- E. by apply IH.
Qed.

(** A line of five bytes, written by two calls of [write]. *)
Lemma device_thread_correct_witness :
  let l' := log_write (written_log eleven_lines) (line x63 5) in
  exists s', device_thread 4096 (chunks 10 3) K demo_memory 1000 (written_state eleven_lines) 0
        [RxBytes (line x63 5)] =
      Ret (Some (s', log_bytes l'), 5) /\ idle_rel s' l'.
Proof.
  refine (device_thread_correct demo_memory 4096 4096 (chunks 10 3) K (written_state eleven_lines)
    (written_log eleven_lines) 0 5 [RxBytes (line x63 5)] _ _ 1000 _ _ _ _ _ _ _ _ _).
  - exact (plain_kernel_willing 4096 ltac:(by_computation)).
  - by_computation.
  - by_computation.
  - split; [exact eleven_rel | by vm_compute].
  - by vm_compute.
  - intros o cs Ho Hcs. vm_compute in Ho. injection Ho as <-. vm_compute in Hcs. injection Hcs as <-.
    apply (chunks_cut_well 10 3 [x63; x63; x63; x63] newline). apply (bool_decide_unpack _). by vm_compute.
  - by_computation.
  - intros (o & cs & off & E1 & E2 & _). vm_compute in E1. injection E1 as <-.
    vm_compute in E2. discriminate E2.
  - apply Nat.ltb_lt. by vm_compute.
Defined.

(** ** The server *)

(** One client sends a line; its thread has stored it on the device and sent back
    the first of its two bytes. *)
Lemma demo_device_run :
  exists d, run (dserver_step demo_memory 4096 4096) (dserver_init loaded)
      [0; 0; 0; 0; 0; 0]%nat d /\ t_sent <$> threads (d_srv d) !! 0%nat = Some [x61].
Proof.
  pose proof (plain_kernel_willing 4096 ltac:(by_computation)) as HK.
  eexists. split.
  - eapply run_cons; [eapply dstep_local; [exact I | by eapply (step_create demo_memory _ 0%nat)] |].
    eapply run_cons; [eapply dstep_local; [by left | eapply (step_recv demo_memory _ _ _ _ 0%nat _ (RxBytes line1));
      [reflexivity | reflexivity | by vm_compute | reflexivity | reflexivity | right; reflexivity]] |].
    eapply run_cons; [eapply dstep_local; [by left |
      eapply (step_received demo_memory _ 0%nat); reflexivity] |].
    eapply run_cons; [eapply dstep_local; [by right |
      eapply (step_lock demo_memory _ _ _ 0%nat); reflexivity] |].
    eapply run_cons; [eapply (dstep_store demo_memory 4096 4096 K (fun cs => [cs]));
      [exact HK | reflexivity | reflexivity | by intros o cs _ _; split; [apply app_nil_r |]
      | by_computation | vm_compute; reflexivity] |].
    eapply run_cons; [eapply (dstep_send demo_memory 4096 4096 K);
      [exact HK | reflexivity | reflexivity | reflexivity | vm_compute; reflexivity] |].
    apply run_nil.
  - by vm_compute.
Qed.

(** C7. The server built for the character device is the server on the abstract
    device. Every run of its threads on the loaded driver, whatever willing kernels
    answer and however the threads interleave, is a run of the threads on the log
    of ten commands, with the same threads at the same points having sent the same
    bytes, and the driver goes on representing the log; so the packets are stored
    one after the other, and a thread that has finished has sent exactly the
    commands of the device as its own packet left it. *)
Theorem device_server_refines mem bufsiz room k s0 s ts d :
  0 < bufsiz <= MAX_RW_COUNT -> room <= MAX_RW_COUNT ->
  CharDriver.aesd_init_module k s0 = (0, s) ->
  run (dserver_step mem bufsiz room) (dserver_init s) ts d ->
  exists a, run (server_step mem) (server_init empty_log) ts a /\
    threads (d_srv d) = threads a /\ mutexLock (d_srv d) = mutexLock a /\
    idle_rel (dataFile (d_srv d)) (dataFile a) /\
    exists cs, replay empty_log cs = Ret (dataFile a) /\ NoDup cs.*1 /\
      forall t th, threads (d_srv d) !! t = Some th -> t_phase th = Finished ->
        exists l1 start, committed empty_log cs t th l1 start /\
          t_sent th = drop (Z.to_nat start) (log_bytes l1).
Proof.
  intros Hbuf Hmax Hinit Hrun.
  destruct (dserver_run_simulation mem bufsiz room Hbuf Hmax empty_log _ _ _ (server_init empty_log) Hrun)
    as (a & Ha & [Hdev Hsame _]).
  { apply dserver_init_rel. by eapply init_idle. }
  { exists []. apply server_inv_init. }
  exists a. split; [done |]. rewrite <- Hsame. split; [done |]. split; [done |]. split; [done |].
  destruct (server_run_inv mem empty_log _ _ _ Ha) as [cs [Hf Hall _ Hnd _]].
  { exists []. apply server_inv_init. }
  rewrite Hsame. exists cs. split_and!; [done.. |]. intros t th Ht Hp.
  assert (threads a !! t = Some th) as Hta by (by rewrite <- Hsame).
  pose proof (Hall t th Hta) as H. unfold thread_inv in H. rewrite Hp in H.
  by destruct H as [_ ?].
Qed.

Lemma device_server_refines_witness :
  exists d a, t_sent <$> threads (d_srv d) !! 0%nat = Some [x61] /\
    run (server_step demo_memory) (server_init empty_log) [0; 0; 0; 0; 0; 0]%nat a /\
    threads (d_srv d) = threads a /\ idle_rel (dataFile (d_srv d)) (dataFile a).
Proof.
  destruct demo_device_run as (d & Hrun & Hsent). exists d.
  destruct (device_server_refines demo_memory 4096 4096 K boot loaded _ d
    ltac:(by_computation) ltac:(by_computation) eq_refl Hrun) as (a & H1 & H2 & _ & H3 & _).
  exists a. exact (conj Hsent (conj H1 (conj H2 H3))).
Defined.
