(* ===== verification/SocketMain.v ===== *)
(** The main thread of the server ([ConfigureSocket], [exitFunction],
    [signalHandler] and [main] of [server/aesdsocket.c]): accepting connections,
    the list of threads kept with the macros of [SList], reaping, and shutting
    down. *)

From Stdlib Require Import String.
From S2P Require Import Prelude CMem SList.

(** ** State *)

(** [ThreadsDef]; a field is [None] while it is indeterminate. *)
Record ThreadsDef : Type := mk_threads_def {
  isDone : option bool;
  ID : option nat;
  threadFD : option Z;
}.

(** What the main thread works on: the list, the descriptors open in the process,
    the threads joined so far and the globals it sets. *)
Record main_state : Type := mk_main {
  head : slist ThreadsDef;
  open_fds : gset Z;
  joined : list nat;
  socketDescriptor : Z;
  socketAcceptDescriptor : Z;
}.

(** [dataPointer->socketThread.field = value] *)
Definition set_payload (l : slist ThreadsDef) (a : nat) (f : ThreadsDef -> ThreadsDef)
    : outcome (slist ThreadsDef) :=
  match nodes l !! a with
  | Some n => Ret (mk_slist (slh_first l) (<[a := mk_node (f (payload n)) (sle_next n)]> (nodes l)))
  | None => Fault UseAfterFree
  end.

Definition set_isDone b d := mk_threads_def b (ID d) (threadFD d).
Definition set_ID i d := mk_threads_def (isDone d) i (threadFD d).
Definition set_threadFD fd d := mk_threads_def (isDone d) (ID d) fd.

(** Reading a field that must be initialised. *)
Definition initialised {A} (o : option A) : outcome A :=
  match o with Some a => Ret a | None => Fault Uninitialised end.

Definition get_payload (l : slist ThreadsDef) (a : nat) : outcome ThreadsDef :=
  match nodes l !! a with Some n => Ret (payload n) | None => Fault UseAfterFree end.

(** [free(dataPointer)] *)
Definition free_node (l : slist ThreadsDef) (a : nat) : outcome (slist ThreadsDef) :=
  match nodes l !! a with
  | Some _ => Ret (mk_slist (slh_first l) (delete a (nodes l)))
  | None => Fault InvalidFree
  end.

(** [pthread_join], [SLIST_REMOVE] and [free], in both loops. *)
Definition reap_node (a : nat) (d : ThreadsDef) (st : slist ThreadsDef * list nat)
    : outcome (slist ThreadsDef * list nat) :=
  id ← initialised (ID d);
  l ← SLIST_REMOVE (fst st) (Some a);
  l ← free_node l a;
  Ret (l, snd st ++ [id]).

(** ** Accepting *)

(** The body of the loop that removes a stale thread. *)
Definition reap_body (a : nat) (st : slist ThreadsDef * list nat)
    : outcome (slist ThreadsDef * list nat + slist ThreadsDef * list nat) :=
  d ← get_payload (fst st) a;
  done ← initialised (isDone d);
  if (done : bool) then st ← reap_node a d st; Ret (inl st) else Ret (inr st).

Definition with_list (l : slist ThreadsDef) (js : list nat) (s : main_state) : main_state :=
  mk_main l (open_fds s) js (socketDescriptor s) (socketAcceptDescriptor s).

(** The first half of a turn of the accept loop of [ConfigureSocket]: [fd] is what
    [accept] returns, [ptr] what [malloc] returns (a node not in use, or [None]),
    [tid] what [pthread_create] stores. The new node is indeterminate until its
    fields are set. *)
Definition accept_insert (s : main_state) (fd : Z) (ptr : option nat) (tid : option nat)
    : outcome main_state :=
  let fds := if 0 <=? fd then {[fd]} ∪ open_fds s else open_fds s in
  let s := mk_main (head s) fds (joined s) (socketDescriptor s) fd in
  match ptr with
  | None => l ← SLIST_INSERT_HEAD (head s) None; Ret (with_list l (joined s) s)
  | Some a =>
      let new := mk_node (mk_threads_def None None None) None in
      let l := mk_slist (slh_first (head s)) (<[a := new]> (nodes (head s))) in
      l ← SLIST_INSERT_HEAD l ptr;
      l ← set_payload l a (set_threadFD (Some fd));
      l ← set_payload l a (set_isDone (Some false));
      l ← set_payload l a (set_ID tid);
      Ret (with_list l (joined s) s)
  end.

(** The second half: the stale thread is looked for. A list has at most as many
    nodes as the heap. *)
Definition accept_reap (s : main_state) : outcome main_state :=
  let l := head s in
  '(_, (l, js)) ←
    SLIST_FOREACH (S (size (nodes l))) reap_body (SLIST_FIRST l) (l, joined s);
  Ret (with_list l js s).

(** One turn of the accept loop. *)
Definition accept_turn (s : main_state) (fd : Z) (ptr : option nat) (tid : option nat)
    : outcome main_state :=
  s ← accept_insert s fd ptr tid; accept_reap s.

(** What a connection thread does last to its node: [params->isDone = true]. *)
Definition thread_done (s : main_state) (a : nat) : outcome main_state :=
  l ← set_payload (head s) a (set_isDone (Some true)); Ret (with_list l (joined s) s).

(** The start of [ConfigureSocket]. *)
Definition configure_init (sock : Z) (h : gmap nat (node ThreadsDef)) : main_state :=
  mk_main (SLIST_INIT (mk_slist None h)) {[sock]} [] sock 0.

(** ** Shutting down *)

(** [close(fd)]; the result of closing a descriptor that is not open is ignored. *)
Definition close_fd (fd : Z) (s : main_state) : main_state :=
  mk_main (head s) (open_fds s ∖ {[fd]}) (joined s) (socketDescriptor s)
    (socketAcceptDescriptor s).

(** The body of the loop over the first node in [exitFunction], which always
    breaks. *)
Definition exit_body (a : nat) (st : slist ThreadsDef * main_state)
    : outcome (slist ThreadsDef * main_state + slist ThreadsDef * main_state) :=
  let '(l, s) := st in
  d ← get_payload l a;
  fd ← initialised (threadFD d);
  let s := close_fd fd s in
  '(l, js) ← reap_node a d (l, joined s);
  Ret (inl (l, with_list l js s)).

(** [while (SLIST_FIRST(&head) != NULL)], one node per turn. *)
Fixpoint exit_loop (fuel : nat) (s : main_state) : outcome main_state :=
  match SLIST_FIRST (head s) with
  | None => Ret s
  | Some _ =>
      match fuel with
      | O => NoFuel
      | S fuel =>
          '(_, (l, s)) ←
            SLIST_FOREACH (S (size (nodes (head s)))) exit_body (SLIST_FIRST (head s)) (head s, s);
          exit_loop fuel s
      end
  end.

(** [exitFunction], up to [exit(EXIT_SUCCESS)]; [fileDescriptor] is closed as well. *)
Definition exitFunction (fileDescriptor : Z) (s : main_state) : outcome main_state :=
  let s := close_fd fileDescriptor s in
  let s := close_fd (socketAcceptDescriptor s) s in
  let s := close_fd (socketDescriptor s) s in
  exit_loop (size (nodes (head s))) s.

Definition SIGINT : Z := 2.
Definition SIGKILL : Z := 9.
Definition SIGTERM : Z := 15.

(** What the process does to the outside world when it ends. *)
Inductive effect : Type :=
| Shutdown (fd : Z)
| SetDone
| Unlink (path : string)
| Close (fd : Z)
| ExitNow (status : Z).

Definition signalHandler (path : string) (s : main_state) (signalNumber : Z) : list effect :=
  if (signalNumber =? SIGINT) || (signalNumber =? SIGTERM) || (signalNumber =? SIGKILL)
  then [Shutdown (socketDescriptor s); SetDone; Unlink path;
        Close (socketAcceptDescriptor s); Close (socketDescriptor s); ExitNow 0]
  else [].

(** The macro [dataFile], by the build flag. *)
Definition dataFile_path (use_aesd_char_device : Z) : string :=
  if use_aesd_char_device =? 1 then "/dev/aesdchar" else "/var/tmp/aesdsocketdata".

(** The flag [main] derives from its arguments. *)
Definition daemonFlag (argv : list string) : bool :=
  match argv with
  | _ :: a :: _ => String.eqb "-d" a
  | _ => false
  end.
