(* ===== verification/SocketMainProps.v ===== *)
(** The properties of the server's main thread: the list it keeps stays well formed
    and owns every node allocated, a turn of the accept loop reaps at most one
    finished thread, and shutting down empties the list; and what it never does,
    closing the connections of the threads it has reaped. *)

From Stdlib Require Import String.
From S2P Require Import Prelude CMem SList SocketMain.

(** ** The list's invariant *)

Definition payloads (l : slist ThreadsDef) : gmap nat ThreadsDef := payload <$> nodes l.

(** The fields are set, but the identifier of a thread that could not be created; only
    a thread that was can be done. *)
Definition ready (d : ThreadsDef) : Prop :=
  is_Some (isDone d) /\ (isDone d = Some true -> is_Some (ID d)) /\ is_Some (threadFD d).

(** The list runs through the nodes [ids], which are all the nodes allocated and not
    freed, and their fields are set as far as [ready] says. *)
Record list_inv (l : slist ThreadsDef) (ids : list nat) : Prop := {
  li_represents : represents l ids;
  li_all : forall a, is_Some (nodes l !! a) <-> a ∈ ids;
  li_ready : map_Forall (fun _ d => ready d) (payloads l);
}.

Lemma payloads_lookup l a n :
  nodes l !! a = Some n -> payloads l !! a = Some (payload n).
Proof. intros H. unfold payloads. by rewrite lookup_fmap, H. Qed.

Lemma list_inv_payload l ids a :
  list_inv l ids -> a ∈ ids -> exists d, get_payload l a = Ret d /\ payloads l !! a = Some d /\ ready d.
Proof.
  intros [_ Hall Hready] Ha. apply Hall in Ha as [n Hn]. exists (payload n).
  unfold get_payload. rewrite Hn. pose proof (payloads_lookup l a n Hn) as Hp.
  split_and!; [done.. |]. by apply (Hready a).
Qed.

(** The identifier of a thread. *)
Definition thread_id (l : slist ThreadsDef) (a : nat) : nat :=
  match payloads l !! a with Some d => default 0%nat (ID d) | None => 0%nat end.

(** Removing and freeing a node of the list. *)
Lemma reap_node_spec l ids1 a ids2 d js :
  list_inv l (ids1 ++ a :: ids2) -> payloads l !! a = Some d -> is_Some (ID d) ->
  exists l', reap_node a d (l, js) = Ret (l', js ++ [thread_id l a]) /\
    list_inv l' (ids1 ++ ids2) /\ payloads l' = delete a (payloads l).
Proof.
  intros [Hrep Hall Hready] Hd [id Hid].
  unfold reap_node, thread_id. rewrite Hd, Hid. cbn [initialised mbind outcome_bind fst default].
  destruct (SLIST_REMOVE_spec l ids1 a ids2 Hrep) as (l1 & -> & [Hs1 Hnd1] & Hsame).
  cbn [mbind outcome_bind]. unfold same_payloads in Hsame. fold (payloads l) (payloads l1) in Hsame.
  assert (a ∉ ids1 ++ ids2) as Hni.
  { destruct Hrep as [_ Hnd]. apply NoDup_app in Hnd as (_ & Hdis & [Ha _]%NoDup_cons).
    rewrite elem_of_app. intros [Hin | ?]; [| done]. apply (Hdis a Hin), list_elem_of_here. }
  assert (is_Some (nodes l1 !! a)) as [n1 Hn1].
  { assert (is_Some (payloads l1 !! a)) as [x Hx] by (rewrite Hsame, Hd; by eexists).
    unfold payloads in Hx. rewrite lookup_fmap in Hx. apply fmap_Some in Hx as (n & -> & _).
    by eexists. }
  unfold free_node. rewrite Hn1. cbn [mbind outcome_bind snd].
  assert (payloads (mk_slist (slh_first l1) (delete a (nodes l1))) = delete a (payloads l))
    as Hp by (unfold payloads; cbn; rewrite fmap_delete; f_equal; exact Hsame).
  eexists. split; [done |]. split; [| done]. split.
  - split; [| done]. by apply segment_delete_ne.
  - intros b. cbn. destruct (decide (b = a)) as [-> | Hne].
    + rewrite lookup_delete_eq. split; [by intros [] | done].
    + rewrite lookup_delete_ne by done.
      assert (is_Some (nodes l1 !! b) <-> is_Some (nodes l !! b)) as ->.
      { rewrite <- !(fmap_is_Some payload), <- !lookup_fmap.
        fold (payloads l1) (payloads l). by rewrite Hsame. }
      rewrite Hall, !elem_of_app, elem_of_cons. clear -Hne. tauto.
  - rewrite Hp. by apply map_Forall_delete.
Qed.

(** ** Reaping *)

(** The first node of the list whose thread is done. *)
Fixpoint first_done (l : slist ThreadsDef) (ids : list nat) : option nat :=
  match ids with
  | [] => None
  | a :: ids =>
      if decide ((payloads l !! a) ≫= isDone = Some true) then Some a else first_done l ids
  end.

Lemma first_done_elem l ids a : first_done l ids = Some a -> a ∈ ids.
Proof.
  induction ids as [|b ids IH]; cbn; [done |]. case_decide; [intros [= ->]; apply list_elem_of_here |].
  intros ?%IH. in_list.
Qed.

(** What is left of the list. *)
Definition without (o : option nat) (ids : list nat) : list nat :=
  match o with Some a => filter (.≠ a) ids | None => ids end.

Lemma without_middle a ids1 ids2 :
  NoDup (ids1 ++ a :: ids2) -> without (Some a) (ids1 ++ a :: ids2) = ids1 ++ ids2.
Proof.
  intros (Hnd1 & Hdis & [Ha2 _]%NoDup_cons)%NoDup_app. cbn. rewrite filter_app.
  assert (forall l : list nat, a ∉ l -> filter (.≠ a) l = l) as Hid.
  { intros l. induction l as [|b l IH]; [done |]. intros [Hb Hl]%not_elem_of_cons.
    rewrite filter_cons_True by congruence. by rewrite IH. }
  rewrite Hid by (intros Hin; apply (Hdis a Hin), list_elem_of_here).
  rewrite filter_cons_False by (intros H; by apply H). by rewrite Hid.
Qed.

Lemma visit_reap l ids0 ids js :
  list_inv l ids0 -> (forall a, a ∈ ids -> a ∈ ids0) ->
  exists l' v, visit reap_body ids (l, js) =
      Ret (v, (l', js ++ match first_done l ids with Some a => [thread_id l a] | None => [] end)) /\
    list_inv l' (without (first_done l ids) ids0).
Proof.
  intros Hinv. induction ids as [|a ids IH]; intros Hsub; cbn [visit first_done].
  { exists l, None. by rewrite app_nil_r. }
  assert (a ∈ ids0) as Ha by (apply Hsub, list_elem_of_here).
  destruct (list_inv_payload l ids0 a Hinv Ha) as (d & Hg & Hd & [b Hb] & Hid & Hfd).
  assert (reap_body a (l, js) =
    if b then st ← reap_node a d (l, js); Ret (inl st) else Ret (inr (l, js))) as ->.
  { unfold reap_body. cbn [fst]. rewrite Hg. cbn [mbind outcome_bind]. by rewrite Hb. }
  rewrite Hd. cbn [mbind option_bind]. rewrite Hb.
  destruct b.
  - rewrite decide_True by done.
    pose proof Ha as (ids1 & ids2 & ->)%list_elem_of_split.
    destruct (reap_node_spec l ids1 a ids2 d js Hinv Hd (Hid Hb)) as (l' & -> & Hinv' & _).
    cbn [mbind outcome_bind]. exists l', (Some a). split; [done |].
    by rewrite without_middle by apply (li_represents _ _ Hinv).
  - rewrite decide_False by done. cbn [mbind outcome_bind]. apply IH.
    intros x Hx. apply Hsub. in_list.
Qed.

Lemma reap_body_goes_on a st st' :
  reap_body a st = Ret (inr st') -> nodes (fst st') = nodes (fst st).
Proof.
  unfold reap_body. intros H. apply bind_Ret_inv in H as (d & _ & H).
  apply bind_Ret_inv in H as (b & _ & H). destruct b.
  - by apply bind_Ret_inv in H as (st1 & _ & [= ?]).
  - by injection H as <-.
Qed.

(** The node of a new connection, its fields set, at the head of the list; [tid] is
    [None] when [pthread_create] failed. *)
Definition connected (l : slist ThreadsDef) (a : nat) (fd : Z) (tid : option nat)
    : slist ThreadsDef :=
  mk_slist (Some a)
    (<[a := mk_node (mk_threads_def (Some false) tid (Some fd)) (slh_first l)]> (nodes l)).

Lemma connected_inv l ids a fd tid :
  list_inv l ids -> a ∉ ids -> list_inv (connected l a fd tid) (a :: ids).
Proof.
  intros [[Hs Hnd] Hall Hready] Ha. unfold connected. split.
  - split; [| by constructor]. cbn. split; [done |]. eexists. rewrite lookup_insert_eq.
    split; [done |]. by apply segment_insert_ne.
  - intros b. cbn. rewrite elem_of_cons. destruct (decide (b = a)) as [-> | Hne].
    + rewrite lookup_insert_eq. split; [by left | by eexists].
    + rewrite lookup_insert_ne, Hall by done. clear -Hne. tauto.
  - unfold payloads. cbn. rewrite fmap_insert. apply map_Forall_insert_2; [| done].
    by split_and!; [eexists | | eexists].
Qed.

Lemma payloads_connected l a fd tid b :
  b <> a -> payloads (connected l a fd tid) !! b = payloads l !! b.
Proof. intros Hne. unfold payloads, connected. cbn. by rewrite !lookup_fmap, lookup_insert_ne. Qed.

Lemma first_done_connected l ids a fd tid :
  a ∉ ids -> first_done (connected l a fd tid) (a :: ids) = first_done l ids.
Proof.
  intros Ha. cbn [first_done]. rewrite decide_False.
  - induction ids as [|b ids IH]; [done |]. apply not_elem_of_cons in Ha as [Hne Ha].
    cbn [first_done]. rewrite payloads_connected by done. case_decide; [done | by apply IH].
  - unfold payloads, connected. cbn. rewrite lookup_fmap, lookup_insert_eq. by cbn.
Qed.

(** The state after the first half of a turn. *)
Definition accepted (s : main_state) (fd : Z) (a : nat) (tid : option nat) : main_state :=
  mk_main (connected (head s) a fd tid)
    (if 0 <=? fd then {[fd]} ∪ open_fds s else open_fds s) (joined s) (socketDescriptor s) fd.

Lemma accept_insert_spec s fd a tid :
  accept_insert s fd (Some a) tid = Ret (accepted s fd a tid).
Proof.
  unfold accept_insert, SLIST_INSERT_HEAD, set_next, set_first, set_payload.
  cbn [head mbind outcome_bind nodes slh_first SLIST_FIRST joined].
  repeat (rewrite lookup_insert_eq; cbn [mbind outcome_bind nodes slh_first payload sle_next]).
  by rewrite !insert_insert_eq.
Qed.

(** The second half, on a well-formed list. *)
Lemma accept_reap_spec s ids :
  list_inv (head s) ids ->
  exists l' , accept_reap s = Ret (with_list l'
      (joined s ++ match first_done (head s) ids with
                   | Some b => [thread_id (head s) b] | None => [] end) s) /\
    list_inv l' (without (first_done (head s) ids) ids).
Proof.
  intros Hinv. unfold accept_reap.
  destruct (li_represents _ _ Hinv) as [Hs Hnd].
  rewrite (SLIST_FOREACH_spec reap_body ids); [| apply reap_body_goes_on | done |].
  2: { pose proof (segment_size _ _ _ _ Hs Hnd). lia. }
  destruct (visit_reap (head s) ids ids (joined s) Hinv) as (l2 & v & -> & Hinv2); [done |].
  by exists l2.
Qed.

Lemma accept_turn_spec s ids fd a tid :
  list_inv (head s) ids -> a ∉ ids ->
  exists s', accept_turn s fd (Some a) tid = Ret s' /\
    list_inv (head s') (a :: without (first_done (head s) ids) ids) /\
    joined s' = joined s ++
      match first_done (head s) ids with Some b => [thread_id (head s) b] | None => [] end /\
    open_fds s' = (if 0 <=? fd then {[fd]} ∪ open_fds s else open_fds s) /\
    socketDescriptor s' = socketDescriptor s /\ socketAcceptDescriptor s' = fd.
Proof.
  intros Hinv Ha. unfold accept_turn. rewrite accept_insert_spec. cbn [mbind outcome_bind].
  destruct (accept_reap_spec (accepted s fd a tid) (a :: ids)) as (l' & -> & Hinv');
    [by apply connected_inv |].
  cbn [accepted head joined] in Hinv' |- *. rewrite first_done_connected in Hinv' |- * by done.
  eexists. split; [done |]. split_and!; cbn [with_list head joined open_fds]; try done.
  - destruct (first_done (head s) ids) as [b|] eqn:E; [| done]. apply first_done_elem in E.
    cbn [without] in Hinv' |- *. rewrite filter_cons_True in Hinv'; [done |]. by intros ->.
  - destruct (first_done (head s) ids) as [b|] eqn:E; [| done]. apply first_done_elem in E.
    unfold thread_id. rewrite payloads_connected; [done |]. by intros ->.
Qed.

(** ** Runs of the main thread *)

(** What happens to the list: a connection accepted, a thread, which was created,
    setting [isDone]. *)
Inductive main_event : Type :=
| Accepted (fd : Z)
| ThreadDone (a : nat).

Inductive main_step : main_state -> main_event -> main_state -> Prop :=
| main_accept s fd a tid s' :
    nodes (head s) !! a = None -> accept_turn s fd (Some a) tid = Ret s' ->
    main_step s (Accepted fd) s'
| main_done s a d s' :
    payloads (head s) !! a = Some d -> is_Some (ID d) -> thread_done s a = Ret s' -> main_step s (ThreadDone a) s'.

Definition main_inv (s : main_state) : Prop := exists ids, list_inv (head s) ids.

Lemma configure_init_inv sock : main_inv (configure_init sock ∅).
Proof.
  exists []. split; [apply SLIST_INIT_spec | |].
  2: { intros a d. unfold payloads. rewrite lookup_fmap. cbn [configure_init head SLIST_INIT nodes].
       by rewrite lookup_empty. }
  intros a. cbn [configure_init head SLIST_INIT nodes]. rewrite lookup_empty, elem_of_nil. split; [by intros [] | done].
Qed.

Lemma segment_same_next (h : gmap nat (node ThreadsDef)) a n n' p ids q :
  h !! a = Some n -> sle_next n' = sle_next n -> segment h p ids q ->
  segment (<[a := n']> h) p ids q.
Proof.
  intros Ha Hn. revert p. induction ids as [|b ids IH]; intros p; cbn; [done |].
  intros (-> & m & Hm & Hs). split; [done |]. destruct (decide (b = a)) as [-> | Hne].
  - rewrite Ha in Hm. injection Hm as <-. exists n'. rewrite lookup_insert_eq, Hn.
    split; [done | by apply IH].
  - exists m. rewrite lookup_insert_ne by done. split; [done | by apply IH].
Qed.

Lemma thread_done_safe s ids a : list_inv (head s) ids -> a ∈ ids -> safe (thread_done s a).
Proof.
  intros Hinv [n Hn]%(li_all _ _ Hinv). unfold thread_done, set_payload. rewrite Hn. by eexists.
Qed.

Lemma thread_done_spec s ids a d :
  list_inv (head s) ids -> payloads (head s) !! a = Some d -> is_Some (ID d) ->
  exists s', thread_done s a = Ret s' /\ list_inv (head s') ids /\ joined s' = joined s /\
    open_fds s' = open_fds s.
Proof.
  intros [[Hs Hnd] Hall Hready] Hd Hid.
  assert (exists n, nodes (head s) !! a = Some n /\ payload n = d) as (n & Hn & <-).
  { unfold payloads in Hd. rewrite lookup_fmap in Hd. apply fmap_Some in Hd as (n & Hn & ->). by exists n. }
  assert (a ∈ ids) as Ha by (apply Hall; by eexists).
  unfold thread_done, set_payload. rewrite Hn. cbn [mbind outcome_bind].
  eexists. split; [done |]. split; [| done]. split; cbn.
  - split; [| done]. by eapply segment_same_next.
  - intros b. destruct (decide (b = a)) as [-> | Hne].
    + rewrite lookup_insert_eq. split; [done | by eexists].
    + by rewrite lookup_insert_ne, Hall.
  - unfold payloads. cbn. rewrite fmap_insert. apply map_Forall_insert_2; [| done].
    destruct (Hready a (payload n) (payloads_lookup _ _ _ Hn)) as (_ & _ & ?). by split; [eexists |].
Qed.

Lemma not_listed l ids a : list_inv l ids -> nodes l !! a = None -> a ∉ ids.
Proof. intros Hinv Hnone Hin%(li_all _ _ Hinv). rewrite Hnone in Hin. by destruct Hin. Qed.

Lemma main_step_inv s ev s' :
  main_step s ev s' -> main_inv s ->
  main_inv s' /\ open_fds s ⊆ open_fds s' /\
  match ev with Accepted fd => 0 <= fd -> fd ∈ open_fds s' | _ => True end.
Proof.
  intros Hstep [ids Hinv]. destruct Hstep as [s fd a tid s' Hnone Hacc | s a d s' Hd Hid Hdone].
  - destruct (accept_turn_spec s ids fd a tid Hinv (not_listed _ _ _ Hinv Hnone))
      as (s1 & Heq & Hinv' & _ & Hfds & _).
    rewrite Hacc in Heq. injection Heq as <-. split; [by eexists |]. rewrite Hfds.
    destruct (Z.leb_spec 0 fd); (split; [| intros ?]); [apply union_subseteq_r | | done | lia].
    by apply elem_of_union_l, elem_of_singleton.
  - destruct (thread_done_spec s ids a d Hinv Hd Hid) as (s1 & Heq & Hinv' & _ & Hfds).
    rewrite Hdone in Heq. injection Heq as <-. rewrite Hfds. split; [by eexists | done].
Qed.

Lemma main_run_inv s evs s' :
  run main_step s evs s' -> main_inv s ->
  main_inv s' /\ open_fds s ⊆ open_fds s' /\
  forall fd, Accepted fd ∈ evs -> 0 <= fd -> fd ∈ open_fds s'.
Proof.
  induction 1 as [s | s ev s1 evs s2 Hstep _ IH]; intros Hinv.
  { split_and!; [done.. | by intros fd ?%elem_of_nil]. }
  destruct (main_step_inv s ev s1 Hstep Hinv) as (Hinv1 & Hsub1 & Hev).
  destruct (IH Hinv1) as (Hinv2 & Hsub2 & Hevs). split_and!; [done | by transitivity (open_fds s1) |].
  intros fd [<- | Hin]%elem_of_cons Hfd; [by apply Hsub2, Hev | by apply Hevs].
Qed.

(** ** Shutting down *)

Lemma exit_body_breaks a st r : exit_body a st = Ret (inr r) -> False.
Proof.
  unfold exit_body. destruct st as [l s]. intros H.
  apply bind_Ret_inv in H as (d & _ & H). apply bind_Ret_inv in H as (fd & _ & H).
  by apply bind_Ret_inv in H as ([l' js] & _ & H).
Qed.

Definition thread_fd (l : slist ThreadsDef) (a : nat) : Z :=
  match payloads l !! a with Some d => default 0 (threadFD d) | None => 0 end.

(** Every node in the list has a thread, which [exitFunction] takes for granted. *)
Definition all_created (l : slist ThreadsDef) : Prop :=
  map_Forall (fun _ d => is_Some (ID d)) (payloads l).

Lemma exit_loop_spec ids s fuel :
  list_inv (head s) ids -> all_created (head s) -> (length ids <= fuel)%nat ->
  exists s', exit_loop fuel s = Ret s' /\ list_inv (head s') [] /\
    joined s' = joined s ++ (thread_id (head s) <$> ids) /\
    open_fds s' = open_fds s ∖ list_to_set (thread_fd (head s) <$> ids).
Proof.
  revert s fuel. induction ids as [|a ids IH]; intros s fuel Hinv Hall Hfuel.
  - exists s. assert (slh_first (head s) = None) as Hf by apply (li_represents _ _ Hinv).
    split_and!; [| done | by rewrite app_nil_r | by cbn; rewrite difference_empty_L].
    destruct fuel; cbn; unfold SLIST_FIRST; by rewrite Hf.
  - destruct fuel as [|fuel]; [cbn in Hfuel; lia |].
    destruct (li_represents _ _ Hinv) as [Hs Hnd]. pose proof Hs as [Hf _].
    pose proof (segment_size _ _ _ _ Hs Hnd) as Hsize.
    destruct (list_inv_payload _ _ a Hinv ltac:(in_list))
      as (d & Hg & Hd & Hdone & _ & [fd Hfd]).
    destruct (reap_node_spec (head s) [] a ids d (joined s) Hinv Hd (Hall a d Hd)) as (l' & Hr & Hinv' & Hp').
    assert (SLIST_FOREACH (S (size (nodes (head s)))) exit_body (SLIST_FIRST (head s)) (head s, s)
      = Ret (Some a, (l', with_list l' (joined s ++ [thread_id (head s) a]) (close_fd fd s)))) as Hloop.
    { rewrite (SLIST_FOREACH_spec exit_body (a :: ids)); [| | done | lia].
      - cbn [visit]. unfold exit_body. rewrite Hg. cbn [mbind outcome_bind]. rewrite Hfd.
        cbn [initialised mbind outcome_bind joined close_fd]. rewrite Hr. done.
      - intros b st st' Hb. by apply exit_body_breaks in Hb. }
    cbn [exit_loop]. rewrite Hloop. unfold SLIST_FIRST. rewrite Hf. cbn [mbind outcome_bind].
    apply NoDup_cons in Hnd as [Ha Hnd].
    destruct (IH (with_list l' (joined s ++ [thread_id (head s) a]) (close_fd fd s)) fuel)
      as (s' & Heq & Hempty & Hj & Ho);
      [done | unfold all_created; cbn; rewrite Hp'; by apply map_Forall_delete | cbn in Hfuel; lia |].
    exists s'. split; [done |]. split; [done |]. cbn [with_list head joined open_fds close_fd] in Hj, Ho.
    assert (forall b, b ∈ ids -> payloads l' !! b = payloads (head s) !! b) as Hsame.
    { intros b Hb. rewrite Hp', lookup_delete_ne; [done |]. by intros <-. }
    assert (thread_id l' <$> ids = thread_id (head s) <$> ids) as Hids.
    { apply list_fmap_ext. intros i b Hb%list_elem_of_lookup_2. unfold thread_id. by rewrite Hsame. }
    assert (thread_fd l' <$> ids = thread_fd (head s) <$> ids) as Hfds.
    { apply list_fmap_ext. intros i b Hb%list_elem_of_lookup_2. unfold thread_fd. by rewrite Hsame. }
    assert (thread_fd (head s) a = fd) as Hfda by (unfold thread_fd; by rewrite Hd, Hfd).
    rewrite Hj, Ho, Hids, Hfds, <- app_assoc. split; [done |].
    rewrite fmap_cons, Hfda. cbn [list_to_set]. apply difference_difference_l_L.
Qed.

(** ** The claims *)

(** One turn of the accept loop, on a well-formed list: the new connection's node
    becomes the head, its fields set before its thread exists; the most recent
    finished thread, if there is one, is joined, taken out of the list and freed,
    and no other node is touched; the turn never faults. *)
Theorem accept_turn_correct s ids fd a tid :
  list_inv (head s) ids -> a ∉ ids ->
  exists s', accept_turn s fd (Some a) tid = Ret s' /\
    match first_done (head s) ids with
    | Some b => list_inv (head s') (a :: filter (.≠ b) ids) /\
                joined s' = joined s ++ [thread_id (head s) b]
    | None => list_inv (head s') (a :: ids) /\ joined s' = joined s
    end.
Proof.
  intros Hinv Ha. destruct (accept_turn_spec s ids fd a tid Hinv Ha)
    as (s' & -> & Hinv' & Hj & _). exists s'. split; [done |].
  destruct (first_done (head s) ids); [done |]. by rewrite app_nil_r in Hj.
Qed.

(** Three connections, the second of which has finished. *)
Definition state_of (m : outcome main_state) : main_state :=
  match m with Ret s => s | _ => configure_init 3 ∅ end.

Definition returns (m : outcome main_state) : bool :=
  match m with Ret _ => true | _ => false end.

Lemma state_of_returns m : returns m = true -> m = Ret (state_of m).
Proof. by destruct m. Qed.

Definition connection1 := state_of (accept_turn (configure_init 3 ∅) 4 (Some 10%nat) (Some 100%nat)).
Definition connection2 := state_of (accept_turn connection1 5 (Some 11%nat) (Some 101%nat)).
Definition connection3 := state_of (accept_turn connection2 6 (Some 12%nat) (Some 102%nat)).
Definition three_connections := state_of (thread_done connection3 11%nat).

Lemma three_connections_run :
  run main_step (configure_init 3 ∅) [Accepted 4; Accepted 5; Accepted 6; ThreadDone 11]
    three_connections.
Proof.
  eapply run_cons; [| eapply run_cons; [| eapply run_cons; [| eapply run_cons; [| apply run_nil]]]].
  - apply (main_accept _ 4 10%nat (Some 100%nat) connection1); [by vm_compute |].
    apply state_of_returns. by vm_compute.
  - apply (main_accept _ 5 11%nat (Some 101%nat) connection2); [by vm_compute |].
    apply state_of_returns. by vm_compute.
  - apply (main_accept _ 6 12%nat (Some 102%nat) connection3); [by vm_compute |].
    apply state_of_returns. by vm_compute.
  - eapply (main_done _ 11%nat _ three_connections); [by vm_compute | by eexists |].
    apply state_of_returns. by vm_compute.
Qed.

Lemma three_connections_inv : list_inv (head three_connections) [12; 11; 10]%nat.
Proof.
  destruct (main_run_inv _ _ _ three_connections_run (configure_init_inv 3)) as ([ids Hinv] & _ & _).
  assert (ids = [12; 11; 10]%nat) as ->; [| done].
  assert (forall (h : gmap nat (node ThreadsDef)) p ids, segment h p ids None ->
    forall ids', segment h p ids' None -> ids = ids') as Huniq.
  { intros h p ids1. revert p. induction ids1 as [|a ids1 IH]; intros p Hs [|b ids2] Hs'; cbn in *.
    - done.
    - destruct Hs' as [Hp _]. by rewrite Hs in Hp.
    - destruct Hs as [Hp _]. by rewrite Hs' in Hp.
    - destruct Hs as (-> & n & Hn & Hs), Hs' as ([= ->] & n' & Hn' & Hs').
      rewrite Hn in Hn'. injection Hn' as <-. f_equal. by eapply IH. }
  eapply Huniq; [apply (li_represents _ _ Hinv) |].
  repeat (split; [by vm_compute |]; eexists; split; [by vm_compute |]). by vm_compute.
Qed.

Lemma accept_turn_correct_witness :
  exists s', accept_turn three_connections 7 (Some 13%nat) (Some 103%nat) = Ret s' /\
    match first_done (head three_connections) [12; 11; 10]%nat with
    | Some b => list_inv (head s') (13%nat :: filter (.≠ b) [12; 11; 10]%nat) /\
                joined s' = joined three_connections ++ [thread_id (head three_connections) b]
    | None => list_inv (head s') [13; 12; 11; 10]%nat /\ joined s' = joined three_connections
    end.
Proof.
  apply (accept_turn_correct three_connections [12; 11; 10]%nat 7 13%nat (Some 103%nat)
    three_connections_inv). apply (bool_decide_unpack _). by vm_compute.
Defined.

(** The main thread never leaves defined behaviour, and its list never loses a
    node: in every reachable state the nodes allocated and not freed are exactly
    those of the list, the next turn of the accept loop returns, and so does any
    thread's last write to its node. *)
Theorem accept_loop_safe sock evs s :
  run main_step (configure_init sock ∅) evs s ->
  exists ids, represents (head s) ids /\
    (forall a, is_Some (nodes (head s) !! a) <-> a ∈ ids) /\
    (forall fd a tid, nodes (head s) !! a = None -> safe (accept_turn s fd (Some a) tid)) /\
    (forall a, a ∈ ids -> safe (thread_done s a)).
Proof.
  intros Hrun. destruct (main_run_inv _ _ _ Hrun (configure_init_inv sock)) as ([ids Hinv] & _ & _).
  exists ids. split_and!; [apply Hinv | apply Hinv | |].
  - intros fd a tid Hnone.
    destruct (accept_turn_spec s ids fd a tid Hinv (not_listed _ _ _ Hinv Hnone)) as (s' & -> & _).
    by eexists.
  - intros a Ha. by eapply thread_done_safe.
Qed.

Lemma accept_loop_safe_witness :
  exists ids, represents (head three_connections) ids /\
    (forall a, is_Some (nodes (head three_connections) !! a) <-> a ∈ ids) /\
    (forall fd a tid, nodes (head three_connections) !! a = None ->
       safe (accept_turn three_connections fd (Some a) tid)) /\
    (forall a, a ∈ ids -> safe (thread_done three_connections a)).
Proof. exact (accept_loop_safe 3 _ _ three_connections_run). Defined.

(** The descriptor of a connection is never closed, not even when its thread has
    been joined and its node freed: whatever happens, every descriptor [accept] has
    returned stays open, so the process runs out of them. *)
Theorem accepted_descriptors_stay_open sock evs s fd :
  run main_step (configure_init sock ∅) evs s -> Accepted fd ∈ evs -> 0 <= fd ->
  fd ∈ open_fds s.
Proof.
  intros Hrun Hin Hfd.
  destruct (main_run_inv _ _ _ Hrun (configure_init_inv sock)) as (_ & _ & Hall). by apply Hall.
Qed.

Lemma accepted_descriptors_stay_open_witness : 5 ∈ open_fds three_connections.
Proof.
  apply (accepted_descriptors_stay_open 3 _ _ 5 three_connections_run); [| by clear].
  in_list.
Defined.

(** When all its threads were created, [exitFunction] ends, joins every thread in the list, closes the connection of
    each and the three descriptors of the server, and leaves the list empty with no
    node allocated. *)
Theorem exitFunction_correct fileDescriptor s ids :
  list_inv (head s) ids -> all_created (head s) ->
  exists s', exitFunction fileDescriptor s = Ret s' /\
    SLIST_EMPTY (head s') = true /\ (forall a, nodes (head s') !! a = None) /\
    joined s' = joined s ++ (thread_id (head s) <$> ids) /\
    open_fds s' = open_fds s ∖ {[fileDescriptor; socketAcceptDescriptor s; socketDescriptor s]}
                    ∖ list_to_set (thread_fd (head s) <$> ids).
Proof.
  intros Hinv Hall. pose proof (li_represents _ _ Hinv) as [Hs Hnd].
  set (s0 := close_fd (socketDescriptor s) (close_fd (socketAcceptDescriptor s)
               (close_fd fileDescriptor s))).
  destruct (exit_loop_spec ids s0 (size (nodes (head s0)))) as (s' & Heq & Hempty & Hj & Ho);
    [exact Hinv | exact Hall | exact (segment_size _ _ _ _ Hs Hnd) |].
  exists s'. split; [exact Heq |]. split_and!.
  - by rewrite (SLIST_EMPTY_spec _ _ (li_represents _ _ Hempty)).
  - intros a. destruct (nodes (head s') !! a) eqn:E; [| done].
    assert (a ∈ ([] : list nat)) as []%elem_of_nil by (apply (li_all _ _ Hempty); by rewrite E).
  - exact Hj.
  - rewrite Ho. cbn [s0 close_fd open_fds head socketDescriptor socketAcceptDescriptor].
    by rewrite !difference_difference_l_L, !(assoc_L (∪)).
Qed.

Lemma exitFunction_correct_witness :
  exists s', exitFunction 9 three_connections = Ret s' /\
    SLIST_EMPTY (head s') = true /\ (forall a, nodes (head s') !! a = None) /\
    joined s' = joined three_connections ++ (thread_id (head three_connections) <$> [12; 11; 10]%nat) /\
    open_fds s' = open_fds three_connections
      ∖ {[9; socketAcceptDescriptor three_connections; socketDescriptor three_connections]}
      ∖ list_to_set (thread_fd (head three_connections) <$> [12; 11; 10]%nat).
Proof.
  apply (exitFunction_correct 9 three_connections _ three_connections_inv).
  apply (bool_decide_unpack _). by vm_compute.
Defined.

(** The signal handler removes the data file whatever it is: built for the character
    device, it removes the device node. *)
Lemma signal_removes_device s :
  Unlink "/dev/aesdchar" ∈ signalHandler (dataFile_path 1) s SIGTERM.
Proof. cbn. in_list. Qed.
