(* ===== verification/SocketProcess.v ===== *)
(** The life of the server process ([main], [ConfigureSocket] and [signalHandler] of
    [server/aesdsocket.c]): the calls that set it up, the accept loop, and the signal
    that ends it, which can arrive at any point and is handled in the main thread or
    in another; signals without a handler whose default action ends the process, and
    steps that are undefined, end it too. The accept loop takes one step for [accept] with the insertion and
    one for the reaping; [SocketSystem] has them in detail. *)

From Stdlib Require Import String.
From S2P Require Import Prelude CMem SList SocketMain SocketMainProps.

(** ** The program points of the main thread, by the call made there *)

Inductive instr : Type :=
| ISignal (signum : Z)   (* signal(signum, signalHandler) *)
| IMutexInit
| IFlag                  (* strcmp("-d", argv[1]), daemonFlag = 1 *)
| IListInit
| IGetaddrinfo
| ISocket
| ISetsockopt
| IBind
| ICreat
| ICloseFile
| IFreeaddrinfo
| IDaemon
| ITest                  (* doneFlag == false *)
| IListen
| IAccept                (* accept, malloc, SLIST_INSERT_HEAD, pthread_create *)
| IReap                  (* the SLIST_FOREACH loop *)
| ICloseAccept
| ICloseSocket
| ICloselog
| IReturn.

Definition SIGPIPE : Z := 13.

Definition MAX_BACKLOG : Z := 10.
Definition port : string := "9000".

(** What follows a call. [main] makes the calls up to [IFlag] and from [ICloselog] on,
    [ConfigureSocket] the others; the accept loop goes on while [doneFlag] is false. *)
Definition next_instr (done : bool) (i : instr) : instr :=
  match i with
  | ISignal n =>
      if n =? SIGINT then ISignal SIGTERM
      else if n =? SIGTERM then ISignal SIGKILL else IMutexInit
  | IMutexInit => IFlag
  | IFlag => IListInit
  | IListInit => IGetaddrinfo
  | IGetaddrinfo => ISocket
  | ISocket => ISetsockopt
  | ISetsockopt => IBind
  | IBind => ICreat
  | ICreat => ICloseFile
  | ICloseFile => IFreeaddrinfo
  | IFreeaddrinfo => IDaemon
  | IDaemon => ITest
  | ITest => if done then ICloseAccept else IListen
  | IListen => IAccept
  | IAccept => IReap
  | IReap => ITest
  | ICloseAccept => ICloseSocket
  | ICloseSocket => ICloselog
  | ICloselog | IReturn => IReturn
  end.

(** The calls of [signalHandler], in their order. *)
Inductive hstep : Type := HShutdown | HDone | HUnlink | HCloseAccept | HCloseSocket | HExit.

#[global] Instance hstep_eq_dec : EqDecision hstep.
Proof. solve_decision. Defined.

(** ** The process and what the system keeps of it *)

Section Process.
(** [addr_of p] is the address [getaddrinfo(NULL, p, &hints, _)] gives, for the
    hints set in [ConfigureSocket]; [argv] are the arguments of [main]. *)
Context {A : Type} (addr_of : string -> A) (argv : list string).

(** A socket: the option [SO_REUSEADDR], the address, the backlog of [listen]. *)
Record sock : Type := mk_sock {
  s_reuse : bool;
  s_bound : option A;
  s_listening : option Z;
}.

(** The globals. [g_main] holds the list, the two socket descriptors, and the
    descriptors the process has open. *)
Record globals : Type := mk_globals {
  g_main : main_state;
  fileDescriptor : Z;
  g_daemonFlag : Z;
  doneFlag : bool;
}.

(** What the system keeps: the signals [signalHandler] is installed for, the
    process's sockets, whether the data file exists, whether the process has
    detached from its terminal. *)
Record osys : Type := mk_os {
  o_handlers : gset Z;
  o_socks : gmap Z sock;
  o_file : bool;
  o_background : bool;
}.

Definition handler_steps (signalNumber : Z) : list hstep :=
  if (signalNumber =? SIGINT) || (signalNumber =? SIGTERM) || (signalNumber =? SIGKILL)
  then [HShutdown; HDone; HUnlink; HCloseAccept; HCloseSocket; HExit] else [].

(** How the process ended: with a status, by the default action of a signal, or in a
    step whose behaviour is undefined, after which nothing is said of it. *)
Inductive ending : Type :=
| Exited (status : Z)
| Killed (sig : Z)
| Undefined (f : fault).

(** The signals whose default action ends a process: all that Linux has, but for
    [SIGCHLD], [SIGCONT], [SIGSTOP], [SIGTSTP], [SIGTTIN], [SIGTTOU], [SIGURG] and
    [SIGWINCH]. *)
Definition ends_by_default (sig : Z) : bool :=
  (1 <=? sig) && (sig <=? 64) && negb (bool_decide (sig ∈ [17; 18; 19; 20; 21; 22; 23; 28])).

(** [lf_pc] is the call the main thread makes next; [lf_res] the variable [res],
    [None] while it is indeterminate or freed. [lf_handlers] are the executions of
    [signalHandler] in progress, the latest first, each with the thread it
    interrupted ([None] for the main thread, else its identifier) and what it has
    left to do. *)
Record life : Type := mk_life {
  lf_pc : instr;
  lf_res : option A;
  lf_glob : globals;
  lf_os : osys;
  lf_handlers : list (option nat * list hstep);
  lf_end : option ending;
}.

Definition set_g_main m g := mk_globals m (fileDescriptor g) (g_daemonFlag g) (doneFlag g).
Definition set_file fd g := mk_globals (g_main g) fd (g_daemonFlag g) (doneFlag g).
Definition set_daemonFlag v g := mk_globals (g_main g) (fileDescriptor g) v (doneFlag g).
Definition set_doneFlag v g := mk_globals (g_main g) (fileDescriptor g) (g_daemonFlag g) v.
Definition set_open fds m :=
  mk_main (head m) fds (joined m) (socketDescriptor m) (socketAcceptDescriptor m).
Definition set_socket fd m :=
  mk_main (head m) (open_fds m) (joined m) fd (socketAcceptDescriptor m).
Definition set_socks sks o := mk_os (o_handlers o) sks (o_file o) (o_background o).
Definition set_o_file b o := mk_os (o_handlers o) (o_socks o) b (o_background o).

(** A new descriptor, if the call gave one. *)
Definition opened (fd : Z) (m : main_state) : main_state :=
  if 0 <=? fd then set_open ({[fd]} ∪ open_fds m) m else m.

(** [close(fd)] *)
Definition close_both (fd : Z) (g : globals) (o : osys) : globals * osys :=
  (set_g_main (close_fd fd (g_main g)) g, set_socks (delete fd (o_socks o)) o).

Definition update_sock (fd : Z) (f : sock -> sock) (o : osys) : osys :=
  set_socks (alter f fd (o_socks o)) o.

(** What the system answers a call: the value returned and, for [IAccept], the node
    [malloc] gives and the thread identifier [pthread_create] stores, if it creates the
    thread. *)
Record answer : Type := mk_answer {
  a_ret : Z;
  a_node : option nat;
  a_tid : option nat;
}.

(** A call of the main thread; [IFlag] is the if of [main], [IDaemon] that of
    [ConfigureSocket]. [IReap] waits in [pthread_join] when it joins. *)
Definition exec (i : instr) (ans : answer) (res : option A) (g : globals) (o : osys)
    : outcome (option A * globals * osys) :=
  let r := a_ret ans in
  let m := g_main g in
  match i with
  | ISignal n =>
      Ret (res, g, mk_os (if n =? SIGKILL then o_handlers o else {[n]} ∪ o_handlers o)
                     (o_socks o) (o_file o) (o_background o))
  | IMutexInit | ITest | ICloselog | IReturn => Ret (res, g, o)
  | IFlag => Ret (res, if daemonFlag argv then set_daemonFlag 1 g else g, o)
  | IListInit =>
      Ret (res, set_g_main (with_list (SLIST_INIT (head m)) (joined m) m) g, o)
  | IGetaddrinfo => Ret (if r =? 0 then Some (addr_of port) else None, g, o)
  | ISocket =>
      Ret (res, set_g_main (set_socket r (opened r m)) g,
           if 0 <=? r then set_socks (<[r := mk_sock false None None]> (o_socks o)) o else o)
  | ISetsockopt =>
      Ret (res, g, if r =? 0 then update_sock (socketDescriptor m)
                     (fun s => mk_sock true (s_bound s) (s_listening s)) o else o)
  | IBind =>
      match res with
      | None => Fault Uninitialised
      | Some a =>
          Ret (res, g, if r =? 0 then update_sock (socketDescriptor m)
                         (fun s => mk_sock (s_reuse s) (Some a) (s_listening s)) o else o)
      end
  | ICreat =>
      Ret (res, set_file r (set_g_main (opened r m) g), if 0 <=? r then set_o_file true o else o)
  | ICloseFile => let '(g, o) := close_both (fileDescriptor g) g o in Ret (res, g, o)
  | IFreeaddrinfo =>
      match res with None => Fault Uninitialised | Some _ => Ret (None, g, o) end
  | IDaemon =>
      Ret (res, g, if (g_daemonFlag g =? 1) && (r =? 0)
                   then mk_os (o_handlers o) (o_socks o) (o_file o) true else o)
  | IListen =>
      Ret (res, g, if r =? 0 then update_sock (socketDescriptor m)
                     (fun s => mk_sock (s_reuse s) (s_bound s) (Some MAX_BACKLOG)) o else o)
  | IAccept =>
      m ← accept_insert m r (a_node ans) (a_tid ans); Ret (res, set_g_main m g, o)
  | IReap => m ← accept_reap m; Ret (res, set_g_main m g, o)
  | ICloseAccept => let '(g, o) := close_both (socketAcceptDescriptor m) g o in Ret (res, g, o)
  | ICloseSocket => let '(g, o) := close_both (socketDescriptor m) g o in Ret (res, g, o)
  end.

(** What the system may answer. A new descriptor is one the process does not have
    open, and a new node is not in use; a call on the socket succeeds only if there
    is one, and [accept] only if it listens. *)
Definition socket_is (P : sock -> bool) (g : globals) (o : osys) : bool :=
  match o_socks o !! socketDescriptor (g_main g) with Some s => P s | None => false end.

Definition new_fd (fd : Z) (g : globals) : bool :=
  (fd =? -1) || ((0 <=? fd) && bool_decide (fd ∉ open_fds (g_main g))).

Definition answer_ok (i : instr) (ans : answer) (g : globals) (o : osys) : bool :=
  match i with
  | ISocket | ICreat => new_fd (a_ret ans) g
  | ISetsockopt | IBind | IListen => negb (a_ret ans =? 0) || socket_is (fun _ => true) g o
  | IAccept =>
      new_fd (a_ret ans) g &&
      ((a_ret ans =? -1) || socket_is (fun s => bool_decide (is_Some (s_listening s))) g o) &&
      match a_node ans with
      | Some a => bool_decide (nodes (head (g_main g)) !! a = None)
      | None => true
      end
  | _ => true
  end.

(** One call of [signalHandler], on the globals as they are when it is made. A
    socket that is shut down does not listen any more. *)
Definition handler_step (st : hstep) (g : globals) (o : osys) : globals * osys :=
  match st with
  | HShutdown =>
      (g, update_sock (socketDescriptor (g_main g))
            (fun s => mk_sock (s_reuse s) (s_bound s) None) o)
  | HDone => (set_doneFlag true g, o)
  | HUnlink => (g, set_o_file false o)
  | HCloseAccept => close_both (socketAcceptDescriptor (g_main g)) g o
  | HCloseSocket => close_both (socketDescriptor (g_main g)) g o
  | HExit => (g, o)
  end.

(** A connection thread still at work: its node is in memory and not done, and it is
    not stopped by a handler. *)
Definition thread_running (s : life) (a : nat) : Prop :=
  exists n t, nodes (head (g_main (lf_glob s))) !! a = Some n /\
    isDone (payload n) = Some false /\ ID (payload n) = Some t /\
    Some t ∉ (lf_handlers s).*1.

(** One that has a connection: when [accept] has failed, all its thread can do is fail
    in [recv]. *)
Definition thread_serving (s : life) (a : nat) : Prop :=
  thread_running s a /\
  exists n fd, nodes (head (g_main (lf_glob s))) !! a = Some n /\
    threadFD (payload n) = Some fd /\ 0 <= fd.

(** The threads a signal can be delivered to. *)
Definition thread_exists (s : life) (who : option nat) : Prop :=
  match who with
  | None => True
  | Some t => exists a n, nodes (head (g_main (lf_glob s))) !! a = Some n /\ ID (payload n) = Some t
  end.

Inductive label : Type :=
| LMain (i : instr) (ans : answer)
| LSignal (sig : Z) (who : option nat)
| LHandler (who : option nat) (st : hstep)
| LDone (a : nat)
| LOpen (a : nat)
| LRecvFails (a : nat)
| LSendBroken (a : nat)
| LMainFaults (i : instr) (ans : answer) (f : fault)
| LThreadFaults (a : nat) (f : fault).

(** A step of the process: a call of the main thread; a signal, for which
    [signalHandler] starts or which ends the process; a call of the latest handler
    of some thread; a connection thread setting [isDone], opening the data file,
    which creates it, or ending the process: because [recv] failed, or because the
    client is gone when it calls [send], which raises [SIGPIPE]; or a step with
    undefined behaviour, of the main thread or of another. *)
Inductive life_step : life -> label -> life -> Prop :=
| life_main pc res g o hs ans res' g' o' :
    None ∉ hs.*1 -> answer_ok pc ans g o = true -> exec pc ans res g o = Ret (res', g', o') ->
    life_step (mk_life pc res g o hs None) (LMain pc ans)
      (mk_life (next_instr (doneFlag g) pc) res' g' o' hs
         match pc with IReturn => Some (Exited 0) | _ => None end)
| life_signal pc res g o hs sig who :
    sig ∈ o_handlers o -> thread_exists (mk_life pc res g o hs None) who ->
    life_step (mk_life pc res g o hs None) (LSignal sig who)
      (mk_life pc res g o ((who, handler_steps sig) :: hs) None)
| life_killed pc res g o hs sig who :
    ends_by_default sig = true -> sig ∉ o_handlers o ->
    life_step (mk_life pc res g o hs None) (LSignal sig who)
      (mk_life pc res g o hs (Some (Killed sig)))
| life_handler pc res g o hs1 who st rest hs2 g' o' :
    who ∉ hs1.*1 -> handler_step st g o = (g', o') ->
    life_step (mk_life pc res g o (hs1 ++ (who, st :: rest) :: hs2) None) (LHandler who st)
      (mk_life pc res g' o' (hs1 ++ (who, rest) :: hs2)
         match st with HExit => Some (Exited 0) | _ => None end)
| life_done pc res g o hs a m :
    thread_serving (mk_life pc res g o hs None) a -> thread_done (g_main g) a = Ret m ->
    life_step (mk_life pc res g o hs None) (LDone a)
      (mk_life pc res (set_g_main m g) o hs None)
| life_open pc res g o hs a :
    thread_serving (mk_life pc res g o hs None) a ->
    life_step (mk_life pc res g o hs None) (LOpen a)
      (mk_life pc res g (set_o_file true o) hs None)
| life_recv_fails pc res g o hs a :
    thread_running (mk_life pc res g o hs None) a ->
    life_step (mk_life pc res g o hs None) (LRecvFails a)
      (mk_life pc res g o hs (Some (Exited 1)))
| life_send_broken pc res g o hs a :
    thread_serving (mk_life pc res g o hs None) a -> SIGPIPE ∉ o_handlers o ->
    life_step (mk_life pc res g o hs None) (LSendBroken a)
      (mk_life pc res g o hs (Some (Killed SIGPIPE)))
| life_main_faults pc res g o hs ans f :
    None ∉ hs.*1 -> answer_ok pc ans g o = true -> exec pc ans res g o = Fault f ->
    life_step (mk_life pc res g o hs None) (LMainFaults pc ans f)
      (mk_life pc res g o hs (Some (Undefined f)))
| life_thread_faults pc res g o hs a f :
    thread_running (mk_life pc res g o hs None) a ->
    life_step (mk_life pc res g o hs None) (LThreadFaults a f)
      (mk_life pc res g o hs (Some (Undefined f))).

(** The process at the start of [main], with the globals as they are initialised
    and the descriptors [fds] inherited. *)
Definition life_init (fds : gset Z) (file : bool) : life :=
  mk_life (ISignal SIGINT) None
    (mk_globals (mk_main (mk_slist None ∅) fds [] 0 0) 0 0 false)
    (mk_os ∅ ∅ file false) [] None.
End Process.
