(* ===== verification/SocketProcessProps.v ===== *)
(** The properties of the server process's life: what is true when it waits for a
    connection, that its main thread never leaves defined behaviour while the calls
    of the set-up succeed, the ways it can end, and what a signal leads to. *)

From Stdlib Require Import String.
From S2P Require Import Prelude CMem SList SocketMain SocketMainProps SocketProcess.

(** How far [main] has come; the accept loop is 14 to 17. *)
Definition rank (i : instr) : Z :=
  match i with
  | ISignal n => if n =? SIGINT then 0 else if n =? SIGTERM then 1 else 2
  | IMutexInit => 3 | IFlag => 4 | IListInit => 5 | IGetaddrinfo => 6 | ISocket => 7
  | ISetsockopt => 8 | IBind => 9 | ICreat => 10 | ICloseFile => 11
  | IFreeaddrinfo => 12 | IDaemon => 13 | ITest => 14 | IListen => 15 | IAccept => 16
  | IReap => 17 | ICloseAccept => 18 | ICloseSocket => 19 | ICloselog => 20 | IReturn => 21
  end.

(** The signals the handler is installed for at that point. *)
Definition installed (r : Z) : gset Z :=
  (if 1 <=? r then {[SIGINT]} else ∅) ∪ (if 2 <=? r then {[SIGTERM]} else ∅).

Lemma installed_all r : 2 <= r -> installed r = {[SIGINT]} ∪ {[SIGTERM]}.
Proof.
  intros. unfold installed. by rewrite !(proj2 (Z.leb_le _ _)) by lia.
Qed.

(** The only signals [main] names. *)
Definition pc_ok (i : instr) : Prop :=
  match i with ISignal n => n = SIGINT \/ n = SIGTERM \/ n = SIGKILL | _ => True end.

Lemma next_pc_ok done i : pc_ok i -> pc_ok (next_instr done i).
Proof. destruct i; cbn; try (by destruct done); [| done..]. intros [-> | [-> | ->]]; cbn; auto. Qed.

(** The calls of the handler are the effects of [signalHandler], when nothing else
    runs in between. *)
Definition effect_of (path : string) (m : main_state) (st : hstep) : effect :=
  match st with
  | HShutdown => Shutdown (socketDescriptor m)
  | HDone => SetDone
  | HUnlink => Unlink path
  | HCloseAccept => Close (socketAcceptDescriptor m)
  | HCloseSocket => Close (socketDescriptor m)
  | HExit => ExitNow 0
  end.

Lemma handler_steps_effects path m sig :
  signalHandler path m sig = effect_of path m <$> handler_steps sig.
Proof. unfold signalHandler, handler_steps. by destruct (_ || _). Qed.

Section Process.
Context {A : Type} (addr_of : string -> A) (argv : list string).

Abbreviation life := (life (A := A)).
Abbreviation life_step := (life_step addr_of argv).
Abbreviation exec := (exec addr_of argv).

(** A call that succeeds, of those that can fail in the set-up and of [malloc];
    [accept] and [pthread_create] may fail. *)
Definition went_well (l : label) : Prop :=
  match l with
  | LMain (IGetaddrinfo | ISetsockopt | IBind | IListen | IDaemon) ans => a_ret ans = 0
  | LMain (ISocket | ICreat) ans => 0 <= a_ret ans
  | LMain IAccept ans => is_Some (a_node ans)
  | _ => True
  end.

(** ** While no signal has arrived *)

(** The socket of the server at a point of the set-up. *)
Definition socket_at (r : Z) (g : globals) (o : osys) : Prop :=
  let fd := socketDescriptor (g_main g) in
  0 <= fd /\ fd ∈ open_fds (g_main g) /\
  exists lst, o_socks o !! fd =
      Some (mk_sock (9 <=? r) (if 10 <=? r then Some (addr_of port) else None) lst) /\
    (16 <= r -> lst = Some MAX_BACKLOG).

Record ready (pc : instr) (res : option A) (g : globals) (o : osys) : Prop := {
  rd_pc : pc_ok pc;
  rd_loop : rank pc <= 17;
  rd_done : doneFlag g = false;
  rd_signals : o_handlers o = installed (rank pc);
  rd_daemon : g_daemonFlag g = if (5 <=? rank pc) && daemonFlag argv then 1 else 0;
  rd_res : 7 <= rank pc <= 12 -> res = Some (addr_of port);
  rd_sock : 8 <= rank pc -> socket_at (rank pc) g o;
  rd_fd : rank pc = 11 -> fileDescriptor g <> socketDescriptor (g_main g);
  rd_file : 11 <= rank pc -> o_file o = true;
  rd_background : o_background o = (14 <=? rank pc) && daemonFlag argv;
  rd_start : rank pc < 14 -> head (g_main g) = mk_slist None ∅;
  rd_list : exists ids, list_inv (head (g_main g)) ids;
}.

Lemma ready_init fds file :
  ready (ISignal SIGINT) None (lf_glob (life_init (A := A) fds file)) (lf_os (life_init (A := A) fds file)).
Proof.
  split; cbn; try done; try lia; try (by left).
  exact (configure_init_inv 0).
Qed.

Lemma new_fd_spec fd (g : globals) :
  new_fd fd g = true -> fd = -1 \/ 0 <= fd /\ fd ∉ open_fds (g_main g).
Proof.
  unfold new_fd. destruct (Z.eqb_spec fd (-1)); [by left |]. cbn.
  intros [? ?%bool_decide_eq_true]%andb_prop. right. lia || (split; [lia | done]).
Qed.

Lemma no_connections : list_inv (mk_slist None ∅) [].
Proof.
  split; [split; [done | constructor] | |].
  - intros a. cbn. rewrite lookup_empty, elem_of_nil. split; [by intros [] | done].
  - intros a d. unfold payloads. cbn. by rewrite fmap_empty, lookup_empty.
Qed.

(** Solves the fields of [ready] that a call leaves as they were, its point being
    known. *)
Ltac ready_fields :=
  split; cbn in *; try done; try lia; try (intros; lia); auto;
  try (intros; match goal with H : _ -> ?G |- ?G => apply H; lia end);
  try (etrans; [eassumption | by rewrite ?installed_all by lia]).

Lemma ready_signal n res g o ans :
  ready (ISignal n) res g o ->
  exists res' g' o', exec (ISignal n) ans res g o = Ret (res', g', o') /\
    ready (next_instr (doneFlag g) (ISignal n)) res' g' o'.
Proof.
  intros [Hpc Hloop Hdone Hsig Hd Hres Hsock Hfd Hfile Hbg Hstart Hlist].
  destruct Hpc as [-> | [-> | ->]]; (eexists _, _, _; split; [reflexivity |]);
    ready_fields; rewrite Hsig; unfold installed; cbn; set_solver.
Qed.

(** The calls before there is a socket. *)
Lemma ready_before_socket pc res g o ans :
  3 <= rank pc <= 6 -> ready pc res g o -> went_well (LMain pc ans) ->
  exists res' g' o', exec pc ans res g o = Ret (res', g', o') /\
    ready (next_instr (doneFlag g) pc) res' g' o'.
Proof.
  intros Hr [Hpc Hloop Hdone Hsig Hd Hres Hsock Hfd Hfile Hbg Hstart Hlist] Hwell.
  destruct pc; cbn in Hr; try lia; try (repeat case_match; lia).
  - eexists _, _, _; split; [reflexivity |]. ready_fields.
  - eexists _, _, _; split; [reflexivity |]. cbn in *.
    destruct (daemonFlag argv) eqn:E; ready_fields; by rewrite E.
  - eexists _, _, _; split; [reflexivity |]. ready_fields; rewrite Hstart by lia; cbn; [done |].
    exists []. exact no_connections.
  - cbn in Hwell. eexists _, _, _; split; [cbn; rewrite Hwell; reflexivity |]. ready_fields.
Qed.

(** [socket], [setsockopt], [bind] and [creat]. *)
Lemma ready_open_socket res g o ans :
  ready ISocket res g o -> answer_ok ISocket ans g o = true -> 0 <= a_ret ans ->
  exists res' g' o', exec ISocket ans res g o = Ret (res', g', o') /\
    ready (next_instr (doneFlag g) ISocket) res' g' o'.
Proof.
  intros [Hpc Hloop Hdone Hsig Hd Hres Hsock Hfd Hfile Hbg Hstart Hlist] Hok Hwell.
  apply new_fd_spec in Hok. unfold exec, SocketProcess.exec, opened.
  rewrite (proj2 (Z.leb_le _ _)) by lia. eexists _, _, _; split; [reflexivity |].
  ready_fields. intros _. split_and!; cbn; [lia | set_solver |].
  eexists. rewrite lookup_insert_eq. split; [done | lia].
Qed.

Lemma ready_configure_socket pc res g o ans :
  pc = ISetsockopt \/ pc = IBind \/ pc = IListen -> ready pc res g o -> a_ret ans = 0 ->
  exists res' g' o', exec pc ans res g o = Ret (res', g', o') /\
    ready (next_instr (doneFlag g) pc) res' g' o'.
Proof.
  intros Hcase [Hpc Hloop Hdone Hsig Hd Hres Hsock Hfd Hfile Hbg Hstart Hlist] Hwell.
  destruct Hcase as [-> | [-> | ->]]; cbn in *.
  2: rewrite (Hres ltac:(lia)).
  all: rewrite Hwell; eexists _, _, _; split; [reflexivity |].
  all: destruct (Hsock ltac:(lia)) as (H0 & Hin & lst & Hs & Hl); ready_fields.
  all: intros _; split_and!; [done.. |]; cbn; rewrite lookup_alter_eq, Hs; eexists; split; done || lia.
Qed.

Lemma ready_creat res g o ans :
  ready ICreat res g o -> answer_ok ICreat ans g o = true -> 0 <= a_ret ans ->
  exists res' g' o', exec ICreat ans res g o = Ret (res', g', o') /\
    ready (next_instr (doneFlag g) ICreat) res' g' o'.
Proof.
  intros [Hpc Hloop Hdone Hsig Hd Hres Hsock Hfd Hfile Hbg Hstart Hlist] Hok Hwell.
  apply new_fd_spec in Hok. unfold exec, SocketProcess.exec, opened.
  rewrite (proj2 (Z.leb_le _ _)) by lia. eexists _, _, _; split; [reflexivity |].
  destruct (Hsock ltac:(by cbn)) as (H0 & Hin & lst & Hs & Hl). ready_fields.
  - intros _. split_and!; [done | set_solver |]. exists lst. split; [done | lia].
  - intros _ E. destruct Hok as [? | [_ Hni]]; [lia |]. by rewrite E in Hni.
Qed.

Lemma ready_after_creat pc res g o ans :
  11 <= rank pc <= 13 -> ready pc res g o -> went_well (LMain pc ans) ->
  exists res' g' o', exec pc ans res g o = Ret (res', g', o') /\
    ready (next_instr (doneFlag g) pc) res' g' o'.
Proof.
  intros Hr [Hpc Hloop Hdone Hsig Hd Hres Hsock Hfd Hfile Hbg Hstart Hlist] Hwell.
  destruct (Hsock ltac:(lia)) as (H0 & Hin & lst & Hs & Hl).
  destruct pc; cbn in Hr; try lia; try (repeat case_match; lia).
  - eexists _, _, _; split; [reflexivity |]. cbn in Hfd. specialize (Hfd eq_refl).
    ready_fields. intros _. split_and!; cbn; [done | set_solver |].
    exists lst. rewrite lookup_delete_ne by done. split; [done | lia].
  - eexists _, _, _; split; [cbn; rewrite Hres by (cbn; lia); reflexivity |]. ready_fields.
  - cbn in Hwell, Hd. eexists _, _, _; split; [reflexivity |]. rewrite Hwell, Hd.
    destruct (daemonFlag argv) eqn:E; ready_fields; by rewrite E, ?Hbg.
Qed.

(** The accept loop. *)
Lemma ready_accept_loop pc res g o ans :
  14 <= rank pc -> ready pc res g o -> answer_ok pc ans g o = true -> went_well (LMain pc ans) ->
  exists res' g' o', exec pc ans res g o = Ret (res', g', o') /\
    ready (next_instr (doneFlag g) pc) res' g' o'.
Proof.
  intros Hr Hready Hok Hwell. pose proof (rd_loop _ _ _ _ Hready) as Hloop.
  destruct pc; cbn in Hr, Hloop; try lia; try (repeat case_match; lia).
  - destruct Hready as [Hpc _ Hdone Hsig Hd Hres Hsock Hfd Hfile Hbg Hstart Hlist].
    eexists _, _, _; split; [reflexivity |]. cbn [next_instr]. rewrite Hdone. ready_fields.
  - apply ready_configure_socket; auto.
  - destruct Hready as [Hpc _ Hdone Hsig Hd Hres Hsock Hfd Hfile Hbg Hstart [ids Hids]].
    destruct Hwell as [a Ha]. cbn in Hok. rewrite Ha in Hok.
    apply andb_prop in Hok as [_ Hnone%bool_decide_eq_true].
    cbn. rewrite Ha, accept_insert_spec. eexists _, _, _; split; [reflexivity |].
    destruct (Hsock ltac:(by cbn)) as (H0 & Hin & lst & Hs & Hl). ready_fields.
    + intros _. split; [done |]. split.
      * unfold accepted. cbn. by destruct (0 <=? a_ret ans); [apply elem_of_union_r |].
      * exists lst. split; [exact Hs | intros _; by apply Hl].
    + exists (a :: ids). apply connected_inv; [done |]. by eapply not_listed.
  - destruct Hready as [Hpc _ Hdone Hsig Hd Hres Hsock Hfd Hfile Hbg Hstart [ids Hids]].
    destruct (accept_reap_spec (g_main g) ids Hids) as (l' & Heq & Hinv).
    unfold SocketProcess.exec. rewrite Heq. eexists _, _, _; split; [reflexivity |]. ready_fields.
    + intros _. destruct (Hsock ltac:(by cbn)) as (H0 & Hin & lst & Hs & _).
      split_and!; [done.. |]. exists lst. split; [done | lia].
    + by eexists.
Qed.

(** Every call of the main thread that goes well returns. *)
Lemma ready_exec pc res g o ans :
  ready pc res g o -> answer_ok pc ans g o = true -> went_well (LMain pc ans) ->
  exists res' g' o', exec pc ans res g o = Ret (res', g', o') /\
    ready (next_instr (doneFlag g) pc) res' g' o'.
Proof.
  intros Hready Hok Hwell. pose proof (rd_loop _ _ _ _ Hready) as Hloop.
  destruct pc; try (by apply ready_signal); try (by apply ready_open_socket);
    try (by apply ready_creat); try (apply ready_configure_socket; by auto);
    try (apply ready_before_socket; by cbn); try (apply ready_after_creat; by cbn);
    try (apply ready_accept_loop; by cbn); by cbn in Hloop.
Qed.

(** A connection thread that ends its work leaves the rest as it is. *)
Lemma ready_thread_done pc res g o a n m :
  ready pc res g o -> nodes (head (g_main g)) !! a = Some n -> is_Some (ID (payload n)) ->
  thread_done (g_main g) a = Ret m -> ready pc res (set_g_main m g) o.
Proof.
  intros [Hpc Hloop Hdone Hsig Hd Hres Hsock Hfd Hfile Hbg Hstart [ids Hids]] Ha Hid Hm.
  destruct (thread_done_spec _ _ _ _ Hids (payloads_lookup _ _ _ Ha) Hid) as (m' & Heq & Hinv & _ & Hfds).
  rewrite Hm in Heq. injection Heq as <-.
  assert (socketDescriptor m = socketDescriptor (g_main g)) as Hsd.
  { unfold thread_done in Hm. outcome_inv. done. }
  split; cbn; try done.
  - unfold socket_at in *. cbn. by rewrite Hsd, Hfds.
  - by rewrite Hsd.
  - intros Hr. rewrite Hstart in Ha by done. cbn in Ha. by rewrite lookup_empty in Ha.
  - by eexists.
Qed.

(** No execution of the handler is in progress. *)
Definition quiet (s : life) : Prop := lf_handlers s = [] /\ lf_end s = None.

Definition life_ready (s : life) : Prop :=
  ready (lf_pc s) (lf_res s) (lf_glob s) (lf_os s).

Lemma quiet_step s l s' :
  life_step s l s' -> went_well l -> (quiet s -> life_ready s) -> quiet s' -> life_ready s'.
Proof.
  intros Hstep Hwell Hs [Hq1 Hq2]. unfold quiet, life_ready in *.
  destruct Hstep as [pc res g o hs ans res' g' o' _ Hok Hex | | | pc res g o hs1 who st rest hs2 g' o' _ _
    | pc res g o hs a m ((n & t & Ha & _ & Hid & _) & _) Hm | pc res g o hs a Ha | | | |];
    cbn in *; try done; [| by destruct hs1 | |]; specialize (Hs (conj Hq1 eq_refl)).
  - destruct (ready_exec _ _ _ _ _ Hs Hok Hwell) as (res1 & g1 & o1 & Heq & Hr).
    rewrite Hex in Heq. by injection Heq as <- <- <-.
  - cbn in Ha. apply (ready_thread_done _ _ _ _ a n); [done.. | by rewrite Hid | done].
  - destruct Hs. by split.
Qed.

Lemma quiet_run s ls s' :
  run life_step s ls s' -> Forall went_well ls -> (quiet s -> life_ready s) ->
  quiet s' -> life_ready s'.
Proof.
  induction 1 as [s | s l s1 ls s2 Hstep _ IH]; intros Hwell Hs; [done |].
  apply Forall_cons in Hwell as [Hl Hls]. apply IH; [done |]. by eapply quiet_step.
Qed.

(** C8. Ready to accept. In any run of the process in which the set-up's calls
    succeed, up to a point where no signal has arrived: the next call of the main
    thread, whatever the system answers, stays in defined behaviour; and whenever
    that call is [accept], the descriptor is a socket of this process that may reuse
    its address, is bound to port 9000 of the wildcard address and listens with a
    backlog of ten, [SIGINT] and [SIGTERM] (and they alone) lead to [signalHandler],
    the data file exists, the process has left its terminal exactly if it was asked
    to by "-d", and the list of threads is well formed. *)
Theorem accepting_server_ready fds file ls s :
  run life_step (life_init fds file) ls s -> Forall went_well ls -> quiet s ->
  (forall ans, answer_ok (lf_pc s) ans (lf_glob s) (lf_os s) = true ->
     went_well (LMain (lf_pc s) ans) ->
     safe (exec (lf_pc s) ans (lf_res s) (lf_glob s) (lf_os s))) /\
  (lf_pc s = IAccept ->
   let m := g_main (lf_glob s) in let o := lf_os s in
   socketDescriptor m ∈ open_fds m /\
   o_socks o !! socketDescriptor m =
     Some (mk_sock true (Some (addr_of "9000")) (Some 10)) /\
   o_handlers o = {[SIGINT]} ∪ {[SIGTERM]} /\
   o_file o = true /\ o_background o = daemonFlag argv /\
   exists ids, list_inv (head m) ids).
Proof.
  intros Hrun Hwell Hq.
  assert (life_ready s) as Hr.
  { apply (quiet_run _ _ _ Hrun Hwell); [| done]. intros _. apply ready_init. }
  split.
  - intros ans Hok Hw. destruct (ready_exec _ _ _ _ ans Hr Hok Hw) as (? & ? & ? & -> & _).
    by eexists.
  - intros Hpc. unfold life_ready in Hr. rewrite Hpc in Hr.
    destruct Hr as [_ _ _ Hsig _ _ Hsock _ Hfile Hbg _ Hlist]. cbn.
    destruct (Hsock ltac:(by cbn)) as (_ & Hin & lst & Hs & Hl).
    rewrite Hsig, Hfile, Hbg, Hs, Hl, installed_all by done. by split_and!.
Qed.

(** When [getaddrinfo] fails its result is used all the same: [res] is read before it
    has a value. *)
Lemma failed_lookup_faults ans g o : exec IBind ans None g o = Fault Uninitialised.
Proof. done. Qed.

(** ** Running the main thread on given answers *)

Definition main_call (ans : answer) (s : life) : option life :=
  if bool_decide (None ∉ (lf_handlers s).*1) && answer_ok (lf_pc s) ans (lf_glob s) (lf_os s)
  then
    match lf_end s, exec (lf_pc s) ans (lf_res s) (lf_glob s) (lf_os s) with
    | None, Ret (res, g, o) =>
        Some (mk_life (next_instr (doneFlag (lf_glob s)) (lf_pc s)) res g o (lf_handlers s)
                match lf_pc s with IReturn => Some (Exited 0) | _ => None end)
    | _, _ => None
    end
  else None.

Fixpoint main_calls (anss : list answer) (s : life) : option (list label * life) :=
  match anss with
  | [] => Some ([], s)
  | ans :: anss =>
      s' ← main_call ans s; '(ls, s'') ← main_calls anss s'; Some (LMain (lf_pc s) ans :: ls, s'')
  end.

Lemma main_call_step ans s s' :
  main_call ans s = Some s' -> life_step s (LMain (lf_pc s) ans) s'.
Proof.
  unfold main_call. intros E. case_match eqn:Hc; [| done].
  apply andb_prop in Hc as [Hh%bool_decide_eq_true Hok].
  destruct s as [pc res g o hs [e|]]; cbn in *; [done |].
  destruct (SocketProcess.exec addr_of argv pc ans res g o) as [[[res' g'] o'] | |] eqn:Hex; [| done..].
  injection E as <-. by apply life_main.
Qed.

Lemma main_calls_run anss s ls s' :
  main_calls anss s = Some (ls, s') -> run life_step s ls s'.
Proof.
  revert s ls. induction anss as [|ans anss IH]; intros s ls; cbn.
  { intros [= <- <-]. apply run_nil. }
  destruct (main_call ans s) as [s1|] eqn:E; [| done]. cbn.
  destruct (main_calls anss s1) as [[ls1 s2]|] eqn:E1; [| done]. cbn. intros [= <- <-].
  eapply run_cons; [by apply main_call_step | by apply IH].
Qed.
End Process.

(** ** Properties *)

(** The calls up to the first [accept], all successful, and what they lead to. *)
Definition plain_answer (r : Z) : answer := mk_answer r None None.

Definition set_up_answers : list answer :=
  plain_answer <$> [0; 0; 0; 0; 0; 0; 0; 3; 0; 0; 4; 0; 0; 0; 0; 0].

Definition demo_address (p : string) : string := p.

Definition demo_run : option (list label * life) :=
  main_calls demo_address ["aesdsocket"; "-d"]%string set_up_answers
    (life_init {[0; 1; 2]} false).

Definition demo_labels : list label := default [] (fst <$> demo_run).
Definition demo_life : life := default (life_init ∅ false) (snd <$> demo_run).

Lemma demo_life_run :
  run (life_step demo_address ["aesdsocket"; "-d"]%string) (life_init {[0; 1; 2]} false)
    demo_labels demo_life.
Proof. apply (main_calls_run _ _ set_up_answers). by vm_compute. Qed.

Lemma demo_went_well : Forall went_well demo_labels.
Proof.
  let ls := eval vm_compute in demo_labels in change demo_labels with ls.
  repeat (apply Forall_cons; split; [done |]). done.
Qed.

Lemma accepting_server_ready_witness :
  lf_pc demo_life = IAccept /\
  o_socks (lf_os demo_life) !! socketDescriptor (g_main (lf_glob demo_life)) =
    Some (mk_sock true (Some (demo_address "9000")) (Some 10)) /\
  o_background (lf_os demo_life) = daemonFlag ["aesdsocket"; "-d"]%string.
Proof.
  assert (lf_pc demo_life = IAccept) as Hpc by by_computation.
  destruct (accepting_server_ready demo_address ["aesdsocket"; "-d"]%string {[0; 1; 2]} false
    demo_labels demo_life demo_life_run demo_went_well ltac:(by_computation)) as [_ H].
  destruct (H Hpc) as (_ & H2 & _ & _ & H3 & _). exact (conj Hpc (conj H2 H3)).
Defined.
