(* ===== verification/SocketProcessEnd.v ===== *)
(** How the server process ends: what every state of its life satisfies, whatever the
    system answers and whenever signals arrive, the ways the process can end, and
    what follows the handling of a signal: the handler can always go on, makes a
    bounded number of calls, and ends the process if nothing else does before. *)

From Stdlib Require Import String.
From S2P Require Import Prelude CMem SList SocketMain SocketMainProps SocketProcess SocketProcessProps.

Section Process.
Context {A : Type} (addr_of : string -> A) (argv : list string).

Abbreviation life := (life (A := A)).
Abbreviation osys := (osys (A := A)).
Abbreviation life_step := (life_step addr_of argv).
Abbreviation exec := (exec addr_of argv).

(** ** What a call of the main thread leaves as it is *)

(** The socket of the server is closed, or was never opened. *)
Definition socket_closed (g : globals) (o : osys) : Prop :=
  o_socks o !! socketDescriptor (g_main g) = None.

Lemma update_sock_closed fd f (o : osys) k :
  o_socks o !! k = None -> o_socks (update_sock fd f o) !! k = None.
Proof.
  intros Hk. cbn. destruct (decide (k = fd)) as [-> | ?].
  - by rewrite lookup_alter_eq, Hk.
  - by rewrite lookup_alter_ne.
Qed.

Lemma delete_closed fd (socks : gmap Z (sock (A := A))) k :
  socks !! k = None -> delete fd socks !! k = None.
Proof. intros Hk. apply lookup_delete_None. by right. Qed.

Lemma accept_reap_frame s s' :
  accept_reap s = Ret s' -> socketDescriptor s' = socketDescriptor s.
Proof. unfold accept_reap. intros. outcome_inv. by destruct a as [? [? ?]]; outcome_inv. Qed.

Lemma accept_insert_frame s fd ptr tid s' :
  accept_insert s fd ptr tid = Ret s' -> socketDescriptor s' = socketDescriptor s.
Proof. unfold accept_insert. destruct ptr; intros; by outcome_inv. Qed.

Lemma exec_frame pc ans res g o res' g' o' :
  exec pc ans res g o = Ret (res', g', o') ->
  doneFlag g' = doneFlag g /\
  (rank pc < 14 -> nodes (head (g_main g')) = nodes (head (g_main g))) /\
  (14 <= rank pc -> o_handlers o' = o_handlers o /\ o_file o' = o_file o /\
     (socket_closed g o -> socket_closed g' o')).
Proof.
  unfold socket_closed.
  destruct pc; cbn; intros Hex; outcome_inv; cbn; unfold opened.
  all: repeat case_match; subst; cbn in *; split_and!; try done; try lia; try (by outcome_inv).
  - intros _. split_and!; [done.. | apply update_sock_closed].
  - intros _. split_and!; [done.. |]. by rewrite (accept_insert_frame _ _ _ _ _ ltac:(eassumption)).
  - intros _. split_and!; [done.. | apply delete_closed].
  - intros _. split_and!; [done.. | apply delete_closed].
Qed.

Lemma exec_signals pc ans res g o res' g' o' done :
  exec pc ans res g o = Ret (res', g', o') -> pc_ok pc -> o_handlers o = installed (rank pc) ->
  o_handlers o' = installed (rank (next_instr done pc)).
Proof.
  intros Hex Hpc Ho. destruct (Z.leb_spec 14 (rank pc)) as [Hr | Hr].
  { apply exec_frame in Hex as (_ & _ & Hlate). rewrite (proj1 (Hlate Hr)), Ho.
    rewrite !installed_all; [done | | lia].
    destruct pc; cbn in *; try lia; try (by destruct done); repeat case_match; lia. }
  destruct pc as [n | | | | | | | | | | | | | | | | | | |].
  { destruct Hpc as [-> | [-> | ->]]; cbn in Hex, Ho |- *; outcome_inv; cbn;
      rewrite Ho; unfold installed; cbn; set_solver. }
  all: cbn in Hex, Ho, Hr; try lia; outcome_inv; cbn; unfold opened; repeat case_match.
  all: subst; cbn in *; try done; outcome_inv; cbn in *; try lia.
  all: by rewrite Ho, !installed_all by lia.
Qed.

Lemma handler_step_closed st g (o : osys) g' o' :
  handler_step st g o = (g', o') ->
  g_main g' = set_open (open_fds (g_main g')) (g_main g) /\
  o_handlers o' = o_handlers o /\
  doneFlag g' = match st with HDone => true | _ => doneFlag g end /\
  o_file o' = match st with HUnlink => false | _ => o_file o end /\
  (socket_closed g o \/ st = HCloseSocket -> socket_closed g' o').
Proof.
  assert (g_main g = set_open (open_fds (g_main g)) (g_main g)) as Hm by (by destruct (g_main g)).
  unfold socket_closed. destruct st; cbn; intros [= <- <-]; cbn; split_and!; try done.
  - intros [Hc | [=]]. exact (update_sock_closed _ _ o _ Hc).
  - by intros [Hc | [=]].
  - by intros [Hc | [=]].
  - intros [Hc | [=]]. by apply delete_closed.
  - intros _. apply lookup_delete_eq.
  - by intros [Hc | [=]].
Qed.

(** ** The invariant *)

Definition handlers_in_progress : Type := list (option nat * list hstep).

(** Some execution of the handler has at most [n] calls left. *)
Definition some_left (n : nat) (hs : handlers_in_progress) : Prop :=
  exists h, h ∈ hs /\ (length h.2 <= n)%nat.

(** The same of an execution in another thread than the main one. *)
Definition some_worker_left (n : nat) (hs : handlers_in_progress) : Prop :=
  exists h, h ∈ hs /\ h.1 <> None /\ (length h.2 <= n)%nat.

Record life_inv (s : life) : Prop := {
  lv_pc : pc_ok (lf_pc s);
  lv_signals : o_handlers (lf_os s) = installed (rank (lf_pc s));
  lv_nodes : rank (lf_pc s) < 14 -> nodes (head (g_main (lf_glob s))) = ∅;
  lv_steps : Forall (fun h => exists n, h.2 = drop n (handler_steps SIGINT)) (lf_handlers s);
  lv_worker : Exists (fun h => h.1 <> None) (lf_handlers s) -> 14 <= rank (lf_pc s);
  lv_flag : Forall (fun h => (length h.2 <= 4)%nat -> doneFlag (lf_glob s) = true) (lf_handlers s);
  lv_done : doneFlag (lf_glob s) = true -> some_left 4 (lf_handlers s);
  lv_past : 18 <= rank (lf_pc s) -> some_worker_left 4 (lf_handlers s);
  lv_closed : Forall (fun h => (length h.2 <= 1)%nat -> socket_closed (lf_glob s) (lf_os s))
                (lf_handlers s);
}.

Lemma life_init_inv fds file : life_inv (life_init fds file).
Proof.
  split; cbn; try done; [by left | intros H; by inversion H].
Qed.

(** The main thread goes on only while no handler has stopped it. *)
Lemma main_not_stopped (hs : handlers_in_progress) h : None ∉ hs.*1 -> h ∈ hs -> h.1 <> None.
Proof. intros Hn Hh E. apply Hn. rewrite <- E. by apply list_elem_of_fmap_2. Qed.

Lemma rank_next done i : 14 <= rank i -> 14 <= rank (next_instr done i).
Proof. destruct i; cbn; repeat (case_match; cbn); lia. Qed.

Lemma rank_past done i :
  18 <= rank (next_instr done i) -> 18 <= rank i \/ i = ITest /\ done = true.
Proof. destruct i; cbn; repeat (case_match; cbn); try lia; auto. Qed.

Lemma life_main_inv pc res g o hs ans res' g' o' e :
  life_inv (mk_life pc res g o hs None) -> None ∉ hs.*1 ->
  exec pc ans res g o = Ret (res', g', o') ->
  life_inv (mk_life (next_instr (doneFlag g) pc) res' g' o' hs e).
Proof.
  intros [Hpc Hsig Hnodes Hsteps Hworker Hflag Hdone Hpast Hclosed] Hmain Hex. cbn in *.
  pose proof (exec_frame _ _ _ _ _ _ _ _ Hex) as (Hf & Hn & Hlate).
  split; cbn.
  - by apply next_pc_ok.
  - by eapply exec_signals.
  - intros Hr. assert (rank pc < 14) by (pose proof (rank_next (doneFlag g) pc); lia).
    by rewrite Hn, Hnodes.
  - done.
  - intros Hw. by apply rank_next, Hworker.
  - by rewrite Hf.
  - by rewrite Hf.
  - intros [Hr | [-> Hd]]%rank_past; [by apply Hpast |].
    destruct (Hdone Hd) as (h & Hh & Hl). exists h. by split_and!; [| eapply main_not_stopped |].
  - apply Forall_forall. intros h Hh Hl. apply Hlate.
    + apply Hworker, Exists_exists. exists h. split; [done | by eapply main_not_stopped].
    + rewrite Forall_forall in Hclosed. by apply (Hclosed h).
Qed.

Lemma installed_subset r sig : sig ∈ installed r -> sig = SIGINT \/ sig = SIGTERM.
Proof.
  unfold installed. intros [H | H]%elem_of_union; case_match;
    first [apply elem_of_singleton in H; by auto | by apply elem_of_empty in H].
Qed.

Lemma handled_steps sig : sig = SIGINT \/ sig = SIGTERM -> handler_steps sig = handler_steps SIGINT.
Proof. by intros [-> | ->]. Qed.

Lemma some_left_cons n h hs : some_left n hs -> some_left n (h :: hs).
Proof. intros (h' & Hh & Hl). exists h'. split; [by apply list_elem_of_further | done]. Qed.

Lemma some_worker_left_cons n h hs : some_worker_left n hs -> some_worker_left n (h :: hs).
Proof. intros (h' & Hh & Hl). exists h'. split; [by apply list_elem_of_further | done]. Qed.

Lemma life_signal_inv pc res g o hs sig who :
  life_inv (mk_life pc res g o hs None) -> sig ∈ o_handlers o ->
  thread_exists (mk_life pc res g o hs None) who ->
  life_inv (mk_life pc res g o ((who, handler_steps sig) :: hs) None).
Proof.
  intros [Hpc Hsig Hnodes Hsteps Hworker Hflag Hdone Hpast Hclosed] Hin Hwho. cbn in *.
  rewrite Hsig in Hin. apply installed_subset, handled_steps in Hin. rewrite Hin. split; cbn; try done.
  - constructor; [by exists 0%nat | done].
  - intros [Hw | Hw]%Exists_cons; [| by apply Hworker]. cbn in Hw.
    destruct who as [t |]; [| done]. destruct Hwho as (a & n & Ha & _). cbn in Ha.
    destruct (Z.le_gt_cases 14 (rank pc)) as [? | Hr]; [done |].
    rewrite Hnodes in Ha by done. by rewrite lookup_empty in Ha.
  - constructor; [cbn; lia | done].
  - intros Hd. by apply some_left_cons, Hdone.
  - intros Hr. by apply some_worker_left_cons, Hpast.
  - constructor; [cbn; lia | done].
Qed.

(** A handler that makes a call has one less left. *)
Lemma moved_elem (hs1 hs2 : handlers_in_progress) who st rest h :
  h ∈ hs1 ++ (who, st :: rest) :: hs2 ->
  exists h', h' ∈ hs1 ++ (who, rest) :: hs2 /\ h'.1 = h.1 /\ (length h'.2 <= length h.2)%nat.
Proof.
  rewrite elem_of_app, elem_of_cons. intros [Hh | [-> | Hh]].
  - exists h. split; [by apply elem_of_app; left | done].
  - exists (who, rest). split; [by apply elem_of_app; right; left | cbn; split; [done | lia]].
  - exists h. split; [apply elem_of_app; right; by right | done].
Qed.

Lemma moved_left n (hs1 hs2 : handlers_in_progress) who st rest :
  some_left n (hs1 ++ (who, st :: rest) :: hs2) -> some_left n (hs1 ++ (who, rest) :: hs2).
Proof.
  intros (h & Hh & Hl). destruct (moved_elem _ _ _ _ _ _ Hh) as (h' & Hh' & _ & Hl').
  exists h'. split; [done | lia].
Qed.

Lemma moved_worker_left n (hs1 hs2 : handlers_in_progress) who st rest :
  some_worker_left n (hs1 ++ (who, st :: rest) :: hs2) ->
  some_worker_left n (hs1 ++ (who, rest) :: hs2).
Proof.
  intros (h & Hh & Hw & Hl). destruct (moved_elem _ _ _ _ _ _ Hh) as (h' & Hh' & E & Hl').
  exists h'. split_and!; [done | by rewrite E | lia].
Qed.

(** The call a handler makes, by what it has left after it. *)
Lemma handler_next (st : hstep) rest n :
  st :: rest = drop n (handler_steps SIGINT) ->
  (st = HDone -> length rest = 4%nat) /\
  (st <> HDone -> (length rest <= 4)%nat -> (length (st :: rest) <= 4)%nat) /\
  (st = HUnlink -> length rest = 3%nat) /\
  (st <> HUnlink -> (length rest <= 3)%nat -> (length (st :: rest) <= 3)%nat) /\
  (st <> HCloseSocket -> (length rest <= 1)%nat -> (length (st :: rest) <= 1)%nat) /\
  (st = HExit -> rest = []).
Proof.
  intros E. do 7 (destruct n as [|n]; [cbn in E; try discriminate E; injection E as -> ->; cbn;
    split_and!; intros; first [done | lia | congruence] |]).
  by rewrite drop_ge in E by (cbn; lia).
Qed.

(** A property of every handler, kept by the others, after one has made a call. *)
Lemma moved_Forall (P Q : option nat * list hstep -> Prop) hs1 hs2 who st rest :
  (forall h, P h -> Q h) -> (P (who, st :: rest) -> Q (who, rest)) ->
  Forall P (hs1 ++ (who, st :: rest) :: hs2) -> Forall Q (hs1 ++ (who, rest) :: hs2).
Proof.
  intros HPQ Hst. rewrite !Forall_app, !Forall_cons. intros (H1 & H & H2).
  split_and!; [| by apply Hst |]; (eapply Forall_impl; [eassumption | done]).
Qed.

Lemma life_handler_inv pc res g o hs1 who st rest hs2 g' o' e :
  life_inv (mk_life pc res g o (hs1 ++ (who, st :: rest) :: hs2) None) ->
  handler_step st g o = (g', o') ->
  life_inv (mk_life pc res g' o' (hs1 ++ (who, rest) :: hs2) e).
Proof.
  intros [Hpc Hsig Hnodes Hsteps Hworker Hflag Hdone Hpast Hclosed] Hst. cbn in *.
  apply handler_step_closed in Hst as (Hm & Hh & Hd & _ & Hc).
  assert (exists n, st :: rest = drop n (handler_steps SIGINT)) as [n Hn].
  { rewrite Forall_forall in Hsteps. apply (Hsteps (who, st :: rest)).
    apply elem_of_app. right. by left. }
  destruct (handler_next st rest n Hn) as (Hdone1 & Hdone2 & _ & _ & Hclose & _).
  split; cbn; try done.
  - by rewrite Hh.
  - intros Hr. rewrite Hm. by apply Hnodes.
  - eapply moved_Forall; [| | exact Hsteps]; cbn; [done |]. intros _. exists (n + 1)%nat.
    change rest with (drop 1 (st :: rest)). by rewrite Hn, drop_drop.
  - intros Hw. apply Hworker. rewrite Exists_app, Exists_cons in *. cbn in *. tauto.
  - eapply moved_Forall; [| | exact Hflag]; cbn.
    + intros h H Hl. rewrite Hd. destruct st; auto.
    + intros H Hl. rewrite Hd. destruct st; auto; apply H, Hdone2; done.
  - intros Hdf. rewrite Hd in Hdf. destruct st; try (by eapply moved_left, Hdone).
    exists (who, rest). split; [apply elem_of_app; right; by left |]. cbn. by rewrite Hdone1.
  - intros Hr. by eapply moved_worker_left, Hpast.
  - eapply moved_Forall; [| | exact Hclosed]; cbn.
    + intros h H Hl. apply Hc. left. by apply H.
    + intros H Hl. apply Hc. destruct (decide (st = HCloseSocket)) as [? | Hne]; [by right |].
      left. by apply H, Hclose.
Qed.

(** What a thread does to its node changes no more than the node. *)
Lemma life_done_inv pc res g o hs a m e :
  life_inv (mk_life pc res g o hs None) -> thread_done (g_main g) a = Ret m ->
  life_inv (mk_life pc res (set_g_main m g) o hs e).
Proof.
  intros [Hpc Hsig Hnodes Hsteps Hworker Hflag Hdone Hpast Hclosed] Hm. cbn in *.
  unfold thread_done, set_payload in Hm.
  destruct (nodes (head (g_main g)) !! a) as [n |] eqn:Ha; [| done]. outcome_inv.
  split; cbn; try done. intros Hr. by rewrite Hnodes, lookup_empty in Ha.
Qed.

Lemma life_inv_end pc res g o hs e e' :
  life_inv (mk_life pc res g o hs e) -> life_inv (mk_life pc res g o hs e').
Proof. intros [? ? ? ? ? ? ? ? ?]. by split. Qed.

Lemma life_step_inv s l s' : life_step s l s' -> life_inv s -> life_inv s'.
Proof.
  destruct 1 as [pc res g o hs ans res' g' o' Hm Hok Hex | pc res g o hs sig who Hs Hw
    | pc res g o hs sig who Hin Hni | pc res g o hs1 who st rest hs2 g' o' Hw Hst
    | pc res g o hs a m Ha Hm | pc res g o hs a Ha | | | |]; intros Hinv.
  - by eapply life_main_inv.
  - by apply life_signal_inv.
  - by eapply life_inv_end.
  - by eapply life_handler_inv.
  - by eapply life_done_inv.
  - destruct Hinv. by split.
  - by eapply life_inv_end.
  - by eapply life_inv_end.
  - by eapply life_inv_end.
  - by eapply life_inv_end.
Qed.

(** ** The data file *)

(** Whether a thread has opened the file since it was last unlinked by a handler; [b]
    is the answer before the run. *)
Fixpoint opened_since (b : bool) (ls : list label) : bool :=
  match ls with
  | [] => b
  | LHandler _ HUnlink :: ls => opened_since false ls
  | LOpen _ :: ls => opened_since true ls
  | _ :: ls => opened_since b ls
  end.

(** Once a handler has unlinked the file, it is there only if a thread opened it. *)
Definition file_inv (b : bool) (s : life) : Prop :=
  some_left 3 (lf_handlers s) -> o_file (lf_os s) = b.

Lemma file_step b s l s' :
  life_step s l s' -> life_inv s -> file_inv b s -> file_inv (opened_since b [l]) s'.
Proof.
  destruct 1 as [pc res g o hs ans res' g' o' Hm Hok Hex | pc res g o hs sig who Hs Hw
    | pc res g o hs sig who Hin Hni | pc res g o hs1 who st rest hs2 g' o' Hw Hst
    | pc res g o hs a m Ha Hm | pc res g o hs a Ha | | | |];
    unfold file_inv; cbn; intros Hinv Hfile; try done.
  - intros Hl. rewrite <- (Hfile Hl). apply exec_frame in Hex as (_ & _ & Hlate).
    apply Hlate. apply (lv_worker _ Hinv), Exists_exists. destruct Hl as (h & Hh & _).
    exists h. split; [done | by eapply main_not_stopped].
  - intros (h & [-> | Hh]%elem_of_cons & Hl); [| apply Hfile; by exists h].
    pose proof (lv_signals _ Hinv) as E. cbn in E, Hl. rewrite E in Hs.
    rewrite handled_steps in Hl by (by eapply installed_subset). cbn in Hl. lia.
  - apply handler_step_closed in Hst as (_ & _ & _ & Hf & _). intros (h & Hh & Hl).
    assert (exists n, st :: rest = drop n (handler_steps SIGINT)) as [n Hn].
    { pose proof (lv_steps _ Hinv) as Hall. cbn in Hall. rewrite Forall_forall in Hall.
      apply (Hall (who, st :: rest)), elem_of_app. right. by left. }
    destruct (handler_next st rest n Hn) as (_ & _ & _ & Hk & _).
    destruct (decide (st = HUnlink)) as [-> | Hne]; [done |].
    rewrite Hf. assert (o_file o = b) as <-; [| by destruct st].
    apply Hfile. rewrite elem_of_app, elem_of_cons in Hh. unfold some_left.
    setoid_rewrite elem_of_app. setoid_rewrite elem_of_cons.
    destruct Hh as [Hh | [-> | Hh]]; [exists h; by auto | exists (who, st :: rest) | exists h; by auto].
    split; [by auto | by apply Hk].
Qed.

Lemma life_run_inv fds file ls s :
  run life_step (life_init fds file) ls s ->
  life_inv s /\ file_inv (opened_since true ls) s.
Proof.
  assert (forall s0 ls s, run life_step s0 ls s -> forall b, life_inv s0 -> file_inv b s0 ->
    life_inv s /\ file_inv (opened_since b ls) s) as Hgen.
  { induction 1 as [s0 | s0 l s1 ls' s2 Hstep _ IH]; intros b Hinv Hfile; [done |].
    destruct (IH (opened_since b [l])) as [H1 H2];
      [by eapply life_step_inv | by eapply file_step |].
    split; [done |]. by destruct l as [| | ? [] | | | | | |]. }
  intros Hrun. apply (Hgen _ _ _ Hrun); [apply life_init_inv | by intros (h & Hh%elem_of_nil & _)].
Qed.

(** ** The ways the process ends *)

(** A signal without a handler: of those the program handles, one that comes before
    [main] has installed it. *)
Definition too_early (s : life) (sig : Z) : Prop :=
  (sig = SIGINT -> lf_pc s = ISignal SIGINT) /\
  (sig = SIGTERM -> lf_pc s = ISignal SIGINT \/ lf_pc s = ISignal SIGTERM).

Lemma not_installed s sig : life_inv s -> sig ∉ o_handlers (lf_os s) -> too_early s sig.
Proof.
  intros Hinv Hni. pose proof (lv_pc _ Hinv) as Hpc. rewrite (lv_signals _ Hinv) in Hni.
  unfold too_early.
  assert (rank (lf_pc s) < 2 \/ sig ∉ ({[SIGINT]} ∪ {[SIGTERM]} : gset Z)) as [Hr | Hno].
  { destruct (Z.lt_ge_cases (rank (lf_pc s)) 2); [by left | right].
    by rewrite installed_all in Hni by done. }
  - destruct (lf_pc s); cbn in Hr; try lia.
    destruct Hpc as [-> | [-> | ->]]; cbn in Hr; [by split; auto | | lia].
    unfold installed in Hni. cbn in Hni. split; [| by auto]. intros ->. set_solver.
  - split; intros ->; set_solver.
Qed.

(** The ways one step ends the process. *)
Lemma end_step s l s' e :
  life_step s l s' -> life_inv s -> life_inv s' -> lf_end s' = Some e ->
  match e with
  | Exited status =>
      status = 0 /\ doneFlag (lf_glob s') = true /\
        ((exists who, l = LHandler who HExit /\ (who, []) ∈ lf_handlers s' /\
            socket_closed (lf_glob s') (lf_os s')) \/
         ((exists ans, l = LMain IReturn ans) /\ lf_pc s' = IReturn /\
            some_worker_left 4 (lf_handlers s'))) \/
      status = 1 /\ exists a, l = LRecvFails a
  | Killed sig =>
      ((exists who, l = LSignal sig who) /\ ends_by_default sig = true /\
         (sig ∉ o_handlers (lf_os s')) /\ too_early s' sig) \/
      sig = SIGPIPE /\ exists a, l = LSendBroken a
  | Undefined f => (exists i ans, l = LMainFaults i ans f) \/ exists a, l = LThreadFaults a f
  end.
Proof.
  intros Hlast Hinv0 Hinv He.
  destruct Hlast as [pc res g o hs ans res' g' o' _ _ _ | | pc res g o hs sig who Hin Hni
    | pc res g o hs1 who st rest hs2 g' o' _ _ | | | pc res g o hs a _ | pc res g o hs a _ _
    | pc res g o hs ans f _ _ _ | pc res g o hs a f _]; cbn in *; try done.
  - destruct pc; try done. injection He as <-. left. split; [done |].
    pose proof (lv_past _ Hinv ltac:(by cbn)) as Hpast. cbn in Hpast.
    pose proof (lv_flag _ Hinv) as Hflag. cbn in Hflag. split; [| right; by eauto].
    destruct Hpast as (h & Hh & _ & Hl). rewrite Forall_forall in Hflag. by apply (Hflag h).
  - injection He as <-. left. split_and!; [by exists who | done.. |]. by apply not_installed.
  - destruct st; try done. injection He as <-. left. split; [done |].
    assert ((who, rest) ∈ hs1 ++ (who, rest) :: hs2) as Hh by (apply elem_of_app; right; by left).
    pose proof (lv_steps _ Hinv0) as Hs. cbn in Hs. rewrite Forall_forall in Hs.
    destruct (Hs (who, HExit :: rest)) as [n Hn]; [apply elem_of_app; right; by left |].
    destruct (handler_next _ _ _ Hn) as (_ & _ & _ & _ & _ & Hrest).
    rewrite (Hrest eq_refl) in *.
    pose proof (lv_flag _ Hinv) as Hflag. pose proof (lv_closed _ Hinv) as Hclosed.
    cbn in Hflag, Hclosed. rewrite Forall_forall in Hflag, Hclosed.
    split; [apply (Hflag _ Hh); cbn; lia |]. left. exists who.
    split_and!; [done.. | apply (Hclosed _ Hh); cbn; lia].
  - injection He as <-. right. split; [done |]. by exists a.
  - injection He as <-. right. split; [done |]. by exists a.
  - injection He as <-. left. by eauto.
  - injection He as <-. right. by eauto.
Qed.

(** The ways the server ends, its connection threads being free to fail. The process
    ends with status 0 only after a handled signal has set [doneFlag]; then either
    [signalHandler] has run to its end, the server's socket is closed and the data
    file is there only if a connection thread has opened it again since it was
    unlinked, or the main thread has left the accept loop, which it does only while
    a handler is in progress in another thread. It ends with status 1 only because
    [recv] failed in a thread, and by a signal only if the signal's default action
    ends a process and no handler is installed for it, so not by [SIGINT] or
    [SIGTERM] once [main] has installed theirs; or by [SIGPIPE] from a thread's
    [send]: a client that hangs up before it has its answer ends the server. What
    is left are steps with undefined behaviour. *)
Theorem server_end_cases fds file ls s e :
  run life_step (life_init fds file) ls s -> lf_end s = Some e ->
  exists ls0 l, ls = ls0 ++ [l] /\
  match e with
  | Exited status =>
      status = 0 /\ doneFlag (lf_glob s) = true /\
        ((exists who, (who, []) ∈ lf_handlers s /\ socket_closed (lf_glob s) (lf_os s) /\
            o_file (lf_os s) = opened_since true ls) \/
         (lf_pc s = IReturn /\ some_worker_left 4 (lf_handlers s))) \/
      status = 1 /\ exists a, l = LRecvFails a
  | Killed sig =>
      ((exists who, l = LSignal sig who) /\ ends_by_default sig = true /\
         (sig ∉ o_handlers (lf_os s)) /\ too_early s sig) \/
      sig = SIGPIPE /\ exists a, l = LSendBroken a
  | Undefined f => (exists i ans, l = LMainFaults i ans f) \/ exists a, l = LThreadFaults a f
  end.
Proof.
  intros Hrun He. destruct (life_run_inv _ _ _ _ Hrun) as [Hinv Hfile].
  apply run_last in Hrun as [[_ ->] | (ls0 & l & s0 & -> & Hrun0 & Hlast)]; [done |].
  apply life_run_inv in Hrun0 as [Hinv0 _]. exists ls0, l. split; [done |].
  pose proof (end_step _ _ _ _ Hlast Hinv0 Hinv He) as Hcase. destruct e as [status | |]; try done.
  destruct Hcase as [(-> & Hd & Hhow) | Hone]; [left | by right]. split_and!; [done.. |].
  destruct Hhow as [(who & _ & Hh & Hc) | (_ & Hpast)]; [left | by right].
  exists who. split_and!; [done.. |]. apply Hfile. exists (who, []). split; [done | cbn; lia].
Qed.

(** ** What a signal leads to *)

Lemma handler_last st n : [st] = drop n (handler_steps SIGINT) -> st = HExit.
Proof.
  intros Hn. do 7 (destruct n as [|n]; [cbn in Hn; congruence |]).
  by rewrite drop_ge in Hn by (cbn; lia).
Qed.

(** The latest handler, left alone, makes its calls one after the other. *)
Lemma handler_runs rest : forall n pc res g o who hs,
  rest = drop n (handler_steps SIGINT) -> rest <> [] ->
  let '(g', o') := fold_left (fun '(g, o) st => handler_step st g o) rest (g, o) in
  run life_step (mk_life pc res g o ((who, rest) :: hs) None) (LHandler who <$> rest)
    (mk_life pc res g' o' ((who, []) :: hs) (Some (Exited 0))).
Proof.
  induction rest as [|st rest IH]; intros n pc res g o who hs Hn Hne; [done |].
  cbn [fold_left]. destruct (handler_step st g o) as [g1 o1] eqn:Hst.
  pose proof (life_handler addr_of argv pc res g o [] who st rest hs g1 o1
    (not_elem_of_nil who) Hst) as Hstep.
  destruct (handler_next _ _ _ Hn) as (_ & _ & _ & _ & _ & Hexit).
  destruct rest as [|st' rest].
  - apply handler_last in Hn as ->.
    eapply run_cons; [exact Hstep | apply run_nil].
  - assert (st <> HExit) as Hne' by (by intros E%Hexit).
    specialize (IH (n + 1)%nat pc res g1 o1 who hs). destruct (fold_left _ _ (g1, o1)) as [g2 o2].
    assert (st' :: rest = drop (n + 1) (handler_steps SIGINT)) as Hn'
      by (by rewrite <- drop_drop, <- Hn).
    eapply run_cons; [exact Hstep |]. destruct st; [.. | done]; by apply IH.
Qed.

(** The executions of the handler that a run has started, the calls they have made,
    and the calls left to make. *)
Definition signals_in (ls : list label) : nat :=
  sum_list_with (fun l => match l with LSignal _ _ => 1 | _ => 0 end)%nat ls.

Definition handler_calls (ls : list label) : nat :=
  sum_list_with (fun l => match l with LHandler _ _ => 1 | _ => 0 end)%nat ls.

Definition calls_left (hs : handlers_in_progress) : nat :=
  sum_list_with (fun h => length h.2) hs.

Lemma signals_in_cons l ls : signals_in (l :: ls) = (signals_in [l] + signals_in ls)%nat.
Proof. unfold signals_in. cbn. lia. Qed.

Lemma handler_calls_cons l ls : handler_calls (l :: ls) = (handler_calls [l] + handler_calls ls)%nat.
Proof. unfold handler_calls. cbn. lia. Qed.

(** Every execution of the handler has a call left to make. *)
Definition all_going (hs : handlers_in_progress) : Prop := Forall (fun h => h.2 <> []) hs.

Lemma calls_left_going hs : all_going hs -> (length hs <= calls_left hs)%nat.
Proof.
  unfold calls_left. induction 1 as [| [w [|st rest]] hs Hh _ IH]; cbn in *; [lia | done | lia].
Qed.

Lemma life_balance s l s' :
  life_step s l s' -> life_inv s -> lf_end s' = None -> all_going (lf_handlers s) ->
  (calls_left (lf_handlers s') + handler_calls [l] =
     calls_left (lf_handlers s) + 6 * signals_in [l])%nat /\
  length (lf_handlers s') = (length (lf_handlers s) + signals_in [l])%nat /\
  all_going (lf_handlers s').
Proof.
  destruct 1 as [| pc res g o hs sig who Hs Hw | | pc res g o hs1 who st rest hs2 g' o' Hw Hst | | | | | |];
    intros Hinv; cbn; try done; try (by intros _ Hgo; split_and!; [lia.. |]).
  - intros _ Hgo. pose proof (lv_signals _ Hinv) as E. cbn in E. rewrite E in Hs.
    apply installed_subset, handled_steps in Hs. rewrite Hs. cbn.
    split_and!; [lia.. | by constructor].
  - intros Hne Hgo. assert (st <> HExit) as Hst' by (by intros ->).
    unfold calls_left. rewrite !sum_list_with_app, !length_app. cbn. split_and!; [lia.. |].
    pose proof (lv_steps _ Hinv) as Hsteps. cbn in Hsteps. rewrite Forall_forall in Hsteps.
    destruct (Hsteps (who, st :: rest)) as [n Hn]; [apply elem_of_app; right; by left |].
    eapply moved_Forall; [| | exact Hgo]; [done |]. cbn. intros _ ->. by apply handler_last in Hn.
Qed.

Lemma life_step_running s l s' : life_step s l s' -> lf_end s = None.
Proof. by destruct 1. Qed.

Lemma run_balance s ls s' :
  run life_step s ls s' -> life_inv s -> lf_end s' = None -> all_going (lf_handlers s) ->
  (calls_left (lf_handlers s') + handler_calls ls =
     calls_left (lf_handlers s) + 6 * signals_in ls)%nat /\
  length (lf_handlers s') = (length (lf_handlers s) + signals_in ls)%nat /\
  all_going (lf_handlers s').
Proof.
  induction 1 as [s | s l s1 ls s2 Hstep Hrun IH]; intros Hinv Hend Hgo; [cbn; split_and!; [lia.. | done] |].
  assert (lf_end s1 = None) as Hend1.
  { destruct Hrun as [| ? ? ? ? ? Hnext]; [done | by eapply life_step_running]. }
  destruct (life_balance _ _ _ Hstep Hinv Hend1 Hgo) as (Hl & Hn & Hgo1).
  destruct (IH ltac:(by eapply life_step_inv) Hend Hgo1) as (Hl' & Hn' & Hgo').
  rewrite signals_in_cons, handler_calls_cons. split_and!; [lia.. | done].
Qed.

(** The latest handler of a thread can make its next call. *)
Lemma handler_enabled s who :
  lf_end s = None -> all_going (lf_handlers s) -> who ∈ (lf_handlers s).*1 ->
  exists st s', life_step s (LHandler who st) s'.
Proof.
  destruct s as [pc res g o hs e]. cbn. intros -> Hgo Hin.
  apply list_elem_of_split_l in Hin as (l1 & l2 & E & Hni).
  apply fmap_app_inv in E as (hs1 & hs2 & -> & E2 & ->).
  destruct hs2 as [| [w [|st rest]] hs2]; [done | |]; injection E2 as -> ->.
  - apply Forall_app in Hgo as [_ [Hne _]%Forall_cons]. done.
  - destruct (handler_step st g o) as [g' o'] eqn:Hst. exists st. eexists. by apply life_handler.
Qed.

Lemma handlers_stay s ls s' who :
  run life_step s ls s' -> who ∈ (lf_handlers s).*1 -> who ∈ (lf_handlers s').*1.
Proof.
  apply (run_invariant life_step (fun s => who ∈ (lf_handlers s).*1)).
  destruct 1; cbn; try done.
  - intros. by apply list_elem_of_further.
  - by rewrite !fmap_app.
Qed.

(** The ways another step can end the process while a handler is at work. *)
Definition ended_otherwise (s : life) (l : label) (e : ending) : Prop :=
  match l, e with
  | LRecvFails _, Exited status => status = 1
  | LSendBroken _, Killed n => n = SIGPIPE
  | LSignal sig _, Killed n => n = sig /\ (sig ∉ o_handlers (lf_os s))
  | LMainFaults _ _ f, Undefined f' | LThreadFaults _ f, Undefined f' => f' = f
  | _, _ => False
  end.

(** The handler, started by a signal, until the process ends. *)
Lemma after_signal_running fds file ls s sig who ls' s' :
  run life_step (life_init fds file) ls s -> run life_step s (LSignal sig who :: ls') s' ->
  sig ∈ o_handlers (lf_os s) -> lf_end s' = None ->
  who ∈ (lf_handlers s').*1 /\
  (forall w, w ∈ (lf_handlers s').*1 -> exists st s'', life_step s' (LHandler w st) s'') /\
  (handler_calls (ls ++ LSignal sig who :: ls') <= 5 * signals_in (ls ++ LSignal sig who :: ls'))%nat.
Proof.
  intros Hrun Hrun' Hsig Hend. pose proof (run_app _ _ _ _ _ _ Hrun Hrun') as Hall.
  destruct (run_balance _ _ _ Hall (life_init_inv _ _) Hend) as (Hleft & Hlen & Hgo); [constructor |].
  cbn [calls_left sum_list_with length lf_handlers life_init] in Hleft, Hlen. pose proof (calls_left_going _ Hgo). split_and!; [| | lia].
  - inversion Hrun' as [| ? ? s1 ? ? Hstep Hrest]; subst. eapply handlers_stay; [exact Hrest |].
    inversion Hstep; subst; cbn in *; [by left | done].
  - intros w Hw. by apply handler_enabled.
Qed.

Lemma after_signal_ended fds file ls s sig who ls' s' e :
  run life_step (life_init fds file) ls s -> run life_step s (LSignal sig who :: ls') s' ->
  sig ∈ o_handlers (lf_os s) -> lf_end s' = Some e ->
  exists ls0 l, ls' = ls0 ++ [l] /\
    (e = Exited 0 /\ doneFlag (lf_glob s') = true /\
       (forall w, l = LHandler w HExit -> socket_closed (lf_glob s') (lf_os s') /\
          o_file (lf_os s') = opened_since true (ls ++ LSignal sig who :: ls')) \/
     ended_otherwise s' l e).
Proof.
  intros Hrun Hrun' Hsig Hend. pose proof (run_app _ _ _ _ _ _ Hrun Hrun') as Hall.
  destruct (life_run_inv _ _ _ _ Hall) as [Hinv Hfile].
  destruct (run_last _ _ _ _ Hrun') as [[E _] | (ls0 & l & s0 & E & Hrun0 & Hlast)]; [done |].
  destruct ls0 as [|l0 ls0]; injection E as <- ->.
  { inversion Hrun0; subst. by inversion Hlast; subst. }
  exists ls0, l. split; [done |].
  destruct (life_run_inv _ _ _ _ (run_app _ _ _ _ _ _ Hrun Hrun0)) as [Hinv0 _].
  pose proof (end_step _ _ _ _ Hlast Hinv0 Hinv Hend) as Hcase. destruct e as [status | n | f].
  - destruct Hcase as [(-> & Hd & Hhow) | (-> & a & ->)]; [left | by right].
    split_and!; [done.. |]. intros w ->. destruct Hhow as [(w' & _ & Hh & Hc) | ([ans [=]] & _)].
    split; [done |]. apply Hfile. exists (w', []). split; [done | cbn; lia].
  - right. destruct Hcase as [([w ->] & _ & Hni & _) | (-> & a & ->)]; done.
  - right. by destruct Hcase as [(i & ans & ->) | [a ->]].
Qed.

End Process.

(** ** Properties *)

Lemma demo_handles : SIGTERM ∈ o_handlers (lf_os demo_life).
Proof. by vm_compute. Qed.


(** A connection is accepted and its thread receives [SIGTERM]. The handler shuts the
    socket down; [accept] returns -1, for which a second thread is started, whose
    [recv] fails: the process ends with status 1 and the data file stays. *)
Definition demo_calls (anss : list answer) (s : life) : list label * life :=
  default ([], s) (main_calls demo_address ["aesdsocket"; "-d"]%string anss s).

Definition connected_life : life :=
  snd (demo_calls [mk_answer 4 (Some 0%nat) (Some 100%nat); plain_answer 0; plain_answer 0; plain_answer 0]
         demo_life).

(** The state with other handlers, socket state and ending. *)
Definition but_for (s : life) (o : osys) hs (e : option ending) : life (A := string) :=
  mk_life (lf_pc s) (lf_res s) (lf_glob s) o hs e.

Definition signalled_life : life :=
  but_for connected_life (lf_os connected_life)
    ((Some 100%nat, handler_steps SIGTERM) :: lf_handlers connected_life) None.

Definition shut_life : life :=
  but_for connected_life (snd (handler_step HShutdown (lf_glob connected_life) (lf_os connected_life)))
    ((Some 100%nat, tail (handler_steps SIGTERM)) :: lf_handlers connected_life) None.

Definition race_life : life := snd (demo_calls [mk_answer (-1) (Some 1%nat) (Some 101%nat)] shut_life).

Definition race_end : life :=
  but_for race_life (lf_os race_life) (lf_handlers race_life) (Some (Exited 1)).

Lemma demo_calls_run anss s e :
  lf_end (snd (demo_calls anss s)) = e -> length (fst (demo_calls anss s)) = length anss ->
  anss <> [] ->
  run (life_step demo_address ["aesdsocket"; "-d"]%string) s (fst (demo_calls anss s))
    (but_for (snd (demo_calls anss s)) (lf_os (snd (demo_calls anss s)))
       (lf_handlers (snd (demo_calls anss s))) e).
Proof.
  unfold demo_calls. destruct (main_calls _ _ anss s) as [[ls s']|] eqn:E; cbn; [| by destruct anss].
  intros <- _ _. apply main_calls_run in E. by destruct s'.
Qed.

Abbreviation demo_step := (life_step demo_address ["aesdsocket"; "-d"]%string).

Lemma signalled_step : demo_step
  (but_for connected_life (lf_os connected_life) (lf_handlers connected_life) None)
  (LSignal SIGTERM (Some 100%nat)) signalled_life.
Proof.
  unfold signalled_life, but_for. apply life_signal; [by vm_compute |].
  exists 0%nat. eexists. split; by vm_compute.
Qed.

Lemma shut_step : demo_step signalled_life (LHandler (Some 100%nat) HShutdown) shut_life.
Proof.
  unfold signalled_life, shut_life, but_for.
  exact (life_handler _ _ _ _ _ _ [] (Some 100%nat) HShutdown (tail (handler_steps SIGTERM))
    (lf_handlers connected_life) _ _ (not_elem_of_nil _) eq_refl).
Qed.

Lemma race_end_step : demo_step
  (but_for race_life (lf_os race_life) (lf_handlers race_life) None) (LRecvFails 1) race_end.
Proof.
  unfold race_end, but_for. apply life_recv_fails.
  eexists _, 101%nat. split; [by vm_compute |]. split; [by vm_compute |]. split; [by vm_compute |].
  apply (bool_decide_unpack _). by vm_compute.
Qed.

Lemma race_run : exists ls, run demo_step (life_init {[0; 1; 2]} false) (ls ++ [LRecvFails 1]) race_end.
Proof.
  pose proof (demo_calls_run [mk_answer 4 (Some 0%nat) (Some 100%nat); plain_answer 0; plain_answer 0;
    plain_answer 0] demo_life None ltac:(by_computation) ltac:(by_computation) ltac:(done)) as H1.
  pose proof (demo_calls_run [mk_answer (-1) (Some 1%nat) (Some 101%nat)] shut_life None
    ltac:(by_computation) ltac:(by_computation) ltac:(done)) as H2.
  eexists. eapply run_app; [| eapply run_cons; [exact race_end_step | apply run_nil]].
  eapply run_app; [exact demo_life_run |].
  eapply run_app; [exact H1 |]. eapply run_cons; [exact signalled_step |].
  eapply run_cons; [exact shut_step | exact H2].
Qed.

Lemma server_end_cases_witness :
  o_file (lf_os race_end) = true /\ doneFlag (lf_glob race_end) = false /\
  exists status, lf_end race_end = Some (Exited status) /\ status = 1.
Proof.
  destruct race_run as (ls & Hrun).
  destruct (server_end_cases _ _ _ _ _ _ (Exited 1) Hrun eq_refl) as (_ & _ & _ & [(E & _) | (E & _)]).
  { discriminate E. }
  split; [by vm_compute |]. split; [by vm_compute |]. exists 1. exact (conj eq_refl E).
Defined.
