(* ===== verification/SocketSystem.v ===== *)
(** The whole server of [server/aesdsocket.c]: the accept loop of [ConfigureSocket]
    interleaved with the connection threads it creates. The main thread and the
    others share the list's nodes: a thread reads its descriptor from the node it
    was given and writes [isDone] there, while the accept loop reads [isDone], joins
    the thread, removes the node and frees it. *)

From S2P Require Import Prelude CMem CString LogSpec SList.
From S2P Require Import SocketThread SocketThreadSpec SocketServer SocketMain SocketMainProps.

(** ** The main thread step by step *)

(** Where the accept loop is: at [accept], at the element [dataPointer] of the loop
    that looks for a stale thread, or waiting in [pthread_join]. *)
Inductive main_pc : Type :=
| AtAccept
| AtNode (dataPointer : option nat)
| AtJoin (dataPointer : nat).

(** The test on one element, and the move to the next. *)
Definition scan_node (s : main_state) (a : nat) : outcome main_pc :=
  d ← get_payload (head s) a;
  done ← initialised (isDone d);
  if (done : bool) then Ret (AtJoin a)
  else next ← SLIST_NEXT (head s) (Some a); Ret (AtNode next).

(** What follows once the thread has returned. *)
Definition join_node (s : main_state) (a : nat) : outcome main_state :=
  d ← get_payload (head s) a;
  '(l, js) ← reap_node a d (head s, joined s);
  Ret (with_list l js s).

(** The search without interruption, from the element [p]. *)
Fixpoint reap_alone (fuel : nat) (s : main_state) (p : option nat) : outcome main_state :=
  match fuel with
  | O => NoFuel
  | S fuel =>
      match p with
      | None => Ret s
      | Some a =>
          pc ← scan_node s a;
          match pc with
          | AtAccept => Ret s
          | AtNode next => reap_alone fuel s next
          | AtJoin a => join_node s a
          end
      end
  end.

Lemma with_list_same s : with_list (head s) (joined s) s = s.
Proof. by destruct s. Qed.

Lemma reap_alone_loop fuel s p :
  ('(_, (l, js)) ← SLIST_FOREACH fuel reap_body p (head s, joined s); Ret (with_list l js s)) =
  reap_alone fuel s p.
Proof.
  revert p. induction fuel as [|fuel IH]; intros p; cbn [SLIST_FOREACH reap_alone]; [done |].
  destruct p as [a|]; [| cbn; by rewrite with_list_same].
  unfold reap_body, scan_node. cbn [fst].
  destruct (get_payload (head s) a) as [d | |] eqn:Hd; cbn [mbind outcome_bind]; [| done..].
  destruct (initialised (isDone d)) as [b | |]; cbn [mbind outcome_bind]; [| done..].
  destruct b; cbn [mbind outcome_bind].
  - unfold join_node. rewrite Hd. cbn [mbind outcome_bind].
    by destruct (reap_node a d (head s, joined s)) as [[l js] | |].
  - cbn [fst]. destruct (SLIST_NEXT (head s) (Some a)) as [p | |]; cbn [mbind outcome_bind]; [| done..].
    apply IH.
Qed.

(** A turn whose steps are not interrupted is [accept_turn]. *)
Lemma turn_alone s fd ptr tid :
  (s ← accept_insert s fd ptr tid;
   reap_alone (S (size (nodes (head s)))) s (SLIST_FIRST (head s))) =
  accept_turn s fd ptr tid.
Proof.
  unfold accept_turn. destruct (accept_insert s fd ptr tid) as [s' | |]; cbn [mbind outcome_bind];
    [| done..].
  by rewrite <- reap_alone_loop.
Qed.

(** [params->threadFD] *)
Definition thread_param (s : main_state) (a : nat) : outcome Z :=
  d ← get_payload (head s) a; initialised (threadFD d).

(** ** The system *)

(** [sys_conns] holds, for every thread created, the node its argument points into
    and the descriptor it was created for; [sys_done] the threads that have
    executed [params->isDone = true], [sys_returned] those that have returned. The
    identifiers of threads are not reused. *)
Record system (F : Type) : Type := mk_system {
  sys_main : main_state;
  sys_pc : main_pc;
  sys_srv : server F;
  sys_conns : gmap nat (nat * Z);
  sys_done : gset nat;
  sys_returned : gset nat;
}.
Arguments mk_system {F}.
Arguments sys_main {F}.
Arguments sys_pc {F}.
Arguments sys_srv {F}.
Arguments sys_conns {F}.
Arguments sys_done {F}.
Arguments sys_returned {F}.

Inductive sys_event : Type :=
| Connected (fd : Z) (t : nat)
| NotCreated (fd : Z)
| MainMoves
| ThreadMoves (t : nat)
| ThreadMarks (t : nat)
| ThreadReturns (t : nat).

Section System.
Context {F : Type} `{!DataFile F} (mem : Z -> bool).

(** The next step of the thread is [recv] or [send]. *)
Definition uses_socket (f : F) (th : thread) : Prop :=
  match t_phase th with
  | Receiving => packetComplete (t_recv th) = false
  | Sending pos => is_Some (fread1 f pos)
  | _ => False
  end.

(** The sending loop has ended and the mutex is still held: where [isDone] is set. *)
Definition sent_all (f : F) (th : thread) : Prop :=
  exists pos, t_phase th = Sending pos /\ fread1 f pos = None.

Inductive sys_step : system F -> sys_event -> system F -> Prop :=
| sys_accept m m' srv cs dn rt fd a t :
    nodes (head m) !! a = None -> cs !! t = None ->
    accept_insert m fd (Some a) (Some t) = Ret m' ->
    sys_step (mk_system m AtAccept srv cs dn rt) (Connected fd t)
      (mk_system m' (AtNode (SLIST_FIRST (head m'))) srv (<[t := (a, fd)]> cs) dn rt)
| sys_no_thread m m' srv cs dn rt fd a :
    nodes (head m) !! a = None -> accept_insert m fd (Some a) None = Ret m' ->
    sys_step (mk_system m AtAccept srv cs dn rt) (NotCreated fd)
      (mk_system m' (AtNode (SLIST_FIRST (head m'))) srv cs dn rt)
| sys_scan_end m srv cs dn rt :
    sys_step (mk_system m (AtNode None) srv cs dn rt) MainMoves
      (mk_system m AtAccept srv cs dn rt)
| sys_scan m srv cs dn rt a pc :
    scan_node m a = Ret pc ->
    sys_step (mk_system m (AtNode (Some a)) srv cs dn rt) MainMoves
      (mk_system m pc srv cs dn rt)
| sys_join m m' srv cs dn rt a d t :
    get_payload (head m) a = Ret d -> initialised (ID d) = Ret t -> t ∈ rt ->
    join_node m a = Ret m' ->
    sys_step (mk_system m (AtJoin a) srv cs dn rt) MainMoves
      (mk_system m' AtAccept srv cs dn rt)
| sys_thread m pc srv srv' cs dn rt t a fd :
    cs !! t = Some (a, fd) -> server_step mem srv t srv' ->
    (forall th, threads srv !! t = Some th -> uses_socket (dataFile srv) th ->
       safe (thread_param m a)) ->
    (forall th, threads srv !! t = Some th -> sent_all (dataFile srv) th -> t ∈ dn) ->
    sys_step (mk_system m pc srv cs dn rt) (ThreadMoves t)
      (mk_system m pc srv' cs dn rt)
| sys_mark m m' pc srv cs dn rt t a fd th :
    cs !! t = Some (a, fd) -> threads srv !! t = Some th -> sent_all (dataFile srv) th ->
    t ∉ dn -> thread_done m a = Ret m' ->
    sys_step (mk_system m pc srv cs dn rt) (ThreadMarks t)
      (mk_system m' pc srv cs ({[t]} ∪ dn) rt)
| sys_return m pc srv cs dn rt t th :
    threads srv !! t = Some th -> t_phase th = Finished -> t ∉ rt ->
    sys_step (mk_system m pc srv cs dn rt) (ThreadReturns t)
      (mk_system m pc srv cs dn ({[t]} ∪ rt)).

(** The state after [ConfigureSocket] has set the server up. *)
Definition sys_init (sock : Z) (f : F) : system F :=
  mk_system (configure_init sock ∅) AtAccept (server_init f) ∅ ∅ ∅.

(** ** The invariant *)

(** The packet has been stored: nothing but the answer is left to be sent. *)
Definition past_store (th : thread) : Prop :=
  t_phase th = Finished \/ exists pos, t_phase th = Sending pos.

Definition pc_ok (m : main_state) (pc : main_pc) : Prop :=
  match pc with
  | AtAccept | AtNode None => True
  | AtNode (Some a) => is_Some (payloads (head m) !! a)
  | AtJoin a => exists d, payloads (head m) !! a = Some d /\ isDone d = Some true
  end.

(** The node of a thread that has not been joined. *)
Definition node_of (dn : gset nat) (t : nat) (fd : Z) : ThreadsDef :=
  mk_threads_def (Some (bool_decide (t ∈ dn))) (Some t) (Some fd).

(** The node of a connection whose thread could not be created. *)
Definition orphan (fd : Z) : ThreadsDef := mk_threads_def (Some false) None (Some fd).

(** Every thread that has not been joined has a node of its own in the list, with
    its identifier, its descriptor and whether it is done; every node is one of
    these, or belongs to a connection without a thread; only threads that have
    returned have been joined. *)
Record sys_inv (s : system F) : Prop := mk_sys_inv {
  si_list : main_inv (sys_main s);
  si_node : forall t a fd, sys_conns s !! t = Some (a, fd) -> t ∉ joined (sys_main s) ->
    payloads (head (sys_main s)) !! a = Some (node_of (sys_done s) t fd);
  si_owner : forall a d, payloads (head (sys_main s)) !! a = Some d ->
    (exists t fd, sys_conns s !! t = Some (a, fd) /\ t ∉ joined (sys_main s)) \/
    exists fd, d = orphan fd;
  si_done : forall t, t ∈ sys_done s ->
    exists th, threads (sys_srv s) !! t = Some th /\ past_store th;
  si_finished : forall t th, threads (sys_srv s) !! t = Some th -> t_phase th = Finished ->
    t ∈ sys_done s;
  si_returned : forall t, t ∈ sys_returned s ->
    exists th, threads (sys_srv s) !! t = Some th /\ t_phase th = Finished;
  si_joined : forall t, t ∈ joined (sys_main s) -> t ∈ sys_returned s;
  si_known : forall t th, threads (sys_srv s) !! t = Some th -> is_Some (sys_conns s !! t);
  si_pc : pc_ok (sys_main s) (sys_pc s);
}.

Lemma sys_inv_init sock f : sys_inv (sys_init sock f).
Proof.
  split; cbn.
  - apply configure_init_inv.
  - by intros t a fd.
  - intros a d. unfold payloads. cbn. by rewrite lookup_fmap, lookup_empty.
  - by intros t ?%elem_of_empty.
  - by intros t th.
  - by intros t ?%elem_of_empty.
  - by intros t ?%elem_of_nil.
  - by intros t th.
  - done.
Qed.

(** *** The list's nodes *)

Lemma payloads_live l a : is_Some (payloads l !! a) <-> is_Some (nodes l !! a).
Proof. unfold payloads. by rewrite lookup_fmap, fmap_is_Some. Qed.

Lemma get_payload_payloads l a d : get_payload l a = Ret d <-> payloads l !! a = Some d.
Proof.
  unfold get_payload, payloads. rewrite lookup_fmap.
  destruct (nodes l !! a); cbn; split; intros H; by inversion H.
Qed.

Lemma payloads_connected_insert l a fd t :
  payloads (connected l a fd t) =
  <[a := mk_threads_def (Some false) t (Some fd)]> (payloads l).
Proof. unfold payloads, connected. cbn. by rewrite fmap_insert. Qed.

Lemma thread_done_payloads s a s' :
  thread_done s a = Ret s' ->
  exists d, payloads (head s) !! a = Some d /\ joined s' = joined s /\
    payloads (head s') = <[a := set_isDone (Some true) d]> (payloads (head s)).
Proof.
  unfold thread_done, set_payload. destruct (nodes (head s) !! a) as [n|] eqn:Hn; [| done].
  intros [= <-]. exists (payload n). split; [by apply payloads_lookup | split; [done |]].
  unfold payloads. cbn. by rewrite fmap_insert.
Qed.

(** The element after one of the list's is one of the list's too. *)
Lemma next_listed l ids a p :
  list_inv l ids -> a ∈ ids -> SLIST_NEXT l (Some a) = Ret p ->
  match p with Some b => is_Some (payloads l !! b) | None => True end.
Proof.
  intros [[Hs _] Hall _] (ids1 & ids2 & ->)%list_elem_of_split Hp.
  apply segment_app in Hs as (r & _ & -> & n & Hn & Hs). unfold SLIST_NEXT in Hp.
  cbn in Hp. rewrite Hn in Hp. injection Hp as <-. destruct ids2 as [|b ids2]; cbn in Hs.
  - by rewrite Hs.
  - destruct Hs as (-> & m & Hm & _). apply payloads_live. by eexists.
Qed.

Lemma listed s ids a :
  list_inv (head s) ids -> is_Some (payloads (head s) !! a) -> a ∈ ids.
Proof. intros Hinv Ha. apply (li_all _ _ Hinv). by apply payloads_live. Qed.

(** *** The steps *)

(** What a thread's step does to the threads. *)
Lemma server_step_thread srv t srv' :
  server_step mem srv t srv' ->
  (forall t', t' <> t -> threads srv' !! t' = threads srv !! t') /\
  exists th', threads srv' !! t = Some th' /\
    match threads srv !! t with
    | None => t_phase th' = Receiving
    | Some th => t_phase th <> Finished /\ (past_store th -> past_store th') /\
        (t_phase th' = Finished -> sent_all (dataFile srv) th)
    end.
Proof.
  intros Hstep.
  destruct Hstep as [[f n m ths] t st Hnone _ | f n m ths t th a turn n' st Hth Hp _ _ _ Hturn
    | [f n m ths] t th Hth Hp _ | f n ths t th Hth Hp | f n m ths t th f' pos Hth Hp _
    | [f n m ths] t th pos c Hth Hp _ | f n m ths t th pos Hth Hp Hread]; cbn in *.
  all: split; [by intros; rewrite lookup_insert_ne |].
  all: rewrite lookup_insert_eq; eexists; split; [done |].
  1: by rewrite Hnone.
  all: rewrite Hth; unfold past_store, sent_all; rewrite Hp; cbn; split; [done | split].
  all: try discriminate; try (intros [? | [? ?]]; discriminate).
  - by destruct Hturn as [-> | ->].
  - by intros _; right; eexists.
  - by left.
  - by intros _; eexists.
Qed.

Lemma fresh_thread m pc srv cs dn rt t :
  sys_inv (mk_system m pc srv cs dn rt) -> cs !! t = None ->
  threads srv !! t = None /\ (t ∉ dn) /\ (t ∉ joined m).
Proof.
  intros Hinv Hcs. assert (threads srv !! t = None) as Hth.
  { destruct (threads srv !! t) as [th|] eqn:E; [| done].
    destruct (si_known _ Hinv t th E) as [x Hx]. cbn in Hx. by rewrite Hcs in Hx. }
  split_and!; [done | |].
  - intros (th & E & _)%(si_done _ Hinv). cbn in E. by rewrite Hth in E.
  - intros (th & E & _)%(si_joined _ Hinv)%(si_returned _ Hinv). cbn in E. by rewrite Hth in E.
Qed.

Lemma inv_accept m srv cs dn rt fd a t :
  sys_inv (mk_system m AtAccept srv cs dn rt) -> nodes (head m) !! a = None -> cs !! t = None ->
  sys_inv (mk_system (accepted m fd a (Some t)) (AtNode (Some a)) srv (<[t := (a, fd)]> cs) dn rt).
Proof.
  intros Hinv Ha Ht. destruct (fresh_thread _ _ _ _ _ _ _ Hinv Ht) as (Hth & Hdn & Hj).
  assert (payloads (head m) !! a = None) as Hpa by (unfold payloads; by rewrite lookup_fmap, Ha).
  pose proof Hinv as [[ids Hl] Hn Ho Hd Hf Hr Hjn Hk _]. cbn in *.
  split; cbn [sys_main sys_pc sys_srv sys_conns sys_done sys_returned accepted joined head];
    try done.
  - exists (a :: ids). apply connected_inv; [done |]. by apply (not_listed (head m)).
  - intros t' a' fd' [[<- [= <- <-]] | [Hne Hc]]%lookup_insert_Some Hj';
      rewrite payloads_connected_insert.
    + rewrite lookup_insert_eq. unfold node_of. by rewrite bool_decide_eq_false_2.
    + pose proof (Hn t' a' fd' Hc Hj') as Hp. rewrite lookup_insert_ne; [done |].
      intros <-. by rewrite Hpa in Hp.
  - intros a' d. rewrite payloads_connected_insert. destruct (decide (a' = a)) as [-> | Hne].
    + intros _. left. exists t, fd. by rewrite lookup_insert_eq.
    + rewrite lookup_insert_ne by done. intros [(t' & fd' & Hc & Hj') | ?]%Ho; [| by right].
      left. exists t', fd'.
      split; [| done]. rewrite lookup_insert_ne; [done |]. intros <-. by rewrite Ht in Hc.
  - intros t' th E. destruct (Hk t' th E) as [x Hx]. destruct (decide (t' = t)) as [-> | Hne];
      [by rewrite lookup_insert_eq | rewrite lookup_insert_ne by done; by eexists].
  - unfold pc_ok. cbn [accepted head]. rewrite payloads_connected_insert, lookup_insert_eq. by eexists.
Qed.

Lemma inv_no_thread m srv cs dn rt fd a :
  sys_inv (mk_system m AtAccept srv cs dn rt) -> nodes (head m) !! a = None ->
  sys_inv (mk_system (accepted m fd a None) (AtNode (Some a)) srv cs dn rt).
Proof.
  intros Hinv Ha.
  assert (payloads (head m) !! a = None) as Hpa by (unfold payloads; by rewrite lookup_fmap, Ha).
  pose proof Hinv as [[ids Hl] Hn Ho Hd Hf Hr Hjn Hk _]. cbn in *.
  split; cbn [sys_main sys_pc sys_srv sys_conns sys_done sys_returned accepted joined head];
    try done.
  - exists (a :: ids). apply connected_inv; [done |]. by apply (not_listed (head m)).
  - intros t' a' fd' Hc Hj'. rewrite payloads_connected_insert.
    pose proof (Hn t' a' fd' Hc Hj') as Hp. rewrite lookup_insert_ne; [done |].
    intros <-. by rewrite Hpa in Hp.
  - intros a' d. rewrite payloads_connected_insert. destruct (decide (a' = a)) as [-> | Hne].
    + rewrite lookup_insert_eq. intros [= <-]. right. by exists fd.
    + rewrite lookup_insert_ne by done. apply Ho.
  - unfold pc_ok. cbn [accepted head]. rewrite payloads_connected_insert, lookup_insert_eq. by eexists.
Qed.

Lemma inv_pc m pc pc' srv cs dn rt :
  sys_inv (mk_system m pc srv cs dn rt) -> pc_ok m pc' ->
  sys_inv (mk_system m pc' srv cs dn rt).
Proof. by intros [] ?. Qed.

Lemma scan_node_ok m ids a pc :
  list_inv (head m) ids -> is_Some (payloads (head m) !! a) -> scan_node m a = Ret pc -> pc_ok m pc.
Proof.
  intros Hl Ha H. unfold scan_node in H. apply bind_Ret_inv in H as (d & Hd & H).
  apply bind_Ret_inv in H as (b & Hb & H). destruct b.
  - injection H as <-. exists d. apply get_payload_payloads in Hd. split; [done |].
    destruct (isDone d); cbn in Hb; congruence.
  - apply bind_Ret_inv in H as (p & Hp & H). injection H as <-.
    pose proof (next_listed (head m) ids a p Hl (listed m ids a Hl Ha) Hp). by destruct p.
Qed.

(** Joining a thread: its node is the one removed. *)
Lemma inv_join m m' srv cs dn rt a d t :
  sys_inv (mk_system m (AtJoin a) srv cs dn rt) ->
  get_payload (head m) a = Ret d -> initialised (ID d) = Ret t -> t ∈ rt ->
  join_node m a = Ret m' ->
  sys_inv (mk_system m' AtAccept srv cs dn rt).
Proof.
  intros [[ids Hl] Hn Ho Hd Hf Hr Hjn Hk _] Hg Hid Hrt H. cbn in *.
  unfold join_node in H. rewrite Hg in H. cbn [mbind outcome_bind] in H.
  apply get_payload_payloads in Hg.
  destruct (Ho a d Hg) as [(t0 & fd & Hc & Hj) | [fd ->]]; [| discriminate Hid].
  pose proof (Hn t0 a fd Hc Hj) as Hd'. rewrite Hg in Hd'. injection Hd' as ->.
  injection Hid as <-.
  pose proof (listed m ids a Hl ltac:(by eexists)) as (ids1 & ids2 & ->)%list_elem_of_split.
  destruct (reap_node_spec (head m) ids1 a ids2 (node_of dn t0 fd) (joined m) Hl Hg ltac:(by eexists))
    as (l' & E & Hl' & Hp). rewrite E in H. injection H as <-.
  assert (thread_id (head m) a = t0) as -> by (unfold thread_id; by rewrite Hg).
  split; cbn [sys_main sys_pc sys_srv sys_conns sys_done sys_returned with_list joined head pc_ok];
    try done.
  - by exists (ids1 ++ ids2).
  - intros t' a' fd' Hc' [Hj' Hne]%not_elem_of_app. rewrite Hp.
    pose proof (Hn t' a' fd' Hc' Hj') as Hd'. rewrite lookup_delete_ne; [done |].
    intros <-. rewrite Hg in Hd'. injection Hd' as _ <-. by apply Hne, list_elem_of_singleton.
  - intros a' x. rewrite Hp. intros [Hne Hx]%lookup_delete_Some.
    destruct (Ho a' x Hx) as [(t' & fd' & Hc' & Hj') | ?]; [left | by right].
    exists t', fd'. split; [done |].
    intros [? | ->%list_elem_of_singleton]%elem_of_app; [done |]. rewrite Hc in Hc'. congruence.
  - intros t' [? | ->%list_elem_of_singleton]%elem_of_app; [by apply Hjn | done].
Qed.

Lemma inv_thread m pc srv srv' cs dn rt t a fd :
  sys_inv (mk_system m pc srv cs dn rt) -> cs !! t = Some (a, fd) -> server_step mem srv t srv' ->
  (forall th, threads srv !! t = Some th -> sent_all (dataFile srv) th -> t ∈ dn) ->
  sys_inv (mk_system m pc srv' cs dn rt).
Proof.
  intros [Hl Hn Ho Hd Hf Hr Hjn Hk Hpc] Hc Hstep Hmark. cbn in *.
  destruct (server_step_thread _ _ _ Hstep) as (Hother & th' & Hth' & Hphase).
  split; cbn; try done.
  - intros t' Hin. pose proof (Hd t' Hin) as (th & Hth & Hpast).
    destruct (decide (t' = t)) as [-> | Hne].
    + rewrite Hth in Hphase. exists th'. split; [done |]. by apply Hphase.
    + exists th. by rewrite Hother.
  - intros t' th Hth Hfin. destruct (decide (t' = t)) as [-> | Hne].
    + rewrite Hth' in Hth. injection Hth as <-. destruct (threads srv !! t) as [th0|] eqn:E.
      * apply (Hmark th0 eq_refl). by apply Hphase.
      * by rewrite Hphase in Hfin.
    + apply (Hf t' th); [by rewrite <- Hother | done].
  - intros t' Hin. destruct (Hr t' Hin) as (th & Hth & Hfin). exists th.
    destruct (decide (t' = t)) as [-> | Hne]; [| by rewrite Hother].
    rewrite Hth in Hphase. by destruct Hphase as [[] _].
  - intros t' th Hth. destruct (decide (t' = t)) as [-> | Hne]; [by eexists |].
    apply (Hk t' th). by rewrite <- Hother.
Qed.

Lemma inv_mark m m' pc srv cs dn rt t a fd th :
  sys_inv (mk_system m pc srv cs dn rt) ->
  cs !! t = Some (a, fd) -> threads srv !! t = Some th -> sent_all (dataFile srv) th ->
  thread_done m a = Ret m' ->
  sys_inv (mk_system m' pc srv cs ({[t]} ∪ dn) rt).
Proof.
  intros [[ids Hl] Hn Ho Hd Hf Hr Hjn Hk Hpc] Hc Hth (pos & Hp & Hread) Hdone. cbn in *.
  destruct (thread_done_payloads _ _ _ Hdone) as (d & Hda & Hj & Hpay).
  assert (t ∉ joined m) as Htj.
  { intros (th0 & E & Hfin)%Hjn%Hr. rewrite Hth in E. injection E as <-. by rewrite Hp in Hfin. }
  pose proof (Hn t a fd Hc Htj) as Hd'. rewrite Hda in Hd'. injection Hd' as ->.
  destruct (thread_done_spec m ids a _ Hl Hda ltac:(by eexists)) as (m1 & E & Hl1 & _).
  rewrite Hdone in E. injection E as <-.
  split; cbn [sys_main sys_pc sys_srv sys_conns sys_done sys_returned]; rewrite ?Hj; try done.
  - by exists ids.
  - intros t' a' fd' Hc' Hj'. pose proof (Hn t' a' fd' Hc' Hj') as Hd'. rewrite Hpay.
    destruct (decide (t' = t)) as [-> | Hne].
    + rewrite Hc in Hc'. injection Hc' as <- <-. rewrite lookup_insert_eq. unfold node_of.
      by rewrite (bool_decide_eq_true_2 (t ∈ {[t]} ∪ dn)) by set_solver.
    + rewrite lookup_insert_ne.
      * rewrite Hd'. unfold node_of. do 3 f_equal. apply bool_decide_ext. clear -Hne. set_solver.
      * intros <-. rewrite Hda in Hd'. injection Hd' as _ <-. done.
  - intros a' x. rewrite Hpay. intros [[<- <-] | [Hne Hx]]%lookup_insert_Some; [| by apply (Ho a' x)].
    left. by exists t, fd.
  - intros t' [->%elem_of_singleton | Hin]%elem_of_union; [| by apply Hd].
    exists th. split; [done |]. right. by eexists.
  - intros t' th' E Hfin. apply elem_of_union_r. by apply (Hf t' th').
  - unfold pc_ok in *. rewrite Hpay. destruct pc as [| [b|] | b]; [done | | done |].
    + destruct (decide (b = a)) as [-> | Hne];
        [by rewrite lookup_insert_eq | by rewrite lookup_insert_ne].
    + destruct Hpc as (d & Hb & Hdn). destruct (decide (b = a)) as [-> | Hne].
      * rewrite lookup_insert_eq. by eexists.
      * exists d. by rewrite lookup_insert_ne.
Qed.

Lemma sys_step_inv s ev s' : sys_step s ev s' -> sys_inv s -> sys_inv s'.
Proof.
  intros Hstep Hinv. destruct Hstep as [m m' srv cs dn rt fd a t Ha Hc Hacc | m m' srv cs dn rt fd a Ha Hacc | | m srv cs dn rt a pc Hs
    | m m' srv cs dn rt a d t Hg Hid Hrt Hj | m pc srv srv' cs dn rt t a fd Hc Hst _ Hmark
    | m m' pc srv cs dn rt t a fd th Hc Hth Hsent _ Hdone | m pc srv cs dn rt t th Hth Hfin _].
  - rewrite accept_insert_spec in Hacc. injection Hacc as <-. by apply inv_accept.
  - rewrite accept_insert_spec in Hacc. injection Hacc as <-. by apply inv_no_thread.
  - by eapply inv_pc.
  - eapply inv_pc; [done |]. destruct (si_list _ Hinv) as [ids Hl].
    exact (scan_node_ok _ ids a pc Hl (si_pc _ Hinv) Hs).
  - by eapply inv_join.
  - by eapply inv_thread.
  - by eapply inv_mark.
  - destruct Hinv as [H1 H2 H3 H4 H5 H6 H7 H8 H9]. split; cbn in *; try done.
    + intros t' [->%elem_of_singleton | Hin]%elem_of_union; [by exists th | by apply H6].
    + intros t' Hin%H7. by apply elem_of_union_r.
Qed.

(** ** Runs *)

Lemma sys_run_inv sock f evs s : run sys_step (sys_init sock f) evs s -> sys_inv s.
Proof.
  intros Hrun. apply (run_invariant sys_step sys_inv sys_step_inv _ _ _ Hrun), sys_inv_init.
Qed.

(** The threads of a run of the system make a run of [SocketServer]. *)
Lemma sys_run_server s evs s' :
  run sys_step s evs s' -> exists ts, run (server_step mem) (sys_srv s) ts (sys_srv s').
Proof.
  induction 1 as [s | s ev s1 evs s2 Hstep _ [ts IH]]; [exists []; constructor |].
  destruct Hstep; cbn in *; try (by exists ts). eexists (_ :: ts). by eapply run_cons.
Qed.

(** A thread working on the file keeps the others from changing it. *)
Lemma server_step_file f0 cs srv t srv' t' th' :
  server_inv f0 cs srv -> server_step mem srv t srv' -> t <> t' ->
  threads srv !! t' = Some th' -> (exists pos, t_phase th' = Sending pos) ->
  dataFile srv' = dataFile srv.
Proof.
  intros [_ Hall _ _ _] Hstep Hne Ht' [pos' Hp'].
  destruct Hstep as [[]| | []| | f n m ths t th f' pos Hth Hp Hst | []|]; try done.
  pose proof (Hall t th Hth) as H1. pose proof (Hall t' th' Ht') as H2. cbn in *.
  unfold thread_inv in H1, H2. rewrite Hp in H1. rewrite Hp' in H2.
  destruct H1 as [-> _], H2 as [[= ->] _]. done.
Qed.

(** A thread that has sent all its answer can only release the mutex. *)
Lemma server_step_last srv t srv' th :
  server_step mem srv t srv' -> threads srv !! t = Some th -> sent_all (dataFile srv) th ->
  exists th', threads srv' !! t = Some th' /\ t_phase th' = Finished.
Proof.
  intros Hstep Ht (pos & Hp & Hread).
  destruct Hstep as [[f n m ths] t st Hnone _ | f n m ths t th0 a turn n' st Hth Hp0 _ _ _ _
    | [f n m ths] t th0 Hth Hp0 _ | f n ths t th0 Hth Hp0 | f n m ths t th0 f' pos0 Hth Hp0 _
    | [f n m ths] t th0 pos0 c Hth Hp0 Hr | f n m ths t th0 pos0 Hth Hp0 Hr]; cbn in *;
    try (rewrite Ht in Hth; injection Hth as <-); try congruence.
  rewrite lookup_insert_eq. by eexists.
Qed.

(** The threads that are done have nothing left to send. *)
Definition done_sent (s : system F) : Prop :=
  forall t th, t ∈ sys_done s -> threads (sys_srv s) !! t = Some th ->
    t_phase th = Finished \/ sent_all (dataFile (sys_srv s)) th.

Lemma sys_step_done_sent f0 cs s ev s' :
  sys_step s ev s' -> sys_inv s -> server_inv f0 cs (sys_srv s) -> done_sent s -> done_sent s'.
Proof.
  intros Hstep Hinv Hsrv Hdone. destruct Hstep as [| | | | | m pc srv srv' cs0 dn rt t a fd Hc Hst _ _
    | m m' pc srv cs0 dn rt t a fd th Hc Hth Hsent _ _ |]; try exact Hdone.
  - intros t' th' Hin Hth'. cbn in *. destruct (server_step_thread _ _ _ Hst) as (Hother & th1 & Hth1 & Hph).
    destruct (decide (t' = t)) as [-> | Hne].
    + left. destruct (si_done _ Hinv t Hin) as (th & Hth & _). cbn in Hth.
      rewrite Hth in Hph. destruct (Hdone t th Hin Hth) as [Hfin | Hall]; [by destruct Hph as [[] _] |].
      destruct (server_step_last _ _ _ _ Hst Hth Hall) as (th2 & E & Hfin). congruence.
    + rewrite Hother in Hth' by done. destruct (Hdone t' th' Hin Hth') as [| (pos & Hp & Hr)];
        [by left | right]. exists pos. split; [done |].
      by rewrite (server_step_file f0 cs srv t srv' t' th' Hsrv Hst) by eauto.
  - intros t' th' Hin Hth'. cbn in Hin, Hth'.
    apply elem_of_union in Hin as [->%elem_of_singleton | Hin].
    + rewrite Hth in Hth'. injection Hth' as <-. by right.
    + exact (Hdone t' th' Hin Hth').
Qed.

Lemma sys_run_done_sent f0 s evs s' :
  run sys_step s evs s' -> sys_inv s -> (exists cs, server_inv f0 cs (sys_srv s)) ->
  done_sent s -> done_sent s'.
Proof.
  induction 1 as [s | s ev s1 evs s2 Hstep _ IH]; intros Hinv [cs Hsrv] Hd; [done |].
  apply IH.
  - by eapply sys_step_inv.
  - destruct (sys_run_server s [ev] s1) as [ts Hts]; [eapply run_cons; [done | constructor] |].
    apply (server_run_inv mem f0 _ _ _ Hts). by exists cs.
  - by eapply sys_step_done_sent.
Qed.

(** What the main thread finds at its current step. *)
Definition main_safe (s : system F) : Prop :=
  match sys_pc s with
  | AtAccept => forall fd a tid, safe (accept_insert (sys_main s) fd (Some a) tid)
  | AtNode None => True
  | AtNode (Some a) => safe (scan_node (sys_main s) a)
  | AtJoin a => exists t fd d, sys_conns s !! t = Some (a, fd) /\ t ∈ sys_done s /\
      get_payload (head (sys_main s)) a = Ret d /\ initialised (ID d) = Ret t /\
      exists m', join_node (sys_main s) a = Ret m' /\
        joined m' = joined (sys_main s) ++ [t] /\ nodes (head m') !! a = None
  end.

Lemma sys_inv_main_safe s : sys_inv s -> main_safe s.
Proof.
  intros Hinv. pose proof Hinv as [[ids Hl] Hn Ho Hd Hf Hr Hjn Hk Hpc]. unfold main_safe.
  destruct (sys_pc s) as [| [a|] | a]; cbn in Hpc; [| | done |].
  - intros fd a t. rewrite accept_insert_spec. by eexists.
  - pose proof (listed _ ids a Hl Hpc) as Ha.
    destruct (list_inv_payload _ _ _ Hl Ha) as (d & Hg & _ & [b Hb] & _).
    unfold scan_node. rewrite Hg. cbn. rewrite Hb. cbn. destruct b; [by eexists |].
    pose proof Ha as [n Hnode]%(li_all _ _ Hl). unfold SLIST_NEXT. rewrite Hnode. by eexists.
  - destruct Hpc as (d & Hd0 & Hdone).
    destruct (Ho a d Hd0) as [(t & fd & Hc & Hj) | [fd ->]]; [| discriminate Hdone].
    pose proof (Hn t a fd Hc Hj) as Hp. rewrite Hd0 in Hp. injection Hp as ->.
    exists t, fd, (node_of (sys_done s) t fd).
    pose proof (listed _ ids a Hl ltac:(by eexists)) as (ids1 & ids2 & ->)%list_elem_of_split.
    destruct (reap_node_spec _ ids1 a ids2 _ (joined (sys_main s)) Hl Hd0 ltac:(by eexists))
      as (l' & E & Hl' & Hp).
    split_and!; [done | | by apply get_payload_payloads | done |].
    + unfold node_of in Hdone. cbn in Hdone. injection Hdone as Hdone.
      by apply bool_decide_eq_true in Hdone.
    + unfold join_node. rewrite (proj2 (get_payload_payloads _ _ _) Hd0). cbn [mbind outcome_bind].
      rewrite E. cbn [mbind outcome_bind]. eexists. split; [done |]. cbn. split.
      * unfold thread_id. by rewrite Hd0.
      * apply eq_None_not_Some. rewrite <- payloads_live, Hp, lookup_delete_eq. by intros [].
Qed.

(** The node has been joined and freed, in at most three steps. *)
Definition joins_soon (s : system F) (a t : nat) : Prop :=
  exists evs s', run sys_step s evs s' /\ (length evs <= 3)%nat /\ sys_pc s' = AtAccept /\
    joined (sys_main s') = joined (sys_main s) ++ [t] /\
    nodes (head (sys_main s')) !! a = None.

Lemma joins_when_returned s a t d m' :
  sys_pc s = AtJoin a -> get_payload (head (sys_main s)) a = Ret d -> initialised (ID d) = Ret t ->
  t ∈ sys_returned s -> join_node (sys_main s) a = Ret m' ->
  run sys_step s [MainMoves] (mk_system m' AtAccept (sys_srv s) (sys_conns s) (sys_done s)
                                (sys_returned s)).
Proof.
  destruct s as [m pc srv cs dn rt]. cbn. intros -> Hg Hid Hrt Hj.
  eapply run_cons; [by eapply sys_join | constructor].
Qed.

Lemma joins_when_finished s a t d m' th :
  sys_pc s = AtJoin a -> get_payload (head (sys_main s)) a = Ret d -> initialised (ID d) = Ret t ->
  join_node (sys_main s) a = Ret m' -> threads (sys_srv s) !! t = Some th ->
  t_phase th = Finished ->
  exists evs s', run sys_step s evs s' /\ (length evs <= 2)%nat /\ sys_pc s' = AtAccept /\
    sys_main s' = m'.
Proof.
  intros Hpc Hg Hid Hj Hth Hfin. destruct (decide (t ∈ sys_returned s)) as [Hin | Hni].
  - exists [MainMoves]. eexists. split; [by eapply joins_when_returned |]. cbn. auto with lia.
  - destruct s as [m pc srv cs dn rt]. cbn in *. subst pc.
    exists [ThreadReturns t; MainMoves]. eexists. split.
    + eapply run_cons; [by eapply sys_return |].
      eapply (joins_when_returned (mk_system m (AtJoin a) srv cs dn ({[t]} ∪ rt))); try done.
      cbn. by apply elem_of_union_l, elem_of_singleton.
    + cbn. auto with lia.
Qed.

Lemma joins_from_sent s a t fd d m' :
  sys_inv s -> done_sent s -> sys_pc s = AtJoin a -> sys_conns s !! t = Some (a, fd) ->
  t ∈ sys_done s -> get_payload (head (sys_main s)) a = Ret d -> initialised (ID d) = Ret t ->
  join_node (sys_main s) a = Ret m' ->
  exists evs s', run sys_step s evs s' /\ (length evs <= 3)%nat /\ sys_pc s' = AtAccept /\
    sys_main s' = m'.
Proof.
  intros Hinv Hsent Hpc Hc Hin Hg Hid Hj. destruct (si_done _ Hinv t Hin) as (th & Hth & _).
  destruct (Hsent t th Hin Hth) as [Hfin | Hall].
  - destruct (joins_when_finished s a t d m' th) as (evs & s' & Hrun & Hlen & H); [done.. |].
    exists evs, s'. split; [done |]. split; [lia | done].
  - pose proof Hall as (pos & Hp & Hread). destruct s as [m pc [f n mx ths] cs dn rt]. cbn in *.
    subst pc.
    set (srv' := put t (at_phase Finished th) (mk_server f n None ths)).
    destruct (joins_when_finished (mk_system m (AtJoin a) srv' cs dn rt) a t d m'
      (at_phase Finished th)) as (evs & s' & Hrun & Hlen & H); [done.. | | done |].
    { cbn. by rewrite lookup_insert_eq. }
    exists (ThreadMoves t :: evs), s'. split; [| cbn; split; [lia | done]].
    eapply run_cons; [| exact Hrun]. eapply sys_thread; [done | by eapply step_finish | |].
    + cbn. intros th0 E Huse. rewrite Hth in E. injection E as <-. unfold uses_socket in Huse.
      rewrite Hp, Hread in Huse. by destruct Huse.
    + by cbn.
Qed.
End System.
