(* ===== verification/SocketSystemProps.v ===== *)
(** The properties of the whole server: its main thread and connection threads share
    the nodes of the list without a fault, and joining a finished thread ends. *)

From S2P Require Import Prelude CMem CString LogSpec SList.
From S2P Require Import SocketThread SocketThreadSpec SocketServer SocketServerProps SocketMain SocketMainProps SocketSystem.

(** ** A concrete run, for the witnesses

    A client is accepted and sends a line; its thread stores it, sends it back and
    marks itself done; before it releases the mutex a second client is accepted, and
    the main thread, looking for stale threads, waits for the first one. *)
Definition demo_events : list sys_event :=
  [Connected 4 0; MainMoves; MainMoves;
   ThreadMoves 0; ThreadMoves 0; ThreadMoves 0; ThreadMoves 0; ThreadMoves 0;
   ThreadMoves 0; ThreadMoves 0; ThreadMarks 0;
   Connected 5 1; MainMoves; MainMoves].

(** A step of thread 0, which is not at the end of its answer. *)
Local Ltac thread_moves step :=
  eapply run_cons;
  [eapply sys_thread;
   [reflexivity | step | intros; eexists; reflexivity |
    let E := fresh in let Hp := fresh in let Hr := fresh in
    intros ? E (? & Hp & Hr); vm_compute in E; first [discriminate E | injection E as <-];
    first [discriminate Hp | injection Hp as <-; discriminate Hr]] |].

Lemma demo_system_run :
  exists s, run (sys_step demo_memory) (sys_init 3 []) demo_events s /\ sys_pc s = AtJoin 10.
Proof.
  eexists. split.
  - eapply run_cons; [eapply (sys_accept demo_memory _ _ _ _ _ _ 4 10%nat 0%nat);
      [reflexivity | reflexivity | apply accept_insert_spec] |].
    eapply run_cons; [eapply sys_scan; reflexivity |].
    eapply run_cons; [eapply sys_scan_end |].
    thread_moves ltac:(by eapply (step_create demo_memory _ 0%nat)).
    thread_moves ltac:(eapply (step_recv demo_memory _ _ _ _ 0%nat _ (RxBytes line1));
      [reflexivity | reflexivity | by vm_compute | reflexivity | reflexivity
      | right; reflexivity]).
    thread_moves ltac:(eapply (step_received demo_memory _ 0%nat); reflexivity).
    thread_moves ltac:(eapply (step_lock demo_memory _ _ _ 0%nat); reflexivity).
    thread_moves ltac:(eapply (step_store demo_memory _ _ _ _ 0%nat); reflexivity).
    thread_moves ltac:(eapply (step_send demo_memory _ 0%nat); reflexivity).
    thread_moves ltac:(eapply (step_send demo_memory _ 0%nat); reflexivity).
    eapply run_cons; [eapply (sys_mark demo_memory); [reflexivity | reflexivity
      | eexists; split; reflexivity | by vm_compute | reflexivity] |].
    eapply run_cons; [eapply (sys_accept demo_memory _ _ _ _ _ _ 5 11%nat 1%nat);
      [reflexivity | reflexivity | apply accept_insert_spec] |].
    eapply run_cons; [eapply sys_scan; reflexivity |].
    eapply run_cons; [eapply sys_scan; reflexivity |].
    apply run_nil.
  - reflexivity.
Qed.

(** A thread that has not returned finds its descriptor in its own node, and can set
    [isDone] there. *)
Lemma sys_inv_thread {F} (s : system F) t a fd :
  sys_inv s -> sys_conns s !! t = Some (a, fd) -> t ∉ sys_returned s ->
  thread_param (sys_main s) a = Ret fd /\ safe (thread_done (sys_main s) a) /\
  forall t' fd', sys_conns s !! t' = Some (a, fd') -> t' ∉ sys_returned s -> t' = t.
Proof.
  intros [[ids Hl] Hn Ho _ _ Hr Hjn _ _] Hc Ht.
  assert (forall t, t ∉ sys_returned s -> t ∉ joined (sys_main s)) as Hnj by (intros t0 Ht0 ?; eauto).
  pose proof (Hn t a fd Hc (Hnj t Ht)) as Hp. split_and!.
  - unfold thread_param. by rewrite (proj2 (get_payload_payloads _ _ _) Hp).
  - eapply thread_done_safe; [exact Hl |]. by eapply listed.
  - intros t' fd' Hc' Ht'. pose proof (Hn t' a fd' Hc' (Hnj t' Ht')) as Hp'.
    rewrite Hp in Hp'. by injection Hp' as _ ->.
Qed.

(** C12. The accept loop and the connection threads work together without a fault.
    However they interleave: a thread that has not returned finds in its node, which
    is its own and still allocated, the descriptor it was created for, and can set
    [isDone] there; every node allocated belongs to a thread not yet joined, or to a
    connection whose thread could not be created; the accept loop's next step is defined; and the packets have been stored one after
    the other, a thread that has been joined having sent exactly the file as its
    packet left it. *)
Theorem server_system_correct {F} `{!DataFile F} mem sock (f0 : F) evs s :
  run (sys_step mem) (sys_init sock f0) evs s ->
  (forall t a fd, sys_conns s !! t = Some (a, fd) -> t ∉ sys_returned s ->
     thread_param (sys_main s) a = Ret fd /\ safe (thread_done (sys_main s) a) /\
     forall t' fd', sys_conns s !! t' = Some (a, fd') -> t' ∉ sys_returned s -> t' = t) /\
  (forall a d, payloads (head (sys_main s)) !! a = Some d ->
     (exists t fd, sys_conns s !! t = Some (a, fd) /\ t ∉ joined (sys_main s)) \/
     exists fd, d = orphan fd) /\
  main_safe s /\
  exists cs, replay f0 cs = Ret (dataFile (sys_srv s)) /\ NoDup cs.*1 /\
    forall t, t ∈ joined (sys_main s) -> exists th f1 start,
      threads (sys_srv s) !! t = Some th /\ committed f0 cs t th f1 start /\
      t_sent th = drop (Z.to_nat start) (df_content f1).
Proof.
  intros Hrun. pose proof (sys_run_inv mem sock f0 evs s Hrun) as Hinv.
  pose proof Hinv as [[ids Hl] Hn Ho _ _ Hr Hjn _ _].
  split_and!.
  - intros t a fd Hc Ht. by apply (sys_inv_thread s).
  - exact Ho.
  - by apply sys_inv_main_safe.
  - destruct (sys_run_server mem _ _ _ Hrun) as [ts Hts].
    destruct (server_run_inv mem f0 _ _ _ Hts) as [cs [Hf Hall _ Hnd _]].
    { exists []. apply server_inv_init. }
    exists cs. split_and!; [done.. |]. intros t (th & Hth & Hfin)%Hjn%Hr.
    pose proof (Hall t th Hth) as H. unfold thread_inv in H. rewrite Hfin in H.
    destruct H as [_ (f1 & start & Hcom & Hs)]. by exists th, f1, start.
Qed.

Lemma server_system_correct_witness :
  exists s : system (list byte), sys_pc s = AtJoin 10 /\
    (forall t a fd, sys_conns s !! t = Some (a, fd) -> t ∉ sys_returned s ->
       thread_param (sys_main s) a = Ret fd /\ safe (thread_done (sys_main s) a) /\
       forall t' fd', sys_conns s !! t' = Some (a, fd') -> t' ∉ sys_returned s -> t' = t) /\
    main_safe s.
Proof.
  destruct demo_system_run as (s & Hrun & Hpc). exists s. split; [exact Hpc |].
  pose proof (server_system_correct demo_memory 3 [] demo_events s Hrun) as (H1 & _ & H2 & _).
  exact (conj H1 H2).
Defined.

(** C27. The accept loop never waits in vain: whenever it is in [pthread_join], the
    thread it waits for has sent its whole answer, and two more steps of that
    thread at most, releasing the mutex and returning, let the loop join it, take
    its node out of the list, free it and go back to accepting. *)
Theorem join_wait_ends {F} `{!DataFile F} mem sock (f0 : F) evs s a :
  run (sys_step mem) (sys_init sock f0) evs s -> sys_pc s = AtJoin a ->
  exists t, t ∈ sys_done s /\ joins_soon mem s a t.
Proof.
  intros Hrun Hpc. pose proof (sys_run_inv mem sock f0 evs s Hrun) as Hinv.
  pose proof (sys_inv_main_safe s Hinv) as Hsafe. unfold main_safe in Hsafe. rewrite Hpc in Hsafe.
  destruct Hsafe as (t & fd & d & Hc & Hin & Hg & Hid & m' & Hj & Hjoined & Hfree).
  exists t. split; [done |].
  destruct (joins_from_sent mem s a t fd d m') as (evs' & s' & Hrun' & Hlen & Hpc' & Hm); try done.
  { apply (sys_run_done_sent mem f0 _ _ _ Hrun).
    - apply sys_inv_init.
    - exists []. apply server_inv_init.
    - by intros t0 th ?%elem_of_empty. }
  exists evs', s'. by rewrite Hm.
Qed.

Lemma join_wait_ends_witness :
  exists s t, run (sys_step demo_memory) (sys_init 3 []) demo_events s /\
    t ∈ sys_done s /\ joins_soon demo_memory s 10 t.
Proof.
  destruct demo_system_run as (s & Hrun & Hpc).
  destruct (join_wait_ends demo_memory 3 [] demo_events s 10 Hrun Hpc) as (t & H).
  exists s, t. exact (conj Hrun H).
Defined.

(** A connection whose [pthread_create] fails is forgotten: its node stays in the list
    as it is, whatever happens, so nobody ever receives from its client, closes its
    descriptor or frees its node. *)
Lemma orphan_step {F} `{!DataFile F} mem (s : system F) ev s' a fd :
  sys_step mem s ev s' -> sys_inv s ->
  payloads (head (sys_main s)) !! a = Some (orphan fd) ->
  payloads (head (sys_main s')) !! a = Some (orphan fd).
Proof.
  intros Hstep Hinv Ha.
  destruct Hstep as [m m' srv cs dn rt fd' a' t Hn Hc Hacc | m m' srv cs dn rt fd' a' Hn Hacc | |
    | m m' srv cs dn rt a' d t Hg Hid Hrt Hj | | m m' pc srv cs dn rt t a' fd' th Hc Hth Hsent _ Hdone |];
    cbn [sys_main] in *; try done.
  - rewrite accept_insert_spec in Hacc. injection Hacc as <-. cbn [accepted head].
    rewrite payloads_connected_insert, lookup_insert_ne; [done |].
    intros ->. unfold payloads in Ha. by rewrite lookup_fmap, Hn in Ha.
  - rewrite accept_insert_spec in Hacc. injection Hacc as <-. cbn [accepted head].
    rewrite payloads_connected_insert, lookup_insert_ne; [done |].
    intros ->. unfold payloads in Ha. by rewrite lookup_fmap, Hn in Ha.
  - destruct (si_list _ Hinv) as [ids Hl]. cbn in Hl. apply get_payload_payloads in Hg as Hp.
    pose proof (listed m ids a' Hl ltac:(by eexists)) as (ids1 & ids2 & ->)%list_elem_of_split.
    destruct (reap_node_spec (head m) ids1 a' ids2 d (joined m) Hl Hp) as (l' & E & _ & Hp').
    { destruct (ID d); [by eexists | discriminate Hid]. }
    unfold join_node in Hj. rewrite Hg in Hj. cbn [mbind outcome_bind] in Hj.
    rewrite E in Hj. injection Hj as <-. cbn. rewrite Hp', lookup_delete_ne; [done |].
    intros ->. rewrite Hp in Ha. injection Ha as ->. discriminate Hid.
  - destruct (thread_done_payloads _ _ _ Hdone) as (d & Hd & _ & ->).
    rewrite lookup_insert_ne; [done |]. intros ->. rewrite Hd in Ha. injection Ha as ->.
    destruct (decide (t ∈ joined m)) as [Hj | Hj].
    + apply (si_joined _ Hinv), (si_returned _ Hinv) in Hj as (th' & E & Hfin). cbn in E.
      destruct Hsent as (pos & Hp & _). congruence.
    + pose proof (si_node _ Hinv t a fd' Hc Hj) as E. cbn in E. by rewrite Hd in E.
Qed.

Theorem orphan_stays {F} `{!DataFile F} mem sock (f0 : F) evs s evs' s' a fd :
  run (sys_step mem) (sys_init sock f0) evs s ->
  payloads (head (sys_main s)) !! a = Some (orphan fd) -> run (sys_step mem) s evs' s' ->
  payloads (head (sys_main s')) !! a = Some (orphan fd).
Proof.
  intros Hrun Ha Hrun'. pose proof (sys_run_inv mem sock f0 evs s Hrun) as Hinv.
  apply (run_invariant (sys_step mem) (fun s => sys_inv s /\
    payloads (head (sys_main s)) !! a = Some (orphan fd))) with (2 := Hrun'); [| done].
  intros s1 ev s2 Hstep [H1 H2]. split; [by eapply sys_step_inv | by eapply orphan_step].
Qed.
