(* ===== verification/WholeServer.v ===== *)
(** The whole server as one process: [main] and [ConfigureSocket] call by call
    ([SocketProcess]), the search for stale threads element by element, the
    connection threads step by step ([SocketSystem]), the data file under its name,
    and signals handled at any point in any thread, all interleaved. *)

From Stdlib Require Import String.
From S2P Require Import Prelude CMem CString LogSpec SList.
From S2P Require Import SocketThread SocketThreadSpec SocketServer SocketMain SocketMainProps.
From S2P Require Import SocketSystem SocketProcess SocketProcessProps SocketProcessEnd.

Section Whole.
(** [creat_file o] is the file [dataFile] names after [creat], [o] being the file it
    named before, if any; [fopen(dataFile, "a+")] gives [creat_file None] when there
    is none. *)
Context {A : Type} (addr_of : string -> A) (argv : list string).
Context {F : Type} `{!DataFile F} (mem : Z -> bool) (creat_file : option F -> F).

Abbreviation life := (life (A := A)).
Abbreviation osys := (osys (A := A)).
Abbreviation life_step := (life_step addr_of argv).

(** [w_reap] is where the main thread is in the search when its point is [IReap], and
    [AtAccept] otherwise. The server's [dataFile] is the file the name stands for, or
    stood for before it was unlinked, which the holder of the mutex may have open. *)
Record whole : Type := mk_whole {
  w_life : life;
  w_reap : main_pc;
  w_srv : server F;
  w_conns : gmap nat (nat * Z);
  w_done : gset nat;
  w_returned : gset nat;
}.

Definition the_main (l : life) : main_state := g_main (lf_glob l).

(** What [SocketSystem] sees of it. *)
Definition view (w : whole) : system F :=
  mk_system (the_main (w_life w)) (w_reap w) (w_srv w) (w_conns w) (w_done w) (w_returned w).

Definition set_main (m : main_state) (pc : instr) (l : life) : life :=
  mk_life pc (lf_res l) (set_g_main m (lf_glob l)) (lf_os l) (lf_handlers l) (lf_end l).

Definition file_named (l : life) : life :=
  mk_life (lf_pc l) (lf_res l) (lf_glob l) (set_o_file true (lf_os l)) (lf_handlers l) (lf_end l).

Definition set_dataFile (f : F) (s : server F) : server F :=
  mk_server f (srv_data_count s) (mutexLock s) (threads s).

(** What [creat] does to the file, when it succeeds. *)
Definition created (i : instr) (ans : answer) (l : life) (s : server F) : server F :=
  match i with
  | ICreat =>
      if 0 <=? a_ret ans
      then set_dataFile (creat_file (if o_file (lf_os l) then Some (dataFile s) else None)) s
      else s
  | _ => s
  end.

(** The file a thread that holds the mutex opens, when [fopen] succeeds. *)
Definition opened_file (l : life) (s : server F) : server F :=
  if o_file (lf_os l) then s else set_dataFile (creat_file None) s.

(** After a step of the search the main thread is still in it, or back at the test of
    the accept loop. *)
Definition after_scan (pc : main_pc) : instr :=
  match pc with AtAccept => ITest | _ => IReap end.

(** The process runs, and the thread is not stopped by a handler. *)
Definition free_to_run (l : life) (who : option nat) : Prop :=
  lf_end l = None /\ who ∉ (lf_handlers l).*1.

(** The process ends, its state being otherwise as it was. *)
Definition ended (e : ending) (l : life) : life :=
  mk_life (lf_pc l) (lf_res l) (lf_glob l) (lf_os l) (lf_handlers l) (Some e).

Inductive wlabel : Type :=
| WMain (i : instr) (ans : answer)
| WScan
| WThread (ev : sys_event)
| WStore (t : nat)
| WSignal (sig : Z) (who : option nat)
| WHandler (who : option nat) (st : hstep)
| WRecvFails (t : nat)
| WSendBroken (t : nat)
| WMainFaults (i : instr) (ans : answer) (f : fault)
| WScanFaults (f : fault)
| WThreadFaults (t : nat) (f : fault).

(** A step of a thread that is not the storing of its packet; one without a connection
    does not get past [recv]. *)
Definition other_move (srv : server F) (cs : gmap nat (nat * Z)) (ev : sys_event) (t : nat) : Prop :=
  match ev with
  | ThreadMoves t' => t' = t /\ forall th, threads srv !! t = Some th -> t_phase th <> Locked /\
      (uses_socket (dataFile srv) th -> forall a fd, cs !! t = Some (a, fd) -> 0 <= fd)
  | ThreadMarks t' | ThreadReturns t' => t' = t
  | _ => False
  end.

(** The connections after [pthread_create], which may fail; identifiers are not used
    again. *)
Definition new_thread (ans : answer) (cs : gmap nat (nat * Z)) : Prop :=
  forall t, a_tid ans = Some t -> cs !! t = None.

Definition connected_to (a : nat) (ans : answer) (cs : gmap nat (nat * Z)) : gmap nat (nat * Z) :=
  match a_tid ans with Some t => <[t := (a, a_ret ans)]> cs | None => cs end.

(** *** Undefined behaviour

    The steps of a thread that are undefined, but for the use it makes of its node:
    [malloc] and [realloc] may fail at any time, whatever [mem] says of other calls,
    and the code uses the result; so may [fopen], the stream being [NULL] then; a
    counter overflows in [recv]'s loop; or the packet is not one the code can store.
    [named] says whether the file has been opened by then. *)
Inductive own_fault (srv : server F) (fd : Z) : option thread -> bool -> fault -> Prop :=
| fault_create mem' e : recv_init mem' = Fault e -> own_fault srv fd None false e
| fault_recv th mem' a e :
    t_phase th = Receiving -> packetComplete (t_recv th) = false -> 0 <= fd -> rx_ok a ->
    recv_turn mem' (t_recv th) (srv_data_count srv) a = Fault e ->
    own_fault srv fd (Some th) false e
| fault_fopen th e :
    t_phase th = Locked -> store_request (dataFile srv) false (outputBuffer (t_recv th)) = Fault e ->
    own_fault srv fd (Some th) false e
| fault_store th e :
    t_phase th = Locked -> store_request (dataFile srv) true (outputBuffer (t_recv th)) = Fault e ->
    own_fault srv fd (Some th) true e
| fault_send th pos :
    t_phase th = Sending pos -> t_sent th = [] -> is_Some (fread1 (dataFile srv) pos) ->
    own_fault srv fd (Some th) true NullDeref.

(** The use a thread makes of its node [a]: [params->threadFD] and [params->isDone]. *)
Definition node_fault (m : main_state) (f : F) (a : nat) (marked : bool) (th : thread)
    (e : fault) : Prop :=
  uses_socket f th /\ thread_param m a = Fault e \/
  sent_all f th /\ marked = false /\ thread_done m a = Fault e.

(** The use the search makes of the list; at [AtJoin] once the thread has returned. *)
Definition scan_fault (m : main_state) (pc : main_pc) (e : fault) : Prop :=
  match pc with
  | AtAccept | AtNode None => False
  | AtNode (Some a) => scan_node m a = Fault e
  | AtJoin a => join_node m a = Fault e
  end.

Inductive whole_step : whole -> wlabel -> whole -> Prop :=
| whole_call l i ans l' pc srv cs dn rt :
    i <> IAccept -> i <> IReap -> life_step l (LMain i ans) l' ->
    whole_step (mk_whole l pc srv cs dn rt) (WMain i ans)
      (mk_whole l' pc (created i ans l srv) cs dn rt)
| whole_accept l ans l' srv cs dn rt a :
    a_node ans = Some a -> new_thread ans cs -> life_step l (LMain IAccept ans) l' ->
    whole_step (mk_whole l AtAccept srv cs dn rt) (WMain IAccept ans)
      (mk_whole l' (AtNode (SLIST_FIRST (head (the_main l')))) srv
         (connected_to a ans cs) dn rt)
| whole_scan l pc srv cs dn rt m' pc' :
    lf_pc l = IReap -> free_to_run l None ->
    sys_step mem (mk_system (the_main l) pc srv cs dn rt) MainMoves (mk_system m' pc' srv cs dn rt) ->
    whole_step (mk_whole l pc srv cs dn rt) WScan
      (mk_whole (set_main m' (after_scan pc') l) pc' srv cs dn rt)
| whole_thread l pc srv cs dn rt ev t m' srv' dn' rt' :
    free_to_run l (Some t) -> other_move srv cs ev t ->
    sys_step mem (mk_system (the_main l) pc srv cs dn rt) ev (mk_system m' pc srv' cs dn' rt') ->
    whole_step (mk_whole l pc srv cs dn rt) (WThread ev)
      (mk_whole (set_main m' (lf_pc l) l) pc srv' cs dn' rt')
| whole_store l pc srv cs dn rt t th srv' :
    free_to_run l (Some t) -> threads srv !! t = Some th -> t_phase th = Locked ->
    sys_step mem (mk_system (the_main l) pc (opened_file l srv) cs dn rt) (ThreadMoves t)
      (mk_system (the_main l) pc srv' cs dn rt) ->
    whole_step (mk_whole l pc srv cs dn rt) (WStore t)
      (mk_whole (file_named l) pc srv' cs dn rt)
| whole_signal l sig who l' pc srv cs dn rt :
    life_step l (LSignal sig who) l' ->
    whole_step (mk_whole l pc srv cs dn rt) (WSignal sig who) (mk_whole l' pc srv cs dn rt)
| whole_handler l who st l' pc srv cs dn rt :
    life_step l (LHandler who st) l' ->
    whole_step (mk_whole l pc srv cs dn rt) (WHandler who st) (mk_whole l' pc srv cs dn rt)
| whole_recv_fails l l' pc srv cs dn rt t th a fd :
    cs !! t = Some (a, fd) -> threads srv !! t = Some th ->
    t_phase th = Receiving -> packetComplete (t_recv th) = false ->
    life_step l (LRecvFails a) l' ->
    whole_step (mk_whole l pc srv cs dn rt) (WRecvFails t) (mk_whole l' pc srv cs dn rt)
| whole_send_broken l l' pc srv cs dn rt t th a fd pos :
    cs !! t = Some (a, fd) -> threads srv !! t = Some th ->
    t_phase th = Sending pos -> is_Some (fread1 (dataFile srv) pos) ->
    life_step l (LSendBroken a) l' ->
    whole_step (mk_whole l pc srv cs dn rt) (WSendBroken t) (mk_whole l' pc srv cs dn rt)
| whole_main_faults l i ans f l' pc srv cs dn rt :
    i <> IReap -> life_step l (LMainFaults i ans f) l' ->
    whole_step (mk_whole l pc srv cs dn rt) (WMainFaults i ans f) (mk_whole l' pc srv cs dn rt)
| whole_scan_faults l pc srv cs dn rt f :
    lf_pc l = IReap -> free_to_run l None -> scan_fault (the_main l) pc f ->
    whole_step (mk_whole l pc srv cs dn rt) (WScanFaults f)
      (mk_whole (ended (Undefined f) l) pc srv cs dn rt)
| whole_thread_faults l pc srv cs dn rt t a fd b f :
    cs !! t = Some (a, fd) -> free_to_run l (Some t) ->
    own_fault srv fd (threads srv !! t) b f ->
    whole_step (mk_whole l pc srv cs dn rt) (WThreadFaults t f)
      (mk_whole (ended (Undefined f) (if b then file_named l else l)) pc srv cs dn rt)
| whole_node_faults l pc srv cs dn rt t th a fd f :
    cs !! t = Some (a, fd) -> threads srv !! t = Some th -> free_to_run l (Some t) ->
    node_fault (the_main l) (dataFile srv) a (bool_decide (t ∈ dn)) th f ->
    whole_step (mk_whole l pc srv cs dn rt) (WThreadFaults t f)
      (mk_whole (ended (Undefined f) l) pc srv cs dn rt).

(** The start of [main]; [named] is the file [dataFile] names. *)
Definition whole_init (fds : gset Z) (named : option F) : whole :=
  mk_whole (life_init fds (bool_decide (is_Some named))) AtAccept
    (server_init (default (creat_file None) named)) ∅ ∅ ∅.
End Whole.
