(* ===== verification/WholeServerInv.v ===== *)
(** What every state of the whole server satisfies: the invariants of its parts, each
    kept by the steps of the others, and the files its threads have been served
    from. *)

From Stdlib Require Import String.
From S2P Require Import Prelude CMem CString LogSpec SList.
From S2P Require Import SocketThread SocketThreadSpec SocketServer SocketMain SocketMainProps.
From S2P Require Import SocketSystem SocketProcess SocketProcessProps SocketProcessEnd WholeServer.

(** ** The main thread's list *)

Lemma list_inv_empty l ids : list_inv l ids -> nodes l = ∅ -> l = mk_slist None ∅.
Proof.
  intros [[Hs _] Hall _] Hn. destruct ids as [|a ids].
  - destruct l as [first h]. cbn in *. by subst.
  - exfalso. assert (is_Some (nodes l !! a)) as [n Ha] by (apply Hall; by left).
    by rewrite Hn, lookup_empty in Ha.
Qed.

Section Whole.
Context {A : Type} (addr_of : string -> A) (argv : list string).
Context {F : Type} `{!DataFile F} (mem : Z -> bool) (creat_file : option F -> F).

Abbreviation life := (life (A := A)).
Abbreviation osys := (osys (A := A)).
Abbreviation life_step := (life_step addr_of argv).
Abbreviation exec := (exec addr_of argv).
Abbreviation whole := (whole (A := A) (F := F)).
Abbreviation whole_step := (whole_step addr_of argv mem creat_file).

(** Calls other than those of the accept loop's list leave the list and the joined
    threads alone. *)
Lemma exec_list pc ans res g (o : osys) res' g' o' ids :
  exec pc ans res g o = Ret (res', g', o') -> pc <> IAccept -> pc <> IReap ->
  list_inv (head (g_main g)) ids -> (rank pc < 14 -> nodes (head (g_main g)) = ∅) ->
  head (g_main g') = head (g_main g) /\ joined (g_main g') = joined (g_main g).
Proof.
  intros Hex Ha Hr Hl Hn. destruct pc; try done; cbn in Hex; outcome_inv; cbn; unfold opened;
    repeat case_match; subst; cbn; try done; outcome_inv; try done.
  split; [| done]. rewrite (list_inv_empty _ _ Hl) by (by apply Hn). done.
Qed.

(** Steps of the main thread that search the list change nothing else. *)
Lemma scan_frame (m m' : main_state) pc pc' (srv srv' : server F) cs cs' dn dn' rt rt' :
  sys_step mem (mk_system m pc srv cs dn rt) MainMoves (mk_system m' pc' srv' cs' dn' rt') ->
  socketDescriptor m' = socketDescriptor m.
Proof.
  inversion 1; subst; try done. unfold join_node in *. outcome_inv.
  by destruct a1 as [? ?]; outcome_inv.
Qed.

Lemma sys_inv_frame (m m' : main_state) pc (srv srv' : server F) cs dn rt :
  sys_inv (mk_system m pc srv cs dn rt) -> head m' = head m -> joined m' = joined m ->
  threads srv' = threads srv -> sys_inv (mk_system m' pc srv' cs dn rt).
Proof.
  intros [Hl Hn Ho Hd Hf Hr Hj Hk Hpc] E1 E2 E3. unfold main_inv, SocketSystem.pc_ok in *.
  cbn in *. rewrite <- E1 in *. rewrite <- E2 in *. rewrite <- E3 in *. by split.
Qed.

(** ** The invariant of the parts *)

Record whole_inv (w : whole) : Prop := {
  wi_life : life_inv (w_life w);
  wi_sys : sys_inv (view w);
  wi_start : rank (lf_pc (w_life w)) < 14 -> w_conns w = ∅;
  wi_reap : lf_pc (w_life w) = IReap <-> w_reap w <> AtAccept;
}.

Lemma whole_init_inv fds named : whole_inv (whole_init creat_file fds named).
Proof.
  split; [apply life_init_inv | | done | done]. split; cbn.
  - exists []. exact no_connections.
  - by intros t a fd.
  - intros a d. unfold payloads. cbn. by rewrite lookup_fmap, lookup_empty.
  - by intros t ?%elem_of_empty.
  - by intros t th.
  - by intros t ?%elem_of_empty.
  - by intros t ?%elem_of_nil.
  - by intros t th.
  - done.
Qed.

Lemma created_threads i ans (l : life) s : threads (created creat_file i ans l s) = threads s.
Proof. by destruct i; cbn; try case_match. Qed.

Lemma opened_threads (l : life) s : threads (opened_file creat_file l s) = threads s.
Proof. unfold opened_file. by case_match. Qed.

(** The search and its end, for the process. *)
Lemma life_scan_inv (l : life) m' pc' :
  life_inv l -> lf_pc l = IReap -> socketDescriptor m' = socketDescriptor (the_main l) ->
  life_inv (set_main m' (after_scan pc') l).
Proof.
  destruct l as [pc res g o hs e]. unfold the_main, set_main. cbn.
  intros [Hpc Hsig Hnodes Hsteps Hworker Hflag Hdone Hpast Hclosed] -> Hsd. cbn in *.
  assert (rank (after_scan pc') = 14 \/ rank (after_scan pc') = 17) as Hr
    by (destruct pc'; cbn; auto).
  split; cbn; try done.
  - by destruct pc'.
  - rewrite Hsig. destruct Hr as [-> | ->]; by rewrite !installed_all.
  - lia.
  - lia.
  - lia.
  - unfold socket_closed in *. cbn. by rewrite Hsd.
Qed.

(** *** One rule at a time *)

Lemma next_reap done i : next_instr done i = IReap -> i = IAccept.
Proof. destruct i; cbn; try done; [by repeat case_match | by destruct done]. Qed.

Abbreviation mk_whole := (mk_whole (A := A) (F := F)).

Lemma call_inv (l : life) i ans l' pc srv cs dn rt :
  i <> IAccept -> i <> IReap -> life_step l (LMain i ans) l' ->
  whole_inv (mk_whole l pc srv cs dn rt) ->
  whole_inv (mk_whole l' pc (created creat_file i ans l srv) cs dn rt).
Proof.
  intros Ha Hr Hstep [Hlife Hsys Hstart Hreap]. cbn in *. split; cbn.
  - by eapply life_step_inv.
  - inversion Hstep as [ip res g o hs ans' res' g' o' Hm Hok Hex | | | | | | | | |]; subst.
    destruct (si_list _ Hsys) as [ids Hids].
    destruct (exec_list _ _ _ _ _ _ _ _ ids Hex Ha Hr Hids (lv_nodes _ Hlife)) as [Hh Hj].
    by eapply sys_inv_frame, created_threads.
  - inversion Hstep as [ip res g o hs ans' res' g' o' Hm Hok Hex | | | | | | | | |]; subst.
    intros Hr'. apply Hstart. cbn in *. pose proof (rank_next (doneFlag g) i). lia.
  - inversion Hstep as [ip res g o hs ans' res' g' o' Hm Hok Hex | | | | | | | | |]; subst.
    cbn in *. rewrite <- Hreap. split; [by intros ->%next_reap | done].
Qed.

Lemma connect_inv (l : life) ans l' srv cs dn rt a :
  a_node ans = Some a -> new_thread ans cs -> life_step l (LMain IAccept ans) l' ->
  whole_inv (mk_whole l AtAccept srv cs dn rt) ->
  whole_inv (mk_whole l' (AtNode (SLIST_FIRST (head (the_main l')))) srv
               (connected_to a ans cs) dn rt).
Proof.
  intros Hnode Ht Hstep [Hlife Hsys Hstart Hreap]. cbn in *.
  pose proof (life_step_inv _ _ _ _ _ Hstep Hlife) as Hlife'.
  inversion Hstep as [ip res g o hs ans' res' g' o' Hm Hok Hex | | | | | | | | |]; subst.
  cbn in Hex, Hok. rewrite Hnode in Hex, Hok.
  apply andb_prop in Hok as [_ Hnone%bool_decide_eq_true].
  rewrite accept_insert_spec in Hex. outcome_inv. split; cbn; [done | | lia | done].
  unfold connected_to, new_thread in *. destruct (a_tid ans) as [t |];
    [by apply inv_accept; [| | apply Ht] | by apply inv_no_thread].
Qed.

Lemma search_inv (l : life) pc srv cs dn rt m' pc' :
  lf_pc l = IReap ->
  sys_step mem (mk_system (the_main l) pc srv cs dn rt) MainMoves (mk_system m' pc' srv cs dn rt) ->
  whole_inv (mk_whole l pc srv cs dn rt) ->
  whole_inv (mk_whole (set_main m' (after_scan pc') l) pc' srv cs dn rt).
Proof.
  intros Hpc Hstep [Hlife Hsys Hstart Hreap]. cbn in *. split; cbn.
  - eapply life_scan_inv; [done.. | by eapply scan_frame].
  - by eapply sys_step_inv.
  - by destruct pc'.
  - by destruct pc'.
Qed.

(** What a thread's own step does to the main thread's state. *)
Lemma own_step_main m m' pc pc' (srv srv' : server F) cs cs' dn dn' rt rt' ev t :
  sys_step mem (mk_system m pc srv cs dn rt) ev (mk_system m' pc' srv' cs' dn' rt') ->
  other_move srv cs ev t ->
  m' = m \/ exists a, thread_done m a = Ret m'.
Proof. inversion 1; subst; cbn; try done; by eauto. Qed.

Lemma own_step_inv (l : life) pc srv srv' cs dn dn' rt rt' ev t m' :
  other_move srv cs ev t -> lf_end l = None ->
  sys_step mem (mk_system (the_main l) pc srv cs dn rt) ev (mk_system m' pc srv' cs dn' rt') ->
  whole_inv (mk_whole l pc srv cs dn rt) ->
  whole_inv (mk_whole (set_main m' (lf_pc l) l) pc srv' cs dn' rt').
Proof.
  intros Hev Hend Hstep [Hlife Hsys Hstart Hreap]. cbn in *. split; cbn; [| by eapply sys_step_inv | done..].
  destruct l as [ip res g o hs e]. unfold set_main, the_main in *. cbn in *. subst e.
  destruct (own_step_main _ _ _ _ _ _ _ _ _ _ _ _ _ _ Hstep Hev) as [-> | [a Hd]].
  - by destruct g.
  - by eapply life_done_inv.
Qed.

Lemma file_named_inv (l : life) : life_inv l -> life_inv (file_named l).
Proof. intros []. by split. Qed.

Lemma storing_inv (l : life) pc srv srv' cs dn rt t :
  sys_step mem (mk_system (the_main l) pc (opened_file creat_file l srv) cs dn rt) (ThreadMoves t)
    (mk_system (the_main l) pc srv' cs dn rt) ->
  whole_inv (mk_whole l pc srv cs dn rt) -> whole_inv (mk_whole (file_named l) pc srv' cs dn rt).
Proof.
  intros Hstep [Hlife Hsys Hstart Hreap]. cbn in *. split; cbn; [by apply file_named_inv | | done..].
  eapply sys_step_inv; [exact Hstep |]. by eapply sys_inv_frame, opened_threads.
Qed.

(** A step of the process that is neither a call of the main thread nor the marking of
    a node. *)
Lemma signal_step_main (l : life) lab l' :
  life_step l lab l' ->
  match lab with LMain _ _ | LDone _ => True | _ =>
    lf_pc l' = lf_pc l /\ head (the_main l') = head (the_main l) /\
    joined (the_main l') = joined (the_main l) end.
Proof.
  destruct 1 as [| | | pc res g o hs1 who st rest hs2 g' o' Hw Hst | | | | | |]; try done.
  apply handler_step_closed in Hst as (Hm & _). unfold the_main. cbn. by rewrite Hm.
Qed.

Lemma signal_step_inv (l : life) lab l' pc srv cs dn rt :
  life_step l lab l' -> match lab with LMain _ _ | LDone _ => False | _ => True end ->
  whole_inv (mk_whole l pc srv cs dn rt) -> whole_inv (mk_whole l' pc srv cs dn rt).
Proof.
  intros Hstep Hlab [Hlife Hsys Hstart Hreap].
  pose proof (signal_step_main _ _ _ Hstep) as Hm.
  assert (lf_pc l' = lf_pc l /\ head (the_main l') = head (the_main l) /\
    joined (the_main l') = joined (the_main l)) as (Hpc & Hh & Hj) by by destruct lab.
  clear Hm. cbn in *. split; cbn.
  - by eapply life_step_inv.
  - eapply sys_inv_frame; [exact Hsys | done..].
  - by rewrite Hpc.
  - by rewrite Hpc.
Qed.

(** The end of the process. *)
Lemma ended_inv (l : life) e pc srv cs dn rt :
  whole_inv (mk_whole l pc srv cs dn rt) -> whole_inv (mk_whole (ended e l) pc srv cs dn rt).
Proof.
  intros [Hlife Hsys Hstart Hreap]. split; cbn; try done. destruct l. by eapply life_inv_end.
Qed.

Lemma named_inv (l : life) pc srv cs dn rt :
  whole_inv (mk_whole l pc srv cs dn rt) -> whole_inv (mk_whole (file_named l) pc srv cs dn rt).
Proof. intros [Hlife Hsys Hstart Hreap]. split; cbn; try done. by apply file_named_inv. Qed.

Lemma whole_step_inv w lab w' : whole_step w lab w' -> whole_inv w -> whole_inv w'.
Proof.
  destruct 1 as [l i ans l' pc srv cs dn rt Ha Hr Hst | | l pc srv cs dn rt m' pc' Hpc [_ _] Hst
    | l pc srv cs dn rt ev t m' srv' dn' rt' [He _] Hev Hst
    | l pc srv cs dn rt t th srv' _ _ _ Hst | | | | | | | l pc srv cs dn rt t a fd b f _ _ _ |].
  - by eapply call_inv.
  - by apply connect_inv.
  - by eapply search_inv.
  - by eapply own_step_inv.
  - by eapply storing_inv.
  - by eapply signal_step_inv.
  - by eapply signal_step_inv.
  - by eapply signal_step_inv.
  - by eapply signal_step_inv.
  - by eapply signal_step_inv.
  - by apply ended_inv.
  - intros Hinv. apply ended_inv. destruct b; by [> apply named_inv |].
  - by apply ended_inv.
Qed.

Lemma whole_run_inv fds named ls w : run whole_step (whole_init creat_file fds named) ls w -> whole_inv w.
Proof.
  intros Hrun. apply (run_invariant whole_step whole_inv whole_step_inv _ _ _ Hrun), whole_init_inv.
Qed.
End Whole.
