(* ===== verification/WholeServerFiles.v ===== *)
(** The files behind the name [dataFile], one after the other: each since it got the
    name with the packets stored in it, the threads of the earlier ones served, those
    of the last one as [SocketServer] describes them. A handler that unlinks the file
    while threads go on is what makes more than one of them. *)

From S2P Require Import Prelude CMem CString LogSpec SocketThread SocketThreadSpec.
From S2P Require Import SocketServer SocketMain SocketMainProps SocketSystem.

Section Files.
Context {F : Type} `{!DataFile F} (mem : Z -> bool) (creat_file : option F -> F).
Context (named : option F).

(** The files the name may come to stand for; [named] is the one at the start. *)
Inductive born : F -> Prop :=
| born_named f : named = Some f -> born f
| born_opened : born (creat_file None)
| born_creat f : born f -> born (creat_file (Some f)).

(** A file as it was when it got the name, and the packets stored in it since. *)
Abbreviation generation := (F * list commit)%type.

Definition stored (gs : list generation) : list nat := gs ≫= (fun g => g.2.*1).

(** The thread stored its packet in that file, and sent what it held from then on. *)
Definition served_in (g : generation) (t : nat) (th : thread) : Prop :=
  exists f1 start, committed g.1 g.2 t th f1 start /\
    t_sent th = drop (Z.to_nat start) (df_content f1).

(** The threads that were not served from one of the files [gs]. *)
Definition current (gs : list generation) (s : server F) : server F :=
  mk_server (dataFile s) (srv_data_count s) (mutexLock s)
    (filter (fun p => p.1 ∉ stored gs) (threads s)).

Record files_inv (gs : list generation) (f : F) (cs : list commit) (s : server F) : Prop := {
  fi_born : forall g, g ∈ gs -> born g.1;
  fi_last : born f;
  fi_current : server_inv f cs (current gs s);
  fi_old : forall g t, g ∈ gs -> t ∈ g.2.*1 -> exists th, threads s !! t = Some th /\
    t_phase th = Finished /\ served_in g t th;
  fi_once : NoDup (stored gs);
  fi_later : forall g, g ∈ tail (gs ++ [(f, cs)]) -> g.1 = creat_file None;
}.

Lemma stored_elem gs t : t ∈ stored gs <-> exists g, g ∈ gs /\ t ∈ g.2.*1.
Proof. unfold stored. rewrite list_elem_of_bind. naive_solver. Qed.

Lemma stored_snoc gs f cs : stored (gs ++ [(f, cs)]) = stored gs ++ cs.*1.
Proof. unfold stored. rewrite bind_app. cbn. by rewrite app_nil_r. Qed.

(** ** The threads of the last file *)

Lemma current_lookup gs s t th :
  threads (current gs s) !! t = Some th <-> threads s !! t = Some th /\ (t ∉ stored gs).
Proof. cbn. by rewrite map_lookup_filter_Some. Qed.

Lemma current_put gs s t th :
  t ∉ stored gs -> current gs (put t th s) = put t th (current gs s).
Proof. intros Ht. unfold current, put. cbn. by rewrite map_filter_insert_True. Qed.

Lemma current_step gs s t s' :
  t ∉ stored gs -> server_step mem s t s' -> server_step mem (current gs s) t (current gs s').
Proof.
  intros Ht Hstep. 
  destruct Hstep as [[f n m ths] t st Hnone Hi | f n m ths t th a turn n' st Hth Hp Ha Hc Hr Hturn
    | [f n m ths] t th Hth Hp Hc | f n ths t th Hth Hp | f n m ths t th f' pos Hth Hp Hst
    | [f n m ths] t th pos c Hth Hp Hread | f n m ths t th pos Hth Hp Hread];
    rewrite current_put by done; cbn in *.
  all: try (assert (filter (fun p : nat * thread => p.1 ∉ stored gs) ths !! t = Some th)
         by (by apply map_lookup_filter_Some_2)).
  - eapply step_create; [| done]. apply map_lookup_filter_None_2. by left.
  - by eapply step_recv.
  - by eapply step_received.
  - by eapply step_lock.
  - by eapply step_store.
  - by eapply step_send.
  - by eapply step_finish.
Qed.

(** A thread that was served takes no more steps. *)
Lemma stepping_thread_current gs f cs s t s' :
  files_inv gs f cs s -> server_step mem s t s' -> t ∉ stored gs.
Proof.
  intros Hinv Hstep (g & Hg & Ht)%stored_elem.
  destruct (fi_old _ _ _ _ Hinv g t Hg Ht) as (th & Hth & Hfin & _).
  destruct (server_step_thread _ _ _ _ Hstep) as (_ & th' & _ & Hcase).
  rewrite Hth in Hcase. by destruct Hcase.
Qed.

(** A packet stored in the last file leaves the files the same. *)
Lemma later_commit gs (f : F) (cs cs' : list commit) :
  (forall g, g ∈ tail (gs ++ [(f, cs)]) -> g.1 = creat_file None) ->
  forall g, g ∈ tail (gs ++ [(f, cs')]) -> g.1 = creat_file None.
Proof.
  destruct gs as [|g0 gs]; cbn; [by intros _ g ?%elem_of_nil |]. intros Hlate g.
  intros [Hg | ->%list_elem_of_singleton]%elem_of_app; [apply Hlate, elem_of_app; by left |].
  apply (Hlate (f, cs)), elem_of_app. right. by left.
Qed.

Lemma files_step_inv gs f cs s t s' :
  server_step mem s t s' -> files_inv gs f cs s -> exists cs', files_inv gs f cs' s'.
Proof.
  intros Hstep Hinv. pose proof (stepping_thread_current _ _ _ _ _ _ Hinv Hstep) as Ht.
  destruct Hinv as [Hb Hl Hc Ho Hn Hlate].
  destruct (server_step_inv mem f cs _ _ _ (current_step _ _ _ _ Ht Hstep) Hc) as [cs' Hc'].
  exists cs'. split; try done.
  - intros g t' Hg Ht'. rewrite (proj1 (server_step_thread _ _ _ _ Hstep)); [by apply Ho |].
    intros ->. apply Ht, stored_elem. by exists g.
  - by eapply later_commit.
Qed.

(** ** A new file *)

(** A thread that holds the mutex and has not opened the file knows that nobody has it
    open: those that stored their packets in the old file have been served. *)
Lemma new_file_inv gs f cs n m ths f0 t th :
  files_inv gs f cs (mk_server f0 n m ths) -> ths !! t = Some th -> t_phase th = Locked ->
  files_inv (gs ++ [(f, cs)]) (creat_file None) [] (mk_server (creat_file None) n m ths).
Proof.
  intros [Hb Hl [Hf Hall Hown Hnd Hknown] Ho Hn Hlate] Hth Hp. cbn in *.
  assert (t ∉ stored gs) as Htg.
  { intros (g & Hg & Ht)%stored_elem. destruct (Ho g t Hg Ht) as (th' & E & Hfin & _). congruence. }
  assert (thread_inv f cs f0 m t th) as Hti by (apply Hall; by apply map_lookup_filter_Some_2).
  unfold thread_inv in Hti. rewrite Hp in Hti. destruct Hti as (-> & _ & Htc).
  assert (forall t' th', ths !! t' = Some th' -> t' ∉ stored gs -> thread_inv f cs f0 (Some t) t' th')
    as Hall' by (intros; apply Hall; by apply map_lookup_filter_Some_2).
  assert (forall t', t' ∈ cs.*1 -> (t' ∉ stored gs) /\ exists th', ths !! t' = Some th' /\
    t_phase th' = Finished /\ served_in (f, cs) t' th') as Hserved.
  { intros t' Ht'. destruct (Hknown t' Ht') as [th' [E Hni]%map_lookup_filter_Some]. split; [done |].
    exists th'. split; [done |]. pose proof (Hall' t' th' E Hni) as Hinv. unfold thread_inv in Hinv.
    destruct (t_phase th') as [| | | pos |]; try (by destruct Hinv as (_ & _ & ?));
      [| by destruct Hinv as (_ & ?)].
    destruct Hinv as [[= ->] _]. done. }
  split; cbn.
  - intros g [Hg | ->%list_elem_of_singleton]%elem_of_app; [by apply Hb | done].
  - apply born_opened.
  - split; cbn; [done | | | by constructor | by intros t' ?%elem_of_nil].
    + intros t' th' [E Hni]%map_lookup_filter_Some. cbn in Hni.
      rewrite stored_snoc in Hni. apply not_elem_of_app in Hni as [Hni Hnc].
      pose proof (Hall' t' th' E Hni) as Hinv. unfold thread_inv in *.
      destruct (t_phase th') as [| | | pos |] eqn:Hp'; try (destruct Hinv as (? & ? & _); by split_and!; [| | apply not_elem_of_nil]).
      * destruct Hinv as [[= ->] _]. congruence.
      * destruct Hinv as (_ & f1 & start & (pre & post & f2 & -> & _) & _). exfalso. apply Hnc.
        rewrite fmap_app. apply elem_of_app. right. by left.
    + intros t' [= <-]. exists th. apply map_lookup_filter_Some_2; [done |]. cbn.
      rewrite stored_snoc. by intros [|]%elem_of_app.
  - intros g t' [Hg | ->%list_elem_of_singleton]%elem_of_app Ht'; [by apply Ho | by apply Hserved].
  - rewrite stored_snoc. apply NoDup_app. split_and!; [done | | done].
    intros t' Hg Ht'. by destruct (Hserved t' Ht').
  - intros g Hg. destruct gs as [|g0 gs]; cbn in Hg, Hlate.
    + by apply list_elem_of_singleton in Hg as ->.
    + apply elem_of_app in Hg as [Hg | ->%list_elem_of_singleton]; [by apply Hlate | done].
Qed.

(** The file created before there is any thread. *)
Lemma no_threads_inv gs f cs n m f0 f' :
  files_inv gs f cs (mk_server f0 n m ∅) -> born f' -> files_inv [] f' [] (mk_server f' n m ∅).
Proof.
  intros [_ _ [_ _ Hown _ _] _ _ _] Hb. split; cbn in *; try done.
  - by intros g ?%elem_of_nil.
  - split; cbn; [done | | | constructor | by intros t ?%elem_of_nil].
    + intros t th [E _]%map_lookup_filter_Some. done.
    + intros t [th [E _]%map_lookup_filter_Some]%Hown. done.
  - by intros g t ?%elem_of_nil.
  - constructor.
  - by intros g ?%elem_of_nil.
Qed.

(** The file the name stood for in the beginning. *)
Lemma named_born : born (default (creat_file None) named).
Proof. destruct named as [f|] eqn:E; cbn; [by apply born_named | apply born_opened]. Qed.

Lemma files_inv_init : files_inv [] (default (creat_file None) named) []
  (server_init (default (creat_file None) named)).
Proof.
  eapply (no_threads_inv [] _ []); [| apply named_born]. split; cbn; try done.
  - by intros g ?%elem_of_nil.
  - apply named_born.
  - apply server_inv_init.
  - by intros g t ?%elem_of_nil.
  - constructor.
  - by intros g ?%elem_of_nil.
Qed.

(** ** While nobody unlinks the file *)

(** Only the thread that stores its packet comes past the storing. *)
Lemma other_step_past srv t srv' t' th' :
  server_step mem srv t srv' -> (forall th, threads srv !! t = Some th -> t_phase th <> Locked) ->
  threads srv' !! t' = Some th' -> past_store th' ->
  exists th, threads srv !! t' = Some th /\ past_store th.
Proof.
  intros Hstep Hph Hth' Hpast. destruct (decide (t' = t)) as [-> | Hne].
  2: { exists th'. by rewrite <- (proj1 (server_step_thread _ _ _ _ Hstep)). }
  unfold past_store in *.
  destruct Hstep as [[f n m ths] t st Hnone Hi | f n m ths t th a turn n' st Hth Hp Ha Hc Hr Hturn
    | [f n m ths] t th Hth Hp Hc | f n ths t th Hth Hp | f n m ths t th f' pos Hth Hp Hst
    | [f n m ths] t th pos c Hth Hp Hread | f n m ths t th pos Hth Hp Hread];
    cbn in *; rewrite lookup_insert_eq in Hth'; injection Hth' as <-; cbn in *.
  - destruct Hpast as [? | [? ?]]; done.
  - destruct Hturn as [-> | ->]; destruct Hpast as [? | [? ?]]; done.
  - destruct Hpast as [? | [? ?]]; done.
  - destruct Hpast as [? | [? ?]]; done.
  - by destruct (Hph th Hth).
  - exists th. split; [done |]. right. by eexists.
  - exists th. split; [done |]. right. by eexists.
Qed.

(** A packet stored in the last file is that of a thread past the storing. *)
Lemma stored_past gs f cs s t :
  files_inv gs f cs s -> t ∈ cs.*1 -> exists th, threads s !! t = Some th /\ past_store th.
Proof.
  intros [_ _ [_ Hall _ _ Hknown] _ _ _] Ht. destruct (Hknown t Ht) as [th Hth].
  pose proof (Hall t th Hth) as Hinv. apply current_lookup in Hth as [Hth _].
  exists th. split; [done |]. unfold thread_inv, past_store in *.
  destruct (t_phase th) as [| | | pos |]; try (by destruct Hinv as (_ & _ & ?)); [| by left].
  right. by eexists.
Qed.

(** ** What the threads have been sent *)

Lemma files_inv_once gs f cs s : files_inv gs f cs s -> NoDup (stored (gs ++ [(f, cs)])).
Proof.
  intros [_ _ [_ _ _ Hnd Hknown] _ Hn _]. rewrite stored_snoc. apply NoDup_app.
  split_and!; [done | | done]. intros t Hg Ht.
  destruct (Hknown t Ht) as [th [_ Hni]%current_lookup]. done.
Qed.

Lemma files_inv_finished gs f cs s t th :
  files_inv gs f cs s -> threads s !! t = Some th -> t_phase th = Finished ->
  exists g, g ∈ gs ++ [(f, cs)] /\ served_in g t th.
Proof.
  intros [_ _ [_ Hall _ _ _] Ho _ _] Hth Hp. destruct (decide (t ∈ stored gs)) as [Hin | Hni].
  - apply stored_elem in Hin as (g & Hg & Ht). exists g. split; [apply elem_of_app; by left |].
    destruct (Ho g t Hg Ht) as (th' & E & _ & Hs). congruence.
  - exists (f, cs). split; [apply elem_of_app; right; by left |].
    pose proof (Hall t th (proj2 (current_lookup gs s t th) (conj Hth Hni))) as Hinv.
    unfold thread_inv in Hinv. rewrite Hp in Hinv. by destruct Hinv.
Qed.

Lemma files_inv_sending gs f cs s t th pos :
  files_inv gs f cs s -> threads s !! t = Some th -> t_phase th = Sending pos ->
  exists start, committed f cs t th (dataFile s) start /\ 0 <= start <= pos /\
    t_sent th = take (Z.to_nat (pos - start)) (drop (Z.to_nat start) (df_content (dataFile s))).
Proof.
  intros [_ _ [_ Hall _ _ _] Ho _ _] Hth Hp.
  assert (t ∉ stored gs) as Hni.
  { intros (g & Hg & Ht)%stored_elem. destruct (Ho g t Hg Ht) as (th' & E & Hfin & _). congruence. }
  pose proof (Hall t th (proj2 (current_lookup gs s t th) (conj Hth Hni))) as Hinv.
  unfold thread_inv in Hinv. rewrite Hp in Hinv. by destruct Hinv.
Qed.
End Files.
