(* ===== verification/WholeServerProps.v ===== *)
(** The properties of the whole server: its threads, its list, its data file and its
    signals together. *)

From Stdlib Require Import String.
From S2P Require Import Prelude CMem CString LogSpec SList.
From S2P Require Import SocketThread SocketThreadSpec SocketServer SocketServerProps SocketMain SocketMainProps.
From S2P Require Import SocketSystem SocketSystemProps SocketProcess SocketProcessProps SocketProcessEnd.
From S2P Require Import WholeServer WholeServerInv WholeServerFiles.

Section Whole.
Context {A : Type} (addr_of : string -> A) (argv : list string).
Context {F : Type} `{!DataFile F} (mem : Z -> bool) (creat_file : option F -> F).
Context (named : option F).

Abbreviation life := (life (A := A)).
Abbreviation life_step := (life_step addr_of argv).
Abbreviation exec := (exec addr_of argv).
Abbreviation whole := (whole (A := A) (F := F)).
Abbreviation mk_whole := (mk_whole (A := A) (F := F)).
Abbreviation whole_step := (whole_step addr_of argv mem creat_file).
Abbreviation files_inv := (files_inv creat_file named).
Abbreviation born := (born creat_file named).

(** ** The files the threads are served from *)

Definition is_unlink (lab : wlabel) : bool :=
  match lab with WHandler _ HUnlink => true | _ => false end.

(** [b] says whether a handler has unlinked the file: if not, there is only one, and
    it has its name once a packet is stored in it. *)
Record whole_files (b : bool) (w : whole) : Prop := {
  wf_files : exists gs f cs, files_inv gs f cs (w_srv w) /\ (b = false -> stored gs = []);
  wf_named : b = false -> forall t th, threads (w_srv w) !! t = Some th -> past_store th ->
    o_file (lf_os (w_life w)) = true;
}.

Lemma whole_files_init fds : whole_files false (whole_init creat_file fds named).
Proof.
  split; [| by intros _ t th]. exists [], (default (creat_file None) named), []. split; [| done].
  apply files_inv_init.
Qed.

Lemma exec_file pc ans res g (o : osys (A := A)) res' g' o' :
  exec pc ans res g o = Ret (res', g', o') -> o_file o = true -> o_file o' = true.
Proof.
  destruct pc; cbn; intros Hex Ho; outcome_inv; cbn; try done; repeat case_match; try done.
  all: by outcome_inv.
Qed.

Lemma call_file (l : life) i ans l' :
  life_step l (LMain i ans) l' -> o_file (lf_os l) = true -> o_file (lf_os l') = true.
Proof. inversion 1; subst. by eapply exec_file. Qed.

(** [creat] is called before there is a thread. *)
Lemma creat_files b (l : life) ans pc srv cs dn rt :
  rank (lf_pc l) < 14 -> whole_inv (mk_whole l pc srv cs dn rt) ->
  whole_files b (mk_whole l pc srv cs dn rt) ->
  exists gs f css, files_inv gs f css (created creat_file ICreat ans l srv) /\
    (b = false -> stored gs = []).
Proof.
  intros Hr [_ Hsys Hstart _] [(gs & f & css & Hinv & Hgs) _]. cbn in *.
  destruct (0 <=? a_ret ans); [| by exists gs, f, css].
  assert (threads srv = ∅) as Hno.
  { apply map_empty. intros t. destruct (threads srv !! t) as [th|] eqn:E; [| done].
    apply (si_known _ Hsys) in E as [x Hx]. cbn in Hx. by rewrite Hstart in Hx. }
  assert (dataFile srv = f) as Hf.
  { destruct css as [|[t out] css].
    - pose proof (inv_file _ _ _ (fi_current _ _ _ _ _ _ Hinv)) as E. cbn in E. by injection E.
    - destruct (stored_past _ _ _ _ _ _ _ Hinv (list_elem_of_here t _)) as (th & E & _).
      by rewrite Hno in E. }
  destruct srv as [f0 n m ths]. cbn in *. subst ths f0.
  exists [], (creat_file (if o_file (lf_os l) then Some f else None)), []. split; [| done].
  eapply no_threads_inv; [exact Hinv |]. destruct (o_file (lf_os l));
    [apply born_creat; by eapply fi_last | apply born_opened].
Qed.

Lemma call_files b (l : life) i ans l' pc srv cs dn rt :
  life_step l (LMain i ans) l' -> whole_inv (mk_whole l pc srv cs dn rt) ->
  whole_files b (mk_whole l pc srv cs dn rt) ->
  whole_files b (mk_whole l' pc (created creat_file i ans l srv) cs dn rt).
Proof.
  intros Hstep Hinv Hfiles. split; cbn.
  - assert (i = ICreat \/ i <> ICreat) as [-> | Hne] by (destruct i; by auto).
    + eapply creat_files; [| done..]. by inversion Hstep.
    + destruct Hfiles as [Hf _]. by destruct i.
  - rewrite created_threads. intros Hb t th Hth Hp. eapply call_file; [done |].
    by apply (wf_named _ _ Hfiles Hb t th).
Qed.

(** A thread's step, but for the storing. *)
Lemma own_step_server m m' pc pc' (srv srv' : server F) cs cs' dn dn' rt rt' ev t :
  sys_step mem (mk_system m pc srv cs dn rt) ev (mk_system m' pc' srv' cs' dn' rt') ->
  other_move srv cs ev t ->
  srv' = srv \/ server_step mem srv t srv' /\
    forall th, threads srv !! t = Some th -> t_phase th <> Locked.
Proof.
  inversion 1; subst; cbn; try (by auto). intros [-> Hth]. right.
  split; [done |]. intros th Hl. by apply Hth.
Qed.

Lemma own_step_files b (l : life) pc srv srv' cs dn dn' rt rt' ev t m' m'' :
  other_move srv cs ev t ->
  sys_step mem (mk_system m'' pc srv cs dn rt) ev (mk_system m' pc srv' cs dn' rt') ->
  whole_files b (mk_whole l pc srv cs dn rt) ->
  whole_files b (mk_whole (set_main m' (lf_pc l) l) pc srv' cs dn' rt').
Proof.
  intros Hev Hstep [(gs & f & css & Hinv & Hgs) Hnamed]. cbn in *.
  destruct (own_step_server _ _ _ _ _ _ _ _ _ _ _ _ _ _ Hstep Hev) as [-> | [Hst Hph]].
  { split; [by exists gs, f, css | exact Hnamed]. }
  split; cbn.
  - destruct (files_step_inv mem creat_file named _ _ _ _ _ _ Hst Hinv) as [css' Hinv'].
    by exists gs, f, css'.
  - intros Hb t' th' Hth' Hp. destruct (other_step_past mem _ _ _ _ _ Hst Hph Hth' Hp) as (th & Hth & Hp').
    by apply (Hnamed Hb t' th).
Qed.

(** The storing, in the file the name stands for or in a new one. *)
Lemma storing_server m pc (srv srv' : server F) cs dn rt t :
  sys_step mem (mk_system m pc srv cs dn rt) (ThreadMoves t) (mk_system m pc srv' cs dn rt) ->
  server_step mem srv t srv'.
Proof. by inversion 1. Qed.

Lemma storing_files b (l : life) pc srv srv' cs dn rt t th :
  threads srv !! t = Some th -> t_phase th = Locked ->
  server_step mem (opened_file creat_file l srv) t srv' ->
  whole_files b (mk_whole l pc srv cs dn rt) ->
  whole_files b (mk_whole (file_named l) pc srv' cs dn rt).
Proof.
  intros Hth Hp Hst [(gs & f & css & Hinv & Hgs) Hnamed]. cbn in *. split; [| done]. cbn.
  assert (exists gs f css, files_inv gs f css (opened_file creat_file l srv) /\
    (b = false -> stored gs = [])) as (gs1 & f1 & css1 & Hinv1 & Hgs1).
  { unfold opened_file. destruct (o_file (lf_os l)) eqn:Ho; [by exists gs, f, css |].
    destruct srv as [f0 n m ths]. cbn in *.
    exists (gs ++ [(f, css)]), (creat_file None), []. split.
    - by eapply new_file_inv.
    - intros Hb. rewrite stored_snoc, Hgs by done. destruct css as [|[t' out] css]; [done |].
      destruct (stored_past _ _ _ _ _ _ _ Hinv (list_elem_of_here t' _)) as (th' & E & Hpast).
      by pose proof (Hnamed Hb t' th' E Hpast). }
  destruct (files_step_inv mem creat_file named _ _ _ _ _ _ Hst Hinv1) as [css' Hinv'].
  by exists gs1, f1, css'.
Qed.

(** The other steps of the process touch the file only by unlinking it. *)
Lemma signal_step_file (l : life) lab l' :
  life_step l lab l' ->
  match lab with
  | LMain _ _ | LHandler _ HUnlink => True
  | _ => o_file (lf_os l) = true -> o_file (lf_os l') = true
  end.
Proof.
  destruct 1 as [| | | pc res g o hs1 who st rest hs2 g' o' Hw Hst | | | | | |]; try done.
  apply handler_step_closed in Hst as (_ & _ & _ & Hf & _). cbn. rewrite Hf. by destruct st.
Qed.

Lemma unlink_files b b' w w' :
  w_srv w' = w_srv w -> (b' = false -> b = false) ->
  (b' = false -> o_file (lf_os (w_life w)) = true -> o_file (lf_os (w_life w')) = true) ->
  whole_files b w -> whole_files b' w'.
Proof.
  intros Hs Hb Ho [(gs & f & css & Hinv & Hgs) Hnamed]. split; rewrite Hs.
  - exists gs, f, css. split; [done | by intros ?%Hb%Hgs].
  - intros Hb' t th Hth Hp. apply Ho; [done |]. by apply (Hnamed (Hb Hb') t th).
Qed.

Lemma whole_step_files b w lab w' :
  whole_step w lab w' -> whole_inv w -> whole_files b w ->
  whole_files (b || is_unlink lab) w'.
Proof.
  destruct 1 as [l i ans l' pc srv cs dn rt Ha Hr Hst | | l pc srv cs dn rt m' pc' Hpc [_ _] Hst
    | l pc srv cs dn rt ev t m' srv' dn' rt' [He _] Hev Hst
    | l pc srv cs dn rt t th srv' _ Hth Hp Hst | | | | | | | l pc srv cs dn rt t a fd b' f _ _ _ |];
    intros Hinv Hfiles; cbn [is_unlink];
    rewrite ?orb_false_r.
  - by eapply call_files.
  - eapply (unlink_files b); [| done | | exact Hfiles]; [done |]. cbn. intros _. by eapply call_file.
  - eapply (unlink_files b); [| done | | exact Hfiles]; done.
  - by eapply own_step_files.
  - eapply storing_files; [exact Hth | done | by eapply storing_server | exact Hfiles].
  - eapply (unlink_files b); [| done | | exact Hfiles]; [done |]. 
    intros _. by match goal with H : life_step _ _ _ |- _ => apply (signal_step_file _ _ _ H) end.
  - eapply (unlink_files b); [| | | exact Hfiles]; cbn; [done | by destruct b |].
    intros Hb. pose proof (signal_step_file _ _ _ ltac:(eassumption)) as Hf.
    destruct st; try done. by destruct b.
  - eapply (unlink_files b); [| done | | exact Hfiles]; [done |]. 
    intros _. by match goal with H : life_step _ _ _ |- _ => apply (signal_step_file _ _ _ H) end.
  - eapply (unlink_files b); [| done | | exact Hfiles]; [done |]. 
    intros _. by match goal with H : life_step _ _ _ |- _ => apply (signal_step_file _ _ _ H) end.
  - eapply (unlink_files b); [| done | | exact Hfiles]; [done |]. 
    intros _. by match goal with H : life_step _ _ _ |- _ => apply (signal_step_file _ _ _ H) end.
  - eapply (unlink_files b); [| done | | exact Hfiles]; done.
  - eapply (unlink_files b); [| done | | exact Hfiles]; [done |]. by destruct b'.
  - eapply (unlink_files b); [| done | | exact Hfiles]; done.
Qed.

Lemma whole_run_files fds ls w :
  run whole_step (whole_init creat_file fds named) ls w -> whole_files (existsb is_unlink ls) w.
Proof.
  assert (forall w0 ls w, run whole_step w0 ls w -> forall b, whole_inv w0 -> whole_files b w0 ->
    whole_files (b || existsb is_unlink ls) w) as Hgen.
  { induction 1 as [w0 | w0 lab w1 labs w2 Hstep _ IH]; intros b Hinv Hf; cbn; rewrite ?orb_false_r;
      [done |].
    rewrite orb_assoc. apply IH; [by eapply whole_step_inv | by eapply whole_step_files]. }
  intros Hrun. apply (Hgen _ _ _ Hrun false); [apply whole_init_inv | apply whole_files_init].
Qed.

(** ** The main thread's calls *)

Definition lookup_went_well (lab : wlabel) : Prop :=
  match lab with WMain IGetaddrinfo ans => a_ret ans = 0 | _ => True end.

(** [res] has a value while it is used. *)
Definition res_ready (l : life) : Prop := 7 <= rank (lf_pc l) <= 12 -> is_Some (lf_res l).

Lemma exec_res done pc ans res g (o : osys (A := A)) res' g' o' :
  exec pc ans res g o = Ret (res', g', o') -> (pc = IGetaddrinfo -> a_ret ans = 0) ->
  (7 <= rank pc <= 12 -> is_Some res) ->
  7 <= rank (next_instr done pc) <= 12 -> is_Some res'.
Proof.
  intros Hex Hans Hres Hr.
  destruct pc as [n | | | | | | | | | | | | | | | | | | |]; cbn in Hex, Hres, Hr;
    try (repeat case_match; cbn in *; lia); try lia; outcome_inv; try (by apply Hres; lia).
  - rewrite (Hans eq_refl). cbn. by eexists.
  - destruct res; [| done]. outcome_inv. by eexists.
Qed.

Lemma whole_step_res w lab w' :
  whole_step w lab w' -> lookup_went_well lab -> res_ready (w_life w) -> res_ready (w_life w').
Proof.
  unfold res_ready.
  destruct 1 as [l i ans l' pc srv cs dn rt Ha Hr Hst | l ans l' srv cs dn rt a Ha Ht Hst
    | l pc srv cs dn rt m' pc' Hpc [_ _] Hst
    | | | l sig who l' pc srv cs dn rt Hst | l who st l' pc srv cs dn rt Hst
    | l l' pc srv cs dn rt t th a fd Hc Hth Hp Hm Hst
    | l l' pc srv cs dn rt t th a fd pos Hc Hth Hp Hm Hst
    | l i ans f l' pc srv cs dn rt Hi Hst | | l pc srv cs dn rt t a fd b f _ _ _ |];
    intros Hwell Hres; cbn in *; try done.
  1: inversion Hst; subst; cbn in *; by eapply exec_res; [| intros -> |].
  1: inversion Hst; subst; cbn; lia.
  1: destruct pc'; cbn; lia.
  all: by first [inversion Hst; subst | destruct b].
Qed.

Lemma whole_run_res fds ls w :
  run whole_step (whole_init creat_file fds named) ls w -> Forall lookup_went_well ls ->
  res_ready (w_life w).
Proof.
  assert (forall w0 ls w, run whole_step w0 ls w -> Forall lookup_went_well ls ->
    res_ready (w_life w0) -> res_ready (w_life w)) as Hgen.
  { induction 1 as [w0 | w0 lab w1 labs w2 Hstep _ IH]; intros Hwell Hres; [done |].
    apply Forall_cons in Hwell as [Hl Hls]. apply IH; [done |]. by eapply whole_step_res. }
  intros Hrun Hwell. apply (Hgen _ _ _ Hrun Hwell). unfold res_ready. cbn. lia.
Qed.

(** Every call outside the search returns, [malloc] giving the node. *)
Lemma main_call_safe (l : life) ans :
  res_ready l -> lf_pc l <> IReap -> (lf_pc l = IAccept -> is_Some (a_node ans)) ->
  safe (exec (lf_pc l) ans (lf_res l) (lf_glob l) (lf_os l)).
Proof.
  destruct l as [pc res g o hs e]. unfold res_ready. cbn. intros Hres Hreap Hnode.
  destruct pc; cbn in Hres; try done; try (eexists; reflexivity).
  - destruct Hres as [x ->]; [lia | by eexists].
  - destruct Hres as [x ->]; [lia | by eexists].
  - destruct (Hnode eq_refl) as [a Ha]. unfold SocketProcess.exec.
    rewrite Ha, accept_insert_spec. by eexists.
Qed.

(** C9. The server process works, whatever the interleaving of its main thread, its
    connection threads and the handlers of signals. In every reachable state a thread
    that has not returned finds its own descriptor in its own node, still allocated,
    and can set [isDone] there; the next call of the main thread and the next step of
    its search stay in defined behaviour, provided [getaddrinfo] succeeded and
    [malloc] gives a node; and the packets have been stored one after the other, each
    thread's at most once, in the files the name has stood for in turn, each but the
    first one new: the last one holds what storing its packets gives, and these are
    all the packets as long as no handler has unlinked a file; every thread that has
    finished sent exactly what its file held as its own packet left it, and the one
    that is sending has sent a piece of it. *)
Theorem server_process_correct fds ls w :
  run whole_step (whole_init creat_file fds named) ls w ->
  let l := w_life w in let srv := w_srv w in
  (forall t a fd, w_conns w !! t = Some (a, fd) -> t ∉ w_returned w ->
     thread_param (the_main l) a = Ret fd /\ safe (thread_done (the_main l) a) /\
     forall t' fd', w_conns w !! t' = Some (a, fd') -> t' ∉ w_returned w -> t' = t) /\
  (lf_pc l = IReap -> w_reap w <> AtAccept /\ main_safe (view w)) /\
  (Forall lookup_went_well ls -> lf_pc l <> IReap ->
     forall ans, (lf_pc l = IAccept -> is_Some (a_node ans)) ->
     safe (exec (lf_pc l) ans (lf_res l) (lf_glob l) (lf_os l))) /\
  exists gs f cs,
    (forall g, g ∈ gs ++ [(f, cs)] -> born g.1) /\
    (forall g, g ∈ tail (gs ++ [(f, cs)]) -> g.1 = creat_file None) /\
    NoDup (stored (gs ++ [(f, cs)])) /\
    (existsb is_unlink ls = false -> stored gs = []) /\ replay f cs = Ret (dataFile srv) /\
    (forall t th, threads srv !! t = Some th -> t_phase th = Finished ->
       exists g, g ∈ gs ++ [(f, cs)] /\ served_in g t th) /\
    (forall t th pos, threads srv !! t = Some th -> t_phase th = Sending pos ->
       exists start, committed f cs t th (dataFile srv) start /\ 0 <= start <= pos /\
         t_sent th = take (Z.to_nat (pos - start)) (drop (Z.to_nat start) (df_content (dataFile srv)))).
Proof.
  intros Hrun. pose proof (whole_run_inv _ _ _ _ _ _ _ _ Hrun) as [_ Hsys _ Hreap].
  destruct (whole_run_files _ _ _ Hrun) as [(gs & f & cs & Hfiles & Hgs) _].
  cbn zeta. split_and!.
  - intros t a fd Hc Ht. by apply (sys_inv_thread (view w) t a fd).
  - intros Hpc. split; [by apply Hreap | by apply sys_inv_main_safe].
  - intros Hwell Hpc ans Hnode. apply main_call_safe; [by eapply whole_run_res | done..].
  - exists gs, f, cs. split_and!.
    + intros g [Hg | ->%list_elem_of_singleton]%elem_of_app;
        [by eapply fi_born | by eapply fi_last].
    + exact (fi_later _ _ _ _ _ _ Hfiles).
    + by eapply files_inv_once.
    + exact Hgs.
    + exact (inv_file _ _ _ (fi_current _ _ _ _ _ _ Hfiles)).
    + intros t th Hth Hp. by eapply files_inv_finished.
    + intros t th pos Hth Hp. by eapply files_inv_sending.
Qed.

(** ** The end *)

(** Whether the file has its name, since a handler last unlinked it. *)
Fixpoint reopened (b : bool) (ls : list wlabel) : bool :=
  match ls with
  | [] => b
  | WHandler _ HUnlink :: ls => reopened false ls
  | WStore _ :: ls => reopened true ls
  | _ :: ls => reopened b ls
  end.

Lemma whole_step_running w lab w' : whole_step w lab w' -> lf_end (w_life w) = None.
Proof.
  destruct 1; cbn; try (by match goal with H : free_to_run _ _ |- _ => destruct H end);
    by eapply life_step_running.
Qed.

(** Until a step with undefined behaviour. *)
Definition defined_end (w : whole) : Prop := forall f, lf_end (w_life w) <> Some (Undefined f).

Lemma whole_step_named b w lab w' :
  whole_step w lab w' -> whole_inv w -> file_inv b (w_life w) -> defined_end w' ->
  file_inv (reopened b [lab]) (w_life w').
Proof.
  destruct 1; intros [Hlife _ _ _] Hf Hdef; cbn in *; try done;
    try (match goal with H : life_step _ _ _ |- _ => exact (file_step _ _ _ _ _ _ H Hlife Hf) end);
    by destruct (Hdef f).
Qed.

Lemma whole_run_named fds ls w :
  run whole_step (whole_init creat_file fds named) ls w -> defined_end w ->
  file_inv (reopened true ls) (w_life w).
Proof.
  assert (forall w0 ls w, run whole_step w0 ls w -> forall b, whole_inv w0 ->
    file_inv b (w_life w0) -> defined_end w -> file_inv (reopened b ls) (w_life w)) as Hgen.
  { induction 1 as [w0 | w0 lab w1 labs w2 Hstep Hrun IH]; intros b Hinv Hf Hdef; [done |].
    assert (defined_end w1) as Hdef1.
    { destruct Hrun as [| ? ? ? ? ? Hnext]; [done |]. apply whole_step_running in Hnext.
      intros f. by rewrite Hnext. }
    pose proof (IH (reopened b [lab]) (whole_step_inv _ _ _ _ _ _ _ Hstep Hinv)
      (whole_step_named _ _ _ _ Hstep Hinv Hf Hdef1) Hdef) as H.
    by destruct lab as [| | | | | ? [] | | | | |]. }
  intros Hrun. apply (Hgen _ _ _ Hrun); [apply whole_init_inv | by intros (h & Hh%elem_of_nil & _)].
Qed.

(** *** Steps with undefined behaviour *)

(** What [bind] is given is still there for [freeaddrinfo]. *)
Definition res_bound (l : life) : Prop := 10 <= rank (lf_pc l) <= 12 -> is_Some (lf_res l).

Lemma exec_bound done pc ans res g (o : osys (A := A)) res' g' o' :
  exec pc ans res g o = Ret (res', g', o') -> (10 <= rank pc <= 12 -> is_Some res) ->
  10 <= rank (next_instr done pc) <= 12 -> is_Some res'.
Proof.
  intros Hex Hres Hr.
  destruct pc as [n | | | | | | | | | | | | | | | | | | |]; cbn in Hex, Hres, Hr;
    try (repeat case_match; cbn in *; lia); try lia; outcome_inv; try (by apply Hres; lia).
  destruct res; [| done]. outcome_inv. by eexists.
Qed.

Lemma whole_step_bound w lab w' : whole_step w lab w' -> res_bound (w_life w) -> res_bound (w_life w').
Proof.
  unfold res_bound.
  destruct 1 as [l i ans l' pc srv cs dn rt Ha Hr Hst | l ans l' srv cs dn rt a Ha Ht Hst
    | l pc srv cs dn rt m' pc' Hpc [_ _] Hst
    | | | l sig who l' pc srv cs dn rt Hst | l who st l' pc srv cs dn rt Hst
    | l l' pc srv cs dn rt t th a fd Hc Hth Hp Hm Hst
    | l l' pc srv cs dn rt t th a fd pos Hc Hth Hp Hm Hst
    | l i ans f l' pc srv cs dn rt Hi Hst | | l pc srv cs dn rt t a fd b f _ _ _ |];
    intros Hres; cbn in *; try done.
  1: inversion Hst; subst; cbn in *; by eapply exec_bound.
  1: inversion Hst; subst; cbn; lia.
  1: destruct pc'; cbn; lia.
  all: by first [inversion Hst; subst | destruct b].
Qed.

Lemma whole_run_bound fds ls w :
  run whole_step (whole_init creat_file fds named) ls w -> res_bound (w_life w).
Proof.
  intros Hrun.
  apply (run_invariant whole_step (fun w => res_bound (w_life w)) whole_step_bound _ _ _ Hrun).
  unfold res_bound. cbn. lia.
Qed.

(** The calls outside the search that can be undefined. *)
Lemma main_call_faults pc ans res g (o : osys (A := A)) f :
  exec pc ans res g o = Fault f -> pc <> IReap ->
  (pc = IBind \/ pc = IFreeaddrinfo) /\ res = None /\ f = Uninitialised \/
  pc = IAccept /\ a_node ans = None /\ f = NullDeref.
Proof.
  intros Hex Hr. destruct pc; cbn in Hex; try done; try (by destruct res; simplify_eq; auto).
  destruct (a_node ans) as [a|]; [by rewrite accept_insert_spec in Hex |].
  right. cbn in Hex. by simplify_eq.
Qed.

(** The list is never used wrongly: by the search, or by a thread for its node. *)
Lemma no_scan_fault (w : whole) f : whole_inv w -> ~ scan_fault (the_main (w_life w)) (w_reap w) f.
Proof.
  intros Hinv Hf. pose proof (sys_inv_main_safe (view w) (wi_sys _ Hinv)) as Hsafe.
  unfold main_safe, view in Hsafe. cbn in Hsafe. destruct (w_reap w) as [| [a|] | a]; cbn in Hf; try done.
  - destruct Hsafe as [pc E]. congruence.
  - destruct Hsafe as (t & fd & d & _ & _ & _ & _ & m' & E & _). congruence.
Qed.

Lemma no_node_fault (w : whole) t a fd th b f :
  whole_inv w -> w_conns w !! t = Some (a, fd) -> threads (w_srv w) !! t = Some th ->
  ~ node_fault (the_main (w_life w)) (dataFile (w_srv w)) a b th f.
Proof.
  intros Hinv Hc Hth Hf. assert (t ∉ w_returned w) as Hret.
  { intros (th' & E & Hfin)%(si_returned _ (wi_sys _ Hinv)). cbn in E. rewrite Hth in E.
    injection E as <-. unfold node_fault, uses_socket, sent_all in Hf. rewrite Hfin in Hf.
    destruct Hf as [[[] _] | [(pos & [=] & _) _]]. }
  destruct (sys_inv_thread (view w) t a fd (wi_sys _ Hinv) Hc Hret) as (E & [m E'] & _).
  unfold view in E, E'. cbn in E, E'. destruct Hf as [[_ Hf] | (_ & _ & Hf)]; congruence.
Qed.

(** *** The last step *)

(** What the last step was and what it found. *)
Definition last_step (w : whole) (lab : wlabel) (lab' : label) : Prop :=
  match lab' with
  | LRecvFails a => exists t fd th, lab = WRecvFails t /\
      w_conns w !! t = Some (a, fd) /\ threads (w_srv w) !! t = Some th /\
      t_phase th = Receiving /\ packetComplete (t_recv th) = false
  | LSendBroken a => exists t fd th pos, lab = WSendBroken t /\
      w_conns w !! t = Some (a, fd) /\ threads (w_srv w) !! t = Some th /\
      t_phase th = Sending pos /\ is_Some (fread1 (dataFile (w_srv w)) pos)
  | LSignal sig who => lab = WSignal sig who
  | LMainFaults i ans f => lab = WMainFaults i ans f /\ i <> IReap
  | LMain _ _ | LHandler _ _ => True
  | _ => False
  end.

(** A step that ends the process is one of [SocketProcess], or undefined. *)
Lemma ending_step w0 lab w e :
  whole_step w0 lab w -> whole_inv w0 -> lf_end (w_life w) = Some e ->
  (exists lab', life_step (w_life w0) lab' (w_life w) /\ last_step w lab lab') \/
  exists t a fd b f, e = Undefined f /\ lab = WThreadFaults t f /\ w_conns w !! t = Some (a, fd) /\
    own_fault (w_srv w) fd (threads (w_srv w) !! t) b f.
Proof.
  intros Hstep Hinv He.
  destruct Hstep as [l i ans l' pc srv cs dn rt Ha Hr Hst | l ans l' srv cs dn rt a Ha Ht Hst
    | l pc srv cs dn rt m' pc' Hpc [Hend _] Hst | l pc srv cs dn rt ev t m' srv' dn' rt' [Hend _] Hev Hst
    | l pc srv cs dn rt t th srv' [Hend _] Hth Hp Hst
    | l sig who l' pc srv cs dn rt Hst | l who st l' pc srv cs dn rt Hst
    | l l' pc srv cs dn rt t th a fd Hc Hth Hp Hm Hst
    | l l' pc srv cs dn rt t th a fd pos Hc Hth Hp Hm Hst
    | l i ans f l' pc srv cs dn rt Hi Hst | l pc srv cs dn rt f Hpc Hfree Hf
    | l pc srv cs dn rt t a fd b f Hc Hfree Hf | l pc srv cs dn rt t th a fd f Hc Hth Hfree Hf];
    cbn in He; try (by rewrite Hend in He);
    try (left; eexists; split; [exact Hst |]; cbn; by eauto 10).
  - exfalso. exact (no_scan_fault (mk_whole l pc srv cs dn rt) f Hinv Hf).
  - right. injection He as <-. by exists t, a, fd, b, f.
  - exfalso. exact (no_node_fault (mk_whole l pc srv cs dn rt) t a fd th _ f Hinv Hc Hth Hf).
Qed.

(** A call of the main thread that is undefined. *)
Lemma undefined_main fds ls0 w0 ls w i ans f :
  run whole_step (whole_init creat_file fds named) ls w ->
  run whole_step (whole_init creat_file fds named) ls0 w0 ->
  life_step (w_life w0) (LMainFaults i ans f) (w_life w) -> i <> IReap ->
  (exists ans', WMainFaults i ans f = WMainFaults IBind ans' f) /\ f = Uninitialised /\
    ~ Forall lookup_went_well ls \/
  (exists ans', WMainFaults i ans f = WMainFaults IAccept ans' f /\ a_node ans' = None) /\
    f = NullDeref \/
  exists t a fd b, WMainFaults i ans f = WThreadFaults t f /\ w_conns w !! t = Some (a, fd) /\
    own_fault (w_srv w) fd (threads (w_srv w) !! t) b f.
Proof.
  intros Hrun Hrun0 Hstep Hi. pose proof (whole_run_bound _ _ _ Hrun0) as Hbound.
  pose proof (whole_run_res _ _ _ Hrun) as Hres. unfold res_bound, res_ready in *.
  remember (w_life w0) as l0. remember (w_life w) as l.
  inversion Hstep as [| | | | | | | | pc res g o hs ans' f' _ _ Hex |]; subst. cbn in Hbound, Hres.
  apply main_call_faults in Hex as [([-> | ->] & -> & ->) | (-> & Hn & ->)]; [| | | done].
  - left. split_and!; [by eexists | done |]. intros Hwell.
    destruct (Hres Hwell) as [x [=]]. cbn. lia.
  - destruct Hbound as [x [=]]. cbn. lia.
  - right. left. split; [by exists ans | done].
Qed.

(** C10. The ways the server ends, whatever its threads are doing, whichever calls fail of
    those whose failure is a step of the model ([accept], [pthread_create], [recv],
    [malloc], [realloc], [fopen], [send] with [SIGPIPE], and the set-up's), and whenever
    signals arrive. The process ends with
    status 0 only after a handled signal has set [doneFlag], when [signalHandler] has
    run to its end, with the server's socket closed and the data file there only if a
    thread has opened it again since it was unlinked, or when the main thread has left
    the accept loop while a handler is in progress in another thread. It ends with
    status 1 only because a thread still receiving has failed in [recv]. A signal
    kills it only if its default action does and no handler is installed for it,
    which excludes [SIGINT] and [SIGTERM] once [main] has got to them; or it is
    [SIGPIPE] from the [send] of a thread that has
    not sent all of its answer: one client that hangs up before it has its answer ends
    the server for all of them, and its data file, if no handler has unlinked it, is
    left behind. Its behaviour becomes undefined only in [bind], [getaddrinfo] having
    failed; at the insertion into the list, [malloc] having given [NULL]; or in a step
    of a thread's own ([own_fault]): never in the use the main thread, the search or
    a thread makes of the shared list and its nodes. *)
Theorem server_process_ends fds ls w e :
  run whole_step (whole_init creat_file fds named) ls w -> lf_end (w_life w) = Some e ->
  let l := w_life w in let srv := w_srv w in
  exists ls0 lab, ls = ls0 ++ [lab] /\
  match e with
  | Exited status =>
      status = 0 /\ doneFlag (lf_glob l) = true /\
        ((exists who, (who, []) ∈ lf_handlers l /\ socket_closed (lf_glob l) (lf_os l) /\
            o_file (lf_os l) = reopened true ls) \/
         (lf_pc l = IReturn /\ some_worker_left 4 (lf_handlers l))) \/
      status = 1 /\ exists t a fd th, lab = WRecvFails t /\
        w_conns w !! t = Some (a, fd) /\ threads srv !! t = Some th /\
        t_phase th = Receiving /\ packetComplete (t_recv th) = false
  | Killed sig =>
      (exists who, lab = WSignal sig who) /\ ends_by_default sig = true /\
        (sig ∉ o_handlers (lf_os l)) /\ too_early l sig \/
      sig = SIGPIPE /\ (existsb is_unlink ls = false -> o_file (lf_os l) = true) /\
        exists t a fd th pos, lab = WSendBroken t /\
        w_conns w !! t = Some (a, fd) /\ threads srv !! t = Some th /\
        t_phase th = Sending pos /\ is_Some (fread1 (dataFile srv) pos)
  | Undefined f =>
      (exists ans, lab = WMainFaults IBind ans f) /\ f = Uninitialised /\
        ~ Forall lookup_went_well ls \/
      (exists ans, lab = WMainFaults IAccept ans f /\ a_node ans = None) /\ f = NullDeref \/
      exists t a fd b, lab = WThreadFaults t f /\ w_conns w !! t = Some (a, fd) /\
        own_fault srv fd (threads srv !! t) b f
  end.
Proof.
  intros Hrun He. cbn zeta. pose proof (whole_run_named _ _ _ Hrun) as Hnamed.
  pose proof (whole_run_files _ _ _ Hrun) as [_ Hfile].
  pose proof (whole_run_inv _ _ _ _ _ _ _ _ Hrun) as [Hinv _ _ _].
  pose proof (run_last _ _ _ _ Hrun) as [[_ ->] | (ls0 & lab & w0 & -> & Hrun0 & Hlast)]; [done |].
  exists ls0, lab. split; [done |]. apply whole_run_inv in Hrun0 as Hinv0.
  destruct (ending_step _ _ _ _ Hlast Hinv0 He)
    as [(lab' & Hstep & Hwas) | (t & a & fd & b & f & -> & -> & Hc & Hf)];
    [| do 2 right; by exists t, a, fd, b].
  pose proof (end_step _ _ _ _ _ _ Hstep (wi_life _ Hinv0) Hinv He) as Hcase.
  destruct e as [status | sig | f].
  - destruct Hcase as [(-> & Hd & Hhow) | (-> & a & ->)].
    + left. split_and!; [done.. |]. destruct Hhow as [(who & _ & Hh & Hc) | (_ & Hpast)]; [left | by right].
      exists who. split_and!; [done.. |].
      apply Hnamed; [intros f; by rewrite He |]. exists (who, []). split; [done | cbn; lia].
    + right. split; [done |]. destruct Hwas as (t & fd & th & -> & H). by exists t, a, fd, th.
  - destruct Hcase as [([who ->] & H) | (-> & a & ->)]; [left; split; [by exists who | done] | right].
    destruct Hwas as (t & fd & th & pos & -> & Hc & Hth & Hp & Hread).
    split_and!; [done | | by exists t, a, fd, th, pos].
    intros Hno. apply (Hfile Hno t th Hth). right. by eexists.
  - destruct Hcase as [(i & ans & ->) | [a ->]]; [| done]. destruct Hwas as [-> Hi].
    eapply undefined_main; [exact Hrun | exact Hrun0 | exact Hstep | done].
Qed.
End Whole.

(** ** A concrete run, for the witnesses

    The server is set up and accepts a client, whose thread stores the line it sends. *)

Definition empty_file (old : option (list byte)) : list byte := [].

Abbreviation demo_whole_step :=
  (whole_step demo_address ["aesdsocket"; "-d"]%string demo_memory empty_file).

(** Calls before the first [accept], the file being empty all along. *)
Lemma calls_run l ls l' pc srv cs dn rt :
  run (life_step demo_address ["aesdsocket"; "-d"]%string) l ls l' ->
  forallb (fun lab => match lab with LMain (IAccept | IReap) _ => false | LMain _ _ => true
                      | _ => false end) ls = true ->
  dataFile srv = [] ->
  exists labs, run demo_whole_step (mk_whole l pc srv cs dn rt) labs (mk_whole l' pc srv cs dn rt) /\
    existsb is_unlink labs = false.
Proof.
  induction 1 as [l | l lab l1 ls l2 Hstep _ IH]; cbn; intros Hlabs Hf.
  { exists []. split; [apply run_nil | done]. }
  apply andb_prop in Hlabs as [Hlab Hls]. destruct lab as [i ans | | | | | | | |]; try done.
  destruct (IH Hls Hf) as (labs & Hrun & Hno). exists (WMain i ans :: labs). split; [| done].
  assert (created empty_file i ans l srv = srv) as E.
  { destruct i; try done. cbn. destruct srv. cbn in *. subst. by case_match. }
  eapply run_cons; [| exact Hrun]. rewrite <- E at 2. by apply whole_call; [by destruct i.. |].
Qed.

(** A step of a thread that is not the storing of its packet. *)
Lemma thread_moves l pc (srv srv' : server (list byte)) cs dn rt t a fd th :
  lf_end l = None -> lf_handlers l = [] -> cs !! t = Some (a, fd) -> 0 <= fd ->
  safe (thread_param (the_main l) a) -> server_step demo_memory srv t srv' ->
  default th (threads srv !! t) = th -> t_phase th <> Locked -> ~ sent_all (dataFile srv) th ->
  demo_whole_step (mk_whole l pc srv cs dn rt) (WThread (ThreadMoves t)) (mk_whole l pc srv' cs dn rt).
Proof.
  intros He Hh Hc Hfd Hparam Hst Hth Hp Hsent.
  assert (set_main (the_main l) (lf_pc l) l = l) as E by (by destruct l as [? ? []]).
  rewrite <- E at 2. eapply whole_thread.
  - split; [done | by rewrite Hh; apply not_elem_of_nil].
  - split; [done |]. intros th' E'. rewrite E' in Hth. cbn in Hth. subst th'. split; [done |].
    intros _ a' fd' Hc'. rewrite Hc in Hc'. by injection Hc' as <- <-.
  - eapply sys_thread; [done.. | |]; intros th' E'; rewrite E' in Hth; cbn in Hth; by subst th'.
Qed.

Definition accept_answer : answer := mk_answer 4 (Some 10%nat) (Some 0%nat).

(** The client is connected, and no thread is stale. *)
Definition connected : life :=
  default demo_life (main_call demo_address ["aesdsocket"; "-d"]%string accept_answer demo_life).

Definition searched (pc : main_pc) : life := set_main (the_main connected) (after_scan pc) connected.

Definition demo_conns : gmap nat (nat * Z) := <[0%nat := (10%nat, 4)]> ∅.

(** Thread 0 has the mutex, and then has stored its line. *)
Definition demo_thread (p : phase) : thread := mk_thread p (received_piece line1) [].

Definition storing_server_state : server (list byte) :=
  mk_server [] 2 (Some 0%nat) (<[0%nat := demo_thread Locked]> ∅).
Definition stored_server_state : server (list byte) :=
  mk_server line1 2 (Some 0%nat) (<[0%nat := demo_thread (Sending 0)]> ∅).

Definition stored_whole : whole :=
  mk_whole (file_named (searched AtAccept)) AtAccept stored_server_state demo_conns ∅ ∅.

Lemma demo_labels_plain :
  forallb (fun lab => match lab with LMain (IAccept | IReap) _ => false | LMain _ _ => true
                      | _ => false end) demo_labels = true.
Proof. by vm_compute. Qed.

Lemma demo_connects :
  exists labs, run demo_whole_step (whole_init empty_file {[0; 1; 2]} None) labs
    (mk_whole (searched AtAccept) AtAccept (server_init []) demo_conns ∅ ∅) /\
    existsb is_unlink labs = false.
Proof.
  destruct (calls_run _ _ _ AtAccept (server_init []) ∅ ∅ ∅ demo_life_run demo_labels_plain eq_refl)
    as (labs & Hrun & Hno).
  exists (labs ++ [WMain IAccept accept_answer; WScan; WScan]). split.
  2: { by rewrite existsb_app, Hno. }
  eapply run_app; [exact Hrun |].
  assert (lf_pc demo_life = IAccept) as Hpc by by_computation.
  assert (the_main (searched (AtNode None)) = the_main connected) as Hm by (by vm_compute).
  eapply run_cons.
  { eapply (whole_accept _ _ _ _ demo_life accept_answer connected); [reflexivity | by intros t [= <-] |].
    rewrite <- Hpc. apply main_call_step. by vm_compute. }
  eapply run_cons.
  { eapply (whole_scan _ _ _ _ connected _ _ _ _ _ (the_main connected) (AtNode None));
      [by vm_compute | by split; [by vm_compute | vm_compute; apply not_elem_of_nil] |].
    assert (SLIST_FIRST (head (the_main connected)) = Some 10%nat) as -> by (by vm_compute).
    apply sys_scan. by vm_compute. }
  eapply run_cons; [| apply run_nil].
  eapply (whole_scan _ _ _ _ (searched (AtNode None)) _ _ _ _ _ (the_main connected) AtAccept);
    [by vm_compute | by split; [by vm_compute | vm_compute; apply not_elem_of_nil] |].
  rewrite Hm. apply sys_scan_end.
Qed.

(** The thread's steps before the storing. *)
Lemma demo_receives :
  exists labs, run demo_whole_step
    (mk_whole (searched AtAccept) AtAccept (server_init []) demo_conns ∅ ∅) labs
    (mk_whole (searched AtAccept) AtAccept storing_server_state demo_conns ∅ ∅) /\
    existsb is_unlink labs = false.
Proof.
  assert (forall (srv srv' : server (list byte)) th, server_step demo_memory srv 0%nat srv' ->
    default th (threads srv !! 0%nat) = th ->
    match t_phase th with Receiving | Locking => True | _ => False end ->
    demo_whole_step (mk_whole (searched AtAccept) AtAccept srv demo_conns ∅ ∅)
      (WThread (ThreadMoves 0)) (mk_whole (searched AtAccept) AtAccept srv' demo_conns ∅ ∅)) as Hmove.
  { intros srv srv' th Hst Hth Hp.
    apply (thread_moves _ _ _ _ _ _ _ 0%nat 10%nat 4 th); try done; try (by vm_compute).
    - by eexists; vm_compute.
    - by intros E; rewrite E in Hp.
    - by intros (pos & E & _); rewrite E in Hp. }
  exists (replicate 4 (WThread (ThreadMoves 0))). split; [| done].
  eapply run_cons; [eapply (Hmove _ _ (demo_thread Receiving)); [by eapply step_create | done..] |].
  eapply run_cons.
  { eapply (Hmove _ _ (mk_thread Receiving _ []));
      [eapply (step_recv demo_memory _ _ _ _ 0%nat _ (RxBytes line1)); [reflexivity | reflexivity
      | by vm_compute | reflexivity | reflexivity | right; reflexivity] | reflexivity | done]. }
  eapply run_cons.
  { eapply (Hmove _ _ (mk_thread Receiving _ []));
      [eapply (step_received demo_memory _ 0%nat); reflexivity | reflexivity | done]. }
  eapply run_cons.
  { eapply (Hmove _ _ (mk_thread Locking _ []));
      [eapply (step_lock demo_memory _ _ _ 0%nat); reflexivity | reflexivity | done]. }
  match goal with |- run _ (_ _ _ ?s _ _ _) _ _ =>
    assert (s = storing_server_state) as -> by (by vm_compute) end.
  apply run_nil.
Qed.

Lemma demo_stores :
  exists labs, run demo_whole_step (whole_init empty_file {[0; 1; 2]} None) labs stored_whole /\
    existsb is_unlink labs = false.
Proof.
  destruct demo_connects as (labs1 & Hrun1 & H1), demo_receives as (labs2 & Hrun2 & H2).
  exists ((labs1 ++ labs2) ++ [WStore 0]). split; [| by rewrite !existsb_app, H1, H2].
  eapply run_app; [by eapply run_app |]. eapply run_cons; [| apply run_nil].
  eapply whole_store; [| reflexivity | reflexivity |].
  - split; [by vm_compute | vm_compute; apply not_elem_of_nil].
  - assert (opened_file empty_file (searched AtAccept) storing_server_state = storing_server_state)
      as -> by (by vm_compute).
    assert (stored_server_state = put 0%nat (at_phase (Sending 0) (demo_thread Locked))
      (mk_server line1 2 (Some 0%nat) (<[0%nat := demo_thread Locked]> ∅))) as -> by (by vm_compute).
    eapply sys_thread; [reflexivity | by eapply step_store | |].
    + intros th _ _. by eexists; vm_compute.
    + intros th E (pos & Hp & _). by injection E as <-.
Qed.

Lemma server_process_correct_witness :
  thread_param (the_main (w_life stored_whole)) 10 = Ret 4 /\
  exists gs f cs, replay f cs = Ret line1 /\
    (forall g, g ∈ gs ++ [(f, cs)] -> born empty_file None g.1) /\ stored gs = [] /\
    exists start, committed f cs 0%nat (demo_thread (Sending 0)) line1 start.
Proof.
  destruct demo_stores as (labs & Hrun & Hno).
  destruct (server_process_correct demo_address ["aesdsocket"; "-d"]%string demo_memory empty_file None
    {[0; 1; 2]} labs stored_whole Hrun)
    as (H1 & _ & _ & gs & f & cs & Hborn & _ & _ & Hgs & Hf & _ & Hsend).
  destruct (H1 0%nat 10%nat 4 eq_refl (not_elem_of_empty _)) as (Hparam & _ & _).
  destruct (Hsend 0%nat (demo_thread (Sending 0)) 0 eq_refl eq_refl) as (start & Hcom & _).
  split; [exact Hparam |]. exists gs, f, cs.
  split; [exact Hf |]. split; [exact Hborn |]. split; [exact (Hgs Hno) |].
  exists start. exact Hcom.
Defined.

(** The client hangs up before its answer is sent. *)
Definition broken_whole : whole :=
  mk_whole (but_for (w_life stored_whole) (lf_os (w_life stored_whole)) [] (Some (Killed SIGPIPE)))
    AtAccept stored_server_state demo_conns ∅ ∅.

Lemma demo_breaks :
  exists labs, run demo_whole_step (whole_init empty_file {[0; 1; 2]} None) (labs ++ [WSendBroken 0])
    broken_whole /\ existsb is_unlink (labs ++ [WSendBroken 0]) = false.
Proof.
  destruct demo_stores as (labs & Hrun & Hno). exists labs.
  split; [| by rewrite existsb_app, Hno]. eapply run_app; [exact Hrun |].
  eapply run_cons; [| apply run_nil].
  eapply (whole_send_broken _ _ _ _ (w_life stored_whole)); [reflexivity | reflexivity | reflexivity
    | by eexists |].
  assert (exists pc res g o, w_life stored_whole = mk_life pc res g o [] None) as (pc & res & g & o & E)
    by (by vm_compute; repeat eexists).
  unfold but_for. rewrite E. cbn [lf_os lf_pc lf_res lf_glob]. apply life_send_broken.
  - rewrite <- E. split.
    + eexists _, 0%nat. split; [by vm_compute |]. split; [by vm_compute |]. split; [by vm_compute |].
      vm_compute. apply not_elem_of_nil.
    + eexists _, 4. split; [by vm_compute |]. split; [by vm_compute | by vm_compute].
  - assert (o = lf_os (w_life stored_whole)) as -> by (by rewrite E).
    apply (bool_decide_unpack _). by vm_compute.
Qed.

Lemma server_process_ends_witness :
  o_file (lf_os (w_life broken_whole)) = true /\
  exists t a fd, w_conns broken_whole !! t = Some (a, fd).
Proof.
  destruct demo_breaks as (labs & Hrun & Hno).
  destruct (server_process_ends demo_address ["aesdsocket"; "-d"]%string demo_memory empty_file None
    {[0; 1; 2]} (labs ++ [WSendBroken 0]) broken_whole (Killed SIGPIPE) Hrun eq_refl)
    as (ls0 & lab & E0 & [[[who E] _] | (_ & Hfile & t & a & fd & th & pos & _ & Hc & _)]).
  { apply app_inj_tail in E0 as [_ <-]. discriminate E. }
  split; [exact (Hfile Hno) |]. exists t, a, fd. exact Hc.
Defined.
