(* ===== verification/WholeServerLive.v ===== *)
(** No client waits in vain: from any state of the whole server a thread that has its
    packet can be brought to its end by steps of its own and of the thread that holds
    the mutex. *)

From Stdlib Require Import String.
From S2P Require Import Prelude CMem CString LogSpec SList.
From S2P Require Import SocketThread SocketThreadSpec SocketServer SocketServerProps SocketMain SocketMainProps.
From S2P Require Import SocketSystem SocketSystemProps SocketProcess SocketProcessProps SocketProcessEnd.
From S2P Require Import WholeServer WholeServerInv WholeServerFiles WholeServerProps.

Section Whole.
Context {A : Type} (addr_of : string -> A) (argv : list string).
Context {F : Type} `{!DataFile F} (mem : Z -> bool) (creat_file : option F -> F).
Context (named : option F).

Abbreviation life := (life (A := A)).
Abbreviation whole := (whole (A := A) (F := F)).
Abbreviation mk_whole := (mk_whole (A := A) (F := F)).
Abbreviation whole_step := (whole_step addr_of argv mem creat_file).
Abbreviation whole_files := (whole_files creat_file named).

(** ** Threads without a connection *)

(** A thread that has no connection, [accept] having failed, waits for its first
    [recv] to fail. *)
Definition no_connection (srv : server F) (cs : gmap nat (nat * Z)) : Prop :=
  forall t th a fd, threads srv !! t = Some th -> cs !! t = Some (a, fd) -> fd < 0 ->
    t_phase th = Receiving /\ packetComplete (t_recv th) = false.

Lemma server_step_no_connection srv srv' cs t :
  server_step mem srv t srv' -> no_connection srv cs ->
  (forall th, threads srv !! t = Some th -> uses_socket (dataFile srv) th ->
     forall a fd, cs !! t = Some (a, fd) -> 0 <= fd) ->
  no_connection srv' cs.
Proof.
  intros Hstep Hinv Huse t' th' a fd Hth' Hc Hfd. destruct (decide (t' = t)) as [-> | Hne].
  2: { apply (Hinv t' th' a fd); [| done..]. by rewrite <- (proj1 (server_step_thread _ _ _ _ Hstep)). }
  assert (forall th, threads srv !! t = Some th -> t_phase th = Receiving /\
    packetComplete (t_recv th) = false) as Hph by (intros th Hth; by apply (Hinv t th a fd)).
  assert (forall th, threads srv !! t = Some th -> ~ uses_socket (dataFile srv) th) as Hno.
  { intros th Hth Hu. specialize (Huse th Hth Hu a fd Hc). lia. }
  destruct Hstep as [[f n m ths] t st Hnone Hi | f n m ths t th r turn n' st Hth Hp Ha Hcm Hr Hturn
    | [f n m ths] t th Hth Hp Hcm | f n ths t th Hth Hp | f n m ths t th f' pos Hth Hp Hst
    | [f n m ths] t th pos c Hth Hp Hread | f n m ths t th pos Hth Hp Hread]; cbn in *.
  2: { destruct (Hno th Hth). unfold uses_socket. by rewrite Hp. }
  2-6: destruct (Hph th Hth); congruence.
  rewrite lookup_insert_eq in Hth'. injection Hth' as <-. split; [done |]. cbn.
  unfold recv_init in Hi. case_match; [| done]. by injection Hi as <-.
Qed.

(** All that is used of a reachable state. *)
Record live_inv (w : whole) : Prop := {
  lw_whole : whole_inv w;
  lw_files : exists b, whole_files b w;
  lw_fds : no_connection (w_srv w) (w_conns w);
}.

Lemma live_step w lab w' : whole_step w lab w' -> live_inv w -> live_inv w'.
Proof.
  intros Hstep [Hinv [b Hf] Hc]. split.
  - by eapply whole_step_inv.
  - exists (b || is_unlink lab). by eapply whole_step_files.
  - destruct Hstep as [l i ans l' pc srv cs dn rt Ha Hr Hst | l ans l' srv cs dn rt a Ha Ht Hst
      | | l pc srv cs dn rt ev t m' srv' dn' rt' Hfree Hev Hst
      | l pc srv cs dn rt t th srv' Hfree Hth Hp Hst | | | | | | | |]; cbn in *; try done.
    + intros t th a fd. rewrite created_threads. by apply Hc.
    + intros t th b' fd Hth Hcs. unfold connected_to in Hcs. destruct (a_tid ans) as [t0 |] eqn:Et.
      * apply lookup_insert_Some in Hcs as [[<- _] | [_ Hcs]]; [| by apply (Hc t th b' fd)].
        destruct (si_known _ (wi_sys _ Hinv) t0 th Hth) as [x Hx]. cbn in Hx. by rewrite Ht in Hx.
      * by apply (Hc t th b' fd).
    + inversion Hst; subst; cbn in Hev; try done. destruct Hev as [-> Hev].
      eapply server_step_no_connection; [eassumption | done |].
      intros th Hth. by apply Hev.
    + inversion Hst; subst. eapply server_step_no_connection; [eassumption | |].
      * intros t' th'. rewrite opened_threads. by apply Hc.
      * intros th'. rewrite opened_threads, Hth. intros [= <-]. unfold uses_socket. by rewrite Hp.
Qed.

Lemma live_run w labs w' : run whole_step w labs w' -> live_inv w -> live_inv w'.
Proof. apply (run_invariant whole_step live_inv live_step). Qed.

Lemma live_init fds : live_inv (whole_init creat_file fds named).
Proof.
  split; [apply whole_init_inv | exists false; apply whole_files_init | by intros t th a fd].
Qed.

(** ** One step of a thread *)

Definition with_srv (srv : server F) (w : whole) : whole :=
  mk_whole (w_life w) (w_reap w) srv (w_conns w) (w_done w) (w_returned w).

(** The process runs and no handler has stopped the thread. *)
Definition runs (w : whole) (t : nat) : Prop := free_to_run (w_life w) (Some t).

(** The thread has its packet. *)
Definition has_received (th : thread) : Prop :=
  t_phase th = Receiving -> packetComplete (t_recv th) = true.

Lemma own_move w t srv' th :
  live_inv w -> runs w t -> threads (w_srv w) !! t = Some th -> has_received th ->
  t_phase th <> Locked -> server_step mem (w_srv w) t srv' ->
  (sent_all (dataFile (w_srv w)) th -> t ∈ w_done w) ->
  whole_step w (WThread (ThreadMoves t)) (with_srv srv' w).
Proof.
  intros [Hinv _ Hcon] Hrun Hth Hrecv Hp Hst Hsent.
  destruct (si_known _ (wi_sys _ Hinv) t th Hth) as [[a fd] Hc]. cbn in Hc.
  assert (0 <= fd) as Hfd.
  { destruct (Z.le_gt_cases 0 fd) as [? | Hneg]; [done |].
    destruct (Hcon t th a fd Hth Hc Hneg) as [Hph Hno]. specialize (Hrecv Hph). congruence. }
  assert (t ∉ w_returned w) as Hret.
  { intros (th' & E & Hfin)%(si_returned _ (wi_sys _ Hinv)). cbn in E.
    destruct (server_step_thread _ _ _ _ Hst) as (_ & x & _ & Hcase). rewrite E in Hcase.
    by destruct Hcase. }
  destruct (sys_inv_thread (view w) t a fd (wi_sys _ Hinv) Hc Hret) as (Hparam & _).
  destruct w as [l pc srv cs dn rt]. unfold with_srv, runs in *. cbn in *.
  assert (set_main (the_main l) (lf_pc l) l = l) as E by (by destruct l as [? ? []]).
  rewrite <- E at 2. eapply whole_thread; [done | |].
  - split; [done |]. intros th' E'. rewrite Hth in E'. injection E' as <-. split; [done |].
    intros _ a' fd' Hc'. rewrite Hc in Hc'. by injection Hc' as <- <-.
  - eapply sys_thread; [done.. | |]; intros th' E'; rewrite Hth in E'; injection E' as <-.
    + intros _. by eexists.
    + done.
Qed.

Lemma own_mark w t th :
  live_inv w -> runs w t -> threads (w_srv w) !! t = Some th ->
  sent_all (dataFile (w_srv w)) th -> t ∉ w_done w ->
  exists w', whole_step w (WThread (ThreadMarks t)) w' /\ w_srv w' = w_srv w /\
    w_done w' = {[t]} ∪ w_done w /\
    lf_end (w_life w') = None /\ lf_handlers (w_life w') = lf_handlers (w_life w).
Proof.
  intros [Hinv _ _] Hrun Hth Hsent Hdn.
  destruct (si_known _ (wi_sys _ Hinv) t th Hth) as [[a fd] Hc]. cbn in Hc.
  assert (t ∉ w_returned w) as Hret.
  { intros (th' & E & Hfin)%(si_returned _ (wi_sys _ Hinv)). cbn in E.
    destruct Hsent as (pos & Hp & _). congruence. }
  destruct (sys_inv_thread (view w) t a fd (wi_sys _ Hinv) Hc Hret) as (_ & [m' Hm] & _).
  destruct w as [l pc srv cs dn rt]. unfold runs in *. cbn in *.
  eexists. split; [eapply whole_thread with (t := t); [done | done |]; by eapply sys_mark |].
  cbn. destruct Hrun as [Hend _]. by split_and!.
Qed.

(** ** A thread with the mutex comes to its end *)

(** A step of that thread. *)
Definition step_of (t : nat) (lab : wlabel) : Prop :=
  match lab with
  | WThread (ThreadMoves u) | WThread (ThreadMarks u) | WStore u => u = t
  | _ => False
  end.

(** What is left as it was by steps of [t]. *)
Record undisturbed (t : nat) (w w' : whole) : Prop := {
  un_end : lf_end (w_life w') = lf_end (w_life w);
  un_handlers : lf_handlers (w_life w') = lf_handlers (w_life w);
  un_threads : forall u, u <> t -> threads (w_srv w') !! u = threads (w_srv w) !! u;
}.

(** The thread has returned its answer, in a run of its own steps. *)
Definition ends_alone (w : whole) (t : nat) (th : thread) : Prop :=
  exists labs w' th', run whole_step w labs w' /\ Forall (step_of t) labs /\ undisturbed t w w' /\
    mutexLock (w_srv w') = None /\ threads (w_srv w') !! t = Some th' /\
    t_phase th' = Finished /\ t_recv th' = t_recv th.

Lemma undisturbed_trans t w w1 w2 : undisturbed t w w1 -> undisturbed t w1 w2 -> undisturbed t w w2.
Proof.
  intros [E1 E2 E3] [F1 F2 F3]. split; [by rewrite F1 | by rewrite F2 |].
  intros u Hu. by rewrite F3, E3.
Qed.

Lemma undisturbed_runs t u w w' : undisturbed t w w' -> runs w u -> runs w' u.
Proof. intros [E1 E2 _] [H1 H2]. split; [by rewrite E1 | by rewrite E2]. Qed.

Lemma ends_after_step w lab w1 t th th1 :
  whole_step w lab w1 -> step_of t lab -> undisturbed t w w1 -> t_recv th1 = t_recv th ->
  ends_alone w1 t th1 -> ends_alone w t th.
Proof.
  intros Hstep Hlab Hun Hrecv (labs & w' & th' & Hrun & Hlabs & Hun' & Hm & Hth & Hp & Hr).
  exists (lab :: labs), w', th'. split_and!; [by eapply run_cons | by constructor | | done.. |].
  - by eapply undisturbed_trans.
  - by rewrite Hr.
Qed.

(** Steps that replace the thread alone. *)
Lemma undisturbed_put t w th m :
  undisturbed t w (with_srv (put t th (mk_server (dataFile (w_srv w)) (srv_data_count (w_srv w)) m
    (threads (w_srv w)))) w).
Proof. split; cbn; [done.. |]. intros u Hu. by rewrite lookup_insert_ne. Qed.

Lemma ends_by_finishing w t th pos :
  live_inv w -> runs w t -> threads (w_srv w) !! t = Some th -> t_phase th = Sending pos ->
  fread1 (dataFile (w_srv w)) pos = None -> t ∈ w_done w -> ends_alone w t th.
Proof.
  intros Hinv Hrun Hth Hp Hread Hdn.
  assert (whole_step w (WThread (ThreadMoves t)) (with_srv (put t (at_phase Finished th)
    (mk_server (dataFile (w_srv w)) (srv_data_count (w_srv w)) None (threads (w_srv w)))) w)) as Hstep.
  { eapply own_move; try done; [by intros E; rewrite Hp in E | by rewrite Hp |].
    destruct w as [l pc [f n m ths] cs dn rt]. by eapply step_finish. }
  eexists _, _, (at_phase Finished th). split; [by eapply run_cons; [exact Hstep | apply run_nil] |].
  split; [by constructor |]. split; [apply undisturbed_put |]. cbn. by rewrite lookup_insert_eq.
Qed.

Lemma ends_all_sent w t th pos :
  live_inv w -> runs w t -> threads (w_srv w) !! t = Some th -> t_phase th = Sending pos ->
  fread1 (dataFile (w_srv w)) pos = None -> ends_alone w t th.
Proof.
  intros Hinv Hrun Hth Hp Hread. destruct (decide (t ∈ w_done w)) as [Hdn | Hdn].
  { by eapply ends_by_finishing. }
  destruct (own_mark w t th Hinv Hrun Hth) as (w1 & Hstep & Hsrv & Hdone & Hend & Hh); [by eexists | done |].
  assert (undisturbed t w w1) as Hun.
  { split; [by rewrite Hend, (proj1 Hrun) | done | by rewrite Hsrv]. }
  eapply ends_after_step; [exact Hstep | done | done | reflexivity |].
  apply (ends_by_finishing w1 t th pos); rewrite ?Hsrv; try done.
  - by eapply live_step.
  - by eapply undisturbed_runs.
  - rewrite Hdone. by apply elem_of_union_l, elem_of_singleton.
Qed.

Lemma ends_sending n : forall w t th pos,
  live_inv w -> runs w t -> threads (w_srv w) !! t = Some th -> t_phase th = Sending pos ->
  0 <= pos -> (length (df_content (dataFile (w_srv w))) <= Z.to_nat pos + n)%nat ->
  ends_alone w t th.
Proof.
  induction n as [|n IH]; intros w t th pos Hinv Hrun Hth Hp Hpos Hlen.
  { eapply ends_all_sent; [done.. |]. apply lookup_ge_None. lia. }
  destruct (fread1 (dataFile (w_srv w)) pos) as [c |] eqn:Hread; [| by eapply ends_all_sent].
  set (th1 := mk_thread (Sending (pos + 1)) (t_recv th) (t_sent th ++ [c])).
  assert (whole_step w (WThread (ThreadMoves t)) (with_srv (put t th1 (w_srv w)) w)) as Hstep.
  { eapply own_move; try done; [by intros E; rewrite Hp in E | by rewrite Hp | by eapply step_send |].
    intros (pos' & Hp' & Hr'). rewrite Hp in Hp'. injection Hp' as <-. congruence. }
  eapply ends_after_step; [exact Hstep | done | apply undisturbed_put | |]; [reflexivity |].
  apply (IH _ t th1 (pos + 1)); try done.
  - by eapply live_step.
  - cbn. by rewrite lookup_insert_eq.
  - lia.
  - cbn. lia.
Qed.

(** The packet can be stored: it is a string, and if it starts as a seek request it is
    one. *)
Definition storable (th : thread) : Prop :=
  forall f : F, safe (store_request f true (outputBuffer (t_recv th))).

Lemma ends_storing w t th :
  live_inv w -> runs w t -> threads (w_srv w) !! t = Some th -> t_phase th = Locked ->
  storable th -> ends_alone w t th.
Proof.
  intros Hinv Hrun Hth Hp Hst. pose proof Hinv as [Hwhole _ _].
  destruct (si_known _ (wi_sys _ Hwhole) t th Hth) as [[a fd] Hc]. cbn in Hc.
  destruct w as [l pc srv cs dn rt]. cbn in Hth, Hc.
  assert (threads (opened_file creat_file l srv) !! t = Some th) as Hth' by (by rewrite opened_threads).
  destruct (opened_file creat_file l srv) as [f n m ths] eqn:Ho. cbn in Hth'.
  destruct (Hst f) as [[f' pos] Hreq].
  set (w1 := mk_whole (file_named l) pc (put t (at_phase (Sending pos) th) (mk_server f' n m ths)) cs dn rt).
  assert (whole_step (mk_whole l pc srv cs dn rt) (WStore t) w1) as Hstep.
  { eapply whole_store; [done.. |]. rewrite Ho.
    eapply sys_thread; [done | by eapply step_store | |]; intros th' E'; cbn in E'; rewrite Hth' in E';
      injection E' as <-.
    - unfold uses_socket. by rewrite Hp.
    - intros (pos' & Hp' & _). congruence. }
  eapply (ends_after_step _ _ _ _ _ (at_phase (Sending pos) th)); [exact Hstep | done | | done |].
  - split; cbn; [done.. |]. intros u Hu. rewrite lookup_insert_ne by done.
    rewrite <- (opened_threads creat_file l srv). by rewrite Ho.
  - eapply (ends_sending (length (df_content f')) w1); [by eapply live_step | exact Hrun | | done | |].
    + cbn. by rewrite lookup_insert_eq.
    + by eapply store_request_position.
    + cbn. lia.
Qed.

Lemma ends_locking w t th :
  live_inv w -> runs w t -> threads (w_srv w) !! t = Some th -> t_phase th = Locking ->
  mutexLock (w_srv w) = None -> storable th -> ends_alone w t th.
Proof.
  intros Hinv Hrun Hth Hp Hm Hst.
  assert (whole_step w (WThread (ThreadMoves t)) (with_srv (put t (at_phase Locked th)
    (mk_server (dataFile (w_srv w)) (srv_data_count (w_srv w)) (Some t) (threads (w_srv w)))) w)) as Hstep.
  { eapply own_move; try done; [by intros E; rewrite Hp in E | by rewrite Hp | |].
    - destruct w as [l pc [f n m ths] cs dn rt]. cbn in *. subst m. by eapply step_lock.
    - intros (pos' & Hp' & _). congruence. }
  eapply (ends_after_step _ _ _ _ _ (at_phase Locked th)); [exact Hstep | done | apply undisturbed_put | done |].
  apply ends_storing; [by eapply live_step | exact Hrun | | done..].
  cbn. by rewrite lookup_insert_eq.
Qed.

(** ** Whoever holds the mutex *)

Lemma holder w u :
  live_inv w -> mutexLock (w_srv w) = Some u ->
  exists th, threads (w_srv w) !! u = Some th /\
    (t_phase th = Locked \/ exists pos, t_phase th = Sending pos /\ 0 <= pos).
Proof.
  intros [_ (b & [(gs & f & cs & Hfiles & _) _]) _] Hm.
  pose proof (fi_current _ _ _ _ _ _ Hfiles) as [_ Hall Hown _ _].
  destruct (Hown u Hm) as [th Hth]. pose proof (Hall u th Hth) as Hinv.
  apply current_lookup in Hth as [Hth _]. exists th. split; [done |].
  destruct (proj2 (in_section_owner _ _ _ _ _ _ Hinv) Hm) as [Hp | [pos Hp]]; [by left | right].
  exists pos. split; [done |]. destruct (files_inv_sending _ _ _ _ _ _ _ _ _ Hfiles Hth Hp)
    as (start & _ & Hpos & _). lia.
Qed.

Lemma ends_holding w u th :
  live_inv w -> runs w u -> mutexLock (w_srv w) = Some u -> threads (w_srv w) !! u = Some th ->
  storable th -> ends_alone w u th.
Proof.
  intros Hinv Hrun Hm Hth Hst. destruct (holder w u Hinv Hm) as (th' & E & Hp).
  rewrite Hth in E. injection E as <-. destruct Hp as [Hp | (pos & Hp & Hpos)].
  - by apply ends_storing.
  - eapply (ends_sending (length (df_content (dataFile (w_srv w))))); [done.. | lia].
Qed.

(** The thread comes to its end in a run of steps of its own and of the holder. *)
Definition serves (w : whole) (t : nat) (th : thread) : Prop :=
  exists labs w' th', run whole_step w labs w' /\
    Forall (fun lab => step_of t lab \/ exists u, mutexLock (w_srv w) = Some u /\ step_of u lab) labs /\
    threads (w_srv w') !! t = Some th' /\ t_phase th' = Finished /\ t_recv th' = t_recv th.

Lemma ends_alone_serves w t th : ends_alone w t th -> serves w t th.
Proof.
  intros (labs & w' & th' & Hrun & Hlabs & _ & _ & Hth & Hp & Hr). exists labs, w', th'.
  split_and!; try done. eapply Forall_impl; [exact Hlabs | by left].
Qed.

(** First the holder, then the thread that waits. *)
Lemma serves_locking w t th :
  live_inv w -> threads (w_srv w) !! t = Some th -> t_phase th = Locking ->
  (forall u thu, u = t \/ mutexLock (w_srv w) = Some u -> threads (w_srv w) !! u = Some thu ->
     runs w u /\ storable thu) -> serves w t th.
Proof.
  intros Hinv Hth Hp Hall. destruct (Hall t th (or_introl eq_refl) Hth) as [Hrun Hst].
  destruct (mutexLock (w_srv w)) as [u |] eqn:Hm; [| by apply ends_alone_serves, ends_locking].
  destruct (holder w u Hinv Hm) as (thu & Hu & Hpu).
  assert (t <> u) as Hne by (intros ->; destruct Hpu as [? | (? & ? & _)]; congruence).
  destruct (Hall u thu (or_intror eq_refl) Hu) as [Hrunu Hstu].
  destruct (ends_holding w u thu Hinv Hrunu Hm Hu Hstu)
    as (labs1 & w1 & thu' & Hrun1 & Hlabs1 & Hun & Hm1 & _).
  destruct (ends_locking w1 t th) as (labs2 & w2 & th' & Hrun2 & Hlabs2 & _ & _ & H); try done.
  - by eapply live_run.
  - by eapply undisturbed_runs.
  - by rewrite (un_threads _ _ _ Hun).
  - exists (labs1 ++ labs2), w2, th'. split; [by eapply run_app |]. split; [| done].
    apply Forall_app. split; [eapply Forall_impl; [exact Hlabs1 |] |
      eapply Forall_impl; [exact Hlabs2 | by left]].
    intros lab Hlab. right. by exists u.
Qed.

Lemma serves_any w t th :
  live_inv w -> threads (w_srv w) !! t = Some th -> has_received th ->
  (forall u thu, u = t \/ mutexLock (w_srv w) = Some u -> threads (w_srv w) !! u = Some thu ->
     runs w u /\ storable thu) -> serves w t th.
Proof.
  intros Hinv Hth Hrecv Hall. destruct (Hall t th (or_introl eq_refl) Hth) as [Hrun Hst].
  destruct (t_phase th) as [| | | pos |] eqn:Hp.
  - set (th1 := at_phase Locking th).
    assert (whole_step w (WThread (ThreadMoves t)) (with_srv (put t th1 (w_srv w)) w)) as Hstep.
    { eapply own_move; try done; [by rewrite Hp | by apply step_received; [| | apply Hrecv] |].
      intros (pos' & Hp' & _). congruence. }
    destruct (serves_locking (with_srv (put t th1 (w_srv w)) w) t th1)
      as (labs & w' & th' & Hrun' & Hlabs & H); [by eapply live_step | | done | |].
    + cbn. by rewrite lookup_insert_eq.
    + intros u thu Hu Hthu. cbn in Hu, Hthu. destruct (decide (u = t)) as [-> | Hne].
      * rewrite lookup_insert_eq in Hthu. injection Hthu as <-. done.
      * rewrite lookup_insert_ne in Hthu by done. by apply (Hall u thu).
    + eexists _, w', th'. split; [by eapply run_cons |]. split; [| done].
      constructor; [by left | exact Hlabs].
  - by apply serves_locking.
  - apply ends_alone_serves. by apply ends_storing.
  - pose proof Hinv as [_ (b & [(gs & f & cs & Hfiles & _) _]) _].
    destruct (files_inv_sending _ _ _ _ _ _ _ _ _ Hfiles Hth Hp) as (start & _ & Hpos & _).
    apply ends_alone_serves.
    eapply (ends_sending (length (df_content (dataFile (w_srv w))))); [done.. | lia | lia].
  - exists [], w, th. split_and!; [apply run_nil | constructor | done..].
Qed.

Lemma live_reachable fds ls w : run whole_step (whole_init creat_file fds named) ls w -> live_inv w.
Proof. intros Hrun. by eapply live_run, live_init. Qed.

(** C11. No client waits in vain. In any reachable state of the server process, a thread
    that has received its packet comes to its end, its node marked done, its client
    sent exactly the file as its packet left it, in steps of its own and of the thread
    that holds the mutex alone, provided the two packets can be stored and no handler
    has stopped either thread; whatever the main thread and the other connections do
    or fail to do. *)
Theorem server_process_serves fds ls w t th :
  run whole_step (whole_init creat_file fds named) ls w ->
  threads (w_srv w) !! t = Some th -> has_received th ->
  (forall u thu, u = t \/ mutexLock (w_srv w) = Some u -> threads (w_srv w) !! u = Some thu ->
     runs w u /\ storable thu) ->
  exists labs w' th', run whole_step w labs w' /\
    Forall (fun lab => step_of t lab \/ exists u, mutexLock (w_srv w) = Some u /\ step_of u lab) labs /\
    threads (w_srv w') !! t = Some th' /\ t_phase th' = Finished /\ t_recv th' = t_recv th /\
    t ∈ w_done w' /\ exists g, born creat_file named g.1 /\ served_in g t th'.
Proof.
  intros Hrun Hth Hrecv Hall. pose proof (live_reachable _ _ _ Hrun) as Hinv.
  destruct (serves_any w t th Hinv Hth Hrecv Hall) as (labs & w' & th' & Hrun' & Hlabs & Hth' & Hp & Hr).
  pose proof (live_run _ _ _ Hrun' Hinv) as [Hwhole (b & [(gs & f & cs & Hfiles & _) _]) _].
  exists labs, w', th'. split_and!; try done; [by apply (si_finished _ (wi_sys _ Hwhole) t th') |].
  destruct (files_inv_finished _ _ _ _ _ _ _ _ Hfiles Hth' Hp) as (g & Hg & Hserved).
  exists g. split; [| done]. apply elem_of_app in Hg as [Hg | ->%list_elem_of_singleton];
    [by eapply fi_born | by eapply fi_last].
Qed.
End Whole.

Lemma demo_storable p : storable (F := list byte) (demo_thread p).
Proof. intros f. eexists. by vm_compute. Qed.

Lemma server_process_serves_witness :
  exists labs w' th', run demo_whole_step stored_whole labs w' /\
    threads (w_srv w') !! 0%nat = Some th' /\ t_phase th' = Finished /\
    exists g, born empty_file None g.1 /\ served_in g 0%nat th'.
Proof.
  destruct demo_stores as (labs & Hrun & _).
  destruct (server_process_serves demo_address ["aesdsocket"; "-d"]%string demo_memory empty_file None
    {[0; 1; 2]} labs stored_whole 0%nat (demo_thread (Sending 0)) Hrun eq_refl ltac:(done))
    as (labs' & w' & th' & Hrun' & _ & Hth & Hp & _ & _ & Hserved).
  - intros u thu Hu Hth. assert (u = 0%nat) as -> by (destruct Hu as [-> | [= <-]]; done).
    injection Hth as <-. split; [| exact (demo_storable (Sending 0))].
    split; [by vm_compute | vm_compute; apply not_elem_of_nil].
  - exists labs', w', th'. exact (conj Hrun' (conj Hth (conj Hp Hserved))).
Defined.
