(* ===== verification/SystemCalls.v ===== *)
(** Running commands ([examples/systemcalls/systemcalls.c]): [do_system], [do_exec]
    and [do_exec_redirect], with what the kernel and the C library answer as a
    parameter, and what their result says about the command. *)

From Stdlib Require Import String.
From S2P Require Import Prelude.

(** The files the standard descriptors of a process stand for. *)
Abbreviation fd_table := (gmap Z string) (only parsing).

(** What the process gets from the system: [system]; [fork], seen from the parent;
    [execv] in a child with the descriptors given, [None] when it returns and
    otherwise the wait status the program ends with; [fopen(_, "w")], the descriptor
    or [None]; [waitpid] for a child that ends with a status, the value it stores or
    [None] when it fails. *)
Record os : Type := mk_os {
  os_system : option string -> Z;
  os_fork : Z;
  os_execv : gmap Z string -> option string -> list (option string) -> option Z;
  os_fopen : gmap Z string -> string -> option Z;
  os_waitpid : Z -> Z -> option Z;
}.

Definition EXIT_FAILURE : Z := 1.
Definition STDOUT_FILENO : Z := 1.

(** The macros of [sys/wait.h], and the status of a process that calls [exit]. *)
Definition WIFEXITED (status : Z) : bool := Z.land status 127 =? 0.
Definition WEXITSTATUS (status : Z) : Z := Z.shiftr (Z.land status 65280) 8.
Definition exit_status (code : Z) : Z := Z.shiftl (Z.land code 255) 8.

Definition do_system (o : os) (cmd : option string) : bool := os_system o cmd =? 0.

(** The array [command]: [count] arguments taken from the variable ones, and [NULL].
    Taking an argument that was not passed is undefined, as is an array of no
    elements. *)
Fixpoint va_args (n : nat) (args : list (option string)) : outcome (list (option string)) :=
  match n with
  | O => Ret []
  | S n =>
      match args with
      | [] => Fault OutOfBounds
      | a :: args => rest ← va_args n args; Ret (a :: rest)
      end
  end.

Definition command (count : Z) (args : list (option string)) : outcome (list (option string)) :=
  if count <? 0 then Fault OutOfBounds
  else argv ← va_args (Z.to_nat count) args; Ret (argv ++ [None]).

(** [execv(command[0], command)], then [exit(EXIT_FAILURE)] when it returns: the
    wait status the child ends with. *)
Definition child_execv (o : os) (fds : gmap Z string) (argv : list (option string)) : outcome Z :=
  path ← arr_get argv 0;
  match os_execv o fds path argv with
  | Some status => Ret status
  | None => Ret (exit_status EXIT_FAILURE)
  end.

(** The parent: fork, wait, and the test of the status. *)
Definition wait_child (o : os) (child : outcome Z) : outcome bool :=
  if os_fork o <? 0 then Ret false
  else
    ended ← child;
    match os_waitpid o (os_fork o) ended with
    | None => Fault Uninitialised
    | Some status => Ret (WIFEXITED status && (WEXITSTATUS status =? 0))
    end.

Definition do_exec (o : os) (fds : gmap Z string) (count : Z) (args : list (option string))
    : outcome bool :=
  argv ← command count args;
  wait_child o (child_execv o fds argv).

(** The child of [do_exec_redirect]: [dup2(fileno(output), STDOUT_FILENO)] and
    [fclose(output)] on the descriptor table. *)
Definition redirect_fds (fds : gmap Z string) (fd : Z) (outputfile : string) : gmap Z string :=
  let fds := <[fd := outputfile]> fds in
  let fds := <[STDOUT_FILENO := outputfile]> fds in
  delete fd fds.

Definition child_redirect (o : os) (fds : gmap Z string) (outputfile : string)
    (argv : list (option string)) : outcome Z :=
  match os_fopen o fds outputfile with
  | None => Ret (exit_status EXIT_FAILURE)
  | Some fd => child_execv o (redirect_fds fds fd outputfile) argv
  end.

Definition do_exec_redirect (o : os) (fds : gmap Z string) (outputfile : string) (count : Z)
    (args : list (option string)) : outcome bool :=
  argv ← command count args;
  wait_child o (child_redirect o fds outputfile argv).

(** ** Facts *)

(** The wait status of a program that ends. *)
Inductive ending : Type :=
| Exited (code : Z)
| Killed (signal : Z).

#[export] Instance ending_eq_dec : EqDecision ending.
Proof. solve_decision. Defined.

Definition status_of (e : ending) : Z :=
  match e with Exited code => exit_status code | Killed signal => signal end.

Definition ending_ok (e : ending) : Prop :=
  match e with Exited code => 0 <= code < 256 | Killed signal => 0 < signal < 127 end.

Lemma low_byte code : 0 <= code < 256 -> Z.land code 255 = code.
Proof.
  intros. change 255 with (Z.ones 8). rewrite Z.land_ones by lia. apply Z.mod_small. lia.
Qed.

(** The test of the status succeeds exactly for a normal exit with code 0. *)
Lemma status_test e :
  ending_ok e ->
  WIFEXITED (status_of e) && (WEXITSTATUS (status_of e) =? 0) = bool_decide (e = Exited 0).
Proof.
  destruct e as [code | signal]; intros Hok; cbn in Hok; unfold WIFEXITED, WEXITSTATUS; cbn [status_of].
  - unfold exit_status. rewrite low_byte by done.
    change 127 with (Z.ones 7). rewrite Z.land_ones by lia.
    rewrite Z.shiftl_mul_pow2 by lia.
    assert ((code * 2 ^ 8) mod 2 ^ 7 = 0) as ->.
    { change (2 ^ 8) with (2 * 2 ^ 7). rewrite Z.mul_assoc. apply Z.mod_mul. lia. }
    change 65280 with (Z.shiftl 255 8). rewrite <- (Z.shiftl_mul_pow2 code) by lia.
    rewrite <- Z.shiftl_land, Z.shiftr_shiftl_l, low_byte by lia. cbn [Z.eqb andb Z.sub].
    rewrite Z.shiftl_0_r. destruct (Z.eqb_spec code 0) as [-> | Hne].
    + by rewrite bool_decide_eq_true_2.
    + rewrite bool_decide_eq_false_2; [done |]. by intros [= ->].
  - rewrite bool_decide_eq_false_2 by done.
    change 127 with (Z.ones 7). rewrite Z.land_ones, Z.mod_small by lia.
    by rewrite (proj2 (Z.eqb_neq signal 0)) by lia.
Qed.

Lemma va_args_all args extra : va_args (length args) (args ++ extra) = Ret args.
Proof. induction args as [|a args IH]; [done |]. cbn. by rewrite IH. Qed.

Lemma command_all args :
  command (Z.of_nat (length args)) args = Ret (args ++ [None]).
Proof.
  unfold command. rewrite (proj2 (Z.ltb_ge _ _)), Nat2Z.id by lia.
  rewrite <- (app_nil_r args) at 2. by rewrite va_args_all.
Qed.

(** A child that ends in a way [waitpid] reports. *)
Definition reports (o : os) : Prop :=
  0 < os_fork o /\ forall st, os_waitpid o (os_fork o) st = Some st.

Lemma wait_child_reported o e :
  reports o -> ending_ok e -> wait_child o (Ret (status_of e)) = Ret (bool_decide (e = Exited 0)).
Proof.
  intros [Hfork Hwait] He. unfold wait_child. rewrite (proj2 (Z.ltb_ge _ _)) by lia.
  cbn [mbind outcome_bind]. by rewrite Hwait, status_test.
Qed.

(** How the command ends: [None] when [execv] does not start it. *)
Definition program_ends (o : os) (fds : gmap Z string) (argv : list (option string))
    (e : option ending) : Prop :=
  match head argv with
  | Some path =>
      match e with
      | Some e => os_execv o fds path argv = Some (status_of e) /\ ending_ok e
      | None => os_execv o fds path argv = None
      end
  | None => False
  end.

Lemma child_execv_ends o fds argv e :
  program_ends o fds argv e ->
  child_execv o fds argv = Ret (status_of (default (Exited EXIT_FAILURE) e)) /\
  ending_ok (default (Exited EXIT_FAILURE) e).
Proof.
  unfold program_ends, child_execv. destruct argv as [|path argv]; [done |].
  change (arr_get (path :: argv) 0) with (Ret path). cbn [head mbind outcome_bind default].
  destruct e as [e|]; [by intros [-> ?] |]. intros ->. split; [done |].
  unfold EXIT_FAILURE. cbn. lia.
Qed.

(** ** Properties *)

(** C36. [do_exec] returns true exactly when the child was created, the program was
    started with the arguments given, and it exited normally with status 0; a
    failed [fork], a failed [execv], another exit status and a death by a signal
    all give false. *)
Theorem do_exec_correct o fds args e :
  program_ends o fds (args ++ [None]) e ->
  (os_fork o < 0 -> do_exec o fds (Z.of_nat (length args)) args = Ret false) /\
  (reports o -> do_exec o fds (Z.of_nat (length args)) args
                = Ret (bool_decide (e = Some (Exited 0)))).
Proof.
  intros Hends. unfold do_exec. rewrite command_all. cbn [mbind outcome_bind]. split.
  - intros Hfork. unfold wait_child. by rewrite (proj2 (Z.ltb_lt _ _)).
  - intros Hrep. destruct (child_execv_ends o fds _ e Hends) as [-> Hok].
    rewrite wait_child_reported by done. f_equal. apply bool_decide_ext.
    destruct e as [e|]; cbn; [| by split]. split; [by intros -> | by intros [= ->]].
Qed.

(** A system on which every program but [/bin/false] succeeds, and files open as the
    lowest free descriptor from 3 on. *)
Definition demo_os : os := {|
  os_system cmd := 0;
  os_fork := 100;
  os_execv fds path argv :=
    match path with
    | Some p => if String.eqb p "/bin/false" then Some (exit_status 1) else Some 0
    | None => None
    end;
  os_fopen fds f := Some 3;
  os_waitpid pid st := Some st;
|}.

Lemma do_exec_correct_witness :
  do_exec demo_os ∅ 2 [Some "/bin/echo"%string; Some "home"%string] = Ret true /\
  do_exec demo_os ∅ 1 [Some "/bin/false"%string] = Ret false.
Proof.
  split.
  - refine (proj2 (do_exec_correct demo_os ∅ [Some "/bin/echo"%string; Some "home"%string]
      (Some (Exited 0)) _) _); [split; [reflexivity | by_computation] | split; [reflexivity | intros st; reflexivity]].
  - refine (proj2 (do_exec_correct demo_os ∅ [Some "/bin/false"%string]
      (Some (Exited 1)) _) _); [split; [reflexivity | by_computation] | split; [reflexivity | intros st; reflexivity]].
Defined.

(** [do_exec_redirect] runs the program with standard output replaced by the
    output file and the other descriptors as they were, and returns true exactly
    when the program exits normally with status 0; it returns false, and runs
    nothing, when the file cannot be opened. *)
Theorem do_exec_redirect_correct o fds outputfile args e :
  reports o -> is_Some (fds !! STDOUT_FILENO) ->
  (forall fd, os_fopen o fds outputfile = Some fd -> fds !! fd = None) ->
  program_ends o (<[STDOUT_FILENO := outputfile]> fds) (args ++ [None]) e ->
  do_exec_redirect o fds outputfile (Z.of_nat (length args)) args =
  Ret (match os_fopen o fds outputfile with
       | Some _ => bool_decide (e = Some (Exited 0))
       | None => false
       end).
Proof.
  intros Hrep [out Hout] Hfree Hends. unfold do_exec_redirect. rewrite command_all.
  cbn [mbind outcome_bind]. unfold child_redirect.
  destruct (os_fopen o fds outputfile) as [fd|] eqn:Hopen.
  - assert (fd <> STDOUT_FILENO) as Hne by (intros ->; by rewrite Hfree in Hout).
    assert (redirect_fds fds fd outputfile = <[STDOUT_FILENO := outputfile]> fds) as ->.
    { unfold redirect_fds. rewrite delete_insert_ne by done.
      by rewrite delete_insert_id by (by apply Hfree). }
    destruct (child_execv_ends o _ _ e Hends) as [-> Hok].
    rewrite wait_child_reported by done. f_equal. apply bool_decide_ext.
    destruct e as [e|]; cbn; [| by split]. split; [by intros -> | by intros [= ->]].
  - change (exit_status EXIT_FAILURE) with (status_of (Exited 1)).
    rewrite wait_child_reported by (done || by cbn). by rewrite bool_decide_eq_false_2.
Qed.

Lemma do_exec_redirect_correct_witness :
  do_exec_redirect demo_os {[1 := "tty"%string]} "out.txt" 1 [Some "/bin/echo"%string]
  = Ret true.
Proof.
  refine (do_exec_redirect_correct demo_os {[1 := "tty"%string]} "out.txt"
    [Some "/bin/echo"%string] (Some (Exited 0)) _ _ _ _).
  - split; [reflexivity | intros st; reflexivity].
  - by eexists.
  - by intros fd [= <-].
  - split; [reflexivity | by_computation].
Defined.
