(* ===== verification/Threading.v ===== *)
(** The threading exercise ([examples/threading/threading.c] and [.h]): starting a
    thread that sleeps, takes a mutex, holds it for a while and releases it. What
    the pthread library answers is an argument of the definitions. *)

From S2P Require Import Prelude.

(** [struct thread_data]. A mutex is a number. *)
Record thread_data : Type := mk_thread_data {
  mutex : nat;
  wait_to_obtain_ms : Z;
  wait_to_release_ms : Z;
  thread_complete_success : bool;
}.

Definition set_success b (d : thread_data) : thread_data :=
  mk_thread_data (mutex d) (wait_to_obtain_ms d) (wait_to_release_ms d) b.

(** Multiplication at type [int]. *)
Definition int_mul (a b : Z) : outcome Z :=
  if (- 2 ^ 31 <=? a * b) && (a * b <? 2 ^ 31) then Ret (a * b) else Fault SignedOverflow.

(** What the thread does that others can see, in order. *)
Inductive action : Type :=
| Sleep (usec : Z)
| Lock (m : nat)
| Unlock (m : nat).

(** [usleep(ms * 1000)]: the product is an [int], the argument unsigned. *)
Definition usleep_ms (ms : Z) : outcome action :=
  us ← int_mul ms 1000; Ret (Sleep (u32 us)).

(** [threadfunc]: the actions, the data left, and whether the pointer returned is
    the argument (otherwise [NULL]). [lock_result] and [unlock_result] are what the
    two mutex calls return. *)
Definition threadfunc (lock_result unlock_result : Z) (d : thread_data)
    : outcome (list action * thread_data * bool) :=
  nap1 ← usleep_ms (wait_to_obtain_ms d);
  if negb (lock_result =? 0) then Ret ([nap1], set_success false d, false)
  else
    nap2 ← usleep_ms (wait_to_release_ms d);
    if negb (unlock_result =? 0)
    then Ret ([nap1; Lock (mutex d); nap2], set_success false d, true)
    else Ret ([nap1; Lock (mutex d); nap2; Unlock (mutex d)], set_success true d, true).

(** [start_thread_obtaining_mutex]: [ptr] is what [malloc] returns, [created] what
    [pthread_create] returns and the identifier it stores. The result is the value
    returned, [*thread], and the heap of thread data. *)
Definition start_thread_obtaining_mutex (h : gmap nat thread_data) (ptr : option nat)
    (created : Z * nat) (thread : option nat) (m : nat)
    (obtain_ms release_ms : Z) : outcome (bool * option nat * gmap nat thread_data) :=
  match ptr with
  | None => Fault NullDeref
  | Some p =>
      let h := <[p := mk_thread_data m obtain_ms release_ms false]> h in
      let '(result, t) := created in
      if negb (result =? 0) then Ret (false, thread, h) else Ret (true, Some t, h)
  end.

(** ** Facts *)

(** The longest wait whose microseconds are an [int]. *)
Definition MAX_WAIT_MS : Z := 2147483.

Lemma usleep_ms_ok ms : 0 <= ms <= MAX_WAIT_MS -> usleep_ms ms = Ret (Sleep (ms * 1000)).
Proof.
  intros Hms. unfold MAX_WAIT_MS in Hms. unfold usleep_ms, int_mul.
  rewrite (proj2 (Z.leb_le _ _)), (proj2 (Z.ltb_lt _ _)) by lia. cbn [andb mbind outcome_bind].
  by rewrite u32_small by lia.
Qed.

Lemma usleep_ms_overflow ms : MAX_WAIT_MS < ms -> usleep_ms ms = Fault SignedOverflow.
Proof.
  intros Hms. unfold MAX_WAIT_MS in Hms. unfold usleep_ms, int_mul.
  rewrite (proj2 (Z.ltb_ge (ms * 1000) _)) by lia. by rewrite andb_false_r.
Qed.

(** ** Properties *)

(** C37. What a started thread does with the calls of the mutex, for waits of up to
    2147483 ms. The thread is created with the data allocated for it, in which the
    waits and the mutex are those given. It sleeps and tries to take the mutex. If it
    takes it, it sleeps holding it and tries to release it; success is recorded
    exactly if both calls succeed, and the data it was passed is returned whether or
    not the release succeeds. If it cannot take the mutex, it does nothing more,
    records no success and returns NULL, not the data, although [threading.h]
    (lines 36 and 37) says that the thread returns the data for its joiner to free. *)
Theorem started_thread_correct h p t thread m obtain_ms release_ms lock_result unlock_result :
  0 <= obtain_ms <= MAX_WAIT_MS -> 0 <= release_ms <= MAX_WAIT_MS ->
  exists h' d, start_thread_obtaining_mutex h (Some p) (0, t) thread m obtain_ms release_ms
      = Ret (true, Some t, h') /\ h' !! p = Some d /\ (forall q, q <> p -> h' !! q = h !! q) /\
    exists trace d' same, threadfunc lock_result unlock_result d = Ret (trace, d', same) /\
      mutex d' = m /\
      (thread_complete_success d' = true <-> lock_result = 0 /\ unlock_result = 0) /\
      (same = true <-> lock_result = 0) /\
      trace =
        if lock_result =? 0 then
          [Sleep (obtain_ms * 1000); Lock m; Sleep (release_ms * 1000)]
            ++ (if unlock_result =? 0 then [Unlock m] else [])
        else [Sleep (obtain_ms * 1000)].
Proof.
  intros Hob Hrel. eexists _, _. split; [done |]. split; [apply lookup_insert_eq |].
  split; [intros q Hq; by apply lookup_insert_ne |].
  unfold threadfunc. cbn [wait_to_obtain_ms wait_to_release_ms mutex].
  rewrite !usleep_ms_ok by done. cbn [mbind outcome_bind].
  destruct (Z.eqb_spec lock_result 0) as [Hl | Hl]; cbn [negb];
    [destruct (Z.eqb_spec unlock_result 0) as [Hu | Hu]; cbn [negb] |];
    eexists _, _, _; (split; [done |]); cbn; split_and!; try done; intuition (done || congruence).
Qed.

Lemma started_thread_correct_witness :
  exists h' d, start_thread_obtaining_mutex ∅ (Some 1%nat) (0, 7%nat) None 5%nat 10 20
      = Ret (true, Some 7%nat, h') /\ h' !! 1%nat = Some d /\
    (forall q, q <> 1%nat -> h' !! q = (∅ : gmap nat thread_data) !! q) /\
    exists trace d' same, threadfunc 0 0 d = Ret (trace, d', same) /\
      mutex d' = 5%nat /\
      (thread_complete_success d' = true <-> 0 = 0 /\ 0 = 0) /\
      (same = true <-> 0 = 0) /\
      trace =
        if 0 =? 0 then
          [Sleep (10 * 1000); Lock 5; Sleep (20 * 1000)] ++ (if 0 =? 0 then [Unlock 5] else [])
        else [Sleep (10 * 1000)].
Proof.
  refine (started_thread_correct ∅ 1%nat 7%nat None 5%nat 10 20 0 0 _ _); by_computation.
Defined.

(** A wait of more than 2147483 ms overflows the [int] product passed to
    [usleep]; and when [pthread_create] fails, [start_thread_obtaining_mutex]
    returns false, leaves [*thread] alone, and the data it allocated stays
    allocated with no pointer to it left. *)
Theorem thread_limits h p t thread m obtain_ms release_ms result lock_result unlock_result d :
  result <> 0 -> MAX_WAIT_MS < wait_to_obtain_ms d ->
  threadfunc lock_result unlock_result d = Fault SignedOverflow /\
  exists h', start_thread_obtaining_mutex h (Some p) (result, t) thread m obtain_ms release_ms
      = Ret (false, thread, h') /\ is_Some (h' !! p).
Proof.
  intros Hres Hms. split.
  - unfold threadfunc. by rewrite (usleep_ms_overflow (wait_to_obtain_ms d)) by done.
  - unfold start_thread_obtaining_mutex. rewrite (proj2 (Z.eqb_neq _ _) Hres). cbn [negb].
    eexists. split; [done |]. rewrite lookup_insert_eq. by eexists.
Qed.

Lemma thread_limits_witness :
  threadfunc 0 0 (mk_thread_data 5 3000000 0 false) = Fault SignedOverflow /\
  exists h', start_thread_obtaining_mutex ∅ (Some 1%nat) (11, 7%nat) None 5%nat 10 20
      = Ret (false, None, h') /\ is_Some (h' !! 1%nat).
Proof.
  refine (thread_limits ∅ 1%nat 7%nat None 5%nat 10 20 11 0 0
    (mk_thread_data 5 3000000 0 false) _ _); by_computation.
Defined.
