(* ===== verification/Writer.v ===== *)
(** The writer utility ([finder-app/writer.c]): its [main] on a file system, with
    what [fopen], [fprintf] and the flush at [fclose] do as parameters. *)

From Stdlib Require Import String.
From stdpp Require Import strings.
From S2P Require Import Prelude CMem LogSpec.

(** The contents of the files, by path. *)
Abbreviation fs := (gmap string (list byte)) (only parsing).

(** What the C library and the kernel allow: whether a path can be opened for
    writing, whether [fprintf] succeeds, and how many of the buffered bytes reach
    the file when it is closed. *)
Record stdio : Type := mk_stdio {
  can_open : string -> bool;
  fprintf_ok : bool;
  flushed : list byte -> nat;
}.

Definition bytes_of (s : string) : list byte := list_byte_of_string s.

(** What [fclose] leaves of the buffered bytes in the file; its result is not
    looked at. *)
Definition fclose (o : stdio) (h : gmap string (list byte)) (path : string)
    (buffered : list byte) : gmap string (list byte) :=
  <[path := take (flushed o buffered) buffered]> h.

(** [main]: the exit status and the file system after. [fopen(_, "w")] creates the
    file or truncates it. *)
Definition writer_main (o : stdio) (h : gmap string (list byte)) (argv : list string)
    : Z * gmap string (list byte) :=
  match argv with
  | [_; file_path; writestr] =>
      if can_open o file_path then
        let h := <[file_path := []]> h in
        if fprintf_ok o
        then (0, fclose o h file_path (bytes_of writestr ++ [newline]))
        else (1, fclose o h file_path [])
      else (1, h)
  | _ => (1, h)
  end.

(** ** Properties *)

(** C38. With two arguments, a path that can be opened and a system that stores what
    is written, [main] returns 0 and the file holds the string and a newline, and
    nothing of what it held before; every other file is as it was. With another
    number of arguments, or a path that cannot be opened, it returns 1 and no file
    changes. *)
Theorem writer_correct o h argv r h' :
  (forall bs, flushed o bs = length bs) -> fprintf_ok o = true ->
  writer_main o h argv = (r, h') ->
  (r = 0 /\ exists prog path str, argv = [prog; path; str] /\
     h' !! path = Some (bytes_of str ++ [newline]) /\
     forall q, q <> path -> h' !! q = h !! q) \/
  (r = 1 /\ h' = h /\
     (length argv <> 3%nat \/ exists prog path str, argv = [prog; path; str] /\
        can_open o path = false)).
Proof.
  intros Hflush Hprint. unfold writer_main.
  destruct argv as [|prog [|path [|str [|x argv]]]];
    try (intros [= <- <-]; right; split_and!; [done.. | left; cbn; lia]).
  destruct (can_open o path) eqn:Hopen.
  - rewrite Hprint. intros [= <- <-]. left. split; [done |]. exists prog, path, str.
    unfold fclose. rewrite Hflush, firstn_all. split_and!; [done | apply lookup_insert_eq |].
    intros q Hq. by rewrite !lookup_insert_ne.
  - intros [= <- <-]. right. split_and!; [done.. | right]. by exists prog, path, str.
Qed.

(** A system on which everything succeeds. *)
Definition demo_stdio : stdio := mk_stdio (fun _ => true) true length.

Lemma writer_correct_witness :
  let h := {["/tmp/f"%string := [x61; x62; x63]]} : gmap string (list byte) in
  let out := writer_main demo_stdio h ["writer"%string; "/tmp/f"%string; "hi"%string] in
  (fst out = 0 /\ exists prog path str,
     ["writer"%string; "/tmp/f"%string; "hi"%string] = [prog; path; str] /\
     snd out !! path = Some (bytes_of str ++ [newline]) /\
     forall q, q <> path -> snd out !! q = h !! q) \/
  (fst out = 1 /\ snd out = h /\
     (length ["writer"%string; "/tmp/f"%string; "hi"%string] <> 3%nat \/
      exists prog path str, ["writer"%string; "/tmp/f"%string; "hi"%string] = [prog; path; str] /\
        can_open demo_stdio path = false)).
Proof.
  intros h out.
  refine (writer_correct demo_stdio h ["writer"%string; "/tmp/f"%string; "hi"%string]
    (fst out) (snd out) _ _ _).
  - reflexivity.
  - reflexivity.
  - exact (surjective_pairing out).
Defined.

(** The exit status does not say that the string was stored: [fprintf] only fills
    the stream's buffer and the result of [fclose] is dropped, so when the flush
    stores nothing (a full disk) [main] still returns 0, with the old contents
    gone. *)
Theorem writer_success_without_data o h prog path str :
  can_open o path = true -> fprintf_ok o = true -> (forall bs, flushed o bs = 0%nat) ->
  exists h', writer_main o h [prog; path; str] = (0, h') /\ h' !! path = Some [].
Proof.
  intros Hopen Hprint Hflush. unfold writer_main, fclose. rewrite Hopen, Hprint, Hflush.
  eexists. split; [done |]. by rewrite take_0, lookup_insert_eq.
Qed.

Lemma writer_success_without_data_witness :
  exists h', writer_main (mk_stdio (fun _ => true) true (fun _ => 0%nat))
      {["/tmp/f"%string := [x61]]} ["writer"%string; "/tmp/f"%string; "hi"%string] = (0, h') /\
    h' !! "/tmp/f"%string = Some [].
Proof.
  exact (writer_success_without_data (mk_stdio (fun _ => true) true (fun _ => 0%nat))
    {["/tmp/f"%string := [x61]]} "writer" "/tmp/f" "hi" eq_refl eq_refl (fun _ => eq_refl)).
Defined.
