(* ===== verification/Validate.v ===== *)
(** The programs that try out the automated tests
    ([examples/autotest-validate/autotest-validate.c] with its [main], and
    [student-test/assignment1/Test_validate_username.c]): what they return and
    print, and that the user name they are about was never filled in. *)

From Stdlib Require Import String Ascii.
From S2P Require Import Prelude.

Open Scope string_scope.

(** ** autotest-validate.c *)

Definition this_function_returns_true : bool := true.
Definition this_function_returns_false : bool := false.
Definition my_username : string := "todo-please-enter-your-username-here-in-my_username".

(** ** autotest-validate-main.c *)

Definition git_username : string := "akshita-bhasin".

Definition newline_string : string := String "010"%char EmptyString.

(** [cond ? "true" : "false"] *)
Definition bool_text (b : bool) : string := if b then "true" else "false".

(** What [main] prints; it returns 0 at its end. *)
Definition validate_main : string * Z :=
  ("this_function_returns_true returned " ++ bool_text this_function_returns_true ++ newline_string ++
   "this_function_returns_false returned " ++ bool_text this_function_returns_false ++ newline_string,
   0)%string.

(** ** Test_validate_username.c *)

(** The first line of [conf/username.txt]. *)
Definition conf_username : string := "youssef456".

(** Whether the assertions of a test hold. *)
Definition test_validate_my_username : bool := false.

(** The test as its comment describes it: the two names are equal. *)
Definition test_as_described (from_conf_file : string) : bool :=
  String.eqb my_username from_conf_file.

(** The functions do what their names say. *)
Lemma validate_functions :
  this_function_returns_true = true /\ this_function_returns_false = false.
Proof. done. Qed.

Lemma validate_main_output :
  validate_main = ("this_function_returns_true returned true" ++ newline_string ++
    "this_function_returns_false returned false" ++ newline_string, 0)%string.
Proof. reflexivity. Qed.

(** Three user names in the repository, all different: the test would fail also if it
    were written as its comment asks. *)
Lemma usernames_disagree :
  test_validate_my_username = false /\ test_as_described conf_username = false /\
  git_username <> conf_username.
Proof. done. Qed.
